(* ===== verification/_CoqProject ===== *)
-Q . S2P
Prelude.v
Conc.v
Ghost.v
Env.v
Queue.v
Sort.v
Mem.v
ThreadList.v
Thread.v
Lock.v
Search.v
Round.v
AllocIface.v
ThreadData.v
Proc.v
Wrappers.v
Alloc.v
AllocInv.v
Buffers.v
Reclaim.v
Collect.v
Zeros.v
Lifetime.v
Startup.v
History.v
