(* ===== verification/Prelude.v ===== *)
(** * ThreadScan: a verification development

    ThreadScan frees memory that threads of a C program share.  A thread that
    has unlinked a block passes it to [threadscan_collect] instead of free().
    When its queue of such pointers is full the thread becomes the reclaimer:
    it gathers the pointers of all threads in a sorted buffer, signals every
    other thread, and each thread scans its own stack and local block for
    references and marks the pointers it finds.  What nobody marked is freed,
    the rest is kept for the next round.  The library hooks into pthreads to
    know the threads and their stacks, and has an allocator of its own.

    ** The files

    - Prelude: the build configuration ([Build]: NDEBUG or not), results of a
      C call ([outcome]), machine integers, arrays, lists.
    - Conc, Ghost: programs over single shared words ([prog]), run alone
      ([run]) or interleaved ([pstep], sequentially consistent); a
      rely-guarantee logic ([rg]) and its extension with auxiliary state and
      waiting ([grg]), with soundness for every interleaving.
    - Mem: the flat memory of the process, by byte address.
    - Env (env.c): [env_init].
    - Queue (queue.c): the circular buffer, as a [prog] over its words.
    - Sort (util.c): [threadscan_util_sort], [threadscan_util_randomize].
    - ThreadList (util.c, util.h): the layout of [thread_data_t], the linked
      list of threads under its lock, FOREACH_IN_THREAD_LIST.
    - Thread (thread.c, proc.c): time stamps, try-acquire and release of the
      reclaimer's lock, signalling; Lock: mutual exclusion.
    - Search (threadscan.c): scan map, two-level search, marking.
    - Round (threadscan.c): [do_reclaim] and [signal_handler], interleaved.
    - AllocIface (alloc.h): the class [Allocator], what the reclaimer needs;
      Alloc, AllocInv (alloc.c): the code, its invariant, and the instance
      [alloc_allocator] of the class, for any operating system that keeps the
      promises of [VirtualMemoryLaws].
    - Buffers (threadscan.c): working buffer, left-over blocks, gathering,
      freeing; Reclaim: [threadscan_reclaim]; Collect: [threadscan_collect],
      step by step, and [threadscan_register_local_block]; Zeros: the zeros
      [handle_unreferenced_ptrs] can leave, and the round after.
    - History: sequences of all of these, on the discipline an application
      has to keep, and the safety of reclamation as a whole.
    - ThreadData (util.c, thread.c, proc.c): allocation, reference count and
      release of a thread's metadata; Wrappers (wrappers.c): pthread_create,
      pthread_exit, pthread_join and the replacement of main; Startup
      (wrappers.c, threadscan.c, thread.c): constructors and entry to main.
    - Lifetime: creation, end and join of threads, rounds with their signals
      and waits, and the handlers, interleaved word by word.
    - Proc (proc.c): /proc/self/maps, from characters to the stack's range.

    State: the records [queue_t], [threadscan_data_t] ([g_tsdata]),
    [memory_metadata_t] are the structs of the source.  [thread_data_t],
    [thread_list_t], the static variables and the scanned memory are cells of
    [mem] at the addresses a C compiler gives them, because threads reach them
    through pointers.  [rstate] is what the reclaimer owns, [alloc_state] the
    statics of alloc.c, [process] an allocator and a memory.

    ** What is shown

    - The whole: in every history freed memory is not referenced, nothing is
      freed twice (History).  One reclamation, in any interleaving with the
      other threads and the code they run, frees all addresses nobody referred
      to at its start and none somebody still refers to at its end, and it
      ends (Reclaim); with equal addresses or zeros, what is freed is counted.
    - Concurrency: marking is exact under every interleaving of all scanning
      threads (Search); a round misses no reference although the threads that
      have not been interrupted yet, or have scanned already, copy and drop
      references meanwhile, without fault, deadlock or endless schedule
      (Round); at most one reclaimer (Lock); the queue is a FIFO for one pusher and one popper
      (Queue); what a handler sees of a local block being registered
      (Collect).
    - Data structures: the thread list and the queue refine abstract ones, the
      sort is a sort, the allocator hands out fresh blocks and releases them,
      gathering and freeing do what their abstract descriptions say.
    - Threads: creation, start, exit and join in any order keep the two lists,
      the counter and the memory blocks in step; create-exit-join restores the
      state (Wrappers); whatever order the loader runs the constructors in,
      main starts with every wrapper resolved and its stack registered, and a
      wrapper called before that aborts a debug build, while in the release
      build pthread_create ends the process and pthread_exit and pthread_join
      are at fault (Startup).
    - The same interleaved (Lifetime): threads that create, join, leave and
      reclaim, with the handlers of the signals they are sent, never fault,
      lose the lists or block each other, and leave lists and counter as they
      should be.  A reclaimer gets the answers it waits for from threads that
      leave meanwhile too, and when it has them no signal is on its way.  At
      any moment each word of the library (lists, mutexes, counter, flags,
      reference counts, ids) holds what the stages of the threads say.
    - The loop of [threadscan_collect], among threads that do the same
      (Collect): what becomes of the pointer and of all that was queued, and
      how many steps the call takes at most for the times it yields.
    - Sizes and parsing: no overflow for the values env.c lets through
      (Env, Reclaim); a map line is read back as printed, and the search for
      a stack always ends (Proc).
    - Errors: what happens out of memory, for an unknown address, thread or
      range, without addresses, past the thread limit, when a zero is left
      among the addresses (a debug build stops in the next round: Zeros),
      and when the original pthread_create or pthread_join fails.

    ** Decisions

    - [int] arithmetic that overflows is undefined ([cint]); [size_t] wraps
      ([u64]).  An assert is checked in the debug build only ([c_assert]);
      [threadscan_fatal] aborts there and exits in the release build.
    - Loops that are not structural have fuel and a result [OutOfFuel].  It
      is never reached: the list of threads is shorter than [list_fuel] = 512
      (257 threads at most, see Wrappers), searches and sorts get the length
      of the range, left-over blocks and list nodes are fewer than the blocks
      and nodes there are, a line of the map that is read makes the file
      shorter.  The exception is the loop over the circular list of alloc.c
      for an address it does not contain, which has no end in the program.
    - Parameters: pthread_kill and signal delivery ([pthread_kill_delivers];
      in Lifetime a word per thread and the program [serve], whose fuel, the
      number of rounds in all plans, is never used up),
      mmap, munmap, mprotect, the original pthread functions and attributes,
      the contents of the map file.  Every hypothesis about them is met by a
      concrete function in a witness.
    - The scan and the round are interleaved word by word, so are the queue
      and, in Lifetime, the operations on threads.  The allocator is run as
      single steps, the operations on threads in Wrappers too.
      In Collect a step is one pass of a branch of the loop, or an operation
      of another thread; History interleaves whole operations.  In both the
      code that runs during a reclamation is interleaved with it.
    - What the application runs during a round is any program of reads and
      writes ([user] of Round.v) that keeps the discipline [user_ok]: a thread
      writes the words it scans and shared words outside of all stacks, and
      never makes a reference to a retired block it does not have already.
      That is what unlinking a block before it is collected ensures.

    ** Not modelled

    The text of diagnostics; opening and closing the map file; the alloca and
    memset of [threadscan_thread_base], which only move the stack frames of
    the user's routine to the next page; sched_yield. [threadscan_queue_pop]
    and [threadscan_queue_push_bulk] are declared in queue.c without a body.
    Lifetime keeps the addresses that are searched for the same from round to
    round, since gathering and freeing them is the reclaimer's alone and
    Reclaim has it, and registers no local blocks; a thread ends after its
    signals were handled, which the program leaves to the system. History and
    Wrappers each have their own view of the process: one has the memory an
    application shares, the other the blocks of the metadata. *)

From stdpp Require Export base numbers list gmap sorting.
From Stdlib Require Export ZArith Lia.

#[global] Open Scope Z_scope.

(** ** Build configuration

    The Makefile compiles with [-DNDEBUG] unless [DEBUG] is set.  [debug]
    says which of the two builds is modelled: it switches the [assert]s and
    the blocks under [#ifndef NDEBUG]. *)
Class Build := { debug : bool }.

Definition release_build : Build := {| debug := false |}.
Definition debug_build : Build := {| debug := true |}.

(** ** Outcomes of a C call

    [Ret a]: the call returns [a].  [Exited c]: the process ended through
    [exit(c)].  [Aborted]: an [assert] failed.  [UB]: undefined behaviour
    (null or out-of-range access, access to unmapped memory, signed
    overflow).  [OutOfFuel]: a loop of the model used up its fuel. *)
Inductive outcome (A : Type) : Type :=
| Ret (a : A)
| Exited (code : Z)
| Aborted
| UB
| OutOfFuel.
Arguments Ret {A} a.
Arguments Exited {A} code.
Arguments Aborted {A}.
Arguments UB {A}.
Arguments OutOfFuel {A}.

#[global] Instance outcome_ret : MRet outcome := @Ret.
#[global] Instance outcome_bind : MBind outcome := λ A B f m,
  match m with
  | Ret a => f a
  | Exited c => Exited c
  | Aborted => Aborted
  | UB => UB
  | OutOfFuel => OutOfFuel
  end.

(** [assert(b)] *)
Definition c_assert `{Build} (b : bool) : outcome unit :=
  if debug then (if b then Ret tt else Aborted) else Ret tt.

(** util.c: prints its message, then [assert(0); exit(1)]. *)
Definition threadscan_fatal `{Build} {A} : outcome A := if debug then Aborted else Exited 1.

(** An access that must succeed. *)
Definition of_option {A} (o : option A) : outcome A :=
  match o with Some a => Ret a | None => UB end.

(** ** Weakest preconditions: the call returns, and its result satisfies Q *)
Definition wp {A} (m : outcome A) (Q : A → Prop) : Prop :=
  match m with Ret a => Q a | _ => False end.

(** Equivalence under a hypothesis. *)
Lemma and_iff_under (A B C : Prop) : (A → B ↔ C) → A ∧ B ↔ A ∧ C.
Proof. tauto. Qed.

Lemma wp_iff {A} (m : outcome A) Q : wp m Q ↔ ∃ a, m = Ret a ∧ Q a.
Proof. destruct m; simpl; split; intros; firstorder congruence. Qed.

Lemma wp_ret {A} (a : A) (Q : A → Prop) : Q a → wp (Ret a) Q.
Proof. done. Qed.

Lemma wp_bind {A B} (m : outcome A) (f : A → outcome B) Q :
  wp m (λ a, wp (f a) Q) → wp (m ≫= f) Q.
Proof. by destruct m. Qed.

Lemma wp_mono {A} (m : outcome A) (P Q : A → Prop) :
  wp m P → (∀ a, P a → Q a) → wp m Q.
Proof. destruct m; simpl; auto. Qed.

Lemma wp_and {A} (m : outcome A) (P Q : A → Prop) : wp m P → wp m Q → wp m (λ a, P a ∧ Q a).
Proof. by destruct m. Qed.

Lemma wp_eq {A} (m : outcome A) a Q : m = Ret a → Q a → wp m Q.
Proof. by intros ->. Qed.

Lemma outcome_bind_ret {A B} (a : A) (f : A → outcome B) : Ret a ≫= f = f a.
Proof. done. Qed.

Lemma outcome_bind_assoc {A B C} (m : outcome A) (f : A → outcome B) (g : B → outcome C) :
  (m ≫= f) ≫= g = m ≫= λ a, f a ≫= g.
Proof. by destruct m. Qed.

(** A bind that returns: both halves return. *)
Lemma outcome_bind_inv {A B} (m : outcome A) (f : A → outcome B) b :
  m ≫= f = Ret b → ∃ a, m = Ret a ∧ f a = Ret b.
Proof. destruct m; simpl; try done. intros; eauto. Qed.

(** ** C integers

    [int] values are integers [z] with [in_int z]; [cint z] is the value of a
    signed expression, undefined on overflow.  [size_t], [unsigned long long]
    values are integers in [0, 2^64), [unsigned int] in [0, 2^32): [u64] and
    [u32] wrap around. *)
Definition INT_MAX : Z := 2147483647.
Definition INT_MIN : Z := -2147483648.
Definition in_int (z : Z) : bool := (INT_MIN <=? z) && (z <=? INT_MAX).
Definition cint (z : Z) : outcome Z := if in_int z then Ret z else UB.

Definition u64 (z : Z) : Z := z `mod` 2 ^ 64.
Definition u32 (z : Z) : Z := z `mod` 2 ^ 32.

(** Conversion of an unsigned value to [int] (two's complement). *)
Definition int_of_u64 (z : Z) : Z :=
  let w := z `mod` 2 ^ 32 in if w <=? INT_MAX then w else w - 2 ^ 32.

Definition is_u64 (z : Z) : Prop := 0 ≤ z < 2 ^ 64.

Lemma cint_in z : INT_MIN ≤ z ≤ INT_MAX → cint z = Ret z.
Proof. intros H. unfold cint, in_int. replace (_ && _) with true; [done|]. symmetry. lia. Qed.

Lemma cint_out z : z < INT_MIN ∨ INT_MAX < z → cint z = UB.
Proof. intros H. unfold cint, in_int. replace (_ && _) with false; [done|]. symmetry. lia. Qed.

Lemma wp_cint z Q : INT_MIN ≤ z ≤ INT_MAX → Q z → wp (cint z) Q.
Proof. intros H HQ. by rewrite cint_in. Qed.

Lemma u64_small z : 0 ≤ z < 2 ^ 64 → u64 z = z.
Proof. apply Z.mod_small. Qed.

Lemma u64_range z : is_u64 (u64 z).
Proof. unfold is_u64, u64. apply Z.mod_pos_bound. lia. Qed.

Lemma int_of_u64_small z : 0 ≤ z ≤ INT_MAX → int_of_u64 z = z.
Proof.
  unfold int_of_u64, INT_MAX. intros H. rewrite Z.mod_small by lia.
  destruct (Z.leb_spec z 2147483647); lia.
Qed.

(** Case analysis on the integer comparisons of a goal, pruned by [lia]. *)
Ltac z_cases :=
  repeat (match goal with
  | |- context [?a <=? ?b] => destruct (Z.leb_spec a b); try lia
  | |- context [?a <? ?b] => destruct (Z.ltb_spec a b); try lia
  | |- context [?a >? ?b] => rewrite (Z.gtb_ltb a b)
  | |- context [?a >=? ?b] => rewrite (Z.geb_leb a b)
  | |- context [?a =? ?b] => destruct (Z.eqb_spec a b); try lia
  end; cbn [andb orb negb]).

(** ** Arrays of machine words, indexed by C integers

    [znth]/[zupd] are total and used in specifications; the programs use
    [aget] and [aset], which are undefined out of range. *)
Definition zlen {A} (l : list A) : Z := Z.of_nat (length l).
Definition znth (a : list Z) (i : Z) : Z := nth (Z.to_nat i) a 0.
Definition zupd (a : list Z) (i v : Z) : list Z := <[Z.to_nat i := v]> a.

Definition aget (a : list Z) (i : Z) : outcome Z :=
  if (0 <=? i) && (i <? zlen a) then Ret (znth a i) else UB.
Definition aset (a : list Z) (i v : Z) : outcome (list Z) :=
  if (0 <=? i) && (i <? zlen a) then Ret (zupd a i v) else UB.

Lemma zlen_nonneg {A} (l : list A) : 0 ≤ zlen l.
Proof. unfold zlen. lia. Qed.

Lemma zlen_zupd a i v : zlen (zupd a i v) = zlen a.
Proof. unfold zlen, zupd. by rewrite length_insert. Qed.

Lemma zlen_app {A} (l k : list A) : zlen (l ++ k) = zlen l + zlen k.
Proof. unfold zlen. rewrite length_app. lia. Qed.

Lemma aget_in a i : 0 ≤ i < zlen a → aget a i = Ret (znth a i).
Proof. intros H. unfold aget. replace (_ && _) with true; [done|]. symmetry. lia. Qed.

Lemma aset_in a i v : 0 ≤ i < zlen a → aset a i v = Ret (zupd a i v).
Proof. intros H. unfold aset. replace (_ && _) with true; [done|]. symmetry. lia. Qed.

Lemma aget_out a i : ¬ (0 ≤ i < zlen a) → aget a i = UB.
Proof. intros H. unfold aget. replace (_ && _) with false; [done|]. symmetry. lia. Qed.

Lemma wp_aget a i Q : 0 ≤ i < zlen a → Q (znth a i) → wp (aget a i) Q.
Proof. intros H HQ. by rewrite aget_in. Qed.

Lemma wp_aset a i v Q : 0 ≤ i < zlen a → Q (zupd a i v) → wp (aset a i v) Q.
Proof. intros H HQ. by rewrite aset_in. Qed.

Lemma znth_lookup a i : 0 ≤ i < zlen a → a !! Z.to_nat i = Some (znth a i).
Proof.
  unfold zlen, znth. intros H.
  destruct (lookup_lt_is_Some_2 a (Z.to_nat i)) as [x Hx]; [lia|].
  by rewrite Hx, (nth_lookup_Some _ _ _ _ Hx).
Qed.

Lemma lookup_znth (a : list Z) (k : nat) x : a !! k = Some x → znth a (Z.of_nat k) = x.
Proof. unfold znth. rewrite Nat2Z.id. apply nth_lookup_Some. Qed.

Lemma znth_zupd_eq a i v : 0 ≤ i < zlen a → znth (zupd a i v) i = v.
Proof.
  intros H. unfold znth, zupd. apply nth_lookup_Some, list_lookup_insert_eq.
  unfold zlen in H. lia.
Qed.

Lemma znth_zupd_ne a i j v : 0 ≤ i → 0 ≤ j → i ≠ j → znth (zupd a i v) j = znth a j.
Proof.
  intros Hi Hj Hij. unfold znth, zupd. rewrite !nth_lookup, list_lookup_insert_ne; [done|lia].
Qed.

Lemma znth_zupd a i j v : 0 ≤ i < zlen a → 0 ≤ j →
  znth (zupd a i v) j = if decide (i = j) then v else znth a j.
Proof.
  intros Hi Hj. case_decide as E; [subst; by apply znth_zupd_eq|].
  apply znth_zupd_ne; lia.
Qed.

Lemma zupd_id a i : 0 ≤ i < zlen a → zupd a i (znth a i) = a.
Proof. intros H. by apply list_insert_id, znth_lookup. Qed.

(** Two arrays with the same length and the same elements are equal. *)
Lemma znth_ext a b :
  zlen a = zlen b → (∀ i, 0 ≤ i < zlen a → znth a i = znth b i) → a = b.
Proof.
  intros Hlen Hi. apply nth_ext with (d := 0) (d' := 0).
  - unfold zlen in Hlen. lia.
  - intros n Hn. specialize (Hi (Z.of_nat n)). unfold zlen, znth in Hi.
    rewrite Nat2Z.id in Hi. apply Hi. lia.
Qed.

Lemma znth_app_l a b i : 0 ≤ i < zlen a → znth (a ++ b) i = znth a i.
Proof. unfold znth, zlen. intros. apply app_nth1. lia. Qed.

Lemma znth_app_r a b i : zlen a ≤ i → znth (a ++ b) i = znth b (i - zlen a).
Proof.
  unfold znth, zlen. intros. rewrite app_nth2 by lia. f_equal. lia.
Qed.

Lemma znth_take (n : nat) a i : 0 ≤ i < Z.of_nat n → znth (take n a) i = znth a i.
Proof. intros H. unfold znth. rewrite !nth_lookup, lookup_take_lt; [done|lia]. Qed.

Lemma znth_drop (n : nat) a i : 0 ≤ i → znth (drop n a) i = znth a (Z.of_nat n + i).
Proof. intros H. unfold znth. rewrite !nth_lookup, lookup_drop. do 2 f_equal. lia. Qed.

Lemma zlen_take {A} (n : nat) (a : list A) : zlen (take n a) = Z.min (Z.of_nat n) (zlen a).
Proof. unfold zlen. rewrite length_take. lia. Qed.

Lemma zlen_drop {A} (n : nat) (a : list A) : zlen (drop n a) = Z.max 0 (zlen a - Z.of_nat n).
Proof. unfold zlen. rewrite length_drop. lia. Qed.

Lemma zlen_replicate {A} n (x : A) : zlen (replicate n x) = Z.of_nat n.
Proof. unfold zlen. by rewrite length_replicate. Qed.

Lemma znth_elem_of a i : 0 ≤ i < zlen a → znth a i ∈ a.
Proof. intros H. eapply list_elem_of_lookup_2, znth_lookup, H. Qed.

Lemma elem_of_znth a x : x ∈ a ↔ ∃ i, 0 ≤ i < zlen a ∧ znth a i = x.
Proof.
  split.
  - intros [k Hk]%list_elem_of_lookup. exists (Z.of_nat k).
    pose proof (lookup_lt_Some _ _ _ Hk). split; [unfold zlen; lia|by apply lookup_znth].
  - intros (i & Hi & <-). by apply znth_elem_of.
Qed.

Lemma zlen_cons {A} (x : A) l : zlen (x :: l) = zlen l + 1.
Proof. unfold zlen. simpl. lia. Qed.

Lemma znth_cons_0 x l : znth (x :: l) 0 = x.
Proof. done. Qed.

Lemma znth_cons_S x l i : 0 ≤ i → znth (x :: l) (i + 1) = znth l i.
Proof. intros. unfold znth. by replace (Z.to_nat (i + 1)) with (S (Z.to_nat i)) by lia. Qed.

Lemma filter_all (P : Z → Prop) `{!∀ x, Decision (P x)} (l : list Z) : (∀ x, x ∈ l → P x) → filter P l = l.
Proof.
  induction l as [|y l IH]; [done|]. intros Hl.
  rewrite filter_cons_True by (apply Hl; by left). f_equal. apply IH. intros x Hx. apply Hl. by right.
Qed.

Lemma filter_none (P : Z → Prop) `{!∀ x, Decision (P x)} (l : list Z) : (∀ x, x ∈ l → ¬ P x) → filter P l = [].
Proof.
  induction l as [|y l IH]; [done|]. intros Hl.
  rewrite filter_cons_False by (apply Hl; by left). apply IH. intros x Hx. apply Hl. by right.
Qed.

Lemma filter_ne_id (x : Z) (l : list Z) : x ∉ l → filter (.≠ x) l = l.
Proof. intros Hx. apply filter_all. by intros y Hy ->. Qed.

Lemma zupd_middle l x k v i : i = zlen l → zupd (l ++ x :: k) i v = l ++ v :: k.
Proof.
  intros ->. unfold zupd, zlen. rewrite Nat2Z.id. induction l as [|y l IH]; [done|]. simpl. by rewrite IH.
Qed.

Lemma znth_middle l x k i : i = zlen l → znth (l ++ x :: k) i = x.
Proof. intros ->. rewrite znth_app_r by done. by rewrite Z.sub_diag. Qed.

Lemma snoc_cases {A} (l : list A) : l = [] ∨ ∃ l' x, l = l' ++ [x].
Proof. induction l as [|x l _] using rev_ind; [by left|right; by exists l, x]. Qed.

(** The first element that satisfies a test. *)
Lemma first_split {A} (f : A → bool) (l : list A) x :
  x ∈ l → f x = true → ∃ l1 y l2, l = l1 ++ y :: l2 ∧ f y = true ∧ ∀ z, z ∈ l1 → f z = false.
Proof.
  induction l as [|a l IH]; [by intros ?%elem_of_nil|]. intros Hx Hf. destruct (f a) eqn:Ha.
  - exists [], a, l. split; [done|]. split; [done|]. by intros z ?%elem_of_nil.
  - apply elem_of_cons in Hx as [->|Hx]; [congruence|].
    destruct (IH Hx Hf) as (l1 & y & l2 & -> & Hy & Hl1). exists (a :: l1), y, l2.
    split; [done|]. split; [done|]. intros z [->|Hz]%elem_of_cons; auto.
Qed.

(** Sortedness by indices and as a list. *)
Lemma znth_StronglySorted_gen (R : relation Z) l :
  (∀ i j, 0 ≤ i → i < j → j < zlen l → R (znth l i) (znth l j)) → StronglySorted R l.
Proof.
  induction l as [|x l IH]; intros H; [constructor|]. apply StronglySorted_cons.
  rewrite zlen_cons in H. split.
  - apply Forall_forall. intros y (i & Hi & <-)%elem_of_znth.
    specialize (H 0 (i + 1)). rewrite znth_cons_0, znth_cons_S in H by lia. apply H; lia.
  - apply IH. intros i j Hi Hij Hj. specialize (H (i + 1) (j + 1)).
    rewrite !znth_cons_S in H by lia. apply H; lia.
Qed.

Lemma znth_StronglySorted l :
  (∀ i j, 0 ≤ i → i ≤ j → j < zlen l → znth l i ≤ znth l j) → StronglySorted Z.le l.
Proof. intros Hl. apply znth_StronglySorted_gen. intros i j ???. apply Hl; lia. Qed.

Lemma StronglySorted_lt_NoDup l : StronglySorted Z.lt l → NoDup l.
Proof.
  induction l as [|x l IH]; [constructor|]. intros [Hx Hl]%StronglySorted_cons. constructor; [|auto].
  rewrite Forall_forall in Hx. intros Hin. specialize (Hx x Hin). lia.
Qed.

(** A sorted list without duplicates is strictly sorted. *)
Lemma NoDup_znth_lt l :
  NoDup l → (∀ i j, 0 ≤ i → i ≤ j → j < zlen l → znth l i ≤ znth l j) →
  ∀ i j, 0 ≤ i → i < j → j < zlen l → znth l i < znth l j.
Proof.
  intros Hnd Hs i j Hi Hij Hj. specialize (Hs i j Hi ltac:(lia) Hj).
  assert (znth l i ≠ znth l j); [|lia]. intros E.
  assert (Z.to_nat i = Z.to_nat j) as E'; [|lia].
  eapply NoDup_lookup; [exact Hnd|apply znth_lookup; lia|]. rewrite E. apply znth_lookup. lia.
Qed.

Lemma StronglySorted_znth l :
  StronglySorted Z.le l → ∀ i j, 0 ≤ i → i ≤ j → j < zlen l → znth l i ≤ znth l j.
Proof.
  induction 1 as [|x l Hl IH Hx]; intros i j Hi Hij Hj; [change (zlen []) with 0 in Hj; lia|].
  rewrite zlen_cons in Hj. destruct (decide (i = 0)) as [->|].
  - destruct (decide (j = 0)) as [->|]; [done|]. replace j with ((j - 1) + 1) by lia.
    rewrite znth_cons_0, znth_cons_S by lia. rewrite Forall_forall in Hx. apply Hx.
    apply znth_elem_of. lia.
  - replace i with ((i - 1) + 1) by lia. replace j with ((j - 1) + 1) by lia.
    rewrite !znth_cons_S by lia. apply IH; lia.
Qed.

(** How often [a] occurs in [l]. *)
Definition occ (l : list Z) (a : Z) : nat := count_occ Z.eq_dec l a.

Lemma occ_cons x l a : occ (x :: l) a = ((if decide (x = a) then 1 else 0) + occ l a)%nat.
Proof. unfold occ. cbn. destruct (Z.eq_dec x a), (decide (x = a)); done || lia. Qed.

Lemma occ_app l1 l2 a : occ (l1 ++ l2) a = (occ l1 a + occ l2 a)%nat.
Proof. apply count_occ_app. Qed.

Lemma occ_pos l a : (0 < occ l a)%nat ↔ a ∈ l.
Proof. unfold occ. rewrite list_elem_of_In, (count_occ_In Z.eq_dec). lia. Qed.

Lemma occ_0 l a : occ l a = 0%nat ↔ a ∉ l.
Proof. rewrite <- occ_pos. lia. Qed.

#[export] Instance occ_proper : Proper ((≡ₚ) ==> (=) ==> (=)) occ.
Proof. intros l1 l2 Hp a ? <-. unfold occ. by rewrite (proj1 (Permutation_count_occ Z.eq_dec l1 l2) Hp a). Qed.

Lemma occ_take_drop n l a : occ l a = (occ (take n l) a + occ (drop n l) a)%nat.
Proof. by rewrite <- occ_app, take_drop. Qed.

Lemma occ_NoDup l : NoDup l ↔ ∀ a, (occ l a ≤ 1)%nat.
Proof. rewrite NoDup_ListNoDup. apply NoDup_count_occ. Qed.

Lemma occ_replicate n x a : x ≠ a → occ (replicate n x) a = 0%nat.
Proof. intros Hne. apply occ_0. by intros [-> _]%elem_of_replicate. Qed.

(** An element that occurs once has one index. *)
Lemma occ_1_index l i j :
  0 ≤ i < zlen l → 0 ≤ j < zlen l → znth l i = znth l j → occ l (znth l i) = 1%nat → i = j.
Proof.
  assert (∀ i j, 0 ≤ i → i < j → j < zlen l → znth l i = znth l j → (2 ≤ occ l (znth l i))%nat) as Hlt.
  { clear i j. intros i j Hi Hij Hj E. rewrite (occ_take_drop (Z.to_nat j)).
    assert (0 < occ (take (Z.to_nat j) l) (znth l i))%nat.
    { apply occ_pos, list_elem_of_lookup. exists (Z.to_nat i). rewrite lookup_take_lt by lia. apply znth_lookup. lia. }
    assert (0 < occ (drop (Z.to_nat j) l) (znth l i))%nat; [|lia].
    apply occ_pos, list_elem_of_lookup. exists 0%nat. rewrite E, lookup_drop, Nat.add_0_r. apply znth_lookup. lia. }
  intros Hi Hj E H1. destruct (Z.lt_trichotomy i j) as [?|[?|?]]; [|done|].
  - specialize (Hlt i j). lia.
  - specialize (Hlt j i). rewrite <- E in Hlt. lia.
Qed.

(** [blit dst off l]: [dst] with [l] written over it from index [off] on. *)
Definition blit (dst : list Z) (off : Z) (l : list Z) : list Z :=
  take (Z.to_nat off) dst ++ l ++ drop (Z.to_nat off + length l) dst.

(** The [n] words of [a] from index [lo] on. *)
Definition slice (a : list Z) (lo n : Z) : list Z :=
  take (Z.to_nat n) (drop (Z.to_nat lo) a).

(** memcpy of [n] words of [src] at [soff] to [dst] at [doff]. *)
Definition memcpy (dst : list Z) (doff : Z) (src : list Z) (soff n : Z) : outcome (list Z) :=
  if (0 <=? n) && (0 <=? doff) && (doff + n <=? zlen dst) && (0 <=? soff) && (soff + n <=? zlen src)
  then Ret (blit dst doff (slice src soff n))
  else UB.

Lemma memcpy_in dst doff src soff n :
  0 ≤ n → 0 ≤ doff → doff + n ≤ zlen dst → 0 ≤ soff → soff + n ≤ zlen src →
  memcpy dst doff src soff n = Ret (blit dst doff (slice src soff n)).
Proof.
  intros. unfold memcpy. replace (_ && _) with true; [done|]. symmetry. lia.
Qed.

Lemma zlen_slice a lo n : 0 ≤ lo → 0 ≤ n → lo + n ≤ zlen a → zlen (slice a lo n) = n.
Proof. intros. unfold slice. rewrite zlen_take, zlen_drop. lia. Qed.

Lemma znth_slice a lo n i : 0 ≤ lo → 0 ≤ i < n → znth (slice a lo n) i = znth a (lo + i).
Proof. intros. unfold slice. rewrite znth_take, znth_drop by lia. f_equal. lia. Qed.

Lemma slice_split a lo n m :
  0 ≤ lo → 0 ≤ n → 0 ≤ m → slice a lo (n + m) = slice a lo n ++ slice a (lo + n) m.
Proof.
  intros. unfold slice.
  replace (Z.to_nat (n + m)) with (Z.to_nat n + Z.to_nat m)%nat by lia.
  rewrite <- take_take_drop, drop_drop. do 3 f_equal. lia.
Qed.

Lemma slice_all a : slice a 0 (zlen a) = a.
Proof. unfold slice, zlen. rewrite Nat2Z.id. by rewrite firstn_all. Qed.

Lemma zlen_blit dst off l : 0 ≤ off → off + zlen l ≤ zlen dst → zlen (blit dst off l) = zlen dst.
Proof.
  intros. unfold blit. rewrite !zlen_app, zlen_take, zlen_drop. unfold zlen in *. lia.
Qed.

Lemma znth_blit dst off l i :
  0 ≤ off → off + zlen l ≤ zlen dst → 0 ≤ i →
  znth (blit dst off l) i =
    if (off <=? i) && (i <? off + zlen l) then znth l (i - off) else znth dst i.
Proof.
  intros Ho Hl Hi. unfold blit. pose proof (zlen_nonneg l).
  assert (zlen (take (Z.to_nat off) dst) = off) as Ht by (rewrite zlen_take; lia).
  destruct (Z.leb_spec off i); simpl.
  - rewrite znth_app_r by lia. rewrite Ht. destruct (Z.ltb_spec i (off + zlen l)).
    + by rewrite znth_app_l by lia.
    + rewrite znth_app_r by lia. rewrite znth_drop by lia. f_equal. unfold zlen in *. lia.
  - rewrite znth_app_l by lia. apply znth_take. lia.
Qed.

Lemma blit_nil dst off : blit dst off [] = dst.
Proof. unfold blit. simpl. rewrite Nat.add_0_r. apply take_drop. Qed.

(** Writing in two pieces, and writing one more word. *)
Lemma blit_app dst off l k :
  0 ≤ off → off + zlen l + zlen k ≤ zlen dst →
  blit (blit dst off l) (off + zlen l) k = blit dst off (l ++ k).
Proof.
  intros Ho Hl. pose proof (zlen_nonneg l). pose proof (zlen_nonneg k).
  apply znth_ext; rewrite !zlen_blit; rewrite ?zlen_blit, ?zlen_app; try lia.
  intros i Hi. rewrite !znth_blit; rewrite ?zlen_blit, ?zlen_app; try lia.
  destruct (Z.ltb_spec i (off + zlen l)).
  - z_cases; try done. rewrite znth_app_l by lia. done.
  - z_cases; try done. rewrite znth_app_r by lia. f_equal. lia.
Qed.

Lemma blit_snoc dst off l v :
  0 ≤ off → off + zlen l < zlen dst →
  zupd (blit dst off l) (off + zlen l) v = blit dst off (l ++ [v]).
Proof.
  intros Ho Hl. pose proof (zlen_nonneg l).
  rewrite <- blit_app by (unfold zlen in *; simpl; lia).
  apply znth_ext.
  - rewrite zlen_zupd, !zlen_blit; rewrite ?zlen_blit; unfold zlen in *; simpl; lia.
  - intros i Hi. rewrite zlen_zupd, zlen_blit in Hi by lia.
    rewrite znth_zupd by (rewrite ?zlen_blit; lia).
    rewrite (znth_blit (blit _ _ _)) by (rewrite ?zlen_blit; unfold zlen in *; simpl; lia).
    change (zlen [v]) with 1. case_decide; z_cases; try done.
    by replace (i - (off + zlen l)) with 0 by lia.
Qed.

(** ** Loops

    [for_range lo hi body s] is [for (i = lo; i < hi; ++i) body]. *)
Fixpoint for_n {S} (n : nat) (i : Z) (body : Z → S → outcome S) (s : S) : outcome S :=
  match n with
  | O => Ret s
  | Datatypes.S n' => s' ← body i s; for_n n' (i + 1) body s'
  end.

Definition for_range {S} (lo hi : Z) (body : Z → S → outcome S) (s : S) : outcome S :=
  for_n (Z.to_nat (hi - lo)) lo body s.

(** The rule of loop invariants. *)
Lemma wp_for_range {S} (I : Z → S → Prop) lo hi body s (Q : S → Prop) :
  I lo s →
  (∀ i s, lo ≤ i < hi → I i s → wp (body i s) (I (i + 1))) →
  (∀ s, I (Z.max lo hi) s → Q s) →
  wp (for_range lo hi body s) Q.
Proof.
  intros H0 Hstep HQ. unfold for_range.
  apply wp_mono with (P := I (Z.max lo hi)); [|done].
  set (n := Z.to_nat (hi - lo)).
  assert (∀ n i s, lo ≤ i → i + Z.of_nat n = Z.max lo hi → I i s →
            wp (for_n n i body s) (I (Z.max lo hi))) as Hn.
  { clear n s H0. induction n as [|n IH]; intros i s Hi Hn HI; simpl.
    - by replace (Z.max lo hi) with i by lia.
    - apply wp_bind. eapply wp_mono; [apply Hstep; [lia|done]|].
      intros s' HI'. apply IH; [lia|lia|done]. }
  apply Hn; [lia|lia|done].
Qed.

(** ** Bits *)

(** Equality of integers by their bits. *)
Ltac z_bits := apply Z.bits_inj'; intros ? ?.

Lemma testbit_small x n i : 0 ≤ x < 2 ^ n → 0 ≤ n ≤ i → Z.testbit x i = false.
Proof.
  intros Hx Hn. destruct (decide (x = 0)) as [->|Hx0]; [apply Z.testbit_0_l|].
  apply Z.bits_above_log2; [lia|].
  pose proof (Z.log2_lt_pow2 x n). lia.
Qed.

Lemma land_low_mod x n : 0 ≤ n → Z.land x (2 ^ n - 1) = x `mod` 2 ^ n.
Proof. intros. rewrite <- Z.land_ones, Z.ones_equiv by done. f_equal. Qed.

(** Masking off the low [n] bits rounds down to a multiple of [2^n]. *)
Lemma land_lnot_ones x n : 0 ≤ n → Z.land x (Z.lnot (Z.ones n)) = x - x `mod` 2 ^ n.
Proof.
  intros Hn. rewrite <- Z.ldiff_land, Z.ldiff_ones_r by done.
  rewrite Z.shiftl_mul_pow2, Z.shiftr_div_pow2 by done.
  pose proof (Z.div_mod x (2 ^ n)). lia.
Qed.

Lemma zlog2_up_pow2_le x n : 0 ≤ n → 0 < x → x ≤ 2 ^ n → 2 ^ Z.log2_up x ≤ 2 ^ n.
Proof.
  intros Hn Hx Hle. apply Z.pow_le_mono_r; [lia|]. by apply Z.log2_up_le_pow2.
Qed.

(** On negative numbers [lor] does not decrease. *)
Lemma lor_neg_ge x y : x < 0 → x ≤ Z.lor x y.
Proof.
  intros Hx.
  assert (Z.lor x y = x + Z.ldiff y x) as ->.
  { rewrite Z.add_nocarry_lor.
    - z_bits. rewrite !Z.lor_spec, Z.ldiff_spec. by destruct (Z.testbit x n), (Z.testbit y n).
    - z_bits. rewrite Z.land_spec, Z.ldiff_spec, Z.testbit_0_l.
      by destruct (Z.testbit x n), (Z.testbit y n). }
  assert (0 ≤ Z.ldiff y x) by (apply Z.ldiff_nonneg; lia). lia.
Qed.
