(* ===== verification/Conc.v ===== *)
(** * Shared-memory programs, their sequential runs and their interleavings

    Code that runs concurrently with other threads is a [prog]: a tree of
    reads and writes of single shared words.  [run] executes one program
    alone; [pstep] interleaves the reads and writes of several programs in
    any order (sequential consistency).  [rg] is a rely-guarantee assertion
    on one program; [rg_run] and [rg_pool_sound] turn it into a fact about a
    sequential run and about every interleaving. *)

From S2P Require Import Prelude.

(** A memory of type [M] whose single words are named by [L]. *)
Class Shared (M L : Type) := {
  sread : M → L → outcome Z;
  swrite : M → L → Z → outcome M;
}.

Inductive prog (L A : Type) : Type :=
| Stop (o : outcome A)
| Rd (l : L) (k : Z → prog L A)
| Wr (l : L) (v : Z) (k : prog L A)
| Rmw (l : L) (f : Z → option Z) (k : Z → prog L A)
| Await (l : L) (c : Z → bool) (k : Z → prog L A).
Arguments Stop {L A} o.
Arguments Rd {L A} l k.
Arguments Wr {L A} l v k.
Arguments Rmw {L A} l f k.
Arguments Await {L A} l c k.

Fixpoint prog_bind {L A B} (p : prog L A) (f : A → prog L B) : prog L B :=
  match p with
  | Stop (Ret a) => f a
  | Stop (Exited c) => Stop (Exited c)
  | Stop Aborted => Stop Aborted
  | Stop UB => Stop UB
  | Stop OutOfFuel => Stop OutOfFuel
  | Rd l k => Rd l (λ v, prog_bind (k v) f)
  | Wr l v k => Wr l v (prog_bind k f)
  | Rmw l g k => Rmw l g (λ v, prog_bind (k v) f)
  | Await l c k => Await l c (λ v, prog_bind (k v) f)
  end.

#[global] Instance prog_mret {L} : MRet (prog L) := λ A a, Stop (Ret a).
#[global] Instance prog_mbind {L} : MBind (prog L) := λ A B f p, prog_bind p f.

Definition rd {L} (l : L) : prog L Z := Rd l (λ v, Stop (Ret v)).
Definition wr {L} (l : L) (v : Z) : prog L unit := Wr l v (Stop (Ret tt)).

(** An atomic read-modify-write that waits until [f] is defined; the result
    is the old value. *)
Definition rmw {L} (l : L) (f : Z → option Z) : prog L Z := Rmw l f (λ v, Stop (Ret v)).

(** A loop that only reads [l] until [c] holds of the value. *)
Definition await {L} (l : L) (c : Z → bool) : prog L Z := Await l c (λ v, Stop (Ret v)).

(** gcc's atomic builtins; all the counters of the program are of type [int]. *)
Definition sync_fetch_and_add {L} (l : L) (n : Z) : prog L Z := rmw l (λ v, Some (int_of_u64 (v + n))).
Definition sync_fetch_and_sub {L} (l : L) (n : Z) : prog L Z := rmw l (λ v, Some (int_of_u64 (v - n))).
Definition sync_lock_test_and_set {L} (l : L) (n : Z) : prog L Z := rmw l (λ _, Some n).
Definition BCAS {L} (l : L) (compare swap : Z) : prog L bool :=
  v ← rmw l (λ v, Some (if v =? compare then swap else v)); mret (v =? compare).

(** A mutex is a word that is 0 when the mutex is free. *)
Definition pthread_mutex_lock {L} (l : L) : prog L unit :=
  _ ← rmw l (λ v, if v =? 0 then Some 1 else None); mret tt.
Definition pthread_mutex_unlock {L} (l : L) : prog L unit := wr l 0.

Definition lift {L A} (o : outcome A) : prog L A := Stop o.

(** The loop combinator of the prelude, for shared-memory programs. *)
Fixpoint pfor_n {L S} (n : nat) (i : Z) (body : Z → S → prog L S) (s : S) : prog L S :=
  match n with
  | O => mret s
  | Datatypes.S n' => s' ← body i s; pfor_n n' (i + 1) body s'
  end.

Definition pfor_range {L S} (lo hi : Z) (body : Z → S → prog L S) (s : S) : prog L S :=
  pfor_n (Z.to_nat (hi - lo)) lo body s.

Section conc.
Context {M L : Type} `{!Shared M L}.

(** ** Sequential runs *)
Fixpoint run {A} (p : prog L A) (m : M) : outcome (A * M) :=
  match p with
  | Stop o => a ← o; Ret (a, m)
  | Rd l k => v ← sread m l; run (k v) m
  | Wr l v k => m' ← swrite m l v; run k m'
  | Rmw l f k =>
      v ← sread m l;
      match f v with Some w => m' ← swrite m l w; run (k v) m' | None => OutOfFuel end
  | Await l c k => v ← sread m l; if c v then run (k v) m else OutOfFuel
  end.

(** ** Interleavings *)
Inductive pstep {A} : list (prog L A) * M → list (prog L A) * M → Prop :=
| pstep_rd ps m i l k v :
    ps !! i = Some (Rd l k) → sread m l = Ret v →
    pstep (ps, m) (<[i := k v]> ps, m)
| pstep_wr ps m i l v k m' :
    ps !! i = Some (Wr l v k) → swrite m l v = Ret m' →
    pstep (ps, m) (<[i := k]> ps, m')
| pstep_rmw ps m i l f k v w m' :
    ps !! i = Some (Rmw l f k) → sread m l = Ret v → f v = Some w → swrite m l w = Ret m' →
    pstep (ps, m) (<[i := k v]> ps, m')
| pstep_await ps m i l c k v :
    ps !! i = Some (Await l c k) → sread m l = Ret v → c v = true →
    pstep (ps, m) (<[i := k v]> ps, m).

Lemma pstep_length {A} (c c' : list (prog L A) * M) : rtc pstep c c' → length c'.1 = length c.1.
Proof.
  induction 1 as [|c c1 c2 Hs _ IH]; [done|]. rewrite IH.
  destruct Hs; simpl; by rewrite length_insert.
Qed.

(** The same interleaving, driven by a schedule: a list of thread numbers. *)
Definition pexec {A} (i : nat) (c : list (prog L A) * M) : option (list (prog L A) * M) :=
  match c.1 !! i with
  | Some (Rd l k) =>
      match sread c.2 l with Ret v => Some (<[i := k v]> c.1, c.2) | _ => None end
  | Some (Wr l v k) =>
      match swrite c.2 l v with Ret m' => Some (<[i := k]> c.1, m') | _ => None end
  | Some (Rmw l f k) =>
      match sread c.2 l with
      | Ret v =>
          match f v with
          | Some w => match swrite c.2 l w with Ret m' => Some (<[i := k v]> c.1, m') | _ => None end
          | None => None
          end
      | _ => None
      end
  | Some (Await l g k) =>
      match sread c.2 l with
      | Ret v => if g v then Some (<[i := k v]> c.1, c.2) else None
      | _ => None
      end
  | _ => None
  end.

(** A turn given to a thread that cannot step is skipped. *)
Fixpoint psched {A} (sched : list nat) (c : list (prog L A) * M) : list (prog L A) * M :=
  match sched with
  | [] => c
  | i :: sched' => psched sched' (default c (pexec i c))
  end.

Lemma pexec_pstep {A} i (c c' : list (prog L A) * M) : pexec i c = Some c' → pstep c c'.
Proof.
  destruct c as [ps m]. unfold pexec. simpl. intros H.
  destruct (ps !! i) as [[o|l k|l v k|l f k|l g k]|] eqn:Hi; try discriminate H.
  - destruct (sread m l) eqn:Hr; try discriminate H. injection H as <-. by econstructor.
  - destruct (swrite m l v) eqn:Hr; try discriminate H. injection H as <-. by econstructor.
  - destruct (sread m l) eqn:Hr; try discriminate H.
    destruct (f a) as [w|] eqn:Hf; try discriminate H.
    destruct (swrite m l w) eqn:Hw; try discriminate H. injection H as <-. by econstructor.
  - destruct (sread m l) eqn:Hr; try discriminate H. destruct (g a) eqn:Hg; try discriminate H.
    injection H as <-. by econstructor.
Qed.

Lemma pstep_pexec {A} (c c' : list (prog L A) * M) : pstep c c' → ∃ i, (i < length c.1)%nat ∧ pexec i c = Some c'.
Proof.
  intros [ps m i l k v Hi Hr|ps m i l v k m' Hi Hw|ps m i l f k v w m' Hi Hr Hf Hw|ps m i l g k v Hi Hr Hg];
    exists i; (split; [by eapply lookup_lt_Some|]); unfold pexec; simpl; rewrite Hi.
  - by rewrite Hr.
  - by rewrite Hw.
  - by rewrite Hr, Hf, Hw.
  - by rewrite Hr, Hg.
Qed.

(** Nobody can step. *)
Definition stuck {A} (c : list (prog L A) * M) : bool :=
  forallb (λ i, if pexec i c then false else true) (seq 0 (length c.1)).

Lemma stuck_no_step {A} (c : list (prog L A) * M) : stuck c = true → ¬ ∃ c', pstep c c'.
Proof.
  intros Hs (c' & (i & Hi & E)%pstep_pexec). unfold stuck in Hs. rewrite forallb_forall in Hs.
  specialize (Hs i). rewrite E in Hs. by specialize (Hs ltac:(apply in_seq; lia)).
Qed.

Lemma psched_rtc {A} sched (c : list (prog L A) * M) : rtc pstep c (psched sched c).
Proof.
  revert c. induction sched as [|i sched IH]; intros c; simpl; [done|].
  destruct (pexec i c) as [c'|] eqn:Hc; simpl; [|done].
  eapply rtc_l; [by eapply pexec_pstep|]. apply IH.
Qed.

(** A thread that can neither step nor has returned: it made an access
    outside of memory, failed an assertion, or exited. *)
Definition faulty {A} (p : prog L A) (m : M) : Prop :=
  match p with
  | Stop o => ∀ a, o ≠ Ret a
  | Rd l _ => ∀ v, sread m l ≠ Ret v
  | Wr l v _ => ∀ m', swrite m l v ≠ Ret m'
  | Rmw l f _ =>
      (∀ v, sread m l ≠ Ret v) ∨
      ∃ v w, sread m l = Ret v ∧ f v = Some w ∧ ∀ m', swrite m l w ≠ Ret m'
  | Await l _ _ => ∀ v, sread m l ≠ Ret v
  end.

(** A thread that waits in a loop for a value that is not there. *)
Definition blocked {A} (p : prog L A) (m : M) : Prop :=
  match p with
  | Rmw l f _ => ∃ v, sread m l = Ret v ∧ f v = None
  | Await l c _ => ∃ v, sread m l = Ret v ∧ c v = false
  | _ => False
  end.

(** ** Rely-guarantee

    [rg] asks that the program is never at fault and never waits; [grg]
    below is for programs that wait for other threads. *)
Fixpoint rg {A} (R G : M → M → Prop) (p : prog L A) (Q : A → M → Prop) (m : M) : Prop :=
  match p with
  | Stop o => ∀ m', R m m' → wp o (λ a, Q a m')
  | Rd l k => ∀ m', R m m' → wp (sread m' l) (λ v, rg R G (k v) Q m')
  | Wr l v k => ∀ m', R m m' → wp (swrite m' l v) (λ m'', G m' m'' ∧ rg R G k Q m'')
  | Rmw l f k => ∀ m', R m m' →
      wp (sread m' l) (λ v,
        ∃ w, f v = Some w ∧ wp (swrite m' l w) (λ m'', G m' m'' ∧ rg R G (k v) Q m''))
  | Await l c k => ∀ m', R m m' → wp (sread m' l) (λ v, c v = true ∧ rg R G (k v) Q m')
  end.

Lemma rg_mono {A} R G (p : prog L A) (P Q : A → M → Prop) m :
  rg R G p P m → (∀ a m, P a m → Q a m) → rg R G p Q m.
Proof.
  intros H HPQ. revert m H. induction p as [o|l k IH|l v k IH|l f k IH|l c k IH]; intros m H m' HR; simpl in *.
  - eapply wp_mono; [by apply H|]. eauto.
  - eapply wp_mono; [by apply H|]. eauto.
  - eapply wp_mono; [by apply H|]. intros m'' [HG Hk]. eauto.
  - eapply wp_mono; [by apply H|]. intros v (w & Hw & Hv). exists w.
    split; [done|]. eapply wp_mono; [exact Hv|]. intros m'' [? ?]. eauto.
  - eapply wp_mono; [by apply H|]. intros v [? ?]. eauto.
Qed.

Lemma rg_stable {A} R G (p : prog L A) Q m m' :
  Transitive R → R m m' → rg R G p Q m → rg R G p Q m'.
Proof. intros HT HR. destruct p; simpl; intros H m'' HR'; apply H; by etrans. Qed.

Lemma rg_bind {A B} R G (p : prog L A) (f : A → prog L B) Q m :
  Reflexive R → rg R G p (λ a, rg R G (f a) Q) m → rg R G (p ≫= f) Q m.
Proof.
  intros HR. unfold mbind, prog_mbind. revert m.
  induction p as [o|l k IH|l v k IH|l h k IH|l c k IH]; intros m H; simpl in *.
  - specialize (H m (reflexivity m)). by destruct o.
  - intros m' HR'. eapply wp_mono; [by apply H|]. eauto.
  - intros m' HR'. eapply wp_mono; [by apply H|]. intros m'' [HG Hk]. eauto.
  - intros m' HR'. eapply wp_mono; [by apply H|]. intros v (w & Hw & Hv). exists w.
    split; [done|]. eapply wp_mono; [exact Hv|]. intros m'' [? ?]. eauto.
  - intros m' HR'. eapply wp_mono; [by apply H|]. intros v [? ?]. eauto.
Qed.

(** The rules the proofs step with: one read, write or private step at
    the head of a program. *)
Lemma rg_bind_rd {A} R G l (k : Z → prog L A) Q m :
  (∀ m', R m m' → wp (sread m' l) (λ v, rg R G (k v) Q m')) → rg R G (rd l ≫= k) Q m.
Proof. done. Qed.

Lemma rg_bind_wr {A} R G l v (k : unit → prog L A) Q m :
  (∀ m', R m m' → wp (swrite m' l v) (λ m'', G m' m'' ∧ rg R G (k tt) Q m'')) →
  rg R G (wr l v ≫= k) Q m.
Proof. done. Qed.

Lemma rg_bind_lift {A B} R G (o : outcome A) (k : A → prog L B) Q m :
  wp o (λ a, rg R G (k a) Q m) → rg R G (lift o ≫= k) Q m.
Proof. by destruct o. Qed.

Lemma rg_bind_ret {A B} R G (a : A) (k : A → prog L B) Q m :
  rg R G (k a) Q m → rg R G (mret a ≫= k) Q m.
Proof. done. Qed.

Lemma rg_bind_assoc {A B C} R G (p : prog L A) (f : A → prog L B) (g : B → prog L C) Q m :
  rg R G (p ≫= λ a, f a ≫= g) Q m → rg R G ((p ≫= f) ≫= g) Q m.
Proof.
  unfold mbind, prog_mbind. revert m.
  induction p as [o|l k IH|l v k IH|l h k IH|l c k IH]; intros m; simpl.
  - by destruct o.
  - intros H m' HR'. eapply wp_mono; [by apply H|]. eauto.
  - intros H m' HR'. eapply wp_mono; [by apply H|]. intros m'' [? ?]. eauto.
  - intros H m' HR'. eapply wp_mono; [by apply H|]. intros v (w & Hw & Hv). exists w.
    split; [done|]. eapply wp_mono; [exact Hv|]. intros m'' [? ?]. eauto.
  - intros H m' HR'. eapply wp_mono; [by apply H|]. intros v [? ?]. eauto.
Qed.

Lemma rg_ret {A} R G (a : A) (Q : A → M → Prop) m :
  (∀ m', R m m' → Q a m') → rg R G (mret a) Q m.
Proof. done. Qed.

Lemma rg_lift {A} R G (o : outcome A) (Q : A → M → Prop) m :
  wp o (λ a, ∀ m', R m m' → Q a m') → rg R G (lift o) Q m.
Proof. simpl. intros H m' HR. eapply wp_mono; [exact H|]. eauto. Qed.

Lemma rg_rd R G l (Q : Z → M → Prop) m :
  Transitive R →
  (∀ m', R m m' → wp (sread m' l) (λ v, ∀ m'', R m' m'' → Q v m'')) → rg R G (rd l) Q m.
Proof. simpl. intros HT H m' HR. eapply wp_mono; [by apply H|]. eauto. Qed.

Lemma rg_wr R G l v (Q : unit → M → Prop) m :
  (∀ m', R m m' → wp (swrite m' l v) (λ m'', G m' m'' ∧ ∀ m3, R m'' m3 → Q tt m3)) →
  rg R G (wr l v) Q m.
Proof. simpl. intros H m' HR. eapply wp_mono; [by apply H|]. eauto. Qed.

(** Loops: an invariant that is kept by the iterations. *)
Lemma rg_pfor_range {S} R G (I : Z → S → M → Prop) lo hi (body : Z → S → prog L S) s Q m :
  Reflexive R → Transitive R →
  (∀ i s m m', I i s m → R m m' → I i s m') →
  I lo s m →
  (∀ i s m, lo ≤ i < hi → I i s m → rg R G (body i s) (I (i + 1)) m) →
  (∀ s m, I (Z.max lo hi) s m → Q s m) →
  rg R G (pfor_range lo hi body s) Q m.
Proof.
  intros HR HT Hst H0 Hstep HQ. unfold pfor_range.
  apply rg_mono with (P := I (Z.max lo hi)); [|done].
  set (n := Z.to_nat (hi - lo)).
  assert (∀ n i s m, lo ≤ i → i + Z.of_nat n = Z.max lo hi → I i s m →
            rg R G (pfor_n n i body s) (I (Z.max lo hi)) m) as Hn.
  { clear n s m H0. induction n as [|n IH]; intros i s m Hi Hn HI.
    - replace (Z.max lo hi) with i by lia. apply rg_ret. eauto.
    - simpl. apply rg_bind; [done|]. eapply rg_mono; [apply Hstep; [lia|done]|].
      intros s' m' HI'. apply IH; [lia|lia|done]. }
  apply Hn; [lia|lia|done].
Qed.

(** Two postconditions of one program, and facts nobody invalidates. *)
Lemma rg_conj {A} R G (p : prog L A) Q1 Q2 m :
  rg R G p Q1 m → rg R G p Q2 m → rg R G p (λ a m, Q1 a m ∧ Q2 a m) m.
Proof.
  revert m. induction p as [o|l k IH|l v k IH|l f k IH|l c k IH]; intros m H1 H2 m' HR'; simpl in *;
    specialize (H1 m' HR'); specialize (H2 m' HR').
  - by destruct o.
  - destruct (sread m' l); simpl in *; try done. auto.
  - destruct (swrite m' l v); simpl in *; try done. destruct H1, H2. auto.
  - destruct (sread m' l) as [v| | | |]; simpl in *; try done.
    destruct H1 as (w & Hw & H1), H2 as (w' & Hw' & H2). exists w. split; [done|].
    replace w' with w in H2 by congruence.
    destruct (swrite m' l w); simpl in *; try done. destruct H1, H2. auto.
  - destruct (sread m' l); simpl in *; try done. destruct H1, H2. auto.
Qed.

(** A family of conditional postconditions. *)
Lemma rg_forall {A I} R G (H : I → Prop) (p : prog L A) P (Q : I → A → M → Prop) m :
  rg R G p P m → (∀ i, H i → rg R G p (Q i) m) →
  rg R G p (λ a m, P a m ∧ ∀ i, H i → Q i a m) m.
Proof.
  revert m. induction p as [o|l k IH|l v k IH|l f k IH|l c k IH]; intros m HP HQ m' HR'; simpl in *;
    specialize (HP m' HR').
  - destruct o; simpl in *; try done. split; [done|]. intros i Hi. by apply (HQ i Hi m').
  - destruct (sread m' l) eqn:Hr; simpl in *; try done. apply IH; [done|].
    intros i Hi. specialize (HQ i Hi m' HR'). by rewrite Hr in HQ.
  - destruct (swrite m' l v) eqn:Hr; simpl in *; try done. destruct HP as [HG HP]. split; [done|].
    apply IH; [done|]. intros i Hi. specialize (HQ i Hi m' HR'). rewrite Hr in HQ. apply HQ.
  - destruct (sread m' l) as [v| | | |] eqn:Hr; simpl in *; try done.
    destruct HP as (w & Hf & HP). exists w. split; [done|].
    destruct (swrite m' l w) eqn:Hw; simpl in *; try done. destruct HP as [HG HP]. split; [done|].
    apply IH; [done|]. intros i Hi. specialize (HQ i Hi m' HR'). rewrite Hr in HQ.
    destruct HQ as (w' & Hf' & HQ). replace w' with w in HQ by congruence. rewrite Hw in HQ. apply HQ.
  - destruct (sread m' l) eqn:Hr; simpl in *; try done. destruct HP as [Hc HP]. split; [done|].
    apply IH; [done|]. intros i Hi. specialize (HQ i Hi m' HR'). rewrite Hr in HQ. apply HQ.
Qed.

Lemma rg_frame {A} (R G : M → M → Prop) (B : M → Prop) (p : prog L A) Q m :
  (∀ m m', R m m' → B m → B m') → (∀ m m', G m m' → B m → B m') →
  rg R G p Q m → B m → rg R G p (λ a m, Q a m ∧ B m) m.
Proof.
  intros HBR HBG. revert m. induction p as [o|l k IH|l v k IH|l f k IH|l c k IH]; intros m H HB m' HR'; simpl in *.
  - eapply wp_mono; [by apply H|]. eauto.
  - eapply wp_mono; [by apply H|]. eauto.
  - eapply wp_mono; [by apply H|]. intros m'' [? ?]. eauto.
  - eapply wp_mono; [by apply H|]. intros v (w & Hw & Hv). exists w.
    split; [done|]. eapply wp_mono; [exact Hv|]. intros m'' [? ?]. eauto.
  - eapply wp_mono; [by apply H|]. intros v [? ?]. eauto.
Qed.

(** Without interference a rely-guarantee assertion describes the run. *)
Lemma rg_run {A} G (p : prog L A) Q m :
  rg eq G p Q m → wp (run p m) (λ r, Q r.1 r.2).
Proof.
  revert m. induction p as [o|l k IH|l v k IH|l f k IH|l c k IH]; intros m H; simpl in *.
  - specialize (H m eq_refl). apply wp_bind. eapply wp_mono; [exact H|]. done.
  - specialize (H m eq_refl). apply wp_bind. eapply wp_mono; [exact H|]. eauto.
  - specialize (H m eq_refl). apply wp_bind. eapply wp_mono; [exact H|]. intros m' [_ Hk]. eauto.
  - specialize (H m eq_refl). apply wp_bind. eapply wp_mono; [exact H|]. intros v (w & Hw & Hv).
    rewrite Hw. apply wp_bind. eapply wp_mono; [exact Hv|]. intros m' [_ Hk]. eauto.
  - specialize (H m eq_refl). apply wp_bind. eapply wp_mono; [exact H|]. intros v [Hc Hk].
    rewrite Hc. eauto.
Qed.

(** A larger rely makes a stronger assertion. *)
Lemma rg_weaken {A} (R R' G G' : M → M → Prop) (p : prog L A) Q m :
  (∀ m m', R' m m' → R m m') → (∀ m m', G m m' → G' m m') →
  rg R G p Q m → rg R' G' p Q m.
Proof.
  intros HR HG. revert m. induction p as [o|l k IH|l v k IH|l f k IH|l c k IH]; intros m H m' HR'; simpl in *.
  - eauto.
  - eapply wp_mono; [by apply H, HR|]. eauto.
  - eapply wp_mono; [by apply H, HR|]. intros m'' [? ?]. eauto.
  - eapply wp_mono; [by apply H, HR|]. intros v (w & Hw & Hv). exists w.
    split; [done|]. eapply wp_mono; [exact Hv|]. intros m'' [? ?]. eauto.
  - eapply wp_mono; [by apply H, HR|]. intros v [? ?]. eauto.
Qed.

(** A sequential run also keeps the guarantee that was proved for the
    program among other threads. *)
Lemma rg_run_alone {A} (R G : M → M → Prop) (p : prog L A) Q m :
  Reflexive R → Reflexive G → Transitive G →
  rg R G p Q m → wp (run p m) (λ r, Q r.1 r.2 ∧ G m r.2).
Proof.
  intros HR HGr HGt. revert m. induction p as [o|l k IH|l v k IH|l f k IH|l c k IH]; intros m H; simpl in *.
  - specialize (H m (HR m)). apply wp_bind. eapply wp_mono; [exact H|]. simpl. eauto.
  - specialize (H m (HR m)). apply wp_bind. eapply wp_mono; [exact H|]. eauto.
  - specialize (H m (HR m)). apply wp_bind. eapply wp_mono; [exact H|].
    intros m' [HG Hk]. simpl. eapply wp_mono; [by apply IH|]. intros r [? ?]. split; [done|].
    by etrans.
  - specialize (H m (HR m)). apply wp_bind. eapply wp_mono; [exact H|]. intros v (w & Hw & Hv).
    rewrite Hw. apply wp_bind. eapply wp_mono; [exact Hv|]. intros m' [HG Hk]. simpl.
    eapply wp_mono; [by apply IH|]. intros r [? ?]. split; [done|]. by etrans.
  - specialize (H m (HR m)). apply wp_bind. eapply wp_mono; [exact H|]. intros v [Hc Hk].
    rewrite Hc. eauto.
Qed.

(** ** Soundness for every interleaving

    Thread [i] runs under the rely [R i] and the guarantee [G i]; what one
    thread guarantees the others may rely on. *)
Section pool.
Context {A : Type} (R G : nat → M → M → Prop) (Q : nat → A → M → Prop).
Context (HR : ∀ i, Reflexive (R i)) (HT : ∀ i, Transitive (R i)).
Context (HGR : ∀ i j m m', i ≠ j → G i m m' → R j m m').

Definition pool_ok (c : list (prog L A) * M) : Prop :=
  ∀ i p, c.1 !! i = Some p → rg (R i) (G i) p (Q i) c.2.

(** Thread [i] goes on with [p], and the others see a guaranteed step. *)
Lemma pool_ok_update ps m m' i p :
  pool_ok (ps, m) → rg (R i) (G i) p (Q i) m' → m' = m ∨ G i m m' → pool_ok (<[i := p]> ps, m').
Proof.
  intros Hok Hp HG j q. simpl. rewrite list_lookup_insert. case_decide as Hj.
  - destruct Hj as [<- _]. by intros [= <-].
  - intros Hq. specialize (Hok j q Hq). destruct HG as [->|HG]; [done|].
    apply rg_stable with m; [apply HT| |done]. apply (HGR i j); [|done].
    intros ->. apply Hj. split; [done|]. by apply lookup_lt_Some in Hq.
Qed.

Lemma pool_ok_step c c' : pstep c c' → pool_ok c → pool_ok c'.
Proof.
  intros Hstep Hok. destruct Hstep as
    [ps m i l k v Hi Hv|ps m i l v k m' Hi Hv|ps m i l f k v w m' Hi Hv Hf Hw|ps m i l g k v Hi Hv Hc];
    pose proof (Hok i _ Hi m (HR i m)) as H; rewrite Hv in H; simpl in H.
  - apply (pool_ok_update ps m); auto.
  - destruct H. apply (pool_ok_update ps m); auto.
  - destruct H as (w' & Hf' & H). replace w' with w in H by congruence. rewrite Hw in H.
    destruct H. apply (pool_ok_update ps m); auto.
  - destruct H. apply (pool_ok_update ps m); auto.
Qed.

Lemma pool_ok_guarantee c c' : pstep c c' → pool_ok c → c'.2 = c.2 ∨ ∃ i, G i c.2 c'.2.
Proof.
  intros Hstep Hok. destruct Hstep as
    [ps m i l k v Hi Hv|ps m i l v k m' Hi Hv|ps m i l f k v w m' Hi Hv Hf Hw|ps m i l g k v Hi Hv Hc];
    pose proof (Hok i _ Hi m (HR i m)) as H; rewrite Hv in H; simpl in H.
  - by left.
  - right. exists i. apply H.
  - destruct H as (w' & Hf' & H). replace w' with w in H by congruence. rewrite Hw in H.
    right. exists i. apply H.
  - by left.
Qed.

Lemma pool_ok_rtc c c' : rtc pstep c c' → pool_ok c → pool_ok c'.
Proof. induction 1; eauto using pool_ok_step. Qed.

(** What every guarantee keeps holds of the memory at any time. *)
Lemma pool_ok_invariant (I : M → Prop) c c' :
  (∀ i m m', G i m m' → I m → I m') → rtc pstep c c' → pool_ok c → I c.2 → I c'.2.
Proof.
  intros HI. induction 1 as [|c c1 c2 Hs _ IH]; [done|]. intros Hok Hc.
  apply IH; [by eapply pool_ok_step|]. destruct (pool_ok_guarantee _ _ Hs Hok) as [->|[i HG]]; eauto.
Qed.

Lemma pool_ok_safe c i p : pool_ok c → c.1 !! i = Some p → ¬ faulty p c.2 ∧ ¬ blocked p c.2.
Proof.
  intros Hok Hp. specialize (Hok i p Hp). destruct p as [o|l k|l v k|l f k|l g k]; simpl in *;
    specialize (Hok _ (HR i c.2)); apply wp_iff in Hok as (v' & E & Hq); (split; [|try tauto]).
  - intros Hf. by apply (Hf v').
  - intros Hf. by apply (Hf v').
  - intros Hf. by apply (Hf v').
  - destruct Hq as (w & Hf & (m' & E' & _)%wp_iff). intros [Hn|(v2 & w2 & E2 & Hf2 & Hn)].
    + by apply (Hn v').
    + apply (Hn m'). congruence.
  - destruct Hq as (w & Hf & _). intros (v2 & E2 & Hf2). congruence.
  - intros Hf. by apply (Hf v').
  - intros (v2 & E2 & Hc2). destruct Hq as [Hc _]. congruence.
Qed.

Lemma pool_ok_post c i a : pool_ok c → c.1 !! i = Some (Stop (Ret a)) → Q i a c.2.
Proof. intros Hok Hp. apply (Hok i _ Hp). apply HR. Qed.
End pool.

(** ** Termination: a program is a finite tree, so no schedule runs forever *)
Definition child {A} (p' p : prog L A) : Prop :=
  match p with
  | Stop _ => False
  | Rd _ k => ∃ v, p' = k v
  | Wr _ _ k => p' = k
  | Rmw _ _ k | Await _ _ k => ∃ v, p' = k v
  end.

Lemma child_wf {A} (p : prog L A) : Acc child p.
Proof.
  induction p as [o|l k IH|l v k IH|l f k IH|l c k IH]; constructor; intros p'; simpl.
  - done.
  - intros [v ->]. apply IH.
  - by intros ->.
  - intros [v ->]. apply IH.
  - intros [v ->]. apply IH.
Qed.

Definition pool_child {A} (ps' ps : list (prog L A)) : Prop :=
  ∃ i p p', ps !! i = Some p ∧ child p' p ∧ ps' = <[i := p']> ps.

Lemma pool_child_cons_wf {A} (p : prog L A) ps :
  Acc child p → Acc pool_child ps → Acc pool_child (p :: ps).
Proof.
  intros Hp. revert ps. induction Hp as [p _ IHp]. intros ps Hps. pose proof Hps as Hps0.
  induction Hps as [ps Hacc IHps]. constructor. intros ps' ([|i] & q & q' & Hq & Hc & ->); simpl in *.
  - injection Hq as <-. by apply IHp.
  - assert (pool_child (<[i := q']> ps) ps) as Hch by (by exists i, q, q').
    apply IHps; [done|]. by apply Hacc.
Qed.

Lemma pool_child_wf {A} (ps : list (prog L A)) : Acc pool_child ps.
Proof.
  induction ps as [|p ps IH].
  - constructor. intros ps' (i & q & q' & Hq & _). done.
  - apply pool_child_cons_wf; [apply child_wf|done].
Qed.

Lemma pstep_wf {A} (c : list (prog L A) * M) : Acc (λ c' c, pstep c c') c.
Proof.
  destruct c as [ps m]. revert m. induction (pool_child_wf ps) as [ps _ IH]. intros m.
  constructor. intros [ps' m'] Hs. apply IH.
  inversion Hs; subst; eexists _, _, _; (split; [done|]); (split; [|done]); simpl; eauto.
Qed.

(** A thread that is not at fault is finished, waits, or can step. *)
Definition finished {A} (p : prog L A) : Prop := ∃ a, p = Stop (Ret a).

Lemma not_faulty_one {A} (ps : list (prog L A)) m i p :
  ps !! i = Some p → ¬ faulty p m → finished p ∨ blocked p m ∨ ∃ c', pstep (ps, m) c'.
Proof.
  intros Hp Hnf. destruct p as [o|l k|l v k|l f k|l g k]; simpl in Hnf.
  - left. destruct o as [a| | | |]; [by exists a|..]; destruct Hnf; congruence.
  - right; right. destruct (sread m l) as [v| | | |] eqn:Hr;
      [eexists; by econstructor|..]; destruct Hnf; congruence.
  - right; right. destruct (swrite m l v) as [m'| | | |] eqn:Hr;
      [eexists; by econstructor|..]; destruct Hnf; congruence.
  - right. destruct (sread m l) as [v| | | |] eqn:Hr; [|destruct Hnf; left; congruence..].
    destruct (f v) as [w|] eqn:Hf; [|left; simpl; rewrite Hr; eauto].
    right. destruct (swrite m l w) as [m'| | | |] eqn:Hw; [eexists; by econstructor|..];
      destruct Hnf; right; exists v, w; (split; [done|split; [done|congruence]]).
  - right. destruct (sread m l) as [v| | | |] eqn:Hr; [|destruct Hnf; congruence..].
    destruct (g v) eqn:Hg; [right; eexists; by econstructor|].
    left. simpl. rewrite Hr. eauto.
Qed.

Lemma not_faulty_progress {A} (ps : list (prog L A)) m :
  (∀ i p, ps !! i = Some p → ¬ faulty p m) →
  Forall (λ p, finished p ∨ blocked p m) ps ∨ ∃ c', pstep (ps, m) c'.
Proof.
  intros Hnf.
  assert (∀ qs : list (prog L A), (∀ q, q ∈ qs → finished q ∨ blocked q m ∨ ∃ c', pstep (ps, m) c') →
    Forall (λ p, finished p ∨ blocked p m) qs ∨ ∃ c', pstep (ps, m) c') as Hall.
  { induction qs as [|q qs IH]; intros Hq; [by left; constructor|].
    destruct IH as [Hfs|?]; [|destruct (Hq q) as [?|[?|?]]; [by left|..]|by right]; auto.
    intros q' ?. apply Hq. by right. }
  apply Hall. intros q [i Hi]%list_elem_of_lookup. eapply not_faulty_one; eauto.
Qed.

(** A pool in which somebody can step until all are done gets done. *)
Lemma pool_finishes {A} (c : list (prog L A) * M) :
  (∀ c', rtc pstep c c' → Forall finished c'.1 ∨ ∃ c'', pstep c' c'') →
  ∃ c', rtc pstep c c' ∧ Forall finished c'.1.
Proof.
  induction (pstep_wf c) as [c _ IH]. intros Hc.
  destruct (Hc c) as [Hf|[c1 Hs]]; [done|by exists c|].
  destruct (IH c1 Hs) as (c' & Hr & Hf).
  - intros c' Hr. apply Hc. by eapply rtc_l.
  - exists c'. split; [by eapply rtc_l|done].
Qed.
End conc.

(** Step a shared-memory program by one read or write; [m] is the memory at
    that point, related to the previous one by [H]. *)
Ltac wp_done :=
  lazymatch goal with |- wp (Ret _) _ => apply wp_ret; cbv beta | _ => idtac end.
Tactic Notation "rg_read" ident(m) ident(H) :=
  cbv beta; apply rg_bind_rd; intros m H; simpl sread; wp_done.
Tactic Notation "rg_write" ident(m) ident(H) :=
  cbv beta; apply rg_bind_wr; intros m H; simpl swrite; wp_done.
