(* ===== verification/Ghost.v ===== *)
(** * Rely-guarantee with auxiliary state, for threads that wait

    [grg] is [rg] of Conc.v with two additions.  The relations speak about
    the memory together with an auxiliary state [Γ] that the program does not
    see: a write may change it together with the memory.  And a thread may
    wait: when the condition it waits for does not hold, [W] says what is
    known then, which is what an argument that there is no deadlock needs.
    [gpool_ok_rtc] is the soundness of the rules for every interleaving of a
    pool. *)

From S2P Require Import Prelude Conc.

Section grg.
Context {M L Γ : Type} `{!Shared M L}.
Implicit Types R G : M * Γ → M * Γ → Prop.
Implicit Types W : M * Γ → Prop.

Fixpoint grg {A} R G W (p : prog L A) (Q : A → M * Γ → Prop) (s : M * Γ) : Prop :=
  match p with
  | Stop o => ∀ s', R s s' → wp o (λ a, Q a s')
  | Rd l k => ∀ s', R s s' → wp (sread s'.1 l) (λ v, grg R G W (k v) Q s')
  | Wr l v k => ∀ s', R s s' →
      wp (swrite s'.1 l v) (λ m, ∃ γ, G s' (m, γ) ∧ grg R G W k Q (m, γ))
  | Rmw l f k => ∀ s', R s s' →
      wp (sread s'.1 l) (λ v,
        match f v with
        | Some w => wp (swrite s'.1 l w) (λ m, ∃ γ, G s' (m, γ) ∧ grg R G W (k v) Q (m, γ))
        | None => W s'
        end)
  | Await l c k => ∀ s', R s s' →
      wp (sread s'.1 l) (λ v, if c v then grg R G W (k v) Q s' else W s')
  end.

(** ** Rules *)
Lemma grg_mono {A} R G W (p : prog L A) (P Q : A → M * Γ → Prop) s :
  grg R G W p P s → (∀ a s, P a s → Q a s) → grg R G W p Q s.
Proof.
  intros H HPQ. revert s H. induction p as [o|l k IH|l v k IH|l f k IH|l c k IH];
    intros s H s' HR; simpl in *; (eapply wp_mono; [by apply H|]).
  - eauto.
  - eauto.
  - intros m (γ & ? & ?). eauto.
  - intros v. cbv beta. destruct (f v); [|done]. intros Hv.
    eapply wp_mono; [exact Hv|]. intros m (γ & ? & ?). eauto.
  - intros v. cbv beta. destruct (c v); eauto.
Qed.

Lemma grg_stable {A} R G W (p : prog L A) Q s s' :
  Transitive R → R s s' → grg R G W p Q s → grg R G W p Q s'.
Proof. intros HT HR. destruct p; simpl; intros H s'' HR'; apply H; by etrans. Qed.

Lemma grg_bind {A B} R G W (p : prog L A) (f : A → prog L B) Q s :
  Reflexive R → grg R G W p (λ a, grg R G W (f a) Q) s → grg R G W (p ≫= f) Q s.
Proof.
  intros HR. unfold mbind, prog_mbind. revert s.
  induction p as [o|l k IH|l v k IH|l h k IH|l c k IH]; intros s H; simpl in *.
  { specialize (H s (reflexivity s)). by destruct o. }
  all: intros s' HR'; (eapply wp_mono; [by apply H|]).
  - eauto.
  - intros m (γ & ? & ?). eauto.
  - intros v. cbv beta. destruct (h v); [|done]. intros Hv.
    eapply wp_mono; [exact Hv|]. intros m (γ & ? & ?). eauto.
  - intros v. cbv beta. destruct (c v); eauto.
Qed.

Lemma grg_ret {A} R G W (a : A) (Q : A → M * Γ → Prop) s :
  (∀ s', R s s' → Q a s') → grg R G W (mret a) Q s.
Proof. done. Qed.

Lemma grg_bind_lift {A B} R G W (o : outcome A) (k : A → prog L B) Q s :
  wp o (λ a, grg R G W (k a) Q s) → grg R G W (lift o ≫= k) Q s.
Proof. by destruct o. Qed.

Lemma grg_bind_rd {A} R G W l (k : Z → prog L A) Q s :
  (∀ s', R s s' → wp (sread s'.1 l) (λ v, grg R G W (k v) Q s')) → grg R G W (rd l ≫= k) Q s.
Proof. done. Qed.

Lemma grg_bind_wr {A} R G W l v (k : unit → prog L A) Q s :
  (∀ s', R s s' → wp (swrite s'.1 l v) (λ m, ∃ γ, G s' (m, γ) ∧ grg R G W (k tt) Q (m, γ))) →
  grg R G W (wr l v ≫= k) Q s.
Proof. done. Qed.

Lemma grg_bind_rmw {A} R G W l f (k : Z → prog L A) Q s :
  (∀ s', R s s' → wp (sread s'.1 l) (λ v,
     match f v with
     | Some w => wp (swrite s'.1 l w) (λ m, ∃ γ, G s' (m, γ) ∧ grg R G W (k v) Q (m, γ))
     | None => W s'
     end)) →
  grg R G W (rmw l f ≫= k) Q s.
Proof. done. Qed.

Lemma grg_bind_await {A} R G W l (c : Z → bool) (k : Z → prog L A) Q s :
  (∀ s', R s s' → wp (sread s'.1 l) (λ v, if c v then grg R G W (k v) Q s' else W s')) →
  grg R G W (await l c ≫= k) Q s.
Proof. done. Qed.

Lemma grg_wr R G W l v (Q : unit → M * Γ → Prop) s :
  (∀ s', R s s' → wp (swrite s'.1 l v) (λ m, ∃ γ, G s' (m, γ) ∧ ∀ s3, R (m, γ) s3 → Q tt s3)) →
  grg R G W (wr l v) Q s.
Proof. done. Qed.

(** Facts that no thread invalidates. *)
Lemma grg_frame {A} R G W (B : M * Γ → Prop) (p : prog L A) Q s :
  (∀ s s', R s s' → B s → B s') → (∀ s s', G s s' → B s → B s') →
  grg R G W p Q s → B s → grg R G W p (λ a s, Q a s ∧ B s) s.
Proof.
  intros HBR HBG. revert s. induction p as [o|l k IH|l v k IH|l f k IH|l c k IH];
    intros s H HB s' HR; simpl in *; pose proof (HBR _ _ HR HB); (eapply wp_mono; [by apply H|]).
  - auto.
  - auto.
  - intros m (γ & HG & ?). eauto.
  - intros v. cbv beta. destruct (f v); [|done]. intros Hv.
    eapply wp_mono; [exact Hv|]. intros m (γ & ? & ?). eauto.
  - intros v. cbv beta. destruct (c v); auto.
Qed.

Lemma grg_weaken {A} R G G' W (p : prog L A) Q s :
  (∀ s s', G s s' → G' s s') → grg R G W p Q s → grg R G' W p Q s.
Proof.
  intros HG. revert s. induction p as [o|l k IH|l v k IH|l f k IH|l c k IH];
    intros s H s' HR; simpl in *; (eapply wp_mono; [by apply H|]).
  - auto.
  - auto.
  - intros m (γ & ? & ?). eauto.
  - intros v. cbv beta. destruct (f v); [|done]. intros Hv.
    eapply wp_mono; [exact Hv|]. intros m (γ & ? & ?). eauto.
  - intros v. cbv beta. destruct (c v); auto.
Qed.

(** A program that does not wait and leaves the auxiliary state alone. *)
Lemma grg_of_rg {A} R G W (R0 G0 : M → M → Prop) (p : prog L A) Q s :
  (∀ s s', R s s' → R0 s.1 s'.1) →
  (∀ m m' γ, G0 m m' → G (m, γ) (m', γ)) →
  rg R0 G0 p Q s.1 → grg R G W p (λ a s', Q a s'.1) s.
Proof.
  intros HR HG. revert s. induction p as [o|l k IH|l v k IH|l f k IH|l c k IH];
    intros s H [m' γ'] Hs; simpl in *; specialize (H m' (HR _ _ Hs)).
  - done.
  - eapply wp_mono; [exact H|]. intros v Hv. by apply IH.
  - eapply wp_mono; [exact H|]. intros m [? ?]. exists γ'. eauto.
  - eapply wp_mono; [exact H|]. intros v (w & -> & Hv).
    eapply wp_mono; [exact Hv|]. intros m [? ?]. exists γ'. eauto.
  - eapply wp_mono; [exact H|]. intros v [-> Hv]. by apply IH.
Qed.

(** The same for a program whose relations hold as long as [B] does, which
    other threads and the program keep. *)
Lemma grg_of_rg_inv {A} R G W (B : M * Γ → Prop) (R0 G0 : M → M → Prop) (p : prog L A) Q s :
  (∀ s s', R s s' → B s → B s' ∧ R0 s.1 s'.1) →
  (∀ m m' γ, B (m, γ) → G0 m m' → B (m', γ) ∧ G (m, γ) (m', γ)) →
  B s → rg R0 G0 p Q s.1 → grg R G W p (λ a s', B s' ∧ Q a s'.1) s.
Proof.
  intros HR HG. revert s. induction p as [o|l k IH|l v k IH|l f k IH|l c k IH];
    intros s HB H [m' γ'] Hs; destruct (HR _ _ Hs HB) as [HB' HR0]; simpl in *; specialize (H m' HR0).
  - eapply wp_mono; [exact H|]. by intros a Ha.
  - eapply wp_mono; [exact H|]. intros v Hv. by apply IH.
  - eapply wp_mono; [exact H|]. intros m [? ?]. exists γ'. destruct (HG m' m γ'); eauto.
  - eapply wp_mono; [exact H|]. intros v (w & -> & Hv).
    eapply wp_mono; [exact Hv|]. intros m [? ?]. exists γ'. destruct (HG m' m γ'); eauto.
  - eapply wp_mono; [exact H|]. intros v [-> Hv]. by apply IH.
Qed.

(** ** Soundness for every interleaving *)
Section pool.
Context {A : Type} (R G : nat → M * Γ → M * Γ → Prop) (W : nat → M * Γ → Prop)
  (Q : nat → A → M * Γ → Prop).
Context (HR : ∀ i, Reflexive (R i)) (HT : ∀ i, Transitive (R i)).
Context (HGR : ∀ i j s s', i ≠ j → G i s s' → R j s s').

Definition gpool_ok (c : list (prog L A) * M) (γ : Γ) : Prop :=
  ∀ i p, c.1 !! i = Some p → grg (R i) (G i) (W i) p (Q i) (c.2, γ).

Lemma gpool_ok_update ps m γ m' γ' i p :
  gpool_ok (ps, m) γ → grg (R i) (G i) (W i) p (Q i) (m', γ') →
  (m', γ') = (m, γ) ∨ G i (m, γ) (m', γ') → gpool_ok (<[i := p]> ps, m') γ'.
Proof.
  intros Hok Hp HG j q. simpl. rewrite list_lookup_insert. case_decide as Hj.
  - destruct Hj as [<- _]. by intros [= <-].
  - intros Hq. specialize (Hok j q Hq). destruct HG as [[= -> ->]|HG]; [done|].
    eapply grg_stable; [apply HT| |exact Hok]. apply (HGR i j); [|done].
    intros ->. apply Hj. split; [done|]. by apply lookup_lt_Some in Hq.
Qed.

(** Each step changes the auxiliary state as the thread's guarantee allows. *)
Lemma gpool_ok_step c c' γ :
  pstep c c' → gpool_ok c γ →
  ∃ γ', gpool_ok c' γ' ∧ ((c'.2, γ') = (c.2, γ) ∨ ∃ i, i < length c.1 ∧ G i (c.2, γ) (c'.2, γ'))%nat.
Proof.
  intros Hstep Hok. destruct Hstep as
    [ps m i l k v Hi Hv|ps m i l v k m' Hi Hv|ps m i l f k v w m' Hi Hv Hf Hw|ps m i l g k v Hi Hv Hc];
    pose proof (Hok i _ Hi (m, γ) (HR i _)) as H; simpl in H; rewrite Hv in H; simpl in H;
    pose proof (lookup_lt_Some _ _ _ Hi) as Hlt.
  - exists γ. split; [apply (gpool_ok_update ps m γ); auto|by left].
  - destruct H as (γ' & HG & H). exists γ'. split; [apply (gpool_ok_update ps m γ); auto|right; by exists i].
  - rewrite Hf in H. simpl in H. rewrite Hw in H. destruct H as (γ' & HG & H).
    exists γ'. split; [apply (gpool_ok_update ps m γ); auto|right; by exists i].
  - exists γ. split; [rewrite Hc in H; apply (gpool_ok_update ps m γ); auto|by left].
Qed.

(** With an invariant that every guarantee keeps. *)
Lemma gpool_ok_rtc (I : M * Γ → Prop) c c' γ :
  (∀ i s s', G i s s' → I s → I s') →
  rtc pstep c c' → gpool_ok c γ → I (c.2, γ) → ∃ γ', gpool_ok c' γ' ∧ I (c'.2, γ').
Proof.
  intros HI Hrtc. revert γ. induction Hrtc as [c|c c1 c2 Hstep _ IH]; intros γ Hok Hinv; [eauto|].
  destruct (gpool_ok_step _ _ _ Hstep Hok) as (γ1 & Hok1 & Hs). apply (IH γ1); [done|].
  destruct Hs as [->|(i & _ & HG)]; [done|]. by eapply HI.
Qed.

Lemma gpool_ok_safe c γ i p : gpool_ok c γ → c.1 !! i = Some p → ¬ faulty p c.2.
Proof.
  intros Hok Hp. specialize (Hok i p Hp). destruct p as [o|l k|l v k|l f k|l g k]; simpl in *;
    specialize (Hok _ (HR i (c.2, γ))); apply wp_iff in Hok as (v' & E & Hq).
  - intros Hf. by apply (Hf v').
  - intros Hf. by apply (Hf v').
  - intros Hf. by apply (Hf v').
  - intros [Hn|(v2 & w2 & E2 & Hf2 & Hn)]; [by apply (Hn v')|].
    replace v2 with v' in Hf2 by (simpl in E; congruence). rewrite Hf2 in Hq.
    apply wp_iff in Hq as (m' & E' & _). by apply (Hn m').
  - intros Hf. by apply (Hf v').
Qed.

(** What a waiting thread knows. *)
Lemma gpool_ok_blocked c γ i p :
  gpool_ok c γ → c.1 !! i = Some p → blocked p c.2 → W i (c.2, γ).
Proof.
  intros Hok Hp. specialize (Hok i p Hp). destruct p as [o|l k|l v k|l f k|l g k]; simpl in *; try done;
    specialize (Hok _ (HR i (c.2, γ))); intros (v & E & Hf); simpl in Hok; rewrite E in Hok;
    simpl in Hok; by rewrite Hf in Hok.
Qed.

Lemma gpool_ok_post c γ i a :
  gpool_ok c γ → c.1 !! i = Some (Stop (Ret a)) → Q i a (c.2, γ).
Proof. intros Hok Hp. apply (Hok i _ Hp). apply HR. Qed.
End pool.
End grg.
