(* ===== verification/Env.v ===== *)
(** * env.c: the number of pointers a thread saves up

    [env_init] reads THREADSCAN_PTRS_PER_THREAD and computes
    [g_threadscan_ptrs_per_thread].  Strings are lists of character codes;
    [atoi] is the standard library's function, undefined when the value does
    not fit an [int]. *)

From S2P Require Import Prelude.

(** ** atoi *)
Definition isspace (c : Z) : bool := (c =? 32) || ((9 <=? c) && (c <=? 13)).
Definition isdigit (c : Z) : bool := (48 <=? c) && (c <=? 57).

Fixpoint skip_spaces (s : list Z) : list Z :=
  match s with
  | c :: s' => if isspace c then skip_spaces s' else s
  | [] => []
  end.

Fixpoint digits (s : list Z) (acc : Z) : Z :=
  match s with
  | c :: s' => if isdigit c then digits s' (10 * acc + (c - 48)) else acc
  | [] => acc
  end.

Definition atoi (s : list Z) : outcome Z :=
  match skip_spaces s with
  | 45 :: s' => cint (- digits s' 0)
  | 43 :: s' => cint (digits s' 0)
  | s' => cint (digits s' 0)
  end.

(** ** env.c and env.h *)
Definition MAX_PTRS_PER_THREAD : Z := 32 * 1024.
Definition MIN_PTRS_PER_THREAD : Z := 1024.
Definition MAX_THREAD_COUNT : Z := 256.

Definition get_int (val : option (list Z)) (default_val : Z) : outcome Z :=
  match val with
  | None => Ret default_val
  | Some s => atoi s
  end.

(** The two diagnostics [env_init] may print. *)
Inductive env_warning := warn_min | warn_max.

(** [ptrs_per_thread |= ptrs_per_thread >> 1; ...; >> 16] *)
Definition smear (p : Z) : Z :=
  let p := Z.lor p (Z.shiftr p 1) in
  let p := Z.lor p (Z.shiftr p 2) in
  let p := Z.lor p (Z.shiftr p 4) in
  let p := Z.lor p (Z.shiftr p 8) in
  Z.lor p (Z.shiftr p 16).

(** The value of [g_threadscan_ptrs_per_thread] and the diagnostic printed;
    [val] is the result of [getenv]. *)
Definition env_init (val : option (list Z)) : outcome (Z * option env_warning) :=
  ptrs_per_thread ← get_int val 4;
  ptrs_per_thread ← cint (ptrs_per_thread * 1024);
  ptrs_per_thread ← cint (ptrs_per_thread - 1);
  ptrs_per_thread ← cint (smear ptrs_per_thread + 1);
  if ptrs_per_thread <? MIN_PTRS_PER_THREAD then
    Ret (MIN_PTRS_PER_THREAD, Some warn_min)
  else if ptrs_per_thread >? MAX_PTRS_PER_THREAD then
    Ret (MAX_PTRS_PER_THREAD, Some warn_max)
  else Ret (ptrs_per_thread, None).

(** ** The power-of-two trick *)

(** [covers x y m]: bit i of [y] is set when one of the bits i..i+m-1 of [x] is. *)
Definition covers (x y m : Z) : Prop :=
  ∀ i, 0 ≤ i → Z.testbit y i = true ↔ ∃ j, i ≤ j < i + m ∧ Z.testbit x j = true.

Lemma covers_step x y m : 0 ≤ m → covers x y m → covers x (Z.lor y (Z.shiftr y m)) (m + m).
Proof.
  intros Hm H i Hi. rewrite Z.lor_spec, Z.shiftr_spec, orb_true_iff by done.
  rewrite (H i), (H (i + m)) by lia. split.
  - intros [(j & Hj & Hb)|(j & Hj & Hb)]; exists j; (split; [lia|done]).
  - intros (j & Hj & Hb). destruct (decide (j < i + m)); [left|right];
      exists j; (split; [lia|done]).
Qed.

Lemma smear_covers x : covers x (smear x) 32.
Proof.
  unfold smear.
  assert (covers x x 1) as H0.
  { intros i Hi. split; [exists i; split; [lia|done]|].
    intros (j & Hj & Hb). by replace i with j by lia. }
  do 5 (apply covers_step in H0; [|lia]). exact H0.
Qed.

(** For a positive 32-bit value the trick sets every bit up to the highest. *)
Lemma smear_pos x : 0 < x < 2 ^ 32 → smear x = 2 ^ (Z.log2 x + 1) - 1.
Proof.
  intros Hx. pose proof (Z.log2_nonneg x) as Hl0.
  assert (Z.log2 x < 32) by (apply Z.log2_lt_pow2; lia).
  replace (2 ^ (Z.log2 x + 1) - 1) with (Z.ones (Z.log2 x + 1)) by (rewrite Z.ones_equiv; lia).
  z_bits. rename n into i. rewrite Z.testbit_ones_nonneg by lia.
  apply eq_true_iff_eq. rewrite (smear_covers x i) by done.
  rewrite Z.ltb_lt. split.
  - intros (j & Hj & Hb). destruct (decide (j ≤ Z.log2 x)); [lia|].
    rewrite Z.bits_above_log2 in Hb by lia. done.
  - intros Hi. exists (Z.log2 x). split; [lia|]. apply Z.bit_log2. lia.
Qed.

Lemma smear_0 : smear 0 = 0.
Proof. reflexivity. Qed.

Lemma smear_neg x : x < 0 → smear x < 0.
Proof.
  intros Hx. unfold smear.
  do 5 (rewrite Z.lor_neg; left). done.
Qed.

Lemma smear_neg_ge x : x < 0 → x ≤ smear x.
Proof.
  intros Hx. unfold smear.
  assert (∀ p k, x ≤ p < 0 → x ≤ Z.lor p (Z.shiftr p k) < 0) as Hstep.
  { intros p k Hp. assert (Z.shiftr p k < 0) by (apply Z.shiftr_neg; lia).
    pose proof (lor_neg_ge p (Z.shiftr p k)).
    split; [lia|]. apply Z.lor_neg. lia. }
  apply (Hstep _ 16), (Hstep _ 8), (Hstep _ 4), (Hstep _ 2), (Hstep _ 1). lia.
Qed.

(** ** env_init as a function of the number read *)
Lemma env_init_unfold s v :
  get_int s 4 = Ret v → INT_MIN ≤ v * 1024 - 1 → v * 1024 ≤ INT_MAX →
  env_init s = (p ← cint (smear (v * 1024 - 1) + 1);
    if p <? MIN_PTRS_PER_THREAD then Ret (MIN_PTRS_PER_THREAD, Some warn_min)
    else if p >? MAX_PTRS_PER_THREAD then Ret (MAX_PTRS_PER_THREAD, Some warn_max)
    else Ret (p, None)).
Proof.
  unfold INT_MIN, INT_MAX. intros Hv H1 H2. unfold env_init. rewrite Hv, outcome_bind_ret.
  rewrite cint_in, outcome_bind_ret by (unfold INT_MIN, INT_MAX; lia).
  by rewrite cint_in by (unfold INT_MIN, INT_MAX; lia).
Qed.

(** For a positive number the trick rounds [1024 v] up to a power of two. *)
Lemma smear_round_up v : 1 ≤ v ≤ 2 ^ 21 → smear (v * 1024 - 1) + 1 = 2 ^ Z.log2_up (v * 1024).
Proof.
  intros Hv. rewrite smear_pos by lia.
  rewrite Z.log2_up_eqn by lia. rewrite Z.sub_add. f_equal.
Qed.

Lemma log2_up_1024_bounds v k :
  0 ≤ k → 0 < v * 1024 ≤ 2 ^ k → 2 ^ Z.log2_up (v * 1024) ≤ 2 ^ k.
Proof. intros. apply zlog2_up_pow2_le; lia. Qed.

Lemma log2_up_spec_le x : 1 < x → x ≤ 2 ^ Z.log2_up x.
Proof. intros. by apply Z.log2_up_spec. Qed.

(** Past 2^20 the rounded value does not fit an [int]: the increment overflows. *)
Lemma smear_overflow v : 2 ^ 20 < v → v * 1024 ≤ INT_MAX → cint (smear (v * 1024 - 1) + 1) = UB.
Proof.
  unfold INT_MAX. intros H1 H2. rewrite smear_round_up by lia.
  pose proof (Z.log2_up_nonneg (v * 1024)).
  assert (2 ^ 30 < 2 ^ Z.log2_up (v * 1024)) as Hlt.
  { pose proof (log2_up_spec_le (v * 1024)). lia. }
  assert (2 ^ Z.log2_up (v * 1024) ≤ 2 ^ 31) as Hle by (apply log2_up_1024_bounds; lia).
  assert (31 ≤ Z.log2_up (v * 1024)).
  { apply Z.pow_lt_mono_r_iff in Hlt; lia. }
  assert (Z.log2_up (v * 1024) = 31) as ->.
  { apply Z.pow_le_mono_r_iff in Hle; lia. }
  reflexivity.
Qed.

(** Where the rounded value lies, for the numbers that do not overflow. *)
Lemma log2_up_1024_range v :
  1 ≤ v ≤ 2 ^ 20 →
  2 ^ 10 ≤ 2 ^ Z.log2_up (v * 1024) ≤ 2 ^ 30 ∧
  (v ≤ 32 → 2 ^ Z.log2_up (v * 1024) ≤ 2 ^ 15) ∧
  (32 < v → 2 ^ 15 < 2 ^ Z.log2_up (v * 1024)).
Proof.
  intros Hv. pose proof (log2_up_spec_le (v * 1024)) as Hle.
  repeat split; intros; try (apply log2_up_1024_bounds; lia); lia.
Qed.

Lemma env_init_cases s v :
  get_int s 4 = Ret v →
  env_init s =
    if (v <=? 0) && (INT_MIN <=? v * 1024 - 1) then Ret (1024, Some warn_min)
    else if (1 <=? v) && (v <=? 32) then Ret (2 ^ Z.log2_up (v * 1024), None)
    else if (33 <=? v) && (v <=? 2 ^ 20) then Ret (32768, Some warn_max)
    else UB.
Proof.
  intros Hv.
  destruct (Z_lt_le_dec (v * 1024 - 1) INT_MIN) as [Hlo|Hlo].
  { unfold INT_MIN in *. z_cases. unfold env_init. rewrite Hv, outcome_bind_ret.
    destruct (Z_lt_le_dec (v * 1024) INT_MIN); unfold INT_MIN in *.
    - by rewrite cint_out by (unfold INT_MIN; lia).
    - rewrite cint_in by (unfold INT_MIN, INT_MAX; lia).
      by rewrite outcome_bind_ret, cint_out by (unfold INT_MIN; lia). }
  destruct (Z_lt_le_dec INT_MAX (v * 1024)) as [Hhi|Hhi].
  { unfold INT_MIN, INT_MAX in *. z_cases. unfold env_init. rewrite Hv, outcome_bind_ret.
    by rewrite cint_out by (unfold INT_MAX; lia). }
  rewrite (env_init_unfold _ _ Hv Hlo Hhi).
  destruct (Z_lt_le_dec (2 ^ 20) v) as [Hbig|Hbig].
  { rewrite smear_overflow by done. z_cases. done. }
  unfold INT_MIN, INT_MAX in *. unfold MIN_PTRS_PER_THREAD, MAX_PTRS_PER_THREAD.
  destruct (Z_lt_le_dec 0 v) as [Hpos|Hneg].
  - rewrite smear_round_up by lia. destruct (log2_up_1024_range v) as (H1 & H2 & H3); [lia|].
    rewrite cint_in by (unfold INT_MIN, INT_MAX; lia). simpl. z_cases; done.
  - assert (smear (v * 1024 - 1) < 0) by (apply smear_neg; lia).
    assert (v * 1024 - 1 ≤ smear (v * 1024 - 1)) by (apply smear_neg_ge; lia).
    rewrite cint_in by (unfold INT_MIN, INT_MAX; lia). simpl. z_cases; done.
Qed.

Lemma env_init_range s p w :
  env_init s = Ret (p, w) →
  ∃ k, 10 ≤ k ≤ 15 ∧ p = 2 ^ k ∧ MIN_PTRS_PER_THREAD ≤ p ≤ MAX_PTRS_PER_THREAD.
Proof.
  intros H. destruct (get_int s 4) as [v| | | |] eqn:Hv;
    try (unfold env_init in H; rewrite Hv in H; discriminate H).
  rewrite (env_init_cases _ _ Hv) in H. revert H. unfold MIN_PTRS_PER_THREAD, MAX_PTRS_PER_THREAD.
  z_cases; intros [= <- <-]; try (by exists 10); try (by exists 15).
  destruct (log2_up_1024_range v) as (Hr1 & Hr2 & _); [lia|]. exists (Z.log2_up (v * 1024)).
  pose proof (Z.log2_up_nonneg (v * 1024)).
  repeat split; try lia.
  - apply (Z.pow_le_mono_r_iff 2); lia.
  - apply (Z.pow_le_mono_r_iff 2); [lia|lia|]. apply Hr2. lia.
Qed.

(** C24. [env_init] on every number read: non-positive values warn and give
    the minimum, 1 to 32 are rounded up to a power of two (times 1024), 33 to
    2^20 warn and give the maximum, and every other value overflows a signed
    [int] in the multiplication or in the rounding. *)
Theorem env_init_spec s v :
  get_int s 4 = Ret v →
  env_init s =
    if (v <=? 0) && (INT_MIN <=? v * 1024 - 1) then Ret (1024, Some warn_min)
    else if (1 <=? v) && (v <=? 32) then Ret (2 ^ Z.log2_up (v * 1024), None)
    else if (33 <=? v) && (v <=? 2 ^ 20) then Ret (32768, Some warn_max)
    else UB.
Proof. apply env_init_cases. Qed.

(** C25. Whatever the environment holds, a run of [env_init] that returns
    leaves a power of two between the two bounds of env.c: what the queues of
    queue.c (which mask indices with [capacity - 1]) require. *)
Theorem env_init_power_of_two s p w :
  env_init s = Ret (p, w) →
  ∃ k, 10 ≤ k ≤ 15 ∧ p = 2 ^ k ∧ MIN_PTRS_PER_THREAD ≤ p ≤ MAX_PTRS_PER_THREAD.
Proof. apply env_init_range. Qed.

(** The characters of a number, for the examples. *)
Definition chars_of_digits (ds : list Z) : list Z := (λ d, 48 + d) <$> ds.

Example env_init_spec_witness :
  get_int (Some (chars_of_digits [2; 0])) 4 = Ret 20 ∧
  env_init (Some (chars_of_digits [2; 0])) = Ret (32768, None) ∧
  env_init (Some (chars_of_digits [2; 0; 9; 7; 1; 5; 1])) = UB.
Proof.
  split; [reflexivity|]. split.
  - apply (env_init_spec (Some (chars_of_digits [2; 0])) 20). reflexivity.
  - apply (env_init_spec (Some (chars_of_digits [2; 0; 9; 7; 1; 5; 1])) 2097151). reflexivity.
Defined.

Example env_init_power_of_two_witness :
  env_init (Some (chars_of_digits [5])) = Ret (8192, None) ∧
  ∃ k, 10 ≤ k ≤ 15 ∧ 8192 = 2 ^ k ∧ MIN_PTRS_PER_THREAD ≤ 8192 ≤ MAX_PTRS_PER_THREAD.
Proof.
  split; [reflexivity|].
  apply (env_init_power_of_two (Some (chars_of_digits [5])) 8192 None). reflexivity.
Defined.
