(* ===== verification/Queue.v ===== *)
(** * queue.c: the single-reader single-writer circular buffer

    The operations are shared-memory programs over the words of a [queue_t],
    so that the same definitions are run alone (the functional
    specifications) and interleaved by the owner thread, which pushes, and
    the reclaimer, which pops (the linearizability theorem). *)

From S2P Require Import Prelude Conc.

(** The struct; [capacity] is set once by [threadscan_queue_init]. *)
Record queue_t := mk_queue {
  e : list Z;
  capacity : Z;
  idx_head : Z;
  idx_tail : Z;
}.

(** The words of a queue that operations read and write. *)
Inductive queue_loc := Q_e (i : Z) | Q_capacity | Q_head | Q_tail.

#[export] Instance queue_shared : Shared queue_t queue_loc := {|
  sread q l := match l with
    | Q_e i => aget q.(e) i
    | Q_capacity => Ret q.(capacity)
    | Q_head => Ret q.(idx_head)
    | Q_tail => Ret q.(idx_tail)
    end;
  swrite q l v := match l with
    | Q_e i => e' ← aset q.(e) i v; Ret (mk_queue e' q.(capacity) q.(idx_head) q.(idx_tail))
    | Q_capacity => Ret (mk_queue q.(e) v q.(idx_head) q.(idx_tail))
    | Q_head => Ret (mk_queue q.(e) q.(capacity) v q.(idx_tail))
    | Q_tail => Ret (mk_queue q.(e) q.(capacity) q.(idx_head) v)
    end;
|}.

(** [#define INDEXIFY(abs_idx, capacity) ((abs_idx) & ((capacity) - 1))] *)
Definition INDEXIFY (abs_idx capacity : Z) : Z := Z.land abs_idx (u64 (capacity - 1)).

Definition threadscan_queue_init (buf : list Z) (capacity : Z) : queue_t :=
  mk_queue buf capacity 0 capacity.

Section ops.
Context `{Build}.

(** [assert(q->idx_head < q->idx_tail)] *)
Definition assert_head_lt_tail : prog queue_loc unit :=
  if debug then
    head ← rd Q_head; tail ← rd Q_tail; lift (c_assert (head <? tail))
  else mret tt.

Definition threadscan_queue_is_full : prog queue_loc Z :=
  _ ← assert_head_lt_tail;
  head ← rd Q_head; tail ← rd Q_tail;
  mret (if u64 (head + 1) >=? tail then 1 else 0).

Definition threadscan_queue_push (value : Z) : prog queue_loc unit :=
  head ← rd Q_head; cap ← rd Q_capacity;
  _ ← wr (Q_e (INDEXIFY head cap)) value;
  head ← rd Q_head;
  _ ← wr Q_head (u64 (head + 1));
  assert_head_lt_tail.

(** memcpy from the shared buffer, word by word, into the caller's own
    [values] at [off]. *)
Definition memcpy_from_queue (values : list Z) (off start n : Z) : prog queue_loc (list Z) :=
  if (0 <=? n) && (0 <=? off) && (off + n <=? zlen values) then
    pfor_range 0 n (λ i values,
      v ← rd (Q_e (start + i)); lift (aset values (off + i) v)) values
  else lift UB.

(** The result is the count and the updated [values] buffer, which the
    caller passes with the offset [vo] it points at. *)
Definition threadscan_queue_pop_bulk (values : list Z) (vo len : Z)
    : prog queue_loc (Z * list Z) :=
  idx_head ← rd Q_head;
  tail ← rd Q_tail; cap ← rd Q_capacity;
  let size := u64 (idx_head - u64 (tail - cap)) in
  _ ← lift (c_assert (len <? 0xF00000000000000));
  if size =? 0 then mret (0, values) else
  let '(idx_head, size) :=
    if size >? len then (u64 (idx_head - u64 (size - len)), len) else (idx_head, size) in
  let popped := size in
  cap ← rd Q_capacity;
  let head := INDEXIFY idx_head cap in
  tail ← rd Q_tail; cap ← rd Q_capacity;
  let start := INDEXIFY tail cap in
  '(values, values_offset, start) ←
    (if head <? start then
      cap ← rd Q_capacity;
      let elements := u64 (cap - start) in
      values ← memcpy_from_queue values vo start elements;
      mret (values, elements, 0)
    else mret (values, 0, start));
  let elements := u64 (head - start) in
  values ← (if elements >? 0 then memcpy_from_queue values (vo + values_offset) start elements
            else mret values);
  cap ← rd Q_capacity;
  _ ← wr Q_tail (u64 (idx_head + cap));
  _ ← (if debug then
         lift (for_range 0 popped (λ i _, v ← aget values (vo + i); c_assert (negb (v =? 0))) tt)
       else mret tt);
  mret (int_of_u64 popped, values).
End ops.

(** ** Indices *)

Definition is_pow2 (cap : Z) : Prop := ∃ k, 0 ≤ k < 63 ∧ cap = 2 ^ k.

Lemma is_pow2_pos cap : is_pow2 cap → 0 < cap < 2 ^ 63.
Proof.
  intros (k & Hk & ->). split; [apply Z.pow_pos_nonneg; lia|apply Z.pow_lt_mono_r; lia].
Qed.

(** Masking with [capacity - 1] is the remainder, for a power of two. *)
Lemma INDEXIFY_mod idx cap : is_pow2 cap → INDEXIFY idx cap = idx `mod` cap.
Proof.
  intros Hp. pose proof (is_pow2_pos _ Hp). unfold INDEXIFY.
  rewrite u64_small by lia. destruct Hp as (k & Hk & ->). apply land_low_mod. lia.
Qed.

Lemma mod_add_wrap t n cap :
  0 < cap → 0 ≤ n < cap →
  (t + n) `mod` cap =
    if t `mod` cap + n <? cap then t `mod` cap + n else t `mod` cap + n - cap.
Proof.
  intros Hc Hn. pose proof (Z.mod_pos_bound t cap Hc) as Ht.
  rewrite (Z.div_mod t cap) at 1 by lia.
  replace (cap * (t / cap) + t `mod` cap + n) with ((t `mod` cap + n) + (t / cap) * cap) by lia.
  rewrite Z.mod_add by lia. z_cases.
  - by apply Z.mod_small; lia.
  - symmetry. apply (Z.mod_unique_pos _ _ 1); lia.
Qed.

Lemma mod_add_cap t cap : 0 < cap → (t + cap) `mod` cap = t `mod` cap.
Proof. intros. rewrite <- (Z.mul_1_l cap) at 1. apply Z.mod_add. lia. Qed.

(** Two indices less than a capacity apart fall on different slots. *)
Lemma mod_neq i j cap : 0 < cap → i < j < i + cap → i `mod` cap ≠ j `mod` cap.
Proof.
  intros Hc Hij. replace j with (i + (j - i)) by lia. rewrite mod_add_wrap by lia.
  z_cases.
Qed.

(** ** The invariant

    [queue_inv vs N q]: the queue holds the values [vs j] for the absolute
    indices [idx_tail - capacity <= j < idx_head]; [N] bounds the number of
    pushes of the whole run, so that the absolute indices do not wrap. *)
Section inv.
Context (vs : Z → Z) (N : Z).

Record queue_inv (q : queue_t) : Prop := {
  qi_pow2 : is_pow2 q.(capacity);
  qi_len : zlen q.(e) = q.(capacity);
  qi_lo : 0 ≤ q.(idx_tail) - q.(capacity) ≤ q.(idx_head);
  qi_hi : q.(idx_head) < q.(idx_tail);
  qi_head : q.(idx_head) ≤ N;
  qi_wrap : N + q.(capacity) < 2 ^ 64;
  qi_elts : ∀ j, q.(idx_tail) - q.(capacity) ≤ j < q.(idx_head) →
            znth q.(e) (j `mod` q.(capacity)) = vs j;
}.

(** What the owner may see the reclaimer do, and conversely. *)
Record consumer_step (q q' : queue_t) : Prop := {
  cs_e : q'.(e) = q.(e);
  cs_cap : q'.(capacity) = q.(capacity);
  cs_head : q'.(idx_head) = q.(idx_head);
  cs_tail : q.(idx_tail) ≤ q'.(idx_tail);
  cs_inv : queue_inv q → queue_inv q';
}.

Record producer_step (q q' : queue_t) : Prop := {
  ps_cap : q'.(capacity) = q.(capacity);
  ps_tail : q'.(idx_tail) = q.(idx_tail);
  ps_head : q.(idx_head) ≤ q'.(idx_head);
  ps_inv : queue_inv q → queue_inv q';
}.

#[export] Instance consumer_step_refl : Reflexive consumer_step.
Proof. intros q. by split. Qed.
#[export] Instance consumer_step_trans : Transitive consumer_step.
Proof. intros q1 q2 q3 [] []. split; try congruence; [lia|auto]. Qed.
#[export] Instance producer_step_refl : Reflexive producer_step.
Proof. intros q. by split. Qed.
#[export] Instance producer_step_trans : Transitive producer_step.
Proof. intros q1 q2 q3 [] []. split; try congruence; [lia|auto]. Qed.

Section specs.
Context `{Build}.

(** *** The owner's operations *)

(** The assertion on the two indices holds. *)
Lemma assert_head_lt_tail_ok q (Q : unit → queue_t → Prop) :
  queue_inv q → (∀ q', consumer_step q q' → Q tt q') →
  rg consumer_step producer_step assert_head_lt_tail Q q.
Proof.
  intros Hq HQ. unfold assert_head_lt_tail. destruct debug eqn:Hd.
  - rg_read q1 S1. rg_read q2 S2. apply rg_lift.
    unfold c_assert. rewrite Hd.
    pose proof (qi_hi _ (cs_inv _ _ S1 Hq)). pose proof (cs_tail _ _ S2).
    replace (_ <? _) with true by lia. simpl. intros q3 S3. apply HQ.
    etrans; [exact S1|]. by etrans.
  - by apply rg_ret.
Qed.

Lemma threadscan_queue_is_full_ok q :
  queue_inv q →
  rg consumer_step producer_step threadscan_queue_is_full (λ r q',
    consumer_step q q' ∧
    (r = 0 ∧ idx_head q' + 1 < idx_tail q' ∨ r = 1 ∧ idx_tail q ≤ idx_head q + 1)) q.
Proof.
  intros Hq. unfold threadscan_queue_is_full. apply rg_bind; [exact _|].
  apply assert_head_lt_tail_ok; [done|]. intros q1 S1.
  rg_read q2 S2. rg_read q3 S3. apply rg_ret. intros q4 S4.
  assert (consumer_step q q2) as S02 by (by etrans).
  assert (consumer_step q q3) as S03 by (by etrans).
  assert (consumer_step q q4) as S04 by (by etrans).
  split; [done|].
  pose proof (cs_inv _ _ S02 Hq) as Hq2. pose proof (is_pow2_pos _ (qi_pow2 _ Hq2)).
  pose proof (qi_head _ Hq2). pose proof (qi_wrap _ Hq2). pose proof (qi_lo _ Hq2).
  rewrite u64_small by lia. rewrite Z.geb_leb.
  pose proof (cs_tail _ _ S4). pose proof (cs_head _ _ S03). pose proof (cs_head _ _ S04).
  pose proof (cs_head _ _ S02). pose proof (cs_tail _ _ S03).
  destruct (Z.leb_spec (idx_tail q3) (idx_head q2 + 1)); [right|left]; lia.
Qed.

(** Storing beyond the head leaves the queued values alone. *)
Lemma queue_inv_store q v :
  queue_inv q →
  queue_inv (mk_queue (zupd (e q) (idx_head q `mod` capacity q) v)
               (capacity q) (idx_head q) (idx_tail q)).
Proof.
  intros []. pose proof (is_pow2_pos _ qi_pow3).
  pose proof (Z.mod_pos_bound (idx_head q) (capacity q)).
  split; simpl; try done.
  - by rewrite zlen_zupd.
  - intros j Hj. rewrite znth_zupd_ne; [by apply qi_elts0|lia| |].
    + apply Z.mod_pos_bound. lia.
    + apply not_eq_sym, mod_neq; lia.
Qed.

(** Advancing the head over a slot that holds the next value. *)
Lemma queue_inv_advance q :
  queue_inv q → idx_head q + 1 < idx_tail q → idx_head q + 1 ≤ N →
  znth (e q) (idx_head q `mod` capacity q) = vs (idx_head q) →
  queue_inv (mk_queue (e q) (capacity q) (idx_head q + 1) (idx_tail q)).
Proof.
  intros [] Hf HN Hv. split; simpl; try done; [lia|].
  intros j Hj. destruct (decide (j = idx_head q)) as [->|]; [done|]. apply qi_elts0. lia.
Qed.

Lemma threadscan_queue_push_ok q value :
  queue_inv q → idx_head q + 1 < idx_tail q → idx_head q + 1 ≤ N → value = vs (idx_head q) →
  rg consumer_step producer_step (threadscan_queue_push value) (λ _ q',
    queue_inv q' ∧ idx_head q' = idx_head q + 1 ∧ idx_tail q ≤ idx_tail q') q.
Proof.
  intros Hq Hf HN ->. unfold threadscan_queue_push.
  rg_read q1 S1. rg_read q2 S2. rg_write q3 S3.
  assert (consumer_step q q3) as S03 by (etrans; [exact S1|by etrans]).
  assert (consumer_step q q2) as S02 by (etrans; [exact S1|exact S2]).
  pose proof (cs_inv _ _ S03 Hq) as Hq3. pose proof (qi_pow2 _ Hq3) as Hp.
  pose proof (is_pow2_pos _ Hp) as Hcap.
  assert (idx_head q1 = idx_head q3) as -> by (rewrite (cs_head _ _ S1), (cs_head _ _ S03); done).
  assert (capacity q2 = capacity q3) as -> by (rewrite (cs_cap _ _ S02), (cs_cap _ _ S03); done).
  rewrite INDEXIFY_mod by done.
  pose proof (Z.mod_pos_bound (idx_head q3) (capacity q3)).
  rewrite aset_in by (rewrite (qi_len _ Hq3); lia). rewrite outcome_bind_ret. apply wp_ret.
  set (q4 := mk_queue _ _ _ _).
  pose proof (queue_inv_store q3 (vs (idx_head q)) Hq3) as Hq4. fold q4 in Hq4.
  split; [split; simpl; try done; lia|].
  rg_read q5 S5. rg_write q6 S6.
  assert (consumer_step q4 q6) as S46 by (by etrans).
  pose proof (cs_inv _ _ S46 Hq4) as Hq6.
  assert (idx_head q5 = idx_head q6) as -> by (rewrite (cs_head _ _ S5), (cs_head _ _ S46); done).
  pose proof (cs_head _ _ S46) as Hh6. pose proof (cs_tail _ _ S46) as Ht6. simpl in Hh6, Ht6.
  pose proof (cs_head _ _ S03). pose proof (cs_tail _ _ S03).
  pose proof (qi_wrap _ Hq6). pose proof (is_pow2_pos _ (qi_pow2 _ Hq6)).
  pose proof (qi_lo _ Hq6).
  rewrite u64_small by lia.
  assert (queue_inv (mk_queue (e q6) (capacity q6) (idx_head q6 + 1) (idx_tail q6))) as Hq7.
  { apply queue_inv_advance; [done|lia|lia|].
    rewrite (cs_e _ _ S46), (cs_cap _ _ S46), Hh6. simpl.
    rewrite znth_zupd_eq; [congruence|]. rewrite (qi_len _ Hq3). apply Z.mod_pos_bound. lia. }
  split; [split; simpl; try done; lia|].
  apply assert_head_lt_tail_ok; [done|]. intros q8 S8.
  pose proof (cs_head _ _ S8). pose proof (cs_tail _ _ S8). simpl in *.
  split; [by apply (cs_inv _ _ S8)|]. lia.
Qed.

(** *** The reclaimer's operation *)

Lemma producer_step_read q q' j :
  queue_inv q → producer_step q q' →
  idx_tail q - capacity q ≤ j < idx_head q →
  aget (e q') (j `mod` capacity q) = Ret (vs j).
Proof.
  intros Hq S Hj. pose proof (ps_inv _ _ S Hq) as Hq'.
  rewrite <- (ps_cap _ _ S). pose proof (is_pow2_pos _ (qi_pow2 _ Hq')).
  rewrite aget_in by (rewrite (qi_len _ Hq'); apply Z.mod_pos_bound; lia).
  rewrite (qi_elts _ Hq'); [done|].
  rewrite (ps_cap _ _ S), (ps_tail _ _ S). pose proof (ps_head _ _ S). lia.
Qed.

(** Copying out a run of slots that does not pass the end of the buffer. *)
Lemma memcpy_from_queue_ok q values off j n :
  queue_inv q → 0 ≤ n → 0 ≤ off → off + n ≤ zlen values →
  idx_tail q - capacity q ≤ j → j + n ≤ idx_head q →
  j `mod` capacity q + n ≤ capacity q →
  rg producer_step consumer_step (memcpy_from_queue values off (j `mod` capacity q) n)
    (λ values' q', producer_step q q' ∧ values' = blit values off (vs <$> seqZ j n)) q.
Proof.
  intros Hq Hn Ho Hlen Hlo Hhi Hend. unfold memcpy_from_queue.
  replace (_ && _) with true by lia.
  apply rg_pfor_range with (I := λ i values' q',
    producer_step q q' ∧ values' = blit values off (vs <$> seqZ j i)); try exact _.
  - intros i s q1 q2 [S1 ->] S2. split; [by etrans|done].
  - by rewrite blit_nil.
  - intros i vals q1 Hi [S1 ->].
    rg_read q2 S2. assert (producer_step q q2) as S by (etrans; [exact S1|exact S2]).
    replace (j `mod` capacity q + i) with ((j + i) `mod` capacity q).
    2: { pose proof (is_pow2_pos _ (qi_pow2 _ Hq)). pose proof (Z.mod_pos_bound j (capacity q)).
         rewrite mod_add_wrap by lia. z_cases. }
    rewrite (producer_step_read q q2 (j + i) Hq S) by lia. apply wp_ret.
    assert (zlen (vs <$> seqZ j i) = i) as Hzl.
    { unfold zlen. rewrite length_fmap, length_seqZ. lia. }
    apply rg_lift. rewrite aset_in by (rewrite zlen_blit; lia). apply wp_ret.
    intros q3 S3. split; [by etrans|].
    replace (off + i) with (off + zlen (vs <$> seqZ j i)) by lia. rewrite blit_snoc by lia.
    rewrite seqZ_app by lia. by rewrite fmap_app.
  - intros vals q'. by replace (Z.max 0 n) with n by lia.
Qed.

(** Publishing a new tail. *)
Lemma queue_inv_retire q n :
  queue_inv q → 0 ≤ n → idx_tail q - capacity q + n ≤ idx_head q →
  consumer_step q (mk_queue (e q) (capacity q) (idx_head q) (idx_tail q + n)).
Proof.
  intros Hq Hn Hle. split; simpl; try done; [lia|]. intros _. destruct Hq.
  split; simpl; try done; [lia|lia|]. intros j Hj. apply qi_elts0. lia.
Qed.

Lemma zlen_fmap_seqZ j n : 0 ≤ n → zlen (vs <$> seqZ j n) = n.
Proof. intros. unfold zlen. rewrite length_fmap, length_seqZ. lia. Qed.

Lemma znth_fmap_seqZ j n i : 0 ≤ i < n → znth (vs <$> seqZ j n) i = vs (j + i).
Proof.
  intros Hi. unfold znth. rewrite nth_lookup, list_lookup_fmap, lookup_seqZ_lt; simpl; [|lia].
  f_equal. lia.
Qed.

(** The check of the debug build that no popped value is 0. *)
Lemma popped_nonzero_ok values off j n :
  0 ≤ off → 0 ≤ n → off + n ≤ zlen values → (∀ i, j ≤ i < j + n → vs i ≠ 0) →
  wp (for_range 0 n (λ i _, v ← aget (blit values off (vs <$> seqZ j n)) (off + i);
        c_assert (negb (v =? 0))) tt) (λ _, True).
Proof.
  intros Ho Hn Hl Hnz. apply wp_for_range with (I := λ _ _, True); [done| |done].
  intros i [] Hi _. apply wp_bind. pose proof (zlen_fmap_seqZ j n Hn).
  apply wp_aget; [rewrite zlen_blit; lia|]. rewrite znth_blit by lia.
  replace (_ && _) with true by lia. rewrite znth_fmap_seqZ by lia.
  replace (j + (off + i - off)) with (j + i) by lia.
  destruct (Z.eqb_spec (vs (j + i)) 0) as [E|]; [by destruct (Hnz (j + i)); [lia|]|].
  unfold c_assert. by destruct debug.
Qed.

(** The two copies of [threadscan_queue_pop_bulk]: to the end of the
    buffer when the values wrap around, then the rest. *)
Lemma pop_first_copy_ok q values vo t n :
  let cap := capacity q in
  let start := t `mod` cap in
  let head := (t + n) `mod` cap in
  queue_inv q → 0 ≤ n < cap → idx_tail q = t + cap → t + n ≤ idx_head q →
  0 ≤ vo → vo + n ≤ zlen values →
  rg producer_step consumer_step
    (if head <? start then
       cap ← rd Q_capacity;
       let elements := u64 (cap - start) in
       values ← memcpy_from_queue values vo start elements;
       mret (values, elements, 0)
     else mret (values, 0, start))
    (λ r q', producer_step q q' ∧
      ∃ vo', r = (blit values vo (vs <$> seqZ t vo'), vo', (t + vo') `mod` cap) ∧ 0 ≤ vo' ≤ n ∧
        u64 (head - (t + vo') `mod` cap) = n - vo' ∧ (t + vo') `mod` cap + (n - vo') ≤ cap) q.
Proof.
  intros cap start head Hq Hn Ht Hh Hvo Hvl.
  pose proof (is_pow2_pos _ (qi_pow2 _ Hq)) as Hcap. fold cap in Hcap.
  pose proof (Z.mod_pos_bound t cap ltac:(lia)) as Hst. fold start in Hst.
  assert (head = if start + n <? cap then start + n else start + n - cap) as Hhead
    by (apply mod_add_wrap; lia).
  destruct (Z.ltb_spec head start) as [Hlt|Hge].
  - assert (cap ≤ start + n) as Hwrap by (revert Hhead; z_cases).
    assert ((t + (cap - start)) `mod` cap = 0) as Hend
      by (rewrite mod_add_wrap by lia; fold start; z_cases).
    rg_read q1 S1. rewrite (ps_cap _ _ S1). fold cap. rewrite u64_small by lia. cbv zeta.
    apply rg_bind; [exact _|]. apply rg_stable with q; [exact _|exact S1|].
    eapply rg_mono; [apply memcpy_from_queue_ok; try done; fold cap start; lia|].
    intros v q2 [S2 ->]. apply rg_ret. intros q3 S3. split; [by etrans|].
    exists (cap - start). rewrite Hend. split; [done|]. split; [lia|].
    rewrite Hhead. z_cases. rewrite u64_small; lia.
  - assert (start + n < cap) as Hnw by (revert Hhead; z_cases).
    apply rg_ret. intros q1 S1. split; [done|]. exists 0.
    rewrite blit_nil, Z.add_0_r. fold start. split; [done|]. split; [lia|].
    rewrite Hhead. z_cases. rewrite u64_small; lia.
Qed.

Lemma pop_second_copy_ok q values vo t n vo' :
  let cap := capacity q in
  let start := (t + vo') `mod` cap in
  queue_inv q → 0 ≤ vo' ≤ n → idx_tail q = t + cap → t + n ≤ idx_head q →
  0 ≤ vo → vo + n ≤ zlen values → start + (n - vo') ≤ cap →
  rg producer_step consumer_step
    (if n - vo' >? 0 then
       memcpy_from_queue (blit values vo (vs <$> seqZ t vo')) (vo + vo') start (n - vo')
     else mret (blit values vo (vs <$> seqZ t vo')))
    (λ v q', producer_step q q' ∧ v = blit values vo (vs <$> seqZ t n)) q.
Proof.
  intros cap start Hq Hn Ht Hh Hvo Hvl Hend. rewrite Z.gtb_ltb.
  pose proof (zlen_fmap_seqZ t vo' ltac:(lia)) as Hz.
  destruct (Z.ltb_spec 0 (n - vo')).
  - eapply rg_mono; [apply memcpy_from_queue_ok; rewrite ?zlen_blit; try lia; try done|].
    intros v q1 [S1 ->]. split; [done|].
    replace (vo + vo') with (vo + zlen (vs <$> seqZ t vo')) by lia.
    rewrite blit_app by (rewrite ?zlen_fmap_seqZ; lia).
    rewrite <- fmap_app, <- seqZ_app by lia. do 3 f_equal. lia.
  - apply rg_ret. intros q1 S1. replace n with vo' by lia. done.
Qed.

(** Publishing the new tail, and the debug check. *)
Lemma pop_finish_ok q values vo t n :
  queue_inv q → 0 ≤ n ≤ INT_MAX → idx_tail q = t + capacity q → t + n ≤ idx_head q →
  0 ≤ vo → vo + n ≤ zlen values → (debug = true → ∀ j, 0 ≤ j < N → vs j ≠ 0) →
  rg producer_step consumer_step
    (cap ← rd Q_capacity;
     _ ← wr Q_tail (u64 (t + n + cap));
     _ ← (if debug then
            lift (for_range 0 n (λ i _, v ← aget (blit values vo (vs <$> seqZ t n)) (vo + i);
                    c_assert (negb (v =? 0))) tt)
          else mret tt);
     mret (int_of_u64 n, blit values vo (vs <$> seqZ t n)))
    (λ r q', r = (n, blit values vo (vs <$> seqZ t n)) ∧ idx_tail q' = idx_tail q + n ∧
      capacity q' = capacity q ∧ idx_head q ≤ idx_head q' ∧ queue_inv q') q.
Proof.
  intros Hq Hn Ht Hh Hvo Hvl Hnz. rg_read q1 S1. rg_write q2 S2.
  assert (producer_step q q2) as S02 by (etrans; [exact S1|exact S2]).
  pose proof (ps_inv _ _ S02 Hq) as Hq2. pose proof (ps_cap _ _ S02).
  pose proof (ps_tail _ _ S02). pose proof (ps_head _ _ S02).
  rewrite (ps_cap _ _ S1). pose proof (qi_wrap _ Hq2). pose proof (qi_lo _ Hq2).
  pose proof (qi_lo _ Hq). pose proof (is_pow2_pos _ (qi_pow2 _ Hq)). pose proof (qi_head _ Hq2).
  rewrite u64_small by lia. replace (t + n + capacity q) with (idx_tail q2 + n) by lia.
  pose proof (queue_inv_retire q2 n Hq2 ltac:(lia) ltac:(lia)) as S3.
  split; [exact S3|]. set (q3 := mk_queue _ _ _ _) in *.
  apply rg_bind; [exact _|].
  apply rg_mono with (P := λ _ q', producer_step q3 q').
  { destruct debug eqn:Hd; [|by apply rg_ret]. apply rg_lift.
    eapply wp_mono; [apply popped_nonzero_ok|]; try lia; [|done].
    intros i Hi. apply Hnz; [done|lia]. }
  intros _ q4 S4. apply rg_ret. intros q5 S5.
  assert (producer_step q3 q5) as S by (etrans; [exact S4|exact S5]).
  pose proof (ps_head _ _ S). simpl in *. rewrite int_of_u64_small by done.
  split; [done|]. rewrite (ps_tail _ _ S), (ps_cap _ _ S). simpl.
  split; [lia|]. split; [lia|]. split; [lia|]. by apply (ps_inv _ _ S), (cs_inv _ _ S3).
Qed.

(** The values from [t] on, as many as were found, and the new tail. *)
Lemma pop_rest_ok q values vo t n :
  queue_inv q → 0 ≤ t → 0 ≤ n < capacity q → n ≤ INT_MAX → idx_tail q = t + capacity q → t + n ≤ idx_head q →
  0 ≤ vo → vo + n ≤ zlen values → (debug = true → ∀ j, 0 ≤ j < N → vs j ≠ 0) →
  rg producer_step consumer_step
    (cap ← rd Q_capacity;
     let head := INDEXIFY (t + n) cap in
     tail ← rd Q_tail; cap ← rd Q_capacity;
     let start := INDEXIFY tail cap in
     '(values, values_offset, start) ←
       (if head <? start then
         cap ← rd Q_capacity;
         let elements := u64 (cap - start) in
         values ← memcpy_from_queue values vo start elements;
         mret (values, elements, 0)
       else mret (values, 0, start));
     let elements := u64 (head - start) in
     values ← (if elements >? 0 then memcpy_from_queue values (vo + values_offset) start elements
               else mret values);
     cap ← rd Q_capacity;
     _ ← wr Q_tail (u64 (t + n + cap));
     _ ← (if debug then
            lift (for_range 0 n (λ i _, v ← aget values (vo + i); c_assert (negb (v =? 0))) tt)
          else mret tt);
     mret (int_of_u64 n, values))
    (λ r q', r = (n, blit values vo (vs <$> seqZ t n)) ∧ idx_tail q' = idx_tail q + n ∧
      capacity q' = capacity q ∧ idx_head q ≤ idx_head q' ∧ queue_inv q') q.
Proof.
  intros Hq Ht0 Hn Hni Ht Hh Hvo Hvl Hnz. pose proof (is_pow2_pos _ (qi_pow2 _ Hq)) as Hcap.
  rg_read q4 S4. rg_read q5 S5. rg_read q6 S6.
  assert (producer_step q q5) as S05 by (etrans; [exact S4|exact S5]).
  assert (producer_step q q6) as S06 by (etrans; [exact S05|exact S6]).
  pose proof (ps_head _ _ S06) as Hh06.
  rewrite (ps_cap _ _ S4), (ps_tail _ _ S05), (ps_cap _ _ S06).
  rewrite !INDEXIFY_mod by apply (qi_pow2 _ Hq). rewrite Ht, mod_add_cap by lia.
  pose proof (ps_inv _ _ S06 Hq) as Hq6. pose proof (ps_cap _ _ S06) as Hc6.
  pose proof (ps_tail _ _ S06) as Ht6. rewrite <- Hc6 in *.
  apply rg_bind; [exact _|].
  eapply rg_mono; [apply (pop_first_copy_ok q6 values vo t n); try done; lia|].
  intros r q7 (S7 & vo' & -> & Hvo' & Hrest & Hend). cbv beta iota zeta.
  apply rg_bind; [exact _|]. rewrite Hrest.
  pose proof (ps_cap _ _ S7) as Hc7. pose proof (ps_tail _ _ S7). pose proof (ps_head _ _ S7).
  rewrite <- Hc7 in *.
  eapply rg_mono; [apply (pop_second_copy_ok q7 values vo t n vo'); try done; try lia|].
  { by apply (ps_inv _ _ S7). }
  intros v q8 (S8 & ->).
  pose proof (ps_tail _ _ S8). pose proof (ps_cap _ _ S8). pose proof (ps_head _ _ S8).
  eapply rg_mono; [apply (pop_finish_ok q8 values vo t n); try done; try lia|].
  { by apply (ps_inv _ _ S8), (ps_inv _ _ S7). }
  intros r q9 (-> & Ht9 & Hc9 & Hh9 & Hq9).
  split; [done|]. split; [lia|]. split; [lia|]. split; [lia|done].
Qed.

Lemma threadscan_queue_pop_bulk_ok q values vo len :
  queue_inv q → 0 ≤ len ≤ INT_MAX → 0 ≤ vo → vo + len ≤ zlen values →
  (debug = true → ∀ j, 0 ≤ j < N → vs j ≠ 0) →
  rg producer_step consumer_step (threadscan_queue_pop_bulk values vo len) (λ r q',
    ∃ h, idx_head q ≤ h ≤ idx_head q' ∧
      r.1 = len `min` (h - (idx_tail q - capacity q)) ∧
      r.2 = blit values vo (vs <$> seqZ (idx_tail q - capacity q) r.1) ∧
      idx_tail q' = idx_tail q + r.1 ∧ capacity q' = capacity q ∧ queue_inv q') q.
Proof.
  intros Hq Hlen Hvo Hvl Hnz. unfold threadscan_queue_pop_bulk. unfold INT_MAX in Hlen.
  rg_read q1 S1. rg_read q2 S2. rg_read q3 S3.
  assert (producer_step q q3) as S03 by (etrans; [exact S1|etrans; [exact S2|exact S3]]).
  assert (producer_step q q2) as S02 by (etrans; [exact S1|exact S2]).
  rewrite (ps_tail _ _ S02), (ps_cap _ _ S03).
  pose proof (ps_inv _ _ S1 Hq) as Hq1. pose proof (is_pow2_pos _ (qi_pow2 _ Hq)) as Hcap.
  pose proof (qi_lo _ Hq1) as Hlo1. pose proof (qi_hi _ Hq1) as Hhi1.
  pose proof (qi_lo _ Hq) as Hlo. pose proof (qi_hi _ Hq) as Hhi.
  pose proof (qi_head _ Hq1) as HN1. pose proof (qi_wrap _ Hq) as Hw.
  rewrite (ps_tail _ _ S1), (ps_cap _ _ S1) in Hlo1. rewrite (ps_tail _ _ S1) in Hhi1.
  assert (idx_head q1 ≤ idx_head q3) as Hh13.
  { pose proof (ps_head _ _ S2). pose proof (ps_head _ _ S3). lia. }
  pose proof (ps_head _ _ S1) as Hh01.
  clear S1 S2 S3 S02 Hq1. set (h := idx_head q1) in *. clearbody h. clear q1 q2.
  set (t := idx_tail q - capacity q) in *. set (cap := capacity q) in *.
  assert (idx_tail q = t + cap) as Htail by (unfold t; lia).
  rewrite (u64_small t) by lia. rewrite (u64_small (h - t)) by lia.
  apply rg_bind_lift. unfold c_assert at 1. replace (len <? _) with true by lia.
  replace (if debug then Ret tt else Ret tt) with (@Ret unit tt) by (by destruct debug).
  apply wp_ret. cbv beta. destruct (Z.eqb_spec (h - t) 0) as [Hz|Hz].
  { apply rg_ret. intros q' S'. assert (producer_step q q') as S by (etrans; [exact S03|exact S']).
    exists h. pose proof (ps_head _ _ S').
    rewrite (ps_tail _ _ S), (ps_cap _ _ S). simpl.
    replace (h - t) with 0 by lia. rewrite Z.min_r by lia. rewrite blit_nil.
    split; [lia|]. split; [done|]. split; [done|]. split; [lia|].
    split; [done|]. by apply (ps_inv _ _ S). }
  set (n := len `min` (h - t)).
  replace (if h - t >? len then (u64 (h - u64 (h - t - len)), len) else (h, h - t))
    with (t + n, n).
  2: { rewrite Z.gtb_ltb. destruct (Z.ltb_spec len (h - t)).
       - rewrite (u64_small (h - t - len)), u64_small by lia. unfold n. f_equal; lia.
       - unfold n. f_equal; lia. }
  cbv iota zeta.
  pose proof (ps_tail _ _ S03) as Ht3. pose proof (ps_cap _ _ S03) as Hc3.
  eapply rg_mono; [apply (pop_rest_ok q3 values vo t n); try done; try lia|].
  { by apply (ps_inv _ _ S03). }
  { unfold INT_MAX. lia. }
  intros r q9 (-> & Ht9 & Hc9 & Hh9 & Hq9). exists h. simpl.
  split; [lia|]. split; [done|]. split; [done|]. split; [lia|]. split; [lia|done].
Qed.
End specs.
End inv.

(** ** Sequential behaviour *)

(** The queued values, oldest first. *)
Definition contents (q : queue_t) : list Z :=
  (λ j, znth q.(e) (j `mod` q.(capacity))) <$>
    seqZ (q.(idx_tail) - q.(capacity)) (q.(idx_head) - (q.(idx_tail) - q.(capacity))).

(** Well-formed queues: a power-of-two buffer, and room in 64 bits for one
    more lap of the absolute indices. *)
Definition queue_wf (q : queue_t) : Prop :=
  is_pow2 q.(capacity) ∧ zlen q.(e) = q.(capacity) ∧
  0 ≤ q.(idx_tail) - q.(capacity) ≤ q.(idx_head) ∧ q.(idx_head) < q.(idx_tail) ∧
  q.(idx_head) + q.(capacity) < 2 ^ 64.

Lemma contents_length q : queue_wf q →
  zlen (contents q) = idx_head q - (idx_tail q - capacity q).
Proof. intros (_ & _ & ? & _). unfold zlen, contents. rewrite length_fmap, length_seqZ. lia. Qed.

Lemma contents_inv vs N q : queue_inv vs N q →
  contents q = vs <$> seqZ (idx_tail q - capacity q) (idx_head q - (idx_tail q - capacity q)).
Proof.
  intros Hq. unfold contents. apply list_fmap_ext. intros i j Hj.
  apply lookup_seqZ in Hj as [-> Hi]. apply (qi_elts _ _ _ Hq). lia.
Qed.

Lemma queue_inv_wf vs N q : queue_inv vs N q → queue_wf q.
Proof. intros []. repeat split; try done; lia. Qed.

(** The stream of a well-formed queue: its values, then [v]. *)
Definition stream (q : queue_t) (v : Z) (j : Z) : Z :=
  if j =? idx_head q then v else znth (e q) (j `mod` capacity q).

Lemma queue_wf_inv q v N :
  queue_wf q → idx_head q ≤ N → N + capacity q < 2 ^ 64 → queue_inv (stream q v) N q.
Proof.
  intros (? & ? & ? & ? & ?) HN Hw. split; try done; try lia.
  intros j Hj. unfold stream. by replace (j =? idx_head q) with false by lia.
Qed.

Section sequential.
Context `{Build}.

Lemma queue_init_wf buf cap :
  is_pow2 cap → zlen buf = cap →
  queue_wf (threadscan_queue_init buf cap) ∧ contents (threadscan_queue_init buf cap) = [].
Proof.
  intros Hp Hl. pose proof (is_pow2_pos _ Hp). split.
  - repeat split; simpl; try done; lia.
  - unfold contents. simpl. by replace (0 - (cap - cap)) with 0 by lia.
Qed.

Lemma is_full_run q :
  queue_wf q →
  run threadscan_queue_is_full q =
    Ret (if zlen (contents q) =? capacity q - 1 then 1 else 0, q).
Proof.
  intros Hq. rewrite contents_length by done. pose proof Hq as (_ & _ & ? & ? & ?).
  pose proof (queue_wf_inv q 0 (idx_head q) Hq ltac:(lia) ltac:(lia)) as Hi.
  pose proof (threadscan_queue_is_full_ok _ _ q Hi) as Hs.
  apply rg_run_alone, wp_iff in Hs as ([r q'] & -> & [Hc Hr] & Hp); try exact _. simpl in *.
  assert (q' = q) as ->.
  { destruct q, q'. pose proof (cs_e _ _ _ _ Hc). pose proof (cs_cap _ _ _ _ Hc).
    pose proof (cs_head _ _ _ _ Hc). pose proof (ps_tail _ _ _ _ Hp). simpl in *. congruence. }
  do 2 f_equal. z_cases.
Qed.

Lemma push_run q v :
  queue_wf q → zlen (contents q) < capacity q - 1 → idx_head q + 1 + capacity q < 2 ^ 64 →
  ∃ q', run (threadscan_queue_push v) q = Ret (tt, q') ∧ queue_wf q' ∧
    capacity q' = capacity q ∧ idx_head q' = idx_head q + 1 ∧ contents q' = contents q ++ [v].
Proof.
  intros Hq Hf Hw. rewrite contents_length in Hf by done. pose proof Hq as (_ & _ & ? & ? & ?).
  pose proof (queue_wf_inv q v (idx_head q + 1) Hq ltac:(lia) ltac:(lia)) as Hi.
  pose proof (threadscan_queue_push_ok _ _ q v Hi ltac:(lia) ltac:(lia)) as Hs.
  unfold stream at 1 in Hs. rewrite Z.eqb_refl in Hs. specialize (Hs eq_refl).
  apply rg_run_alone, wp_iff in Hs as ([[] q'] & Hr & (Hq' & Hh & _) & Hp); try exact _. simpl in *.
  exists q'. pose proof (ps_cap _ _ _ _ Hp) as Hc. pose proof (ps_tail _ _ _ _ Hp) as Ht.
  split; [done|]. split; [by eapply queue_inv_wf|]. split; [done|]. split; [done|].
  rewrite (contents_inv _ _ _ Hq'), (contents_inv _ _ _ Hi), Hh, Hc, Ht.
  set (t := idx_tail q - capacity q).
  replace (idx_head q + 1 - t) with ((idx_head q - t) + 1) by lia.
  rewrite seqZ_app, fmap_app by lia. f_equal.
  replace (t + (idx_head q - t)) with (idx_head q) by lia.
  unfold stream. simpl. by rewrite Z.eqb_refl.
Qed.

Lemma pop_bulk_run q values vo len :
  queue_wf q → 0 ≤ len ≤ INT_MAX → 0 ≤ vo → vo + len ≤ zlen values →
  (debug = true → 0 ∉ contents q) →
  let n := len `min` zlen (contents q) in
  ∃ q', run (threadscan_queue_pop_bulk values vo len) q =
      Ret ((n, blit values vo (take (Z.to_nat n) (contents q))), q') ∧
    queue_wf q' ∧ capacity q' = capacity q ∧ idx_head q' = idx_head q ∧
    contents q' = drop (Z.to_nat n) (contents q).
Proof.
  intros Hq Hlen Hvo Hvl Hnz n. pose proof Hq as (_ & _ & ? & ? & ?).
  (* outside of the queued indices the stream is not 0 *)
  set (vs := λ j, if (idx_tail q - capacity q <=? j) && (j <? idx_head q) then stream q 1 j else 1).
  assert (queue_inv vs (idx_head q) q) as Hi.
  { destruct (queue_wf_inv q 1 (idx_head q) Hq) as []; try lia. split; try done.
    intros j Hj. unfold vs. replace (_ && _) with true by lia. auto. }
  pose proof (contents_inv _ _ _ Hi) as Hc.
  assert (debug = true → ∀ j, 0 ≤ j < idx_head q → vs j ≠ 0) as Hnz'.
  { intros Hd j Hj Hv. unfold vs in Hv. destruct (_ && _) eqn:Hr; [|done].
    apply (Hnz Hd). rewrite Hc. apply list_elem_of_fmap. exists j.
    split; [unfold vs; by rewrite Hr|]. apply elem_of_seqZ. lia. }
  pose proof (threadscan_queue_pop_bulk_ok _ _ q values vo len Hi Hlen Hvo Hvl Hnz') as Hs.
  apply rg_run_alone, wp_iff in Hs as ([r q'] & Hr & (h & Hh & Hn & Hv & Ht & Hcap & Hq') & Hp);
    try exact _.
  simpl in *. pose proof (cs_head _ _ _ _ Hp) as Hh'. assert (h = idx_head q) as -> by lia.
  pose proof (contents_length _ Hq) as Hcl.
  assert (r.1 = n) as Hn' by (unfold n; lia).
  assert (0 ≤ n ≤ idx_head q - (idx_tail q - capacity q)) as Hnb by lia.
  replace (idx_head q - (idx_tail q - capacity q))
    with (n + (idx_head q - (idx_tail q - capacity q) - n)) in Hc by lia.
  rewrite seqZ_app, fmap_app in Hc by lia.
  assert (length (vs <$> seqZ (idx_tail q - capacity q) n) = Z.to_nat n) as Hl
    by (by rewrite length_fmap, length_seqZ).
  exists q'. split; [|split; [by eapply queue_inv_wf|split; [done|split; [done|]]]].
  - rewrite Hr, Hc, take_app_length' by done. rewrite Hn' in Hv. clearbody n.
    destruct r as [r1 r2]. simpl in *. congruence.
  - rewrite (contents_inv _ _ _ Hq'), Hc, drop_app_length' by done.
    rewrite Ht, Hcap, Hh', Hn'. f_equal. f_equal; lia.
Qed.
End sequential.

(** ** The abstract queue and the refinement

    [fifo_op] is what queue.h promises: a first-in first-out list of at most
    [cap - 1] values.  Pushing onto a full queue, pushing NULL or popping
    more than an [int] can count is outside of the contract. *)
Inductive queue_op := op_is_full | op_push (v : Z) | op_pop (len : Z).
Inductive queue_resp := resp_full (r : Z) | resp_push | resp_pop (vals : list Z).

Definition fifo_op (cap : Z) (op : queue_op) (items : list Z) : option (queue_resp * list Z) :=
  match op with
  | op_is_full => Some (resp_full (if zlen items =? cap - 1 then 1 else 0), items)
  | op_push v =>
      if (zlen items <? cap - 1) && negb (v =? 0) then Some (resp_push, items ++ [v]) else None
  | op_pop len =>
      if (0 <=? len) && (len <=? INT_MAX)
      then Some (resp_pop (take (Z.to_nat len) items), drop (Z.to_nat len) items) else None
  end.

Fixpoint fifo_ops (cap : Z) (ops : list queue_op) (items : list Z)
    : option (list queue_resp * list Z) :=
  match ops with
  | [] => Some ([], items)
  | op :: ops' =>
      '(r, items') ← fifo_op cap op items;
      '(rs, items'') ← fifo_ops cap ops' items';
      Some (r :: rs, items'')
  end.

Section refinement.
Context `{Build}.

Definition queue_op_run (op : queue_op) (q : queue_t) : outcome (queue_resp * queue_t) :=
  match op with
  | op_is_full => '(r, q') ← run threadscan_queue_is_full q; Ret (resp_full r, q')
  | op_push v => '(_, q') ← run (threadscan_queue_push v) q; Ret (resp_push, q')
  | op_pop len =>
      '((n, vals), q') ← run (threadscan_queue_pop_bulk (replicate (Z.to_nat len) 0) 0 len) q;
      Ret (resp_pop (slice vals 0 n), q')
  end.

Fixpoint queue_ops_run (ops : list queue_op) (q : queue_t) : outcome (list queue_resp * queue_t) :=
  match ops with
  | [] => Ret ([], q)
  | op :: ops' =>
      '(r, q') ← queue_op_run op q;
      '(rs, q'') ← queue_ops_run ops' q';
      Ret (r :: rs, q'')
  end.

(** The simulation: a well-formed queue, related to its items; no item is 0. *)
Definition queue_sim (cap bound : Z) (q : queue_t) (items : list Z) : Prop :=
  queue_wf q ∧ capacity q = cap ∧ contents q = items ∧ (0 ∉ items) ∧
  idx_head q + bound + cap < 2 ^ 64.

Lemma slice_blit_0 n (l : list Z) :
  (zlen l ≤ Z.of_nat n) →
  slice (blit (replicate n 0) 0 l) 0 (zlen l) = l.
Proof.
  intros Hl. pose proof (zlen_nonneg l). apply znth_ext.
  - rewrite zlen_slice; [done|lia|done|]. rewrite zlen_blit; rewrite ?zlen_replicate; lia.
  - rewrite zlen_slice by (rewrite ?zlen_blit; rewrite ?zlen_replicate; lia). intros i Hi.
    rewrite znth_slice, znth_blit by (rewrite ?zlen_replicate; lia).
    replace (_ && _) with true by lia. f_equal. lia.
Qed.

Lemma zlen_take_min (l : list Z) len : 0 ≤ len →
  zlen (take (Z.to_nat len) l) = len `min` zlen l.
Proof. intros. rewrite zlen_take. lia. Qed.

Lemma take_min (l : list Z) len : 0 ≤ len →
  take (Z.to_nat (len `min` zlen l)) l = take (Z.to_nat len) l.
Proof.
  intros. destruct (Z.le_ge_cases len (zlen l)).
  - by rewrite Z.min_l by done.
  - rewrite Z.min_r by lia. rewrite !take_ge; unfold zlen in *; try done; lia.
Qed.

Lemma drop_min (l : list Z) len : 0 ≤ len →
  drop (Z.to_nat (len `min` zlen l)) l = drop (Z.to_nat len) l.
Proof.
  intros. destruct (Z.le_ge_cases len (zlen l)).
  - by rewrite Z.min_l by done.
  - rewrite Z.min_r by lia. rewrite !drop_ge; unfold zlen in *; try done; lia.
Qed.

(** One operation of the specification is matched by one of the code. *)
Lemma queue_op_sim cap b q items op r items' :
  0 ≤ b → queue_sim cap (b + 1) q items → fifo_op cap op items = Some (r, items') →
  ∃ q', queue_op_run op q = Ret (r, q') ∧ queue_sim cap b q' items'.
Proof.
  intros Hb (Hq & Hc & Hi & Hnz & Hw) Hop.
  destruct op as [|v|len]; cbn [queue_op_run fifo_op] in *.
  - injection Hop as <- <-. exists q. rewrite is_full_run by done.
    rewrite Hi, Hc. split; [done|].
    split; [done|]. split; [done|]. split; [done|]. split; [done|]. lia.
  - destruct (_ && _) eqn:Hg; [|done]. injection Hop as <- <-.
    apply andb_true_iff in Hg as [Hlt%Z.ltb_lt Hv]. apply negb_true_iff, Z.eqb_neq in Hv.
    destruct (push_run q v) as (q' & Hr & Hq' & Hc' & Hh' & Hi');
      [done|rewrite Hi; lia|lia|].
    exists q'. rewrite Hr. split; [done|]. split; [done|]. rewrite Hi', Hc', Hh', Hi.
    split; [done|]. split; [done|]. split; [|lia].
    rewrite elem_of_app, list_elem_of_singleton. intros [?|?]; [done|lia].
  - destruct (_ && _) eqn:Hg; [|done]. injection Hop as <- <-.
    assert (0 ≤ len ≤ INT_MAX) as Hlen by lia. clear Hg.
    destruct (pop_bulk_run q (replicate (Z.to_nat len) 0) 0 len)
      as (q' & Hr & Hq' & Hc' & Hh' & Hi'); [done|done|done| |by rewrite Hi|].
    { rewrite zlen_replicate. lia. }
    exists q'. rewrite Hr. cbn. rewrite Hi in *. clear Hr. rewrite take_min, <- zlen_take_min by lia.
    rewrite slice_blit_0 by (rewrite zlen_take_min; lia). split; [done|].
    rewrite drop_min in Hi' by lia.
    split; [done|]. split; [lia|]. split; [done|]. split; [|lia].
    intros H0. apply Hnz. rewrite <- (take_drop (Z.to_nat len) items), elem_of_app. by right.
Qed.

(** C20. queue.c implements the bounded first-in first-out list that queue.h
    promises: any sequence of operations that the list allows runs on the
    circular buffer with the same results, without failing an assertion or
    leaving the buffer, and leaves the same contents. *)
Theorem queue_refines_fifo cap ops q items rs items' :
  queue_sim cap (Z.of_nat (length ops)) q items →
  fifo_ops cap ops items = Some (rs, items') →
  ∃ q', queue_ops_run ops q = Ret (rs, q') ∧ queue_sim cap 0 q' items'.
Proof.
  revert q items rs items'.
  induction ops as [|op ops IH]; intros q items rs items' Hq Hf; simpl in Hf.
  - injection Hf as <- <-. by exists q.
  - apply bind_Some in Hf as ([r items1] & Hop & Hf).
    apply bind_Some in Hf as ([rs1 items2] & Hops & Hf). injection Hf as <- <-.
    destruct (queue_op_sim cap (Z.of_nat (length ops)) q items op r items1) as (q1 & Hr & Hq1);
      [lia| |done|].
    { by replace (Z.of_nat (length ops) + 1) with (Z.of_nat (length (op :: ops))) by (simpl; lia). }
    destruct (IH q1 items1 rs1 items2 Hq1 Hops) as (q2 & Hrs & Hq2).
    exists q2. cbn [queue_ops_run]. rewrite Hr. cbn. rewrite Hrs. done.
Qed.
End refinement.

Example queue_refines_fifo_witness :
  let bld := debug_build in
  let ops := [op_push 8; op_push 16; op_push 24; op_is_full; op_pop 2; op_push 32; op_push 40;
              op_is_full; op_pop 5] in
  let rs := [resp_push; resp_push; resp_push; resp_full 1; resp_pop [8; 16]; resp_push; resp_push;
             resp_full 1; resp_pop [24; 32; 40]] in
  let q := threadscan_queue_init [0; 0; 0; 0] 4 in
  fifo_ops 4 ops [] = Some (rs, []) ∧
  ∃ q', queue_ops_run ops q = Ret (rs, q') ∧ queue_sim 4 0 q' [].
Proof.
  intros bld ops rs q. split; [reflexivity|]. apply queue_refines_fifo with (items := []); [|reflexivity].
  assert (is_pow2 4) as Hp by (exists 2; split; [lia|reflexivity]).
  split; [apply queue_init_wf; [exact Hp|reflexivity]|].
  split; [reflexivity|]. split; [reflexivity|]. split; [apply not_elem_of_nil|]. simpl. lia.
Defined.

(** ** The owner and the reclaimer at the same time

    [owner] is the pushing side of [threadscan_collect]: it pushes the values
    [vs 0], [vs 1], ... in order, after checking that there is room ([fuel]
    bounds its iterations).  [reclaimer] is the popping side of
    [generate_working_pointers_list]: each round asks for as many values as
    still fit its buffer. *)
Section spsc.
Context `{Build} (vs : Z → Z).

Fixpoint owner (fuel : nat) (k : Z) : prog queue_loc (Z * list Z) :=
  match fuel with
  | O => mret (k, [])
  | S fuel' =>
      r ← threadscan_queue_is_full;
      if r =? 0 then _ ← threadscan_queue_push (vs k); owner fuel' (k + 1)
      else owner fuel' k
  end.

Fixpoint reclaimer (rounds : nat) (vo : Z) (values : list Z) : prog queue_loc (Z * list Z) :=
  match rounds with
  | O => mret (vo, values)
  | S rounds' =>
      '(n, values) ← threadscan_queue_pop_bulk values vo (zlen values - vo);
      reclaimer rounds' (vo + n) values
  end.

Lemma owner_ok N fuel k q :
  queue_inv vs N q → idx_head q = k → k + Z.of_nat fuel ≤ N →
  rg (consumer_step vs N) (producer_step vs N) (owner fuel k)
    (λ r q', queue_inv vs N q' ∧ idx_head q' = r.1) q.
Proof.
  revert k q. induction fuel as [|fuel IH]; intros k q Hq Hk Hf; cbn [owner].
  - apply rg_ret. intros q' S. simpl. rewrite (cs_head _ _ _ _ S).
    split; [by apply (cs_inv _ _ _ _ S)|done].
  - apply rg_bind; [exact _|]. eapply rg_mono; [by apply threadscan_queue_is_full_ok|].
    intros r q1 [S1 Hr]. pose proof (cs_inv _ _ _ _ S1 Hq). pose proof (cs_head _ _ _ _ S1).
    destruct (Z.eqb_spec r 0) as [->|Hr0]; [|apply IH; [done|lia|lia]].
    apply rg_bind; [exact _|]. eapply rg_mono.
    + apply threadscan_queue_push_ok; [done|lia|lia|]. by f_equal; lia.
    + intros [] q2 (Hq2 & Hh2 & _). apply IH; [done|lia|lia].
Qed.

Lemma reclaimer_ok N rounds vo values0 q :
  queue_inv vs N q → idx_tail q - capacity q = vo → 0 ≤ vo ≤ zlen values0 →
  zlen values0 ≤ INT_MAX → (debug = true → ∀ j, 0 ≤ j < N → vs j ≠ 0) →
  rg (producer_step vs N) (consumer_step vs N)
    (reclaimer rounds vo (blit values0 0 (vs <$> seqZ 0 vo)))
    (λ r q', queue_inv vs N q' ∧ idx_tail q' - capacity q' = r.1 ∧
             r.2 = blit values0 0 (vs <$> seqZ 0 r.1)) q.
Proof.
  intros Hq Ht Hvo Hmax Hnz. revert vo q Hq Ht Hvo.
  induction rounds as [|rounds IH]; intros vo q Hq Ht Hvo; cbn [reclaimer].
  - apply rg_ret. intros q' S. simpl. rewrite (ps_tail _ _ _ _ S), (ps_cap _ _ _ _ S).
    split; [by apply (ps_inv _ _ _ _ S)|done].
  - pose proof (zlen_fmap_seqZ vs 0 vo ltac:(lia)) as Hz.
    apply rg_bind; [exact _|]. eapply rg_mono.
    + apply threadscan_queue_pop_bulk_ok; try done; rewrite ?zlen_blit; try lia.
    + intros [n v] q1 (h & Hh & Hn & Hv & Ht1 & Hc1 & Hq1). simpl in *.
      rewrite zlen_blit in Hn by lia. pose proof (qi_lo _ _ _ Hq).
      assert (v = blit values0 0 (vs <$> seqZ 0 (vo + n))) as ->.
      { rewrite Hv, Ht. rewrite seqZ_app, fmap_app by lia.
        rewrite <- blit_app by (rewrite ?zlen_fmap_seqZ; lia). by rewrite Hz. }
      apply IH; [done|lia|lia].
Qed.

Definition spsc_R (N : Z) (i : nat) : queue_t → queue_t → Prop :=
  match i with
  | 0%nat => consumer_step vs N
  | 1%nat => producer_step vs N
  | _ => λ _ _, True
  end.
Definition spsc_G (N : Z) (i : nat) : queue_t → queue_t → Prop :=
  match i with
  | 0%nat => producer_step vs N
  | 1%nat => consumer_step vs N
  | _ => λ _ _, False
  end.

(** What each thread has established when it is done. *)
Definition spsc_Q (N : Z) (values0 : list Z) (i : nat) (r : Z * list Z) (q : queue_t) : Prop :=
  queue_inv vs N q ∧
  match i with
  | 0%nat => idx_head q = r.1
  | _ => idx_tail q - capacity q = r.1 ∧ r.2 = blit values0 0 (vs <$> seqZ 0 r.1)
  end.

(** C19. The queue is linearizable for one reader and one writer: however
    the reads and writes of the pushing thread and of the popping thread
    interleave, neither fails an assertion nor leaves the buffer, and once
    both are done the values popped are the first ones pushed, each once and
    in order, while the values left in the queue are exactly the rest. *)
Theorem queue_spsc_linearizable cap buf fuel rounds values0 ps q :
  is_pow2 cap → zlen buf = cap → Z.of_nat fuel + cap < 2 ^ 64 → zlen values0 ≤ INT_MAX →
  (debug = true → ∀ j, 0 ≤ j < Z.of_nat fuel → vs j ≠ 0) →
  rtc pstep ([owner fuel 0; reclaimer rounds 0 values0], threadscan_queue_init buf cap) (ps, q) →
  (∀ i p, ps !! i = Some p → ¬ faulty p q) ∧
  (∀ pushed popped values,
    ps = [Stop (Ret (pushed, [])); Stop (Ret (popped, values))] →
    popped ≤ pushed ∧ values = blit values0 0 (vs <$> seqZ 0 popped) ∧
    contents q = vs <$> seqZ popped (pushed - popped)).
Proof.
  intros Hp Hlen Hw Hmax Hnz Hrun. set (N := Z.of_nat fuel) in *.
  set (q0 := threadscan_queue_init buf cap) in *.
  assert (queue_inv vs N q0) as Hq0.
  { pose proof (is_pow2_pos _ Hp). split; simpl; try done; lia. }
  assert (∀ i, Reflexive (spsc_R N i)) as HR by (intros [|[|i]]; simpl; try exact _; done).
  assert (∀ i, Transitive (spsc_R N i)) as HT by (intros [|[|i]]; simpl; try exact _; done).
  assert (∀ i j m m', i ≠ j → spsc_G N i m m' → spsc_R N j m m') as HGR
    by (intros [|[|i]] [|[|j]]; simpl; intros; done || lia).
  assert (pool_ok (spsc_R N) (spsc_G N) (spsc_Q N values0) (ps, q)) as Hok.
  { eapply pool_ok_rtc; [done|done|done|exact Hrun|]. intros [|[|i]] p; simpl; [..|done].
    - intros [= <-]. eapply rg_mono; [apply (owner_ok N fuel 0 q0); try done; lia|].
      intros r q' [? ?]. by split.
    - intros [= <-]. pose proof (zlen_nonneg values0).
      rewrite <- (blit_nil values0 0) at 1.
      eapply rg_mono; [apply (reclaimer_ok N rounds 0 values0 q0); simpl; try done; lia|].
      intros r q' (? & ? & ?). by split. }
  split; [intros i p Hi; apply (pool_ok_safe _ _ _ HR _ _ _ Hok Hi)|].
  intros pushed popped values ->.
  destruct (pool_ok_post _ _ _ HR _ 0 (pushed, []) Hok eq_refl) as [Hq Hh].
  destruct (pool_ok_post _ _ _ HR _ 1 (popped, values) Hok eq_refl) as [_ [Ht Hv]].
  simpl in *. pose proof (qi_lo _ _ _ Hq). split; [lia|]. split; [done|].
  rewrite (contents_inv _ _ _ Hq). f_equal. f_equal; lia.
Qed.
End spsc.

Example queue_spsc_linearizable_witness :
  let bld := release_build in
  let vs := λ j, 8 * (j + 1) in
  let c := psched (concat (replicate 100 [0; 1; 0]%nat))
    ([owner vs 9 0; reclaimer 5 0 [0; 0; 0; 0; 0]], threadscan_queue_init [0; 0; 0; 0] 4) in
  let pushed := match c.1 !! 0%nat with Some (Stop (Ret r)) => r.1 | _ => -1 end in
  let popped := match c.1 !! 1%nat with Some (Stop (Ret r)) => r.1 | _ => -1 end in
  let values := match c.1 !! 1%nat with Some (Stop (Ret r)) => r.2 | _ => [] end in
  (pushed, popped, values) = (4, 4, [8; 16; 24; 32; 0]) ∧
  popped ≤ pushed ∧ values = blit [0; 0; 0; 0; 0] 0 (vs <$> seqZ 0 popped) ∧
  contents c.2 = vs <$> seqZ popped (pushed - popped).
Proof.
  intros bld vs c pushed popped values. split; [vm_compute; reflexivity|].
  assert (c = ([Stop (Ret (pushed, [])); Stop (Ret (popped, values))], c.2)) as Hc
    by (vm_compute; reflexivity).
  refine (proj2 (queue_spsc_linearizable vs 4 [0; 0; 0; 0] 9 5 [0; 0; 0; 0; 0] c.1 c.2 _ _ _ _ _ _)
            pushed popped values _).
  - exists 2. split; [lia|reflexivity].
  - reflexivity.
  - simpl. lia.
  - vm_compute. discriminate.
  - discriminate.
  - rewrite <- surjective_pairing. apply psched_rtc.
  - by rewrite Hc.
Defined.
