(* ===== verification/Sort.v ===== *)
(** * util.c: in-place sorting and shuffling of address arrays

    [threadscan_util_sort] (a quicksort that falls back to insertion sort)
    and [threadscan_util_randomize], on a word buffer of which they reorder a
    prefix. *)

From S2P Require Import Prelude.

Definition swap (addrs : list Z) (n m : Z) : outcome (list Z) :=
  addr ← aget addrs n;
  x ← aget addrs m;
  addrs ← aset addrs n x;
  aset addrs m addr.

(** The result is [mid] and the reordered array. *)
Definition partition (addrs : list Z) (min max : Z) : outcome (Z * list Z) :=
  sum ← cint (max + min);
  let pivot := Z.quot sum 2 in
  pivot_val ← aget addrs pivot;
  addrs ← swap addrs pivot max;
  '(mid, addrs) ← for_range min max (λ i '(mid, addrs),
      x ← aget addrs i;
      if x <=? pivot_val then
        addrs ← swap addrs i mid;
        Ret (mid + 1, addrs)
      else Ret (mid, addrs)) (min, addrs);
  addrs ← swap addrs mid max;
  Ret (mid, addrs).

(** [for (j = i; j > 0 && addrs[j - 1] > addrs[j]; --j) swap(addrs, j, j - 1);] *)
Fixpoint insert_down (j : nat) (addrs : list Z) : outcome (list Z) :=
  match j with
  | O => Ret addrs
  | S j' =>
      x ← aget addrs (Z.of_nat j - 1);
      y ← aget addrs (Z.of_nat j);
      if x >? y then
        addrs ← swap addrs (Z.of_nat j) (Z.of_nat j - 1);
        insert_down j' addrs
      else Ret addrs
  end.

Definition insertion_sort (addrs : list Z) (min max : Z) : outcome (list Z) :=
  for_range (min + 1) (max + 1) (λ i addrs, insert_down (Z.to_nat i) addrs) addrs.

Definition SORT_THRESHOLD : Z := 16.

Fixpoint quicksort (fuel : nat) (addrs : list Z) (min max : Z) : outcome (list Z) :=
  match fuel with
  | O => OutOfFuel
  | S fuel =>
      d ← cint (max - min);
      if d >? SORT_THRESHOLD then
        '(mid, addrs) ← partition addrs min max;
        addrs ← quicksort fuel addrs min (mid - 1);
        quicksort fuel addrs (mid + 1) max
      else insertion_sort addrs min max
  end.

(** The recursion depth is at most the length of the array. *)
Definition threadscan_util_sort (a : list Z) (length : Z) : outcome (list Z) :=
  last ← cint (length - 1);
  quicksort (S (Z.to_nat length)) a 0 last.

Definition threadscan_util_randomize (addrs : list Z) (n : Z) : outcome (list Z) :=
  for_range 0 (u32 n) (λ i addrs,
    let tmp := u32 (i * 2147483647) `mod` (u32 n) in
    if negb (i =? tmp) then swap addrs (int_of_u64 i) (int_of_u64 tmp) else Ret addrs) addrs.

(** ** Exchanging two elements *)

Definition zswap (a : list Z) (n m : Z) : list Z := zupd (zupd a n (znth a m)) m (znth a n).

Lemma swap_in a n m : 0 ≤ n < zlen a → 0 ≤ m < zlen a → swap a n m = Ret (zswap a n m).
Proof.
  intros Hn Hm. unfold swap. rewrite !aget_in by done. simpl.
  rewrite aset_in by done. simpl. by rewrite aset_in by (by rewrite zlen_zupd).
Qed.

Lemma wp_swap a n m Q : 0 ≤ n < zlen a → 0 ≤ m < zlen a → Q (zswap a n m) → wp (swap a n m) Q.
Proof. intros Hn Hm HQ. by rewrite swap_in. Qed.

Lemma zlen_zswap a n m : zlen (zswap a n m) = zlen a.
Proof. unfold zswap. by rewrite !zlen_zupd. Qed.

Lemma znth_zswap a n m i :
  0 ≤ n < zlen a → 0 ≤ m < zlen a → 0 ≤ i →
  znth (zswap a n m) i =
    if decide (i = m) then znth a n else if decide (i = n) then znth a m else znth a i.
Proof.
  intros Hn Hm Hi. unfold zswap. rewrite znth_zupd by (by rewrite ?zlen_zupd).
  rewrite znth_zupd by done. repeat case_decide; congruence.
Qed.

Lemma zswap_perm a n m : 0 ≤ n < zlen a → 0 ≤ m < zlen a → zswap a n m ≡ₚ a.
Proof.
  intros Hn Hm. apply Permutation_inj. split.
  { pose proof (zlen_zswap a n m). unfold zlen in *. lia. }
  exists (λ i, if decide (i = Z.to_nat m) then Z.to_nat n
               else if decide (i = Z.to_nat n) then Z.to_nat m else i).
  split.
  - intros i j. repeat case_decide; lia.
  - intros i. unfold zswap, zupd. pose proof (znth_lookup a n Hn) as Ln.
    pose proof (znth_lookup a m Hm) as Lm. unfold zlen in *.
    repeat case_decide; subst; rewrite ?list_lookup_insert_eq; rewrite ?length_insert; try lia; try done.
    + rewrite list_lookup_insert_ne by done. by rewrite list_lookup_insert_eq by lia.
    + by rewrite !list_lookup_insert_ne by done.
Qed.

(** ** Reordering a range of an array *)

Definition sorted_range (a : list Z) (lo hi : Z) : Prop :=
  ∀ i j, lo ≤ i → i ≤ j → j ≤ hi → znth a i ≤ znth a j.

(** [b] is [a] with the elements from [lo] to [hi] reordered. *)
Record range_perm (a b : list Z) (lo hi : Z) : Prop := {
  rp_perm : a ≡ₚ b;
  rp_out : ∀ i, 0 ≤ i → i < lo ∨ hi < i → znth b i = znth a i;
}.

Lemma rp_len a b lo hi : range_perm a b lo hi → zlen b = zlen a.
Proof. intros [Hp _]. unfold zlen. by rewrite (Permutation_length Hp). Qed.

Lemma range_perm_refl a lo hi : range_perm a a lo hi.
Proof. by split. Qed.

Lemma range_perm_trans a b c lo hi :
  range_perm a b lo hi → range_perm b c lo hi → range_perm a c lo hi.
Proof.
  intros [H1 H2] [H3 H4]. split; [by etrans|]. intros i Hi Ho. rewrite H4, H2; done.
Qed.

Lemma range_perm_widen a b lo hi lo' hi' :
  lo' ≤ lo → hi ≤ hi' → range_perm a b lo hi → range_perm a b lo' hi'.
Proof. intros Hl Hh [H1 H2]. split; [done|]. intros i Hi Ho. apply H2; [done|lia]. Qed.

Lemma range_perm_zswap a n m lo hi :
  0 ≤ lo → lo ≤ n ≤ hi → lo ≤ m ≤ hi → hi < zlen a → range_perm a (zswap a n m) lo hi.
Proof.
  intros Hlo Hn Hm Hhi. split; [symmetry; apply zswap_perm; lia|].
  intros i Hi Ho. rewrite znth_zswap by lia. repeat case_decide; lia.
Qed.

Lemma split3 (a : list Z) lo n :
  0 ≤ lo → 0 ≤ n → lo + n ≤ zlen a →
  a = slice a 0 lo ++ slice a lo n ++ slice a (lo + n) (zlen a - lo - n).
Proof.
  intros. rewrite <- (slice_all a) at 1.
  replace (zlen a) with (lo + (n + (zlen a - lo - n))) at 1 by lia.
  rewrite !slice_split by lia. done.
Qed.

Lemma slice_ext a b lo n :
  0 ≤ lo → 0 ≤ n → lo + n ≤ zlen a → lo + n ≤ zlen b →
  (∀ i, lo ≤ i < lo + n → znth a i = znth b i) → slice a lo n = slice b lo n.
Proof.
  intros Hlo Hn Ha Hb Hi. apply znth_ext; rewrite !zlen_slice by lia; [done|].
  intros i Hr. rewrite !znth_slice by lia. apply Hi. lia.
Qed.

(** The range itself is permuted. *)
Lemma range_perm_slice a b lo hi :
  range_perm a b lo hi → 0 ≤ lo → lo ≤ hi + 1 → hi < zlen a →
  slice a lo (hi + 1 - lo) ≡ₚ slice b lo (hi + 1 - lo).
Proof.
  intros Hp Hlo Hlh Hhi. pose proof (rp_len _ _ _ _ Hp) as Hl.
  pose proof (rp_perm _ _ _ _ Hp) as Hperm.
  rewrite (split3 a lo (hi + 1 - lo)), (split3 b lo (hi + 1 - lo)) in Hperm by lia.
  rewrite (slice_ext b a 0 lo) in Hperm; [| lia|lia|lia|lia|].
  2: { intros i Hi. apply (rp_out _ _ _ _ Hp); lia. }
  rewrite (slice_ext b a (lo + (hi + 1 - lo)) (zlen b - lo - (hi + 1 - lo))) in Hperm;
    [|lia|lia|lia|lia|].
  2: { intros i Hi. apply (rp_out _ _ _ _ Hp); lia. }
  rewrite Hl in Hperm.
  by apply Permutation_app_inv_l, Permutation_app_inv_r in Hperm.
Qed.

(** What holds of every element of the range still does. *)
Lemma range_perm_forall (P : Z → Prop) a b lo hi :
  range_perm a b lo hi → 0 ≤ lo → hi < zlen a →
  (∀ i, lo ≤ i ≤ hi → P (znth a i)) → ∀ i, lo ≤ i ≤ hi → P (znth b i).
Proof.
  intros Hp Hlo Hhi HP i Hi. pose proof (rp_len _ _ _ _ Hp) as Hl.
  assert (znth b i ∈ slice a lo (hi + 1 - lo)) as Hin.
  { rewrite (range_perm_slice a b lo hi) by (done || lia).
    apply elem_of_znth. exists (i - lo). rewrite zlen_slice, znth_slice by lia.
    split; [lia|f_equal; lia]. }
  apply elem_of_znth in Hin as (k & Hk & Heq). rewrite zlen_slice in Hk by lia.
  rewrite znth_slice in Heq by lia. rewrite <- Heq. apply HP. lia.
Qed.

(** ** insertion_sort *)

(** The state of the inner loop: the range up to [i] is sorted, except that
    the element at [j] may still be too small for its place. *)
Definition sorted_but (b : list Z) (lo i j : Z) : Prop :=
  ∀ k l, lo ≤ k → k ≤ l → l ≤ i → l ≠ j → znth b k ≤ znth b l.

Lemma insert_down_ok (j : nat) b lo i :
  0 ≤ lo → lo ≤ Z.of_nat j ≤ i → i < zlen b → sorted_but b lo i (Z.of_nat j) →
  (0 < lo → ∀ k, lo ≤ k ≤ i → znth b (lo - 1) ≤ znth b k) →
  wp (insert_down j b) (λ c, range_perm b c lo i ∧ sorted_range c lo i).
Proof.
  revert b. induction j as [|j IH]; intros b Hlo Hj Hi Hs Hb; cbn [insert_down].
  - apply wp_ret. split; [apply range_perm_refl|].
    intros k l Hk Hkl Hl. destruct (decide (l = 0)); [|by apply Hs].
    by replace l with k by lia.
  - set (J := Z.of_nat (S j)) in *. assert (J - 1 = Z.of_nat j) as HJ by lia.
    apply wp_bind, wp_aget; [lia|]. apply wp_bind, wp_aget; [lia|].
    rewrite Z.gtb_ltb. destruct (Z.ltb_spec (znth b J) (znth b (J - 1))) as [Hgt|Hle].
    + assert (lo ≤ J - 1) as HloJ.
      { destruct (Z_lt_le_dec (J - 1) lo); [|done]. specialize (Hb ltac:(lia) J).
        replace (lo - 1) with (J - 1) in Hb by lia. lia. }
      apply wp_bind, wp_swap; [lia|lia|].
      pose proof (range_perm_zswap b J (J - 1) lo i ltac:(lia) ltac:(lia) ltac:(lia) ltac:(lia)) as Hp.
      rewrite HJ. eapply wp_mono; [apply IH; rewrite ?zlen_zswap; rewrite <- ?HJ; try lia|].
      * intros k l Hk Hkl Hl Hne. rewrite !znth_zswap by lia.
        repeat case_decide; subst; try lia; try (apply Hs; lia).
      * intros Hlo0. rewrite (rp_out _ _ _ _ Hp) by lia. intros k Hk.
        apply (range_perm_forall (λ x, znth b (lo - 1) ≤ x) b _ lo i Hp); try lia. by apply Hb.
      * intros c [Hc1 Hc2]. split; [|done]. rewrite <- HJ in Hc1. by eapply range_perm_trans.
    + apply wp_ret. split; [apply range_perm_refl|].
      intros k l Hk Hkl Hl. destruct (decide (l = J)) as [->|]; [|by apply Hs].
      destruct (decide (k = J)) as [->|]; [done|].
      transitivity (znth b (J - 1)); [apply Hs; lia|done].
Qed.

Lemma insertion_sort_ok a min max :
  0 ≤ min → max < zlen a →
  (0 < min → ∀ i, min ≤ i ≤ max → znth a (min - 1) ≤ znth a i) →
  wp (insertion_sort a min max) (λ b, range_perm a b min max ∧ sorted_range b min max).
Proof.
  intros Hmin Hmax Hb. unfold insertion_sort.
  apply wp_for_range with (I := λ i b, range_perm a b min (Z.min max (i - 1)) ∧ sorted_range b min (i - 1)).
  - split; [apply range_perm_refl|]. intros i j Hi Hij Hj. by replace j with i by lia.
  - intros i b Hi [Hp Hs]. pose proof (rp_len _ _ _ _ Hp) as Hl.
    eapply wp_mono; [apply (insert_down_ok _ b min i); try lia|].
    + intros k l Hk Hkl Hli Hne. apply Hs; lia.
    + intros H0 k Hk. rewrite (rp_out _ _ _ _ Hp (min - 1)) by lia.
      apply range_perm_widen with (lo' := min) (hi' := max) in Hp; [|lia|lia].
      apply (range_perm_forall (λ x, znth a (min - 1) ≤ x) a b min max Hp); try lia. by apply Hb.
    + intros c [Hp' Hs']. replace (i + 1 - 1) with i by lia. split; [|done].
      eapply range_perm_trans; [|eapply range_perm_widen; [..|exact Hp']]; [|lia|lia].
      eapply range_perm_widen; [..|exact Hp]; lia.
  - intros b [Hp Hs]. split; [eapply range_perm_widen; [..|exact Hp]; lia|].
    intros i j Hi Hij Hj. apply Hs; lia.
Qed.

(** ** partition and quicksort *)

Lemma partition_ok a min max :
  0 ≤ min ≤ max → max < zlen a → zlen a ≤ 2 ^ 30 →
  wp (partition a min max) (λ r,
    min ≤ r.1 ≤ max ∧ range_perm a r.2 min max ∧
    (∀ i, min ≤ i ≤ r.1 → znth r.2 i ≤ znth r.2 r.1) ∧
    (∀ i, r.1 < i ≤ max → znth r.2 r.1 < znth r.2 i)).
Proof.
  intros Hmin Hmax Hlen. unfold partition. apply wp_bind, wp_cint; [unfold INT_MIN, INT_MAX; lia|].
  rewrite Z.quot_div_nonneg by lia. set (pivot := (max + min) / 2). cbv zeta.
  assert (min ≤ pivot ≤ max) as Hp by (unfold pivot; Z.div_mod_to_equations; lia).
  apply wp_bind, wp_aget; [lia|]. set (pv := znth a pivot).
  apply wp_bind, wp_swap; [lia|lia|]. set (a0 := zswap a pivot max).
  assert (range_perm a a0 min max) as Hp0 by (apply range_perm_zswap; lia).
  assert (znth a0 max = pv) as Hpv.
  { unfold a0. rewrite znth_zswap by lia. by rewrite decide_True. }
  pose proof (rp_len _ _ _ _ Hp0) as Hl0.
  apply wp_bind. apply wp_for_range with (I := λ i r,
    min ≤ r.1 ≤ i ∧ range_perm a r.2 min max ∧ znth r.2 max = pv ∧
    (∀ k, min ≤ k < r.1 → znth r.2 k ≤ pv) ∧ (∀ k, r.1 ≤ k < i → pv < znth r.2 k)).
  - simpl. repeat split; try lia; try done; apply Hp0.
  - intros i [mid b] Hi (Hm & Hpb & Hbp & Hle & Hgt). simpl in *.
    pose proof (rp_len _ _ _ _ Hpb) as Hlb.
    apply wp_bind, wp_aget; [lia|]. destruct (Z.leb_spec (znth b i) pv) as [Hx|Hx].
    + apply wp_bind, wp_swap; [lia|lia|]. apply wp_ret. simpl.
      split; [lia|]. split; [|split; [|split]].
      * eapply range_perm_trans; [exact Hpb|]. apply range_perm_zswap; lia.
      * rewrite znth_zswap by lia. repeat case_decide; try lia; done.
      * intros k Hk. rewrite znth_zswap by lia. repeat case_decide; try lia. apply Hle. lia.
      * intros k Hk. rewrite znth_zswap by lia. repeat case_decide; subst; try lia; apply Hgt; lia.
    + apply wp_ret. simpl. split; [lia|]. split; [done|]. split; [done|]. split; [done|].
      intros k Hk. destruct (decide (k = i)) as [->|]; [done|]. apply Hgt. lia.
  - intros [mid b] (Hm & Hpb & Hbp & Hle & Hgt). simpl in *. rewrite Z.max_r in * by lia.
    pose proof (rp_len _ _ _ _ Hpb) as Hlb.
    apply wp_bind, wp_swap; [lia|lia|]. apply wp_ret. simpl.
    assert (znth (zswap b mid max) mid = pv) as Hmid.
    { rewrite znth_zswap by lia. repeat case_decide; subst; try lia; congruence. }
    split; [done|]. split; [|rewrite Hmid; split].
    + eapply range_perm_trans; [exact Hpb|]. apply range_perm_zswap; lia.
    + intros k Hk. destruct (decide (k = mid)) as [->|]; [lia|].
      rewrite znth_zswap by lia. repeat case_decide; subst; try lia. apply Hle. lia.
    + intros k Hk. rewrite znth_zswap by lia. repeat case_decide; subst; try lia; apply Hgt; lia.
Qed.

Lemma sorted_range_join b c d lo mid hi :
  0 ≤ lo ≤ mid → mid ≤ hi → hi < zlen b →
  (∀ i, lo ≤ i ≤ mid → znth b i ≤ znth b mid) → (∀ i, mid < i ≤ hi → znth b mid < znth b i) →
  range_perm b c lo (mid - 1) → sorted_range c lo (mid - 1) →
  range_perm c d (mid + 1) hi → sorted_range d (mid + 1) hi → sorted_range d lo hi.
Proof.
  intros Hlo Hhi Hlen Hle Hgt Hbc Hc Hcd Hd.
  pose proof (rp_len _ _ _ _ Hbc) as Hlc.
  assert (∀ i, lo ≤ i < mid → znth d i = znth c i ∧ znth d i ≤ znth d mid) as Hleft.
  { intros i Hi. rewrite (rp_out _ _ _ _ Hcd i), (rp_out _ _ _ _ Hcd mid) by lia.
    rewrite (rp_out _ _ _ _ Hbc mid) by lia. split; [done|].
    apply (range_perm_forall (λ x, x ≤ znth b mid) b c lo (mid - 1) Hbc); [lia|lia| |lia].
    intros k Hk. apply Hle. lia. }
  assert (∀ i, mid < i ≤ hi → znth d mid ≤ znth d i) as Hright.
  { intros i Hi. rewrite (rp_out _ _ _ _ Hcd mid) by lia.
    apply (range_perm_forall (λ x, znth c mid ≤ x) c d (mid + 1) hi Hcd); [lia|lia| |lia].
    intros k Hk. rewrite !(rp_out _ _ _ _ Hbc) by lia. apply Z.lt_le_incl, Hgt. lia. }
  intros i j Hi Hij Hj.
  destruct (Z_lt_le_dec mid i); [apply Hd; lia|].
  destruct (Z_lt_le_dec j mid).
  - rewrite (proj1 (Hleft i ltac:(lia))), (proj1 (Hleft j ltac:(lia))). apply Hc; lia.
  - transitivity (znth d mid).
    + destruct (decide (i = mid)) as [->|]; [done|]. apply Hleft. lia.
    + destruct (decide (j = mid)) as [->|]; [done|]. apply Hright. lia.
Qed.

Lemma quicksort_ok fuel a min max :
  max - min < Z.of_nat fuel → 0 < Z.of_nat fuel → 0 ≤ min → min ≤ max + 1 → max < zlen a →
  zlen a ≤ 2 ^ 30 →
  (0 < min → ∀ i, min ≤ i ≤ max → znth a (min - 1) ≤ znth a i) →
  wp (quicksort fuel a min max) (λ b, range_perm a b min max ∧ sorted_range b min max).
Proof.
  revert a min max. induction fuel as [|fuel IH]; intros a min max Hf H0 Hmin Hmm Hmax Hlen Hb; [lia|].
  cbn [quicksort]. apply wp_bind, wp_cint; [unfold INT_MIN, INT_MAX; lia|].
  unfold SORT_THRESHOLD. rewrite Z.gtb_ltb. destruct (Z.ltb_spec 16 (max - min)).
  2: { by apply insertion_sort_ok. }
  apply wp_bind. eapply wp_mono; [apply partition_ok; lia|].
  intros [mid b] (Hm & Hab & Hle & Hgt). simpl in *. pose proof (rp_len _ _ _ _ Hab) as Hlb.
  apply wp_bind. eapply wp_mono; [apply (IH b min (mid - 1)); try lia|].
  { intros Hm0 i Hi. rewrite (rp_out _ _ _ _ Hab) by lia.
    apply (range_perm_forall (λ x, znth a (min - 1) ≤ x) a b min max Hab); try lia. by apply Hb. }
  intros c [Hbc Hsc]. pose proof (rp_len _ _ _ _ Hbc) as Hlc.
  eapply wp_mono; [apply (IH c (mid + 1) max); try lia|].
  { intros _ i Hi. rewrite !(rp_out _ _ _ _ Hbc) by lia. replace (mid + 1 - 1) with mid by lia.
    apply Z.lt_le_incl, Hgt. lia. }
  intros d [Hcd Hsd]. split.
  - eapply range_perm_trans; [exact Hab|]. eapply range_perm_trans.
    + eapply range_perm_widen; [| |exact Hbc]; lia.
    + eapply range_perm_widen; [| |exact Hcd]; lia.
  - apply (sorted_range_join b c d min mid max); try done; lia.
Qed.

(** A reordered prefix, as lists. *)
Lemma range_perm_prefix a b n :
  range_perm a b 0 (n - 1) → 0 ≤ n ≤ zlen a →
  take (Z.to_nat n) b ≡ₚ take (Z.to_nat n) a ∧ drop (Z.to_nat n) b = drop (Z.to_nat n) a.
Proof.
  intros Hp Hn. pose proof (rp_len _ _ _ _ Hp) as Hl. split.
  - pose proof (range_perm_slice a b 0 (n - 1) Hp) as Hs.
    replace (n - 1 + 1 - 0) with n in Hs by lia. unfold slice in Hs. symmetry. apply Hs; lia.
  - apply znth_ext; rewrite !zlen_drop; [lia|]. intros i Hi. rewrite !znth_drop by lia.
    apply (rp_out _ _ _ _ Hp); lia.
Qed.

Lemma sorted_range_Sorted a n :
  0 ≤ n ≤ zlen a → sorted_range a 0 (n - 1) → Sorted Z.le (take (Z.to_nat n) a).
Proof.
  intros Hn Hs. apply StronglySorted_Sorted, znth_StronglySorted. intros i j Hi Hij Hj.
  rewrite zlen_take in Hj. rewrite !znth_take by lia. apply Hs; lia.
Qed.

(** The specification of both routines used by their callers. *)
Lemma util_sort_ok a n :
  0 ≤ n ≤ zlen a → zlen a ≤ 2 ^ 30 →
  wp (threadscan_util_sort a n) (λ b, range_perm a b 0 (n - 1) ∧ sorted_range b 0 (n - 1)).
Proof.
  intros Hn Hlen. unfold threadscan_util_sort.
  apply wp_bind, wp_cint; [unfold INT_MIN, INT_MAX; lia|].
  apply quicksort_ok; lia.
Qed.

Lemma util_randomize_ok a n :
  0 ≤ n ≤ zlen a → n ≤ INT_MAX →
  wp (threadscan_util_randomize a n) (λ b, range_perm a b 0 (n - 1)).
Proof.
  unfold INT_MAX. intros Hn Hmax. unfold threadscan_util_randomize, u32.
  rewrite (Z.mod_small n) by lia.
  apply wp_for_range with (I := λ _ b, range_perm a b 0 (n - 1)).
  - apply range_perm_refl.
  - intros i b Hi Hp. pose proof (rp_len _ _ _ _ Hp) as Hl. cbv zeta.
    set (t := ((i * 2147483647) `mod` 2 ^ 32) `mod` n).
    assert (0 ≤ t < n) as Ht by (apply Z.mod_pos_bound; lia).
    rewrite !int_of_u64_small by (unfold INT_MAX; lia).
    destruct (Z.eqb_spec i t); [done|]. simpl. apply wp_swap; [lia|lia|].
    eapply range_perm_trans; [exact Hp|]. apply range_perm_zswap; lia.
  - done.
Qed.

(** C22. [threadscan_util_sort] is a sort: on any array and any length within
    it, it returns (no access out of range, no overflow, no divergence) the
    sorted permutation of the first [n] words, the one a merge sort
    computes, and leaves the words after them alone. *)
Theorem util_sort_is_sort a n :
  0 ≤ n ≤ zlen a → zlen a ≤ 2 ^ 30 →
  threadscan_util_sort a n =
    Ret (merge_sort Z.le (take (Z.to_nat n) a) ++ drop (Z.to_nat n) a).
Proof.
  intros Hn Hlen. pose proof (util_sort_ok a n Hn Hlen) as (b & -> & Hp & Hs)%wp_iff.
  pose proof (rp_len _ _ _ _ Hp) as Hl.
  destruct (range_perm_prefix _ _ _ Hp Hn) as [Hp1 Hp2].
  rewrite <- (take_drop (Z.to_nat n) b), Hp2. do 2 f_equal.
  apply (Sorted_unique Z.le).
  - apply sorted_range_Sorted; [lia|done].
  - apply (Sorted_merge_sort Z.le).
  - by rewrite merge_sort_Permutation.
Qed.

Example util_sort_is_sort_witness :
  let a := (λ i, (i * 7919) `mod` 101) <$> seqZ 0 40 in
  0 ≤ 35 ≤ zlen a ∧ zlen a ≤ 2 ^ 30 ∧
  threadscan_util_sort a 35 = Ret (merge_sort Z.le (take 35 a) ++ drop 35 a).
Proof.
  split; [vm_compute; split; discriminate|]. split; [vm_compute; discriminate|].
  apply util_sort_is_sort; vm_compute; [split|]; discriminate.
Defined.

(** C23. [threadscan_util_randomize] permutes the first [n] words and touches
    nothing else, although the product [i * 2147483647] wraps around in an
    [unsigned int]. *)
Theorem util_randomize_permutes a n :
  0 ≤ n ≤ zlen a → n ≤ INT_MAX →
  ∃ b, threadscan_util_randomize a n = Ret b ∧
    take (Z.to_nat n) b ≡ₚ take (Z.to_nat n) a ∧ drop (Z.to_nat n) b = drop (Z.to_nat n) a.
Proof.
  intros Hn Hmax. pose proof (util_randomize_ok a n Hn Hmax) as (b & -> & Hp)%wp_iff.
  exists b. split; [done|]. by apply range_perm_prefix.
Qed.

Example util_randomize_permutes_witness :
  0 ≤ 5 ≤ zlen [8; 16; 24; 32; 40; 48] ∧
  threadscan_util_randomize [8; 16; 24; 32; 40; 48] 5 = Ret [32; 24; 16; 8; 40; 48] ∧
  ∃ b, threadscan_util_randomize [8; 16; 24; 32; 40; 48] 5 = Ret b ∧
    take 5 b ≡ₚ [8; 16; 24; 32; 40] ∧ drop 5 b = [48].
Proof.
  split; [vm_compute; split; discriminate|]. split; [vm_compute; reflexivity|].
  apply (util_randomize_permutes [8; 16; 24; 32; 40; 48] 5); vm_compute; [split|]; discriminate.
Defined.
