(* ===== verification/Mem.v ===== *)
(** * The process memory

    One flat memory: a cell per scalar, at its byte address.  Reading or
    writing an address that is not mapped is undefined.  The C structures the
    threads share (the address buffer, the scan map, the thread metadata, the
    flags and time stamps) live in it, so pointers and aliasing are those of
    the program. *)

From S2P Require Import Prelude Conc Ghost.

Abbreviation mem := (gmap Z Z).

#[export] Instance mem_shared : Shared mem Z := {|
  sread m a := of_option (m !! a);
  swrite m a v := match m !! a with Some _ => Ret (<[a := v]> m) | None => UB end;
|}.

(** ** util.h *)
Definition PAGESIZE : Z := 0x1000.
Definition sizeof_size_t : Z := 8.

Record mem_range_t := { low : Z; high : Z }.

(** Nothing is unmapped. *)
Definition still_mapped (m m' : mem) : Prop := ∀ a, is_Some (m !! a) → is_Some (m' !! a).

(** The address of [a[i]], for [size_t *a]. *)
Definition elt (a i : Z) : Z := a + sizeof_size_t * i.

Lemma elt_inj a i j : elt a i = elt a j → i = j.
Proof. unfold elt, sizeof_size_t. lia. Qed.

(** ** Reading the memory *)
Lemma rg_bind_read {A} (R G : mem → mem → Prop) a (k : Z → prog Z A) Q m :
  (∀ m', R m m' → ∃ v, m' !! a = Some v ∧ rg R G (k v) Q m') → rg R G (rd a ≫= k) Q m.
Proof.
  intros H. apply rg_bind_rd. intros m' HR. destruct (H m' HR) as (v & Hv & Hk).
  simpl sread. rewrite Hv. exact Hk.
Qed.

Lemma run_rd (a : Z) (m : mem) v : m !! a = Some v → run (rd a) m = Ret (v, m).
Proof. intros H. simpl. by rewrite H. Qed.

Lemma run_bind {A B} (p : prog Z A) (f : A → prog Z B) (m : mem) :
  run (p ≫= f) m = '(a, m') ← run p m; run (f a) m'.
Proof.
  unfold mbind at 1, prog_mbind. revert m.
  induction p as [o|l k IH|l v k IH|l h k IH|l c k IH]; intros m; simpl.
  - by destruct o.
  - destruct (of_option (m !! l)); simpl; auto.
  - destruct (m !! l); simpl; auto.
  - destruct (m !! l); simpl; [|done]. destruct (h z); simpl; auto.
  - destruct (of_option (m !! l)); simpl; auto. destruct (c a); auto.
Qed.

Lemma run_bind_rd {A} (a : Z) (k : Z → prog Z A) (m : mem) v :
  m !! a = Some v → run (rd a ≫= k) m = run (k v) m.
Proof. intros H. simpl. by rewrite H. Qed.

Lemma run_bind_rd_unmapped {A} (a : Z) (k : Z → prog Z A) (m : mem) :
  m !! a = None → run (rd a ≫= k) m = UB.
Proof. intros H. simpl. by rewrite H. Qed.

Lemma run_bind_wr {A} (a v : Z) (k : unit → prog Z A) (m : mem) :
  is_Some (m !! a) → run (wr a v ≫= k) m = run (k tt) (<[a := v]> m).
Proof. intros [x H]. simpl. by rewrite H. Qed.

Lemma run_bind_lift {A B} (o : outcome A) (k : A → prog Z B) (m : mem) a :
  o = Ret a → run (lift o ≫= k) m = run (k a) m.
Proof. by intros ->. Qed.

(** No program unmaps memory. *)
Lemma run_mapped {A} (p : prog Z A) (m m' : mem) r a :
  run p m = Ret (r, m') → is_Some (m !! a) → is_Some (m' !! a).
Proof.
  revert m. induction p as [o|l k IH|l v k IH|l h k IH|l c k IH]; intros m; simpl.
  - destruct o; simpl; try done. by intros [= -> ->].
  - destruct (of_option (m !! l)); simpl; try done. eauto.
  - destruct (m !! l); simpl; try done. intros Hr Ha. apply (IH _ Hr).
    by apply lookup_insert_is_Some'; right.
  - destruct (m !! l); simpl; try done. destruct (h z); simpl; try done. intros Hr Ha.
    apply (IH _ _ Hr). by apply lookup_insert_is_Some'; right.
  - destruct (of_option (m !! l)); simpl; try done. destruct (c a0); try done. eauto.
Qed.

Lemma wp_run_mapped {A} (p : prog Z A) (m : mem) Q :
  wp (run p m) Q → wp (run p m) (λ r, Q r ∧ ∀ a, is_Some (m !! a) → is_Some (r.2 !! a)).
Proof.
  destruct (run p m) as [[r m']| | | |] eqn:E; simpl; try done. intros HQ. split; [done|].
  intros a. by eapply run_mapped.
Qed.

(** All writes of a program go to words of [S]. *)
Fixpoint writes_in {A} (S : Z → Prop) (p : prog Z A) : Prop :=
  match p with
  | Stop _ => True
  | Rd _ k => ∀ v, writes_in S (k v)
  | Wr l _ k => S l ∧ writes_in S k
  | Rmw l _ k => S l ∧ ∀ v, writes_in S (k v)
  | Await _ _ k => ∀ v, writes_in S (k v)
  end.

Lemma writes_in_bind {A B} S (p : prog Z A) (f : A → prog Z B) :
  writes_in S p → (∀ a, writes_in S (f a)) → writes_in S (p ≫= f).
Proof.
  unfold mbind, prog_mbind. intros Hp Hf.
  induction p as [o|l k IH|l v k IH|l h k IH|l c k IH]; simpl in *; [by destruct o|..]; intuition.
Qed.

Lemma writes_in_run {A} S (p : prog Z A) (m m' : mem) r a :
  writes_in S p → run p m = Ret (r, m') → ¬ S a → m' !! a = m !! a.
Proof.
  revert m. induction p as [o|l k IH|l v k IH|l h k IH|l c k IH]; intros m; simpl.
  - destruct o; simpl; try done. by intros _ [= -> ->].
  - destruct (of_option (m !! l)); simpl; try done. eauto.
  - destruct (m !! l); simpl; try done. intros [Hl Hk] Hr Ha. rewrite (IH _ Hk Hr Ha).
    apply lookup_insert_ne. by intros ->.
  - destruct (m !! l); simpl; try done. destruct (h z); simpl; try done. intros [Hl Hk] Hr Ha.
    rewrite (IH _ _ (Hk _) Hr Ha). apply lookup_insert_ne. by intros ->.
  - destruct (of_option (m !! l)); simpl; try done. destruct (c a0); try done. eauto.
Qed.

Lemma c_assert_true `{Build} b : b = true → c_assert b = Ret tt.
Proof. intros ->. unfold c_assert. by destruct debug. Qed.

Lemma run_bind_lock {A} (l : Z) (k : unit → prog Z A) (m : mem) :
  m !! l = Some 0 → run (pthread_mutex_lock l ≫= k) m = run (k tt) (<[l := 1]> m).
Proof. intros H. simpl. by rewrite H. Qed.

Lemma run_bind_rmw {A} (l : Z) f (k : Z → prog Z A) (m : mem) v w :
  m !! l = Some v → f v = Some w → run (rmw l f ≫= k) m = run (k v) (<[l := w]> m).
Proof. intros H Hf. simpl. rewrite H. simpl. by rewrite Hf. Qed.

Lemma run_wr (a v : Z) (m : mem) : is_Some (m !! a) → run (wr a v) m = Ret (tt, <[a := v]> m).
Proof. intros [x H]. simpl. by rewrite H. Qed.

Lemma run_unlock (l : Z) (m : mem) :
  is_Some (m !! l) → run (pthread_mutex_unlock l) m = Ret (tt, <[l := 0]> m).
Proof. apply run_wr. Qed.

Lemma run_bind_ret {A B} (a : A) (k : A → prog Z B) (m : mem) : run (mret a ≫= k) m = run (k a) m.
Proof. done. Qed.

(** The word at a mapped address. *)
Definition word (m : mem) (a : Z) : Z := default 0 (m !! a).

(** ** Arrays in memory *)

Definition block_cells (base : Z) (b : list Z) : list (Z * Z) :=
  imap (λ i w, (elt base (Z.of_nat i), w)) b.

(** [m] with the array [b] at [base]. *)
Definition store_block (base : Z) (b : list Z) (m : mem) : mem := list_to_map (block_cells base b) ∪ m.

(** The [n] words at [base]. *)
Definition load_block (base n : Z) (m : mem) : list Z := (λ i, word m (elt base i)) <$> seqZ 0 n.

Lemma zlen_load_block base n m : 0 ≤ n → zlen (load_block base n m) = n.
Proof. intros. unfold zlen, load_block. rewrite length_fmap, length_seqZ. lia. Qed.

Lemma znth_load_block base n m i : 0 ≤ i < n → znth (load_block base n m) i = word m (elt base i).
Proof.
  intros Hi. unfold znth, load_block. apply nth_lookup_Some. rewrite list_lookup_fmap, lookup_seqZ_lt by lia.
  cbn. by rewrite Z2Nat.id by lia.
Qed.

Lemma store_block_keys base b :
  NoDup (block_cells base b).*1.
Proof.
  unfold block_cells. rewrite fmap_imap. apply NoDup_alt. intros i j x. rewrite !list_lookup_imap.
  intros (y & Hy & ->)%fmap_Some (z & Hz & E)%fmap_Some. simpl in E. apply elt_inj in E. lia.
Qed.

Lemma store_block_in base b m i :
  0 ≤ i < zlen b → store_block base b m !! elt base i = Some (znth b i).
Proof.
  intros Hi. unfold store_block. apply lookup_union_Some_l, elem_of_list_to_map_1; [apply store_block_keys|].
  apply list_elem_of_lookup. exists (Z.to_nat i). unfold block_cells. rewrite list_lookup_imap, (znth_lookup b i Hi). simpl.
  by rewrite Z2Nat.id by lia.
Qed.

Lemma store_block_out base b m a :
  (∀ i, 0 ≤ i < zlen b → a ≠ elt base i) → store_block base b m !! a = m !! a.
Proof.
  intros Ha. unfold store_block. apply lookup_union_r, not_elem_of_list_to_map_1.
  unfold block_cells. rewrite fmap_imap.
  intros (i & x & E & Hx)%elem_of_lookup_imap_1. simpl in E.
  apply lookup_lt_Some in Hx. apply (Ha (Z.of_nat i)); [unfold zlen; lia|done].
Qed.

(** A memory that differs from [m] at most at the addresses of [as_]. *)
Definition same_except (as_ : list Z) (m m' : mem) : Prop := ∀ a, a ∉ as_ → m' !! a = m !! a.

Create HintDb same_except.

Lemma same_except_refl as_ m : same_except as_ m m.
Proof. done. Qed.

Lemma same_except_insert as_ m m' a v :
  a ∈ as_ → same_except as_ m m' → same_except as_ m (<[a := v]> m').
Proof. intros Ha Hs b Hb. rewrite lookup_insert_ne; [by apply Hs|]. intros ->. done. Qed.

Lemma same_except_mono as_ bs m m' : as_ ⊆ bs → same_except as_ m m' → same_except bs m m'.
Proof. intros Hsub Hs a Ha. apply Hs. intros Hin. by apply Ha, Hsub. Qed.

Lemma same_except_trans as_ m1 m2 m3 :
  same_except as_ m1 m2 → same_except as_ m2 m3 → same_except as_ m1 m3.
Proof. intros H1 H2 a Ha. by rewrite H2, H1. Qed.

#[export] Hint Resolve same_except_refl same_except_insert : same_except.

(** [lookup_simp tac]: lookups in a memory that was written to; [tac] proves
    that addresses differ. *)
Ltac lookup_simp tac :=
  repeat first [rewrite lookup_insert_eq | rewrite lookup_insert_ne by tac].

(** Memories that were only written to at listed addresses. *)
Ltac same_except :=
  repeat (apply same_except_insert; [repeat first [apply list_elem_of_here | apply list_elem_of_further]|]);
  apply same_except_refl.

(** Steps of a sequential run. [tac] decides addresses and conditions. *)
Ltac run_assert tac := rewrite run_bind_lift with (a := tt) by (apply c_assert_true; tac).
Ltac run_read tac := erewrite run_bind_rd by (lookup_simp tac; first [eassumption|reflexivity]).
Ltac run_write tac := rewrite run_bind_wr by (lookup_simp tac; first [eassumption|by eexists]).
Ltac run_lock tac := rewrite run_bind_lock by (lookup_simp tac; first [eassumption|reflexivity]).
