(* ===== verification/ThreadList.v ===== *)
(** * util.c: thread metadata and the list of threads

    The layout of [thread_data_t] and [thread_list_t] in memory (x86-64), the
    operations on the list, and the loop [FOREACH_IN_THREAD_LIST].  The list
    is the linked list of the program, in the flat memory of Mem.v. *)

From S2P Require Import Prelude Conc Ghost Mem Env.

(** ** thread_data_t: the address of each field *)
Definition td_user_routine (td : Z) : Z := td.
Definition td_user_arg (td : Z) : Z := td + 8.
Definition td_next (td : Z) : Z := td + 16.
Definition td_self (td : Z) : Z := td + 24.
Definition td_user_stack_low (td : Z) : Z := td + 32.
Definition td_user_stack_high (td : Z) : Z := td + 40.
Definition td_stack_is_ours (td : Z) : Z := td + 48.
Definition td_is_active (td : Z) : Z := td + 52.
Definition td_ptr_list (td : Z) : Z := td + 56.
Definition td_local_timestamp (td : Z) : Z := td + 88.
Definition td_times_without_update (td : Z) : Z := td + 96.
Definition td_local_block_low (td : Z) : Z := td + 104.
Definition td_local_block_high (td : Z) : Z := td + 112.
Definition td_ref_count (td : Z) : Z := td + 120.

(** ** thread_list_t *)
Definition tl_head (tl : Z) : Z := tl.
Definition tl_lock (tl : Z) : Z := tl + 8.

(** A bound on the iterations of the loops over the list: twice the number of
    threads the process may have. *)
Definition list_fuel : nat := 512.

Section code.
Context `{Build}.

(** FOREACH_IN_THREAD_LIST(td, tl) body ENDFOREACH_IN_THREAD_LIST(td, tl),
    for a body that updates local variables [s]. *)
Fixpoint foreach_loop {S} (fuel : nat) (td : Z) (body : Z → S → prog Z S) (s : S) : prog Z S :=
  if td =? 0 then mret s
  else match fuel with
  | O => lift OutOfFuel
  | Datatypes.S fuel' =>
      s' ← body td s;
      next ← rd (td_next td);
      foreach_loop fuel' next body s'
  end.

Definition foreach_in_thread_list {S} (tl : Z) (body : Z → S → prog Z S) (s : S) : prog Z S :=
  _ ← pthread_mutex_lock (tl_lock tl);
  td ← rd (tl_head tl);
  s' ← foreach_loop list_fuel td body s;
  _ ← pthread_mutex_unlock (tl_lock tl);
  mret s'.

Definition threadscan_util_thread_list_init (tl : Z) : prog Z unit :=
  _ ← lift (c_assert (negb (tl =? 0)));
  head ← rd (tl_head tl);
  if head =? 0 then wr (tl_lock tl) 0 (* pthread_mutex_init *) else mret tt.

Definition threadscan_util_thread_list_add (tl td : Z) : prog Z unit :=
  _ ← lift (c_assert (negb (tl =? 0)));
  _ ← lift (c_assert (negb (td =? 0)));
  _ ← pthread_mutex_lock (tl_lock tl);
  head ← rd (tl_head tl);
  _ ← wr (td_next td) head;
  _ ← wr (tl_head tl) td;
  pthread_mutex_unlock (tl_lock tl).

(** [while (tmp->next != td) ...]; the result is the last [tmp]. *)
Fixpoint find_previous (fuel : nat) (td tmp : Z) : prog Z Z :=
  match fuel with
  | O => lift OutOfFuel
  | S fuel' =>
      next ← rd (td_next tmp);
      if negb (next =? td) then
        tmp' ← rd (td_next tmp);
        _ ← lift (c_assert (negb (tmp' =? 0)));
        find_previous fuel' td tmp'
      else mret tmp
  end.

Definition threadscan_util_thread_list_remove (tl td : Z) : prog Z unit :=
  _ ← lift (c_assert (negb (tl =? 0)));
  _ ← lift (c_assert (negb (td =? 0)));
  _ ← pthread_mutex_lock (tl_lock tl);
  tmp ← rd (tl_head tl);
  _ ← lift (c_assert (negb (tmp =? 0)));
  _ ← (if tmp =? td then
         next ← rd (td_next td);
         wr (tl_head tl) next
       else
         tmp' ← find_previous list_fuel td tmp;
         next ← rd (td_next td);
         wr (td_next tmp') next);
  pthread_mutex_unlock (tl_lock tl).

(** The loop of [threadscan_util_thread_list_find]. *)
Fixpoint find_loop (fuel : nat) (ret addr : Z) : prog Z Z :=
  if ret =? 0 then mret ret
  else match fuel with
  | O => lift OutOfFuel
  | S fuel' =>
      low ← rd (td_user_stack_low ret);
      high ← (if addr >=? low then rd (td_user_stack_high ret) else mret low);
      if (addr >=? low) && (addr <? high) then
        _ ← sync_fetch_and_add (td_ref_count ret) 1;
        mret ret
      else
        next ← rd (td_next ret);
        find_loop fuel' next addr
  end.

Definition threadscan_util_thread_list_find (tl addr : Z) : prog Z Z :=
  _ ← pthread_mutex_lock (tl_lock tl);
  head ← rd (tl_head tl);
  ret ← find_loop list_fuel head addr;
  _ ← pthread_mutex_unlock (tl_lock tl);
  mret ret.
End code.

(** ** The list in memory *)

(** The linked list that starts at [p] is [tds]. *)
Fixpoint tlist (m : mem) (p : Z) (tds : list Z) : Prop :=
  match tds with
  | [] => p = 0
  | td :: tds' => p = td ∧ td ≠ 0 ∧ ∃ next, m !! td_next td = Some next ∧ tlist m next tds'
  end.

Record thread_list (tl : Z) (m : mem) (tds : list Z) : Prop := {
  tl_free : m !! tl_lock tl = Some 0;
  tl_first : ∃ p, m !! tl_head tl = Some p ∧ tlist m p tds;
  tl_nodup : NoDup tds;
  tl_sep : ∀ td, td ∈ tds → td_next td ≠ tl_head tl ∧ td_next td ≠ tl_lock tl;
  tl_len : (length tds < list_fuel)%nat;
}.

Lemma tlist_nonzero m p tds td : tlist m p tds → td ∈ tds → td ≠ 0.
Proof.
  revert p. induction tds as [|td' tds IH]; intros p; [by intros _ ?%elem_of_nil|].
  intros (_ & Hnz & next & _ & Hl) [->|Hin]%elem_of_cons; [done|by eapply IH].
Qed.

(** The list only depends on the [next] fields of its elements. *)
Lemma tlist_ext m m' p tds :
  (∀ td, td ∈ tds → m' !! td_next td = m !! td_next td) → tlist m p tds → tlist m' p tds.
Proof.
  revert p. induction tds as [|td tds IH]; intros p Heq; simpl; [done|].
  intros (-> & Hnz & next & Hn & Hl). split; [done|]. split; [done|].
  exists next. split; [rewrite Heq; [done|by left]|]. apply IH; [|done].
  intros td' Htd'. apply Heq. by right.
Qed.

Lemma tlist_insert m p tds a v :
  (∀ td, td ∈ tds → a ≠ td_next td) → tlist m p tds → tlist (<[a := v]> m) p tds.
Proof. intros Ha. apply tlist_ext. intros td Htd. apply lookup_insert_ne. by apply Ha. Qed.

Lemma tlist_in m p tds td : tlist m p tds → td ∈ tds → td ≠ 0 ∧ is_Some (m !! td_next td).
Proof.
  revert p. induction tds as [|x tds IH]; intros p; simpl; [by intros ? ?%elem_of_nil|].
  intros (-> & Hnz & next & Hn & Hl) [->|Hin]%elem_of_cons; [split; [done|by eexists]|].
  by eapply IH.
Qed.

(** Memory determines the list. *)
Lemma tlist_det m p tds tds' : tlist m p tds → tlist m p tds' → tds = tds'.
Proof.
  revert p tds'. induction tds as [|x tds IH]; intros p [|y tds']; simpl; try done.
  - by intros -> (-> & ? & _).
  - by intros (-> & ? & _) ->.
  - intros (-> & _ & next & Hn & Hl) (-> & _ & next' & Hn' & Hl'). f_equal.
    apply (IH next); [done|]. by replace next with next' by congruence.
Qed.

Lemma thread_list_det tl m tds tds' : thread_list tl m tds → thread_list tl m tds' → tds = tds'.
Proof.
  intros [_ (p & Hp & Hl) _ _ _] [_ (p' & Hp' & Hl') _ _ _]. eapply tlist_det; [exact Hl|].
  by replace p with p' by congruence.
Qed.

Lemma td_next_inj a b : td_next a = td_next b → a = b.
Proof. unfold td_next. lia. Qed.

Create HintDb layout.
#[export] Hint Unfold tl_head tl_lock td_user_routine td_user_arg td_next td_self td_user_stack_low
  td_user_stack_high td_stack_is_ours td_is_active td_ptr_list td_local_timestamp
  td_times_without_update td_local_block_low td_local_block_high td_ref_count : layout.

(** Equations and inequalities between addresses of fields. *)
Ltac addr :=
  first [ assumption | apply not_eq_sym; assumption
        | autounfold with layout;
          repeat match goal with
                 | H : @eq Z _ _ |- _ => progress autounfold with layout in H
                 | H : ¬ @eq Z _ _ |- _ => progress autounfold with layout in H
                 end; lia ].

(** The loop over the list while other threads run: [J visited s] is the
    invariant; the links are those of [m0]. *)
Section foreach.
Context {Γ : Type} (R G : mem * Γ → mem * Γ → Prop) (W : mem * Γ → Prop).
Context {S : Type} (body : Z → S → prog Z S) (m0 : mem) (tds : list Z) (J : list Z → S → mem * Γ → Prop).
Context (HR : Reflexive R).
Context (HJ : ∀ visited s st st', R st st' → J visited s st → J visited s st').
Context (Hlink : ∀ visited s st td, J visited s st → td ∈ tds → st.1 !! td_next td = m0 !! td_next td).
Context (Hbody : ∀ visited td todo s st, tds = visited ++ td :: todo → J visited s st →
           grg R G W (body td s) (λ s', J (visited ++ [td]) s') st).

Lemma grg_foreach_loop fuel visited todo p s st :
  tds = visited ++ todo → tlist m0 p todo → (length todo ≤ fuel)%nat → J visited s st →
  grg R G W (foreach_loop fuel p body s) (λ s', J tds s') st.
Proof.
  revert visited todo p s st. induction fuel as [|fuel IH]; intros visited todo p s st Htds Hl Hlen Hj;
    (destruct todo as [|td todo];
     [simpl in Hl; subst p; rewrite app_nil_r in Htds; subst visited; simpl; intros st' Hs; by eapply HJ|]).
  { simpl in Hlen. lia. }
  pose proof Hl as (-> & Hnz & next & Hn & Hl'). cbn [foreach_loop].
  destruct (Z.eqb_spec td 0) as [?|_]; [done|].
  apply grg_bind; [done|]. eapply grg_mono; [by eapply Hbody|].
  intros s' st1 Hj1. apply grg_bind_rd. intros st2 S2.
  pose proof (HJ _ _ _ _ S2 Hj1) as Hj2. simpl sread.
  rewrite (Hlink _ _ _ td Hj2), Hn by (rewrite Htds; apply elem_of_app; right; by left).
  apply wp_ret. apply (IH (visited ++ [td]) todo); [by rewrite <- app_assoc|done|simpl in Hlen; lia|done].
Qed.
End foreach.

(** The loop alone, with a body that only looks. *)
Lemma foreach_loop_run {S} (body : Z → S → prog Z S) (m : mem) p tds s fuel :
  tlist m p tds → (length tds ≤ fuel)%nat → (∀ td, td ∈ tds → run (body td s) m = Ret (s, m)) →
  run (foreach_loop fuel p body s) m = Ret (s, m).
Proof.
  revert p tds. induction fuel as [|fuel IH]; intros p [|td tds] Hl Hlen Hb; simpl in Hl, Hlen; try lia; try (by subst p).
  destruct Hl as (-> & Hnz & next & Hn & Hl). cbn [foreach_loop].
  destruct (Z.eqb_spec td 0) as [?|_]; [done|].
  rewrite run_bind, Hb by by left. cbn [mbind outcome_bind]. rewrite (run_bind_rd _ _ _ _ Hn).
  apply (IH _ tds); [done|lia|]. intros td' Htd'. apply Hb. by right.
Qed.

Lemma foreach_run {S} (body : Z → S → prog Z S) tl (m : mem) tds s :
  thread_list tl m tds → (∀ td, td ∈ tds → run (body td s) (<[tl_lock tl := 1]> m) = Ret (s, <[tl_lock tl := 1]> m)) →
  run (foreach_in_thread_list tl body s) m = Ret (s, <[tl_lock tl := 0]> m).
Proof.
  intros [Hf (p & Hp & Hl) Hnd Hsep Hlen] Hb. unfold foreach_in_thread_list.
  rewrite (run_bind_lock (tl_lock tl) _ m Hf).
  rewrite (run_bind_rd _ _ _ p) by (rewrite lookup_insert_ne; [done|addr]).
  rewrite run_bind, (foreach_loop_run body _ p tds).
  - cbn [mbind outcome_bind]. rewrite run_bind, run_unlock by (rewrite lookup_insert_eq; by eexists).
    cbn. by rewrite insert_insert_eq.
  - eapply tlist_ext; [|exact Hl]. intros td Htd. rewrite lookup_insert_ne; [done|]. by apply not_eq_sym, Hsep.
  - lia.
  - done.
Qed.

(** The loop writes what its body writes, and the lock. *)
Lemma foreach_writes {S} (P : Z → Prop) tl (body : Z → S → prog Z S) s :
  P (tl_lock tl) → (∀ td s, writes_in P (body td s)) → writes_in P (foreach_in_thread_list tl body s).
Proof.
  intros Hl Hb. unfold foreach_in_thread_list.
  assert (∀ fuel td s, writes_in P (foreach_loop fuel td body s)) as Hloop.
  { induction fuel as [|fuel IH]; intros td s'; simpl; destruct (td =? 0); try done.
    apply writes_in_bind; [apply Hb|]. intros s'' x. apply IH. }
  apply writes_in_bind; [split; [done|by intros z]|]. intros u. apply writes_in_bind; [by intros z|].
  intros td. apply writes_in_bind; [apply Hloop|]. intros s'. by apply writes_in_bind.
Qed.

Section list_ops.
Context `{Build} (tl : Z).

(** [add] puts the element at the head. *)
Lemma thread_list_add_run td tds m :
  tl ≠ 0 → thread_list tl m tds → td ≠ 0 → td ∉ tds → is_Some (m !! td_next td) →
  td_next td ≠ tl_head tl → td_next td ≠ tl_lock tl → (S (length tds) < list_fuel)%nat →
  wp (run (threadscan_util_thread_list_add tl td) m)
     (λ r, thread_list tl r.2 (td :: tds) ∧ same_except [tl_head tl; tl_lock tl; td_next td] m r.2).
Proof.
  intros Htl Hl Htd Hnin Hmap Hs1 Hs2 Hlen. destruct Hl as [Hfree (p & Hp & Hlist) Hnd Hsep _].
  unfold threadscan_util_thread_list_add.
  run_assert lia. run_assert lia. run_lock addr. run_read addr. run_write addr. run_write addr.
  rewrite run_unlock by (lookup_simp addr; by eexists). apply wp_ret. cbn [snd].
  split; [|by same_except]. split.
  - by lookup_simp addr.
  - exists td. split; [by lookup_simp addr|]. simpl. split; [done|]. split; [done|].
    exists p. split; [by lookup_simp addr|].
    eapply tlist_ext; [|exact Hlist]. intros td' Hin.
    destruct (Hsep td' Hin). assert (td ≠ td') by congruence. by lookup_simp addr.
  - by apply NoDup_cons.
  - intros td' [->|Hin]%elem_of_cons; [done|by apply Hsep].
  - done.
Qed.

(** [find_previous] stops at the element before [td]. *)
Lemma find_previous_run fuel m tmp pre prev td post :
  tlist m tmp (pre ++ prev :: td :: post) → NoDup (pre ++ prev :: td :: post) →
  (length pre < fuel)%nat → run (find_previous fuel td tmp) m = Ret (prev, m).
Proof.
  revert tmp pre. induction fuel as [|fuel IH]; intros tmp pre Hl Hnd Hlen; [lia|].
  cbn [find_previous]. destruct pre as [|x pre].
  - destruct Hl as (-> & _ & next & Hn & (-> & _)). run_read addr. by rewrite Z.eqb_refl.
  - destruct Hl as (-> & _ & next & Hn & Hl). apply NoDup_cons in Hnd as [_ Hnd].
    run_read addr. assert (next ≠ td ∧ next ≠ 0) as [Hne Hnz].
    { destruct pre as [|y pre]; destruct Hl as (-> & Hnz & _); (split; [|done]); simpl in Hnd;
        apply NoDup_cons in Hnd as [Hnin _]; set_solver. }
    destruct (Z.eqb_spec next td) as [?|_]; [done|]. cbn [negb].
    run_read addr. run_assert lia. apply (IH _ pre); [done|done|simpl in Hlen; lia].
Qed.

(** Unlinking the element after [prev]. *)
Lemma tlist_unlink m p pre prev td post n :
  tlist m p (pre ++ prev :: td :: post) → NoDup (pre ++ prev :: td :: post) →
  m !! td_next td = Some n → tlist (<[td_next prev := n]> m) p (pre ++ prev :: post).
Proof.
  revert p. induction pre as [|x pre IH]; intros p Hl Hnd Hn; simpl in *.
  - destruct Hl as (-> & Hnz & next & Hn' & (-> & Hnz' & n' & Hn'' & Hl)).
    split; [done|]. split; [done|]. exists n. split; [by rewrite lookup_insert_eq|].
    replace n with n' by congruence. apply tlist_insert; [|done].
    intros td' Hin E%td_next_inj. apply NoDup_cons in Hnd as [Hnd _]. set_solver.
  - destruct Hl as (-> & Hnz & next & Hn' & Hl). apply NoDup_cons in Hnd as [Hnin Hnd].
    split; [done|]. split; [done|]. exists next. split; [|by apply IH].
    rewrite lookup_insert_ne; [done|]. intros E%td_next_inj. set_solver.
Qed.

(** What remains of a list is one if its links are right. *)
Lemma thread_list_less m m' pre td post :
  thread_list tl m (pre ++ td :: post) → m' !! tl_lock tl = Some 0 →
  (∃ p, m' !! tl_head tl = Some p ∧ tlist m' p (pre ++ post)) → thread_list tl m' (pre ++ post).
Proof.
  intros [_ _ Hnd Hsep Hlen] Hl Hp. split; try done.
  - apply NoDup_app in Hnd as (? & Hd & [_ ?]%NoDup_cons). apply NoDup_app. set_solver.
  - intros td' Hin. apply Hsep. set_solver.
  - rewrite length_app in *. simpl in Hlen. lia.
Qed.

Lemma remove_first_run td post m :
  tl ≠ 0 → thread_list tl m (td :: post) →
  wp (run (threadscan_util_thread_list_remove tl td) m)
     (λ r, thread_list tl r.2 post ∧ same_except [tl_head tl; tl_lock tl] m r.2).
Proof.
  intros Htl Hall. pose proof Hall as [Hfree (p & Hp & Hl) Hnd Hsep Hlen].
  destruct Hl as (-> & Htd & n & Hn & Hl). destruct (Hsep td) as [Ht1 Ht2]; [set_solver|].
  unfold threadscan_util_thread_list_remove.
  run_assert lia. run_assert lia. run_lock addr. run_read addr. run_assert lia.
  rewrite Z.eqb_refl, run_bind.
  run_read addr. rewrite run_wr by (lookup_simp addr; by eexists). cbn [mbind outcome_bind].
  rewrite run_unlock by (lookup_simp addr; by eexists). apply wp_ret. cbn [snd].
  split; [|by same_except]. apply (thread_list_less m _ [] td post Hall).
  - by lookup_simp addr.
  - exists n. split; [by lookup_simp addr|]. eapply tlist_ext; [|exact Hl].
    intros td' Hin. destruct (Hsep td'); [set_solver|]. by lookup_simp addr.
Qed.

Lemma remove_later_run front prev td post m :
  tl ≠ 0 → thread_list tl m ((front ++ [prev]) ++ td :: post) →
  wp (run (threadscan_util_thread_list_remove tl td) m)
     (λ r, thread_list tl r.2 ((front ++ [prev]) ++ post) ∧ same_except [tl_head tl; tl_lock tl; td_next prev] m r.2).
Proof.
  intros Htl Hall. pose proof Hall as [Hfree (p & Hp & Hl) Hnd Hsep Hlen].
  destruct (tlist_in _ _ _ td Hl) as [Htd [n Hn]]; [set_solver|].
  destruct (Hsep td) as [Ht1 Ht2]; [set_solver|]. destruct (Hsep prev) as [Hp1 Hp2]; [set_solver|].
  destruct (tlist_in _ _ _ prev Hl) as [_ Hmp]; [set_solver|].
  rewrite <- app_assoc in Hl, Hnd. simpl in Hl, Hnd.
  assert (td ≠ prev) as Hpt by (apply NoDup_app in Hnd as (_ & _ & [? _]%NoDup_cons); set_solver).
  assert (p ≠ 0 ∧ p ≠ td) as [Hp0 Hne].
  { destruct front as [|x front]; destruct Hl as (-> & ? & _); (split; [done|]); [done|].
    apply NoDup_cons in Hnd as [? _]. set_solver. }
  unfold threadscan_util_thread_list_remove.
  run_assert lia. run_assert lia. run_lock addr. run_read addr. run_assert lia.
  destruct (Z.eqb_spec p td) as [?|_]; [done|]. rewrite run_bind, run_bind.
  erewrite find_previous_run; [| |exact Hnd|].
  2: { eapply tlist_ext; [|exact Hl]. intros td' Hin. destruct (Hsep td'); [set_solver|]. by lookup_simp addr. }
  2: { rewrite !length_app in Hlen. simpl in Hlen. lia. }
  cbn [mbind outcome_bind]. run_read addr.
  rewrite run_wr by (lookup_simp addr; done). cbn [mbind outcome_bind].
  rewrite run_unlock by (lookup_simp addr; by eexists). apply wp_ret. cbn [snd].
  split; [|by same_except]. apply (thread_list_less m _ _ td post Hall).
  - by lookup_simp addr.
  - exists p. split; [by lookup_simp addr|]. rewrite <- app_assoc. simpl.
    pose proof (tlist_unlink _ _ _ _ _ _ _ Hl Hnd Hn) as Hu.
    eapply tlist_ext; [|exact Hu]. intros td' Hin. destruct (Hsep td') as [? ?]; [set_solver|].
    destruct (decide (td' = prev)) as [->|]; [by lookup_simp addr|].
    assert (td_next prev ≠ td_next td') by (intros ?%td_next_inj; congruence). by lookup_simp addr.
Qed.

(** [remove] unlinks the element wherever it is. *)
Lemma thread_list_remove_run pre td post m :
  tl ≠ 0 → thread_list tl m (pre ++ td :: post) →
  wp (run (threadscan_util_thread_list_remove tl td) m)
     (λ r, thread_list tl r.2 (pre ++ post) ∧
           same_except (tl_head tl :: tl_lock tl :: (td_next <$> pre)) m r.2).
Proof.
  intros Htl Hl. destruct (snoc_cases pre) as [->|(front & prev & ->)].
  - by apply remove_first_run.
  - eapply wp_mono; [by apply (remove_later_run front prev)|]. intros r [H1 H2]. split; [done|].
    eapply same_except_mono; [|exact H2]. intros a. rewrite fmap_app. cbn. rewrite !elem_of_cons, elem_of_app, !elem_of_cons. tauto.
Qed.

(** Removing an element that is not there runs off the end of the list: the
    debug build stops at the assertion, the release build dereferences a null
    pointer. *)
Lemma find_previous_absent fuel m tmp tds td :
  tlist m tmp tds → td ≠ 0 → td ∉ tds → tds ≠ [] → (length tds < fuel)%nat →
  m !! td_next 0 = None →
  run (find_previous fuel td tmp) m = if debug then Aborted else UB.
Proof.
  revert tmp tds. induction fuel as [|fuel IH]; intros tmp tds Hl Htd Hnin Hne Hlen Hnull; [lia|].
  destruct tds as [|x tds]; [done|]. destruct Hl as (-> & Hnz & next & Hn & Hl).
  cbn [find_previous]. run_read addr.
  assert (next ≠ td) as Hneq by (destruct tds; [by rewrite Hl|]; destruct Hl as (-> & _); set_solver).
  destruct (Z.eqb_spec next td) as [?|_]; [done|]. cbn [negb]. run_read addr.
  destruct tds as [|y tds].
  - simpl in Hl. subst next. unfold c_assert. simpl. destruct debug eqn:Hd; [done|].
    destruct fuel as [|fuel]; [simpl in Hlen; lia|]. simpl. by rewrite Hnull.
  - assert (next ≠ 0) by (destruct Hl as (-> & ? & _); done). run_assert lia.
    apply (IH _ (y :: tds)); try done; [set_solver|simpl in *; lia].
Qed.

(** Removing a thread that is not on the list (the first page of memory
    is not mapped): the debug build stops at an assertion, the release build
    runs off the end of the list and reads through a null pointer. *)
Theorem thread_list_remove_absent td tds m :
  tl ≠ 0 → thread_list tl m tds → td ≠ 0 → td ∉ tds → tl_lock tl ≠ td_next 0 → m !! td_next 0 = None →
  run (threadscan_util_thread_list_remove tl td) m = if debug then Aborted else UB.
Proof.
  intros Htl [Hfree (p & Hp & Hl) Hnd Hsep Hlen] Htd Hnin Hs0 Hnull.
  unfold threadscan_util_thread_list_remove. run_assert lia. run_assert lia. run_lock addr. run_read addr.
  destruct tds as [|x tds].
  - simpl in Hl. subst p. unfold c_assert. destruct debug eqn:Hd; [done|].
    rewrite run_bind_lift with (a := tt) by done. replace (0 =? td) with false by lia.
    rewrite run_bind, run_bind. change list_fuel with (S 511). cbn [find_previous].
    rewrite run_bind_rd_unmapped; [done|]. by rewrite lookup_insert_ne.
  - assert (p = x ∧ x ≠ 0) as [-> Hx] by (by destruct Hl as (-> & ? & _)). run_assert lia.
    apply not_elem_of_cons in Hnin as Hne. replace (x =? td) with false by lia.
    rewrite run_bind, run_bind, (find_previous_absent _ _ _ (x :: tds)); try done.
    + by destruct debug.
    + apply tlist_insert; [|done]. intros td' Hin. by apply not_eq_sym, Hsep.
    + by rewrite lookup_insert_ne.
Qed.

(** The stack of which thread an address is on, by the stack bounds in
    memory. *)
Definition on_stack (m : mem) (address td : Z) : bool :=
  match m !! td_user_stack_low td, m !! td_user_stack_high td with
  | Some low, Some high => (address >=? low) && (address <? high)
  | _, _ => false
  end.

Lemma find_loop_run fuel m p tds address :
  tlist m p tds → (length tds < fuel)%nat →
  (∀ td, td ∈ tds → is_Some (m !! td_user_stack_low td) ∧ is_Some (m !! td_user_stack_high td) ∧
                    is_Some (m !! td_ref_count td)) →
  run (find_loop fuel p address) m =
    match List.find (on_stack m address) tds with
    | Some td => Ret (td, <[td_ref_count td := int_of_u64 (default 0 (m !! td_ref_count td) + 1)]> m)
    | None => Ret (0, m)
    end.
Proof.
  revert p tds. induction fuel as [|fuel IH]; intros p tds Hl Hlen Hmap; [lia|].
  destruct tds as [|x tds]; [by simpl in *; subst p|].
  destruct Hl as (-> & Hnz & next & Hn & Hl). cbn [find_loop List.find].
  destruct (Z.eqb_spec x 0) as [?|_]; [done|].
  destruct (Hmap x) as ([lo Hlo] & [hi Hhi] & [rc Hrc]); [by left|].
  unfold on_stack at 1. rewrite Hlo, Hhi. run_read addr. rewrite run_bind.
  destruct (address >=? lo); cbn [andb].
  - rewrite (run_rd _ _ _ Hhi). cbn [mbind outcome_bind]. destruct (address <? hi).
    + unfold sync_fetch_and_add. erewrite run_bind_rmw; [|exact Hrc|done]. by rewrite Hrc.
    + run_read addr. apply (IH _ tds); [done|simpl in Hlen; lia|set_solver].
  - cbn. rewrite Hn. cbn. apply (IH _ tds); [done|simpl in Hlen; lia|set_solver].
Qed.
End list_ops.

(** ** The list as an abstract data type *)
Inductive list_op := Add (td : Z) | Remove (td : Z) | Find (address : Z).

Record alist := { al_tds : list Z; al_refs : Z → Z }.

(** What an operation promises; undefined when its precondition fails. *)
Definition spec_op (bounds : Z → mem_range_t) (op : list_op) (a : alist) : option (Z * alist) :=
  match op with
  | Add td =>
      if decide (td ∈ a.(al_tds) ∨ (list_fuel ≤ S (length a.(al_tds)))%nat) then None
      else Some (0, {| al_tds := td :: a.(al_tds); al_refs := a.(al_refs) |})
  | Remove td =>
      if decide (td ∈ a.(al_tds)) then
        Some (0, {| al_tds := filter (.≠ td) a.(al_tds); al_refs := a.(al_refs) |})
      else None
  | Find address =>
      match List.find (λ td, ((bounds td).(low) <=? address) && (address <? (bounds td).(high))) a.(al_tds) with
      | Some td =>
          Some (td, {| al_tds := a.(al_tds);
                       al_refs := λ x, if x =? td then int_of_u64 (a.(al_refs) td + 1)
                                       else a.(al_refs) x |})
      | None => Some (0, a)
      end
  end.

Fixpoint spec_ops (bounds : Z → mem_range_t) (ops : list list_op) (a : alist) : option (list Z * alist) :=
  match ops with
  | [] => Some ([], a)
  | op :: ops' =>
      '(r, a') ← spec_op bounds op a;
      '(rs, a'') ← spec_ops bounds ops' a';
      Some (r :: rs, a'')
  end.

(** The calls of the program. *)
Definition run_op `{Build} (tl : Z) (op : list_op) : prog Z Z :=
  match op with
  | Add td => _ ← threadscan_util_thread_list_add tl td; mret 0
  | Remove td => _ ← threadscan_util_thread_list_remove tl td; mret 0
  | Find address => threadscan_util_thread_list_find tl address
  end.

Fixpoint run_ops `{Build} (tl : Z) (ops : list list_op) : prog Z (list Z) :=
  match ops with
  | [] => mret []
  | op :: ops' => r ← run_op tl op; rs ← run_ops tl ops'; mret (r :: rs)
  end.

(** The thread data structures of the program: objects of their own. *)
Record td_objects (tl : Z) (tds : list Z) : Prop := {
  to_nonnull : tl ≠ 0 ∧ ∀ td, td ∈ tds → td ≠ 0;
  to_list : ∀ td, td ∈ tds → tl + 16 <= td ∨ td + 128 <= tl;
  to_disjoint : ∀ td td', td ∈ tds → td' ∈ tds → td ≠ td' → td + 128 <= td' ∨ td' + 128 <= td;
}.

(** The memory holds the abstract list. *)
Record repr (tl : Z) (U : list Z) (bounds : Z → mem_range_t) (m : mem) (a : alist) : Prop := {
  re_list : thread_list tl m a.(al_tds);
  re_known : a.(al_tds) ⊆ U;
  re_next : ∀ td, td ∈ U → is_Some (m !! td_next td);
  re_bounds : ∀ td, td ∈ U → m !! td_user_stack_low td = Some (bounds td).(low) ∧
                              m !! td_user_stack_high td = Some (bounds td).(high);
  re_refs : ∀ td, td ∈ U → m !! td_ref_count td = Some (a.(al_refs) td);
}.

Definition op_in (U : list Z) (op : list_op) : Prop :=
  match op with Add td | Remove td => td ∈ U | Find _ => True end.

Section refinement.
Context `{Build} (tl : Z) (U : list Z) (bounds : Z → mem_range_t) (HU : td_objects tl U).

(** Steps that only change [next] fields, the head and the lock. *)
Lemma repr_links m m' a tds :
  repr tl U bounds m a → thread_list tl m' tds → tds ⊆ U →
  same_except (tl_head tl :: tl_lock tl :: (td_next <$> U)) m m' →
  (∀ td, td ∈ U → is_Some (m' !! td_next td)) →
  repr tl U bounds m' {| al_tds := tds; al_refs := a.(al_refs) |}.
Proof.
  intros [_ _ _ Hb Hr] Hl Hsub Hsame Hnext.
  assert (∀ td x, td ∈ U → 24 <= x < 128 → m' !! (td + x) = m !! (td + x)) as Hother.
  { intros td x Htd Hx. apply Hsame. pose proof (to_list _ _ HU td Htd).
    intros [E|[E|(td' & E & Htd')%list_elem_of_fmap]%elem_of_cons]%elem_of_cons; [addr..|].
    destruct (decide (td = td')) as [->|Hne]; [addr|].
    pose proof (to_disjoint _ _ HU td td' Htd Htd' Hne). addr. }
  split; try done; cbn [al_tds al_refs].
  - intros td Htd. unfold td_user_stack_low, td_user_stack_high. rewrite !Hother by (done || lia). by apply Hb.
  - intros td Htd. unfold td_ref_count. rewrite Hother by (done || lia). by apply Hr.
Qed.

Lemma filter_ne_app pre (td : Z) post :
  NoDup (pre ++ td :: post) → filter (.≠ td) (pre ++ td :: post) = pre ++ post.
Proof.
  intros (_ & Hd & [Hnin _]%NoDup_cons)%NoDup_app.
  rewrite filter_app, filter_cons_False by auto.
  rewrite !filter_ne_id; [done|done|]. intros Hin. by apply (Hd td Hin), elem_of_cons; left.
Qed.

Lemma find_ext (f g : Z → bool) l : (∀ x, x ∈ l → f x = g x) → List.find f l = List.find g l.
Proof.
  induction l as [|x l IH]; intros Heq; simpl; [done|].
  rewrite (Heq x) by (by left). destruct (g x); [done|]. apply IH. intros y Hy. apply Heq. by right.
Qed.

Lemma find_op_ok address a r a' m :
  repr tl U bounds m a → spec_op bounds (Find address) a = Some (r, a') →
  wp (run (run_op tl (Find address)) m) (λ x, x.1 = r ∧ repr tl U bounds x.2 a').
Proof.
  intros Hm Hspec. destruct Hm as [[Hfree (p & Hp & Hl) Hnd Hsep Hlen] Hsub Hn Hb Hr].
  cbn [run_op]. unfold threadscan_util_thread_list_find.
  assert (∀ td x, td ∈ U → 16 <= x < 128 → td + x ≠ tl_lock tl ∧ td + x ≠ tl_head tl) as Hlay.
  { intros td x Htd Hx. pose proof (to_list _ _ HU td Htd). split; addr. }
  run_lock addr. run_read addr. rewrite run_bind.
  rewrite find_loop_run with (tds := al_tds a); [| |done|].
  2: { apply tlist_insert; [|done]. intros td Hin. by apply not_eq_sym, Hsep. }
  2: { intros td Htd%Hsub. rewrite !lookup_insert_ne by (apply not_eq_sym, Hlay; [done|lia]).
       destruct (Hb td Htd) as [-> ->]. rewrite (Hr td Htd). by repeat split; eexists. }
  rewrite (find_ext _ (λ td, ((bounds td).(low) <=? address) && (address <? (bounds td).(high)))).
  2: { intros td Htd%Hsub. unfold on_stack. rewrite !lookup_insert_ne by (apply not_eq_sym, Hlay; [done|lia]).
       destruct (Hb td Htd) as [-> ->]. by rewrite Z.geb_leb. }
  cbn [spec_op] in Hspec. destruct (List.find _ (al_tds a)) as [td|] eqn:Hf; injection Hspec as <- <-.
  - apply find_some in Hf as [Hin%list_elem_of_In _]. pose proof (Hsub td Hin) as HtdU.
    rewrite lookup_insert_ne by (apply not_eq_sym, Hlay; [done|lia]). rewrite (Hr td HtdU). cbn [default mbind outcome_bind].
    unfold id. destruct (Hlay td 120 HtdU) as [Ha1 Ha2]; [lia|]. set (v := int_of_u64 (al_refs a td + 1)).
    rewrite run_bind, run_unlock by (lookup_simp addr; by eexists). cbn. split; [done|].
    assert (<[tl_lock tl:=0]> (<[td_ref_count td:=v]> (<[tl_lock tl:=1]> m)) = <[td_ref_count td := v]> m) as ->.
    { apply map_eq. intros x. destruct (decide (x = tl_lock tl)) as [->|]; [by lookup_simp addr|].
      rewrite lookup_insert_ne by done. destruct (decide (x = td_ref_count td)) as [->|]; by lookup_simp addr. }
    assert (∀ x y, x ∈ U → 16 <= y < 128 → y ≠ 120 → td_ref_count td ≠ x + y) as Hne.
    { intros x y Hx Hy Hy'. destruct (decide (x = td)) as [->|Hne]; [addr|].
      pose proof (to_disjoint _ _ HU x td Hx HtdU Hne). addr. }
    assert (thread_list tl (<[td_ref_count td:=v]> m) (al_tds a)) as Hl'.
    { split; try done.
      - rewrite lookup_insert_ne by (by apply Hlay; [|lia]). done.
      - exists p. split; [rewrite lookup_insert_ne by (by apply (Hlay td 120); [|lia]); done|].
        apply tlist_insert; [|done]. intros x Hx. apply Hne; [by apply Hsub|lia|lia]. }
    split; cbn [al_tds al_refs]; try done.
    + intros x Hx. apply lookup_insert_is_Some'. right. by apply Hn.
    + intros x Hx. rewrite !lookup_insert_ne by (apply Hne; [done|lia|lia]). by apply Hb.
    + intros x Hx. destruct (Z.eqb_spec x td) as [->|Hne']; [by rewrite lookup_insert_eq|].
      rewrite lookup_insert_ne by (unfold td_ref_count; lia). by apply Hr.
  - cbn [mbind outcome_bind]. rewrite run_bind, run_unlock by (lookup_simp addr; by eexists).
    cbn. split; [done|].
    assert (<[tl_lock tl:=0]> (<[tl_lock tl:=1]> m) = m) as ->.
    { apply map_eq. intros x. destruct (decide (x = tl_lock tl)) as [->|]; by lookup_simp addr. }
    split; eauto. split; eauto.
Qed.

Lemma run_op_ok op a r a' m :
  repr tl U bounds m a → op_in U op → spec_op bounds op a = Some (r, a') →
  wp (run (run_op tl op) m) (λ x, x.1 = r ∧ repr tl U bounds x.2 a').
Proof.
  intros Hm Hop Hspec. pose proof (re_list _ _ _ _ _ Hm) as Hl. pose proof (re_known _ _ _ _ _ Hm) as Hsub.
  destruct (to_nonnull _ _ HU) as [Htl Hnz].
  destruct op as [td|td|address]; cbn [run_op spec_op op_in] in *; try rewrite run_bind.
  - case_decide as Hc; [done|]. injection Hspec as <- <-. pose proof (to_list _ _ HU td Hop).
    apply wp_bind. eapply wp_mono.
    { apply wp_run_mapped, (thread_list_add_run tl td (al_tds a)); try done; try addr.
      - by apply Hnz.
      - intros ?. apply Hc. by left.
      - by apply (re_next _ _ _ _ _ Hm). }
    intros [u m'] [[Hl' Hsame] Hmap]. split; [done|]. apply (repr_links m m' a); try done.
    + by intros x [->|?%Hsub]%elem_of_cons.
    + eapply same_except_mono; [|exact Hsame]. intros x. rewrite !elem_of_cons.
      intros [?|[?|[->|[]%elem_of_nil]]]; auto. right; right. by apply list_elem_of_fmap_2.
    + intros x Hx. by apply Hmap, (re_next _ _ _ _ _ Hm).
  - case_decide as Hc; [|done]. injection Hspec as <- <-.
    apply list_elem_of_split in Hc as (pre & post & E). rewrite E in *.
    pose proof (tl_nodup _ _ _ Hl) as Hnd. rewrite filter_ne_app by done.
    apply wp_bind. eapply wp_mono.
    { apply wp_run_mapped, (thread_list_remove_run tl pre td post); done. }
    intros [u m'] [[Hl' Hsame] Hmap]. split; [done|]. apply (repr_links m m' a); try done.
    + intros x Hx. apply Hsub. apply elem_of_app in Hx as [?|?]; apply elem_of_app; [by left|].
      right. by apply elem_of_cons; right.
    + eapply same_except_mono; [|exact Hsame]. intros x. rewrite !elem_of_cons.
      intros [?|[?|(y & -> & Hy)%list_elem_of_fmap]]; auto. right; right.
      apply list_elem_of_fmap_2, Hsub, elem_of_app. by left.
    + intros x Hx. by apply Hmap, (re_next _ _ _ _ _ Hm).
  - by apply (find_op_ok address a).
Qed.

(** C18. The linked list of threads implements the abstract list: every
    sequence of additions, removals and searches that meets the preconditions
    (add what is not there, remove what is there) runs without fault, gives
    the abstract results, and leaves the lock free and the memory holding the
    abstract list and reference counts. *)
Theorem thread_list_refines ops a rs a' m :
  repr tl U bounds m a → Forall (op_in U) ops → spec_ops bounds ops a = Some (rs, a') →
  wp (run (run_ops tl ops) m) (λ x, x.1 = rs ∧ repr tl U bounds x.2 a').
Proof.
  revert a rs m. induction ops as [|op ops IH]; intros a rs m Hm Hops Hspec; cbn [run_ops spec_ops] in *.
  - by injection Hspec as <- <-.
  - apply Forall_cons in Hops as [Hop Hops].
    destruct (spec_op bounds op a) as [[r1 a1]|] eqn:H1; [|done]. cbn in Hspec.
    destruct (spec_ops bounds ops a1) as [[rs1 a2]|] eqn:H2; [|done]. cbn in Hspec. injection Hspec as <- <-.
    rewrite run_bind. apply wp_bind. eapply wp_mono; [by apply (run_op_ok op a)|].
    intros [r m1]. cbn [fst snd]. intros [-> Hm1]. rewrite run_bind. apply wp_bind. eapply wp_mono; [by apply (IH a1 rs1)|].
    intros [rs m2]. cbn [fst snd]. by intros [-> Hm2].
Qed.
End refinement.

(** Two threads: add both, look an address up, remove the first one added. *)
Definition example_list_mem : mem :=
  list_to_map ((0x5000, 0) :: (0x5008, 0) ::
    flat_map (λ td, [(td_next td, 77); (td_user_stack_low td, 16 * td);
                     (td_user_stack_high td, 16 * td + 4096); (td_ref_count td, 1)]) [0x1000; 0x2000]).
Definition example_bounds (td : Z) : mem_range_t := {| low := 16 * td; high := 16 * td + 4096 |}.

Lemma thread_list_refines_witness :
  wp (run (run_ops (H := debug_build) 0x5000
        [Add 0x1000; Add 0x2000; Find 0x10010; Remove 0x1000; Find 0x10010]) example_list_mem)
     (λ x, x.1 = [0; 0; 0x1000; 0; 0] ∧
       repr 0x5000 [0x1000; 0x2000] example_bounds x.2
         {| al_tds := [0x2000]; al_refs := λ x, if x =? 0x1000 then int_of_u64 (1 + 1) else 1 |}).
Proof.
  apply (thread_list_refines (H := debug_build) 0x5000 [0x1000; 0x2000] example_bounds) with
    (a := {| al_tds := []; al_refs := λ _, 1 |}).
  - split; [split; [done|]|..]; intros td.
    + rewrite !elem_of_cons, elem_of_nil. lia.
    + rewrite !elem_of_cons, elem_of_nil. lia.
    + intros td'. rewrite !elem_of_cons, !elem_of_nil. lia.
  - assert (∀ P : Z → Prop, P 0x1000 → P 0x2000 → ∀ td, td ∈ [0x1000; 0x2000] → P td) as Htwo.
    { intros P ? ? td. rewrite !elem_of_cons, elem_of_nil. by intros [->|[->|[]]]. }
    split; [split|..]; cbn [al_tds al_refs]; try (apply Htwo; by eexists); try (by apply Htwo); try done.
    + exists 0. split; [reflexivity|done].
    + constructor.
    + intros td []%elem_of_nil.
    + unfold list_fuel. simpl. lia.
    + apply list_subseteq_nil.
  - repeat constructor; set_solver.
  - reflexivity.
Defined.

Lemma thread_list_remove_absent_witness :
  run (threadscan_util_thread_list_remove (H := release_build) 0x5000 0x2000)
    (<[0x5000 := 0]> example_list_mem) = UB.
Proof.
  apply (thread_list_remove_absent (H := release_build) 0x5000 0x2000 []); try done.
  - split; [done| |constructor| |unfold list_fuel; simpl; lia].
    + exists 0. split; [reflexivity|done].
    + intros td []%elem_of_nil.
  - apply not_elem_of_nil.
Defined.
