(* ===== verification/Thread.v ===== *)
(** * thread.c, proc.c: time stamps, the reclaimer lock and signals

    A thread that helps with a scan raises the flag bit of its local time
    stamp; the global time stamp carries the flag while a reclaimer is
    active.  Sending signals is the operating system's: [pthread_kill] is a
    parameter. *)

From S2P Require Import Prelude Conc Ghost Mem Env ThreadList.

(** ** util.h *)
Definition TIMESTAMP_MASK : Z := 0x7FFFFFFFFFFFFFFF.
Definition TIMESTAMP_FLAG : Z := 0x8000000000000000.
Definition TIMESTAMP (field : Z) : Z := Z.land field TIMESTAMP_MASK.
Definition TIMESTAMP_RAISE_FLAG (field : Z) : Z := Z.lor field TIMESTAMP_FLAG.
Definition TIMESTAMP_IS_ACTIVE (field : Z) : bool := negb (Z.land field TIMESTAMP_FLAG =? 0).
Definition TIMESTAMP_SET_ACTIVE (field : Z) : Z := TIMESTAMP_RAISE_FLAG field.

(** errno.h *)
Definition EINVAL : Z := 22.
Definition ESRCH : Z := 3.

(** The addresses of the static variables of proc.c, thread.c and
    threadscan.c. *)
Record globals_t := {
  thread_list_ : Z;
  global_timestamp : Z;
  self_stacks_searched : Z;
}.

Section code.
Context `{Build} (v : globals_t) (pthread_kill : Z → Z → prog Z Z).

(** ** thread.c *)
Definition threadscan_thread_cleanup_raise_flag (td : Z) : prog Z unit :=
  _ ← lift (c_assert (negb (td =? 0)));
  old_timestamp ← rd (td_local_timestamp td);
  _ ← wr (td_local_timestamp td) (TIMESTAMP_RAISE_FLAG old_timestamp);
  curr ← rd v.(global_timestamp);
  _ ← wr (td_local_timestamp td) (TIMESTAMP_RAISE_FLAG curr);
  if negb (TIMESTAMP curr =? old_timestamp) then wr (td_times_without_update td) 0
  else if negb (TIMESTAMP_IS_ACTIVE curr) then
    times ← rd (td_times_without_update td);
    if times <? 2 then
      times' ← lift (cint (times + 1));
      wr (td_times_without_update td) times'
    else mret tt
  else mret tt.

Definition threadscan_thread_cleanup_lower_flag (td : Z) : prog Z unit :=
  stamp ← rd (td_local_timestamp td);
  wr (td_local_timestamp td) (TIMESTAMP stamp).

(** ** proc.c *)
(** The inner loop only reads the stamp again and yields. *)
Definition threadscan_proc_wait_for_timestamp (curr : Z) : prog Z unit :=
  foreach_in_thread_list v.(thread_list_) (λ td _,
    _ ← lift (c_assert (negb (td =? 0)));
    _ ← await (td_local_timestamp td)
          (λ stamp, negb (TIMESTAMP_IS_ACTIVE stamp && negb (TIMESTAMP stamp =? curr)));
    mret tt) tt.

Definition threadscan_proc_signal_all_except (sig except : Z) : prog Z Z :=
  foreach_in_thread_list v.(thread_list_) (λ td signal_count,
    _ ← lift (c_assert (negb (td =? 0)));
    is_active ← (if negb (td =? except) then rd (td_is_active td) else mret 0);
    if negb (is_active =? 0) then
      self ← rd (td_self td);
      ret ← pthread_kill self sig;
      if ret =? EINVAL then lift threadscan_fatal
      else if ret =? ESRCH then mret signal_count (* a diagnostic *)
      else lift (cint (signal_count + 1))
    else mret signal_count) 0.

(** [me] is [threadscan_local_td]. *)
Definition threadscan_thread_signal_all_but_me (me sig : Z) : prog Z Z :=
  _ ← lift (c_assert (negb (me =? 0)));
  threadscan_proc_signal_all_except sig me.

(** The result is 1 if this thread is the reclaimer. *)
Definition threadscan_thread_cleanup_try_acquire : prog Z Z :=
  old_timestamp ← rd v.(global_timestamp);
  if TIMESTAMP_IS_ACTIVE old_timestamp then mret 0
  else
    let attempt := TIMESTAMP_SET_ACTIVE (u64 (old_timestamp + 1)) in
    swapped ← BCAS v.(global_timestamp) old_timestamp attempt;
    if negb swapped then mret 0
    else
      _ ← threadscan_proc_wait_for_timestamp (TIMESTAMP attempt);
      mret 1.

Definition threadscan_thread_cleanup_release : prog Z unit :=
  stamp ← rd v.(global_timestamp);
  wr v.(global_timestamp) (TIMESTAMP stamp).

(** The constructor of proc.c, before main. *)
Definition proc_init : prog Z unit := wr (tl_head v.(thread_list_)) 0.

Definition threadscan_thread_user_stack (td : Z) : prog Z mem_range_t :=
  low ← rd (td_user_stack_low td);
  high ← rd (td_user_stack_high td);
  mret {| low := low; high := high |}.
End code.

#[export] Hint Unfold thread_list_ : layout.

(** The list of threads starts out empty. *)
Lemma proc_init_ok `{Build} (v : globals_t) (m : mem) p :
  m !! tl_head v.(thread_list_) = Some p → m !! tl_lock v.(thread_list_) = Some 0 →
  ∃ m', run (proc_init v) m = Ret (tt, m') ∧ thread_list v.(thread_list_) m' [].
Proof.
  intros Hp Hl. assert (tl_head v.(thread_list_) ≠ tl_lock v.(thread_list_)) as Hne by (unfold tl_head, tl_lock; lia).
  eexists. split; [apply run_wr; by eexists|]. split.
  - by rewrite lookup_insert_ne.
  - exists 0. split; [apply lookup_insert_eq|done].
  - constructor.
  - by intros td ?%elem_of_nil.
  - unfold list_fuel. cbn. lia.
Qed.

(** ** Time stamps *)
Lemma TIMESTAMP_mod x : TIMESTAMP x = x `mod` 2 ^ 63.
Proof. unfold TIMESTAMP. change TIMESTAMP_MASK with (2 ^ 63 - 1). by apply land_low_mod. Qed.

Lemma TIMESTAMP_IS_ACTIVE_bit x : TIMESTAMP_IS_ACTIVE x = Z.testbit x 63.
Proof.
  unfold TIMESTAMP_IS_ACTIVE. change TIMESTAMP_FLAG with (2 ^ 63).
  destruct (Z.testbit x 63) eqn:Hb.
  - destruct (Z.eqb_spec (Z.land x (2 ^ 63)) 0) as [E|]; [|done].
    apply (f_equal (λ z, Z.testbit z 63)) in E. by rewrite Z.land_spec, Hb in E.
  - replace (Z.land x (2 ^ 63)) with 0; [done|]. symmetry. z_bits.
    rewrite Z.land_spec, Z.pow2_bits_eqb, Z.testbit_0_l by lia.
    destruct (Z.eqb_spec 63 n) as [<-|]; [by rewrite Hb|apply andb_false_r].
Qed.

Lemma TIMESTAMP_inactive x : TIMESTAMP_IS_ACTIVE (TIMESTAMP x) = false.
Proof.
  rewrite TIMESTAMP_IS_ACTIVE_bit, TIMESTAMP_mod. rewrite <- Z.land_ones by lia.
  rewrite Z.land_spec, Z.ones_spec_high by lia. apply andb_false_r.
Qed.

Lemma TIMESTAMP_RAISE_FLAG_active x : TIMESTAMP_IS_ACTIVE (TIMESTAMP_RAISE_FLAG x) = true.
Proof.
  rewrite TIMESTAMP_IS_ACTIVE_bit. unfold TIMESTAMP_RAISE_FLAG. change TIMESTAMP_FLAG with (2 ^ 63).
  rewrite Z.lor_spec, Z.pow2_bits_true by lia. apply orb_true_r.
Qed.

Lemma TIMESTAMP_SET_ACTIVE_stamp x : TIMESTAMP (TIMESTAMP_SET_ACTIVE x) = TIMESTAMP x.
Proof.
  unfold TIMESTAMP_SET_ACTIVE, TIMESTAMP_RAISE_FLAG, TIMESTAMP.
  rewrite Z.land_lor_distr_l. change (Z.land TIMESTAMP_FLAG TIMESTAMP_MASK) with 0. apply Z.lor_0_r.
Qed.
