(* ===== verification/Lock.v ===== *)
(** * thread.c: the reclaimer lock

    The flag of the global time stamp is a try-lock: [threadscan_thread_cleanup_try_acquire]
    raises it with a compare-and-swap, [threadscan_thread_cleanup_release]
    lowers it.  Here any number of threads compete for it, and whoever wins
    runs a section of code on data that only the winner may touch. *)

From S2P Require Import Prelude Conc Ghost Mem Env ThreadList Thread.

(** What a thread does that wants to reclaim; [critical_section] is the code
    between the two calls. *)
Definition competitor `{Build} (v : globals_t) (critical_section : prog Z unit) : prog Z Z :=
  acquired ← threadscan_thread_cleanup_try_acquire v;
  if negb (acquired =? 0) then
    _ ← critical_section;
    _ ← threadscan_thread_cleanup_release v;
    mret acquired
  else mret acquired.

Section lock.
Context `{Build} (v : globals_t) (tds : list Z).

(** The data the lock protects: the words [D], and what holds of them when
    nobody holds the lock. *)
Context (D : Z → Prop) (I : mem → Prop) (m0 : mem) (n : nat).

Definition same_data (m m' : mem) : Prop := ∀ a, D a → m' !! a = m !! a.
Definition only_data (m m' : mem) : Prop := ∀ a, ¬ D a → m' !! a = m !! a.

(** The words the lock itself uses. *)
Definition lock_word (a : Z) : Prop :=
  a = v.(global_timestamp) ∨ a = tl_lock v.(thread_list_) ∨ a = tl_head v.(thread_list_) ∨
  ∃ td, td ∈ tds ∧ (a = td_next td ∨ a = td_local_timestamp td).

(** Nobody holds the lock, and nobody helps a reclaimer. *)
Record lock_free : Prop := {
  lf_list : thread_list v.(thread_list_) m0 tds;
  lf_stamp : ∃ x, m0 !! v.(global_timestamp) = Some x ∧ TIMESTAMP_IS_ACTIVE x = false;
  lf_idle : ∀ td, td ∈ tds → ∃ x, m0 !! td_local_timestamp td = Some x ∧ TIMESTAMP_IS_ACTIVE x = false;
  lf_sep : v.(global_timestamp) ≠ tl_lock v.(thread_list_) ∧
    ∀ a, a ∈ [v.(global_timestamp); tl_lock v.(thread_list_)] →
      a ≠ tl_head v.(thread_list_) ∧ ∀ td, td ∈ tds → a ≠ td_next td ∧ a ≠ td_local_timestamp td;
  lf_data : ∀ a, D a → ¬ lock_word a;
  lf_inv : I m0;
  lf_frame : ∀ m m', same_data m m' → I m → I m';
}.

Context (Hfree : lock_free).
Context (sections : nat → prog Z unit).
Context (Hsections : ∀ i m, I m → rg same_data only_data (sections i) (λ _ m', I m') m).

(** The auxiliary state: who holds the lock, and who was the first to. *)
Definition aux : Type := option nat * option nat.
Implicit Types s : mem * aux.

Record inv s : Prop := {
  in_stamp : ∃ x, s.1 !! v.(global_timestamp) = Some x ∧ (TIMESTAMP_IS_ACTIVE x = true ↔ s.2.1 ≠ None) ∧
               (s.2.2 = None → m0 !! v.(global_timestamp) = Some x);
  in_free : s.2.1 = None → I s.1 ∧ s.1 !! tl_lock v.(thread_list_) = Some 0;
  in_fixed : ∀ a, lock_word a → a ≠ v.(global_timestamp) → a ≠ tl_lock v.(thread_list_) → s.1 !! a = m0 !! a;
  in_first : s.2.1 ≠ None → s.2.2 ≠ None;
  in_bound : ∀ i, s.2.1 = Some i ∨ s.2.2 = Some i → (i < n)%nat;
}.

(** What a thread that does not hold the lock leaves alone. *)
Definition untouched s s' : Prop :=
  same_data s.1 s'.1 ∧ s'.1 !! v.(global_timestamp) = s.1 !! v.(global_timestamp) ∧
  s'.1 !! tl_lock v.(thread_list_) = s.1 !! tl_lock v.(thread_list_).

Definition R (i : nat) s s' : Prop :=
  (inv s → inv s') ∧ (s.2.2 ≠ None → s'.2.2 = s.2.2) ∧ (s'.2.2 = Some i → s.2.2 = Some i) ∧
  (s.2.1 = Some i ↔ s'.2.1 = Some i) ∧ (s.2.1 = Some i → untouched s s').
Definition G (i : nat) s s' : Prop :=
  (inv s → inv s') ∧ (s.2.2 ≠ None → s'.2.2 = s.2.2) ∧
  ∀ j, j ≠ i → (s'.2.2 = Some j → s.2.2 = Some j) ∧ (s.2.1 = Some j ↔ s'.2.1 = Some j) ∧
    (s.2.1 = Some j → untouched s s').

(** Nobody ever waits. *)
Definition W (i : nat) s : Prop := False.

Definition Q (i : nat) (r : Z) s : Prop :=
  inv s ∧ s.2.1 ≠ Some i ∧ s.2.2 ≠ None ∧ (s.2.2 = Some i → r = 1).

Lemma lock_R_refl i : Reflexive (R i).
Proof. intros s. by do 4 (split; [done|]). Qed.

Lemma lock_R_trans i : Transitive (R i).
Proof.
  intros s1 s2 s3 (H1 & H2 & H3 & H4 & H5) (H1' & H2' & H3' & H4' & H5').
  split; [auto|]. split; [intros Hf; rewrite H2'; [by apply H2|by rewrite H2]|]. split; [auto|].
  split; [by rewrite H4|]. intros Ho.
  destruct (H5 Ho) as (E1 & E2 & E3). destruct (H5' (proj1 H4 Ho)) as (F1 & F2 & F3).
  split; [intros a Ha; by rewrite F1, E1|]. split; congruence.
Qed.

Lemma lock_G_R i j s s' : i ≠ j → G i s s' → R j s s'.
Proof. intros Hij (H1 & H2 & H3). destruct (H3 j) as (H4 & H5 & H6); [done|]. by do 4 (split; [done|]). Qed.

(** Thread [i] does not hold the lock; thread [i] holds it. *)
Definition outside i s : Prop := inv s ∧ s.2.1 ≠ Some i ∧ s.2.2 ≠ Some i ∧ (i < n)%nat.
Definition inside i (x : Z) s : Prop :=
  inv s ∧ s.2.1 = Some i ∧ I s.1 ∧ s.1 !! tl_lock v.(thread_list_) = Some x.

Lemma outside_R i s s' : R i s s' → outside i s → outside i s'.
Proof.
  intros (H1 & H2 & H3 & H4 & _) (Hi & Ho & Hf & Hn). split; [auto|]. split; [by rewrite <- H4|auto].
Qed.

Lemma inside_R i x s s' : R i s s' → inside i x s → inside i x s'.
Proof.
  intros (H1 & H2 & H3 & H4 & H5) (Hi & Ho & HI & Hl). destruct (H5 Ho) as (E1 & E2 & E3).
  split; [auto|]. split; [by apply H4|]. split; [by eapply lf_frame|congruence].
Qed.

Lemma data_not_stamp a : D a → a ≠ v.(global_timestamp) ∧ a ≠ tl_lock v.(thread_list_).
Proof.
  intros Ha. pose proof (lf_data Hfree a Ha) as Hn.
  split; intros ->; apply Hn; [by left|by right; left].
Qed.

Lemma I_insert m a x : a = v.(global_timestamp) ∨ a = tl_lock v.(thread_list_) → I m → I (<[a := x]> m).
Proof.
  intros Ha. apply (lf_frame Hfree). intros b Hb. destruct (data_not_stamp b Hb).
  rewrite lookup_insert_ne; [done|]. destruct Ha; congruence.
Qed.

Lemma fixed_insert s a x γ : a = v.(global_timestamp) ∨ a = tl_lock v.(thread_list_) → inv s →
  ∀ b, lock_word b → b ≠ v.(global_timestamp) → b ≠ tl_lock v.(thread_list_) →
    (<[a := x]> s.1, γ : aux).1 !! b = m0 !! b.
Proof.
  intros Ha Hi b Hb H1 H2. cbn. rewrite lookup_insert_ne; [by apply (in_fixed _ Hi)|]. destruct Ha; congruence.
Qed.

(** Each step of the lock. *)
Lemma acquire_step i s x y :
  outside i s → s.1 !! v.(global_timestamp) = Some x → TIMESTAMP_IS_ACTIVE x = false → TIMESTAMP_IS_ACTIVE y = true →
  let s' := (<[v.(global_timestamp) := y]> s.1,
             (Some i, match s.2.2 with Some j => Some j | None => Some i end)) in
  G i s s' ∧ inside i 0 s'.
Proof.
  intros (Hi & Ho & Hf & Hn) Hx Hxi Hy s'. destruct (in_stamp _ Hi) as (x' & Hx' & Hact & _).
  assert (x' = x) as -> by congruence.
  assert (s.2.1 = None) as Hnone. { destruct (s.2.1); [|done]. rewrite Hxi in Hact. destruct Hact as [_ Ha]. by specialize (Ha ltac:(done)). }
  destruct (in_free _ Hi Hnone) as [HI Hl]. destruct (lf_sep Hfree) as [Hgl _].
  assert (inv s') as Hi'.
  { split; cbn.
    - exists y. rewrite lookup_insert_eq. split; [done|]. split; [done|]. by destruct (s.2.2).
    - done.
    - apply (fixed_insert s _ _ s'.2); [by left|done].
    - by destruct (s.2.2).
    - intros j [[= <-]|Hj]; [done|]. destruct (s.2.2) eqn:E; [|congruence]. apply (in_bound _ Hi). right. congruence. }
  split; [|split; [done|split; [done|split; cbn]]].
  - split; [done|]. split; [by cbn; destruct (s.2.2)|]. intros j Hj. cbn. rewrite Hnone. split; [|split; [split|]].
    + destruct (s.2.2); [done|]. congruence.
    + done.
    + congruence.
    + done.
  - apply I_insert; [by left|done].
  - by rewrite lookup_insert_ne.
Qed.

Lemma release_step i s y :
  inside i 0 s → TIMESTAMP_IS_ACTIVE y = false →
  let s' := (<[v.(global_timestamp) := y]> s.1, (None, s.2.2)) in
  G i s s' ∧ inv s' ∧ s'.2.1 ≠ Some i ∧ s'.2.2 ≠ None.
Proof.
  intros (Hi & Ho & HI & Hl) Hy s'. destruct (lf_sep Hfree) as [Hgl _].
  pose proof (in_first _ Hi ltac:(by rewrite Ho)) as Hf.
  assert (inv s') as Hi'.
  { split; cbn.
    - exists y. rewrite lookup_insert_eq. split; [done|]. by rewrite Hy.
    - intros _. split; [apply I_insert; [by left|done]|by rewrite lookup_insert_ne].
    - apply (fixed_insert s _ _ s'.2); [by left|done].
    - done.
    - intros j [?|Hj]; [done|]. apply (in_bound _ Hi). by right. }
  split; [|done]. split; [done|]. split; [done|]. intros j Hj. cbn. rewrite Ho. split; [done|].
  split; [split; congruence|]. congruence.
Qed.

(** The lock of the thread list, which only the holder takes. *)
Lemma list_lock_step i s x y :
  inside i x s → G i s (<[tl_lock v.(thread_list_) := y]> s.1, s.2) ∧
                 inside i y (<[tl_lock v.(thread_list_) := y]> s.1, s.2).
Proof.
  intros (Hi & Ho & HI & Hl). destruct (lf_sep Hfree) as [Hgl _].
  assert (inv (<[tl_lock v.(thread_list_) := y]> s.1, s.2)) as Hi'.
  { split; cbn.
    - rewrite lookup_insert_ne by done. apply (in_stamp _ Hi).
    - by rewrite Ho.
    - apply (fixed_insert s _ _ s.2); [by right|done].
    - by apply (in_first _ Hi).
    - apply (in_bound _ Hi). }
  split; [|split; [done|split; [done|split; cbn]]].
  - split; [done|]. split; [done|]. intros j Hj. cbn. rewrite Ho. split; [done|]. split; [done|]. congruence.
  - apply I_insert; [by right|done].
  - by rewrite lookup_insert_eq.
Qed.

Lemma in_fixed_list i x s a : inside i x s →
  (a = tl_head v.(thread_list_) ∨ ∃ td, td ∈ tds ∧ (a = td_next td ∨ a = td_local_timestamp td)) → s.1 !! a = m0 !! a.
Proof.
  intros [Hi _] Ha. destruct (lf_sep Hfree) as [_ Hsep].
  destruct (Hsep v.(global_timestamp)) as [G1 G2]; [by left|].
  destruct (Hsep (tl_lock v.(thread_list_))) as [L1 L2]; [by right; left|].
  apply (in_fixed _ Hi).
  - right; right. destruct Ha as [->|Ha]; [by left|by right].
  - destruct Ha as [->|(td & Htd & [->| ->])]; [done|apply not_eq_sym, G2, Htd..].
  - destruct Ha as [->|(td & Htd & [->| ->])]; [done|apply not_eq_sym, L2, Htd..].
Qed.

(** Nobody helps: the winner does not wait. *)
Lemma wait_for_timestamp_grg i curr s :
  inside i 0 s →
  grg (R i) (G i) (W i) (threadscan_proc_wait_for_timestamp v curr) (λ _, inside i 0) s.
Proof.
  intros Hs. unfold threadscan_proc_wait_for_timestamp, foreach_in_thread_list.
  destruct (lf_list Hfree) as [_ (p & Hp & Hl) _ _ Hlen].
  apply grg_bind; [apply lock_R_refl|]. eapply grg_mono with (P := λ _, inside i 1).
  { unfold pthread_mutex_lock. apply grg_bind_rmw. intros s1 S1. pose proof (inside_R _ _ _ _ S1 Hs) as Hs1.
    destruct (list_lock_step i s1 0 1 Hs1) as [HG Hs2]. destruct Hs1 as (_ & _ & _ & Hlk).
    simpl sread. rewrite Hlk. apply wp_ret. simpl swrite. rewrite Hlk. apply wp_ret.
    exists s1.2. split; [done|]. apply grg_ret. intros s3 S3. by eapply inside_R. }
  intros u s1 Hs1. apply grg_bind_rd. intros s2 S2. pose proof (inside_R _ _ _ _ S2 Hs1) as Hs2.
  simpl sread. rewrite (in_fixed_list _ _ _ _ Hs2 ltac:(by left)), Hp. apply wp_ret.
  apply grg_bind; [apply lock_R_refl|]. eapply grg_mono with (P := λ _, inside i 1).
  { apply (grg_foreach_loop (R i) (G i) (W i) _ m0 tds (λ _ _, inside i 1)) with (visited := []) (todo := tds);
      [apply lock_R_refl|intros vis w st st' S J; exact (inside_R _ _ _ _ S J)| | |done|done|lia|done].
    - intros _ _ st td Hst Htd. apply (in_fixed_list _ _ _ _ Hst). right. exists td. auto.
    - intros visited td todo _ st Htds Hst.
      assert (td ∈ tds) as Htd by (rewrite Htds; apply elem_of_app; right; by left).
      assert (td ≠ 0) as Hnz by (by eapply tlist_nonzero).
      apply grg_bind_lift. rewrite c_assert_true by lia. apply wp_ret.
      apply grg_bind_await. intros st1 S1. pose proof (inside_R _ _ _ _ S1 Hst) as Hst1.
      destruct (lf_idle Hfree td Htd) as (x & Hx & Hxi).
      simpl sread. rewrite (in_fixed_list _ _ _ _ Hst1) by (right; exists td; auto). rewrite Hx.
      apply wp_ret. rewrite Hxi. cbn [andb negb]. apply grg_ret. intros st2 S2'. by eapply inside_R. }
  intros u' s3 Hs3. apply grg_bind; [apply lock_R_refl|]. unfold pthread_mutex_unlock.
  apply grg_wr. intros s4 S4. pose proof (inside_R _ _ _ _ S4 Hs3) as Hs4.
  destruct (list_lock_step i s4 1 0 Hs4) as [HG Hs5]. destruct Hs4 as (_ & _ & _ & Hlk).
  simpl swrite. rewrite Hlk. apply wp_ret. exists s4.2. split; [done|]. intros s6 S6.
  apply grg_ret. intros s7 S7. eapply inside_R; [exact S7|]. by eapply inside_R.
Qed.

(** The three ways [try_acquire] ends. *)
Lemma try_acquire_grg i s :
  outside i s →
  grg (R i) (G i) (W i) (threadscan_thread_cleanup_try_acquire v)
    (λ r s', r = 0 ∧ Q i 0 s' ∨ r = 1 ∧ inside i 0 s') s.
Proof.
  intros Hs. unfold threadscan_thread_cleanup_try_acquire.
  apply grg_bind_rd. intros s1 S1. pose proof (outside_R _ _ _ S1 Hs) as Hs1. pose proof Hs1 as (Hi1 & Ho1 & Hf1 & _).
  destruct (in_stamp _ Hi1) as (x & Hx & Hact & Hx0). simpl sread. rewrite Hx. apply wp_ret.
  destruct (TIMESTAMP_IS_ACTIVE x) eqn:Hxi.
  - (* somebody holds the lock *)
    apply grg_ret. intros s2 S2. left. split; [done|]. pose proof (outside_R _ _ _ S2 Hs1) as (Hi2 & Ho2 & Hf2 & _).
    split; [done|]. split; [done|]. split; [|done].
    destruct S2 as (_ & Hk & _). rewrite Hk; apply (in_first _ Hi1), Hact; done.
  - unfold BCAS. apply grg_bind; [apply lock_R_refl|]. apply grg_bind_rmw. intros s2 S2.
    pose proof (outside_R _ _ _ S2 Hs1) as Hs2. pose proof Hs2 as (Hi2 & Ho2 & Hf2 & _).
    destruct (in_stamp _ Hi2) as (y & Hy & Hacty & Hy0). simpl sread. rewrite Hy. apply wp_ret.
    simpl swrite. rewrite Hy. destruct (Z.eqb_spec y x) as [->|Hne].
    + destruct (acquire_step i s2 x (TIMESTAMP_SET_ACTIVE (u64 (x + 1))) Hs2 Hy Hxi) as [HG Hin];
        [apply TIMESTAMP_RAISE_FLAG_active|].
      apply wp_ret. eexists. split; [exact HG|]. apply grg_ret. intros s3 S3.
      pose proof (inside_R _ _ _ _ S3 Hin) as Hs3. cbn [negb].
      apply grg_bind; [apply lock_R_refl|]. eapply grg_mono; [by apply wait_for_timestamp_grg|].
      intros u s4 Hs4. apply grg_ret. intros s5 S5. right. split; [done|]. by eapply inside_R.
    + (* the stamp changed: somebody else has had the lock *)
      apply wp_ret. exists s2.2.
      assert ((<[global_timestamp v := y]> s2.1, s2.2) = s2) as ->.
      { destruct s2; cbn in *. by rewrite insert_id. }
      split; [split; [done|]; split; [done|]; by intros|].
      apply grg_ret. intros s3 S3. cbn [negb].
      apply grg_ret. intros s4 S4. left. split; [done|].
      pose proof (outside_R _ _ _ S4 (outside_R _ _ _ S3 Hs2)) as (Hi4 & Ho4 & Hf4 & _).
      split; [done|]. split; [done|]. split; [|done].
      assert (s2.2.2 ≠ None) as Hsome.
      { intros Hn. destruct (s1.2.2) eqn:E1.
        - destruct S2 as (_ & Hk & _). rewrite Hk in Hn; by rewrite E1 in *.
        - specialize (Hy0 Hn). specialize (Hx0 eq_refl). congruence. }
      destruct S3 as (_ & Hk3 & _), S4 as (_ & Hk4 & _). rewrite Hk4, Hk3 by (try rewrite Hk3; done). done.
Qed.

Lemma competitor_grg i s : outside i s → grg (R i) (G i) (W i) (competitor v (sections i)) (Q i) s.
Proof.
  intros Hs. unfold competitor. apply grg_bind; [apply lock_R_refl|].
  eapply grg_mono; [by apply try_acquire_grg|]. intros r s1 [[-> HQ]|[-> Hs1]].
  - apply grg_ret. intros s2 S2. cbn. destruct HQ as (Hi & Ho & Hf & Hr).
    pose proof S2 as (H1 & H2 & H3 & H4 & _). split; [auto|]. split; [by rewrite <- H4|].
    split; [by rewrite H2|]. rewrite H2; done.
  - cbn [negb Z.eqb]. apply grg_bind; [apply lock_R_refl|]. eapply grg_mono.
    { apply (grg_of_rg_inv (R i) (G i) (W i) (λ s, inv s ∧ s.2.1 = Some i ∧ s.1 !! tl_lock v.(thread_list_) = Some 0)
        same_data only_data _ (λ _ m', I m')).
      - intros s2 s3 S (Hi & Ho & Hl). pose proof S as (H1 & H2 & H3 & H4 & H5). destruct (H5 Ho) as (E1 & E2 & E3).
        split; [|done]. split; [auto|]. split; [by apply H4|congruence].
      - intros m m' γ (Hi & Ho & Hl) Hd. cbn in Ho, Hl.
        assert (∀ a, lock_word a → m' !! a = m !! a) as Hlw.
        { intros a Ha. apply Hd. intros Hda. by destruct (lf_data Hfree a Hda). }
        assert (m' !! global_timestamp v = m !! global_timestamp v) as Eg by (apply Hlw; by left).
        assert (m' !! tl_lock v.(thread_list_) = m !! tl_lock v.(thread_list_)) as El by (apply Hlw; by right; left).
        assert (inv (m', γ)) as Hi'.
        { destruct Hi as [K1 K2 K3 K4 K5]. cbn in *. split; cbn; [by rewrite Eg|by rewrite Ho| |done|done].
          intros a Ha ??. rewrite Hlw by done. by apply K3. }
        split; [split; [done|split; [done|cbn; congruence]]|].
        split; [done|]. split; [done|]. intros j Hj. cbn. split; [done|]. split; [done|]. rewrite Ho. congruence.
      - destruct Hs1 as (? & ? & ? & ?). by split.
      - apply Hsections. apply Hs1. }
    intros u s2 [(Hi & Ho & Hl) HI]. cbv beta in HI.
    assert (inside i 0 s2) as Hs2 by (by split).
    apply grg_bind; [apply lock_R_refl|]. unfold threadscan_thread_cleanup_release.
    apply grg_bind_rd. intros s3 S3. pose proof (inside_R _ _ _ _ S3 Hs2) as Hs3.
    destruct (in_stamp _ (proj1 Hs3)) as (x & Hx & _). simpl sread. rewrite Hx. apply wp_ret.
    apply grg_wr. intros s4 S4. pose proof (inside_R _ _ _ _ S4 Hs3) as Hs4.
    destruct (in_stamp _ (proj1 Hs4)) as (y & Hy & _). simpl swrite. rewrite Hy. apply wp_ret.
    destruct (release_step i s4 (TIMESTAMP x) Hs4 (TIMESTAMP_inactive x)) as (HG & Hi5 & Ho5 & Hf5).
    eexists. split; [exact HG|]. intros s5 S5. apply grg_ret. intros s6 S6.
    assert (R i (<[global_timestamp v:=TIMESTAMP x]> s4.1, (None, s4.2.2)) s6) as (H1 & H2 & H3 & H4 & _)
      by exact (lock_R_trans i _ _ _ S5 S6).
    split; [auto|]. split; [by rewrite <- H4|]. split; [by rewrite H2|done].
Qed.

(** ** Any number of competitors *)
Definition lock_pool : list (prog Z Z) := (λ i, competitor v (sections i)) <$> seq 0 n.

Lemma lock_inv_start : inv (m0, (None, None)).
Proof.
  destruct (lf_stamp Hfree) as (x & Hx & Hxi). split; cbn; try done.
  - exists x. split; [done|]. by rewrite Hxi.
  - intros _. split; [apply (lf_inv Hfree)|apply (tl_free _ _ _ (lf_list Hfree))].
  - by intros i [?|?].
Qed.

Lemma lock_reachable ps m :
  rtc pstep (lock_pool, m0) (ps, m) →
  ∃ γ, gpool_ok R G W Q (ps, m) γ ∧ inv (m, γ).
Proof.
  intros Hrun.
  apply (gpool_ok_rtc R G W Q lock_R_refl lock_R_trans lock_G_R inv (lock_pool, m0) (ps, m) (None, None)); try done.
  - intros i s s' HG Hi. by apply HG.
  - intros i p. cbn. unfold lock_pool. rewrite list_lookup_fmap. intros (k & Hk & ->)%fmap_Some.
    apply lookup_seq in Hk as [-> Hk]. apply competitor_grg. split; [apply lock_inv_start|]. split; [done|]. by split.
  - apply lock_inv_start.
Qed.
End lock.

(** C9. The flag of the global time stamp is a lock.  For any number of
    threads that try to acquire it, run a critical section if they did and
    release it, in every interleaving: no thread is ever at fault or waits,
    so all of them finish; the critical sections exclude one another, since
    each of them is proved only for data nobody else touches and what they
    keep invariant holds at the end; the flag is lowered again; and if there
    is a thread at all, one of them acquired the lock. *)
Theorem reclaimer_lock_excludes `{Build} (v : globals_t) (tds : list Z) (D : Z → Prop) (I : mem → Prop)
    (m0 m : mem) (sections : nat → prog Z unit) (n : nat) (ps : list (prog Z Z)) :
  lock_free v tds D I m0 →
  (∀ i m, I m → rg (same_data D) (only_data D) (sections i) (λ _ m', I m') m) →
  rtc pstep (lock_pool v n sections, m0) (ps, m) →
  (∀ i p, ps !! i = Some p → ¬ faulty p m ∧ ¬ blocked p m) ∧
  (Forall finished ps ∨ ∃ c', pstep (ps, m) c') ∧
  Acc (λ c' c, pstep c c') (ps, m) ∧
  (Forall finished ps → I m ∧
     (∃ stamp, m !! v.(global_timestamp) = Some stamp ∧ TIMESTAMP_IS_ACTIVE stamp = false) ∧
     ((0 < n)%nat → Stop (Ret 1) ∈ ps)).
Proof.
  intros Hfree Hsec Hrun.
  destruct (lock_reachable v tds D I m0 n Hfree sections Hsec ps m Hrun) as (γ & Hok & Hi).
  pose proof (lock_R_refl v tds D I m0 n) as HRR.
  assert (∀ i p, ps !! i = Some p → ¬ faulty p m ∧ ¬ blocked p m) as Hsafe.
  { intros i p Hp. split.
    - exact (gpool_ok_safe _ _ _ _ HRR (ps, m) γ i p Hok Hp).
    - intros Hb. exact (gpool_ok_blocked _ _ _ _ HRR (ps, m) γ i p Hok Hp Hb). }
  split; [done|]. split; [|split; [apply pstep_wf|]].
  - destruct (not_faulty_progress ps m) as [Hall|?]; [intros i p Hp; by apply (Hsafe i p)| |by right].
    left. apply Forall_lookup_2. intros i p Hp. rewrite Forall_lookup in Hall.
    destruct (Hall i p Hp) as [?|Hb]; [done|]. by destruct (Hsafe i p Hp) as [_ ?].
  - intros Hall. rewrite Forall_lookup in Hall. pose proof (pstep_length _ _ Hrun) as Hlen. cbn in Hlen.
    assert (length (lock_pool v n sections) = n) as Hn by (unfold lock_pool; by rewrite length_fmap, length_seq).
    assert (∀ i, (i < n)%nat → ∃ r, ps !! i = Some (Stop (Ret r)) ∧ Q v tds I m0 n i r (m, γ)) as Hpost.
    { intros i Hin. destruct (lookup_lt_is_Some_2 ps i) as [p Hp]; [lia|]. destruct (Hall i p Hp) as [r ->].
      exists r. split; [done|]. exact (gpool_ok_post _ _ _ _ HRR (ps, m) γ i r Hok Hp). }
    assert (γ.1 = None) as Howner.
    { destruct (γ.1) as [i|] eqn:E; [|done].
      destruct (Hpost i) as (r & _ & _ & Ho & _); [apply (in_bound _ _ _ _ _ _ Hi); by left|done]. }
    split; [by apply (in_free _ _ _ _ _ _ Hi)|]. split.
    + destruct (in_stamp _ _ _ _ _ _ Hi) as (x & Hx & Hact & _). exists x. split; [done|].
      destruct (TIMESTAMP_IS_ACTIVE x); [|done]. by destruct (proj1 Hact eq_refl).
    + intros Hn0. destruct (Hpost 0%nat Hn0) as (_ & _ & _ & _ & Hf & _). cbn in Hf.
      destruct (γ.2) as [k|] eqn:E; [|done].
      destruct (Hpost k) as (r & Hr & _ & _ & _ & Hone); [apply (in_bound _ _ _ _ _ _ Hi); by right|].
      rewrite (Hone E) in Hr. by eapply list_elem_of_lookup_2.
Qed.

(** ** Two threads

    The critical section checks that nobody else is in it. *)
Definition busy_section (busy : Z) : prog Z unit :=
  x ← rd busy;
  _ ← lift (c_assert (H := debug_build) (x =? 0));
  _ ← wr busy 1;
  wr busy 0.

Definition ex_lock_vars : globals_t :=
  {| thread_list_ := 0x5000; global_timestamp := 0x6000; self_stacks_searched := 0x6008 |}.
Definition ex_lock_mem : mem := list_to_map
  [(0x5000, 0x100000); (0x5008, 0); (0x6000, 2); (0x8000, 0);
   (td_next 0x100000, 0); (td_local_timestamp 0x100000, 1)].

Lemma ex_lock_free :
  lock_free ex_lock_vars [0x100000] (λ a, a = 0x8000) (λ m, m !! 0x8000 = Some 0) ex_lock_mem.
Proof.
  split.
  - split; [done|..].
    + exists 0x100000. split; [done|]. split; [done|]. split; [done|]. by exists 0.
    + repeat constructor. apply not_elem_of_nil.
    + by intros td ->%list_elem_of_singleton.
    + unfold list_fuel. simpl. lia.
  - by exists 2.
  - intros td ->%list_elem_of_singleton. by exists 1.
  - split; [done|]. intros a [->| ->%list_elem_of_singleton]%elem_of_cons; (split; [done|]);
      by intros td ->%list_elem_of_singleton.
  - intros a -> [?|[?|[?|(td & ->%list_elem_of_singleton & [?|?])]]]; done.
  - done.
  - intros m m' Hs Hm. by rewrite Hs.
Qed.

Lemma busy_section_ok (m : mem) : m !! 0x8000 = Some 0 →
  rg (same_data (λ a, a = 0x8000)) (only_data (λ a, a = 0x8000)) (busy_section 0x8000)
    (λ _ m', m' !! 0x8000 = Some 0) m.
Proof.
  intros Hm. apply rg_bind_read. intros m1 S1. exists 0. rewrite (S1 0x8000 eq_refl). split; [done|].
  intros m2 S2. simpl swrite.
  rewrite (S2 0x8000 eq_refl), (S1 0x8000 eq_refl), Hm. apply wp_ret.
  split; [intros a Ha; by rewrite lookup_insert_ne by congruence|].
  intros m3 S3. simpl swrite. rewrite (S3 0x8000 eq_refl), lookup_insert_eq. apply wp_ret.
  split; [intros a Ha; by rewrite lookup_insert_ne by congruence|].
  intros m4 S4. apply wp_ret. by rewrite (S4 0x8000 eq_refl), lookup_insert_eq.
Qed.

Lemma reclaimer_lock_excludes_witness :
  let c := psched (concat (replicate 30 [0%nat; 1%nat; 1%nat]))
             (lock_pool (H := debug_build) ex_lock_vars 2 (λ _, busy_section 0x8000), ex_lock_mem) in
  c.1 = [Stop (Ret 0); Stop (Ret 1)] ∧ c.2 !! 0x8000 = Some 0 ∧ Stop (Ret 1) ∈ c.1.
Proof.
  intros c.
  assert (c.1 = [Stop (Ret 0); Stop (Ret 1)]) as Hc by (vm_compute; reflexivity).
  split; [exact Hc|].
  destruct (reclaimer_lock_excludes (H := debug_build) ex_lock_vars [0x100000] (λ a, a = 0x8000)
    (λ m, m !! 0x8000 = Some 0) ex_lock_mem c.2 (λ _, busy_section 0x8000) 2 c.1
    ex_lock_free (λ _ m Hm, busy_section_ok m Hm)) as (_ & _ & _ & Hfin).
  - rewrite <- surjective_pairing. apply psched_rtc.
  - destruct Hfin as (H1 & _ & H2); [rewrite Hc; repeat constructor; by eexists|].
    split; [exact H1|]. apply H2. lia.
Defined.
