(* ===== verification/Search.v ===== *)
(** * threadscan.c: scanning memory for references

    The addresses being reclaimed are in the sorted array [buf_addrs]; the
    scan map holds the first address of each page of it.  [do_search] looks
    every word of a memory range up and sets the low bit of the addresses it
    finds.  All threads scan at the same time, without a lock, so the code is
    a shared-memory program on a word-addressed memory. *)

From S2P Require Import Prelude Conc Mem.

(** ** Macros *)
Definition BINARY_THRESHOLD : Z := 32.
Definition PTR_MASK (v : Z) : Z := Z.land v (Z.lnot 3).

(** ** Types *)
Record threadscan_data_t := {
  max_ptrs : Z;
  n_addrs : Z;
  buf_addrs : Z;
  n_scan_map : Z;
  buf_scan_map : Z;
  working_buffer_sz : Z;
  scan_map_offset : Z; (* offset_list[SCAN_MAP_OFFSET] *)
  storage : Z;
}.

(** What a thread scans of its own: the stack from its stack pointer on, and
    the block it registered. *)
Record scanner := { rsp : Z; user_stack : mem_range_t; local_block : mem_range_t }.

Section code.
Context `{Build}.

Definition SET_LOW_BIT (p : Z) : prog Z unit :=
  v ← rd p;
  if Z.land v 1 =? 0 then wr p (v + 1) else mret tt.

(** Only in debug builds; a macro that expands to nothing otherwise. *)
Definition assert_monotonicity (a n : Z) : prog Z unit :=
  if debug then
    _ ← pfor_range 0 n (λ i last,
      x ← rd (elt a i);
      if x <=? last then lift threadscan_fatal
      else rd (elt a i)) 0;
    mret tt
  else mret tt.

(** The [for] loop of [iterative_search], [k = max - min] steps. *)
Fixpoint iterative_loop (k : nat) (val a min : Z) : prog Z Z :=
  match k with
  | O => mret (min - 1)
  | S k' =>
      cmp ← rd (elt a min);
      if cmp =? val then mret min
      else if cmp >? val then mret (min - 1)
      else iterative_loop k' val a (min + 1)
  end.

Definition iterative_search (val a min max : Z) : prog Z Z :=
  x ← rd (elt a min);
  if (x >? val) || (min =? max) then mret min
  else iterative_loop (Z.to_nat (max - min)) val a min.

Fixpoint binary_loop (fuel : nat) (val a min max : Z) : prog Z Z :=
  match fuel with
  | O => lift OutOfFuel
  | S fuel' =>
      if max - min >=? BINARY_THRESHOLD then
        sum ← lift (cint (max + min));
        let mid := Z.quot sum 2 in
        cmp ← rd (elt a mid);
        if cmp =? val then mret mid
        else if cmp >? val then binary_loop fuel' val a min mid
        else binary_loop fuel' val a mid max
      else iterative_search val a min max
  end.

(** Each iteration shrinks the interval. *)
Definition binary_search (val a min max : Z) : prog Z Z :=
  binary_loop (S (Z.to_nat (max - min))) val a min max.

Context (g : threadscan_data_t).

(** The number of addresses on a page: [PAGESIZE / sizeof(size_t)]. *)
Definition per_page : Z := PAGESIZE / sizeof_size_t.

(** The body of the loop of [do_search], once the word is read. *)
Definition search_value (min_ptr max_ptr w : Z) : prog Z unit :=
  let cmp := PTR_MASK w in
  if (cmp <? min_ptr) || (cmp >? max_ptr) then mret tt
  else if min_ptr =? cmp then SET_LOW_BIT (elt g.(buf_addrs) 0)
  else if max_ptr =? cmp then SET_LOW_BIT (elt g.(buf_addrs) (g.(n_addrs) - 1))
  else
    v ← binary_search cmp g.(buf_scan_map) 0 g.(n_scan_map);
    loc ← binary_search cmp g.(buf_addrs) (int_of_u64 (u64 (v * per_page)))
            (if v =? g.(n_scan_map) - 1 then g.(n_addrs)
             else int_of_u64 (u64 ((v + 1) * per_page)));
    x ← rd (elt g.(buf_addrs) loc);
    if x =? cmp then SET_LOW_BIT (elt g.(buf_addrs) loc)
    else if debug then
      loc2 ← binary_search cmp g.(buf_addrs) 0 g.(n_addrs);
      y ← rd (elt g.(buf_addrs) loc2);
      lift (c_assert (negb (y =? cmp)))
    else mret tt.

Definition search_word (mem_ min_ptr max_ptr i : Z) : prog Z unit :=
  w ← rd (elt mem_ i);
  search_value min_ptr max_ptr w.

Definition do_search (mem_ range_size : Z) : prog Z unit :=
  min_ptr ← rd (elt g.(buf_addrs) 0);
  max_ptr ← rd (elt g.(buf_addrs) (g.(n_addrs) - 1));
  _ ← lift (c_assert (min_ptr <=? max_ptr));
  pfor_range 0 range_size (λ i _, search_word mem_ min_ptr max_ptr i) tt.

Definition search_range (mem_range : mem_range_t) : prog Z unit :=
  let mem_ := mem_range.(low) in
  _ ← assert_monotonicity g.(buf_addrs) g.(n_addrs);
  do_search mem_ (u64 (mem_range.(high) - mem_range.(low)) / sizeof_size_t).

(** The scan of a thread's own memory, in [do_reclaim] and in
    [search_self_stack]. *)
Definition search_own_memory (t : scanner) : prog Z unit :=
  _ ← search_range {| low := t.(rsp); high := t.(user_stack).(high) |};
  if t.(local_block).(low) >? 0 then search_range t.(local_block) else mret tt.

(** [generate_scan_map] runs before any other thread scans. *)
Fixpoint scan_map_loop (fuel : nat) (i k : Z) : prog Z Z :=
  match fuel with
  | O => lift OutOfFuel
  | S fuel' =>
      if i <? g.(n_addrs) then
        x ← rd (elt g.(buf_addrs) i);
        _ ← wr (elt g.(buf_scan_map) k) x;
        scan_map_loop fuel' (i + per_page) (k + 1)
      else mret k
  end.

(** The result is the new [n_scan_map]. *)
Definition generate_scan_map : prog Z Z :=
  scan_map_loop (S (Z.to_nat g.(n_addrs))) 0 0.

End code.

Lemma per_page_eq : per_page = 512.
Proof. reflexivity. Qed.

(** ** Binary search of an array that other threads mark

    [Inv] says the array is mapped; what is known of the values read is
    stated for each lemma. *)
Section bsearch.
Context (R G : mem → mem → Prop) `{!Reflexive R, !Transitive R} (Inv : mem → Prop).
Context (HInv : ∀ m m', R m m' → Inv m → Inv m').
Context (a val lo hi : Z) (Hlo : 0 ≤ lo) (Hhi : hi ≤ 2 ^ 30).
Context (Hread : ∀ m k, Inv m → lo ≤ k < hi → is_Some (m !! elt a k)).

(** The first element does not go from at most [val] to above it. *)
Definition no_flip : Prop := ∀ m m' v v',
  Inv m → R m m' → m !! elt a lo = Some v → m' !! elt a lo = Some v' → v ≤ val → v' ≤ val.

Lemma iterative_loop_safe k min m :
  Inv m → lo ≤ min → min + Z.of_nat k ≤ hi →
  rg R G (iterative_loop k val a min) (λ r _, min - 1 ≤ r < min + Z.of_nat k ∨ r = min - 1) m.
Proof.
  revert min m. induction k as [|k IH]; intros min m Hm Hmin Hmax; cbn [iterative_loop].
  - apply rg_ret. intros. lia.
  - apply rg_bind_read. intros m1 S1. pose proof (HInv _ _ S1 Hm) as Hm1.
    destruct (Hread m1 min Hm1) as [v Hv]; [lia|]. exists v. split; [done|].
    destruct (v =? val); [apply rg_ret; intros; lia|].
    destruct (v >? val); [apply rg_ret; intros; lia|].
    eapply rg_mono; [apply IH; [done|lia|lia]|]. simpl. intros r _ Hr. lia.
Qed.

Lemma iterative_search_safe min max m :
  Inv m → lo ≤ min → min < max → max ≤ hi →
  rg R G (iterative_search val a min max)
    (λ r _, min - 1 ≤ r < max ∧ (lo < min ∨ no_flip → lo ≤ r)) m.
Proof.
  intros Hm Hmin Hmm Hmax. unfold iterative_search.
  apply rg_bind_read. intros m1 S1. pose proof (HInv _ _ S1 Hm) as Hm1.
  destruct (Hread m1 min Hm1) as [v Hv]; [lia|]. exists v. split; [done|].
  rewrite Z.gtb_ltb. destruct (Z.ltb_spec val v); cbn [orb]; [apply rg_ret; intros; lia|].
  destruct (Z.eqb_spec min max); [lia|].
  replace (Z.to_nat (max - min)) with (S (Z.to_nat (max - min - 1))) by lia. cbn [iterative_loop].
  apply rg_bind_read. intros m2 S2. pose proof (HInv _ _ S2 Hm1) as Hm2.
  destruct (Hread m2 min Hm2) as [v2 Hv2]; [lia|]. exists v2. split; [done|].
  destruct (v2 =? val); [apply rg_ret; intros; lia|].
  rewrite Z.gtb_ltb. destruct (Z.ltb_spec val v2) as [Hgt|Hle].
  - apply rg_ret. intros _ _. split; [lia|]. intros [?|Hnf]; [lia|].
    destruct (decide (min = lo)) as [->|]; [|lia].
    specialize (Hnf m1 m2 v v2 Hm1 S2 Hv Hv2). lia.
  - eapply rg_mono; [apply iterative_loop_safe; [done|lia|lia]|]. simpl. intros r _ Hr. lia.
Qed.

Lemma binary_loop_safe fuel min max m :
  Inv m → lo ≤ min → min < max → max ≤ hi → max - min < Z.of_nat fuel →
  rg R G (binary_loop fuel val a min max)
    (λ r _, lo - 1 ≤ r < hi ∧ (no_flip → lo ≤ r)) m.
Proof.
  revert min max m. induction fuel as [|fuel IH]; intros min max m Hm Hmin Hmm Hmax Hf; [lia|].
  cbn [binary_loop]. unfold BINARY_THRESHOLD. rewrite Z.geb_leb.
  destruct (Z.leb_spec 32 (max - min)).
  - apply rg_bind_lift, wp_cint; [unfold INT_MIN, INT_MAX; lia|].
    rewrite Z.quot_div_nonneg by lia. cbv zeta. set (mid := (max + min) / 2).
    assert (min < mid < max) as Hmid by (unfold mid; Z.div_mod_to_equations; lia).
    apply rg_bind_read. intros m1 S1. pose proof (HInv _ _ S1 Hm) as Hm1.
    destruct (Hread m1 mid Hm1) as [v Hv]; [lia|]. exists v. split; [done|].
    destruct (v =? val); [apply rg_ret; intros; lia|].
    destruct (v >? val); (apply IH; [done|lia|lia|lia|lia]).
  - eapply rg_mono; [apply iterative_search_safe; [done|lia|lia|lia]|].
    simpl. intros r _ Hr. destruct (decide (lo < min)); lia || (split; [lia|tauto]).
Qed.

(** The searched value is at [p], or is not there any more because of [Bad]. *)
Section target.
Context (p : Z) (Bad : mem → Prop).
Context (HBR : ∀ m m', R m m' → Bad m → Bad m') (HBG : ∀ m m', G m m' → Bad m → Bad m').
Context (Hp : lo ≤ p < hi).
Context (Hbelow : ∀ m k v, Inv m → lo ≤ k < p → m !! elt a k = Some v → v < val).
Context (Habove : ∀ m k v, Inv m → p < k < hi → m !! elt a k = Some v → val < v).
Context (Hat : ∀ m v, Inv m → m !! elt a p = Some v → v ≤ val ∨ Bad m).

Lemma iterative_loop_finds k min m :
  Inv m → lo ≤ min ≤ p + 1 → p < min + Z.of_nat k ≤ hi →
  rg R G (iterative_loop k val a min) (λ r m', r = p ∨ Bad m') m.
Proof.
  revert min m. induction k as [|k IH]; intros min m Hm Hmin Hmax; cbn [iterative_loop].
  - apply rg_ret. intros. lia.
  - apply rg_bind_read. intros m1 S1. pose proof (HInv _ _ S1 Hm) as Hm1.
    destruct (Hread m1 min Hm1) as [v Hv]; [lia|]. exists v. split; [done|].
    assert (min < p ∧ v < val ∨ min = p ∧ (v ≤ val ∨ Bad m1) ∨ min = p + 1 ∧ val < v) as Hcases.
    { destruct (Z.lt_trichotomy min p) as [?|[->|?]].
      - left. split; [done|]. eapply Hbelow; [exact Hm1| |exact Hv]. lia.
      - right. left. split; [done|]. by eapply Hat.
      - right. right. split; [lia|]. eapply Habove; [exact Hm1| |exact Hv]. lia. }
    rewrite Z.gtb_ltb. destruct (Z.eqb_spec v val).
    { apply rg_ret. intros m2 S2. left. lia. }
    destruct (Z.ltb_spec val v).
    { apply rg_ret. intros m2 S2. destruct Hcases as [?|[[? [?|?]]|?]]; try lia. right. by eapply HBR. }
    apply IH; [done|lia|lia].
Qed.

Lemma iterative_search_finds min max m :
  Inv m → lo ≤ min ≤ p → p < max ≤ hi →
  rg R G (iterative_search val a min max) (λ r m', r = p ∨ Bad m') m.
Proof.
  intros Hm Hmin Hmax. unfold iterative_search.
  apply rg_bind_read. intros m1 S1. pose proof (HInv _ _ S1 Hm) as Hm1.
  destruct (Hread m1 min Hm1) as [v Hv]; [lia|]. exists v. split; [done|].
  rewrite Z.gtb_ltb. destruct (Z.ltb_spec val v); cbn [orb].
  - apply rg_ret. intros m2 S2. left. destruct (decide (min = p)); [done|].
    assert (v < val) by (eapply Hbelow; [exact Hm1| |exact Hv]; lia). lia.
  - destruct (Z.eqb_spec min max); [lia|]. apply iterative_loop_finds; [done|lia|lia].
Qed.

Lemma binary_loop_finds fuel min max m :
  Inv m → lo ≤ min ≤ p → p < max ≤ hi → max - min < Z.of_nat fuel →
  rg R G (binary_loop fuel val a min max) (λ r m', r = p ∨ Bad m') m.
Proof.
  revert min max m. induction fuel as [|fuel IH]; intros min max m Hm Hmin Hmax Hf; [lia|].
  cbn [binary_loop]. unfold BINARY_THRESHOLD. rewrite Z.geb_leb.
  destruct (Z.leb_spec 32 (max - min)); [|by apply iterative_search_finds].
  apply rg_bind_lift, wp_cint; [unfold INT_MIN, INT_MAX; lia|].
  rewrite Z.quot_div_nonneg by lia. cbv zeta. set (mid := (max + min) / 2).
  assert (min < mid < max) as Hmid by (unfold mid; Z.div_mod_to_equations; lia).
  apply rg_bind_read. intros m1 S1. pose proof (HInv _ _ S1 Hm) as Hm1.
  destruct (Hread m1 mid Hm1) as [v Hv]; [lia|]. exists v. split; [done|].
  assert (mid < p ∧ v < val ∨ mid = p ∧ (v ≤ val ∨ Bad m1) ∨ p < mid ∧ val < v) as Hcases.
  { destruct (Z.lt_trichotomy mid p) as [?|[->|?]].
    - left. split; [done|]. eapply Hbelow; [exact Hm1| |exact Hv]. lia.
    - right. left. split; [done|]. by eapply Hat.
    - right. right. split; [done|]. eapply Habove; [exact Hm1| |exact Hv]. lia. }
  rewrite Z.gtb_ltb. destruct (Z.eqb_spec v val).
  { apply rg_ret. intros m2 S2. left. lia. }
  destruct (Z.ltb_spec val v).
  - destruct Hcases as [?|[[-> [?|HB]]|?]]; try lia; [|apply IH; [done|lia|lia|lia]].
    eapply rg_mono; [apply (rg_frame R G Bad); [done|done| |exact HB]|].
    + apply binary_loop_safe; [done|lia|lia|lia|lia].
    + intros r m2 [_ ?]. by right.
  - apply IH; [done|lia|lia|lia].
Qed.
End target.
End bsearch.

(** ** Pointer masks *)
Lemma PTR_MASK_mod v : PTR_MASK v = v - v `mod` 4.
Proof. unfold PTR_MASK. change 3 with (Z.ones 2). by rewrite land_lnot_ones. Qed.

Lemma PTR_MASK_aligned v : PTR_MASK v `mod` 4 = 0.
Proof. rewrite PTR_MASK_mod. Z.div_mod_to_equations. lia. Qed.

Lemma land_1_mod v : Z.land v 1 = v `mod` 2.
Proof. change 1 with (2 ^ 1 - 1). by rewrite land_low_mod. Qed.

(** ** The scan map *)
Section scan_map.
Context (g : threadscan_data_t) (o : Z → Z).

(** The number of pages of addresses. *)
Definition scan_map_pages : Z := (g.(n_addrs) + per_page - 1) / per_page.

(** The buffer holds [o], and the first [k] entries of the map are set. *)
Record map_prefix (m0 : mem) (k : Z) (m : mem) : Prop := {
  mp_set : ∀ j, 0 ≤ j < k → m !! elt g.(buf_scan_map) j = Some (o (per_page * j));
  mp_rest : ∀ a, (∀ j, 0 ≤ j < k → a ≠ elt g.(buf_scan_map) j) → m !! a = m0 !! a;
}.

Context (m0 : mem) (Hn : 0 ≤ g.(n_addrs)).
Context (Hbuf : ∀ i, 0 ≤ i < g.(n_addrs) → m0 !! elt g.(buf_addrs) i = Some (o i)).
Context (Hmap : ∀ k, 0 ≤ k < scan_map_pages → is_Some (m0 !! elt g.(buf_scan_map) k)).
Context (Hsep : ∀ i k, 0 ≤ i < g.(n_addrs) → 0 ≤ k < scan_map_pages →
                elt g.(buf_addrs) i ≠ elt g.(buf_scan_map) k).

Lemma scan_map_loop_run fuel k m :
  0 ≤ k ≤ scan_map_pages → map_prefix m0 k m → (0 < fuel)%nat → g.(n_addrs) - per_page * k < Z.of_nat fuel →
  wp (run (scan_map_loop g fuel (per_page * k) k) m)
     (λ r, r.1 = scan_map_pages ∧ map_prefix m0 scan_map_pages r.2).
Proof.
  revert k m. unfold scan_map_pages in *. change per_page with 512 in *.
  induction fuel as [|fuel IH]; intros k m Hk Hm Hf0 Hf; [lia|].
  cbn [scan_map_loop]. change per_page with 512. destruct (Z.ltb_spec (512 * k) (n_addrs g)) as [Hlt|Hge].
  - assert (k < (n_addrs g + 512 - 1) / 512) as Hk' by (Z.div_mod_to_equations; lia).
    destruct (Hmap k) as [x Hx]; [lia|].
    cbn. rewrite (mp_rest _ _ _ Hm (elt (buf_addrs g) (512 * k))) by (intros j Hj; apply Hsep; lia).
    rewrite Hbuf by lia. cbn.
    assert (m !! elt (buf_scan_map g) k = Some x) as ->.
    { rewrite (mp_rest _ _ _ Hm); [done|]. intros j Hj E%elt_inj. lia. }
    cbn. replace (512 * k + 512) with (512 * (k + 1)) by lia. apply IH; [lia| |lia|lia].
    split.
    + intros j Hj. destruct (decide (j = k)) as [->|]; [by rewrite lookup_insert_eq|].
      rewrite lookup_insert_ne by (intros E%elt_inj; lia). apply Hm. lia.
    + intros a Ha. rewrite lookup_insert_ne by (intros E; apply (Ha k); [lia|done]).
      apply Hm. intros j Hj. apply Ha. lia.
  - cbn. assert (k = (n_addrs g + 512 - 1) / 512) as -> by (Z.div_mod_to_equations; lia). done.
Qed.

Lemma generate_scan_map_run :
  wp (run (generate_scan_map g) m0)
     (λ r, r.1 = scan_map_pages ∧ map_prefix m0 scan_map_pages r.2).
Proof.
  assert (0 ≤ scan_map_pages) by (unfold scan_map_pages; rewrite per_page_eq; Z.div_mod_to_equations; lia).
  unfold generate_scan_map. apply (scan_map_loop_run _ 0); [lia| |lia|rewrite per_page_eq; lia].
  split; [lia|done].
Qed.
End scan_map.

(** ** The scan

    [o i] is the address stored at index [i] when the scan starts.  [found]
    is the set of addresses the scanning threads have references to: a thread
    only marks those.  [ctl] are the words other parts of the program use to
    synchronise the threads meanwhile; a scan does not look at them. *)
Section scan.
Context `{Build} (g : threadscan_data_t) (o : Z → Z) (found ctl : Z → Prop).

Definition unique (i : Z) : Prop := ∀ j, 0 ≤ j < g.(n_addrs) → o j = o i → j = i.

Record scan_setup : Prop := {
  ss_n : 0 < g.(n_addrs) ≤ 2 ^ 28;
  ss_nsm : g.(n_scan_map) = (g.(n_addrs) + per_page - 1) / per_page;
  ss_sep : ∀ i k, 0 ≤ i < g.(n_addrs) → 0 ≤ k < g.(n_scan_map) →
           elt g.(buf_addrs) i ≠ elt g.(buf_scan_map) k;
  ss_ctl : (∀ i, 0 ≤ i < g.(n_addrs) → ¬ ctl (elt g.(buf_addrs) i)) ∧
           (∀ k, 0 ≤ k < g.(n_scan_map) → ¬ ctl (elt g.(buf_scan_map) k));
  ss_sorted : ∀ i j, 0 ≤ i → i ≤ j → j < g.(n_addrs) → o i ≤ o j;
  ss_aligned : ∀ i, 0 ≤ i < g.(n_addrs) → 0 ≤ o i ∧ o i `mod` 4 = 0;
  ss_debug : debug = true →
             0 < o 0 ∧ ∀ i j, 0 ≤ i → i < j → j < g.(n_addrs) → o i < o j;
}.

Definition marked (i : Z) (m : mem) : Prop := m !! elt g.(buf_addrs) i = Some (o i + 1).

(** Every address is in place, marked only if a reference was found. *)
Record scan_inv (m : mem) : Prop := {
  si_addr : ∀ i, 0 ≤ i < g.(n_addrs) →
            m !! elt g.(buf_addrs) i = Some (o i) ∨ found (o i) ∧ marked i m;
  si_map : ∀ k, 0 ≤ k < g.(n_scan_map) →
           m !! elt g.(buf_scan_map) k = Some (o (per_page * k));
}.

(** A word changes only from a found address to the marked address. *)
Definition mark_only (a : Z) (m m' : mem) : Prop :=
  m' !! a = m !! a ∨
  ∃ i, 0 ≤ i < g.(n_addrs) ∧ a = elt g.(buf_addrs) i ∧ found (o i) ∧
       m !! a = Some (o i) ∧ m' !! a = Some (o i + 1).

(** What a scanning thread does to memory, and what it must expect. *)
Definition scan_own (m m' : mem) : Prop := ∀ a, mark_only a m m'.
Definition scan_step (m m' : mem) : Prop := ∀ a, ¬ ctl a → mark_only a m m'.

Lemma mark_only_trans a m1 m2 m3 : mark_only a m1 m2 → mark_only a m2 m3 → mark_only a m1 m3.
Proof.
  intros [E1|(i & Hi & -> & Hf & A1 & A2)] [E2|(j & Hj & E & Hfj & B1 & B2)].
  - left. congruence.
  - right. exists j. repeat split; try done; try lia; congruence.
  - right. exists i. repeat split; try done; try lia; congruence.
  - apply elt_inj in E as ->. rewrite A2 in B1. injection B1. lia.
Qed.

Lemma scan_own_step m m' : scan_own m m' → scan_step m m'.
Proof. intros Hs a _. apply Hs. Qed.

#[export] Instance scan_step_refl : Reflexive scan_step.
Proof. intros m a _. by left. Qed.

#[export] Instance scan_step_trans : Transitive scan_step.
Proof. intros m1 m2 m3 H1 H2 a Ha. eapply mark_only_trans; eauto. Qed.

(** Words outside of the address buffer do not change. *)
Lemma scan_step_other a m m' :
  scan_step m m' → ¬ ctl a → (∀ i, 0 ≤ i < g.(n_addrs) → a ≠ elt g.(buf_addrs) i) →
  m' !! a = m !! a.
Proof.
  intros Hs Hc Ha. destruct (Hs a Hc) as [?|(i & Hi & -> & _)]; [done|]. by destruct (Ha i Hi).
Qed.

Context (Hss : scan_setup).

Lemma marked_step i m m' : scan_step m m' → 0 ≤ i < g.(n_addrs) → marked i m → marked i m'.
Proof.
  unfold marked. intros Hs Hi Hm.
  destruct (Hs (elt (buf_addrs g) i)) as [E|(j & Hj & Ha & _ & B1 & B2)].
  - by apply (ss_ctl Hss).
  - congruence.
  - apply elt_inj in Ha as ->. done.
Qed.

Lemma scan_inv_step m m' : scan_step m m' → scan_inv m → scan_inv m'.
Proof.
  intros Hs [Ha Hm]. split.
  - intros i Hi. destruct (Ha i Hi) as [Hv|[Hf Hv]].
    + destruct (Hs (elt (buf_addrs g) i)) as [E|(j & Hj & Hj' & Hf & B1 & B2)].
      * by apply (ss_ctl Hss).
      * left. congruence.
      * apply elt_inj in Hj' as ->. right. done.
    + right. split; [done|]. by eapply marked_step.
  - intros k Hk. rewrite (scan_step_other _ m); [by apply Hm|done|by apply (ss_ctl Hss)|].
    intros i Hi Heq. by apply (ss_sep Hss i k).
Qed.

Lemma scan_read i m : scan_inv m → 0 ≤ i < g.(n_addrs) →
  ∃ v, m !! elt g.(buf_addrs) i = Some v ∧ (v = o i ∨ v = o i + 1 ∧ marked i m).
Proof.
  intros Hi Hr. destruct (si_addr _ Hi i Hr) as [Hv|[_ Hv]]; [by exists (o i); auto|].
  exists (o i + 1). auto.
Qed.

Lemma scan_read_val i m v : scan_inv m → 0 ≤ i < g.(n_addrs) →
  m !! elt g.(buf_addrs) i = Some v → v = o i ∨ v = o i + 1 ∧ marked i m.
Proof. intros Hi Hr Hv. destruct (scan_read i m Hi Hr) as (v' & Hv' & ?). by simplify_eq. Qed.

(** [SET_LOW_BIT] marks, whatever the other threads do meanwhile. *)
Lemma SET_LOW_BIT_ok i m :
  scan_inv m → 0 ≤ i < g.(n_addrs) → found (o i) →
  rg scan_step scan_own (SET_LOW_BIT (elt g.(buf_addrs) i))
    (λ _ m', scan_inv m' ∧ marked i m') m.
Proof.
  intros Hm Hi Hf. unfold SET_LOW_BIT. pose proof (ss_aligned Hss i Hi) as [Ho Hal].
  apply rg_bind_read. intros m1 S1. pose proof (scan_inv_step _ _ S1 Hm) as Hm1.
  destruct (scan_read i m1 Hm1 Hi) as (v & Hv & Hcase). exists v. split; [done|].
  rewrite land_1_mod. destruct Hcase as [->|[-> Hmk]].
  - destruct (Z.eqb_spec (o i `mod` 2) 0); [|Z.div_mod_to_equations; lia].
    apply rg_wr. intros m2 S2. pose proof (scan_inv_step _ _ S2 Hm1) as Hm2.
    destruct (scan_read i m2 Hm2 Hi) as (v2 & Hv2 & Hc2). simpl swrite. rewrite Hv2. apply wp_ret.
    assert (scan_own m2 (<[elt (buf_addrs g) i := o i + 1]> m2)) as Hst.
    { intros a. unfold mark_only. destruct (decide (a = elt (buf_addrs g) i)) as [->|Hne].
      - rewrite lookup_insert_eq. destruct Hc2 as [->|[-> _]]; [right; by exists i|left; congruence].
      - left. by rewrite lookup_insert_ne. }
    split; [done|]. intros m3 S3. split.
    + by apply (scan_inv_step _ _ S3), (scan_inv_step _ _ (scan_own_step _ _ Hst)).
    + apply (marked_step i _ _ S3 Hi). unfold marked. by rewrite lookup_insert_eq.
  - destruct (Z.eqb_spec ((o i + 1) `mod` 2) 0); [Z.div_mod_to_equations; lia|].
    apply rg_ret. intros m2 S2. split; [by eapply scan_inv_step|by eapply marked_step].
Qed.

(** The invariant is kept by every thread, so it can be carried along. *)
Lemma scan_frame {A} (p : prog Z A) Q m :
  rg scan_step scan_own p Q m → scan_inv m →
  rg scan_step scan_own p (λ a m', Q a m' ∧ scan_inv m') m.
Proof.
  apply rg_frame; [apply scan_inv_step|intros m1 m2 Hs; by apply scan_inv_step, scan_own_step].
Qed.

Lemma nsm_bounds : 0 < g.(n_scan_map) ≤ 2 ^ 20 ∧
  per_page * (g.(n_scan_map) - 1) < g.(n_addrs) ≤ per_page * g.(n_scan_map).
Proof.
  pose proof (ss_nsm Hss) as Hn. pose proof (ss_n Hss). rewrite per_page_eq in *.
  Z.div_mod_to_equations. lia.
Qed.

(** Level 1: the page of the scan map. *)
Lemma scan_map_search_ok cmp m :
  scan_inv m →
  rg scan_step scan_own (binary_search cmp g.(buf_scan_map) 0 g.(n_scan_map))
    (λ v m', (0 ≤ v < g.(n_scan_map) ∧ scan_inv m') ∧
       ∀ i, 0 ≤ i < g.(n_addrs) ∧ unique i ∧ o i = cmp → v = i / per_page) m.
Proof.
  intros Hm. pose proof nsm_bounds as [Hb1 Hb2]. rewrite per_page_eq in *.
  assert (∀ m k, scan_inv m → 0 ≤ k < n_scan_map g → is_Some (m !! elt (buf_scan_map g) k)) as Hread.
  { intros m' k Hm' Hk. rewrite (si_map _ Hm') by done. by eexists. }
  apply rg_forall.
  - apply scan_frame; [|done]. eapply rg_mono.
    + apply (binary_loop_safe scan_step scan_own scan_inv scan_inv_step) with
        (lo := 0) (hi := n_scan_map g); try exact _; try done; lia.
    + intros v m' [Hv Hnf]. split; [|lia]. apply Hnf.
      intros m1 m2 v1 v2 Hm1 Hs Hv1 Hv2. pose proof (scan_inv_step _ _ Hs Hm1) as Hm2.
      rewrite (si_map _ Hm1) in Hv1 by lia. rewrite (si_map _ Hm2) in Hv2 by lia. congruence.
  - intros i (Hi & Hu & Ho). pose proof (ss_sorted Hss) as Hsort.
    assert (0 ≤ i / 512 < n_scan_map g ∧ 512 * (i / 512) ≤ i < 512 * (i / 512) + 512) as Hpage
      by (Z.div_mod_to_equations; lia).
    eapply rg_mono.
    + apply (binary_loop_finds scan_step scan_own scan_inv scan_inv_step) with
        (lo := 0) (hi := n_scan_map g) (p := i / 512) (Bad := λ _, False);
        try exact _; try done; try lia.
      * intros m' k v Hm' Hk Hv. rewrite (si_map _ Hm') in Hv by lia. injection Hv as <-.
        rewrite per_page_eq. specialize (Hsort (512 * k) i). specialize (Hu (512 * k)). lia.
      * intros m' k v Hm' Hk Hv. rewrite (si_map _ Hm') in Hv by lia. injection Hv as <-.
        rewrite per_page_eq. specialize (Hsort i (512 * k)). specialize (Hu (512 * k)). lia.
      * intros m' v Hm' Hv. rewrite (si_map _ Hm') in Hv by lia. injection Hv as <-.
        rewrite per_page_eq. specialize (Hsort (512 * (i / 512)) i). lia.
    + intros r m' [?|[]]. done.
Qed.

(** Level 2: the address within a page, or within the whole array. *)
Lemma buf_search_ok cmp lo hi m :
  scan_inv m → 0 ≤ lo → lo < hi → hi ≤ g.(n_addrs) → cmp `mod` 4 = 0 → (lo = 0 → cmp ≠ o 0) →
  rg scan_step scan_own (binary_search cmp g.(buf_addrs) lo hi)
    (λ r m', (0 ≤ r < g.(n_addrs) ∧ scan_inv m') ∧
       ∀ i, lo ≤ i < hi ∧ unique i ∧ o i = cmp → r = i ∨ marked i m') m.
Proof.
  intros Hm Hlo Hlh Hhi Hal H0. pose proof (ss_n Hss) as Hn.
  assert (∀ m k, scan_inv m → lo ≤ k < hi → is_Some (m !! elt (buf_addrs g) k)) as Hread.
  { intros m' k Hm' Hk. destruct (scan_read k m' Hm') as (v & Hv & _); [lia|]. by eexists. }
  apply rg_forall.
  - apply scan_frame; [|done]. eapply rg_mono.
    + apply (binary_loop_safe scan_step scan_own scan_inv scan_inv_step) with
        (lo := lo) (hi := hi); try exact _; try done; lia.
    + intros r m' [Hr Hnf]. destruct (decide (lo = 0)) as [->|]; [|lia]. split; [|lia]. apply Hnf.
      intros m1 m2 v1 v2 Hm1 Hs Hv1 Hv2 Hle. pose proof (scan_inv_step _ _ Hs Hm1) as Hm2.
      apply (scan_read_val 0 _ _ Hm1) in Hv1; [|lia]. apply (scan_read_val 0 _ _ Hm2) in Hv2; [|lia].
      pose proof (ss_aligned Hss 0). specialize (H0 eq_refl). Z.div_mod_to_equations. lia.
  - intros i (Hi & Hu & Ho). pose proof (ss_sorted Hss) as Hsort.
    apply (binary_loop_finds scan_step scan_own scan_inv scan_inv_step) with
      (lo := lo) (hi := hi) (p := i) (Bad := marked i); try exact _; try done; try lia.
    + intros m1 m2 Hs. apply marked_step; [done|lia].
    + intros m1 m2 Hs. apply marked_step; [by apply scan_own_step|lia].
    + intros m' k v Hm' Hk Hv. apply (scan_read_val k _ _ Hm') in Hv; [|lia].
      specialize (Hsort k i). specialize (Hu k). pose proof (ss_aligned Hss k).
      pose proof (ss_aligned Hss i). Z.div_mod_to_equations. lia.
    + intros m' k v Hm' Hk Hv. apply (scan_read_val k _ _ Hm') in Hv; [|lia].
      specialize (Hsort i k). specialize (Hu k). lia.
    + intros m' v Hm' Hv. apply (scan_read_val i _ _ Hm') in Hv; [|lia].
      destruct Hv as [->|[-> ?]]; [left; lia|by right].
Qed.

(** The boundary values as they were read at the start of [do_search]. *)
Definition read_of (i x : Z) (m : mem) : Prop := x = o i ∨ x = o i + 1 ∧ marked i m.

Lemma read_of_step i x m m' :
  0 ≤ i < g.(n_addrs) → scan_step m m' → read_of i x m → read_of i x m'.
Proof. intros Hi Hs [?|[? ?]]; [by left|right]. split; [done|]. by eapply marked_step. Qed.

(** [cmp]: the masked word; all the unique addresses equal to it are marked. *)
Definition hits_marked (cmp : Z) (m : mem) : Prop :=
  ∀ j, 0 ≤ j < g.(n_addrs) ∧ unique j ∧ o j = cmp → marked j m.

Lemma hits_marked_step cmp m m' : scan_step m m' → hits_marked cmp m → hits_marked cmp m'.
Proof. intros Hs Hh j Hj. apply (marked_step j m); [done|lia|by apply Hh]. Qed.

Lemma SET_LOW_BIT_hits i cmp m :
  scan_inv m → 0 ≤ i < g.(n_addrs) → o i = cmp → found cmp →
  rg scan_step scan_own (SET_LOW_BIT (elt g.(buf_addrs) i))
    (λ _ m', scan_inv m' ∧ hits_marked cmp m') m.
Proof.
  intros Hm Hi Ho Hf. eapply rg_mono; [apply SET_LOW_BIT_ok; [done|done|by rewrite Ho]|].
  intros _ m' [Hm' Hmk]. split; [done|]. intros j (Hj & Hu & Hoj).
  by rewrite <- (Hu i Hi) by congruence.
Qed.

(** After the two searches: mark the address found, or check that it is not
    there. *)
Lemma search_hit_ok cmp loc m :
  scan_inv m → 0 ≤ loc < g.(n_addrs) → cmp `mod` 4 = 0 → cmp ≠ o 0 → found cmp →
  (∀ j, 0 ≤ j < g.(n_addrs) ∧ unique j ∧ o j = cmp → loc = j ∨ marked j m) →
  rg scan_step scan_own
    (x ← rd (elt g.(buf_addrs) loc);
     if x =? cmp then SET_LOW_BIT (elt g.(buf_addrs) loc)
     else if debug then
       loc2 ← binary_search cmp g.(buf_addrs) 0 g.(n_addrs);
       y ← rd (elt g.(buf_addrs) loc2);
       lift (c_assert (negb (y =? cmp)))
     else mret tt)
    (λ _ m', scan_inv m' ∧ hits_marked cmp m') m.
Proof.
  intros Hm Hloc Hal H0 Hf Hj. pose proof (ss_n Hss) as Hn.
  apply rg_bind_read. intros m1 S1. pose proof (scan_inv_step _ _ S1 Hm) as Hm1.
  destruct (scan_read loc m1 Hm1 Hloc) as (x & Hx & Hcase). exists x. split; [done|].
  pose proof (ss_aligned Hss loc Hloc) as [_ Hlal].
  destruct (Z.eqb_spec x cmp) as [->|Hne].
  { apply SET_LOW_BIT_hits; try done. destruct Hcase as [->|[-> _]]; [done|].
    exfalso. Z.div_mod_to_equations. lia. }
  assert (hits_marked cmp m1) as Hmk.
  { intros j Hjj. destruct (Hj j Hjj) as [<-|Hmj]; [|by eapply marked_step; [|lia|]].
    destruct Hcase as [->|[_ ?]]; [|done]. destruct Hne. by destruct Hjj as (_ & _ & ->). }
  destruct debug eqn:Hd.
  2: { apply rg_ret. intros m2 S2. split; [by eapply scan_inv_step|by eapply hits_marked_step]. }
  apply rg_bind; [exact _|]. eapply rg_mono.
  { apply (rg_frame _ _ (hits_marked cmp)); [apply hits_marked_step| | |exact Hmk].
    { intros m4 m5 Hs. by apply hits_marked_step, scan_own_step. }
    apply (buf_search_ok cmp 0 (n_addrs g)); try done; lia. }
  intros loc2 m2 [[[Hl2 Hm2] _] Hmk2]. apply rg_bind_read. intros m3 S3.
  pose proof (scan_inv_step _ _ S3 Hm2) as Hm3. pose proof (hits_marked_step _ _ _ S3 Hmk2) as Hmk3.
  destruct (scan_read loc2 m3 Hm3 Hl2) as (y & Hy & Hcy). exists y. split; [done|].
  apply rg_lift. destruct (Z.eqb_spec y cmp) as [Hyc|_].
  - exfalso. pose proof (ss_aligned Hss loc2 Hl2) as [_ Hal2].
    assert (o loc2 = cmp) as Ho by (destruct Hcy as [?|[? _]]; [lia|Z.div_mod_to_equations; lia]).
    destruct (ss_debug Hss Hd) as [_ Hstrict].
    assert (unique loc2) as Hu2.
    { intros j Hjr Hjo. destruct (Z.lt_trichotomy j loc2) as [Hlt|[?|Hlt]]; [|done|].
      - specialize (Hstrict j loc2). lia.
      - specialize (Hstrict loc2 j). lia. }
    specialize (Hmk3 loc2 (conj Hl2 (conj Hu2 Ho))). unfold marked in Hmk3. simplify_eq. lia.
  - unfold c_assert. rewrite Hd. apply wp_ret. intros m4 S4.
    split; [by eapply scan_inv_step|by eapply hits_marked_step].
Qed.

Lemma search_value_ok min_ptr max_ptr w m1 :
  scan_inv m1 → read_of 0 min_ptr m1 → read_of (g.(n_addrs) - 1) max_ptr m1 → found (PTR_MASK w) →
  rg scan_step scan_own (search_value g min_ptr max_ptr w)
    (λ _ m', scan_inv m' ∧ hits_marked (PTR_MASK w) m') m1.
Proof.
  intros Hm Hmin Hmax Hf. unfold search_value. cbv zeta. pose proof (ss_n Hss) as Hn.
  pose proof nsm_bounds as [Hb1 Hb2]. rewrite per_page_eq in *.
  pose proof (PTR_MASK_aligned w) as Hal. set (cmp := PTR_MASK w) in *. clearbody cmp.
  pose proof (ss_aligned Hss 0 ltac:(lia)) as [_ Hal0].
  pose proof (ss_aligned Hss (n_addrs g - 1) ltac:(lia)) as [_ Haln].
  rewrite Z.gtb_ltb. destruct (Z.ltb_spec cmp min_ptr) as [Hlt|Hge]; cbn [orb].
  { apply rg_ret. intros m2 S2. split; [by eapply scan_inv_step|].
    intros j (Hj & Hu & Hoj). pose proof (ss_sorted Hss 0 j).
    destruct Hmin as [->|[-> Hmk]]; [lia|]. rewrite <- (Hu 0) by lia.
    apply (marked_step 0 m1); [done|lia|done]. }
  destruct (Z.ltb_spec max_ptr cmp).
  { apply rg_ret. intros m2 S2. split; [by eapply scan_inv_step|].
    intros j (Hj & Hu & Hoj). pose proof (ss_sorted Hss j (n_addrs g - 1)).
    destruct Hmax as [->|[-> _]]; lia. }
  destruct (Z.eqb_spec min_ptr cmp) as [->|Hne].
  { apply SET_LOW_BIT_hits; try done; [lia|]. destruct Hmin as [?|[? _]]; [lia|].
    exfalso. Z.div_mod_to_equations. lia. }
  destruct (Z.eqb_spec max_ptr cmp) as [->|Hne2].
  { apply SET_LOW_BIT_hits; try done; [lia|]. destruct Hmax as [?|[? _]]; [lia|].
    exfalso. Z.div_mod_to_equations. lia. }
  assert (cmp ≠ o 0) as Hc0 by (destruct Hmin as [?|[? _]]; lia).
  apply rg_bind; [exact _|]. eapply rg_mono; [by apply scan_map_search_ok|].
  intros v m2 [[Hv Hm2] Hpage]. cbv beta.
  rewrite !u64_small, !int_of_u64_small by (unfold INT_MAX; lia).
  assert (v * 512 < (if v =? n_scan_map g - 1 then n_addrs g else (v + 1) * 512) ≤ n_addrs g) as Hhi
    by (destruct (Z.eqb_spec v (n_scan_map g - 1)); lia).
  apply rg_bind; [exact _|]. eapply rg_mono; [apply buf_search_ok; try done; lia|].
  intros loc m3 [[Hl Hm3] Hfind]. apply search_hit_ok; try done.
  intros j (Hj & Hu & Hoj). apply Hfind. split; [|done].
  specialize (Hpage j (conj Hj (conj Hu Hoj))). rewrite per_page_eq in Hpage.
  destruct (Z.eqb_spec v (n_scan_map g - 1)); Z.div_mod_to_equations; lia.
Qed.

Lemma search_word_ok mem_ min_ptr max_ptr i w m :
  scan_inv m → read_of 0 min_ptr m → read_of (g.(n_addrs) - 1) max_ptr m →
  m !! elt mem_ i = Some w → ¬ ctl (elt mem_ i) → (∀ k, 0 ≤ k < g.(n_addrs) → elt mem_ i ≠ elt g.(buf_addrs) k) →
  found (PTR_MASK w) →
  rg scan_step scan_own (search_word g mem_ min_ptr max_ptr i)
    (λ _ m', scan_inv m' ∧ hits_marked (PTR_MASK w) m') m.
Proof.
  intros Hm Hmin Hmax Hw Hctl Hsep Hf. unfold search_word. pose proof (ss_n Hss) as Hn.
  apply rg_bind_read. intros m1 S1. exists w. rewrite (scan_step_other _ _ _ S1 Hctl Hsep). split; [done|].
  apply search_value_ok; [by apply (scan_inv_step _ _ S1)|by apply (read_of_step 0 _ m); [lia|..]|by apply (read_of_step _ _ m); [lia|..]|done].
Qed.

(** ** Scanning ranges *)

(** The number of words [search_range] reads. *)
Definition range_words (r : mem_range_t) : Z := u64 (r.(high) - r.(low)) / sizeof_size_t.

(** The words of a range are mapped, lie outside of the address buffer, and
    every reference among them counts as found. *)
Definition range_ok (r : mem_range_t) (m : mem) : Prop :=
  ∀ i, 0 ≤ i < range_words r →
    (∃ w, m !! elt r.(low) i = Some w ∧ found (PTR_MASK w)) ∧ ¬ ctl (elt r.(low) i) ∧
    ∀ k, 0 ≤ k < g.(n_addrs) → elt r.(low) i ≠ elt g.(buf_addrs) k.

Lemma range_ok_step r m m' : scan_step m m' → range_ok r m → range_ok r m'.
Proof.
  intros Hs Hr i Hi. destruct (Hr i Hi) as [(w & Hw & Hf) [Hc Hsep]]. split; [|done].
  exists w. by rewrite (scan_step_other _ m).
Qed.

(** Every reference in the first [n] words of the range is marked. *)
Definition prefix_marked (r : mem_range_t) (n : Z) (m : mem) : Prop :=
  ∀ i w, 0 ≤ i < n → i < range_words r → m !! elt r.(low) i = Some w → hits_marked (PTR_MASK w) m.
Definition range_marked (r : mem_range_t) (m : mem) : Prop := prefix_marked r (range_words r) m.

Lemma prefix_marked_step r n m m' :
  range_ok r m → scan_step m m' → prefix_marked r n m → prefix_marked r n m'.
Proof.
  intros Hr Hs Hm i w Hi Hir Hw. destruct (Hr i) as (_ & Hc & Hsep); [lia|].
  rewrite (scan_step_other _ m) in Hw by done. apply (hits_marked_step _ m); [done|]. by apply (Hm i).
Qed.

Lemma assert_monotonicity_ok m :
  scan_inv m →
  rg scan_step scan_own (assert_monotonicity g.(buf_addrs) g.(n_addrs)) (λ _ m', scan_step m m') m.
Proof.
  intros Hm. unfold assert_monotonicity. destruct debug eqn:Hd; [|by apply rg_ret].
  destruct (ss_debug Hss Hd) as [Hpos Hstrict].
  apply rg_bind; [exact _|].
  apply rg_pfor_range with (I := λ i last m', scan_step m m' ∧
    (i = 0 ∧ last = 0 ∨ 0 < i ∧ last ≤ o (i - 1) + 1)); try exact _.
  - intros i last m1 m2 [? ?] ?. split; [by etrans|done].
  - split; [done|by left].
  - intros i last m1 Hi [S1 Hlast]. pose proof (scan_inv_step _ _ S1 Hm) as Hm1.
    apply rg_bind_read. intros m2 S2. pose proof (scan_inv_step _ _ S2 Hm1) as Hm2.
    destruct (scan_read i m2 Hm2) as (x & Hx & Hcx); [lia|]. exists x. split; [done|].
    pose proof (ss_aligned Hss i). pose proof (ss_aligned Hss (i - 1)).
    pose proof (Hstrict (i - 1) i).
    destruct (Z.leb_spec x last).
    { destruct Hlast as [[-> ->]|[? ?]]; [lia|]. exfalso. Z.div_mod_to_equations. lia. }
    apply rg_rd; [exact _|]. intros m3 S3. pose proof (scan_inv_step _ _ S3 Hm2) as Hm3.
    destruct (scan_read i m3 Hm3) as (y & Hy & Hcy); [lia|]. simpl sread. rewrite Hy. simpl.
    intros m4 S4. split; [do 2 (etrans; [eassumption|]); by etrans|].
    right. replace (i + 1 - 1) with i by lia. lia.
  - intros last m1 [S1 _]. apply rg_ret. intros m2 S2. by etrans.
Qed.

Lemma min_le_max m1 m2 x y :
  scan_inv m1 → scan_step m1 m2 →
  m1 !! elt g.(buf_addrs) 0 = Some x → m2 !! elt g.(buf_addrs) (g.(n_addrs) - 1) = Some y →
  debug = true → x ≤ y.
Proof.
  intros Hm1 Hs Hx Hy Hd. pose proof (ss_n Hss) as Hn. pose proof (scan_inv_step _ _ Hs Hm1) as Hm2.
  apply (scan_read_val 0 _ _ Hm1) in Hx; [|lia].
  destruct (decide (n_addrs g = 1)) as [E|].
  - rewrite E in Hy. change (1 - 1) with 0 in Hy. destruct Hx as [->|[-> Hmk]].
    + apply (scan_read_val 0 _ _ Hm2) in Hy; lia.
    + apply (marked_step 0 m1 m2 Hs) in Hmk; [|lia]. unfold marked in Hmk. rewrite Hmk in Hy. injection Hy as <-. lia.
  - apply (scan_read_val (n_addrs g - 1) _ _ Hm2) in Hy; [|lia].
    destruct (ss_debug Hss Hd) as [_ Hstrict]. specialize (Hstrict 0 (n_addrs g - 1)).
    pose proof (ss_aligned Hss 0). pose proof (ss_aligned Hss (n_addrs g - 1)).
    Z.div_mod_to_equations. lia.
Qed.

Lemma search_range_ok r m :
  scan_inv m → range_ok r m →
  rg scan_step scan_own (search_range g r)
    (λ _ m', scan_step m m' ∧ range_marked r m') m.
Proof.
  intros Hm Hr. unfold search_range. cbv zeta. pose proof (ss_n Hss) as Hn.
  apply rg_bind; [exact _|]. eapply rg_mono; [by apply assert_monotonicity_ok|]. intros u m1 S1; cbv beta in S1; clear u.
  unfold do_search. apply rg_bind_read. intros m2 S2.
  assert (scan_step m m2) as S02 by (by etrans). pose proof (scan_inv_step _ _ S02 Hm) as Hm2.
  destruct (scan_read 0 m2 Hm2) as (x & Hx & Hcx); [lia|]. exists x. split; [done|].
  apply rg_bind_read. intros m3 S3. pose proof (scan_inv_step _ _ S3 Hm2) as Hm3.
  destruct (scan_read (n_addrs g - 1) m3 Hm3) as (y & Hy & Hcy); [lia|]. exists y. split; [done|].
  apply rg_bind_lift. assert (c_assert (x <=? y) = Ret tt) as ->.
  { unfold c_assert. destruct debug eqn:Hd; [|done].
    pose proof (min_le_max m2 m3 x y Hm2 S3 Hx Hy Hd). by replace (x <=? y) with true by lia. }
  apply wp_ret. fold (range_words r).
  assert (scan_step m m3) as S03 by (by etrans).
  apply (read_of_step 0 _ _ _ ltac:(lia) S3) in Hcx.
  apply rg_pfor_range with (I := λ i _ m', scan_step m3 m' ∧ prefix_marked r i m'); try exact _.
  - intros i [] ma mb [Sa Hk] Sb. split; [exact (transitivity Sa Sb)|].
    apply (prefix_marked_step _ _ ma); [|done|done].
    exact (range_ok_step _ m _ (transitivity S03 Sa) Hr).
  - split; [done|]. intros i w Hi. lia.
  - intros i [] ma Hi [Sa Hk]. pose proof (transitivity S03 Sa) as S0a.
    pose proof (range_ok_step _ _ _ S0a Hr) as Hra. destruct (Hra i Hi) as ((w & Hw & Hf) & Hc & Hsep).
    assert (rg scan_step scan_own (search_word g (low r) x y i)
      (λ _ mb, (scan_inv mb ∧ hits_marked (PTR_MASK w) mb) ∧ scan_step ma mb) ma) as Hbody.
    { apply rg_frame; [intros m4 m5 Hs Hms; exact (transitivity Hms Hs)| | |done].
      { intros m4 m5 Hs Hms. exact (transitivity Hms (scan_own_step _ _ Hs)). }
      apply search_word_ok; try done; [exact (scan_inv_step _ _ S0a Hm)| |].
      - exact (read_of_step 0 _ m3 _ ltac:(lia) Sa Hcx).
      - exact (read_of_step (n_addrs g - 1) _ m3 _ ltac:(lia) Sa Hcy). }
    eapply rg_mono; [exact Hbody|]. intros [] mb [[Hmb Hh] Sab].
    split; [exact (transitivity Sa Sab)|]. intros k w' Hk' Hkr Hw'.
    destruct (decide (k = i)) as [->|].
    + rewrite (scan_step_other _ ma) in Hw' by done. by simplify_eq.
    + apply (prefix_marked_step _ _ _ _ Hra Sab Hk k w'); [lia|lia|done].
  - intros [] ma [Sa Hk]. split; [exact (transitivity S03 Sa)|].
    intros k w Hk' Hkr. apply Hk; lia.
Qed.

(** When anything counts as found, the words of the range may change
    meanwhile. *)
Definition may_change (m m' : mem) : Prop := scan_step m m' ∧ still_mapped m m'.
Definition range_mapped (r : mem_range_t) (m : mem) : Prop :=
  scan_inv m ∧ ∀ i, 0 ≤ i < range_words r → is_Some (m !! elt r.(low) i).

Lemma may_change_scan_own m m' : scan_own m m' → may_change m m'.
Proof.
  intros Hs. split; [by apply scan_own_step|]. intros a Ha. by destruct (Hs a) as [->|(i & _ & _ & _ & _ & ->)].
Qed.

Lemma range_mapped_step r m m' : may_change m m' → range_mapped r m → range_mapped r m'.
Proof. intros [Hs Hm] [Hi Hr]. split; [by eapply scan_inv_step|]. intros i Hir. by apply Hm, Hr. Qed.

Lemma search_word_safe r min_ptr max_ptr i m :
  (∀ p, found p) → 0 ≤ i < range_words r → range_mapped r m → read_of 0 min_ptr m → read_of (g.(n_addrs) - 1) max_ptr m →
  rg may_change scan_own (search_word g r.(low) min_ptr max_ptr i) (λ _ _, True) m.
Proof.
  intros Hf Hi Hm Hmin Hmax. pose proof (ss_n Hss) as Hn. unfold search_word. apply rg_bind_read. intros m1 S1.
  destruct (range_mapped_step r _ _ S1 Hm) as [Hm1 Hr]. destruct (Hr i Hi) as [w Hw]. exists w. split; [done|].
  eapply rg_mono; [|done]. apply (rg_weaken scan_step may_change scan_own scan_own); [by intros ? ? []|done|].
  destruct S1 as [S1 _]. apply search_value_ok; [done|by apply (read_of_step 0 _ m); [lia|..]|by apply (read_of_step _ _ m); [lia|..]|done].
Qed.

#[local] Instance may_change_refl : Reflexive may_change.
Proof. intros m. split; [reflexivity|by intros a]. Qed.
#[local] Instance may_change_trans : Transitive may_change.
Proof. intros m1 m2 m3 [A1 A2] [B1 B2]. split; [by etrans|]. intros a Ha. by apply B2, A2. Qed.

Lemma search_range_safe r m :
  (∀ p, found p) → range_mapped r m → rg may_change scan_own (search_range g r) (λ _ _, True) m.
Proof.
  intros Hf Hm. pose proof (ss_n Hss) as Hn. pose proof (range_mapped_step r) as HB.
  unfold search_range. cbv zeta. apply rg_bind; [exact _|].
  apply rg_mono with (P := λ _ m', True ∧ range_mapped r m').
  { apply rg_frame; [done|intros m1 m2 S; by apply HB, may_change_scan_own| |done]. eapply rg_mono; [|done].
    apply (rg_weaken scan_step may_change scan_own scan_own); [by intros ? ? []|done|by apply assert_monotonicity_ok, Hm]. }
  clear m Hm. intros _ m [_ Hm]. unfold do_search. apply rg_bind_read. intros m2 S2. pose proof (HB _ _ S2 Hm) as Hm2.
  destruct (scan_read 0 m2 (proj1 Hm2)) as (x & Hx & Hcx); [lia|]. exists x. split; [done|].
  apply rg_bind_read. intros m3 S3. pose proof (HB _ _ S3 Hm2) as Hm3.
  destruct (scan_read (n_addrs g - 1) m3 (proj1 Hm3)) as (y & Hy & Hcy); [lia|]. exists y. split; [done|].
  apply rg_bind_lift. assert (c_assert (x <=? y) = Ret tt) as ->.
  { unfold c_assert. destruct debug eqn:Hd; [|done].
    pose proof (min_le_max m2 m3 x y (proj1 Hm2) (proj1 S3) Hx Hy Hd). by replace (x <=? y) with true by lia. }
  apply wp_ret. fold (range_words r). apply (read_of_step 0 _ _ _ ltac:(lia) (proj1 S3)) in Hcx.
  set (I := λ m', range_mapped r m' ∧ read_of 0 x m' ∧ read_of (g.(n_addrs) - 1) y m').
  assert (∀ ma mb, may_change ma mb → I ma → I mb) as HI.
  { intros ma mb S (H1 & H2 & H3). split; [by eapply HB|]. destruct S as [S _].
    split; [by apply (read_of_step 0 _ ma); [lia|..]|by apply (read_of_step _ _ ma); [lia|..]]. }
  apply rg_pfor_range with (I := λ _ _, I); try exact _; [intros _ _ ma mb HIa S; by eapply HI|by split| |done].
  intros i [] ma Hi Ha. apply rg_mono with (P := λ _ m', True ∧ I m'); [|by intros [] mb []].
  apply rg_frame; [exact HI|intros mb mc S; by apply HI, may_change_scan_own|by apply search_word_safe; destruct Ha as (? & ? & ?)|done].
Qed.

(** ** Scanning threads *)
Definition scanner_ranges (t : scanner) : list mem_range_t :=
  {| low := t.(rsp); high := t.(user_stack).(high) |} ::
  (if t.(local_block).(low) >? 0 then [t.(local_block)] else []).

Definition scanner_ok (t : scanner) (m : mem) : Prop := ∀ r, r ∈ scanner_ranges t → range_ok r m.
Definition scanner_marked (t : scanner) (m : mem) : Prop :=
  ∀ r, r ∈ scanner_ranges t → range_marked r m.

Lemma scanner_ok_step t m m' : scan_step m m' → scanner_ok t m → scanner_ok t m'.
Proof. intros Hs Hok r Hr. by eapply range_ok_step, Hok. Qed.

Lemma scanner_marked_step t m m' :
  scanner_ok t m → scan_step m m' → scanner_marked t m → scanner_marked t m'.
Proof. intros Hok Hs Hm r Hr. eapply prefix_marked_step; [by apply Hok|done|by apply Hm]. Qed.

Lemma search_own_memory_ok t m :
  scan_inv m → scanner_ok t m →
  rg scan_step scan_own (search_own_memory g t) (λ _ m', scan_step m m' ∧ scanner_marked t m') m.
Proof.
  intros Hm Hok. unfold search_own_memory, scanner_marked, scanner_ok, scanner_ranges in *.
  set (r := {| low := rsp t; high := high (user_stack t) |}) in *. set (b := local_block t) in *.
  assert (range_ok r m) as Hr by (apply Hok; by left).
  apply rg_bind; [exact _|]. eapply rg_mono; [by apply search_range_ok|].
  intros u m1 [S1 Hmk]; clear u. destruct (low b >? 0).
  - assert (range_ok b m) as Hb by (apply Hok; right; by left).
    eapply rg_mono.
    { apply (rg_frame _ _ (λ m', scan_step m1 m')); [| | |done].
      - intros m2 m3 Hs Hms. exact (transitivity Hms Hs).
      - intros m2 m3 Hs Hms. exact (transitivity Hms (scan_own_step _ _ Hs)).
      - apply search_range_ok; [by eapply scan_inv_step|by eapply range_ok_step]. }
    intros u m2 [[_ Hmk2] S2]. split; [exact (transitivity S1 S2)|].
    intros r' Hr'. apply elem_of_cons in Hr' as [->|Hr'].
    + eapply prefix_marked_step; [exact (range_ok_step _ _ _ S1 Hr)|exact S2|exact Hmk].
    + by apply list_elem_of_singleton in Hr' as ->.
  - apply rg_ret. intros m2 S2. split; [exact (transitivity S1 S2)|].
    intros r' ->%list_elem_of_singleton.
    eapply prefix_marked_step; [exact (range_ok_step _ _ _ S1 Hr)|exact S2|exact Hmk].
Qed.
End scan.

(** ** Any number of threads scan at the same time *)

(** A scanned word refers to the address [p]. *)
Definition referenced (threads : list scanner) (m : mem) (p : Z) : Prop :=
  ∃ t r k w, t ∈ threads ∧ r ∈ scanner_ranges t ∧ 0 ≤ k < range_words r ∧
    m !! elt r.(low) k = Some w ∧ PTR_MASK w = p.

(** Memory when the scan starts: the addresses and the scan map are in
    place. *)
Record scan_start (g : threadscan_data_t) (o : Z → Z) (m : mem) : Prop := {
  st_addr : ∀ i, 0 ≤ i < g.(n_addrs) → m !! elt g.(buf_addrs) i = Some (o i);
  st_map : ∀ k, 0 ≤ k < g.(n_scan_map) → m !! elt g.(buf_scan_map) k = Some (o (per_page * k));
}.

(** The memory a thread scans is mapped and apart from the buffer and from
    the control words. *)
Definition scanner_mapped (g : threadscan_data_t) (ctl : Z → Prop) (m : mem) (t : scanner) : Prop :=
  ∀ r k, r ∈ scanner_ranges t → 0 ≤ k < range_words r →
    is_Some (m !! elt r.(low) k) ∧ ¬ ctl (elt r.(low) k) ∧
    ∀ i, 0 ≤ i < g.(n_addrs) → elt r.(low) k ≠ elt g.(buf_addrs) i.

Lemma scan_start_inv g o found m : scan_start g o m → scan_inv g o found m.
Proof. intros [Ha Hm]. split; [auto|done]. Qed.

Lemma scanner_mapped_ok g ctl threads m t :
  t ∈ threads → scanner_mapped g ctl m t → scanner_ok g (referenced threads m) ctl t m.
Proof.
  intros Ht Hmap r Hr i Hi. destruct (Hmap r i Hr Hi) as ([w Hw] & Hc & Hsep).
  split; [|done]. exists w. split; [done|]. by exists t, r, i, w.
Qed.

(** What is in memory once all the threads have marked. *)
Lemma marked_exact `{Build} g o ctl threads m m' i :
  scan_setup g o ctl → scan_inv g o (referenced threads m) m' →
  scan_step g o (referenced threads m) ctl m m' →
  (∀ t, t ∈ threads → scanner_mapped g ctl m t) →
  (∀ t, t ∈ threads → scanner_marked g o t m') →
  0 ≤ i < g.(n_addrs) → unique g o i →
  (referenced threads m (o i) → m' !! elt g.(buf_addrs) i = Some (o i + 1)) ∧
  (¬ referenced threads m (o i) → m' !! elt g.(buf_addrs) i = Some (o i)).
Proof.
  intros Hss Hm' Hs Hmap Hmk Hi Hu. split.
  - intros (t & r & k & w & Ht & Hr & Hk & Hw & Hp).
    destruct (Hmap t Ht r k Hr Hk) as (_ & Hc & Hsep).
    apply (Hmk t Ht r Hr k w); [exact Hk|apply Hk| |done].
    by rewrite (scan_step_other g o _ ctl _ _ _ Hs Hc Hsep).
  - intros Hn. destruct (si_addr _ _ _ _ Hm' i Hi) as [?|[? _]]; [done|]. by destruct Hn.
Qed.

Definition no_ctl (a : Z) : Prop := False.

(** C4. Any number of threads scan their stacks and local blocks at the same
    time, in any interleaving of their reads and writes.  No thread is ever
    at fault (in the debug build no assertion fails) or waits, no schedule
    runs forever, and once all threads are done the low bit of an address
    that occurs once in the buffer is set exactly if a scanned word refers to
    it.  Memory outside of the buffer is as it was. *)
Theorem concurrent_scan_exact `{Build} (g : threadscan_data_t) (o : Z → Z) (threads : list scanner)
    (m m' : mem) (ps : list (prog Z unit)) :
  scan_setup g o no_ctl → scan_start g o m →
  (∀ t, t ∈ threads → scanner_mapped g no_ctl m t) →
  rtc pstep (search_own_memory g <$> threads, m) (ps, m') →
  (∀ i p, ps !! i = Some p → ¬ faulty p m' ∧ ¬ blocked p m') ∧
  Acc (λ c' c, pstep c c') (ps, m') ∧
  (Forall finished ps → ∀ i, 0 ≤ i < g.(n_addrs) → unique g o i →
     (referenced threads m (o i) → m' !! elt g.(buf_addrs) i = Some (o i + 1)) ∧
     (¬ referenced threads m (o i) → m' !! elt g.(buf_addrs) i = Some (o i))) ∧
  (∀ a, (∀ i, 0 ≤ i < g.(n_addrs) → a ≠ elt g.(buf_addrs) i) → m' !! a = m !! a).
Proof.
  intros Hss Hst Hmap Hrun. set (found := referenced threads m).
  set (R := λ _ : nat, scan_step g o found no_ctl). set (G := λ _ : nat, scan_own g o found).
  set (Q := λ (i : nat) (_ : unit) m', scan_inv g o found m' ∧ scan_step g o found no_ctl m m' ∧
              ∀ t, threads !! i = Some t → scanner_marked g o t m').
  assert (∀ i, Reflexive (R i)) as HR by (intros; apply scan_step_refl).
  assert (∀ i, Transitive (R i)) as HT by (intros; apply scan_step_trans).
  assert (∀ i j m m', i ≠ j → G i m m' → R j m m') as HGR by (intros ????? Hs; by apply scan_own_step).
  assert (scan_inv g o found m) as Hinv by by apply scan_start_inv.
  assert (pool_ok R G Q (search_own_memory g <$> threads, m)) as Hok0.
  { intros i p. cbn [fst snd]. rewrite list_lookup_fmap. intros (t & Ht & ->)%fmap_Some.
    eapply rg_mono; [apply search_own_memory_ok; [exact Hss|exact Hinv|]|].
    - apply scanner_mapped_ok; [|apply Hmap]; by eapply list_elem_of_lookup_2.
    - intros u m1 [Hs Hmk]. unfold Q. split; [by apply (scan_inv_step g o found no_ctl Hss m)|].
      split; [done|]. intros t' Ht'. by assert (t' = t) as -> by congruence. }
  pose proof (pool_ok_rtc R G Q HR HT HGR _ _ Hrun Hok0) as Hok.
  assert (scan_step g o found no_ctl m m') as Hstep.
  { apply (pool_ok_invariant R G Q HR HT HGR (scan_step g o found no_ctl m) _ _) in Hrun; [done| |done|done].
    intros k m1 m2 H12 Hm1. exact (transitivity Hm1 (scan_own_step _ _ _ _ _ _ H12)). }
  split; [intros i p Hp; by apply (pool_ok_safe R G Q HR _ _ _ Hok Hp)|].
  split; [apply pstep_wf|]. split.
  - intros Hfin i Hi Hu. apply (marked_exact g o no_ctl); try done.
    + by apply (scan_inv_step g o found no_ctl Hss m).
    + intros t [k Hk]%list_elem_of_lookup. destruct (lookup_lt_is_Some_2 ps k) as [p Hp].
      { pose proof (pstep_length _ _ Hrun) as Hl. cbn [fst] in Hl. rewrite Hl, length_fmap. by apply lookup_lt_Some in Hk. }
      destruct (Forall_lookup_1 _ _ _ _ Hfin Hp) as [a ->].
      by apply (pool_ok_post R G Q HR _ _ _ Hok Hp).
  - intros a Ha. apply (scan_step_other g o found no_ctl _ _ _ Hstep); [intros []|exact Ha].
Qed.

(** Three addresses; thread 0 hides a reference to the second in its stack,
    thread 1 has a reference to the third in its local block. *)
Definition example_data : threadscan_data_t := {|
  max_ptrs := 512; n_addrs := 3; buf_addrs := 0x10000; n_scan_map := 1; buf_scan_map := 0x11000;
  working_buffer_sz := 0x3000; scan_map_offset := 0x2000; storage := 0 |}.
Definition example_addr (i : Z) : Z := 0x1000 * (i + 1).
Definition example_scanners : list scanner := [
  {| rsp := 0x20000; user_stack := {| low := 0x1f000; high := 0x20010 |};
     local_block := {| low := 0; high := 0 |} |};
  {| rsp := 0x30000; user_stack := {| low := 0x2f000; high := 0x30008 |};
     local_block := {| low := 0x40000; high := 0x40010 |} |} ].
Definition example_mem : mem := list_to_map [
  (0x10000, 0x1000); (0x10008, 0x2000); (0x10010, 0x3000); (0x11000, 0x1000);
  (0x20000, 0x2001); (0x20008, 7); (0x30000, 0); (0x40000, 0x2800); (0x40008, 0x3000)].

Lemma example_setup : scan_setup (H := debug_build) example_data example_addr no_ctl.
Proof.
  unfold example_addr, no_ctl. split; cbn [n_addrs buf_addrs n_scan_map buf_scan_map example_data];
    unfold elt, sizeof_size_t; try lia; try done.
  - split; intros i Hi [].
  - intros i Hi. split; [lia|]. Z.div_mod_to_equations. lia.
  - intros _. split; [lia|]. lia.
Qed.

Lemma example_start : scan_start example_data example_addr example_mem.
Proof.
  split; cbn [n_addrs n_scan_map example_data].
  - intros i Hi. assert (i = 0 ∨ i = 1 ∨ i = 2) as [->|[->| ->]] by lia; reflexivity.
  - intros k Hk. assert (k = 0) as -> by lia. reflexivity.
Qed.

(** A check of [scanner_mapped] for concrete memories. *)
Definition range_mappedb (g : threadscan_data_t) (m : mem) (r : mem_range_t) : bool :=
  forallb (λ k : nat,
    let a := elt r.(low) (Z.of_nat k) in
    match m !! a with
    | Some _ => (a <? g.(buf_addrs)) || (elt g.(buf_addrs) g.(n_addrs) <=? a)
    | None => false
    end) (seq 0 (Z.to_nat (range_words r))).

Lemma range_mappedb_sound g m t :
  forallb (range_mappedb g m) (scanner_ranges t) = true → scanner_mapped g no_ctl m t.
Proof.
  rewrite forallb_forall. intros Hall r k Hr Hk.
  specialize (Hall r (proj1 (list_elem_of_In _ _) Hr)). unfold range_mappedb in Hall.
  rewrite forallb_forall in Hall. specialize (Hall (Z.to_nat k)). cbv zeta in Hall.
  rewrite Z2Nat.id in Hall by lia. specialize (Hall ltac:(apply in_seq; lia)).
  destruct (m !! elt (low r) k); [|done]. split; [by eexists|]. split; [intros []|].
  intros i Hi. unfold elt, sizeof_size_t in *. lia.
Qed.

Lemma example_mapped t : t ∈ example_scanners → scanner_mapped example_data no_ctl example_mem t.
Proof.
  intros Ht. apply range_mappedb_sound.
  assert (forallb (λ t, forallb (range_mappedb example_data example_mem) (scanner_ranges t))
            example_scanners = true) as Hall by (vm_compute; reflexivity).
  rewrite forallb_forall in Hall. apply Hall. by apply list_elem_of_In.
Qed.

Lemma concurrent_scan_exact_witness :
  let c := psched (concat (replicate 60 [0%nat; 1%nat]))
             (search_own_memory (H := debug_build) example_data <$> example_scanners, example_mem) in
  Forall finished c.1 ∧
  ∀ i, 0 ≤ i < 3 → unique example_data example_addr i →
     (referenced example_scanners example_mem (example_addr i) →
        c.2 !! (0x10000 + 8 * i) = Some (example_addr i + 1)) ∧
     (¬ referenced example_scanners example_mem (example_addr i) →
        c.2 !! (0x10000 + 8 * i) = Some (example_addr i)).
Proof.
  intros c.
  assert (Forall finished c.1) as Hfin.
  { assert (c.1 = [Stop (Ret tt); Stop (Ret tt)]) as -> by (vm_compute; reflexivity).
    repeat constructor; by eexists. }
  split; [exact Hfin|].
  destruct (concurrent_scan_exact (H := debug_build) example_data example_addr example_scanners
    example_mem c.2 c.1 example_setup example_start example_mapped) as (_ & _ & Hex & _).
  - rewrite <- surjective_pairing. apply psched_rtc.
  - intros i Hi Hu. by apply (Hex Hfin).
Defined.

(** ** Degenerate buffers *)

(** C26. A scan with no addresses in the buffer is a defect the code does not
    guard against: it looks for the largest address one word before the
    buffer.  If nothing is mapped there the program is undefined, in both
    builds. *)
Theorem search_without_addresses `{Build} (g : threadscan_data_t) (r : mem_range_t) (m : mem) x :
  g.(n_addrs) = 0 → m !! elt g.(buf_addrs) 0 = Some x → m !! elt g.(buf_addrs) (-1) = None →
  run (search_range g r) m = UB.
Proof.
  intros Hn H0 H1. unfold search_range. rewrite Hn.
  assert (run (assert_monotonicity (buf_addrs g) 0) m = Ret (tt, m)) as Hmono.
  { unfold assert_monotonicity. by destruct debug. }
  rewrite run_bind, Hmono. cbn [mbind outcome_bind]. unfold do_search.
  rewrite (run_bind_rd _ _ _ _ H0), Hn. by rewrite run_bind_rd_unmapped.
Qed.

Lemma search_without_addresses_witness :
  let g := {| max_ptrs := 4; n_addrs := 0; buf_addrs := 0x10000; n_scan_map := 0; buf_scan_map := 0x10040;
              working_buffer_sz := 96; scan_map_offset := 64; storage := 0 |} in
  run (search_range (H := release_build) g {| low := 0x20000; high := 0x20010 |}) {[0x10000 := 0]} = UB.
Proof.
  intros g. exact (search_without_addresses (H := release_build) g {| low := 0x20000; high := 0x20010 |} {[0x10000 := 0]} 0
    eq_refl eq_refl eq_refl).
Defined.
