(* ===== verification/Round.v ===== *)
(** * threadscan.c: one round of scanning

    The reclaimer resets a counter, signals every other thread, scans its own
    memory and waits until all signalled threads have scanned theirs.  The
    signal handlers run in the other threads at the same time.  Delivery of a
    signal is the operating system's: [sigpending self] is the word that is
    nonzero once thread [self] has been signalled, and the handler runs when
    it is.  Before and after the handler a thread runs code of the
    application, which keeps the discipline [user_ok]. *)

From S2P Require Import Prelude Conc Ghost Mem Env ThreadList Thread Search.

Definition SIGTHREADSCAN : Z := 10. (* SIGUSR1 *)

Section code.
Context `{Build} (v : globals_t) (g : threadscan_data_t) (pthread_kill : Z → Z → prog Z Z).

(** Search the local region, if it's been set. *)
Definition search_local_block (td : Z) : prog Z unit :=
  set_ ← rd (td_local_block_low td);
  if set_ >? 0 then
    low ← rd (td_local_block_low td);
    high ← rd (td_local_block_high td);
    search_range g {| low := low; high := high |}
  else mret tt.

(** The result is what the C function stores through its argument: [addrs]
    and [count]. *)
Definition do_reclaim (td rsp : Z) : prog Z (Z * Z) :=
  user_stack ← threadscan_thread_user_stack td;
  _ ← wr v.(self_stacks_searched) 0;
  sig_count ← threadscan_thread_signal_all_but_me v pthread_kill td SIGTHREADSCAN;
  _ ← search_range g {| low := rsp; high := user_stack.(high) |};
  _ ← search_local_block td;
  _ ← await v.(self_stacks_searched) (λ n, negb (n <? sig_count));
  mret (g.(buf_addrs), g.(n_addrs)).

Definition search_self_stack (td arg : Z) : prog Z unit :=
  user_stack ← threadscan_thread_user_stack td;
  _ ← lift (c_assert (negb (arg =? 0)));
  _ ← search_range g {| low := arg; high := user_stack.(high) |};
  _ ← search_local_block td;
  _ ← sync_fetch_and_add v.(self_stacks_searched) 1;
  mret tt.

Definition signal_handler (td rsp sig : Z) : prog Z unit :=
  _ ← lift (c_assert (SIGTHREADSCAN =? sig));
  _ ← threadscan_thread_cleanup_raise_flag v td;
  _ ← search_self_stack td rsp;
  threadscan_thread_cleanup_lower_flag td.
End code.

(** A thread that is interrupted at stack pointer [th_rsp]. *)
Record thread := { th_td : Z; th_self : Z; th_rsp : Z }.

#[export] Instance thread_eq_dec : EqDecision thread.
Proof. solve_decision. Defined.

(** A thread that runs [user] code.  The signal may come anywhere: [user]
    stops where it is interrupted, its result is what remains of it. *)
Definition bystander `{Build} (v : globals_t) (g : threadscan_data_t) (sigpending : Z → Z)
    (user : thread → prog Z (prog Z unit)) (t : thread) : prog Z (Z * Z) :=
  rest ← user t;
  _ ← await (sigpending t.(th_self)) (λ pending, negb (pending =? 0));
  _ ← signal_handler v g t.(th_td) t.(th_rsp) SIGTHREADSCAN;
  _ ← rest;
  mret (0, 0).

(** ** The scanners of a round, read off the thread metadata *)
Definition scanner_of (m : mem) (t : thread) : scanner := {|
  rsp := t.(th_rsp);
  user_stack := {| low := word m (td_user_stack_low t.(th_td)); high := word m (td_user_stack_high t.(th_td)) |};
  local_block := {| low := word m (td_local_block_low t.(th_td)); high := word m (td_local_block_high t.(th_td)) |};
|}.

(** The words a thread scans, and the addresses they refer to. *)
Definition scans (t : scanner) (a : Z) : Prop :=
  ∃ r k, r ∈ scanner_ranges t ∧ 0 ≤ k < range_words r ∧ a = elt r.(low) k.
Definition refers (t : scanner) (m : mem) (p : Z) : Prop := ∃ a w, scans t a ∧ m !! a = Some w ∧ PTR_MASK w = p.

(** The words a thread scans, listed. *)
Definition scan_words (t : scanner) : list Z :=
  r ← scanner_ranges t; (λ k : nat, elt r.(low) (Z.of_nat k)) <$> seq 0 (Z.to_nat (range_words r)).

Lemma elem_of_scan_words t a : a ∈ scan_words t ↔ scans t a.
Proof.
  unfold scan_words. rewrite list_elem_of_bind. split.
  - intros (r & (k & -> & Hk%elem_of_seq)%list_elem_of_fmap & Hr). exists r, (Z.of_nat k). split; [done|]. split; [lia|done].
  - intros (r & k & Hr & Hk & ->). exists r. split; [|done]. apply list_elem_of_fmap. exists (Z.to_nat k).
    split; [by rewrite Z2Nat.id by lia|]. apply elem_of_seq. lia.
Qed.

(** One of the threads refers to [p]; where it scans is read off [m0]. *)
Definition holding (m0 : mem) (ts : list thread) (m : mem) (p : Z) : Prop :=
  referenced (scanner_of m0 <$> ts) m p.

Lemma referenced_refers scanners m p : referenced scanners m p ↔ ∃ t, t ∈ scanners ∧ refers t m p.
Proof.
  split.
  - intros (t & r & k & w & Ht & Hr & Hk & Hw & Hp). exists t. split; [done|]. exists (elt r.(low) k), w.
    split; [by exists r, k|done].
  - intros (t & Ht & a & w & (r & k & Hr & Hk & ->) & Hw & Hp). by exists t, r, k, w.
Qed.

Lemma holding_refers m0 ts m p : holding m0 ts m p ↔ ∃ t, t ∈ ts ∧ refers (scanner_of m0 t) m p.
Proof.
  unfold holding. rewrite referenced_refers. split.
  - intros (? & (t & -> & Ht)%list_elem_of_fmap & Hr). by exists t.
  - intros (t & Ht & Hr). exists (scanner_of m0 t). split; [by apply list_elem_of_fmap_2|done].
Qed.

(** ** What user code does

    [heap]: shared words that no thread scans.  A thread writes there and to
    the words it scans, and never makes a reference to a [retired] block that
    it does not have already. *)
Section user.
Context (heap retired : Z → Prop) (t : scanner).

Record user_step (m m' : mem) : Prop := {
  us_rest a : ¬ scans t a → ¬ heap a → m' !! a = m !! a;
  us_mapped a : is_Some (m !! a) → is_Some (m' !! a);
  us_refs p : retired p → refers t m' p → refers t m p;
}.

(** It may copy the references it has. *)
Lemma user_step_store m a x :
  scans t a ∨ heap a → (scans t a → retired (PTR_MASK x) → refers t m (PTR_MASK x)) → user_step m (<[a := x]> m).
Proof.
  intros Ha Hx. split.
  - intros b Hs Hh. rewrite lookup_insert_ne; [done|]. intros ->. tauto.
  - intros b Hb. apply lookup_insert_is_Some'. by right.
  - intros p Hp (b & w & Hb & Hw & <-). destruct (decide (a = b)) as [->|Hne].
    + rewrite lookup_insert_eq in Hw. injection Hw as ->. auto.
    + rewrite lookup_insert_ne in Hw by done. by exists b, w.
Qed.

(** It relies on its own words. *)
Definition user_rely (m m' : mem) : Prop :=
  (∀ a, scans t a → m' !! a = m !! a) ∧ ∀ a, is_Some (m !! a) → is_Some (m' !! a).

#[export] Instance user_rely_refl : Reflexive user_rely.
Proof. by intros m. Qed.

#[export] Instance user_rely_trans : Transitive user_rely.
Proof. intros m1 m2 m3 [H1 H2] [H3 H4]. split; [|auto]. intros a Ha. rewrite H3; auto. Qed.

Definition rest_ok (rest : prog Z unit) : mem → Prop := rg user_rely user_step rest (λ _ _, True).
Definition user_ok (user : prog Z (prog Z unit)) : mem → Prop := rg user_rely user_step user rest_ok.

(** The rules for its reads and writes. *)
Lemma user_rg_rd {A} a x (k : Z → prog Z A) P m :
  scans t a → m !! a = Some x → (∀ m', user_rely m m' → rg user_rely user_step (k x) P m') →
  rg user_rely user_step (rd a ≫= k) P m.
Proof.
  intros Ha Hx Hk. apply rg_bind_read. intros m' Hm. exists x. split; [|by apply Hk].
  destruct Hm as [Hm _]. by rewrite (Hm a Ha), Hx.
Qed.

Lemma user_rg_wr {A} a x (k : unit → prog Z A) P m :
  scans t a ∨ heap a → is_Some (m !! a) →
  (∀ m', user_rely m m' → scans t a → retired (PTR_MASK x) → refers t m' (PTR_MASK x)) →
  (∀ m', user_rely m m' → rg user_rely user_step (k tt) P (<[a := x]> m')) →
  rg user_rely user_step (wr a x ≫= k) P m.
Proof.
  intros Ha Hx Href Hk m' Hm. destruct (proj2 Hm a Hx) as [y Hy]. simpl. rewrite Hy. simpl.
  split; [apply user_step_store; auto|auto].
Qed.
End user.

(** The discipline is about what is retired only. *)
Lemma user_ok_retired heap (R R' : Z → Prop) t user m :
  (∀ p, R' p → R p) → user_ok heap R t user m → user_ok heap R' t user m.
Proof.
  intros HR. assert (∀ m m', user_step heap R t m m' → user_step heap R' t m m') as Hstep.
  { intros m1 m2 [H1 H2 H3]. split; auto. }
  intros Hu. eapply rg_mono.
  - by apply (rg_weaken (user_rely t) (user_rely t) (user_step heap R t) (user_step heap R' t)), Hu.
  - intros rest m' Hrest. by apply (rg_weaken (user_rely t) (user_rely t) (user_step heap R t) (user_step heap R' t)), Hrest.
Qed.

Section round.
Context `{Build} (v : globals_t) (g : threadscan_data_t) (pthread_kill : Z → Z → prog Z Z).
Context (sigpending : Z → Z) (o : Z → Z).
Context (heap retired : Z → Prop) (user : thread → prog Z (prog Z unit)).

(** Thread [me] reclaims, the threads [ts] run user code. *)
Context (me : thread) (ts : list thread) (m0 : mem).

Definition pending_of (t : thread) : Z := sigpending t.(th_self).

(** The words the threads synchronise with. *)
Definition ctl (a : Z) : Prop :=
  a = v.(self_stacks_searched) ∨ a = tl_lock v.(thread_list_) ∨
  ∃ t, t ∈ ts ∧ (a = pending_of t ∨ a = td_local_timestamp t.(th_td) ∨
                 a = td_times_without_update t.(th_td)).

(** The words user code changes are volatile as well; [vol_but t]: seen by
    the code of [t] itself. *)
Definition vol (a : Z) : Prop := ctl a ∨ heap a ∨ ∃ t, t ∈ ts ∧ scans (scanner_of m0 t) a.
Definition vol_but (t : thread) (a : Z) : Prop :=
  ctl a ∨ heap a ∨ ∃ t', t' ∈ ts ∧ t' ≠ t ∧ scans (scanner_of m0 t') a.

(** Words that do not change during the round. *)
Definition fixed (a : Z) : Prop := ¬ vol a ∧ ∀ i, 0 ≤ i < g.(n_addrs) → a ≠ elt g.(buf_addrs) i.

(** The fields of a thread's metadata the round reads. *)
Definition td_ready (td : Z) : Prop :=
  td ≠ 0 ∧
  ∀ a, a ∈ [td_next td; td_self td; td_is_active td; td_user_stack_low td; td_user_stack_high td;
            td_local_block_low td; td_local_block_high td] → fixed a ∧ is_Some (m0 !! a).

Definition threads : list thread := me :: ts.

(** Metadata in the list of a thread that has not started yet or is about to
    leave: it is not active. *)
Definition td_idle (td : Z) : Prop :=
  td ≠ 0 ∧ fixed (td_next td) ∧ is_Some (m0 !! td_next td) ∧ fixed (td_is_active td) ∧ m0 !! td_is_active td = Some 0.

(** The list holds the metadata of the threads, and of idle ones. *)
Definition list_of_threads (tds : list Z) : Prop :=
  ∃ idle, tds ≡ₚ (th_td <$> threads) ++ idle ∧ ∀ td, td ∈ idle → td_idle td.

(** The state when the reclaimer starts a round. *)
Record round_start : Prop := {
  rd_scan : scan_setup g o vol;
  rd_buf : scan_start g o m0;
  rd_mapped : ∀ t, t ∈ threads → scanner_mapped g (λ a, ctl a ∨ heap a) m0 (scanner_of m0 t);
  rd_private : ∀ t t' a, t ∈ threads → t' ∈ threads → t ≠ t' → scans (scanner_of m0 t) a → ¬ scans (scanner_of m0 t') a;
  rd_heap : ∀ a, heap a → ¬ ctl a;
  (* the list of threads *)
  rd_list : ∃ tds, thread_list v.(thread_list_) m0 tds ∧ list_of_threads tds;
  rd_ready : ∀ t, t ∈ threads → td_ready t.(th_td);
  rd_head : fixed (tl_head v.(thread_list_));
  rd_global : fixed v.(global_timestamp) ∧ is_Some (m0 !! v.(global_timestamp));
  rd_active : ∀ t, t ∈ ts → word m0 (td_is_active t.(th_td)) ≠ 0 ∧
                            word m0 (td_self t.(th_td)) = t.(th_self) ∧ t.(th_rsp) ≠ 0;
  (* flags, stamps and counters *)
  rd_counter : is_Some (m0 !! v.(self_stacks_searched));
  rd_pending : ∀ t, t ∈ ts → m0 !! pending_of t = Some 0;
  rd_stamps : ∀ t, t ∈ ts → is_Some (m0 !! td_local_timestamp t.(th_td)) ∧
                ∃ n, m0 !! td_times_without_update t.(th_td) = Some n ∧ INT_MIN ≤ n ≤ INT_MAX;
  (* they are different words *)
  rd_distinct : v.(self_stacks_searched) ≠ tl_lock v.(thread_list_) ∧
    ∀ t, t ∈ ts →
      (∀ a, a ∈ [pending_of t; td_local_timestamp t.(th_td); td_times_without_update t.(th_td)] →
         a ≠ v.(self_stacks_searched) ∧ a ≠ tl_lock v.(thread_list_)) ∧
      (∀ t', t' ∈ ts → pending_of t ≠ td_local_timestamp t'.(th_td) ∧
         pending_of t ≠ td_times_without_update t'.(th_td) ∧
         td_local_timestamp t.(th_td) ≠ td_times_without_update t'.(th_td));
}.

(** The operating system delivers a signal to a live thread. *)
Definition pthread_kill_delivers : Prop :=
  ∀ t, t ∈ ts → pthread_kill t.(th_self) SIGTHREADSCAN = (_ ← wr (pending_of t) 1; mret 0).

(** The user code of the threads keeps the discipline. *)
Definition users_ok : Prop := ∀ t, t ∈ ts → user_ok heap retired (scanner_of m0 t) (user t) m0.

Context (Hstart : round_start) (Hkill : pthread_kill_delivers) (Husers : users_ok).

(** ** The invariant

    The auxiliary state: whether the counter has been reset, and which of
    the threads [ts] have counted themselves. *)
Definition aux : Type := bool * gset nat.
Implicit Types s : mem * aux.

(** References that are not to retired blocks can appear at any time. *)
Definition found (p : Z) : Prop := retired p → holding m0 threads m0 p.
Definition is_set (t : thread) (m : mem) : Prop := ∃ n, m !! pending_of t = Some n ∧ n ≠ 0.
Definition all_set (m : mem) : Prop := ∀ t, t ∈ ts → is_set t m.

(** What a thread that has scanned refers to is marked. *)
Definition self_marked (t : thread) (m : mem) : Prop :=
  ∀ i, 0 ≤ i < g.(n_addrs) → unique g o i → retired (o i) → refers (scanner_of m0 t) m (o i) → marked g o i m.

(** Marks and references. *)
Record app_inv (m : mem) : Prop := {
  ai_step : scan_step g o found vol m0 m;
  ai_mapped a : is_Some (m0 !! a) → is_Some (m !! a);
  ai_refs t p : t ∈ threads → retired p → refers (scanner_of m0 t) m p → refers (scanner_of m0 t) m0 p;
}.

(** A change that user code does not notice. *)
Record quiet (m m' : mem) : Prop := {
  qt_step : scan_step g o found vol m m';
  qt_own t : t ∈ threads → scan_step g o found (vol_but t) m m';
  qt_mapped a : is_Some (m !! a) → is_Some (m' !! a);
}.

Record inv s : Prop := {
  in_app : app_inv s.1;
  in_counter : is_Some (s.1 !! v.(self_stacks_searched));
  in_reset : s.2.1 = true → s.1 !! v.(self_stacks_searched) = Some (Z.of_nat (size s.2.2));
  in_pending : ∀ t, t ∈ ts → is_Some (s.1 !! pending_of t) ∧ (is_set t s.1 → s.2.1 = true);
  in_stamps : ∀ t, t ∈ ts → is_Some (s.1 !! td_local_timestamp t.(th_td)) ∧
                ∃ n, s.1 !! td_times_without_update t.(th_td) = Some n ∧ INT_MIN ≤ n ≤ INT_MAX;
  in_done : ∀ k, k ∈ s.2.2 → ∃ t, ts !! k = Some t ∧ is_set t s.1 ∧
                self_marked t s.1;
}.

(** What each thread does and relies on. *)
Definition base s s' : Prop :=
  (inv s → inv s') ∧ scan_step g o found vol s.1 s'.1 ∧ (∀ a, is_Some (s.1 !! a) → is_Some (s'.1 !! a)) ∧
  (s.2.1 = true → s'.2.1 = true) ∧ s.2.2 ⊆ s'.2.2.
Definition pendings_same s s' : Prop := ∀ t, t ∈ ts → s'.1 !! pending_of t = s.1 !! pending_of t.
Definition lock_same s s' : Prop := s'.1 !! tl_lock v.(thread_list_) = s.1 !! tl_lock v.(thread_list_).
(** The words thread [t] scans are its own. *)
Definition private (t : thread) s s' : Prop := t ∈ threads → scan_step g o found (vol_but t) s.1 s'.1.

Definition R_me s s' : Prop := base s s' ∧ pendings_same s s' ∧ lock_same s s' ∧ s'.2.1 = s.2.1 ∧ private me s s'.
Definition G_me s s' : Prop :=
  base s s' ∧ s'.2.2 = s.2.2 ∧ (∀ t, t ∈ ts → is_set t s.1 → is_set t s'.1) ∧ ∀ t, private t s s'.
Definition R_by (k : nat) s s' : Prop :=
  base s s' ∧ (∀ t, ts !! k = Some t → is_set t s.1 → is_set t s'.1) ∧ (k ∈ s'.2.2 → k ∈ s.2.2) ∧
  ∀ t, ts !! k = Some t → private t s s'.
Definition G_by (k : nat) s s' : Prop :=
  base s s' ∧ pendings_same s s' ∧ lock_same s s' ∧ s'.2.1 = s.2.1 ∧ s'.2.2 ⊆ {[k]} ∪ s.2.2 ∧
  ∀ t, ts !! k ≠ Some t → private t s s'.

Definition R (i : nat) : mem * aux → mem * aux → Prop := match i with O => R_me | S k => R_by k end.
Definition G (i : nat) : mem * aux → mem * aux → Prop := match i with O => G_me | S k => G_by k end.

(** What a waiting thread knows. *)
Definition W (i : nat) s : Prop :=
  match i with
  | O => inv s ∧ all_set s.1 ∧ (size s.2.2 < length ts)%nat
  | S k => inv s ∧ ∀ t, ts !! k = Some t → ¬ is_set t s.1
  end.

(** What a thread that is done knows. *)
Definition Q (i : nat) (r : Z * Z) s : Prop :=
  match i with
  | O => r = (g.(buf_addrs), g.(n_addrs)) ∧ inv s ∧ all_set s.1 ∧
         (∀ k, (k < length ts)%nat → k ∈ s.2.2) ∧ self_marked me s.1
  | S k => inv s ∧ k ∈ s.2.2
  end.

(** ** Volatile words *)
Lemma ctl_vol a : ctl a → vol a.
Proof. by left. Qed.

Lemma vol_but_vol t a : vol_but t a → vol a.
Proof. intros [?|[?|(t' & Ht' & _ & ?)]]; [by left|by right; left|]. right; right. by exists t'. Qed.

Lemma vol_not_buf a i : vol a → 0 ≤ i < g.(n_addrs) → a ≠ elt g.(buf_addrs) i.
Proof. intros Ha Hi ->. by apply (ss_ctl g o vol (rd_scan Hstart)) in Ha. Qed.

Lemma ctl_not_buf a i : ctl a → 0 ≤ i < g.(n_addrs) → a ≠ elt g.(buf_addrs) i.
Proof. intros Ha. by apply vol_not_buf, ctl_vol. Qed.

Lemma setup_but t : scan_setup g o (vol_but t).
Proof.
  destruct (rd_scan Hstart) as [H1 H2 H3 [H4 H4'] H5 H6 H7]. split; try done.
  split; intros i Hi Hv%vol_but_vol; [by apply (H4 i)|by apply (H4' i)].
Qed.

(** The words a thread scans. *)
Lemma own_word t a :
  t ∈ threads → scans (scanner_of m0 t) a →
  is_Some (m0 !! a) ∧ ¬ ctl a ∧ ¬ heap a ∧ ¬ vol_but t a ∧ ∀ i, 0 ≤ i < g.(n_addrs) → a ≠ elt g.(buf_addrs) i.
Proof.
  intros Ht Ha. pose proof Ha as (r & k & Hr & Hk & ->). destruct (rd_mapped Hstart t Ht r k Hr Hk) as (Hm & Hc & Hb).
  split; [done|]. split; [tauto|]. split; [tauto|]. split; [|done].
  intros [?|[?|(t' & Ht' & Hne & Ha')]]; [tauto|tauto|].
  by apply (rd_private Hstart t' t (elt r.(low) k)) in Ha'; [|right|..].
Qed.

Lemma own_same t a m m' :
  t ∈ threads → scans (scanner_of m0 t) a → scan_step g o found (vol_but t) m m' → m' !! a = m !! a.
Proof. intros Ht Ha Hs. destruct (own_word t a Ht Ha) as (_ & _ & _ & Hv & Hb). by eapply scan_step_other. Qed.

Lemma refers_own t m m' p :
  t ∈ threads → scan_step g o found (vol_but t) m m' → refers (scanner_of m0 t) m' p → refers (scanner_of m0 t) m p.
Proof.
  intros Ht Hs (a & w & Ha & Hw & Hp). exists a, w. split; [done|]. split; [|done].
  by rewrite <- (own_same t a m m').
Qed.

Lemma self_marked_own t m m' :
  t ∈ threads → scan_step g o found (vol_but t) m m' → self_marked t m → self_marked t m'.
Proof.
  intros Ht Hs Hm i Hi Hu Hr Hf. apply (marked_step g o found (vol_but t) (setup_but t) i m); [done|done|].
  apply Hm; try done. by apply (refers_own t m m').
Qed.

Lemma scanner_marked_self t m : scanner_marked g o (scanner_of m0 t) m → self_marked t m.
Proof.
  intros Hm i Hi Hu _ (a & w & (r & k & Hr & Hk & ->) & Hw & Hp). apply (Hm r Hr k w); [lia|lia|done|done].
Qed.

(** ** Quiet changes *)
Lemma insert_step (P : Z → Prop) m a x : P a → scan_step g o found P m (<[a := x]> m).
Proof. intros Ha b Hb. left. rewrite lookup_insert_ne; [done|]. by intros ->. Qed.

Lemma quiet_insert m a x : ctl a → quiet m (<[a := x]> m).
Proof.
  intros Ha. split.
  - by apply insert_step, ctl_vol.
  - intros t _. apply insert_step. by left.
  - intros b Hb. apply lookup_insert_is_Some'. by right.
Qed.

Lemma scan_own_mapped m m' a : scan_own g o found m m' → is_Some (m !! a) → is_Some (m' !! a).
Proof. intros Hs Ha. destruct (Hs a) as [->|(i & _ & _ & _ & _ & ->)]; [done|by eexists]. Qed.

Lemma quiet_scan_own m m' : scan_own g o found m m' → quiet m m'.
Proof.
  intros Hs. split; [by apply scan_own_step|intros t _; by apply scan_own_step|].
  intros a. by apply scan_own_mapped.
Qed.

Lemma quiet_app m m' : quiet m m' → app_inv m → app_inv m'.
Proof.
  intros [Hq1 Hq2 Hq3] [H1 H2 H3]. split.
  - exact (transitivity H1 Hq1).
  - auto.
  - intros t p Ht Hp Hr. apply H3; [done|done|]. eapply refers_own; [done|by apply Hq2|done].
Qed.

(** ** The invariant is kept *)
Lemma scan_own_ctl m m' a : scan_own g o found m m' → ctl a → m' !! a = m !! a.
Proof.
  intros Hs Ha. destruct (Hs a) as [?|(i & Hi & -> & _)]; [done|].
  by destruct (ctl_not_buf _ i Ha Hi).
Qed.

Lemma in_step s : inv s → scan_step g o found vol m0 s.1.
Proof. intros Hi. apply (ai_step _ (in_app _ Hi)). Qed.

Lemma fixed_word s a : inv s → fixed a → s.1 !! a = m0 !! a.
Proof. intros Hi [Hc Hb]. by apply (scan_step_other g o found vol _ _ _ (in_step _ Hi)). Qed.

Lemma inv_scan s : inv s → scan_inv g o found s.1.
Proof.
  intros Hi. apply (scan_inv_step g o found vol (rd_scan Hstart) _ _ (in_step _ Hi)).
  by apply scan_start_inv, (rd_buf Hstart).
Qed.

Lemma inv_scanner_ok t s : t ∈ threads → inv s → scanner_ok g found (vol_but t) (scanner_of m0 t) s.1.
Proof.
  intros Ht Hi r Hr k Hk. set (a := elt (low r) k).
  assert (scans (scanner_of m0 t) a) as Ha by (by exists r, k).
  destruct (own_word t a Ht Ha) as (Hm & _ & _ & Hv & Hb). split; [|done].
  destruct (ai_mapped _ (in_app _ Hi) a Hm) as [w Hw]. exists w. split; [done|]. intros Hp.
  apply referenced_refers. exists (scanner_of m0 t). split; [by apply list_elem_of_fmap_2|].
  apply (ai_refs _ (in_app _ Hi)); [done|done|]. by exists a, w.
Qed.

Lemma in_threads k t : ts !! k = Some t → t ∈ threads.
Proof. intros Hk. right. by eapply list_elem_of_lookup_2. Qed.

(** What the counted threads refer to stays marked. *)
Lemma done_quiet s m' t :
  t ∈ ts → quiet s.1 m' → self_marked t s.1 → self_marked t m'.
Proof. intros Ht Hq. apply self_marked_own; [by right|]. apply (qt_own _ _ Hq). by right. Qed.

(** A write of a control word other than the counter. *)
Lemma inv_insert_other s a x :
  inv s → ctl a → a ≠ v.(self_stacks_searched) →
  (∀ t, t ∈ ts → a = td_times_without_update t.(th_td) → INT_MIN ≤ x ≤ INT_MAX) →
  (∀ t, t ∈ ts → a = pending_of t → x ≠ 0 ∧ s.2.1 = true) →
  inv (<[a := x]> s.1, s.2) ∧ (∀ t, t ∈ ts → is_set t s.1 → is_set t (<[a := x]> s.1)).
Proof.
  intros Hi Ha Hne Htimes Hpend. pose proof (quiet_insert s.1 a x Ha) as Hs.
  assert (∀ t, t ∈ ts → is_set t s.1 → is_set t (<[a := x]> s.1)) as Hset.
  { intros t Ht (n & Hn & Hn0). unfold is_set. destruct (decide (a = pending_of t)) as [->|].
    - exists x. rewrite lookup_insert_eq. split; [done|]. by apply (Hpend t Ht).
    - exists n. by rewrite lookup_insert_ne. }
  split; [|done]. split; cbn [fst snd].
  - exact (quiet_app _ _ Hs (in_app _ Hi)).
  - rewrite lookup_insert_ne by done. apply (in_counter _ Hi).
  - rewrite lookup_insert_ne by done. apply (in_reset _ Hi).
  - intros t Ht. split; [apply lookup_insert_is_Some'; right; by apply (in_pending _ Hi)|].
    intros (n & Hn & Hn0). destruct (decide (a = pending_of t)) as [->|Hap]; [by apply (Hpend t)|].
    rewrite lookup_insert_ne in Hn by done. apply (in_pending _ Hi t Ht). by exists n.
  - intros t Ht. split; [apply lookup_insert_is_Some'; right; by apply (in_stamps _ Hi)|].
    destruct (decide (a = td_times_without_update (th_td t))) as [->|].
    + exists x. rewrite lookup_insert_eq. split; [done|]. by apply (Htimes t).
    + rewrite lookup_insert_ne by done. by apply (in_stamps _ Hi).
  - intros k Hk. destruct (in_done _ Hi k Hk) as (t & Ht & Hst & Hm). exists t.
    split; [done|]. split; [apply Hset; [by eapply list_elem_of_lookup_2|done]|].
    by apply (done_quiet s); [eapply list_elem_of_lookup_2|..].
Qed.

(** A write of the counter. *)
Lemma inv_insert_counter s γ :
  inv s → γ.1 = true →
  (∀ k, k ∈ γ.2 → ∃ t, ts !! k = Some t ∧ is_set t s.1 ∧ self_marked t s.1) →
  inv (<[v.(self_stacks_searched) := Z.of_nat (size γ.2)]> s.1, γ).
Proof.
  intros Hi Hγ Hdone. destruct (rd_distinct Hstart) as [_ Hd].
  assert (ctl v.(self_stacks_searched)) as Ha by (by left).
  pose proof (quiet_insert s.1 _ (Z.of_nat (size γ.2)) Ha) as Hs.
  assert (∀ t a, t ∈ ts → a ∈ [pending_of t; td_local_timestamp t.(th_td); td_times_without_update t.(th_td)] →
    <[v.(self_stacks_searched) := Z.of_nat (size γ.2)]> s.1 !! a = s.1 !! a) as Hother.
  { intros t a Ht Hin. rewrite lookup_insert_ne; [done|]. apply not_eq_sym, (Hd t Ht). done. }
  split; cbn [fst snd].
  - exact (quiet_app _ _ Hs (in_app _ Hi)).
  - rewrite lookup_insert_eq. by eexists.
  - by rewrite lookup_insert_eq.
  - intros t Ht. rewrite (Hother t) by (done || by left). split; [by apply (in_pending _ Hi)|done].
  - intros t Ht. rewrite !(Hother t) by (done || (rewrite !elem_of_cons; auto)). by apply (in_stamps _ Hi).
  - intros k Hk. destruct (Hdone k Hk) as (t & Ht & (n & Hn & Hn0) & Hm). exists t. split; [done|].
    pose proof (list_elem_of_lookup_2 _ _ _ Ht) as Hin. split.
    + exists n. by rewrite (Hother t) by (done || by left).
    + by apply (done_quiet s); [eapply list_elem_of_lookup_2|..].
Qed.

(** Steps of the scan. *)
Lemma inv_scan_own s m' : inv s → scan_own g o found s.1 m' → inv (m', s.2).
Proof.
  intros Hi Hs. pose proof (quiet_scan_own _ _ Hs) as Hs'.
  assert (∀ a, ctl a → m' !! a = s.1 !! a) as Hc by (intros; by apply scan_own_ctl).
  assert (∀ t a, t ∈ ts → a ∈ [pending_of t; td_local_timestamp t.(th_td); td_times_without_update t.(th_td)] →
    m' !! a = s.1 !! a) as Hother.
  { intros t a Ht Hin. apply Hc. right; right. exists t. split; [done|].
    rewrite !elem_of_cons, elem_of_nil in Hin. tauto. }
  split; cbn [fst snd].
  - exact (quiet_app _ _ Hs' (in_app _ Hi)).
  - rewrite Hc by (by left). apply (in_counter _ Hi).
  - rewrite Hc by (by left). apply (in_reset _ Hi).
  - intros t Ht. unfold is_set. rewrite !(Hother t) by (done || (rewrite !elem_of_cons; auto)). by apply (in_pending _ Hi).
  - intros t Ht. rewrite !(Hother t) by (done || (rewrite !elem_of_cons; auto)). by apply (in_stamps _ Hi).
  - intros k Hk. destruct (in_done _ Hi k Hk) as (t & Ht & (n & Hn & Hn0) & Hm). exists t. split; [done|].
    pose proof (list_elem_of_lookup_2 _ _ _ Ht) as Hin. split.
    + exists n. by rewrite (Hother t) by (done || by left).
    + by apply (done_quiet s); [eapply list_elem_of_lookup_2|..].
Qed.

(** ** Rely and guarantee fit together *)
Lemma thread_tds_NoDup : NoDup (th_td <$> threads).
Proof.
  destruct (rd_list Hstart) as (tds & Hl & idle & Hp & _). pose proof (tl_nodup _ _ _ Hl) as Hnd.
  rewrite Hp in Hnd. by apply NoDup_app in Hnd as [Hnd _].
Qed.

Lemma threads_NoDup : NoDup threads.
Proof. eapply NoDup_fmap_1, thread_tds_NoDup. Qed.

(** Metadata determines the thread. *)
Lemma td_inj t t' : t ∈ threads → t' ∈ threads → th_td t = th_td t' → t = t'.
Proof.
  intros [i Hi]%list_elem_of_lookup [j Hj]%list_elem_of_lookup E.
  assert (i = j) as ->; [|congruence].
  eapply (NoDup_lookup _ _ _ (th_td t) thread_tds_NoDup); rewrite list_lookup_fmap, ?Hi, ?Hj; simpl; congruence.
Qed.

Lemma me_not_in : me ∉ ts.
Proof. pose proof threads_NoDup as Hnd. by apply NoDup_cons in Hnd as [Hn _]. Qed.

(** Different numbers are different threads. *)
Lemma thread_ne i j t : i ≠ j → threads !! i = Some t → threads !! j ≠ Some t.
Proof. intros Hij Hi Hj. apply Hij. eapply NoDup_lookup; [apply threads_NoDup|done|done]. Qed.

Lemma base_refl : Reflexive base.
Proof. intros s. split; [done|]. split; [apply scan_step_refl|]. done. Qed.

Lemma base_trans : Transitive base.
Proof.
  intros s1 s2 s3 (H1 & H2 & H3 & H4 & H5) (H1' & H2' & H3' & H4' & H5').
  split; [auto|]. split; [by etrans|]. split; [auto|]. split; [auto|]. by etrans.
Qed.

Lemma base_quiet s m' : (inv s → inv (m', s.2)) → quiet s.1 m' → base s (m', s.2).
Proof. intros Hi [H1 _ H3]. split; [done|]. split; [done|]. by split; [|split]. Qed.

Lemma private_refl t s : private t s s.
Proof. intros _. apply scan_step_refl. Qed.

Lemma private_trans t s1 s2 s3 : private t s1 s2 → private t s2 s3 → private t s1 s3.
Proof. intros H1 H2 Ht. specialize (H1 Ht). specialize (H2 Ht). by etrans. Qed.

Lemma R_refl i : Reflexive (R i).
Proof.
  destruct i; intros s; (split; [apply base_refl|]); repeat split; auto using private_refl.
Qed.

Lemma R_trans i : Transitive (R i).
Proof.
  destruct i; intros s1 s2 s3.
  - intros (H1 & H2 & H3 & H4 & H5) (H1' & H2' & H3' & H4' & H5').
    split; [by eapply base_trans|]. split; [intros t Ht; rewrite H2'; auto|].
    split; [unfold lock_same in *; congruence|]. split; [congruence|by eapply private_trans].
  - intros (H1 & H2 & H3 & H4) (H1' & H2' & H3' & H4').
    split; [by eapply base_trans|]. split; [intros t Ht Hs; auto|]. split; [auto|].
    intros t Ht. eapply private_trans; eauto.
Qed.

Lemma G_R i j s s' : i ≠ j → G i s s' → R j s s'.
Proof.
  destruct i as [|i], j as [|j]; intros Hij; [done|..].
  - intros (H1 & H2 & H3 & H4). split; [done|]. rewrite H2. split; [|by split].
    intros t Ht. apply H3. by eapply list_elem_of_lookup_2.
  - intros (H1 & H2 & H3 & H4 & H5 & H6). repeat (split; [done|]). apply H6.
    by apply (thread_ne 0 (S i)).
  - intros (H1 & H2 & H3 & H4 & H5 & H6). split; [done|]. split; [|split].
    + intros t Ht (n & Hn & Hn0). exists n. split; [|done]. rewrite H2; [done|].
      by eapply list_elem_of_lookup_2.
    + intros Hj%H5. apply elem_of_union in Hj as [->%elem_of_singleton|]; [done|done].
    + intros t Ht. apply H6. by apply (thread_ne (S j) (S i)).
Qed.

(** A scanning step, seen by the other threads. *)
Definition G_scan s s' : Prop := scan_own g o found s.1 s'.1 ∧ s'.2 = s.2.

Lemma G_scan_G i s s' : G_scan s s' → G i s s'.
Proof.
  destruct s as [m γ], s' as [m' γ']. intros [Hs E]. cbn [fst snd] in *. subst γ'.
  pose proof (quiet_scan_own _ _ Hs) as Hq.
  assert (base (m, γ) (m', γ)) as Hb
    by (apply (base_quiet (m, γ)); [intros Hi; by apply (inv_scan_own (m, γ))|done]).
  assert (pendings_same (m, γ) (m', γ)) as Hp.
  { intros t Ht. apply scan_own_ctl; [done|]. right; right. exists t. auto. }
  assert (∀ t, private t (m, γ) (m', γ)) as Hpr by (intros t Ht; by apply (qt_own _ _ Hq)).
  destruct i as [|k].
  - split; [done|]. split; [done|]. split; [|done].
    intros t Ht (n & Hn & Hn0). exists n. by rewrite (Hp t Ht).
  - split; [done|]. split; [done|]. split; [|split; [done|split; [cbn; set_solver|done]]].
    apply scan_own_ctl; [done|]. right; by left.
Qed.

Lemma R_base i s s' : R i s s' → base s s'.
Proof. destruct i; by intros [? _]. Qed.

(** The words a thread scans are changed by nobody else. *)
Lemma R_private i t s s' : threads !! i = Some t → R i s s' → scan_step g o found (vol_but t) s.1 s'.1.
Proof.
  intros Hi HR. pose proof (list_elem_of_lookup_2 _ _ _ Hi) as Ht.
  destruct i as [|k]; [injection Hi as <-; by apply HR|by apply HR].
Qed.

(** A scan by thread [i] that knows [B] beforehand: [B] is stable and about
    control words only. *)
Lemma scan_grg {A} i t (p : prog Z A) (P : A → mem → Prop) (B : mem * aux → Prop) s :
  threads !! i = Some t →
  (∀ s s', R i s s' → B s → B s') →
  (∀ s s', G_scan s s' → inv s → B s → B s') →
  inv s → B s →
  rg (scan_step g o found (vol_but t)) (scan_own g o found) p P s.1 →
  grg (R i) (G i) (W i) p (λ a s', P a s'.1 ∧ inv s' ∧ B s') s.
Proof.
  intros Ht HB1 HB2 Hi HB Hp. apply grg_weaken with (G := G_scan); [apply G_scan_G|].
  apply (grg_frame _ _ _ (λ s, inv s ∧ B s)).
  - intros s1 s2 Hs [Hi1 HB']. split; [|by eapply HB1]. destruct i; by apply Hs.
  - intros s1 [m2 γ2] Hs [Hi1 HB']. split; [|by eapply HB2]. destruct Hs as [Hs E].
    cbn [fst snd] in *. subst γ2. by apply (inv_scan_own s1).
  - eapply grg_of_rg; [| |exact Hp].
    + intros s1 s2. by apply R_private.
    + intros m1 m2 γ Hs. by split.
  - done.
Qed.

(** ** The rules the proofs step with *)
Lemma inv_R i s s' : R i s s' → inv s → inv s'.
Proof. intros Hs%R_base. by apply Hs. Qed.

Lemma grg_read_fixed {A} i a x (k : Z → prog Z A) P s :
  inv s → fixed a → m0 !! a = Some x →
  (∀ s', R i s s' → inv s' → grg (R i) (G i) (W i) (k x) P s') →
  grg (R i) (G i) (W i) (rd a ≫= k) P s.
Proof.
  intros Hi Ha Hx Hk. apply grg_bind_rd. intros s' Hs. pose proof (inv_R _ _ _ Hs Hi) as Hi'.
  simpl sread. rewrite (fixed_word s' a Hi' Ha), Hx. apply wp_ret. by apply Hk.
Qed.

Lemma td_word t a :
  t ∈ threads →
  a ∈ [td_next t.(th_td); td_self t.(th_td); td_is_active t.(th_td); td_user_stack_low t.(th_td);
       td_user_stack_high t.(th_td); td_local_block_low t.(th_td); td_local_block_high t.(th_td)] →
  fixed a ∧ m0 !! a = Some (word m0 a).
Proof.
  intros Ht Ha. destruct (rd_ready Hstart t Ht) as [_ Hr]. destruct (Hr a Ha) as [Hf [x Hx]].
  split; [done|]. unfold word. by rewrite Hx.
Qed.

(** What a thread knows is stable: other threads' steps and its own scanning
    keep it. *)
Definition stable i (B : mem * aux → Prop) : Prop :=
  (∀ s s', R i s s' → inv s → B s → B s') ∧ (∀ s s', G_scan s s' → inv s → B s → B s').

Lemma marked_range_stable i t r (B : mem * aux → Prop) :
  threads !! i = Some t → r ∈ scanner_ranges (scanner_of m0 t) → stable i B →
  stable i (λ s, B s ∧ range_marked g o r s.1).
Proof.
  intros Hit Hr [HB1 HB2]. pose proof (list_elem_of_lookup_2 _ _ _ Hit) as Ht.
  assert (∀ s s', scan_step g o found (vol_but t) s.1 s'.1 → inv s → range_marked g o r s.1 → range_marked g o r s'.1) as Hm.
  { intros s s' Hs Hi. apply (prefix_marked_step g o found (vol_but t) (setup_but t)); [|done].
    by apply (inv_scanner_ok t s Ht Hi). }
  split; intros s s' Hs Hi [HB Hk].
  - split; [by eapply HB1|]. eapply Hm; [|done|done]. by apply (R_private i).
  - split; [by eapply HB2|]. eapply Hm; [|done|done]. by apply scan_own_step, Hs.
Qed.

Lemma search_range_grg i t r B s :
  threads !! i = Some t → r ∈ scanner_ranges (scanner_of m0 t) → stable i B → inv s → B s →
  grg (R i) (G i) (W i) (search_range g r) (λ _ s', inv s' ∧ B s' ∧ range_marked g o r s'.1) s.
Proof.
  intros Hit Hr [HB1 HB2] Hi HB. pose proof (list_elem_of_lookup_2 _ _ _ Hit) as Ht. eapply grg_mono.
  - apply (scan_grg i t _ (λ _ m', scan_step g o found (vol_but t) s.1 m' ∧ range_marked g o r m') (λ s, inv s ∧ B s)).
    + done.
    + intros s1 s2 Hs [Hi1 HB']. split; [by eapply inv_R|by eapply HB1].
    + intros s1 [m2 γ2] Hs _ [Hi1 HB']. split; [|by eapply HB2].
      destruct Hs as [Hs E]. cbn [fst snd] in *. subst γ2. by apply (inv_scan_own s1).
    + done.
    + done.
    + apply (search_range_ok g o found (vol_but t) (setup_but t)); [by apply inv_scan|].
      by apply (inv_scanner_ok t s Ht Hi).
  - intros u s' ([_ Hm] & Hi' & [_ HB']). done.
Qed.

(** A thread scans its stack and its local block. *)
Lemma scan_self_grg {A} i t B (K : prog Z A) P s :
  threads !! i = Some t → stable i B → inv s → B s →
  (∀ s', inv s' → B s' → scanner_marked g o (scanner_of m0 t) s'.1 → grg (R i) (G i) (W i) K P s') →
  grg (R i) (G i) (W i)
    (_ ← search_range g {| low := t.(th_rsp); high := word m0 (td_user_stack_high t.(th_td)) |};
     _ ← search_local_block g t.(th_td);
     K) P s.
Proof.
  intros Hit HB Hi Hs HK. pose proof (list_elem_of_lookup_2 _ _ _ Hit) as Ht. set (r := {| low := th_rsp t; high := _ |}).
  assert (r ∈ scanner_ranges (scanner_of m0 t)) as Hr by by left.
  pose proof (marked_range_stable i t r B Hit Hr HB) as HB'.
  apply grg_bind; [apply R_refl|]. eapply grg_mono; [by apply (search_range_grg i t r B)|].
  intros u s1 (Hi1 & Hs1 & Hm1); clear u.
  apply grg_bind; [apply R_refl|]. unfold search_local_block.
  destruct (td_word t (td_local_block_low t.(th_td)) Ht) as [Hf Hw]; [rewrite !elem_of_cons; tauto|].
  destruct (td_word t (td_local_block_high t.(th_td)) Ht) as [Hf' Hw']; [rewrite !elem_of_cons; tauto|].
  apply (grg_read_fixed i _ _ _ _ _ Hi1 Hf Hw). intros s2 S2 Hi2.
  destruct HB' as [HB1 HB2]. pose proof (HB1 _ _ S2 Hi1 (conj Hs1 Hm1)) as Hs2.
  destruct (word m0 (td_local_block_low (th_td t)) >? 0) eqn:Hset.
  - apply (grg_read_fixed i _ _ _ _ _ Hi2 Hf Hw). intros s3 S3 Hi3.
    pose proof (HB1 _ _ S3 Hi2 Hs2) as Hs3.
    apply (grg_read_fixed i _ _ _ _ _ Hi3 Hf' Hw'). intros s4 S4 Hi4.
    pose proof (HB1 _ _ S4 Hi3 Hs3) as Hs4.
    eapply grg_mono; [apply (search_range_grg i t _ (λ s, B s ∧ range_marked g o r s.1))|].
    + done.
    + unfold scanner_ranges, scanner_of. cbn [local_block low]. rewrite Hset. right. by left.
    + by split.
    + done.
    + done.
    + intros u s5 (Hi5 & [Hs5 Hm5] & Hm6). apply HK; [done|done|].
      intros r' Hr'. unfold scanner_ranges, scanner_of in Hr'. cbn [local_block low] in Hr'.
      rewrite Hset in Hr'. apply elem_of_cons in Hr' as [->|Hr'%list_elem_of_singleton]; [done|by subst r'].
  - apply grg_ret. intros s3 S3. pose proof (HB1 _ _ S3 Hi2 Hs2) as [Hs3 Hm3].
    apply HK; [by eapply inv_R|done|].
    intros r' Hr'. unfold scanner_ranges, scanner_of in Hr'. cbn [local_block low] in Hr'.
    rewrite Hset in Hr'. by apply list_elem_of_singleton in Hr' as ->.
Qed.

Lemma length_ts : (length ts < 512)%nat.
Proof.
  destruct (rd_list Hstart) as (tds & Hl & idle & Hp & _). apply Permutation_length in Hp.
  rewrite length_app, length_fmap in Hp. pose proof (tl_len _ _ _ Hl) as Hlen. unfold threads, list_fuel in *.
  simpl in Hp. lia.
Qed.

(** Every thread counts itself at most once. *)
Lemma counted_subset s : inv s → s.2.2 ⊆ set_seq 0 (length ts).
Proof.
  intros Hi k Hk. destruct (in_done _ Hi k Hk) as (t & Ht & _). apply elem_of_set_seq.
  apply lookup_lt_Some in Ht. lia.
Qed.

Lemma counted_bound s : inv s → (size s.2.2 ≤ length ts < 512)%nat.
Proof.
  intros Hi. split; [|apply length_ts].
  etrans; [apply (subseteq_size _ _ (counted_subset s Hi))|]. by rewrite size_set_seq.
Qed.

(** If as many threads have counted themselves as there are, all have. *)
Lemma all_counted s : inv s → (length ts ≤ size s.2.2)%nat → ∀ k, (k < length ts)%nat → k ∈ s.2.2.
Proof.
  intros Hi Hsize k Hk.
  assert (s.2.2 ≡ set_seq 0 (length ts)) as ->.
  { apply set_subseteq_size_equiv; [by apply counted_subset|]. by rewrite size_set_seq. }
  apply elem_of_set_seq. lia.
Qed.

(** The state at the start. *)
Lemma inv_start : inv (m0, (false, ∅)).
Proof.
  split; cbn [fst snd].
  - split; [apply scan_step_refl|done|done].
  - apply (rd_counter Hstart).
  - done.
  - intros t Ht. rewrite (rd_pending Hstart t Ht). split; [by eexists|].
    intros (n & Hn & Hn0). rewrite (rd_pending Hstart t Ht) in Hn. congruence.
  - apply (rd_stamps Hstart).
  - intros k Hk. set_solver.
Qed.

(** ** What a bystander does *)
Section handler.
Context (k : nat) (t : thread) (Hk : ts !! k = Some t).

Lemma t_in : t ∈ ts.
Proof. by eapply list_elem_of_lookup_2. Qed.

Lemma t_at : threads !! S k = Some t.
Proof. exact Hk. Qed.

(** A write of a control word changes no word a thread scans. *)
Lemma own_ctl m a x : ctl a → user_rely (scanner_of m0 t) m (<[a := x]> m).
Proof.
  intros Ha. split; [|intros b Hb; apply lookup_insert_is_Some'; by right].
  intros b Hb. rewrite lookup_insert_ne; [done|]. intros ->.
  destruct (own_word t b) as (_ & Hn & _); [right; apply t_in|done|]. by destruct Hn.
Qed.

Lemma own_scan m m' : scan_own g o found m m' → user_rely (scanner_of m0 t) m m'.
Proof.
  intros Hs. split; [|intros a; by apply scan_own_mapped].
  intros a Ha. apply (own_same t); [right; apply t_in|done|by apply scan_own_step].
Qed.

Lemma own_R s s' : R (S k) s s' → user_rely (scanner_of m0 t) s.1 s'.1.
Proof.
  intros HR. split; [|apply HR].
  intros a Ha. apply (own_same t); [right; apply t_in|done|]. by apply (R_private (S k)); [apply t_at|].
Qed.

(** ** User code *)
Notation user_step_ := (user_step heap retired (scanner_of m0 t)).

Lemma user_other m m' a : user_step_ m m' → ctl a ∨ fixed a → m' !! a = m !! a.
Proof.
  intros Hs [Ha|[Ha _]]; apply (us_rest _ _ _ _ _ Hs).
  - intros Hsc. by destruct (own_word t a) as (_ & Hn & _); [right; apply t_in|done|].
  - intros Hh. by apply (rd_heap Hstart a).
  - intros Hsc. apply Ha. right; right. exists t. split; [apply t_in|done].
  - intros Hh. apply Ha. right. by left.
Qed.

Lemma user_private m m' t' : user_step_ m m' → t' ≠ t → scan_step g o found (vol_but t') m m'.
Proof.
  intros Hs Hne a Ha. left. apply (us_rest _ _ _ _ _ Hs).
  - intros Hsc. apply Ha. right; right. exists t. split; [apply t_in|]. split; [by apply not_eq_sym|done].
  - intros Hh. apply Ha. right; by left.
Qed.

Lemma user_scan_step m m' : user_step_ m m' → scan_step g o found vol m m'.
Proof.
  intros Hs a Ha. left. apply (us_rest _ _ _ _ _ Hs).
  - intros Hsc. apply Ha. right; right. exists t. split; [apply t_in|done].
  - intros Hh. apply Ha. right; by left.
Qed.

(** The thread's references do not grow, so marks stay complete. *)
Lemma user_self_marked m m' t' :
  user_step_ m m' → t' ∈ threads → self_marked t' m → self_marked t' m'.
Proof.
  intros Hs Ht' Hm. destruct (decide (t' = t)) as [->|Hne].
  - intros i Hi Hu Hr Hf.
    apply (marked_step g o found vol (rd_scan Hstart) i m); [by apply user_scan_step|done|].
    apply Hm; try done. by apply (us_refs _ _ _ _ _ Hs).
  - by apply (self_marked_own t' m); [|apply user_private|].
Qed.

Lemma user_app m m' : user_step_ m m' → app_inv m → app_inv m'.
Proof.
  intros Hs [H1 H2 H3]. split.
  - exact (transitivity H1 (user_scan_step _ _ Hs)).
  - intros a Ha. apply (us_mapped _ _ _ _ _ Hs). auto.
  - intros t' p Ht' Hp Hr. apply H3; [done|done|]. destruct (decide (t' = t)) as [->|Hne].
    + by apply (us_refs _ _ _ _ _ Hs).
    + eapply refers_own; [done|by apply user_private|done].
Qed.

Lemma user_inv s m' : user_step_ s.1 m' → inv s → inv (m', s.2).
Proof.
  intros Hs Hi.
  assert (∀ a, ctl a → m' !! a = s.1 !! a) as Hc by (intros; apply user_other; auto).
  assert (∀ t' a, t' ∈ ts → a ∈ [pending_of t'; td_local_timestamp t'.(th_td); td_times_without_update t'.(th_td)] →
    m' !! a = s.1 !! a) as Hother.
  { intros t' a Ht Hin. apply Hc. right; right. exists t'. split; [done|].
    rewrite !elem_of_cons, elem_of_nil in Hin. tauto. }
  split; cbn [fst snd].
  - by apply (user_app s.1), in_app.
  - rewrite Hc by (by left). apply (in_counter _ Hi).
  - rewrite Hc by (by left). apply (in_reset _ Hi).
  - intros t' Ht. unfold is_set. rewrite !(Hother t') by (done || (rewrite !elem_of_cons; auto)). by apply (in_pending _ Hi).
  - intros t' Ht. rewrite !(Hother t') by (done || (rewrite !elem_of_cons; auto)). by apply (in_stamps _ Hi).
  - intros j Hj. destruct (in_done _ Hi j Hj) as (t' & Ht & (n & Hn & Hn0) & Hm). exists t'. split; [done|].
    pose proof (list_elem_of_lookup_2 _ _ _ Ht) as Hin. split.
    + exists n. by rewrite (Hother t') by (done || by left).
    + apply (user_self_marked s.1); [done|by right|done].
Qed.

Lemma user_G s m' : user_step_ s.1 m' → inv s → G (S k) s (m', s.2).
Proof.
  intros Hs Hi. split; [|split; [|split; [|split; [done|split; [cbn; set_solver|]]]]].
  - split; [intros _; by apply user_inv|]. split; [by apply user_scan_step|].
    split; [apply (us_mapped _ _ _ _ _ Hs)|]. by split.
  - intros t' Ht'. apply user_other; [done|]. left. right; right. exists t'. auto.
  - apply user_other; [done|]. left. right; by left.
  - intros t' Hne Ht'. apply user_private; [done|]. intros ->. by apply Hne.
Qed.

(** User code that keeps the discipline keeps the invariant. *)
Lemma user_grg {A} (p : prog Z A) (P : A → mem → Prop) (B : mem * aux → Prop) s :
  (∀ s s', R (S k) s s' → B s → B s') → (∀ m m' γ, B (m, γ) → B (m', γ)) →
  inv s → B s → rg (user_rely (scanner_of m0 t)) user_step_ p P s.1 →
  grg (R (S k)) (G (S k)) (W (S k)) p (λ a s', (inv s' ∧ B s') ∧ P a s'.1) s.
Proof.
  intros HB1 HB2 Hi HB Hp.
  apply (grg_of_rg_inv _ _ _ (λ s, inv s ∧ B s) (user_rely (scanner_of m0 t)) user_step_); [| |done|done].
  - intros s1 s2 HR [Hi1 HB']. split; [split; [by eapply inv_R|by eapply HB1]|by apply own_R].
  - intros m m' γ [Hi1 HB'] Hs. split; [split; [by apply (user_inv (m, γ))|by eapply HB2]|].
    by apply (user_G (m, γ)).
Qed.

(** ** The signal handler *)
Section interrupted.
(** The memory when the thread was interrupted. *)
Context (m1 : mem).

(** The thread has been signalled, it has counted itself or not; its own
    words are as they were. *)
Definition know (counted : bool) s : Prop :=
  inv s ∧ is_set t s.1 ∧ (k ∈ s.2.2 ↔ counted = true) ∧ user_rely (scanner_of m0 t) m1 s.1.

Lemma know_R c s s' : R (S k) s s' → know c s → know c s'.
Proof.
  intros HR (Hi & Hs & Hc & Ho). pose proof HR as (Hb & Hset & Hin & _).
  split; [by apply Hb|]. split; [by apply Hset|]. split; [|etrans; [exact Ho|by apply own_R]].
  rewrite <- Hc. split; [done|]. apply Hb.
Qed.

Lemma know_stable c : stable (S k) (know c).
Proof.
  split; [intros s s' Hs _; by apply know_R|].
  intros s [m' γ'] [Hs E] Hi (_ & (n & Hn & Hn0) & Hc & Ho). cbn [fst snd] in *. subst γ'.
  split; [by apply (inv_scan_own s)|].
  split; [|split; [done|etrans; [exact Ho|by apply own_scan]]]. exists n. split; [|done]. cbn [fst].
  rewrite (scan_own_ctl s.1); [done|done|]. right; right. exists t. split; [apply t_in|auto].
Qed.

(** A thread writes its own stamps. *)
Lemma write_stamp c a x s :
  a = td_local_timestamp t.(th_td) ∨ a = td_times_without_update t.(th_td) ∧ INT_MIN ≤ x ≤ INT_MAX →
  know c s → grg (R (S k)) (G (S k)) (W (S k)) (wr a x) (λ _, know c) s.
Proof.
  intros Ha Hs. apply grg_wr. intros s1 S1. pose proof (know_R _ _ _ S1 Hs) as Hs1.
  pose proof Hs1 as (Hi & Hset & Hc & Ho). pose proof t_in as Hin.
  destruct (rd_distinct Hstart) as [_ Hd]. destruct (Hd t Hin) as [Hd1 Hd2].
  assert (a ∈ [pending_of t; td_local_timestamp (th_td t); td_times_without_update (th_td t)]) as Hal
    by (rewrite !elem_of_cons; tauto).
  assert (ctl a) as Hctl by (right; right; exists t; tauto).
  assert (is_Some (s1.1 !! a)) as [y Hy].
  { destruct (in_stamps _ Hi t Hin) as [? (n & Hn & _)].
    destruct Ha as [->|[-> _]]; [done|by exists n]. }
  simpl swrite. rewrite Hy. apply wp_ret. exists s1.2.
  destruct (inv_insert_other s1 a x Hi Hctl) as [Hi' Hset'].
  - by apply Hd1.
  - intros t' Ht' E. destruct Ha as [->|[_ ?]]; [|done].
    by destruct (proj2 (proj2 (Hd2 t' Ht'))).
  - intros t' Ht' E. destruct (Hd t' Ht') as [_ Hd']. destruct (Hd' t Hin) as (? & ? & _).
    destruct Ha as [->|[-> _]]; congruence.
  - assert (know c (<[a := x]> s1.1, s1.2)) as Hs'.
    { split; [done|]. split; [by apply Hset'|]. split; [done|]. etrans; [exact Ho|by apply own_ctl]. }
    split; [|intros s3 S3; by eapply know_R].
    pose proof (quiet_insert s1.1 a x Hctl) as Hq.
    split; [by apply base_quiet|]. split; [|split; [|split; [done|split; [cbn; set_solver|]]]].
    + intros t' Ht'. cbn [fst]. rewrite lookup_insert_ne; [done|].
      destruct (Hd t' Ht') as [_ Hd']. destruct (Hd' t Hin) as (? & ? & _).
      destruct Ha as [->|[-> _]]; congruence.
    + unfold lock_same. cbn [fst]. rewrite lookup_insert_ne; [done|]. by apply Hd1.
    + intros t' _ Ht'. by apply (qt_own _ _ Hq).
Qed.

Lemma read_own {A} c a (K : Z → prog Z A) P s :
  a = td_local_timestamp t.(th_td) ∨ a = td_times_without_update t.(th_td) → know c s →
  (∀ x s', know c s' → (a = td_times_without_update t.(th_td) → INT_MIN ≤ x ≤ INT_MAX) →
     grg (R (S k)) (G (S k)) (W (S k)) (K x) P s') →
  grg (R (S k)) (G (S k)) (W (S k)) (rd a ≫= K) P s.
Proof.
  intros Ha Hs HK. apply grg_bind_rd. intros s1 S1. pose proof (know_R _ _ _ S1 Hs) as Hs1.
  destruct (in_stamps _ (proj1 Hs1) t t_in) as [[y Hy] (n & Hn & Hr)]. simpl sread.
  destruct (decide (a = td_times_without_update t.(th_td))) as [->|Hne].
  - rewrite Hn. apply wp_ret. by apply HK.
  - destruct Ha as [->|?]; [|done]. rewrite Hy. apply wp_ret. by apply HK.
Qed.

Lemma raise_flag_grg c s :
  know c s →
  grg (R (S k)) (G (S k)) (W (S k)) (threadscan_thread_cleanup_raise_flag v t.(th_td)) (λ _, know c) s.
Proof.
  intros Hs. unfold threadscan_thread_cleanup_raise_flag.
  destruct (rd_ready Hstart t) as [Hnz _]; [by eapply in_threads|].
  apply grg_bind_lift. rewrite c_assert_true by lia. apply wp_ret.
  apply (read_own c); [by left|done|]. intros old s1 Hs1 _.
  apply grg_bind; [apply R_refl|]. eapply grg_mono; [by apply (write_stamp c); [by left|]|].
  intros u s2 Hs2. destruct (rd_global Hstart) as [Hf [curr Hcurr]].
  apply (grg_read_fixed (S k) _ curr); [apply Hs2|done|done|]. intros s3 S3 _.
  pose proof (know_R _ _ _ S3 Hs2) as Hs3.
  apply grg_bind; [apply R_refl|]. eapply grg_mono; [by apply (write_stamp c); [by left|]|].
  intros u' s4 Hs4. destruct (negb _).
  { apply write_stamp; [right; split; [done|unfold INT_MIN, INT_MAX; lia]|done]. }
  destruct (negb _); [|apply grg_ret; intros s5 S5; by eapply know_R].
  apply (read_own c); [by right|done|]. intros times s5 Hs5 Hr. specialize (Hr eq_refl).
  destruct (Z.ltb_spec times 2).
  - apply grg_bind_lift, wp_cint; [unfold INT_MIN, INT_MAX in *; lia|].
    apply write_stamp; [right; split; [done|unfold INT_MIN, INT_MAX in *; lia]|done].
  - apply grg_ret. intros s6 S6. by eapply know_R.
Qed.

Lemma lower_flag_grg c s :
  know c s →
  grg (R (S k)) (G (S k)) (W (S k)) (threadscan_thread_cleanup_lower_flag t.(th_td)) (λ _, know c) s.
Proof.
  intros Hs. unfold threadscan_thread_cleanup_lower_flag.
  apply (read_own c); [by left|done|]. intros stamp s1 Hs1 _. apply write_stamp; [by left|done].
Qed.

(** The thread counts itself. *)
Lemma count_self_grg s :
  know false s → self_marked t s.1 →
  grg (R (S k)) (G (S k)) (W (S k))
    (_ ← sync_fetch_and_add v.(self_stacks_searched) 1; mret tt) (λ _, know true) s.
Proof.
  intros Hs Hm. unfold sync_fetch_and_add. apply grg_bind_rmw. intros s1 S1.
  pose proof (know_R _ _ _ S1 Hs) as (Hi & Hset & Hc & Ho).
  assert (self_marked t s1.1) as Hm1.
  { apply (self_marked_own t s.1); [right; apply t_in| |done]. by apply (R_private (S k)); [apply t_at|]. }
  pose proof (proj2 (in_pending _ Hi t t_in) Hset) as Hphase. simpl sread.
  rewrite (in_reset _ Hi Hphase). apply wp_ret. simpl swrite. rewrite (in_reset _ Hi Hphase). apply wp_ret.
  set (γ' := (s1.2.1, {[k]} ∪ s1.2.2)).
  assert (k ∉ s1.2.2) as Hnin by (rewrite Hc; done).
  assert (Z.of_nat (size γ'.2) = Z.of_nat (size s1.2.2) + 1) as Hsize.
  { cbn [γ' snd]. rewrite size_union, size_singleton by set_solver. lia. }
  pose proof (counted_bound s1 Hi). rewrite int_of_u64_small by (unfold INT_MAX; lia).
  rewrite <- Hsize. exists γ'.
  assert (inv (<[v.(self_stacks_searched) := Z.of_nat (size γ'.2)]> s1.1, γ')) as Hi'.
  { apply (inv_insert_counter s1 γ' Hi Hphase). cbn [γ' snd]. intros j [->%elem_of_singleton|Hj]%elem_of_union.
    - by exists t.
    - by apply (in_done _ Hi). }
  destruct (rd_distinct Hstart) as [Hd1 Hd2].
  assert (∀ t', t' ∈ ts → <[v.(self_stacks_searched) := Z.of_nat (size γ'.2)]> s1.1 !! pending_of t' =
     s1.1 !! pending_of t') as Hp.
  { intros t' Ht'. rewrite lookup_insert_ne; [done|]. apply not_eq_sym, (Hd2 t' Ht'). by left. }
  assert (ctl v.(self_stacks_searched)) as Hctl by by left.
  pose proof (quiet_insert s1.1 _ (Z.of_nat (size γ'.2)) Hctl) as Hq.
  split.
  - split; [|split; [exact Hp|]; split; [unfold lock_same; cbn [fst]; by rewrite lookup_insert_ne|];
      split; [done|split; [cbn; set_solver|]; intros t' _ Ht'; by apply (qt_own _ _ Hq)]].
    split; [done|]. split; [apply Hq|]. split; [apply (qt_mapped _ _ Hq)|]. split; [done|cbn; set_solver].
  - apply grg_ret. intros s2 S2. apply (know_R _ _ _ S2). split; [done|].
    split; [|split; [cbn; set_solver|etrans; [exact Ho|by apply own_ctl]]].
    destruct Hset as (n & Hn & Hn0). exists n. cbn [fst]. by rewrite Hp by apply t_in.
Qed.

Lemma signal_handler_grg s :
  know false s →
  grg (R (S k)) (G (S k)) (W (S k)) (signal_handler v g t.(th_td) t.(th_rsp) SIGTHREADSCAN) (λ _, know true) s.
Proof.
  intros Hk1. unfold signal_handler. apply grg_bind_lift. rewrite c_assert_true by done. apply wp_ret.
  apply grg_bind; [apply R_refl|]. eapply grg_mono; [by apply (raise_flag_grg false)|].
  intros u s2 Hs2. apply grg_bind; [apply R_refl|].
  apply grg_mono with (P := λ _, know true); [|intros u' s3 Hs3; by apply lower_flag_grg].
  unfold search_self_stack, threadscan_thread_user_stack. pose proof (in_threads _ _ Hk) as Hin.
  destruct (td_word t (td_user_stack_low t.(th_td)) Hin) as [Hf1 Hw1]; [rewrite !elem_of_cons; tauto|].
  destruct (td_word t (td_user_stack_high t.(th_td)) Hin) as [Hf2 Hw2]; [rewrite !elem_of_cons; tauto|].
  apply grg_bind; [apply R_refl|].
  apply (grg_read_fixed _ _ _ _ _ _ (proj1 Hs2) Hf1 Hw1). intros s3 S3 _.
  pose proof (know_R _ _ _ S3 Hs2) as Hs3.
  apply (grg_read_fixed _ _ _ _ _ _ (proj1 Hs3) Hf2 Hw2). intros s4 S4 _.
  pose proof (know_R _ _ _ S4 Hs3) as Hs4.
  apply grg_ret. intros s5 S5. pose proof (know_R _ _ _ S5 Hs4) as Hs5. cbn [high].
  apply grg_bind_lift. rewrite c_assert_true by (pose proof (rd_active Hstart t t_in); lia). apply wp_ret.
  apply (scan_self_grg _ t (know false)); [apply t_at|apply know_stable|apply Hs5|done|].
  intros s6 Hi6 Hs6 Hm6. apply count_self_grg; [done|by apply scanner_marked_self].
Qed.
End interrupted.

(** User code up to the signal, the handler, the rest of the user code. *)
Lemma bystander_grg :
  grg (R (S k)) (G (S k)) (W (S k)) (bystander v g sigpending user t) (Q (S k)) (m0, (false, ∅)).
Proof.
  unfold bystander. apply grg_bind; [apply R_refl|]. eapply grg_mono.
  { apply (user_grg _ (rest_ok heap retired (scanner_of m0 t)) (λ s, k ∉ s.2.2)).
    - intros s s' (_ & _ & Hin & _) Hn Hk'. by apply Hn, Hin.
    - done.
    - apply inv_start.
    - cbn. set_solver.
    - apply (Husers t t_in). }
  intros rest s [[Hi Hnin] Hrest]. apply grg_bind_await. intros s1 S1.
  pose proof (inv_R _ _ _ S1 Hi) as Hi1.
  assert (k ∉ s1.2.2) as Hnin1 by (intros Hin; apply Hnin, S1, Hin).
  destruct (in_pending _ Hi1 t t_in) as [[n Hn] _]. simpl sread. unfold pending_of in Hn. rewrite Hn. apply wp_ret.
  destruct (Z.eqb_spec n 0) as [->|Hn0]; cbn [negb].
  { split; [done|]. intros t' Ht' (n & Hn' & ?). unfold pending_of in Hn'. congruence. }
  assert (know s.1 false s1) as Hk1.
  { split; [done|]. split; [by exists n|]. split; [by split|by apply own_R]. }
  apply grg_bind; [apply R_refl|]. eapply grg_mono; [by apply signal_handler_grg|].
  intros u s2 (Hi2 & _ & Hc2 & Ho2). apply grg_bind; [apply R_refl|]. eapply grg_mono.
  { apply (user_grg _ (λ _ _, True) (λ s, k ∈ s.2.2)).
    - intros s3 s4 [Hb _] Hk3. by apply Hb.
    - done.
    - done.
    - by apply Hc2.
    - eapply rg_stable; [apply user_rely_trans|exact Ho2|exact Hrest]. }
  intros u' s3 [[Hi3 Hk3] _]. apply grg_ret. intros s4 S4. split; [by eapply inv_R|]. by apply (R_base _ _ _ S4).
Qed.
End handler.

(** ** The reclaimer *)
Section reclaimer.

(** The reclaimer has reset the counter; [held]: the word of the list lock;
    [done]: the threads that have been signalled. *)
Definition knows (held : Z) (signalled : thread → Prop) s : Prop :=
  inv s ∧ s.2.1 = true ∧ s.1 !! tl_lock v.(thread_list_) = Some held ∧
  ∀ t, t ∈ ts → signalled t → is_set t s.1.

Lemma is_set_R s s' t : R 0 s s' → t ∈ ts → is_set t s.1 → is_set t s'.1.
Proof. intros (_ & Hp & _) Ht (n & Hn & Hn0). exists n. by rewrite Hp. Qed.

Lemma knows_R held sg s s' : R 0 s s' → knows held sg s → knows held sg s'.
Proof.
  intros HR (Hi & Hph & Hl & Hs). pose proof HR as (Hb & Hp & Hlk & Hγ & _).
  split; [by apply Hb|]. split; [congruence|]. split; [by rewrite Hlk|].
  intros t Ht Hsg. by apply (is_set_R s), Hs.
Qed.

Lemma knows_stable held sg : stable 0 (knows held sg).
Proof.
  split; [intros s s' Hs _; by apply knows_R|].
  intros s [m' γ'] [Hs E] Hi (_ & Hph & Hl & Hset). cbn [fst snd] in *. subst γ'.
  split; [by apply (inv_scan_own s)|]. split; [done|]. split; cbn [fst].
  - rewrite (scan_own_ctl s.1); [done|done|]. right; by left.
  - intros t Ht Hsg. destruct (Hset t Ht Hsg) as (n & Hn & Hn0). exists n. split; [|done].
    rewrite (scan_own_ctl s.1); [done|done|]. right; right. exists t. auto.
Qed.

Lemma knows_mono held (sg sg' : thread → Prop) s :
  (∀ t, t ∈ ts → sg' t → sg t) → knows held sg s → knows held sg' s.
Proof. intros Hsub (Hi & Hph & Hl & Hs). split; [done|]. split; [done|]. split; [done|]. auto. Qed.

(** Writes of the list lock. *)
Lemma knows_lock held x sg s :
  knows held sg s →
  G 0 s (<[tl_lock v.(thread_list_) := x]> s.1, s.2) ∧ knows x sg (<[tl_lock v.(thread_list_) := x]> s.1, s.2).
Proof.
  intros (Hi & Hph & Hl & Hs). destruct (rd_distinct Hstart) as [Hd1 Hd2].
  assert (∀ t a, t ∈ ts → a ∈ [pending_of t; td_local_timestamp t.(th_td); td_times_without_update t.(th_td)] →
    tl_lock v.(thread_list_) ≠ a) as Hne by (intros t a Ht Ha; by apply not_eq_sym, (Hd2 t Ht)).
  assert (ctl (tl_lock v.(thread_list_))) as Hc by (right; by left).
  destruct (inv_insert_other s (tl_lock v.(thread_list_)) x Hi Hc) as [Hi' Hset].
  - done.
  - intros t Ht E. exfalso. eapply (Hne t); [done| |exact E]. rewrite !elem_of_cons; auto.
  - intros t Ht E. exfalso. eapply (Hne t); [done| |exact E]. by left.
  - split.
    + split; [by apply base_quiet, quiet_insert|]. split; [done|]. split; [exact Hset|].
      intros t' Ht'. by apply (qt_own _ _ (quiet_insert s.1 _ _ Hc)).
    + split; [done|]. split; [done|]. cbn [fst]. split; [by rewrite lookup_insert_eq|]. auto.
Qed.

(** pthread_kill makes the signal pending. *)
Lemma knows_kill held sg s t :
  t ∈ ts → knows held sg s →
  G 0 s (<[pending_of t := 1]> s.1, s.2) ∧ knows held (λ t', sg t' ∨ t' = t) (<[pending_of t := 1]> s.1, s.2).
Proof.
  intros Ht (Hi & Hph & Hl & Hs). destruct (rd_distinct Hstart) as [Hd1 Hd2].
  destruct (Hd2 t Ht) as [Hd3 Hd4].
  assert (ctl (pending_of t)) as Hc by (right; right; exists t; auto).
  destruct (inv_insert_other s (pending_of t) 1 Hi Hc) as [Hi' Hset].
  - apply Hd3. by left.
  - intros t' Ht' E. exfalso. by destruct (Hd4 t' Ht') as (? & ? & _).
  - done.
  - split.
    + split; [by apply base_quiet, quiet_insert|]. split; [done|]. split; [exact Hset|].
      intros t' Ht'. by apply (qt_own _ _ (quiet_insert s.1 _ _ Hc)).
    + split; [done|]. split; [done|]. cbn [fst]. split.
      * rewrite lookup_insert_ne; [done|]. apply Hd3. by left.
      * intros t' Ht' [Hsg| ->]; [by apply Hset; auto|]. exists 1. by rewrite lookup_insert_eq.
Qed.

(** The number of threads that have been signalled. *)
Definition signals (visited : list Z) : Z := zlen (filter (λ td, td ∈ th_td <$> ts) visited).

Lemma signals_snoc visited td :
  signals (visited ++ [td]) = if decide (td ∈ th_td <$> ts) then signals visited + 1 else signals visited.
Proof.
  unfold signals. rewrite filter_app, zlen_app. case_decide.
  - by rewrite filter_cons_True.
  - rewrite filter_cons_False by done. change (zlen (filter _ [])) with 0. lia.
Qed.

Lemma signals_range visited td todo tds :
  tds = visited ++ td :: todo → (length tds < list_fuel)%nat → 0 <= signals visited < 512.
Proof.
  intros Htds Hlen. unfold signals. pose proof (zlen_nonneg (filter (λ td, td ∈ th_td <$> ts) visited)). split; [done|].
  unfold zlen, list_fuel in *. pose proof (length_filter (λ td, td ∈ th_td <$> ts) visited).
  rewrite Htds, length_app in Hlen. lia.
Qed.

(** A member of the list that is not signalled. *)
Lemma not_signalled visited td s :
  td ∉ th_td <$> ts → knows 1 (λ t, th_td t ∈ visited) s →
  signals visited = signals (visited ++ [td]) ∧ knows 1 (λ t, th_td t ∈ visited ++ [td]) s.
Proof.
  intros Htd Hs. rewrite signals_snoc, decide_False by done. split; [done|].
  eapply knows_mono; [|exact Hs]. intros t' Ht' Hv. apply elem_of_app in Hv as [?|Hv]; [done|].
  apply list_elem_of_singleton in Hv as E. destruct Htd. rewrite <- E. by apply list_elem_of_fmap_2.
Qed.

Lemma signal_thread_grg visited t s :
  t ∈ ts → 0 <= signals visited < 512 → knows 1 (λ t, th_td t ∈ visited) s →
  grg (R 0) (G 0) (W 0)
    (self ← rd (td_self (th_td t));
     ret ← pthread_kill self SIGTHREADSCAN;
     if ret =? EINVAL then lift threadscan_fatal
     else if ret =? ESRCH then mret (signals visited)
     else lift (cint (signals visited + 1)))
    (λ n s', n = signals (visited ++ [th_td t]) ∧ knows 1 (λ t', th_td t' ∈ visited ++ [th_td t]) s') s.
Proof.
  intros Hts Hz Hs. assert (t ∈ threads) as Ht by by right. destruct (rd_active Hstart t Hts) as (_ & Hself & _).
  destruct (td_word t (td_self (th_td t)) Ht) as [Hf2 Hw2]; [rewrite !elem_of_cons; tauto|].
  apply (grg_read_fixed 0 _ _ _ _ _ (proj1 Hs) Hf2 Hw2). intros s2 S2 Hi2.
  pose proof (knows_R _ _ _ _ S2 Hs) as Hs2. rewrite Hself, (Hkill t Hts).
  apply grg_bind; [apply R_refl|].
  eapply grg_mono with (P := λ r s', r = 0 ∧ knows 1 (λ t', th_td t' ∈ visited ++ [th_td t]) s').
  2: { intros r s6 [-> Hs6]. cbn. rewrite cint_in by (unfold INT_MIN, INT_MAX; lia).
       intros s7 S7. rewrite signals_snoc, decide_True by by apply list_elem_of_fmap_2.
       split; [done|]. by apply (knows_R _ _ _ _ S7). }
  apply grg_bind_wr. intros s3 S3. pose proof (knows_R _ _ _ _ S3 Hs2) as Hs3.
  destruct (in_pending _ (proj1 Hs3) t Hts) as [[x Hx] _]. simpl swrite. rewrite Hx. apply wp_ret.
  exists s3.2. destruct (knows_kill _ _ _ t Hts Hs3) as [HG Hs4]. split; [exact HG|].
  apply grg_ret. intros s5 S5. split; [done|].
  apply (knows_R _ _ _ _ S5). eapply knows_mono; [|exact Hs4].
  intros t' Ht' Hv. apply elem_of_app in Hv as [?|Hv]; [by left|right]. apply list_elem_of_singleton in Hv.
  by apply td_inj; [right|..].
Qed.

Lemma signal_body_grg tds visited td todo s :
  list_of_threads tds → NoDup tds → tds = visited ++ td :: todo → (length tds < list_fuel)%nat →
  knows 1 (λ t, th_td t ∈ visited) s →
  grg (R 0) (G 0) (W 0)
    (_ ← lift (c_assert (negb (td =? 0)));
     is_active ← (if negb (td =? me.(th_td)) then rd (td_is_active td) else mret 0);
     if negb (is_active =? 0) then
       self ← rd (td_self td);
       ret ← pthread_kill self SIGTHREADSCAN;
       if ret =? EINVAL then lift threadscan_fatal
       else if ret =? ESRCH then mret (signals visited)
       else lift (cint (signals visited + 1))
     else mret (signals visited))
    (λ n s', n = signals (visited ++ [td]) ∧ knows 1 (λ t, th_td t ∈ visited ++ [td]) s') s.
Proof.
  intros (idle & Hperm & Hidle) Hnd Htds Hlen Hs. pose proof (proj1 Hs) as Hi.
  pose proof (signals_range _ _ _ _ Htds Hlen) as Hz.
  assert (td ∈ (th_td <$> threads) ++ idle) as Htd by (rewrite <- Hperm, Htds; apply elem_of_app; right; by left).
  rewrite Hperm in Hnd. apply NoDup_app in Hnd as (Hnd1 & Hnd2 & _).
  apply elem_of_app in Htd as [(t & -> & Ht)%list_elem_of_fmap|Htd].
  - destruct (rd_ready Hstart t Ht) as [Hnz _].
    apply grg_bind_lift. rewrite c_assert_true by lia. apply wp_ret.
    destruct (Z.eqb_spec (th_td t) (th_td me)) as [E|Hne]; cbn [negb].
    + apply grg_ret. intros s1 S1. apply not_signalled; [|by apply (knows_R _ _ _ _ S1)].
      rewrite E. by apply NoDup_cons in Hnd1 as [? _].
    + assert (t ∈ ts) as Hts by (apply elem_of_cons in Ht as [->|?]; done).
      destruct (rd_active Hstart t Hts) as (Hact & _).
      destruct (td_word t (td_is_active (th_td t)) Ht) as [Hf1 Hw1]; [rewrite !elem_of_cons; tauto|].
      apply (grg_read_fixed 0 _ _ _ _ _ Hi Hf1 Hw1). intros s1 S1 Hi1.
      replace (word m0 (td_is_active (th_td t)) =? 0) with false by lia. cbn [negb].
      apply signal_thread_grg; [done|done|]. by apply (knows_R _ _ _ _ S1).
  - destruct (Hidle td Htd) as (Hnz & _ & _ & Hf & Hact).
    assert (td ∉ th_td <$> threads) as Hnin by (intros Hin; by apply (Hnd2 td)).
    apply grg_bind_lift. rewrite c_assert_true by lia. apply wp_ret.
    replace (td =? th_td me) with false by (symmetry; apply Z.eqb_neq; intros ->; apply Hnin; by left). cbn [negb].
    apply (grg_read_fixed 0 _ _ _ _ _ Hi Hf Hact). intros s1 S1 _. cbn [Z.eqb negb].
    apply grg_ret. intros s2 S2. apply not_signalled; [intros Hin; apply Hnin; by right|].
    by apply (knows_R _ _ _ _ S2), (knows_R _ _ _ _ S1).
Qed.

Lemma signals_all tds : list_of_threads tds → NoDup tds → signals tds = Z.of_nat (length ts).
Proof.
  intros (idle & Hp & _) Hnd. unfold signals, zlen. f_equal.
  rewrite (Permutation_length (filter_Permutation _ _ _ Hp)), filter_app, length_app.
  rewrite Hp in Hnd. apply NoDup_app in Hnd as (Hnd1 & Hnd2 & _). unfold threads in *. cbn [fmap list_fmap] in *.
  apply NoDup_cons in Hnd1 as [Hnin _]. rewrite filter_cons_False by done.
  rewrite (filter_all (λ td, td ∈ th_td <$> ts)) by done.
  rewrite (filter_none (λ td, td ∈ th_td <$> ts) idle); [rewrite length_fmap; cbn; lia|].
  intros td Htd Hin. apply (Hnd2 td); [by right|done].
Qed.

Lemma signal_grg s :
  knows 0 (λ _, False) s →
  grg (R 0) (G 0) (W 0) (threadscan_thread_signal_all_but_me v pthread_kill me.(th_td) SIGTHREADSCAN)
    (λ n s', n = Z.of_nat (length ts) ∧ knows 0 (λ _, True) s') s.
Proof.
  intros Hs. unfold threadscan_thread_signal_all_but_me.
  destruct (rd_ready Hstart me) as [Hnz _]; [by left|].
  apply grg_bind_lift. rewrite c_assert_true by lia. apply wp_ret.
  unfold threadscan_proc_signal_all_except, foreach_in_thread_list.
  destruct (rd_list Hstart) as (tds & [_ (p & Hp & Hl) Hnd _ Hlen] & Hlist). pose proof Hlist as (idle & Hperm & Hidle).
  apply grg_bind; [apply R_refl|]. eapply grg_mono with (P := λ _, knows 1 (λ _, False)).
  { unfold pthread_mutex_lock. apply grg_bind_rmw. intros s1 S1.
    pose proof (knows_R _ _ _ _ S1 Hs) as Hs1. destruct (knows_lock 0 1 _ _ Hs1) as [HG Hs2].
    destruct Hs1 as (_ & _ & Hlk & _). simpl sread. rewrite Hlk. apply wp_ret. simpl swrite. rewrite Hlk.
    apply wp_ret. exists s1.2. split; [exact HG|]. apply grg_ret. intros s3 S3. by apply (knows_R _ _ _ _ S3). }
  intros u s1 Hs1. apply (grg_read_fixed 0 _ _ _ _ _ (proj1 Hs1) (rd_head Hstart) Hp).
  intros s2 S2 _. pose proof (knows_R _ _ _ _ S2 Hs1) as Hs2.
  apply grg_bind; [apply R_refl|].
  eapply grg_mono with (P := λ n s', n = signals tds ∧ knows 1 (λ t, th_td t ∈ tds) s').
  { apply (grg_foreach_loop (R 0) (G 0) (W 0) _ m0 tds
      (λ visited n s, n = signals visited ∧ knows 1 (λ t, th_td t ∈ visited) s)) with (visited := []) (todo := tds).
    - apply R_refl.
    - intros visited n st st' Hst [-> Hk]. split; [done|]. by eapply knows_R.
    - intros visited n st td [_ (Hi & _)] Htd. apply fixed_word; [done|].
      rewrite Hperm in Htd. apply elem_of_app in Htd as [(t & -> & Ht)%list_elem_of_fmap|Htd]; [|by apply Hidle].
      apply (td_word t); [done|]. by left.
    - intros visited td todo n st Htds [-> Hk]. eapply signal_body_grg; eauto.
    - done.
    - done.
    - lia.
    - split; [done|]. eapply knows_mono; [|exact Hs2]. intros t _ []%elem_of_nil. }
  intros n s3 [-> Hs3]. apply grg_bind; [apply R_refl|].
  eapply grg_mono with (P := λ _, knows 0 (λ _, True)).
  - unfold pthread_mutex_unlock. apply grg_wr. intros s4 S4. pose proof (knows_R _ _ _ _ S4 Hs3) as Hs4.
    destruct (knows_lock 1 0 _ _ Hs4) as [HG Hs5]. destruct Hs4 as (_ & _ & Hlk & _).
    simpl swrite. rewrite Hlk. apply wp_ret. exists s4.2. split; [exact HG|]. intros s6 S6.
    apply (knows_R _ _ _ _ S6). eapply knows_mono; [|exact Hs5]. intros t Ht _. cbv beta. rewrite Hperm.
    apply elem_of_app. left. apply list_elem_of_fmap_2. by right.
  - intros u' s4 Hs4. apply grg_ret. intros s5 S5. split; [by apply signals_all|by apply (knows_R _ _ _ _ S5)].
Qed.

(** Before the counter is reset no thread has been signalled. *)
Definition before s : Prop :=
  inv s ∧ s.1 !! tl_lock v.(thread_list_) = Some 0 ∧ ∀ t, t ∈ ts → s.1 !! pending_of t = Some 0.

Lemma before_R s s' : R 0 s s' → before s → before s'.
Proof.
  intros (Hb & Hp & Hl & _) (Hi & Hlk & Hz). split; [by apply Hb|]. split; [by rewrite Hl|].
  intros t Ht. rewrite Hp by done. auto.
Qed.

Lemma reset_counter s :
  before s →
  let s' := (<[v.(self_stacks_searched) := 0]> s.1, (true, s.2.2)) in
  G 0 s s' ∧ knows 0 (λ _, False) s'.
Proof.
  intros (Hi & Hlk & Hz) s'. destruct (rd_distinct Hstart) as [Hd1 Hd2].
  assert (∀ k, k ∉ s.2.2) as Hnone.
  { intros k Hk. destruct (in_done _ Hi k Hk) as (t & Ht & (n & Hn & Hn0) & _).
    rewrite Hz in Hn by (by eapply list_elem_of_lookup_2). congruence. }
  assert (size s.2.2 = 0%nat) as Hsize by (by apply size_empty_iff, elem_of_equiv_empty).
  assert (inv s') as Hi'.
  { pose proof (inv_insert_counter s (true, s.2.2) Hi eq_refl) as Hc. cbn [snd] in Hc. rewrite Hsize in Hc.
    apply Hc. intros k Hk. by destruct (Hnone k). }
  assert (∀ t, t ∈ ts → s'.1 !! pending_of t = s.1 !! pending_of t) as Hp.
  { intros t Ht. cbn [s' fst]. rewrite lookup_insert_ne; [done|]. apply not_eq_sym, (Hd2 t Ht). by left. }
  split.
  - assert (ctl v.(self_stacks_searched)) as Hc by by left.
    pose proof (quiet_insert s.1 _ 0 Hc) as Hq.
    split; [split; [done|]; split; [apply Hq|]; split; [apply (qt_mapped _ _ Hq)|done]|]. split; [done|].
    split; [|intros t Ht; by apply (qt_own _ _ Hq)].
    intros t Ht (n & Hn & Hn0). exists n. by rewrite Hp.
  - split; [done|]. split; [done|]. split; [cbn [s' fst]; by rewrite lookup_insert_ne|]. done.
Qed.

Lemma do_reclaim_grg s :
  before s →
  grg (R 0) (G 0) (W 0) (do_reclaim v g pthread_kill me.(th_td) me.(th_rsp)) (Q 0) s.
Proof.
  intros Hs. unfold do_reclaim, threadscan_thread_user_stack. assert (me ∈ threads) as Hin by by left.
  destruct (td_word me (td_user_stack_low me.(th_td)) Hin) as [Hf1 Hw1]; [rewrite !elem_of_cons; tauto|].
  destruct (td_word me (td_user_stack_high me.(th_td)) Hin) as [Hf2 Hw2]; [rewrite !elem_of_cons; tauto|].
  apply grg_bind; [apply R_refl|].
  apply (grg_read_fixed _ _ _ _ _ _ (proj1 Hs) Hf1 Hw1). intros s1 S1 _. pose proof (before_R _ _ S1 Hs) as Hs1.
  apply (grg_read_fixed _ _ _ _ _ _ (proj1 Hs1) Hf2 Hw2). intros s2 S2 _. pose proof (before_R _ _ S2 Hs1) as Hs2.
  apply grg_ret. intros s3 S3. pose proof (before_R _ _ S3 Hs2) as Hs3. cbn [high].
  apply grg_bind_wr. intros s4 S4. pose proof (before_R _ _ S4 Hs3) as Hs4.
  destruct (in_counter _ (proj1 Hs4)) as [n Hn]. simpl swrite. rewrite Hn. apply wp_ret.
  exists (true, s4.2.2). destruct (reset_counter s4 Hs4) as [HG Hs5]. split; [exact HG|].
  apply grg_bind; [apply R_refl|]. eapply grg_mono; [by apply signal_grg|].
  intros count s6 [-> Hs6]. apply (scan_self_grg 0 me (knows 0 (λ _, True))); [done|apply knows_stable|apply Hs6|done|].
  intros s7 Hi7 Hs7 Hm7. apply grg_bind_await. intros s8 S8. pose proof (knows_R _ _ _ _ S8 Hs7) as Hs8.
  pose proof Hs8 as (Hi8 & Hph8 & _ & Hset8). simpl sread. rewrite (in_reset _ Hi8 Hph8). apply wp_ret.
  destruct (Z.ltb_spec (Z.of_nat (size s8.2.2)) (Z.of_nat (length ts))); cbn [negb].
  - split; [done|]. split; [intros t Ht; by apply Hset8|lia].
  - apply grg_ret. intros s9 S9. pose proof (knows_R _ _ _ _ S9 Hs8) as (Hi9 & _ & _ & Hset9).
    split; [done|]. split; [done|]. split; [intros t Ht; by apply Hset9|]. split.
    + intros k Hk. apply (R_base _ _ _ S9). apply all_counted; [done|lia|done].
    + apply (self_marked_own me s7.1); [done| |by apply scanner_marked_self].
      by apply (R_private 0), (R_trans 0 _ _ _ S8).
Qed.
End reclaimer.

(** ** All threads together *)
Definition round_pool : list (prog Z (Z * Z)) :=
  do_reclaim v g pthread_kill me.(th_td) me.(th_rsp) :: (bystander v g sigpending user <$> ts).

Lemma round_pool_ok : gpool_ok R G W Q (round_pool, m0) (false, ∅).
Proof.
  intros [|k] p; cbn [fst snd round_pool lookup list_lookup].
  - intros [= <-]. apply do_reclaim_grg. split; [apply inv_start|]. split; [|apply (rd_pending Hstart)].
    destruct (rd_list Hstart) as (tds & Hl & _). apply (tl_free _ _ _ Hl).
  - change ((bystander v g sigpending user <$> ts) !! k = Some p → grg (R (S k)) (G (S k)) (W (S k)) p (Q (S k)) (m0, (false, ∅))).
    rewrite list_lookup_fmap. intros (t & Ht & ->)%fmap_Some.
    by apply bystander_grg.
Qed.

(** A reachable state of the pool. *)
Lemma round_reachable ps m :
  rtc pstep (round_pool, m0) (ps, m) →
  ∃ γ, gpool_ok R G W Q (ps, m) γ ∧ inv (m, γ) ∧ length ps = S (length ts).
Proof.
  intros Hrun. pose proof (pstep_length _ _ Hrun) as Hlen.
  destruct (gpool_ok_rtc R G W Q R_refl R_trans G_R inv (round_pool, m0) (ps, m) (false, ∅)) as (γ & Hok & Hi).
  - intros i s s' HG Hi. destruct i; by apply HG.
  - done.
  - apply round_pool_ok.
  - apply inv_start.
  - exists γ. split; [done|]. split; [done|]. cbn in Hlen. by rewrite length_fmap in Hlen.
Qed.

(** No state is a deadlock: if nobody can step, everybody is done. *)
Lemma round_no_deadlock ps m :
  rtc pstep (round_pool, m0) (ps, m) → Forall finished ps ∨ ∃ c', pstep (ps, m) c'.
Proof.
  intros Hrun. destruct (round_reachable _ _ Hrun) as (γ & Hok & Hi & Hlen).
  destruct (not_faulty_progress ps m) as [Hall|?]; [|left|by right].
  { intros i p Hp. by apply (gpool_ok_safe R G W Q R_refl (ps, m) γ i p). }
  assert (∀ i p, ps !! i = Some p → (∃ r, Q i r (m, γ)) ∧ finished p ∨ W i (m, γ)) as Hcases.
  { intros i p Hp. destruct (Forall_lookup_1 _ _ _ _ Hall Hp) as [[r ->]|Hb].
    - left. split; [|by exists r]. exists r. by apply (gpool_ok_post R G W Q R_refl (ps, m)).
    - right. by apply (gpool_ok_blocked R G W Q R_refl (ps, m) γ i p). }
  destruct ps as [|p0 ps]; [done|]. injection Hlen as Hlen.
  (* a bystander is done, or it has not been signalled *)
  assert (∀ k t, ts !! k = Some t → is_set t m → k ∈ γ.2 ∧ ∀ p, ps !! k = Some p → finished p) as Hby.
  { intros k t Ht Hset. destruct (lookup_lt_is_Some_2 ps k) as [p Hp]; [apply lookup_lt_Some in Ht; lia|].
    destruct (Hcases (S k) p Hp) as [[[r [_ Hk]] Hf]|[_ Hn]]; [|by destruct (Hn t Ht)].
    split; [done|]. intros p' Hp'. congruence. }
  assert (∀ k t, ts !! k = Some t → t ∈ ts) as Hin by (intros; by eapply list_elem_of_lookup_2).
  assert (all_set m ∧ finished p0) as [Hset Hf0].
  { destruct (Hcases 0%nat p0 eq_refl) as [[[r (_ & _ & Hset & _)] Hf]|(_ & Hset & Hsize)]; [done|].
    exfalso. cbn [fst snd] in *.
    assert (set_seq 0 (length ts) ⊆ γ.2) as Hsub.
    { intros k Hk%elem_of_set_seq. destruct (lookup_lt_is_Some_2 ts k) as [t Ht]; [lia|].
      apply (Hby k t Ht), Hset. by eapply Hin. }
    apply subseteq_size in Hsub. rewrite size_set_seq in Hsub. lia. }
  constructor; [done|]. apply Forall_lookup_2. intros k p Hp.
  destruct (lookup_lt_is_Some_2 ts k) as [t Ht]; [apply lookup_lt_Some in Hp; lia|].
  apply (Hby k t Ht); [|done]. apply Hset. by eapply Hin.
Qed.

(** What the reclaimer knows from the moment [do_reclaim] returns. *)
Lemma round_marked m γ t :
  Q 0 (g.(buf_addrs), g.(n_addrs)) (m, γ) → t ∈ threads → self_marked t m.
Proof.
  intros (_ & Hi & _ & Hall & Hme) [->|[k Hk]%list_elem_of_lookup]%elem_of_cons; [done|].
  destruct (in_done _ Hi k) as (t' & Ht' & _ & Hm); [apply Hall; by apply lookup_lt_Some in Hk|].
  cbn [fst] in Hm. by replace t with t' by congruence.
Qed.

End round.

(** No fault, no deadlock, no infinite schedule. *)
Lemma round_safe `{Build} (v : globals_t) (g : threadscan_data_t)
    (pthread_kill : Z → Z → prog Z Z) (sigpending : Z → Z) (o : Z → Z)
    (heap retired : Z → Prop) (user : thread → prog Z (prog Z unit))
    (me : thread) (ts : list thread) (m0 m : mem) (ps : list (prog Z (Z * Z))) :
  round_start v g sigpending o heap me ts m0 →
  pthread_kill_delivers pthread_kill sigpending ts →
  users_ok heap retired user ts m0 →
  rtc pstep (round_pool v g pthread_kill sigpending user me ts, m0) (ps, m) →
  (∀ i p, ps !! i = Some p → ¬ faulty p m) ∧
  (Forall finished ps ∨ ∃ c', pstep (ps, m) c') ∧
  Acc (λ c' c, pstep c c') (ps, m).
Proof.
  intros Hstart Hkill Husers Hrun.
  destruct (round_reachable v g pthread_kill sigpending o heap retired user me ts m0 Hstart Hkill Husers ps m Hrun)
    as (γ & Hok & Hi & Hlen).
  split; [|split].
  - intros i p Hp.
    exact (gpool_ok_safe _ _ _ _ (R_refl v g sigpending o heap retired me ts m0) (ps, m) γ i p Hok Hp).
  - by apply (round_no_deadlock v g pthread_kill sigpending o heap retired user me ts m0).
  - apply pstep_wf.
Qed.

(** Memory when [do_reclaim] has returned, for its caller. *)
Record round_done (v : globals_t) (g : threadscan_data_t) (sigpending o : Z → Z) (heap retired : Z → Prop)
    (me : thread) (ts : list thread) (m0 m : mem) : Prop := {
  dn_fixed a : fixed v g sigpending heap ts m0 a → m !! a = m0 !! a;
  dn_mapped a : is_Some (m0 !! a) → is_Some (m !! a);
  dn_held p : retired p → holding m0 (threads me ts) m p → holding m0 (threads me ts) m0 p;
  dn_marks i : 0 ≤ i < g.(n_addrs) →
    (retired (o i) → holding m0 (threads me ts) m0 (o i)) ∧ m !! elt g.(buf_addrs) i = Some (o i + 1) ∨
    (unique g o i → retired (o i) → ¬ holding m0 (threads me ts) m (o i)) ∧ m !! elt g.(buf_addrs) i = Some (o i);
}.

Lemma round_result `{Build} (v : globals_t) (g : threadscan_data_t)
    (pthread_kill : Z → Z → prog Z Z) (sigpending : Z → Z) (o : Z → Z)
    (heap retired : Z → Prop) (user : thread → prog Z (prog Z unit))
    (me : thread) (ts : list thread) (m0 m : mem) (ps : list (prog Z (Z * Z))) r :
  round_start v g sigpending o heap me ts m0 →
  pthread_kill_delivers pthread_kill sigpending ts →
  users_ok heap retired user ts m0 →
  rtc pstep (round_pool v g pthread_kill sigpending user me ts, m0) (ps, m) →
  ps !! 0%nat = Some (Stop (Ret r)) →
  r = (g.(buf_addrs), g.(n_addrs)) ∧ round_done v g sigpending o heap retired me ts m0 m.
Proof.
  intros Hstart Hkill Husers Hrun Hr.
  destruct (round_reachable v g pthread_kill sigpending o heap retired user me ts m0 Hstart Hkill Husers ps m Hrun)
    as (γ & Hok & Hi & Hlen).
  pose proof (gpool_ok_post _ _ _ _ (R_refl v g sigpending o heap retired me ts m0) (ps, m) γ 0 r Hok Hr) as HQ.
  assert (r = (buf_addrs g, n_addrs g)) as -> by apply HQ. split; [done|].
  pose proof (in_app _ _ _ _ _ _ _ _ _ _ Hi) as Happ. cbn [fst] in Happ. split.
  - intros a Ha. by apply (fixed_word v g sigpending o heap retired me ts m0 (m, γ)).
  - apply Happ.
  - intros p Hp (t & Ht & Hf)%holding_refers. apply holding_refers. exists t. split; [done|].
    by apply (ai_refs _ _ _ _ _ _ _ _ _ _ Happ).
  - intros i Hidx.
    pose proof (inv_scan v g sigpending o heap retired me ts m0 Hstart (m, γ) Hi) as Hscan.
    destruct (si_addr _ _ _ _ Hscan i Hidx) as [Hx|[Hf Hx]]; [right|left; by split].
    split; [|done]. intros Hu Hret (t & Ht & Href)%holding_refers.
    pose proof (round_marked v g sigpending o heap retired me ts m0 m γ t HQ Ht i Hidx Hu Hret Href) as Hm.
    unfold marked in Hm. cbn [fst] in Hx. rewrite Hx in Hm. injection Hm. lia.
Qed.

(** C3. A round of scanning: the reclaimer, the signal handlers of all other
    threads and the code these threads run before and after the signal, in
    any interleaving.  No thread is ever at fault, there is no deadlock, no
    schedule runs forever.  From the moment the reclaimer's [do_reclaim]
    returns, whatever the other threads are still doing: no thread gains a
    reference to a retired block; the low bit of an address that occurs once
    in the buffer and is retired is set if a word on the stack or in the
    local block of some thread refers to it now, and it is not set if no such
    word referred to it when the round began. *)
Theorem round_marks_references `{Build} (v : globals_t) (g : threadscan_data_t)
    (pthread_kill : Z → Z → prog Z Z) (sigpending : Z → Z) (o : Z → Z)
    (heap retired : Z → Prop) (user : thread → prog Z (prog Z unit))
    (me : thread) (ts : list thread) (m0 m : mem) (ps : list (prog Z (Z * Z))) :
  round_start v g sigpending o heap me ts m0 →
  pthread_kill_delivers pthread_kill sigpending ts →
  users_ok heap retired user ts m0 →
  rtc pstep (round_pool v g pthread_kill sigpending user me ts, m0) (ps, m) →
  (∀ i p, ps !! i = Some p → ¬ faulty p m) ∧
  (Forall finished ps ∨ ∃ c', pstep (ps, m) c') ∧
  Acc (λ c' c, pstep c c') (ps, m) ∧
  (∀ r, ps !! 0%nat = Some (Stop (Ret r)) →
     r = (g.(buf_addrs), g.(n_addrs)) ∧
     (∀ p, retired p → holding m0 (threads me ts) m p → holding m0 (threads me ts) m0 p) ∧
     ∀ i, 0 ≤ i < g.(n_addrs) → unique g o i → retired (o i) →
       (holding m0 (threads me ts) m (o i) → m !! elt g.(buf_addrs) i = Some (o i + 1)) ∧
       (¬ holding m0 (threads me ts) m0 (o i) → m !! elt g.(buf_addrs) i = Some (o i))).
Proof.
  intros Hstart Hkill Husers Hrun.
  destruct (round_safe v g pthread_kill sigpending o heap retired user me ts m0 m ps Hstart Hkill Husers Hrun)
    as (Hsafe & Hlive & Hacc).
  split; [done|]. split; [done|]. split; [done|].
  intros r Hr.
  destruct (round_result v g pthread_kill sigpending o heap retired user me ts m0 m ps r Hstart Hkill Husers Hrun Hr)
    as (-> & [_ _ Hheld Hex]).
  split; [done|]. split; [done|].
  intros i Hidx Hu Hret. destruct (Hex i Hidx) as [[Hf ?]|[Hn ?]]; [by split; [|intros []; auto]|].
  split; [|done]. intros Hh. by destruct (Hn Hu Hret).
Qed.

(** ** A concrete round

    The data of the example of Search.v; a third thread is in the list that
    has not started yet.  The reclaimer's stack refers to the second address,
    the local block of the other thread to the third.  The other thread moves
    its reference to its stack, is interrupted, writes a word of the heap and
    drops the reference. *)
Definition ex_vars : globals_t :=
  {| thread_list_ := 0x5000; global_timestamp := 0x6000; self_stacks_searched := 0x6008 |}.
Definition ex_sigpending (self : Z) : Z := 0x7000 + 8 * self.
Definition ex_kill (self sig : Z) : prog Z Z := _ ← wr (ex_sigpending self) 1; mret 0.
Definition ex_me : thread := {| th_td := 0x100000; th_self := 1; th_rsp := 0x20000 |}.
Definition ex_other : thread := {| th_td := 0x200000; th_self := 2; th_rsp := 0x30000 |}.

Definition ex_td (td next self active stack_high low high : Z) : list (Z * Z) :=
  [(td_next td, next); (td_self td, self); (td_is_active td, active); (td_user_stack_low td, 0);
   (td_user_stack_high td, stack_high); (td_local_block_low td, low); (td_local_block_high td, high);
   (td_local_timestamp td, 0); (td_times_without_update td, 0)].

(** A thread that was created with an argument and has not started. *)
Definition ex_unstarted (td next arg : Z) : list (Z * Z) :=
  ex_td td next 0 0 0 0 0 ++
  [(td_user_routine td, 0x400000); (td_user_arg td, arg); (td_stack_is_ours td, 1); (td_ptr_list td, 0);
   (td_ptr_list td + 8, 4); (td_ptr_list td + 16, 0); (td_ptr_list td + 24, 4); (td_ref_count td, 1)].

Definition ex_round_mem : mem := list_to_map (
  [(0x10000, 0x1000); (0x10008, 0x2000); (0x10010, 0x3000); (0x11000, 0x1000);
   (0x20000, 0x2001); (0x20008, 7); (0x30000, 0); (0x40000, 0x2800); (0x40008, 0x3000);
   (0x5000, 0x300000); (0x5008, 0); (0x6000, TIMESTAMP_RAISE_FLAG 2); (0x6008, 1); (0x7010, 0); (0x50000, 0)] ++
  ex_td 0x100000 0 1 1 0x20010 0 0 ++ ex_td 0x200000 0x100000 2 1 0x30008 0x40000 0x40010 ++
  ex_unstarted 0x300000 0x200000 0x1000).

Definition ex_heap (a : Z) : Prop := a = 0x50000.
Definition ex_retired (p : Z) : Prop := p ∈ [0x1000; 0x2000; 0x3000].
Definition ex_user (t : thread) : prog Z (prog Z unit) :=
  p ← rd 0x40008;
  _ ← wr 0x30000 p;
  _ ← wr 0x40008 0;
  mret (_ ← wr 0x50000 p;
        _ ← wr 0x30000 0;
        mret tt).

Definition ex_scanner : scanner := {|
  rsp := 0x30000;
  user_stack := {| low := 0; high := 0x30008 |};
  local_block := {| low := 0x40000; high := 0x40010 |};
|}.

Lemma ex_scans a : a ∈ [0x30000; 0x40000; 0x40008] ↔ scans ex_scanner a.
Proof. exact (elem_of_scan_words ex_scanner a). Qed.

Lemma ex_null : ¬ ex_retired (PTR_MASK 0).
Proof. unfold ex_retired. change (PTR_MASK 0) with 0. rewrite !elem_of_cons, elem_of_nil. lia. Qed.

(** The other thread keeps the discipline. *)
Lemma ex_user_ok t m :
  m !! 0x40008 = Some 0x3000 → is_Some (m !! 0x30000) → is_Some (m !! 0x50000) →
  user_ok ex_heap ex_retired ex_scanner (ex_user t) m.
Proof.
  intros Hp H1 H2. assert (is_Some (m !! 0x40008)) as H3 by by eexists.
  assert (∀ a, a ∈ [0x30000; 0x40008] → scans ex_scanner a) as Hs.
  { intros a Ha. apply ex_scans. revert Ha. rewrite !elem_of_cons, elem_of_nil. tauto. }
  assert (scans ex_scanner 0x30000 ∧ scans ex_scanner 0x40008) as [Hs1 Hs2] by (split; apply Hs; rewrite !elem_of_cons; tauto).
  assert (¬ scans ex_scanner 0x50000) as Hh.
  { rewrite <- ex_scans, !elem_of_cons, elem_of_nil. lia. }
  unfold user_ok, ex_user. eapply user_rg_rd; [done|exact Hp|]. intros m1 [O1 M1].
  apply user_rg_wr; [by left|auto| |].
  { intros m2 [O2 M2] _ _. exists 0x40008, 0x3000. split; [done|]. split; [|done]. by rewrite O2, O1. }
  intros m2 [O2 M2]. assert (∀ (m : mem) a x b, is_Some (m !! b) → is_Some (<[a := x]> m !! b)) as Hins
    by (intros; apply lookup_insert_is_Some'; by right).
  apply user_rg_wr; [by left|auto|by intros ??? ?%ex_null|].
  intros m3 [O3 M3]. apply rg_ret. intros m4 [O4 M4]. unfold rest_ok.
  apply user_rg_wr; [by right|auto 10|done|].
  intros m5 [O5 M5]. apply user_rg_wr; [by left|auto 10|by intros ??? ?%ex_null|].
  intros m6 _. by apply rg_ret.
Qed.

Lemma ex_users_ok : users_ok ex_heap ex_retired ex_user [ex_other] ex_round_mem.
Proof.
  intros t ->%list_elem_of_singleton.
  change (scanner_of ex_round_mem ex_other) with ex_scanner. apply ex_user_ok; by eexists || done.
Qed.

Abbreviation ex_ctl := (ctl ex_vars ex_sigpending [ex_other]).
Abbreviation ex_vol := (vol ex_vars ex_sigpending ex_heap [ex_other]).

Lemma ex_ctl_cases a :
  ex_ctl a → a = 0x6008 ∨ a = 0x5008 ∨ a = 0x7010 ∨ a = 0x200058 ∨ a = 0x200060.
Proof.
  intros [->|[->|(t & ->%list_elem_of_singleton & Ht)]]; [by left|by right; left|].
  unfold pending_of, ex_sigpending, ex_other, td_local_timestamp, td_times_without_update in Ht.
  cbn [th_self th_td] in Ht. lia.
Qed.

(** Words the other threads and user code do not write. *)
Definition ex_not_volb (a : Z) : bool :=
  negb (existsb (Z.eqb a) [0x6008; 0x5008; 0x7010; 0x200058; 0x200060; 0x50000; 0x30000; 0x40000; 0x40008]).

Lemma ex_not_vol m a : scanner_of m ex_other = ex_scanner → ex_not_volb a = true → ¬ ex_vol m a.
Proof.
  intros Hm. unfold ex_not_volb. cbn [existsb]. intros Hf [Hc|[Hh|(t & ->%list_elem_of_singleton & Hs)]].
  - apply ex_ctl_cases in Hc. lia.
  - unfold ex_heap in Hh. lia.
  - rewrite Hm in Hs. apply ex_scans in Hs. rewrite !elem_of_cons, elem_of_nil in Hs. lia.
Qed.

(** Such words, outside of the buffer. *)
Definition ex_freeb (a : Z) : bool := ex_not_volb a && ((a <? 0x10000) || (0x10018 <=? a)).

Lemma ex_fixed a : ex_freeb a = true → fixed ex_vars example_data ex_sigpending ex_heap [ex_other] ex_round_mem a.
Proof.
  intros [Hv Hb]%andb_true_iff. split; [by apply ex_not_vol|].
  intros i Hi. unfold elt, sizeof_size_t. cbn [buf_addrs example_data n_addrs] in *. lia.
Qed.

Lemma ex_two (P : thread → Prop) : P ex_me → P ex_other → ∀ t, t ∈ threads ex_me [ex_other] → P t.
Proof. intros ? ? t [->| ->%list_elem_of_singleton]%elem_of_cons; done. Qed.

Lemma ex_one (P : thread → Prop) : P ex_other → ∀ t, t ∈ [ex_other] → P t.
Proof. by intros ? t ->%list_elem_of_singleton. Qed.

(** What the two threads scan. *)
Lemma ex_scan_words t : t ∈ threads ex_me [ex_other] →
  scan_words (scanner_of ex_round_mem t) = if bool_decide (t = ex_me) then [0x20000; 0x20008] else [0x30000; 0x40000; 0x40008].
Proof. revert t. by apply ex_two. Qed.

Lemma ex_private t t' a : t ∈ threads ex_me [ex_other] → t' ∈ threads ex_me [ex_other] → t ≠ t' →
  scans (scanner_of ex_round_mem t) a → ¬ scans (scanner_of ex_round_mem t') a.
Proof.
  intros Ht Ht' Hne. rewrite <- !elem_of_scan_words, !ex_scan_words by done.
  unfold threads in Ht, Ht'. rewrite elem_of_cons, list_elem_of_singleton in Ht, Ht'.
  destruct Ht as [->| ->], Ht' as [->| ->]; try done; simpl; rewrite !elem_of_cons, elem_of_nil; lia.
Qed.

Lemma ex_mapped t :
  t ∈ threads ex_me [ex_other] →
  scanner_mapped example_data (λ a, ex_ctl a ∨ ex_heap a) ex_round_mem (scanner_of ex_round_mem t).
Proof.
  intros Ht r k Hr Hk. set (a := elt (low r) k).
  assert (a ∈ [0x20000; 0x20008; 0x30000; 0x40000; 0x40008]) as Ha.
  { assert (scans (scanner_of ex_round_mem t) a) as Hs by by exists r, k.
    apply elem_of_scan_words in Hs. rewrite ex_scan_words in Hs by done. revert Hs.
    case_bool_decide; rewrite !elem_of_cons, elem_of_nil; tauto. }
  clearbody a. split; [|split].
  - repeat (apply elem_of_cons in Ha as [->|Ha]; [by eexists|]). by apply elem_of_nil in Ha.
  - unfold ex_heap. rewrite !elem_of_cons, elem_of_nil in Ha. intros [Hc%ex_ctl_cases|Hh]; lia.
  - intros i Hi. unfold elt, sizeof_size_t. cbn [buf_addrs example_data n_addrs] in *.
    rewrite !elem_of_cons, elem_of_nil in Ha. lia.
Qed.

Lemma ex_ready t : t ∈ threads ex_me [ex_other] →
  td_ready ex_vars example_data ex_sigpending ex_heap [ex_other] ex_round_mem t.(th_td).
Proof.
  revert t. apply ex_two; (split; [done|]); intros a Ha;
    repeat (apply elem_of_cons in Ha as [->|Ha]); try (by apply elem_of_nil in Ha);
    (split; [by apply ex_fixed|by eexists]).
Qed.

Lemma ex_setup : scan_setup (H := debug_build) example_data example_addr (ex_vol ex_round_mem).
Proof.
  destruct example_setup as [? ? ? _ ? ? ?]. split; try done.
  assert (∀ a, 0x10000 <= a < 0x20000 → ¬ ex_vol ex_round_mem a) as Hn.
  { intros a Ha. apply ex_not_vol; [done|]. unfold ex_not_volb. cbn [existsb]. lia. }
  split; intros i Hi; apply Hn; unfold elt, sizeof_size_t; cbn [n_scan_map buf_scan_map buf_addrs n_addrs example_data] in *; lia.
Qed.

Lemma ex_round_start :
  round_start (H := debug_build) ex_vars example_data ex_sigpending example_addr ex_heap ex_me [ex_other] ex_round_mem.
Proof.
  split.
  - apply ex_setup.
  - split; cbn [n_addrs n_scan_map example_data].
    + intros i Hi. assert (i = 0 ∨ i = 1 ∨ i = 2) as [->|[->| ->]] by lia; reflexivity.
    + intros k Hk. assert (k = 0) as -> by lia. reflexivity.
  - apply ex_mapped.
  - apply ex_private.
  - intros a Ha Hc%ex_ctl_cases. unfold ex_heap in Ha. lia.
  - exists [0x300000; 0x200000; 0x100000]. split; [split; [done|..]|].
    + exists 0x300000. split; [done|]. do 3 (split; [done|]; split; [done|]; eexists; split; [reflexivity|]). done.
    + by apply (bool_decide_unpack (NoDup [0x300000; 0x200000; 0x100000])).
    + intros td Htd. repeat (apply elem_of_cons in Htd as [->|Htd]; [by split|]). by apply elem_of_nil in Htd.
    + unfold list_fuel. simpl. lia.
    + exists [0x300000]. split; [by apply (bool_decide_unpack ([0x300000; 0x200000; 0x100000] ≡ₚ [0x100000; 0x200000; 0x300000]))|].
      intros td ->%list_elem_of_singleton. split; [done|]. split; [by apply ex_fixed|]. split; [by eexists|].
      split; [by apply ex_fixed|done].
  - apply ex_ready.
  - by apply ex_fixed.
  - split; [by apply ex_fixed|by eexists].
  - apply ex_one. by repeat split.
  - by eexists.
  - by apply ex_one.
  - apply ex_one. split; [by eexists|]. exists 0. split; [done|]. unfold INT_MIN, INT_MAX. lia.
  - split; [done|]. apply ex_one. split.
    + intros a Ha. repeat (apply elem_of_cons in Ha as [->|Ha]); try (by apply elem_of_nil in Ha); by split.
    + intros t' ->%list_elem_of_singleton. by repeat split.
Qed.

(** A schedule that runs both threads to the end.  The reference that was
    moved before the signal and dropped after it keeps the third block. *)
Lemma round_marks_references_witness :
  let c := psched (concat (replicate 110 [1%nat; 0%nat]))
             (round_pool (H := debug_build) ex_vars example_data ex_kill ex_sigpending ex_user ex_me [ex_other], ex_round_mem) in
  c.1 = [Stop (Ret (0x10000, 3)); Stop (Ret (0, 0))] ∧
  c.2 !! 0x10010 = Some 0x3001 ∧ c.2 !! 0x30000 = Some 0 ∧ c.2 !! 0x40008 = Some 0 ∧
  (0x10000, 3) = (example_data.(buf_addrs), example_data.(n_addrs)) ∧
  (∀ p, ex_retired p → holding ex_round_mem (threads ex_me [ex_other]) c.2 p →
     holding ex_round_mem (threads ex_me [ex_other]) ex_round_mem p) ∧
  ∀ i, 0 ≤ i < 3 → unique example_data example_addr i → ex_retired (example_addr i) →
     (holding ex_round_mem (threads ex_me [ex_other]) c.2 (example_addr i) →
        c.2 !! (0x10000 + 8 * i) = Some (example_addr i + 1)) ∧
     (¬ holding ex_round_mem (threads ex_me [ex_other]) ex_round_mem (example_addr i) →
        c.2 !! (0x10000 + 8 * i) = Some (example_addr i)).
Proof.
  intros c.
  assert (c.1 = [Stop (Ret (0x10000, 3)); Stop (Ret (0, 0))] ∧
    c.2 !! 0x10010 = Some 0x3001 ∧ c.2 !! 0x30000 = Some 0 ∧ c.2 !! 0x40008 = Some 0) as (Hc & H1 & H2 & H3)
    by (vm_compute; done).
  do 4 (split; [assumption|]).
  apply (round_marks_references (H := debug_build) ex_vars example_data ex_kill ex_sigpending example_addr
    ex_heap ex_retired ex_user ex_me [ex_other] ex_round_mem c.2 c.1 ex_round_start).
  - by intros t ->%list_elem_of_singleton.
  - exact ex_users_ok.
  - rewrite <- surjective_pairing. apply psched_rtc.
  - by rewrite Hc.
Defined.
