(* ===== verification/AllocIface.v ===== *)
(** * The interface of the allocator (alloc.h)

    What [threadscan_alloc_mmap] and [threadscan_alloc_munmap] promise to the
    rest of the program: the blocks that are live do not overlap, a new block
    is none of them, releasing a live block succeeds.  A request the operating
    system has no memory for ends the process, so the promise about a new
    block is made for a request that can be served ([alloc_avail]).  The reclaimer is
    verified against this interface; AllocInv.v implements it. *)

From S2P Require Import Prelude Conc Mem.

Class Allocator (AS : Type) := {
  alloc_mmap : Z → AS → outcome (Z * AS);
  alloc_munmap : Z → AS → outcome AS;
  alloc_ok : AS → Prop;
  live : AS → gmap Z Z; (* the length of the block at an address *)
  alloc_avail : AS → Z → Prop; (* the operating system can serve a request of this size *)
  alloc_mmap_spec s size :
    alloc_ok s → 0 < size < 2 ^ 63 → size `mod` PAGESIZE = 0 → alloc_avail s size →
    wp (alloc_mmap size s) (λ r, alloc_ok r.2 ∧ 0 < r.1 ∧ live s !! r.1 = None ∧
      live r.2 = <[r.1 := size]> (live s));
  alloc_munmap_spec s ptr :
    alloc_ok s → is_Some (live s !! ptr) →
    wp (alloc_munmap ptr s) (λ s', alloc_ok s' ∧ live s' = delete ptr (live s));
  alloc_disjoint s a la b lb :
    alloc_ok s → live s !! a = Some la → live s !! b = Some lb → a ≠ b → a + la ≤ b ∨ b + lb ≤ a;
}.

(** The interface can be met: an allocator that never reuses an address. *)
Record bump_state := { bump_next : Z; bump_live : gmap Z Z }.

Definition bump_mmap (size : Z) (s : bump_state) : outcome (Z * bump_state) :=
  Ret (s.(bump_next), {| bump_next := s.(bump_next) + size; bump_live := <[s.(bump_next) := size]> s.(bump_live) |}).
Definition bump_munmap (ptr : Z) (s : bump_state) : outcome bump_state :=
  Ret {| bump_next := s.(bump_next); bump_live := delete ptr s.(bump_live) |}.

Record bump_ok (s : bump_state) : Prop := {
  bk_next : 0 < s.(bump_next);
  bk_below : ∀ a l, s.(bump_live) !! a = Some l → 0 < l ∧ a + l ≤ s.(bump_next);
  bk_disjoint : ∀ a la b lb, s.(bump_live) !! a = Some la → s.(bump_live) !! b = Some lb →
                a ≠ b → a + la ≤ b ∨ b + lb ≤ a;
}.

#[export, refine] Instance bump_allocator : Allocator bump_state := {|
  alloc_mmap := bump_mmap;
  alloc_munmap := bump_munmap;
  alloc_ok := bump_ok;
  live := bump_live;
  alloc_avail _ _ := True;
|}.
Proof.
  - intros [next l] size [Hn Hb Hd] Hsize _ _. cbn in *. split; [split; cbn|split; [done|split; [|done]]].
    + lia.
    + intros a x [[<- <-]|[Hne Hx]]%lookup_insert_Some; [lia|]. specialize (Hb a x Hx). lia.
    + intros a la b lb [[<- <-]|[Hne Ha]]%lookup_insert_Some [[<- <-]|[Hne' Hb']]%lookup_insert_Some Hab; [done|..].
      * specialize (Hb b lb Hb'). lia.
      * specialize (Hb a la Ha). lia.
      * by apply Hd.
    + destruct (l !! next) eqn:E; [|done]. specialize (Hb next z E). lia.
  - intros [next l] ptr [Hn Hb Hd] _. cbn in *. split; [split; cbn|done].
    + done.
    + intros a x [_ Hx]%lookup_delete_Some. by apply Hb.
    + intros a la b lb [_ Ha]%lookup_delete_Some [_ Hb']%lookup_delete_Some. by apply Hd.
  - intros s a la b lb Hok. apply (bk_disjoint _ Hok).
Defined.
