(* ===== verification/ThreadData.v ===== *)
(** * util.c and thread.c: the metadata of a thread

    A thread's metadata is a page from the internal allocator, its queue is
    another block, and its stack may be a third.  The functions here allocate
    the metadata, hook a thread into the list of threads, take it out when it
    exits, and release its memory when it is joined.  Memory that mmap
    returned is filled with zeros; memory that was unmapped cannot be accessed
    any more.

    Each function runs as one step: it works on a thread that no other thread
    knows yet or any more, or holds the lock of the list it changes. *)

From S2P Require Import Prelude Conc Ghost Mem Env ThreadList Thread AllocIface.

(** ** The process: the state of the allocator, and the memory *)
Record process (AS : Type) := { heap : AS; memory : mem }.
Arguments heap {AS}.
Arguments memory {AS}.

Definition step (AS A : Type) : Type := process AS → outcome (A * process AS).

#[export] Instance step_ret AS : MRet (step AS) := λ A a st, Ret (a, st).
#[export] Instance step_bind AS : MBind (step AS) := λ A B f p st, '(a, st') ← p st; f a st'.

(** A function that only accesses the memory, and one that only computes. *)
Definition in_memory {AS A} (p : prog Z A) : step AS A := λ st,
  '(a, m) ← run p st.(memory); Ret (a, {| heap := st.(heap); memory := m |}).
Definition lifted {AS A} (o : outcome A) : step AS A := λ st, a ← o; Ret (a, st).

Definition zeroed (cells : list Z) (m : mem) : mem := list_to_map ((λ a, (a, 0)) <$> cells) ∪ m.
Definition unmapped (p size : Z) (m : mem) : mem := filter (λ c, ¬ (p <= c.1 < p + size)) m.

(** The static variables of util.c, proc.c and wrappers.c. *)
Record statics_t := {
  globals : globals_t;
  g_staged_lock : Z;
  g_td_staged_to_free : Z;
  g_thread_count : Z;
}.

(** [queue_t] inside the metadata. *)
Definition td_queue_e (td : Z) : Z := td_ptr_list td.
Definition td_queue_capacity (td : Z) : Z := td_ptr_list td + 8.
Definition td_queue_idx_head (td : Z) : Z := td_ptr_list td + 16.
Definition td_queue_idx_tail (td : Z) : Z := td_ptr_list td + 24.

(** The scalars of a [thread_data_t]. *)
Definition td_scalars (td : Z) : list Z :=
  [td_user_routine td; td_user_arg td; td_next td; td_self td; td_user_stack_low td; td_user_stack_high td;
   td_stack_is_ours td; td_is_active td; td_queue_e td; td_queue_capacity td; td_queue_idx_head td;
   td_queue_idx_tail td; td_local_timestamp td; td_times_without_update td; td_local_block_low td;
   td_local_block_high td; td_ref_count td].

Definition MEMBLOCK_SIZE : Z := PAGESIZE.

Section code.
Context `{Build} {AS : Type} `{!Allocator AS} (v : statics_t) (g_threadscan_ptrs_per_thread : Z).
Notation step := (step AS).

(** The allocator's blocks; [cells p] are the scalars that will be accessed in
    the block at [p]. *)
Definition threadscan_alloc_mmap (size : Z) (cells : Z → list Z) : step Z := λ st,
  '(p, a) ← alloc_mmap size st.(heap);
  Ret (p, {| heap := a; memory := zeroed (cells p) st.(memory) |}).

Definition threadscan_alloc_munmap (p : Z) : step unit := λ st,
  a ← alloc_munmap p st.(heap);
  Ret (tt, {| heap := a; memory := unmapped p (default 0 (live st.(heap) !! p)) st.(memory) |}).

Definition td_queue_init (td local_list capacity : Z) : prog Z unit :=
  _ ← wr (td_queue_e td) local_list;
  _ ← wr (td_queue_capacity td) capacity;
  _ ← wr (td_queue_idx_head td) 0;
  wr (td_queue_idx_tail td) capacity.

Definition threadscan_util_thread_data_new : step Z :=
  td ← threadscan_alloc_mmap MEMBLOCK_SIZE td_scalars;
  local_list ← threadscan_alloc_mmap (g_threadscan_ptrs_per_thread * sizeof_size_t)
                 (λ p, elt p <$> seqZ 0 g_threadscan_ptrs_per_thread);
  in_memory (
    _ ← td_queue_init td local_list g_threadscan_ptrs_per_thread;
    _ ← wr (td_local_block_high td) 0;
    _ ← wr (td_local_block_low td) 0;
    _ ← wr (td_ref_count td) 1;
    mret td).

Definition threadscan_util_thread_data_decr_ref (td : Z) : prog Z unit :=
  old ← sync_fetch_and_sub (td_ref_count td) 1;
  if old - 1 =? 0 then
    _ ← pthread_mutex_lock v.(g_staged_lock);
    staged ← rd v.(g_td_staged_to_free);
    _ ← wr (td_next td) staged;
    _ ← wr v.(g_td_staged_to_free) td;
    pthread_mutex_unlock v.(g_staged_lock)
  else mret tt.

Definition threadscan_util_thread_data_free (td : Z) : step unit :=
  _ ← lifted (c_assert (negb (td =? 0)));
  ref_count ← in_memory (if debug then rd (td_ref_count td) else mret 0);
  _ ← lifted (c_assert (ref_count =? 0));
  e ← in_memory (rd (td_queue_e td));
  _ ← threadscan_alloc_munmap e;
  threadscan_alloc_munmap td.

(** [while (0 == pthread_equal(td->self, tid))]; the result is [last] and
    [td]. *)
Fixpoint find_staged (fuel : nat) (tid last td : Z) : prog Z (Z * Z) :=
  match fuel with
  | O => lift OutOfFuel
  | S fuel' =>
      self ← rd (td_self td);
      if self =? tid then mret (last, td)
      else
        next ← rd (td_next td);
        _ ← lift (c_assert (negb (next =? 0)));
        find_staged fuel' tid td next
  end.

Definition unstage (fuel : nat) (tid : Z) : prog Z Z :=
  _ ← pthread_mutex_lock v.(g_staged_lock);
  td ← rd v.(g_td_staged_to_free);
  _ ← lift (c_assert (negb (td =? 0)));
  '(last, td) ← find_staged fuel tid 0 td;
  next ← rd (td_next td);
  _ ← (if negb (last =? 0) then wr (td_next last) next else wr v.(g_td_staged_to_free) next);
  _ ← pthread_mutex_unlock v.(g_staged_lock);
  mret td.

(** The list has no more elements than the memory has words. *)
Definition threadscan_util_thread_data_cleanup (tid : Z) : step unit := λ st, (
  td ← in_memory (unstage (S (size st.(memory))) tid);
  ref_count ← in_memory (rd (td_ref_count td));
  if ref_count >? 0 then lifted threadscan_fatal
  else
    stack_is_ours ← in_memory (rd (td_stack_is_ours td));
    _ ← (if negb (stack_is_ours =? 0) then
           low ← in_memory (rd (td_user_stack_low td)); threadscan_alloc_munmap low
         else mret tt);
    threadscan_util_thread_data_free td) st.

(** ** thread.c, proc.c *)
Definition threadscan_proc_add_thread_data (td : Z) : prog Z unit :=
  _ ← threadscan_util_thread_list_init v.(globals).(thread_list_);
  threadscan_util_thread_list_add v.(globals).(thread_list_) td.

Definition threadscan_proc_remove_thread_data (td : Z) : prog Z unit :=
  threadscan_util_thread_list_remove v.(globals).(thread_list_) td.

(** Up to the call of the user's routine: the result is the routine and its
    argument.  [sp] is the stack pointer, [self] the id of this thread. *)
Definition threadscan_thread_base (td sp self : Z) : prog Z (Z * Z) :=
  let buffer_size := Z.land sp (PAGESIZE - 1) in
  _ ← wr (td_user_stack_high td) (u64 (sp - buffer_size));
  _ ← wr (td_local_timestamp td) 0;
  _ ← wr (td_self td) self;
  _ ← wr (td_is_active td) 1;
  user_routine ← rd (td_user_routine td);
  user_arg ← rd (td_user_arg td);
  mret (user_routine, user_arg).

(** [td] is [threadscan_local_td]. *)
Definition threadscan_thread_cleanup (td : Z) : prog Z unit :=
  _ ← lift (c_assert (negb (td =? 0)));
  _ ← wr (td_is_active td) 0;
  _ ← threadscan_proc_remove_thread_data td;
  threadscan_util_thread_data_decr_ref td.
End code.

(** ** Rules for steps *)
Lemma wp_step_bind {AS A B} (p : step AS A) (f : A → step AS B) st Q :
  wp (p st) (λ r, wp (f r.1 r.2) Q) → wp ((p ≫= f) st) Q.
Proof. intros Hp. unfold mbind, step_bind. apply wp_bind. eapply wp_mono; [exact Hp|]. by intros [a st']. Qed.

Lemma wp_in_memory {AS A} (p : prog Z A) (st : process AS) Q :
  wp (run p st.(memory)) (λ r, Q (r.1, {| heap := st.(heap); memory := r.2 |})) → wp (in_memory p st) Q.
Proof. intros Hp. unfold in_memory. apply wp_bind. eapply wp_mono; [exact Hp|]. by intros [a m]. Qed.

Lemma wp_lifted {AS A} (o : outcome A) a (st : process AS) Q : o = Ret a → Q (a, st) → wp (lifted o st) Q.
Proof. by intros ->. Qed.

(** The same as equations, for runs that do not return. *)
Lemma step_bind_ret {AS A B} (p : step AS A) (f : A → step AS B) st a st' :
  p st = Ret (a, st') → (p ≫= f) st = f a st'.
Proof. intros E. unfold mbind, step_bind. by rewrite E. Qed.

Lemma step_bind_aborted {AS A B} (p : step AS A) (f : A → step AS B) st : p st = Aborted → (p ≫= f) st = Aborted.
Proof. intros E. unfold mbind, step_bind. by rewrite E. Qed.

Lemma step_bind_UB {AS A B} (p : step AS A) (f : A → step AS B) st : p st = UB → (p ≫= f) st = UB.
Proof. intros E. unfold mbind, step_bind. by rewrite E. Qed.

Lemma in_memory_eq {AS A} (p : prog Z A) (st : process AS) o :
  run p st.(memory) = o → in_memory p st = '(a, m) ← o; Ret (a, {| heap := st.(heap); memory := m |}).
Proof. by intros <-. Qed.

(** A run that returns, backwards. *)
Lemma step_bind_inv {AS A B} (p : step AS A) (f : A → step AS B) st r :
  (p ≫= f) st = Ret r → ∃ a st', p st = Ret (a, st') ∧ f a st' = Ret r.
Proof. intros ([a st'] & E1 & E2)%outcome_bind_inv. by exists a, st'. Qed.

Lemma in_memory_inv {AS A} (p : prog Z A) (st : process AS) r :
  in_memory p st = Ret r → r.2.(heap) = st.(heap) ∧ run p st.(memory) = Ret (r.1, r.2.(memory)).
Proof. intros ([a m] & E1 & [= <-])%outcome_bind_inv. by rewrite E1. Qed.

Lemma lifted_inv {AS A} (o : outcome A) (st : process AS) r : lifted o st = Ret r → o = Ret r.1 ∧ r.2 = st.
Proof. intros (a & E1 & [= <-])%outcome_bind_inv. by rewrite E1. Qed.

Lemma lifted_ret {AS A} (o : outcome A) a (st : process AS) : o = Ret a → lifted o st = Ret (a, st).
Proof. by intros ->. Qed.

Lemma zeroed_in cells m a : a ∈ cells → zeroed cells m !! a = Some 0.
Proof.
  intros Ha. unfold zeroed. apply lookup_union_Some_l, elem_of_list_to_map_1'.
  - by intros y (b & [= _ ->] & _)%list_elem_of_fmap.
  - apply list_elem_of_fmap. by exists a.
Qed.

Lemma zeroed_out cells m a : a ∉ cells → zeroed cells m !! a = m !! a.
Proof.
  intros Ha. unfold zeroed. apply lookup_union_r, not_elem_of_list_to_map_1.
  rewrite <- list_fmap_compose. by intros (b & -> & Hb)%list_elem_of_fmap.
Qed.

Lemma unmapped_out p size m a : ¬ (p <= a < p + size) → unmapped p size m !! a = m !! a.
Proof.
  intros Ha. unfold unmapped. destruct (m !! a) as [x|] eqn:E.
  - by apply map_lookup_filter_Some.
  - apply map_lookup_filter_None. by left.
Qed.

Lemma unmapped_in p size m a : p <= a < p + size → unmapped p size m !! a = None.
Proof. intros Ha. unfold unmapped. apply map_lookup_filter_None. right. intros x _. cbn. lia. Qed.

(** ** Blocks and who holds them *)
Definition outside (b : Z * Z) (a : Z) : Prop := a < b.1 ∨ b.1 + b.2 <= a.

Section heap.
Context {AS : Type} `{!Allocator AS}.

(** The live blocks are those of [bs]. *)
Record owns (h : AS) (bs : list (Z * Z)) : Prop := {
  ow_ok : alloc_ok h;
  ow_nodup : NoDup bs.*1;
  ow_live : live h = list_to_map bs;
}.

Lemma owns_perm h bs bs' : bs ≡ₚ bs' → owns h bs → owns h bs'.
Proof.
  intros Hp [Hok Hnd Hl]. split; [done|by rewrite <- Hp|]. rewrite Hl. by apply list_to_map_proper.
Qed.

Lemma owns_live h bs p l : owns h bs → (p, l) ∈ bs → live h !! p = Some l.
Proof. intros [_ Hnd ->] Hin. by apply elem_of_list_to_map_1. Qed.

Lemma owns_disjoint h bs b b' a :
  owns h bs → b ∈ bs → b' ∈ bs → b.1 ≠ b'.1 → b.1 <= a < b.1 + b.2 → outside b' a.
Proof.
  destruct b as [p l], b' as [q k]. cbn. intros Ho Hb Hb' Hne Ha.
  pose proof (alloc_disjoint h p l q k (ow_ok _ _ Ho) (owns_live _ _ _ _ Ho Hb) (owns_live _ _ _ _ Ho Hb') Hne).
  unfold outside. cbn. lia.
Qed.

(** The operating system serves the requests [sizes], with blocks that are
    apart from the static variables [fixed]. *)
Fixpoint can_serve (fixed : list Z) (h : AS) (sizes : list Z) : Prop :=
  match sizes with
  | [] => True
  | size :: sizes' =>
      alloc_avail h size ∧ ∀ p h', alloc_mmap size h = Ret (p, h') →
        (∀ x, x ∈ fixed → outside (p, size) x) ∧ can_serve fixed h' sizes'
  end.

Lemma owns_mmap fixed h bs size sizes :
  owns h bs → 0 < size < 2 ^ 63 → size `mod` PAGESIZE = 0 → can_serve fixed h (size :: sizes) →
  ∃ p h', alloc_mmap size h = Ret (p, h') ∧ 0 < p ∧ owns h' ((p, size) :: bs) ∧
    (∀ x, x ∈ fixed → outside (p, size) x) ∧ can_serve fixed h' sizes.
Proof.
  intros [Hok Hnd Hl] Hs Hm [Hav Hserve].
  destruct (proj1 (wp_iff _ _) (alloc_mmap_spec h size Hok Hs Hm Hav)) as ([p h'] & Hrun & Hok' & Hp & Hnone & Hl').
  cbn [fst snd] in *. exists p, h'. split; [done|]. split; [done|]. split; [|by apply Hserve].
  split; [done| |by rewrite Hl', Hl]. cbn. apply NoDup_cons. split; [|done].
  rewrite Hl in Hnone. by apply not_elem_of_list_to_map_2.
Qed.

Lemma can_serve_mono fixed fixed' h sizes : fixed ⊆ fixed' → can_serve fixed' h sizes → can_serve fixed h sizes.
Proof.
  intros Hsub. revert h. induction sizes as [|size sizes IH]; intros h; [done|]. intros [Hav Hs]. split; [done|].
  intros p h' E. destruct (Hs p h' E) as [Hout Hs']. split; [|by apply IH]. intros x Hx. by apply Hout, Hsub.
Qed.

Lemma owns_munmap h bs p l :
  owns h ((p, l) :: bs) → wp (alloc_munmap p h) (λ h', owns h' bs).
Proof.
  intros [Hok Hnd Hl]. cbn in Hnd. apply NoDup_cons in Hnd as [Hp Hnd].
  eapply wp_mono; [apply alloc_munmap_spec; [done|]|].
  - rewrite Hl. cbn. rewrite lookup_insert_eq. by eexists.
  - intros h' [Hok' Hl']. split; [done|done|]. rewrite Hl', Hl. cbn. apply delete_insert_id.
    by apply not_elem_of_list_to_map_1.
Qed.
End heap.

(** ** The threads of the process *)
Record thr := {
  t_td : Z; (* the metadata *)
  t_queue : Z; (* the block of its queue *)
  t_low : Z; (* the stack *)
  t_own : bool; (* the stack is ours *)
  t_self : Z;
  t_routine : Z; (* what the user wants it to call *)
  t_arg : Z;
}.

Definition STACK_SIZE : Z := 2 * 1024 * 1024.

(** The metadata of [t] in memory. *)
Record td_fields (m : mem) (t : thr) (ref_count : Z) : Prop := {
  tf_mapped : ∀ a, a ∈ td_scalars t.(t_td) → is_Some (m !! a);
  tf_queue : m !! td_queue_e t.(t_td) = Some t.(t_queue);
  tf_low : m !! td_user_stack_low t.(t_td) = Some t.(t_low);
  tf_own : m !! td_stack_is_ours t.(t_td) = Some (if t.(t_own) then 1 else 0);
  tf_self : m !! td_self t.(t_td) = Some t.(t_self);
  tf_ref : m !! td_ref_count t.(t_td) = Some ref_count;
  tf_routine : m !! td_user_routine t.(t_td) = Some t.(t_routine);
  tf_arg : m !! td_user_arg t.(t_td) = Some t.(t_arg);
}.

Definition statics_list (v : statics_t) : list Z :=
  [tl_head v.(globals).(thread_list_); tl_lock v.(globals).(thread_list_); v.(g_staged_lock);
   v.(g_td_staged_to_free); v.(g_thread_count)].

Lemma td_scalars_in td a : a ∈ td_scalars td → td <= a < td + PAGESIZE.
Proof.
  unfold td_scalars. intros Ha. repeat (apply elem_of_cons in Ha as [->|Ha]; [unfold PAGESIZE, td_queue_e,
    td_queue_capacity, td_queue_idx_head, td_queue_idx_tail; autounfold with layout; lia|]). by apply elem_of_nil in Ha.
Qed.

(** Every scalar is in the list. *)
Ltac scalar := unfold td_scalars; rewrite !elem_of_cons; tauto.

Lemma td_fields_ext m m' t ref :
  (∀ a, a ∈ td_scalars t.(t_td) → a ≠ td_next t.(t_td) → m' !! a = m !! a) → is_Some (m' !! td_next t.(t_td)) →
  td_fields m t ref → td_fields m' t ref.
Proof.
  intros He Hn [Hm Hq Hl Ho Hs Hr Hu Harg]. split.
  - intros a Ha. destruct (decide (a = td_next t.(t_td))) as [->|]; [done|]. rewrite He by done. by apply Hm.
  - rewrite He; [done|scalar|unfold td_queue_e; addr].
  - rewrite He; [done|scalar|addr].
  - rewrite He; [done|scalar|addr].
  - rewrite He; [done|scalar|addr].
  - rewrite He; [done|scalar|addr].
  - rewrite He; [done|scalar|addr].
  - rewrite He; [done|scalar|addr].
Qed.

Section threads.
Context {AS : Type} `{!Allocator AS} (v : statics_t) (qsz : Z).
Implicit Types st : process AS.
Notation tl := (v.(globals).(thread_list_)).

Definition thread_blocks (t : thr) : list (Z * Z) :=
  (t.(t_td), PAGESIZE) :: (t.(t_queue), qsz) :: (if t.(t_own) then [(t.(t_low), STACK_SIZE)] else []).
Definition threads_blocks (ts : list thr) : list (Z * Z) := concat (thread_blocks <$> ts).

(** The threads [R] are known and run (or will), the threads [S] exited and
    wait to be joined; the other live blocks are [F]; [n] threads are
    counted. *)
Record threads_repr st (R S : list thr) (F : list (Z * Z)) (n : Z) : Prop := {
  tr_heap : owns st.(heap) (threads_blocks (R ++ S) ++ F);
  tr_list : thread_list tl st.(memory) (t_td <$> R);
  tr_staged : ∃ p, st.(memory) !! v.(g_td_staged_to_free) = Some p ∧ tlist st.(memory) p (t_td <$> S);
  tr_lock : st.(memory) !! v.(g_staged_lock) = Some 0;
  tr_count : st.(memory) !! v.(g_thread_count) = Some n;
  tr_running : ∀ t, t ∈ R → td_fields st.(memory) t 1;
  tr_exited : ∀ t, t ∈ S → td_fields st.(memory) t 0;
  tr_fixed : ∀ b x, b ∈ threads_blocks (R ++ S) ++ F → x ∈ statics_list v → outside b x;
}.

Record statics_ok : Prop := {
  so_nodup : NoDup (statics_list v);
  so_list : tl ≠ 0;
}.

Lemma threads_blocks_app ts ts' : threads_blocks (ts ++ ts') = threads_blocks ts ++ threads_blocks ts'.
Proof. unfold threads_blocks. by rewrite fmap_app, concat_app. Qed.

#[export] Instance threads_blocks_perm : Proper ((≡ₚ) ==> (≡ₚ)) threads_blocks.
Proof.
  intros l l' Hp. unfold threads_blocks. induction Hp as [|x l l' _ IH|x y l|l1 l2 l3 _ IH1 _ IH2].
  - done.
  - by apply Permutation_app_head.
  - apply Permutation_app_swap_app.
  - by rewrite IH1.
Qed.

Lemma threads_blocks_in ts t : t ∈ ts → (t.(t_td), PAGESIZE) ∈ threads_blocks ts.
Proof.
  intros Ht. unfold threads_blocks. apply list_elem_of_In, in_concat. exists (thread_blocks t).
  split; [by apply list_elem_of_In, list_elem_of_fmap_2|by left].
Qed.

Lemma nodup_keys_ne (l k : list (Z * Z)) b b' : NoDup (l ++ k).*1 → b ∈ l → b' ∈ k → b.1 ≠ b'.1.
Proof.
  rewrite fmap_app, NoDup_app. intros (_ & Hd & _) Hb Hb' E. apply (Hd b.1); [by apply list_elem_of_fmap_2|].
  rewrite E. by apply list_elem_of_fmap_2.
Qed.

(** The metadata of a thread is in none of the blocks [F]. *)
Lemma scalar_outside h ts F t a b :
  owns h (threads_blocks ts ++ F) → t ∈ ts → a ∈ td_scalars t.(t_td) → b ∈ F → outside b a.
Proof.
  intros Ho Ht Ha%td_scalars_in Hb. pose proof (threads_blocks_in ts t Ht) as Hin.
  eapply (owns_disjoint h _ (t.(t_td), PAGESIZE)); [done| | |by eapply nodup_keys_ne; [apply (ow_nodup _ _ Ho)|..]|done];
    apply elem_of_app; [by left|by right].
Qed.

Lemma next_scalar td : td_next td ∈ td_scalars td.
Proof. scalar. Qed.

(** What happens in the other blocks does not matter to the threads. *)
Lemma repr_mem st R S F n m' :
  threads_repr st R S F n → (∀ a, (∀ b, b ∈ F → outside b a) → m' !! a = st.(memory) !! a) →
  threads_repr {| heap := st.(heap); memory := m' |} R S F n.
Proof.
  intros [Ho Hl (p & Hp & Hs) Hk Hc HR HS Hf] Hm.
  assert (∀ x, x ∈ statics_list v → m' !! x = st.(memory) !! x) as Hst.
  { intros x Hx. apply Hm. intros b Hb. apply Hf; [apply elem_of_app; by right|done]. }
  assert (∀ t a, t ∈ R ++ S → a ∈ td_scalars t.(t_td) → m' !! a = st.(memory) !! a) as Ht.
  { intros t a Ht Ha. apply Hm. intros b Hb. by eapply scalar_outside. }
  assert (∀ t ref, t ∈ R ++ S → td_fields st.(memory) t ref → td_fields m' t ref) as Hfields.
  { intros t ref Hin Hfld. eapply td_fields_ext; [intros a Ha _; by eapply Ht| |done].
    rewrite (Ht t) by (done || apply next_scalar). apply (tf_mapped _ _ _ Hfld), next_scalar. }
  assert (∀ ts p, (∀ t, t ∈ ts → t ∈ R ++ S) → tlist st.(memory) p (t_td <$> ts) → tlist m' p (t_td <$> ts)) as Htl.
  { intros ts q Hsub. apply tlist_ext. intros td (t & -> & Hin)%list_elem_of_fmap. apply (Ht t); [by apply Hsub|apply next_scalar]. }
  split; cbn [heap memory]; try done.
  - destruct Hl as [H1 (q & Hq & Hl) H3 H4 H5]. split; try done.
    + rewrite Hst; [done|]. unfold statics_list. rewrite !elem_of_cons. tauto.
    + exists q. split; [rewrite Hst; [done|unfold statics_list; rewrite !elem_of_cons; tauto]|].
      apply Htl; [|done]. intros t. rewrite elem_of_app. tauto.
  - exists p. split; [rewrite Hst; [done|unfold statics_list; rewrite !elem_of_cons; tauto]|].
    apply Htl; [|done]. intros t. rewrite elem_of_app. tauto.
  - rewrite Hst; [done|]. unfold statics_list. rewrite !elem_of_cons. tauto.
  - rewrite Hst; [done|]. unfold statics_list. rewrite !elem_of_cons. tauto.
  - intros t Hin. apply Hfields; [apply elem_of_app; by left|by apply HR].
  - intros t Hin. apply Hfields; [apply elem_of_app; by right|by apply HS].
Qed.

(** A new block. *)
Lemma repr_mmap st R S F n size sizes (cells : Z → list Z) :
  threads_repr st R S F n → 0 < size < 2 ^ 63 → size `mod` PAGESIZE = 0 →
  can_serve (statics_list v) st.(heap) (size :: sizes) → (∀ p a, a ∈ cells p → p <= a < p + size) →
  wp (threadscan_alloc_mmap size cells st) (λ r, threads_repr r.2 R S ((r.1, size) :: F) n ∧ 0 < r.1 ∧
    r.2.(memory) = zeroed (cells r.1) st.(memory) ∧ can_serve (statics_list v) r.2.(heap) sizes).
Proof.
  intros Hr Hs Hm Hserve Hcells. pose proof Hr as [Ho Hl Hst Hk Hc HR HS Hf].
  destruct (owns_mmap _ _ _ _ _ Ho Hs Hm Hserve) as (p & h' & Hrun & Hp & Ho' & Hfix & Hserve').
  unfold threadscan_alloc_mmap. rewrite Hrun. cbn [mbind outcome_bind]. apply wp_ret. cbn [fst snd heap memory].
  split; [|done].
  assert ((p, size) :: threads_blocks (R ++ S) ++ F ≡ₚ threads_blocks (R ++ S) ++ (p, size) :: F) as Eperm by (by rewrite Permutation_middle).
  apply (repr_mem {| heap := h'; memory := st.(memory) |}).
  - split; cbn [heap memory]; try done.
    + eapply owns_perm; [exact Eperm|done].
    + intros b x. rewrite <- Eperm. intros [->|Hb]%elem_of_cons Hx; [by apply Hfix|by apply Hf].
  - intros a Ha. apply zeroed_out. intros Hin%Hcells. specialize (Ha (p, size) ltac:(by left)). unfold outside in Ha. cbn in Ha. lia.
Qed.

(** A block less. *)
Lemma repr_munmap st R S F n p l :
  threads_repr st R S ((p, l) :: F) n →
  wp (threadscan_alloc_munmap p st) (λ r, threads_repr r.2 R S F n ∧
    ∀ a, outside (p, l) a → r.2.(memory) !! a = st.(memory) !! a).
Proof.
  intros Hr. unfold threadscan_alloc_munmap. pose proof (tr_heap _ _ _ _ _ Hr) as Ho.
  assert (threads_blocks (R ++ S) ++ (p, l) :: F ≡ₚ (p, l) :: threads_blocks (R ++ S) ++ F) as Eperm by (by rewrite Permutation_middle).
  pose proof (owns_perm _ _ _ Eperm Ho) as Ho'. apply wp_bind. eapply wp_mono; [by eapply owns_munmap|].
  intros h' Hh'. apply wp_ret. cbn [snd].
  rewrite (owns_live _ _ _ l Ho) by (rewrite Eperm; by left). cbn [default from_option id].
  split; [|intros a Ha; cbn [memory]; apply unmapped_out; unfold outside in Ha; cbn in Ha; lia].
  assert (threads_repr {| heap := st.(heap); memory := unmapped p l st.(memory) |} R S ((p, l) :: F) n) as Hr'.
  { apply repr_mem; [done|]. intros a Ha. apply unmapped_out. specialize (Ha (p, l) ltac:(by left)).
    unfold outside in Ha. cbn in Ha. lia. }
  destruct Hr' as [_ Hl Hst Hk Hc HR HS Hf]. split; try done.
  intros b x Hb Hx. apply Hf; [|done]. rewrite elem_of_app in *. rewrite elem_of_cons. tauto.
Qed.

(** Metadata that is in no list yet can be written to. *)
Lemma repr_scalars st R S F n td m' :
  threads_repr st R S F n → (td, PAGESIZE) ∈ F → same_except (td_scalars td) st.(memory) m' →
  threads_repr {| heap := st.(heap); memory := m' |} R S F n.
Proof.
  intros Hr Htd Hm. apply (repr_mem st); [done|]. intros a Ha. apply Hm. intros Hin%td_scalars_in.
  specialize (Ha _ Htd). unfold outside in Ha. cbn in Ha. lia.
Qed.
End threads.

(** Writes to scalars that exist. *)
Ltac mapped H := repeat (apply lookup_insert_is_Some'; right); apply H; scalar.
Ltac run_scalar H := rewrite run_bind_wr by (mapped H).
Ltac queue_addr := unfold td_queue_e, td_queue_capacity, td_queue_idx_head, td_queue_idx_tail; addr.

Section operations.
Context `{Build} {AS : Type} `{!Allocator AS} (v : statics_t) (ptrs : Z).
Implicit Types st : process AS.
Notation tl := (v.(globals).(thread_list_)).
Notation qsz := (ptrs * sizeof_size_t).
Context (Hv : statics_ok v) (Hptrs : 0 < qsz < 2 ^ 63) (Hpages : qsz `mod` PAGESIZE = 0).

(** A thread that is in no list yet. *)
Definition new_thr (td q : Z) : thr := {| t_td := td; t_queue := q; t_low := 0; t_own := false; t_self := 0;
  t_routine := 0; t_arg := 0 |}.

Lemma data_new_ok st R S F n sizes :
  threads_repr v qsz st R S F n → can_serve (statics_list v) st.(heap) (PAGESIZE :: qsz :: sizes) →
  wp (threadscan_util_thread_data_new ptrs st) (λ r, ∃ q,
    threads_repr v qsz r.2 R S ((r.1, PAGESIZE) :: (q, qsz) :: F) n ∧ 0 < r.1 ∧
    can_serve (statics_list v) r.2.(heap) sizes ∧ td_fields r.2.(memory) (new_thr r.1 q) 1 ∧
    r.2.(memory) !! td_queue_capacity r.1 = Some ptrs ∧ r.2.(memory) !! td_queue_idx_head r.1 = Some 0 ∧
    r.2.(memory) !! td_queue_idx_tail r.1 = Some ptrs).
Proof.
  intros Hr Hserve. unfold threadscan_util_thread_data_new. apply wp_step_bind. eapply wp_mono.
  { apply (repr_mmap v qsz st R S F n PAGESIZE (qsz :: sizes)); [done|done|done|done|apply td_scalars_in]. }
  intros [td st1] (Hr1 & Htd & Hm1 & Hserve1). cbn [fst snd] in *. apply wp_step_bind. eapply wp_mono.
  { apply (repr_mmap v qsz st1 R S ((td, PAGESIZE) :: F) n qsz sizes); [exact Hr1|done|done|done|].
    intros p a (i & -> & Hi%elem_of_seqZ)%list_elem_of_fmap. unfold elt, sizeof_size_t. lia. }
  intros [q st2] (Hr2 & Hq & Hm2 & Hserve2). cbn [fst snd] in *. apply wp_in_memory.
  assert (∀ a, a ∈ td_scalars td → st2.(memory) !! a = Some 0) as H0.
  { intros a Ha. rewrite Hm2, zeroed_out; [rewrite Hm1; by apply zeroed_in|].
    intros (i & -> & Hi%elem_of_seqZ)%list_elem_of_fmap. pose proof (tr_heap _ _ _ _ _ _ _ Hr2) as Ho.
    assert (outside (q, qsz) (elt q i)) as Hout.
    { apply (owns_disjoint _ _ (td, PAGESIZE) _ _ Ho); [..|by apply td_scalars_in].
      - apply elem_of_app. right. right. by left.
      - apply elem_of_app. right. by left.
      - pose proof (ow_nodup _ _ Ho) as Hnd. rewrite fmap_app in Hnd. apply NoDup_app in Hnd as (_ & _ & Hnd).
        cbn in Hnd. apply NoDup_cons in Hnd as [Hnin _]. intros E. apply Hnin. cbn in E. rewrite E. by left. }
    unfold outside, elt, sizeof_size_t in Hout. cbn in Hout. lia. }
  assert (∀ a, a ∈ td_scalars td → is_Some (st2.(memory) !! a)) as Hmap by (intros a Ha; exists 0; by apply H0).
  unfold td_queue_init. rewrite run_bind. do 3 run_scalar Hmap. rewrite run_wr by (mapped Hmap).
  cbn [mbind outcome_bind]. do 3 run_scalar Hmap. apply wp_ret. cbn [fst snd memory heap].
  set (mf := <[_ := _]> _).
  assert (same_except (td_scalars td) st2.(memory) mf) as Hsame.
  { unfold mf. repeat (apply same_except_insert; [scalar|]). apply same_except_refl. }
  exists q. split; [|split; [done|split; [done|split; [split|]]]].
  - apply (repr_scalars v qsz st2 R S ((td, PAGESIZE) :: (q, qsz) :: F) n td); [|by left|done]. destruct Hr2 as [Ho ? ? ? ? ? ? Hf]. split; try done.
    + eapply owns_perm; [|exact Ho]. apply Permutation_app_head, Permutation_swap.
    + intros b x Hb. apply Hf. revert Hb. rewrite !elem_of_app, !elem_of_cons. tauto.
  - intros a Ha. unfold mf. repeat (apply lookup_insert_is_Some'; right). by apply Hmap.
  - unfold mf. cbn. by lookup_simp queue_addr.
  - unfold mf. cbn. lookup_simp queue_addr. apply H0. scalar.
  - unfold mf. cbn. lookup_simp queue_addr. apply H0. scalar.
  - unfold mf. cbn. lookup_simp queue_addr. apply H0. scalar.
  - unfold mf. cbn. by lookup_simp queue_addr.
  - unfold mf. cbn. lookup_simp queue_addr. apply H0. scalar.
  - unfold mf. cbn. lookup_simp queue_addr. apply H0. scalar.
  - unfold mf. repeat split; by lookup_simp queue_addr.
Qed.

(** What is apart from the new blocks does not change. *)
Lemma data_new_frame fixed st bs :
  owns st.(heap) bs → can_serve fixed st.(heap) [PAGESIZE; qsz] →
  wp (threadscan_util_thread_data_new ptrs st) (λ r, ∀ x, x ∈ fixed →
    r.2.(memory) !! x = st.(memory) !! x ∧ outside (r.1, PAGESIZE) x).
Proof.
  intros Ho Hserve. unfold threadscan_util_thread_data_new, threadscan_alloc_mmap.
  destruct (owns_mmap fixed _ _ PAGESIZE [qsz] Ho ltac:(done) ltac:(done) Hserve) as (td & h1 & E1 & Htd & Ho1 & Hout1 & Hserve1).
  destruct (owns_mmap _ _ _ _ _ Ho1 Hptrs Hpages Hserve1) as (q & h2 & E2 & _ & Ho2 & Hout2 & _).
  apply wp_step_bind. change MEMBLOCK_SIZE with PAGESIZE. rewrite E1. cbn [mbind outcome_bind]. apply wp_ret. cbn [fst snd].
  apply wp_step_bind. cbn [heap memory]. rewrite E2. cbn [mbind outcome_bind]. apply wp_ret. cbn [fst snd].
  apply wp_in_memory. cbn [heap memory]. set (m2 := zeroed _ (zeroed _ _)).
  assert (∀ x, x ∈ fixed → m2 !! x = st.(memory) !! x) as Hm2.
  { intros x Hx. unfold m2. rewrite !zeroed_out; [done| |].
    - intros Ha%td_scalars_in. specialize (Hout1 x Hx). unfold outside in Hout1. cbn in Hout1. lia.
    - intros (i & -> & Hi%elem_of_seqZ)%list_elem_of_fmap. specialize (Hout2 _ Hx). unfold outside, elt, sizeof_size_t in Hout2.
      cbn in Hout2. lia. }
  assert (∀ a, a ∈ td_scalars td → is_Some (m2 !! a)) as Hmap.
  { intros a Ha. unfold m2. destruct (decide (a ∈ (elt q <$> seqZ 0 ptrs))) as [Hin|Hin].
    - rewrite zeroed_in by done. by eexists.
    - rewrite zeroed_out, zeroed_in by done. by eexists. }
  clearbody m2. unfold td_queue_init. rewrite run_bind. do 3 run_scalar Hmap. rewrite run_wr by (mapped Hmap).
  cbn [mbind outcome_bind]. do 3 run_scalar Hmap. apply wp_ret. cbn [fst snd memory]. intros x Hx. split; [|by apply Hout1].
  specialize (Hout1 x Hx). unfold outside in Hout1. cbn in Hout1. rewrite <- Hm2 by done.
  assert (∀ a, a ∈ td_scalars td → a ≠ x) as Hne by (intros a Ha%td_scalars_in; lia).
  by rewrite !lookup_insert_ne by (apply Hne; scalar).
Qed.

(** *** Addresses that differ *)
Section apart.
Context (h : AS) (bs : list (Z * Z)) (Ho : owns h bs).
Context (Hf : ∀ b x, b ∈ bs → x ∈ statics_list v → outside b x).

Lemma scalar_not_static td a x : (td, PAGESIZE) ∈ bs → a ∈ td_scalars td → x ∈ statics_list v → a ≠ x.
Proof. intros Htd Ha%td_scalars_in Hx ->. specialize (Hf _ _ Htd Hx). unfold outside in Hf. cbn in Hf. lia. Qed.

Lemma scalar_not_other td td' a b :
  (td, PAGESIZE) ∈ bs → (td', PAGESIZE) ∈ bs → td ≠ td' → a ∈ td_scalars td → b ∈ td_scalars td' → a ≠ b.
Proof.
  intros Htd Htd' Hne Ha%td_scalars_in Hb%td_scalars_in ->.
  pose proof (owns_disjoint _ _ (td, PAGESIZE) (td', PAGESIZE) b Ho Htd Htd' Hne Ha) as Hout.
  unfold outside in Hout. cbn in Hout. lia.
Qed.
End apart.

Lemma static_ne (i j : nat) x y :
  statics_list v !! i = Some x → statics_list v !! j = Some y → i ≠ j → x ≠ y.
Proof. intros Hx Hy Hij ->. apply Hij. eapply NoDup_lookup; [apply (so_nodup _ Hv)|done..]. Qed.

Lemma statics_distinct :
  tl_head tl ≠ v.(g_staged_lock) ∧ tl_head tl ≠ v.(g_td_staged_to_free) ∧ tl_head tl ≠ v.(g_thread_count) ∧
  tl_lock tl ≠ v.(g_staged_lock) ∧ tl_lock tl ≠ v.(g_td_staged_to_free) ∧ tl_lock tl ≠ v.(g_thread_count) ∧
  v.(g_staged_lock) ≠ v.(g_td_staged_to_free) ∧ v.(g_staged_lock) ≠ v.(g_thread_count) ∧
  v.(g_td_staged_to_free) ≠ v.(g_thread_count) ∧ tl_head tl ≠ tl_lock tl.
Proof.
  repeat split.
  - by apply (static_ne 0 2).
  - by apply (static_ne 0 3).
  - by apply (static_ne 0 4).
  - by apply (static_ne 1 2).
  - by apply (static_ne 1 3).
  - by apply (static_ne 1 4).
  - by apply (static_ne 2 3).
  - by apply (static_ne 2 4).
  - by apply (static_ne 3 4).
  - by apply (static_ne 0 1).
Qed.

Lemma thread_tds_nodup st R S F n : threads_repr v qsz st R S F n → NoDup (t_td <$> R ++ S).
Proof.
  intros Hr. pose proof (ow_nodup _ _ (tr_heap _ _ _ _ _ _ _ Hr)) as Hnd. rewrite fmap_app in Hnd.
  apply NoDup_app in Hnd as (Hnd & _ & _). unfold threads_blocks in Hnd. induction (R ++ S) as [|t ts IH]; [constructor|].
  cbn [fmap list_fmap concat] in *. rewrite fmap_app in Hnd. apply NoDup_app in Hnd as (_ & Hd & Hnd).
  apply NoDup_cons. split; [|by apply IH]. intros (t' & E & Hin)%list_elem_of_fmap. apply (Hd (t_td t)).
  - by left.
  - rewrite E. apply (list_elem_of_fmap_2 fst _ (t_td t', PAGESIZE)). by apply threads_blocks_in.
Qed.

(** Changes to static variables and to the links of threads leave the fields
    alone. *)
Lemma td_fields_links h bs ts ls m m' t ref :
  owns h bs → (∀ b x, b ∈ bs → x ∈ statics_list v → outside b x) →
  (∀ t', t' ∈ t :: ts → (t'.(t_td), PAGESIZE) ∈ bs) → ls ⊆ statics_list v ++ (td_next ∘ t_td <$> ts) →
  same_except ls m m' → is_Some (m' !! td_next t.(t_td)) → td_fields m t ref → td_fields m' t ref.
Proof.
  intros Ho Hf Hts Hls Hm Hn. apply td_fields_ext; [|done]. intros a Ha Hne. apply Hm. intros Hin%Hls.
  apply elem_of_app in Hin as [Hin|(t' & -> & Hin)%list_elem_of_fmap].
  - eapply (scalar_not_static bs Hf); [apply Hts; by left|exact Ha|exact Hin|done].
  - cbn in *. destruct (decide (t_td t' = t_td t)) as [E|E]; [by rewrite E in Hne|].
    eapply (scalar_not_other h bs Ho (t_td t) (t_td t')); [apply Hts; by left|apply Hts; by right|by apply not_eq_sym|exact Ha|apply next_scalar|done].
Qed.

(** *** The two lists *)
Definition heads : list Z := [tl_head tl; tl_lock tl; v.(g_staged_lock); v.(g_td_staged_to_free)].

Lemma heads_static : heads ⊆ statics_list v.
Proof. intros x. unfold heads, statics_list. rewrite !elem_of_cons. tauto. Qed.

(** Threads change the list they are in, and the lists change only in their
    heads, locks and links. *)
Lemma lists_change st R S F R' S' F' n ts ls m' :
  threads_repr v qsz st R S F n →
  threads_blocks qsz (R' ++ S') ++ F' ≡ₚ threads_blocks qsz (R ++ S) ++ F →
  ls ⊆ heads ++ (td_next ∘ t_td <$> ts) → (∀ t, t ∈ ts → (t.(t_td), PAGESIZE) ∈ threads_blocks qsz (R ++ S) ++ F) →
  same_except ls st.(memory) m' → thread_list tl m' (t_td <$> R') →
  (∃ p, m' !! v.(g_td_staged_to_free) = Some p ∧ tlist m' p (t_td <$> S')) → m' !! v.(g_staged_lock) = Some 0 →
  (∀ t, t ∈ R' → td_fields st.(memory) t 1) → (∀ t, t ∈ S' → td_fields st.(memory) t 0) →
  threads_repr v qsz {| heap := st.(heap); memory := m' |} R' S' F' n.
Proof.
  intros [Ho Hl Hs Hk Hc HR HS Hf] Hp Hls Hts Hm Hl' Hs' Hk' HR' HS'.
  assert (ls ⊆ statics_list v ++ (td_next ∘ t_td <$> ts)) as Hls'.
  { intros x [Hx%heads_static|Hx]%Hls%elem_of_app; apply elem_of_app; [by left|by right]. }
  assert (∀ t ref, t ∈ R' ++ S' → is_Some (m' !! td_next t.(t_td)) → td_fields st.(memory) t ref → td_fields m' t ref) as Hfld.
  { intros t ref Ht Hn Hfld. eapply (td_fields_links _ _ ts ls); [exact Ho|exact Hf| |exact Hls'|exact Hm|exact Hn|exact Hfld].
    intros t' [->|Hin]%elem_of_cons; [|by apply Hts]. rewrite <- Hp. apply elem_of_app. left. by apply threads_blocks_in. }
  split; cbn [heap memory]; try done.
  - by eapply owns_perm.
  - rewrite Hm; [done|]. intros [Hin|(t & E & Hin)%list_elem_of_fmap]%Hls%elem_of_app.
    + pose proof statics_distinct. unfold heads in Hin. rewrite !elem_of_cons, elem_of_nil in Hin. intuition congruence.
    + eapply (scalar_not_static _ Hf (t_td t)); [by apply Hts|apply next_scalar| |symmetry; exact E].
      unfold statics_list. rewrite !elem_of_cons. tauto.
  - intros t Ht. apply Hfld; [apply elem_of_app; by left| |by apply HR'].
    destruct (tl_first _ _ _ Hl') as (p & _ & Hlist). eapply tlist_in; [exact Hlist|by apply list_elem_of_fmap_2].
  - intros t Ht. apply Hfld; [apply elem_of_app; by right| |by apply HS'].
    destruct Hs' as (p & _ & Hlist). eapply tlist_in; [exact Hlist|by apply list_elem_of_fmap_2].
  - intros b x. rewrite Hp. apply Hf.
Qed.

(** The links of a list are apart from what another list changes. *)
Lemma tlist_links st R S F n ts ls us m' p :
  threads_repr v qsz st R S F n → ls ⊆ heads ++ (td_next ∘ t_td <$> us) →
  (∀ t, t ∈ us → (t.(t_td), PAGESIZE) ∈ threads_blocks qsz (R ++ S) ++ F) →
  (∀ t, t ∈ ts → t ∈ R ++ S) → (∀ t u, t ∈ ts → u ∈ us → t.(t_td) ≠ u.(t_td)) →
  same_except ls st.(memory) m' → tlist st.(memory) p (t_td <$> ts) → tlist m' p (t_td <$> ts).
Proof.
  intros [Ho Hl Hs Hk Hc HR HS Hf] Hls Hus Hts Hne Hm. apply tlist_ext. intros td (t & -> & Ht)%list_elem_of_fmap.
  assert ((t.(t_td), PAGESIZE) ∈ threads_blocks qsz (R ++ S) ++ F) as Hin.
  { apply elem_of_app. left. apply threads_blocks_in. by apply Hts. }
  apply Hm. intros [Hx%heads_static|(u & E & Hu)%list_elem_of_fmap]%Hls%elem_of_app.
  - eapply (scalar_not_static _ Hf); [exact Hin|apply next_scalar|exact Hx|done].
  - cbn in E. apply td_next_inj in E. by apply (Hne t u).
Qed.

(** A thread list in a memory that differs only in the other list. *)
Lemma thread_list_links st R S F n ls us m' :
  threads_repr v qsz st R S F n → ls ⊆ [v.(g_staged_lock); v.(g_td_staged_to_free)] ++ (td_next ∘ t_td <$> us) →
  (∀ t, t ∈ us → (t.(t_td), PAGESIZE) ∈ threads_blocks qsz (R ++ S) ++ F) →
  (∀ t u, t ∈ R → u ∈ us → t.(t_td) ≠ u.(t_td)) →
  same_except ls st.(memory) m' → thread_list tl m' (t_td <$> R).
Proof.
  intros Hr Hls Hus Hne Hm. pose proof Hr as [Ho [H1 (p & Hp & Hl) H3 H4 H5] Hs Hk Hc HR HS Hf].
  assert (∀ x, x ∈ [tl_head tl; tl_lock tl] → m' !! x = st.(memory) !! x) as Hst.
  { intros x Hx. apply Hm. intros [Hin|(u & E & Hu)%list_elem_of_fmap]%Hls%elem_of_app.
    - pose proof statics_distinct. rewrite !elem_of_cons, elem_of_nil in Hin, Hx. intuition congruence.
    - eapply (scalar_not_static _ Hf (t_td u)); [by apply Hus|apply next_scalar| |symmetry; exact E].
      unfold statics_list. rewrite !elem_of_cons in *. rewrite elem_of_nil in Hx. tauto. }
  split; [rewrite Hst; [done|right; by left]| |done|done|done].
  exists p. split; [rewrite Hst; [done|by left]|]. eapply (tlist_links st R S F n R); [done| | | |exact Hne|exact Hm|done].
  - intros x [Hx|Hx]%Hls%elem_of_app; apply elem_of_app; [left|by right]. unfold heads. rewrite !elem_of_cons in *. tauto.
  - exact Hus.
  - intros t Ht. apply elem_of_app. by left.
Qed.

(** *** What is written to *)
Lemma add_writes (S : Z → Prop) td :
  S (tl_head tl) → S (tl_lock tl) → S (td_next td) → writes_in S (threadscan_proc_add_thread_data v td).
Proof.
  intros Hh Hl Hn. unfold threadscan_proc_add_thread_data, threadscan_util_thread_list_init, threadscan_util_thread_list_add.
  repeat (apply writes_in_bind || intro || done || split || case_match).
Qed.

Lemma base_writes (S : Z → Prop) td sp self :
  (∀ a, a ∈ td_scalars td → S a) → writes_in S (threadscan_thread_base td sp self).
Proof.
  intros HS. unfold threadscan_thread_base. repeat (apply writes_in_bind || intro || done || split); apply HS; scalar.
Qed.

(** *** A thread is made known, and forgotten *)
Lemma list_init_ok m tds : thread_list tl m tds → run (threadscan_util_thread_list_init tl) m = Ret (tt, m).
Proof.
  intros [Hk (p & Hp & _) _ _ _]. unfold threadscan_util_thread_list_init. pose proof (so_list _ Hv).
  run_assert lia. run_read addr. destruct (p =? 0); [|done]. rewrite run_wr by (by eexists). by rewrite insert_id.
Qed.

Lemma held_block t F bs : (t.(t_td), PAGESIZE) ∈ bs ++ thread_blocks qsz t ++ F.
Proof. apply elem_of_app. right. by left. Qed.

Lemma held_not_listed st R S F n t u :
  threads_repr v qsz st R S (thread_blocks qsz t ++ F) n → u ∈ R ++ S → t.(t_td) ≠ u.(t_td).
Proof.
  intros Hr Hu. pose proof (ow_nodup _ _ (tr_heap _ _ _ _ _ _ _ Hr)) as Hnd.
  apply not_eq_sym. apply (nodup_keys_ne _ _ (t_td u, PAGESIZE) (t_td t, PAGESIZE) Hnd); [by apply threads_blocks_in|by left].
Qed.

(** The static variables that neither the list nor a link is. *)
Lemma not_link st R S F n x t :
  threads_repr v qsz st R S F n → x ∈ statics_list v → (t.(t_td), PAGESIZE) ∈ threads_blocks qsz (R ++ S) ++ F →
  x ≠ td_next t.(t_td).
Proof.
  intros Hr Hx Ht E. eapply (scalar_not_static _ (tr_fixed _ _ _ _ _ _ _ Hr)); [exact Ht|apply next_scalar|exact Hx|done].
Qed.

Ltac static := unfold statics_list; rewrite !elem_of_cons; tauto.
Ltac distinct := first [assumption|apply not_eq_sym; assumption].

Lemma add_ok st t R S F n :
  threads_repr v qsz st R S (thread_blocks qsz t ++ F) n → td_fields st.(memory) t 1 → t.(t_td) ≠ 0 →
  (Datatypes.S (length R) < list_fuel)%nat →
  wp (run (threadscan_proc_add_thread_data v t.(t_td)) st.(memory))
     (λ r, threads_repr v qsz {| heap := st.(heap); memory := r.2 |} (t :: R) S F n).
Proof.
  intros Hr Hfld Ht0 Hlen. pose proof Hr as [Ho Hl (p & Hp & Hs) Hk Hc HR HS Hf].
  pose proof (held_block t F (threads_blocks qsz (R ++ S))) as Hblk.
  unfold threadscan_proc_add_thread_data. rewrite run_bind, (list_init_ok _ _ Hl). cbn [mbind outcome_bind].
  pose proof (tf_mapped _ _ _ Hfld (td_next (t_td t)) (next_scalar _)) as Hn.
  eapply wp_mono.
  { apply (thread_list_add_run tl (t_td t) (t_td <$> R) st.(memory)); try done.
    - apply (so_list _ Hv).
    - intros (u & E & Hu)%list_elem_of_fmap. eapply (held_not_listed _ _ _ _ _ t u Hr); [apply elem_of_app; by left|done].
    - apply not_eq_sym. eapply (not_link _ _ _ _ _ _ t Hr); [static|done].
    - apply not_eq_sym. eapply (not_link _ _ _ _ _ _ t Hr); [static|done].
    - by rewrite length_fmap. }
  intros [u m'] [Hl' Hm]. cbn [snd] in *.
  assert ([tl_head tl; tl_lock tl; td_next (t_td t)] ⊆ heads ++ (td_next ∘ t_td <$> [t])) as Hls.
  { intros x. unfold heads. cbn. rewrite !elem_of_cons. tauto. }
  assert (∀ x, x ∈ statics_list v → x ≠ tl_head tl → x ≠ tl_lock tl → m' !! x = st.(memory) !! x) as Hst.
  { intros x Hx Hx1 Hx2. apply Hm. rewrite !elem_of_cons, elem_of_nil. pose proof (not_link _ _ _ _ _ x t Hr Hx Hblk). tauto. }
  pose proof statics_distinct as Hd.
  apply (lists_change st R S (thread_blocks qsz t ++ F) (t :: R) S F n [t] [tl_head tl; tl_lock tl; td_next (t_td t)]); try done.
  - change (threads_blocks qsz ((t :: R) ++ S)) with (thread_blocks qsz t ++ threads_blocks qsz (R ++ S)).
    rewrite <- !app_assoc. apply Permutation_app_swap_app.
  - by intros u' ->%list_elem_of_singleton.
  - exists p. split; [rewrite Hst by (first [static|intuition congruence]); done|].
    eapply (tlist_links st R S _ n S _ [t]); [exact Hr|exact Hls|by intros u' ->%list_elem_of_singleton| | |exact Hm|exact Hs].
    + intros u' Hu. apply elem_of_app. by right.
    + intros u' w Hu ->%list_elem_of_singleton. apply not_eq_sym. eapply held_not_listed; [exact Hr|]. apply elem_of_app. by right.
  - rewrite Hst by (first [static|intuition congruence]). done.
  - intros u' [->|Hu]%elem_of_cons; [done|by apply HR].
Qed.

(** [t], which was taken out of one of the lists, has its fields still. *)
Lemma unlinked_fields st R S F n t us ls m' ref :
  threads_repr v qsz st R S F n → t ∈ R ++ S → ls ⊆ heads ++ (td_next ∘ t_td <$> us) →
  (∀ u, u ∈ us → u ∈ R ++ S ∧ t.(t_td) ≠ u.(t_td)) → same_except ls st.(memory) m' →
  td_fields st.(memory) t ref → td_fields m' t ref.
Proof.
  intros Hr Ht Hls Hus Hm Hfld. pose proof Hr as [Ho _ _ _ _ _ _ Hf].
  assert (∀ u, u ∈ R ++ S → (u.(t_td), PAGESIZE) ∈ threads_blocks qsz (R ++ S) ++ F) as Hin.
  { intros u Hu. apply elem_of_app. left. by apply threads_blocks_in. }
  eapply (td_fields_links _ _ us ls); [exact Ho|exact Hf| | |exact Hm| |exact Hfld].
  - intros u [->|Hu]%elem_of_cons; apply Hin; [done|by apply Hus].
  - intros x [Hx%heads_static|Hx]%Hls%elem_of_app; apply elem_of_app; [by left|by right].
  - rewrite Hm; [apply (tf_mapped _ _ _ Hfld), next_scalar|].
    intros [Hx%heads_static|(u & E & Hu)%list_elem_of_fmap]%Hls%elem_of_app.
    + by eapply (not_link st); [exact Hr|exact Hx|apply Hin, Ht|].
    + cbn in E. apply td_next_inj in E. by apply (Hus u Hu).
Qed.

Lemma nodup_middle (A B : list thr) t u : NoDup (t_td <$> A ++ t :: B) → u ∈ A ++ B → t.(t_td) ≠ u.(t_td).
Proof.
  rewrite fmap_app. cbn. rewrite <- Permutation_middle, <- fmap_app. intros [Hnin _]%NoDup_cons Hu E.
  apply Hnin. rewrite E. by apply list_elem_of_fmap_2.
Qed.

Lemma remove_ok st A t B S F n :
  threads_repr v qsz st (A ++ t :: B) S F n →
  wp (run (threadscan_proc_remove_thread_data v t.(t_td)) st.(memory)) (λ r,
    threads_repr v qsz {| heap := st.(heap); memory := r.2 |} (A ++ B) S (thread_blocks qsz t ++ F) n ∧
    td_fields r.2 t 1).
Proof.
  intros Hr. pose proof Hr as [Ho Hl (p & Hp & Hs) Hk Hc HR HS Hf]. pose proof (thread_tds_nodup _ _ _ _ _ Hr) as Hnd.
  assert (∀ u, u ∈ A ++ B ++ S → t.(t_td) ≠ u.(t_td)) as Hne.
  { intros u Hu. rewrite <- app_assoc in Hnd. cbn in Hnd. by eapply nodup_middle. }
  unfold threadscan_proc_remove_thread_data. rewrite fmap_app in Hl. cbn in Hl.
  eapply wp_mono; [apply (thread_list_remove_run tl (t_td <$> A) (t_td t) (t_td <$> B)); [apply (so_list _ Hv)|done]|].
  intros [u m'] [Hl' Hm]. cbn [snd] in *. rewrite <- list_fmap_compose in Hm. rewrite <- fmap_app in Hl'.
  set (ls := tl_head tl :: tl_lock tl :: (td_next ∘ t_td <$> A)) in Hm.
  assert (ls ⊆ heads ++ (td_next ∘ t_td <$> A)) as Hls.
  { intros x. unfold ls, heads. cbn. rewrite !elem_of_cons. tauto. }
  assert (∀ u, u ∈ A → (t_td u, PAGESIZE) ∈ threads_blocks qsz ((A ++ t :: B) ++ S) ++ F) as HA.
  { intros w Hw. apply elem_of_app. left. apply threads_blocks_in. rewrite !elem_of_app. tauto. }
  assert (∀ x, x ∈ statics_list v → x ≠ tl_head tl → x ≠ tl_lock tl → m' !! x = st.(memory) !! x) as Hst.
  { intros x Hx Hx1 Hx2. apply Hm. unfold ls. rewrite !elem_of_cons. intros [?|[?|(w & E & Hw)%list_elem_of_fmap]]; [done|done|].
    by eapply (not_link st); [exact Hr|exact Hx|apply HA, Hw|]. }
  pose proof statics_distinct as Hd. split.
  - apply (lists_change st (A ++ t :: B) S F (A ++ B) S _ n A ls); try done.
    + rewrite <- (Permutation_middle A B t).
      change (threads_blocks qsz ((t :: A ++ B) ++ S)) with (thread_blocks qsz t ++ threads_blocks qsz ((A ++ B) ++ S)).
      rewrite <- (app_assoc (thread_blocks qsz t)). apply Permutation_app_swap_app.
    + exists p. split; [rewrite Hst by (first [static|intuition congruence]); done|].
      eapply (tlist_links st _ S F n S ls A); [exact Hr|exact Hls|exact HA| | |exact Hm|exact Hs].
      * intros w Hw. apply elem_of_app. by right.
      * intros w w' Hw Hw' E. rewrite fmap_app in Hnd. apply NoDup_app in Hnd as (_ & Hnd & _).
        apply (Hnd (t_td w')); [apply list_elem_of_fmap_2, elem_of_app; by left|]. rewrite <- E. by apply list_elem_of_fmap_2.
    + rewrite Hst by (first [static|intuition congruence]). done.
    + intros w Hw. apply HR. rewrite elem_of_app, elem_of_cons. rewrite elem_of_app in Hw. tauto.
  - eapply (unlinked_fields st _ S F n t A ls); [exact Hr| |exact Hls| |exact Hm|].
    + rewrite !elem_of_app, elem_of_cons. tauto.
    + intros w Hw. split; [rewrite !elem_of_app; tauto|]. apply Hne. rewrite elem_of_app. tauto.
    + apply HR. rewrite elem_of_app, elem_of_cons. tauto.
Qed.

Lemma stage_ok st t R S F n :
  threads_repr v qsz st R S (thread_blocks qsz t ++ F) n → td_fields st.(memory) t 1 → t.(t_td) ≠ 0 →
  wp (run (threadscan_util_thread_data_decr_ref v t.(t_td)) st.(memory))
     (λ r, threads_repr v qsz {| heap := st.(heap); memory := r.2 |} R (t :: S) F n).
Proof.
  intros Hr Hfld Ht0. pose proof (held_block t F (threads_blocks qsz (R ++ S))) as Hblk.
  unfold threadscan_util_thread_data_decr_ref, sync_fetch_and_sub.
  rewrite run_bind_rmw with (v := 1) (w := 0) by (first [apply (tf_ref _ _ _ Hfld)|done]).
  set (st1 := {| heap := st.(heap); memory := <[td_ref_count (t_td t) := 0]> st.(memory) |}).
  assert (threads_repr v qsz st1 R S (thread_blocks qsz t ++ F) n) as Hr1.
  { apply (repr_scalars v qsz st _ _ _ _ (t_td t)); [done|by left|]. apply same_except_insert; [scalar|apply same_except_refl]. }
  assert (td_fields st1.(memory) t 0) as Hfld1.
  { destruct Hfld as [H1 H2 H3 H4 H5 H6 H7 H8]. unfold st1. split; cbn; try (by lookup_simp queue_addr).
    intros a Ha. apply lookup_insert_is_Some'. right. by apply H1. }
  pose proof Hr1 as [Ho Hl (p & Hp & Hs) Hk Hc HR HS Hf].
  pose proof statics_distinct as Hd.
  assert (∀ x, x ∈ statics_list v → x ≠ td_next (t_td t)) as Hxn by (intros x Hx; by eapply not_link).
  pose proof (Hxn v.(g_staged_lock) ltac:(static)) as Hn1. pose proof (Hxn v.(g_td_staged_to_free) ltac:(static)) as Hn2.
  cbn [Z.sub Z.eqb]. change (1 - 1 =? 0) with true. cbn iota.
  change (<[td_ref_count (t_td t) := 0]> st.(memory)) with st1.(memory).
  pose proof (tf_mapped _ _ _ Hfld1 (td_next (t_td t)) (next_scalar _)) as [nx Hnx].
  assert (v.(g_staged_lock) ≠ v.(g_td_staged_to_free)) as Hlh by tauto.
  run_lock distinct. run_read distinct. run_write distinct. run_write distinct. rewrite run_unlock by (lookup_simp distinct; by eexists).
  apply wp_ret. cbn [snd]. set (m' := <[_ := _]> _).
  set (ls := [v.(g_staged_lock); v.(g_td_staged_to_free); td_next (t_td t)]).
  assert (same_except ls st1.(memory) m') as Hm.
  { unfold m', ls. do 4 (apply same_except_insert; [rewrite !elem_of_cons; tauto|]). apply same_except_refl. }
  assert (ls ⊆ heads ++ (td_next ∘ t_td <$> [t])) as Hls by (intros x; unfold ls, heads; cbn; rewrite !elem_of_cons; tauto).
  apply (lists_change st1 R S (thread_blocks qsz t ++ F) R (t :: S) F n [t] ls); try done.
  - rewrite <- (Permutation_middle R S t). change (threads_blocks qsz (t :: R ++ S)) with (thread_blocks qsz t ++ threads_blocks qsz (R ++ S)).
    rewrite <- app_assoc. apply Permutation_app_swap_app.
  - by intros u' ->%list_elem_of_singleton.
  - eapply (thread_list_links st1 R S _ n ls [t]); [exact Hr1|intros x; unfold ls; cbn; rewrite !elem_of_cons; tauto| | |exact Hm].
    + by intros u' ->%list_elem_of_singleton.
    + intros u w Hu ->%list_elem_of_singleton. apply not_eq_sym. eapply held_not_listed; [exact Hr1|]. apply elem_of_app. by left.
  - exists (t_td t). split; [unfold m'; by lookup_simp distinct|]. cbn. split; [done|]. split; [done|]. exists p.
    split; [unfold m'; by lookup_simp distinct|].
    eapply (tlist_links st1 R S _ n S ls [t]); [exact Hr1|exact Hls|by intros u' ->%list_elem_of_singleton| | |exact Hm|exact Hs].
    + intros u' Hu. apply elem_of_app. by right.
    + intros u' w Hu ->%list_elem_of_singleton. apply not_eq_sym. eapply held_not_listed; [exact Hr1|]. apply elem_of_app. by right.
  - unfold m'. by lookup_simp distinct.
  - intros u' [->|Hu]%elem_of_cons; [done|by apply HS].
Qed.

(** *** A thread that exited is found again *)
Lemma find_staged_run fuel m tid p A t B prev :
  tlist m p (t_td <$> A ++ t :: B) → (∀ u, u ∈ A ++ t :: B → m !! td_self u.(t_td) = Some u.(t_self)) →
  t.(t_self) = tid → (∀ u, u ∈ A → u.(t_self) ≠ tid) → (length A < fuel)%nat →
  run (find_staged fuel tid prev p) m = Ret ((from_option t_td prev (list.last A), t.(t_td)), m).
Proof.
  revert p A prev. induction fuel as [|fuel IH]; intros p A prev Hl Hself Ht HA Hf; [lia|]. cbn [find_staged].
  destruct A as [|a A].
  - destruct Hl as (-> & _ & next & Hn & _). erewrite run_bind_rd by (apply Hself; by left).
    rewrite Ht, Z.eqb_refl. done.
  - destruct Hl as (-> & Hnz & next & Hn & Hl). erewrite run_bind_rd by (apply Hself; by left).
    replace (t_self a =? tid) with false by (symmetry; apply Z.eqb_neq, HA; by left).
    erewrite run_bind_rd by exact Hn.
    assert (next ≠ 0) as Hnext by (destruct A; destruct Hl as (-> & ? & _); done).
    rewrite run_bind_lift with (a := tt) by (apply c_assert_true; lia).
    rewrite (IH next A (t_td a) Hl).
    + destruct A as [|b A]; [done|]. cbn [list.last]. destruct (list.last (b :: A)) eqn:E; [done|]. by apply last_None in E.
    + intros u Hu. apply Hself. by right.
    + done.
    + intros u Hu. apply HA. by right.
    + cbn in Hf. lia.
Qed.

(** What [unstage] writes: the lock, and the link that leads to [t]. *)
Definition staged_link (A : list thr) : Z := from_option (td_next ∘ t_td) v.(g_td_staged_to_free) (list.last A).

Lemma tlist_take m A t B p :
  tlist m p (t_td <$> A ++ t :: B) → NoDup (t_td <$> A ++ t :: B) → m !! v.(g_td_staged_to_free) = Some p →
  v.(g_td_staged_to_free) ∉ (td_next ∘ t_td <$> A ++ B) →
  ∃ nx, m !! td_next t.(t_td) = Some nx ∧ let m' := <[staged_link A := nx]> m in
    ∃ p', m' !! v.(g_td_staged_to_free) = Some p' ∧ tlist m' p' (t_td <$> A ++ B).
Proof.
  intros Hl Hnd Hp Hh. destruct (tlist_in _ _ _ (t_td t) Hl) as [_ [nx Hnx]].
  { apply list_elem_of_fmap_2, elem_of_app. right. by left. }
  exists nx. split; [done|]. intros m'. unfold m', staged_link. destruct (snoc_cases A) as [->|(A' & a & ->)].
  - cbn. exists nx. split; [by lookup_simp done|]. destruct Hl as (_ & _ & nx' & Hnx' & Hl).
    replace nx with nx' by congruence. apply tlist_insert; [|done]. intros td Htd E. apply Hh. rewrite E.
    apply list_elem_of_fmap in Htd as (b & -> & Hb). by apply (list_elem_of_fmap_2 (td_next ∘ t_td)).
  - rewrite last_snoc. cbn. exists p. split.
    + rewrite lookup_insert_ne; [done|]. intros E. apply Hh. rewrite <- E.
      apply (list_elem_of_fmap_2 (td_next ∘ t_td)). rewrite !elem_of_app. left. right. by left.
    + rewrite <- !app_assoc in *. rewrite fmap_app in *. cbn in *. by eapply tlist_unlink.
Qed.

Lemma tlist_size m p tds : tlist m p tds → NoDup tds → (length tds <= size m)%nat.
Proof.
  intros Hl Hnd. rewrite <- (length_fmap td_next).
  rewrite <- size_dom, <- (size_list_to_set (C := gset Z)) by (by apply NoDup_fmap_2; [intros ?? ?%td_next_inj|]).
  apply subseteq_size. intros a Ha%elem_of_list_to_set. apply elem_of_dom.
  apply list_elem_of_fmap in Ha as (td & -> & Hin). by eapply tlist_in.
Qed.

Lemma tlist_update_other m p tds a w : a ∉ (td_next <$> tds) → tlist m p tds → tlist (<[a := w]> m) p tds.
Proof. intros Ha. apply tlist_insert. intros td Htd ->. apply Ha. by apply list_elem_of_fmap_2. Qed.

Lemma staged_nodup st R S F n : threads_repr v qsz st R S F n → NoDup (t_td <$> S).
Proof. intros Hr%thread_tds_nodup. rewrite fmap_app in Hr. by apply NoDup_app in Hr as (_ & _ & ?). Qed.

Lemma known_block R S F u : u ∈ R ++ S → (u.(t_td), PAGESIZE) ∈ threads_blocks qsz (R ++ S) ++ F.
Proof. intros Hu. apply elem_of_app. left. by apply threads_blocks_in. Qed.

Lemma static_not_next st R S F n x u :
  threads_repr v qsz st R S F n → x ∈ statics_list v → u ∈ R ++ S → x ≠ td_next (t_td u).
Proof. intros Hr Hx Hu. eapply not_link; [exact Hr|exact Hx|by apply known_block]. Qed.

Lemma static_not_linked st R S F n x us :
  threads_repr v qsz st R S F n → x ∈ statics_list v → us ⊆ R ++ S → x ∉ (td_next ∘ t_td <$> us).
Proof. intros Hr Hx Hus (u & E & Hu)%list_elem_of_fmap. by apply (static_not_next _ _ _ _ _ x u Hr Hx (Hus u Hu)). Qed.

(** Memory after [unstage] has taken the thread after [A] off the list. *)
Definition taken (A : list thr) (nx : Z) (m : mem) : mem :=
  <[v.(g_staged_lock) := 0]> (<[staged_link A := nx]> (<[v.(g_staged_lock) := 1]> m)).

(** The link that leads to [t] is written. *)
Lemma unlink_run m p A t B nx :
  tlist m p (t_td <$> A ++ t :: B) → m !! v.(g_td_staged_to_free) = Some p →
  run (if negb (from_option t_td 0 (list.last A) =? 0) then wr (td_next (from_option t_td 0 (list.last A))) nx
       else wr v.(g_td_staged_to_free) nx) m = Ret (tt, <[staged_link A := nx]> m).
Proof.
  intros Hs Hp. unfold staged_link. destruct (snoc_cases A) as [->|(A' & a & ->)]; [cbn; by rewrite Hp|].
  rewrite last_snoc. cbn [from_option compose].
  destruct (tlist_in _ _ _ (t_td a) Hs) as [Hnz Hmap]; [apply list_elem_of_fmap_2; rewrite !elem_of_app; left; right; by left|].
  replace (t_td a =? 0) with false by lia. cbn [negb]. by rewrite run_wr.
Qed.

Lemma lock_not_link st R A t B F n :
  threads_repr v qsz st R (A ++ t :: B) F n → v.(g_staged_lock) ≠ staged_link A.
Proof.
  intros Hr. pose proof statics_distinct. unfold staged_link. destruct (snoc_cases A) as [->|(A' & a & ->)]; [cbn; tauto|].
  rewrite last_snoc. cbn. eapply static_not_next; [exact Hr|static|]. rewrite !elem_of_app. right. left. right. by left.
Qed.

Lemma unstage_run st R A t B F n fuel tid :
  threads_repr v qsz st R (A ++ t :: B) F n → t.(t_self) = tid → (∀ u, u ∈ A → u.(t_self) ≠ tid) → (length A < fuel)%nat →
  ∃ nx p', run (unstage v fuel tid) st.(memory) = Ret (t.(t_td), taken A nx st.(memory)) ∧
    taken A nx st.(memory) !! v.(g_td_staged_to_free) = Some p' ∧ tlist (taken A nx st.(memory)) p' (t_td <$> A ++ B).
Proof.
  intros Hr Hself HA Hfuel. pose proof Hr as [Ho Hl (p & Hp & Hs) Hk Hc HR HS Hf].
  pose proof (staged_nodup _ _ _ _ _ Hr) as Hnds. pose proof statics_distinct as Hd.
  assert (v.(g_staged_lock) ≠ v.(g_td_staged_to_free)) as Hlh by tauto.
  set (m := st.(memory)) in *. set (m1 := <[v.(g_staged_lock) := 1]> m).
  assert (A ++ t :: B ⊆ R ++ A ++ t :: B) as Hsub by (intros u Hu; apply elem_of_app; by right).
  assert (A ++ B ⊆ R ++ A ++ t :: B) as HsubAB by (intros u; rewrite !elem_of_app, elem_of_cons; tauto).
  assert (tlist m1 p (t_td <$> A ++ t :: B)) as Hs1.
  { apply tlist_update_other; [|done]. rewrite <- list_fmap_compose. by eapply static_not_linked; [exact Hr|static|]. }
  assert (m1 !! v.(g_td_staged_to_free) = Some p) as Hp1 by (unfold m1; by rewrite lookup_insert_ne).
  destruct (tlist_take m1 A t B p Hs1 Hnds Hp1) as (nx & Hnx & p' & Hp' & Hs').
  { by eapply static_not_linked; [exact Hr|static|]. }
  exists nx, p'. split; [|split].
  - unfold unstage. rewrite run_bind_lock by exact Hk. fold m1. erewrite run_bind_rd by exact Hp1.
    assert (p ≠ 0) as Hp0 by (destruct A; destruct Hs as (-> & ? & _); done).
    rewrite run_bind_lift with (a := tt) by (apply c_assert_true; lia).
    rewrite run_bind, (find_staged_run fuel m1 tid p A t B 0); [|done| |done|done|done].
    2: { intros u Hu. unfold m1. rewrite lookup_insert_ne; [by apply HS|]. intros E.
         eapply (scalar_not_static _ Hf (t_td u) (td_self (t_td u))); [apply known_block; by apply Hsub|scalar| |symmetry; exact E]. static. }
    cbn [mbind outcome_bind]. erewrite run_bind_rd by exact Hnx.
    rewrite run_bind, (unlink_run m1 p A t B nx Hs1 Hp1). cbn [mbind outcome_bind].
    unfold pthread_mutex_unlock. rewrite run_bind_wr; [done|].
    rewrite lookup_insert_ne by (apply not_eq_sym; by eapply lock_not_link). unfold m1. rewrite lookup_insert_eq. by eexists.
  - unfold taken. by rewrite lookup_insert_ne.
  - unfold taken. apply tlist_update_other; [|done]. rewrite <- list_fmap_compose. by eapply static_not_linked; [exact Hr|static|].
Qed.

Lemma unstage_ok st R A t B F n fuel tid :
  threads_repr v qsz st R (A ++ t :: B) F n → t.(t_self) = tid → (∀ u, u ∈ A → u.(t_self) ≠ tid) → (length A < fuel)%nat →
  wp (run (unstage v fuel tid) st.(memory)) (λ r, r.1 = t.(t_td) ∧
    threads_repr v qsz {| heap := st.(heap); memory := r.2 |} R (A ++ B) (thread_blocks qsz t ++ F) n ∧
    td_fields r.2 t 0).
Proof.
  intros Hr Hself HA Hfuel. destruct (unstage_run _ _ _ _ _ _ _ _ _ Hr Hself HA Hfuel) as (nx & p' & Hrun & Hp' & Hs').
  rewrite Hrun. apply wp_ret. cbn [fst snd]. split; [done|].
  pose proof Hr as [_ _ _ _ _ HR HS _]. pose proof (thread_tds_nodup _ _ _ _ _ Hr) as Hnd.
  set (m := st.(memory)) in *. set (m' := taken A nx m) in *. set (ls := [v.(g_staged_lock); staged_link A]).
  assert (same_except ls m m') as Hm.
  { unfold m', taken, ls. do 3 (apply same_except_insert; [rewrite !elem_of_cons; tauto|]). apply same_except_refl. }
  assert (ls ⊆ [v.(g_staged_lock); v.(g_td_staged_to_free)] ++ (td_next ∘ t_td <$> A)) as Hls2.
  { intros x. unfold ls, staged_link. rewrite elem_of_app, !elem_of_cons, elem_of_nil.
    destruct (snoc_cases A) as [->|(A' & a & ->)]; [cbn; tauto|]. rewrite last_snoc. cbn. intros [?|[->|[]]]; [tauto|].
    right. apply (list_elem_of_fmap_2 (td_next ∘ t_td)), elem_of_app. right. by left. }
  assert (ls ⊆ heads ++ (td_next ∘ t_td <$> A)) as Hls3.
  { intros x [Hx|Hx]%Hls2%elem_of_app; apply elem_of_app; [left|by right]. unfold heads. rewrite !elem_of_cons in *. tauto. }
  pose proof (staged_nodup _ _ _ _ _ Hr) as Hnds.
  assert (∀ u, u ∈ A ++ B → t.(t_td) ≠ u.(t_td)) as Hne by (intros u Hu; by eapply nodup_middle).
  assert (∀ u, u ∈ A → (u.(t_td), PAGESIZE) ∈ threads_blocks qsz (R ++ A ++ t :: B) ++ F) as Hblk.
  { intros u Hu. apply known_block. rewrite !elem_of_app. tauto. }
  split.
  - apply (lists_change st R (A ++ t :: B) F R (A ++ B) _ n A ls); try done.
    + assert (R ++ A ++ t :: B ≡ₚ t :: R ++ A ++ B) as -> by (rewrite !app_assoc; by rewrite <- Permutation_middle).
      change (threads_blocks qsz (t :: R ++ A ++ B)) with (thread_blocks qsz t ++ threads_blocks qsz (R ++ A ++ B)).
      rewrite <- (app_assoc (thread_blocks qsz t)). apply Permutation_app_swap_app.
    + eapply (thread_list_links st R _ F n ls A); [exact Hr|exact Hls2|exact Hblk| |exact Hm].
      intros u w Hu Hw E. rewrite fmap_app in Hnd. apply NoDup_app in Hnd as (_ & Hnd & _).
      apply (Hnd (t_td u)); [by apply list_elem_of_fmap_2|]. rewrite E. apply list_elem_of_fmap_2, elem_of_app. by left.
    + by exists p'.
    + unfold m', taken. by rewrite lookup_insert_eq.
    + intros u Hu. apply HS. rewrite elem_of_app, elem_of_cons. rewrite elem_of_app in Hu. tauto.
  - eapply (unlinked_fields st R (A ++ t :: B) F n t A ls); [exact Hr| |exact Hls3| |exact Hm|].
    + rewrite !elem_of_app, elem_of_cons. tauto.
    + intros w Hw. split; [rewrite !elem_of_app; tauto|]. apply Hne. rewrite elem_of_app. tauto.
    + apply HS. rewrite elem_of_app, elem_of_cons. tauto.
Qed.

(** *** The blocks of a thread are released *)
Lemma repr_perm st R S F F' n : F ≡ₚ F' → threads_repr v qsz st R S F n → threads_repr v qsz st R S F' n.
Proof.
  intros Hp [Ho ? ? ? ? ? ? Hf]. split; try done.
  - eapply owns_perm; [|exact Ho]. by apply Permutation_app_head.
  - intros b x. rewrite <- Hp. apply Hf.
Qed.

(** Other blocks do not matter to metadata that is in no list. *)
Lemma held_fields st R S F n p l t m' ref :
  threads_repr v qsz st R S ((p, l) :: F) n → (t.(t_td), PAGESIZE) ∈ F →
  (∀ a, outside (p, l) a → m' !! a = st.(memory) !! a) → td_fields st.(memory) t ref → td_fields m' t ref.
Proof.
  intros Hr Ht Hm Hfld. pose proof (tr_heap _ _ _ _ _ _ _ Hr) as Ho.
  assert (∀ a, a ∈ td_scalars t.(t_td) → m' !! a = st.(memory) !! a) as Heq.
  { intros a Ha. apply Hm. apply (owns_disjoint _ _ (t_td t, PAGESIZE) _ _ Ho); [| | |by apply td_scalars_in].
    - rewrite elem_of_app, elem_of_cons. tauto.
    - rewrite elem_of_app, elem_of_cons. tauto.
    - pose proof (ow_nodup _ _ Ho) as Hnd. rewrite fmap_app in Hnd. apply NoDup_app in Hnd as (_ & _ & Hnd).
      cbn in Hnd. apply NoDup_cons in Hnd as [Hnin _]. cbn. intros E. apply Hnin. rewrite <- E.
      apply (list_elem_of_fmap_2 fst _ _ Ht). }
  eapply td_fields_ext; [intros a Ha _; by apply Heq| |done]. rewrite Heq by apply next_scalar.
  apply (tf_mapped _ _ _ Hfld), next_scalar.
Qed.

Lemma data_free_ok st R S F n t :
  threads_repr v qsz st R S ((t.(t_td), PAGESIZE) :: (t.(t_queue), qsz) :: F) n → td_fields st.(memory) t 0 → t.(t_td) ≠ 0 →
  wp (threadscan_util_thread_data_free t.(t_td) st) (λ r, threads_repr v qsz r.2 R S F n).
Proof.
  destruct st as [h m]. intros Hr Hfld Ht. cbn [heap memory] in *. unfold threadscan_util_thread_data_free. apply wp_step_bind, (wp_lifted _ tt); [apply c_assert_true; lia|].
  cbn [fst snd]. apply wp_step_bind, wp_in_memory. cbn [heap memory].
  assert (run (if debug then rd (td_ref_count (t_td t)) else mret 0) m = Ret (0, m)) as ->.
  { destruct debug; [|done]. apply run_rd, (tf_ref _ _ _ Hfld). }
  apply wp_ret. cbn [fst snd]. apply wp_step_bind, (wp_lifted _ tt); [by apply c_assert_true|]. cbn [fst snd].
  apply wp_step_bind, wp_in_memory. cbn [heap memory]. rewrite (run_rd _ _ _ (tf_queue _ _ _ Hfld)). apply wp_ret. cbn [fst snd].
  apply wp_step_bind. eapply wp_mono; [apply (repr_munmap v qsz _ R S ((t_td t, PAGESIZE) :: F) n (t_queue t) qsz)|].
  - eapply repr_perm; [|exact Hr]. apply Permutation_swap.
  - intros [u st1] [Hr1 _]. cbn [fst snd] in *. eapply wp_mono; [by eapply repr_munmap|]. by intros [u' st2] [Hr2 _].
Qed.

Lemma cleanup_ok st R A t B F n tid :
  threads_repr v qsz st R (A ++ t :: B) F n → t.(t_self) = tid → (∀ u, u ∈ A → u.(t_self) ≠ tid) →
  wp (threadscan_util_thread_data_cleanup v tid st) (λ r, threads_repr v qsz r.2 R (A ++ B) F n).
Proof.
  intros Hr Hself HA. unfold threadscan_util_thread_data_cleanup. apply wp_step_bind, wp_in_memory.
  destruct (tr_staged _ _ _ _ _ _ _ Hr) as (p & _ & Hs). pose proof (tlist_size _ _ _ Hs (staged_nodup _ _ _ _ _ Hr)) as Hsz.
  rewrite length_fmap, length_app in Hsz. cbn in Hsz.
  assert (t_td t ≠ 0) as Ht0 by (eapply tlist_nonzero; [exact Hs|]; apply list_elem_of_fmap_2, elem_of_app; right; by left).
  eapply wp_mono; [eapply unstage_ok; [exact Hr|exact Hself|exact HA|lia]|].
  intros [td m1] (-> & Hr1 & Hfld). cbn [fst snd] in *. apply wp_step_bind, wp_in_memory. cbn [heap memory].
  rewrite (run_rd _ _ _ (tf_ref _ _ _ Hfld)). apply wp_ret. cbn [fst snd]. change (0 >? 0) with false. cbn iota.
  apply wp_step_bind, wp_in_memory. cbn [heap memory]. rewrite (run_rd _ _ _ (tf_own _ _ _ Hfld)). apply wp_ret. cbn [fst snd].
  apply wp_step_bind. unfold thread_blocks in Hr1. destruct (t_own t).
  - cbn [Z.eqb negb]. apply wp_step_bind, wp_in_memory. cbn [heap memory]. rewrite (run_rd _ _ _ (tf_low _ _ _ Hfld)).
    apply wp_ret. cbn [fst snd].
    assert (threads_repr v qsz {| heap := st.(heap); memory := m1 |} R (A ++ B)
      ((t_low t, STACK_SIZE) :: (t_td t, PAGESIZE) :: (t_queue t, qsz) :: F) n) as Hr2.
    { eapply repr_perm; [|exact Hr1]. apply (Permutation_app_swap_app [_; _] [_] F). }
    eapply wp_mono; [eapply repr_munmap; exact Hr2|]. intros [u st2] [Hr3 Hm]. cbn [fst snd] in *.
    apply data_free_ok; [done| |done]. eapply held_fields; [exact Hr2|by left|exact Hm|exact Hfld].
  - cbn [Z.eqb negb]. apply wp_ret. cbn [fst snd]. by apply data_free_ok.
Qed.

(** *** A thread writes to its own metadata *)
Lemma repr_own_scalars st A t t' B S F n ls m' :
  threads_repr v qsz st (A ++ t :: B) S F n → ls ⊆ td_scalars t.(t_td) → td_next t.(t_td) ∉ ls →
  same_except ls st.(memory) m' → thread_blocks qsz t' = thread_blocks qsz t → t'.(t_td) = t.(t_td) → td_fields m' t' 1 →
  threads_repr v qsz {| heap := st.(heap); memory := m' |} (A ++ t' :: B) S F n.
Proof.
  intros Hr Hls Hnext Hm Eb Et Hfld. pose proof Hr as [Ho Hl (p & Hp & Hs) Hk Hc HR HS Hf].
  pose proof (thread_tds_nodup _ _ _ _ _ Hr) as Hnd.
  assert (∀ u, u ∈ A ++ B ++ S → t.(t_td) ≠ u.(t_td)) as Hne.
  { intros u Hu. rewrite <- app_assoc in Hnd. cbn in Hnd. by eapply nodup_middle. }
  assert (∀ u, u ∈ (A ++ t :: B) ++ S → (u.(t_td), PAGESIZE) ∈ threads_blocks qsz ((A ++ t :: B) ++ S) ++ F) as Hblk.
  { intros u Hu. apply elem_of_app. left. by apply threads_blocks_in. }
  assert ((t.(t_td), PAGESIZE) ∈ threads_blocks qsz ((A ++ t :: B) ++ S) ++ F) as Htb.
  { apply Hblk. rewrite !elem_of_app, elem_of_cons. tauto. }
  assert (∀ u a, u ∈ A ++ B ++ S → a ∈ td_scalars u.(t_td) → m' !! a = st.(memory) !! a) as Hother.
  { intros u a Hu Ha. apply Hm. intros Hin%Hls. eapply (scalar_not_other _ _ Ho (t_td u) (t_td t)); [|exact Htb| |exact Ha|exact Hin|done].
    - apply Hblk. rewrite !elem_of_app, elem_of_cons in *. tauto.
    - by apply not_eq_sym, Hne. }
  assert (∀ x, x ∈ statics_list v → m' !! x = st.(memory) !! x) as Hst.
  { intros x Hx. apply Hm. intros Hin%Hls. by eapply (scalar_not_static _ Hf). }
  assert (∀ u ref, u ∈ A ++ B ++ S → td_fields st.(memory) u ref → td_fields m' u ref) as Hkeep.
  { intros u ref Hu Hu'. eapply td_fields_ext; [intros a Ha _; by eapply Hother| |done].
    rewrite (Hother u) by (done || apply next_scalar). apply (tf_mapped _ _ _ Hu'), next_scalar. }
  assert (t_td <$> A ++ t' :: B = t_td <$> A ++ t :: B) as Etd by (rewrite !fmap_app; cbn; by rewrite Et).
  assert (threads_blocks qsz ((A ++ t' :: B) ++ S) = threads_blocks qsz ((A ++ t :: B) ++ S)) as Ebs.
  { unfold threads_blocks. rewrite !fmap_app. cbn [fmap list_fmap]. by rewrite Eb. }
  assert (∀ q us, us ⊆ A ++ t :: B ++ S → tlist st.(memory) q (t_td <$> us) → tlist m' q (t_td <$> us)) as Htl.
  { intros q us Hus. apply tlist_ext. intros td (u & -> & Hu%Hus)%list_elem_of_fmap. rewrite elem_of_app, elem_of_cons in Hu.
    destruct Hu as [Hu|[->|Hu]]; [| by apply Hm|]; apply (Hother u); try apply next_scalar; rewrite elem_of_app; tauto. }
  split; cbn [heap memory]; rewrite ?Ebs; try done.
  - rewrite Etd. destruct Hl as [H1 (q & Hq & Hl) H3 H4 H5]. split; try done; [rewrite Hst; [done|static]|].
    exists q. split; [rewrite Hst; [done|static]|]. apply Htl; [|done]. intros u. rewrite !elem_of_app, !elem_of_cons, elem_of_app. tauto.
  - exists p. split; [rewrite Hst; [done|static]|]. apply Htl; [|done]. intros u. rewrite !elem_of_app, !elem_of_cons, elem_of_app. tauto.
  - rewrite Hst; [done|static].
  - rewrite Hst; [done|static].
  - intros u. rewrite elem_of_app, elem_of_cons. intros [Hu|[->|Hu]]; [|done|];
      (apply Hkeep; [rewrite !elem_of_app; tauto|]; apply HR; rewrite elem_of_app, elem_of_cons; tauto).
  - intros u Hu. apply Hkeep; [rewrite !elem_of_app; tauto|]. by apply HS.
Qed.

Definition started (t : thr) (self : Z) : thr :=
  {| t_td := t.(t_td); t_queue := t.(t_queue); t_low := t.(t_low); t_own := t.(t_own); t_self := self;
     t_routine := t.(t_routine); t_arg := t.(t_arg) |}.

(** What [threadscan_thread_base] writes. *)
Lemma base_ok st A t B S F n sp self :
  threads_repr v qsz st (A ++ t :: B) S F n → 0 <= sp < 2 ^ 64 →
  wp (run (threadscan_thread_base t.(t_td) sp self) st.(memory)) (λ r,
    threads_repr v qsz {| heap := st.(heap); memory := r.2 |} (A ++ started t self :: B) S F n ∧
    r.2 !! td_is_active t.(t_td) = Some 1 ∧ r.2 !! td_local_timestamp t.(t_td) = Some 0 ∧
    r.2 !! td_user_stack_high t.(t_td) = Some (sp - sp `mod` PAGESIZE) ∧
    r.1 = (t.(t_routine), t.(t_arg))).
Proof.
  intros Hr Hsp. pose proof (tr_running _ _ _ _ _ _ _ Hr t) as Hfld.
  specialize (Hfld ltac:(rewrite elem_of_app, elem_of_cons; tauto)). pose proof (tf_mapped _ _ _ Hfld) as Hmap.
  unfold threadscan_thread_base. change (PAGESIZE - 1) with (2 ^ 12 - 1). rewrite land_low_mod by lia.
  change (2 ^ 12) with PAGESIZE.
  rewrite u64_small by (pose proof (Z.mod_le sp PAGESIZE); pose proof (Z.mod_pos_bound sp PAGESIZE); unfold PAGESIZE in *; lia).
  do 4 run_scalar Hmap.
  erewrite run_bind_rd by (lookup_simp addr; apply (tf_routine _ _ _ Hfld)).
  erewrite run_bind_rd by (lookup_simp addr; apply (tf_arg _ _ _ Hfld)).
  apply wp_ret. cbn [fst snd]. set (m' := <[_ := _]> _).
  split; [|split; [unfold m'; by lookup_simp addr|split; [unfold m'; by lookup_simp addr|split; [unfold m'; by lookup_simp addr|]]]].
  - eapply (repr_own_scalars st A t (started t self) B S F n
      [td_user_stack_high (t_td t); td_local_timestamp (t_td t); td_self (t_td t); td_is_active (t_td t)]); [done| | | |done|done|].
    + intros x Hx. unfold td_scalars. rewrite !elem_of_cons in *. rewrite elem_of_nil in Hx. tauto.
    + rewrite !elem_of_cons, elem_of_nil. autounfold with layout. lia.
    + unfold m'. do 4 (apply same_except_insert; [rewrite !elem_of_cons; tauto|]). apply same_except_refl.
    + destruct Hfld as [H1 H2 H3 H4 H5 H6 H7 H8]. unfold m'. split; cbn; try (by lookup_simp queue_addr).
      intros a Ha. repeat (apply lookup_insert_is_Some'; right). by apply H1.
  - done.
Qed.

Lemma thread_cleanup_ok st A t B S F n :
  threads_repr v qsz st (A ++ t :: B) S F n →
  wp (run (threadscan_thread_cleanup v t.(t_td)) st.(memory)) (λ r,
    threads_repr v qsz {| heap := st.(heap); memory := r.2 |} (A ++ B) (t :: S) F n).
Proof.
  intros Hr. pose proof (tr_running _ _ _ _ _ _ _ Hr t) as Hfld.
  specialize (Hfld ltac:(rewrite elem_of_app, elem_of_cons; tauto)). pose proof (tf_mapped _ _ _ Hfld) as Hmap.
  assert (t_td t ≠ 0) as Ht0.
  { destruct (tl_first _ _ _ (tr_list _ _ _ _ _ _ _ Hr)) as (p & _ & Hl). eapply tlist_nonzero; [exact Hl|].
    apply list_elem_of_fmap_2, elem_of_app. right. by left. }
  unfold threadscan_thread_cleanup. rewrite run_bind_lift with (a := tt) by (apply c_assert_true; lia).
  run_scalar Hmap. set (m1 := <[_ := 0]> _).
  assert (threads_repr v qsz {| heap := st.(heap); memory := m1 |} (A ++ t :: B) S F n) as Hr1.
  { eapply (repr_own_scalars st A t t B S F n [td_is_active (t_td t)]); [done| | | |done|done|].
    - intros x ->%list_elem_of_singleton. scalar.
    - rewrite elem_of_cons, elem_of_nil. autounfold with layout. lia.
    - apply same_except_insert; [by left|apply same_except_refl].
    - destruct Hfld as [H1 H2 H3 H4 H5 H6 H7 H8]. unfold m1. split; cbn; try (by lookup_simp queue_addr).
      intros a Ha. apply lookup_insert_is_Some'. right. by apply H1. }
  rewrite run_bind. apply wp_bind. eapply wp_mono; [exact (remove_ok _ _ _ _ _ _ _ Hr1)|].
  intros [u m2] [Hr2 Hfld2]. cbn [fst snd heap memory] in *.
  exact (stage_ok _ _ _ _ _ _ Hr2 Hfld2 Ht0).
Qed.
End operations.
