(* ===== verification/Proc.v ===== *)
(** * proc.c: the memory map of the process

    [threadscan_proc_stack_from_addr] looks an address up in
    /proc/self/maps, which the kernel prints and fscanf reads.  A file is the
    list of the characters that are left, with the end-of-file indicator that
    feof reports: it is set once a read ran into the end.  Numbers are read
    in the form the kernel prints them, without sign or prefix. *)

From Stdlib Require Import Ascii.
From Stdlib Require String.
Import String.StringSyntax.
From S2P Require Import Prelude Conc Mem.

(** ** stdio *)
Record FILE := { rest : list ascii; eof : bool }.

Definition isspace (c : ascii) : bool :=
  let n := N_of_ascii c in (N.eqb n 32 || (N.leb 9 n && N.leb n 13))%bool.

(** The value of a digit. *)
Definition digit (base : Z) (c : ascii) : option Z :=
  let n := Z.of_N (N_of_ascii c) in
  let d := if (48 <=? n) && (n <=? 57) then n - 48
           else if (97 <=? n) && (n <=? 102) then n - 87
           else if (65 <=? n) && (n <=? 70) then n - 55 else 99 in
  if d <? base then Some d else None.

(** Characters are read as long as they are accepted; the first one that is
    not goes back to the stream. *)
Fixpoint take_while (p : ascii → bool) (s : list ascii) : list ascii * list ascii :=
  match s with
  | [] => ([], [])
  | c :: s' => if p c then let '(t, r) := take_while p s' in (c :: t, r) else ([], s)
  end.

Definition read_while (p : ascii → bool) (f : FILE) : list ascii * FILE :=
  let '(t, r) := take_while p f.(rest) in
  (t, {| rest := r; eof := f.(eof) || match r with [] => true | _ => false end |}).

Definition fgetc (f : FILE) : option ascii * FILE :=
  match f.(rest) with
  | [] => (None, {| rest := []; eof := true |})
  | c :: s => (Some c, {| rest := s; eof := f.(eof) |})
  end.

(** fscanf: white space, a literal character, a number, a word.  A directive
    that does not match ends the call. *)
Definition scan_space (f : FILE) : FILE := (read_while isspace f).2.

Definition scan_char (c : ascii) (f : FILE) : option unit * FILE :=
  match f.(rest) with
  | [] => (None, {| rest := []; eof := true |})
  | d :: s => if Ascii.eqb c d then (Some tt, {| rest := s; eof := f.(eof) |}) else (None, f)
  end.

Definition number (base : Z) (ds : list ascii) : Z :=
  foldl (λ acc c, base * acc + default 0 (digit base c)) 0 ds.

(** strtoul and strtol saturate at [max]. *)
Definition scan_number (base max : Z) (f : FILE) : option Z * FILE :=
  let '(ds, f) := read_while (λ c, if digit base c is Some _ then true else false) (scan_space f) in
  match ds with [] => (None, f) | _ => (Some (Z.min (number base ds) max), f) end.

Definition scan_word (f : FILE) : option (list ascii) * FILE :=
  let '(w, f) := read_while (λ c, negb (isspace c)) (scan_space f) in
  match w with [] => (None, f) | _ => (Some w, f) end.

Definition ULLONG_MAX : Z := 2 ^ 64 - 1.
Definition LONG_MAX : Z := 2 ^ 63 - 1.

(** ** The lines of the map *)
Definition MAPLINE_LOCATION_SIZE : Z := 256.

Record mapline_t := {
  range_begin : Z; range_end : Z;
  bits : list ascii;
  f1 : Z; f2 : Z; f3 : Z; f4 : Z;
  location : list ascii;
}.

(** A parser that stops the call at the first directive that fails. *)
Definition scanner_of (A : Type) : Type := FILE → option A * FILE.
Definition scan_bind {A B} (p : scanner_of A) (k : A → scanner_of B) : scanner_of B := λ f,
  match p f with
  | (Some a, f') => k a f'
  | (None, f') => (None, f')
  end.
Definition scan_skip : scanner_of unit := λ f, (Some tt, scan_space f).
Definition scan_done {A} (a : A) : scanner_of A := λ f, (Some a, f).

(** [fscanf(fp, "%llx-%llx %s %llx %x:%x %d", ...)]; the result is there when
    all seven conversions succeed.  [%s] does not know the size of
    [bits]. *)
Definition scan_front : scanner_of (Z * Z * list ascii) :=
  scan_bind (scan_number 16 ULLONG_MAX) (λ b,
  scan_bind (scan_char "-"%char) (λ _,
  scan_bind (scan_number 16 ULLONG_MAX) (λ e,
  scan_bind scan_skip (λ _,
  scan_bind scan_word (λ w, scan_done (b, e, w)))))).

Definition scan_mapline : scanner_of mapline_t :=
  scan_bind scan_front (λ r,
  scan_bind scan_skip (λ _,
  scan_bind (scan_number 16 ULLONG_MAX) (λ o,
  scan_bind scan_skip (λ _,
  scan_bind (scan_number 16 ULLONG_MAX) (λ x,
  scan_bind (scan_char ":"%char) (λ _,
  scan_bind (scan_number 16 ULLONG_MAX) (λ y,
  scan_bind scan_skip (λ _,
  scan_bind (scan_number 10 LONG_MAX) (λ z,
  scan_done {| range_begin := r.1.1; range_end := r.1.2; bits := r.2; f1 := o; f2 := u32 x; f3 := u32 y; f4 := u32 z;
               location := [] |}))))))))).

(** [char bits[5]] is written as soon as the word is read, also when the rest
    of the line does not match. *)
Definition bits_overflow (f : FILE) : bool :=
  match scan_front f with (Some r, _) => 5 <=? zlen r.2 | (None, _) => false end.

Section code.
Context `{Build}.

(** [while (' ' == (c = fgetc(fp)));] *)
Definition skip_blanks (f : FILE) : option ascii * FILE :=
  fgetc (read_while (Ascii.eqb " "%char) f).2.

(** [char c = EOF] and the character 255 are the same value. *)
Definition is_EOF (c : option ascii) : bool :=
  match c with None => true | Some c => N.eqb (N_of_ascii c) 255 end.

Definition newline : ascii := "010"%char.

(** The result is [None] at the end of the file. *)
Definition read_mapline (f : FILE) : outcome (option mapline_t * FILE) :=
  if f.(eof) then Ret (None, f)
  else
    if bits_overflow f then UB
    else match scan_mapline f with
    | (None, _) => threadscan_fatal
    | (Some m, f) =>
          let '(c, f) := skip_blanks f in
          if is_EOF c || match c with Some c => Ascii.eqb c newline | None => false end then Ret (Some m, f)
          else
            match scan_word f with
            | (None, _) => threadscan_fatal
            | (Some w, f) =>
                if MAPLINE_LOCATION_SIZE - 1 <=? zlen w then UB (* &m->location[1] *)
                else
                  let f := scan_space f in
                  Ret (Some {| range_begin := m.(range_begin); range_end := m.(range_end); bits := m.(bits);
                               f1 := m.(f1); f2 := m.(f2); f3 := m.(f3); f4 := m.(f4);
                               location := option_list c ++ w |}, f)
            end
    end.

(** Each line that is read takes a character at least. *)
Fixpoint find_range (fuel : nat) (addr : Z) (f : FILE) : outcome mem_range_t :=
  match fuel with
  | O => OutOfFuel
  | S fuel' =>
      '(line, f) ← read_mapline f;
      match line with
      | None => Ret {| low := 0; high := 0 |}
      | Some m =>
          if (addr >? m.(range_begin)) && (addr <? m.(range_end))
          then Ret {| low := m.(range_begin); high := m.(range_end) |}
          else find_range fuel' addr f
      end
  end.

(** [procmap] is the contents of /proc/self/maps, if it can be opened. *)
Definition threadscan_proc_stack_from_addr (procmap : option (list ascii)) (addr : Z) : outcome mem_range_t :=
  _ ← c_assert (addr >? 0);
  match procmap with
  | None => threadscan_fatal
  | Some s => find_range (S (S (length s))) addr {| rest := s; eof := false |}
  end.
End code.

(** ** Termination: a line that is read is shorter *)
Definition left (f : FILE) : nat := length f.(rest).

Lemma take_while_length p s : (length (take_while p s).1 + length (take_while p s).2 = length s)%nat.
Proof.
  induction s as [|c s IH]; [done|]. cbn [take_while]. destruct (p c); [|done].
  destruct (take_while p s) as [t r]. cbn [fst snd length] in *. lia.
Qed.

Lemma read_while_left p f : (length (read_while p f).1 + left (read_while p f).2 = left f)%nat.
Proof.
  unfold read_while, left. pose proof (take_while_length p f.(rest)). by destruct (take_while p f.(rest)) as [t r].
Qed.

Lemma scan_space_left f : (left (scan_space f) <= left f)%nat.
Proof. pose proof (read_while_left isspace f). unfold scan_space. lia. Qed.

(** A scanner never gives characters back; [consumes n]: a success takes at
    least [n]. *)
Definition consumes {A} (n : nat) (p : scanner_of A) : Prop :=
  ∀ f, match p f with (Some _, f') => (left f' + n <= left f)%nat | (None, f') => (left f' <= left f)%nat end.

Lemma consumes_bind {A B} n k (p : scanner_of A) (q : A → scanner_of B) :
  consumes n p → (∀ a, consumes k (q a)) → consumes (n + k) (scan_bind p q).
Proof.
  intros Hp Hq f. unfold scan_bind. specialize (Hp f). destruct (p f) as [[a|] f']; [|done].
  specialize (Hq a f'). destruct (q a f') as [[b|] f'']; lia.
Qed.

Lemma consumes_mono {A} n k (p : scanner_of A) : (k <= n)%nat → consumes n p → consumes k p.
Proof. intros Hk Hp f. specialize (Hp f). destruct (p f) as [[a|] f']; lia. Qed.

Lemma scan_number_consumes base max : consumes 1 (scan_number base max).
Proof.
  intros f. unfold scan_number. pose proof (scan_space_left f). set (p := λ c, _).
  pose proof (read_while_left p (scan_space f)). destruct (read_while p (scan_space f)) as [ds f']. cbn in *.
  destruct ds; cbn in *; lia.
Qed.

Lemma scan_word_consumes : consumes 1 scan_word.
Proof.
  intros f. unfold scan_word. pose proof (scan_space_left f). set (p := λ c, _).
  pose proof (read_while_left p (scan_space f)). destruct (read_while p (scan_space f)) as [ds f']. cbn in *.
  destruct ds; cbn in *; lia.
Qed.

Lemma scan_char_consumes c : consumes 0 (scan_char c).
Proof.
  intros f. unfold scan_char, left. destruct (rest f) as [|d s] eqn:E; [cbn; lia|].
  destruct (Ascii.eqb c d); cbn; rewrite ?E; cbn; lia.
Qed.

Lemma scan_skip_consumes : consumes 0 scan_skip.
Proof. intros f. cbn. pose proof (scan_space_left f). lia. Qed.

Lemma scan_done_consumes {A} (a : A) : consumes 0 (scan_done a).
Proof. intros f. cbn. lia. Qed.

Lemma scan_front_consumes : consumes 1 scan_front.
Proof.
  unfold scan_front. apply (consumes_bind 1 0); [apply scan_number_consumes|]. intros b.
  repeat (eapply (consumes_bind 0 0); [eauto using consumes_mono, Nat.le_0_l, scan_number_consumes, scan_word_consumes,
    scan_char_consumes, scan_skip_consumes|intros ?]).
  apply scan_done_consumes.
Qed.

Lemma scan_mapline_consumes : consumes 1 scan_mapline.
Proof.
  unfold scan_mapline. apply (consumes_bind 1 0); [apply scan_front_consumes|]. intros b.
  repeat (eapply (consumes_bind 0 0); [eauto using consumes_mono, Nat.le_0_l, scan_number_consumes, scan_word_consumes,
    scan_char_consumes, scan_skip_consumes|intros ?]).
  apply scan_done_consumes.
Qed.

Section termination.
Context `{Build}.

Lemma skip_blanks_left f : (left (skip_blanks f).2 <= left f)%nat.
Proof.
  unfold skip_blanks. pose proof (read_while_left (Ascii.eqb " "%char) f).
  destruct (read_while _ f) as [t f']. cbn in *. unfold fgetc. unfold left in *. destruct (rest f'); cbn in *; lia.
Qed.

Lemma read_mapline_left f :
  match read_mapline f with
  | Ret (Some _, f') => (left f' < left f)%nat
  | OutOfFuel => False
  | _ => True
  end.
Proof.
  unfold read_mapline. destruct (eof f); [done|]. pose proof (scan_mapline_consumes f) as Hm.
  destruct (bits_overflow f); [done|].
  destruct (scan_mapline f) as [[m|] f1]; [|by unfold threadscan_fatal; destruct debug]. pose proof (skip_blanks_left f1). destruct (skip_blanks f1) as [c f2]. cbn [snd] in *.
  destruct (is_EOF c || _); [lia|]. pose proof (scan_word_consumes f2) as Hw.
  destruct (scan_word f2) as [[w|] f3]; [|by unfold threadscan_fatal; destruct debug].
  destruct (_ <=? zlen w); [done|]. pose proof (scan_space_left f3). lia.
Qed.

Lemma find_range_terminates fuel addr f : (left f < fuel)%nat → find_range fuel addr f ≠ OutOfFuel.
Proof.
  revert f. induction fuel as [|fuel IH]; intros f Hf; [lia|]. cbn [find_range].
  pose proof (read_mapline_left f) as Hl. destruct (read_mapline f) as [[[m|] f']| | | |]; try done.
  cbn [mbind outcome_bind]. destruct (_ && _); [done|]. apply IH. lia.
Qed.

(** C34. The search through the memory map ends, whatever the file holds: it
    finds a range, reaches the end of the file, or ends the process. *)
Theorem stack_from_addr_terminates procmap addr :
  threadscan_proc_stack_from_addr procmap addr ≠ OutOfFuel.
Proof.
  unfold threadscan_proc_stack_from_addr, c_assert, threadscan_fatal.
  assert (∀ s, find_range (S (S (length s))) addr {| rest := s; eof := false |} ≠ OutOfFuel) as Hf.
  { intros s. apply find_range_terminates. unfold left. cbn [rest]. lia. }
  destruct debug; [destruct (addr >? 0)|]; cbn [mbind outcome_bind]; try done; destruct procmap as [s|]; done.
Qed.
End termination.

(** ** What the kernel prints *)
Definition digit_char (d : Z) : ascii := ascii_of_N (Z.to_N (if d <? 10 then 48 + d else 87 + d)).

Fixpoint digits (fuel : nat) (base v : Z) : list ascii :=
  match fuel with
  | O => []
  | S fuel' => (if v <? base then [] else digits fuel' base (v / base)) ++ [digit_char (v `mod` base)]
  end.

(** 64 digits are enough for a 64-bit number in any base. *)
Definition print_number (base : Z) (width : nat) (v : Z) : list ascii :=
  let ds := digits 64 base v in replicate (width - length ds) (digit_char 0) ++ ds.

(** A line up to its end, with [pad] blanks before the location. *)
Definition print_line (pad : nat) (m : mapline_t) : list ascii :=
  print_number 16 8 m.(range_begin) ++ "-"%char :: print_number 16 8 m.(range_end) ++ " "%char ::
  m.(bits) ++ " "%char :: print_number 16 8 m.(f1) ++ " "%char :: print_number 16 2 m.(f2) ++ ":"%char ::
  print_number 16 2 m.(f3) ++ " "%char :: print_number 10 1 m.(f4) ++ " "%char ::
  replicate pad " "%char ++ m.(location).
Definition print_mapline (pad : nat) (m : mapline_t) : list ascii := print_line pad m ++ [newline].

Definition is_digit (base : Z) (c : ascii) : bool := if digit base c is Some _ then true else false.
Definition is_word (c : ascii) : bool := negb (isspace c).

Lemma digit_char_ok base d : 0 <= d < base → base <= 16 → digit base (digit_char d) = Some d ∧ is_word (digit_char d) = true.
Proof.
  intros Hd Hb.
  assert (forallb (λ d, forallb (λ b, implb (d <? b) (bool_decide (digit b (digit_char d) = Some d) && is_word (digit_char d)))
    (seqZ 0 17)) (seqZ 0 16) = true) as Hall by (vm_compute; reflexivity).
  rewrite forallb_forall in Hall. specialize (Hall d). rewrite forallb_forall in Hall.
  specialize (Hall ltac:(apply list_elem_of_In, elem_of_seqZ; lia) base ltac:(apply list_elem_of_In, elem_of_seqZ; lia)).
  replace (d <? base) with true in Hall by lia. cbn [implb] in Hall. apply andb_true_iff in Hall as [H1 H2].
  by apply bool_decide_eq_true in H1.
Qed.

Lemma number_snoc base ds c : number base (ds ++ [c]) = base * number base ds + default 0 (digit base c).
Proof. unfold number. by rewrite foldl_app. Qed.

Section digits.
Context (base : Z) (Hb : 2 <= base <= 16).

Lemma digits_ok fuel v :
  0 <= v < base ^ Z.of_nat fuel → (0 < fuel)%nat →
  number base (digits fuel base v) = v ∧ Forall (λ c, is_digit base c = true ∧ is_word c = true) (digits fuel base v).
Proof.
  revert v. induction fuel as [|fuel IH]; intros v Hv Hf; [lia|]. cbn [digits].
  assert (0 <= v `mod` base < base) as Hm by (apply Z.mod_pos_bound; lia).
  destruct (digit_char_ok base (v `mod` base) Hm ltac:(lia)) as [Hd Hw].
  rewrite number_snoc, Forall_app, Forall_singleton. unfold is_digit at 2. rewrite Hd. cbn [default from_option id].
  destruct (Z.ltb_spec v base) as [Hlt|Hge].
  - split; [|split; [constructor|done]]. change (number base []) with 0. rewrite Z.mod_small by lia. lia.
  - rewrite Nat2Z.inj_succ, Z.pow_succ_r in Hv by lia.
    assert (fuel ≠ 0%nat) by (intros ->; cbn in Hv; lia).
    destruct (IH (v / base)) as [IH1 IH2]; [|lia|].
    { split; [apply Z.div_pos; lia|apply Z.div_lt_upper_bound; lia]. }
    rewrite IH1. split; [|by split]. pose proof (Z.div_mod v base). lia.
Qed.

Lemma number_zeros k ds : number base (replicate k (digit_char 0) ++ ds) = number base ds.
Proof.
  unfold number. rewrite foldl_app. f_equal. induction k as [|k IH]; [done|].
  rewrite replicate_S_end, foldl_app. cbn. rewrite IH. destruct (digit_char_ok base 0 ltac:(lia) ltac:(lia)) as [-> _]. cbn. lia.
Qed.

Lemma print_number_ok width v :
  0 <= v < 2 ^ 64 → number base (print_number base width v) = v ∧
  Forall (λ c, is_digit base c = true ∧ is_word c = true) (print_number base width v) ∧ print_number base width v ≠ [].
Proof.
  intros Hv. destruct (digits_ok 64 v) as [Hn Hall]; [|lia|].
  { split; [lia|]. eapply Z.lt_le_trans; [apply Hv|]. apply Z.pow_le_mono_l. lia. }
  unfold print_number. split; [by rewrite number_zeros|]. split.
  - apply Forall_app. split; [|done]. apply Forall_replicate.
    destruct (digit_char_ok base 0 ltac:(lia) ltac:(lia)) as [Hd Hw]. unfold is_digit. by rewrite Hd.
  - intros [_ E]%app_nil. cbn [digits] in E. by destruct (app_cons_not_nil _ [] (digit_char (v `mod` base)) (eq_sym E)).
Qed.
End digits.

(** ** Reading what was printed *)
Lemma take_while_app p l r : Forall (λ c, p c = true) l → (∀ c, head r = Some c → p c = false) → take_while p (l ++ r) = (l, r).
Proof.
  intros Hl Hr. induction Hl as [|c l Hc _ IH]; cbn.
  - destruct r as [|c r]; [done|]. cbn. by rewrite Hr.
  - by rewrite Hc, IH.
Qed.

Lemma read_while_app p l r e :
  Forall (λ c, p c = true) l → (∀ c, head r = Some c → p c = false) → r ≠ [] →
  read_while p {| rest := l ++ r; eof := e |} = (l, {| rest := r; eof := e |}).
Proof.
  intros Hl Hr Hne. unfold read_while. cbn [rest eof]. rewrite take_while_app by done.
  destruct r; [done|]. by rewrite orb_false_r.
Qed.

Lemma scan_space_app k r e :
  (∀ c, head r = Some c → isspace c = false) → r ≠ [] →
  scan_space {| rest := replicate k " "%char ++ r; eof := e |} = {| rest := r; eof := e |}.
Proof.
  intros Hr Hne. unfold scan_space. rewrite read_while_app; [done| |done|done]. by apply Forall_replicate.
Qed.

Lemma head_app_Some {A} (l r : list A) c : l ≠ [] → head (l ++ r) = Some c → c ∈ l.
Proof. destruct l; [done|]. intros _ [= ->]. by left. Qed.

Lemma scan_number_print base width v c r e max :
  2 <= base <= 16 → 0 <= v < 2 ^ 64 → is_digit base c = false →
  scan_number base max {| rest := print_number base width v ++ c :: r; eof := e |} =
  (Some (Z.min v max), {| rest := c :: r; eof := e |}).
Proof.
  intros Hb Hv Hc. destruct (print_number_ok base Hb width v Hv) as (Hn & Hall & Hne).
  set (ds := print_number base width v) in *. unfold scan_number.
  rewrite (scan_space_app 0 (ds ++ c :: r)).
  - rewrite read_while_app; [|eapply Forall_impl; [exact Hall|]; by intros d [? _]|by intros d [= <-]|done].
    rewrite <- Hn. by destruct ds.
  - intros d Hd%head_app_Some; [|done]. rewrite Forall_forall in Hall. destruct (Hall d Hd) as [_ Hw].
    unfold is_word in Hw. by apply negb_true_iff.
  - by destruct ds.
Qed.

Lemma scan_word_print w c r e :
  Forall (λ c, is_word c = true) w → w ≠ [] → is_word c = false →
  scan_word {| rest := w ++ c :: r; eof := e |} = (Some w, {| rest := c :: r; eof := e |}).
Proof.
  intros Hw Hne Hc. unfold scan_word. rewrite (scan_space_app 0 (w ++ c :: r)).
  - rewrite read_while_app; [by destruct w|done|by intros d [= <-]|done].
  - intros d Hd%head_app_Some; [|done]. rewrite Forall_forall in Hw. specialize (Hw d Hd). unfold is_word in Hw. by apply negb_true_iff.
  - by destruct w.
Qed.

Lemma scan_skip_blank r e c : head r = Some c → isspace c = false →
  scan_skip {| rest := " "%char :: r; eof := e |} = (Some tt, {| rest := r; eof := e |}).
Proof.
  intros Hr Hc. unfold scan_skip. f_equal. apply (scan_space_app 1 r); [intros d; rewrite Hr; by intros [= <-]|by destruct r].
Qed.

(** The lines that the kernel prints and the buffers hold. *)
Record mapline_ok (m : mapline_t) : Prop := {
  mo_ranges : 0 <= m.(range_begin) < 2 ^ 64 ∧ 0 <= m.(range_end) < 2 ^ 64 ∧ 0 <= m.(f1) < 2 ^ 64;
  mo_device : 0 <= m.(f2) < 2 ^ 32 ∧ 0 <= m.(f3) < 2 ^ 32 ∧ 0 <= m.(f4) < 2 ^ 32;
  mo_bits : zlen m.(bits) = 4 ∧ Forall (λ c, is_word c = true) m.(bits);
  mo_location : m.(location) = [] ∨ ∃ c w, m.(location) = c :: w ∧ w ≠ [] ∧ zlen w < 255 ∧
    Forall (λ c, is_word c = true) (c :: w) ∧ N_of_ascii c ≠ 255%N;
}.

(** What is left after a line: the white space after a location is skipped. *)
Definition after_line (m : mapline_t) (s : list ascii) : FILE :=
  match m.(location) with
  | [] => {| rest := s; eof := false |}
  | _ => scan_space {| rest := newline :: s; eof := false |}
  end.

Lemma digits_head_word base width v : 2 <= base <= 16 → 0 <= v < 2 ^ 64 →
  ∃ c t, print_number base width v = c :: t ∧ is_word c = true.
Proof.
  intros Hb Hv. destruct (print_number_ok base Hb width v Hv) as (_ & Hall & Hne).
  destruct (print_number base width v) as [|c t]; [done|]. exists c, t. split; [done|]. by apply Forall_cons in Hall as [[_ ?] _].
Qed.

Lemma scan_skip_before_number base width v r e :
  2 <= base <= 16 → 0 <= v < 2 ^ 64 →
  scan_skip {| rest := " "%char :: print_number base width v ++ r; eof := e |} =
  (Some tt, {| rest := print_number base width v ++ r; eof := e |}).
Proof.
  intros Hb Hv. destruct (digits_head_word base width v Hb Hv) as (c & t & E & Hc).
  apply (scan_skip_blank _ _ c); [by rewrite E|]. unfold is_word in Hc. by apply negb_true_iff.
Qed.

Lemma scan_front_print m r :
  mapline_ok m → (∀ c, head r = Some c → is_word c = false) → r ≠ [] →
  scan_front {| rest := print_number 16 8 m.(range_begin) ++ "-"%char :: print_number 16 8 m.(range_end) ++
                        " "%char :: m.(bits) ++ r; eof := false |} =
  (Some (m.(range_begin), m.(range_end), m.(bits)), {| rest := r; eof := false |}).
Proof.
  intros [(Hb & He & H1) _ [Hlen Hbits] _] Hr Hrn. unfold scan_front.
  assert (m.(bits) ≠ []) as Hne by (intros E; by rewrite E in Hlen).
  unfold scan_bind at 1. rewrite scan_number_print by (done || lia).
  unfold scan_bind at 1. unfold scan_char at 1. cbn [rest eof]. rewrite Ascii.eqb_refl.
  unfold scan_bind at 1. rewrite scan_number_print by (done || lia).
  unfold scan_bind at 1.
  assert (∃ c t, m.(bits) = c :: t ∧ isspace c = false) as (bc & bt & Ebits & Hbc).
  { destruct (bits m) as [|c t]; [done|]. exists c, t. split; [done|]. apply Forall_cons in Hbits as [Hc _].
    unfold is_word in Hc. by apply negb_true_iff. }
  rewrite (scan_skip_blank _ _ bc) by (first [by rewrite Ebits|done]).
  destruct r as [|rc r]; [done|]. specialize (Hr rc eq_refl).
  unfold scan_bind at 1. rewrite scan_word_print by done.
  unfold scan_done, ULLONG_MAX. rewrite !Z.min_l by lia. done.
Qed.

Lemma print_line_front pad m s : ∃ r, head r = Some " "%char ∧
  print_line pad m ++ s = print_number 16 8 m.(range_begin) ++ "-"%char :: print_number 16 8 m.(range_end) ++
                          " "%char :: m.(bits) ++ r ∧
  r = " "%char :: print_number 16 8 m.(f1) ++ " "%char :: print_number 16 2 m.(f2) ++ ":"%char ::
      print_number 16 2 m.(f3) ++ " "%char :: print_number 10 1 m.(f4) ++ " "%char :: replicate pad " "%char ++ m.(location) ++ s.
Proof.
  eexists. split; [|split; [|reflexivity]]; [done|]. unfold print_line.
  repeat first [rewrite <- app_assoc | rewrite <- app_comm_cons]. done.
Qed.

Lemma bits_overflow_print pad m s :
  mapline_ok m → bits_overflow {| rest := print_line pad m ++ s; eof := false |} = false.
Proof.
  intros Hm. destruct (print_line_front pad m s) as (r & Hr & -> & _). unfold bits_overflow.
  rewrite scan_front_print; [|done|by rewrite Hr; intros c [= <-]|by intros ->]. cbn [snd].
  destruct (mo_bits _ Hm) as [-> _]. done.
Qed.

Lemma scan_mapline_print pad m s :
  mapline_ok m →
  scan_mapline {| rest := print_line pad m ++ s; eof := false |} =
  (Some {| range_begin := m.(range_begin); range_end := m.(range_end); bits := m.(bits); f1 := m.(f1);
           f2 := m.(f2); f3 := m.(f3); f4 := m.(f4); location := [] |},
   {| rest := " "%char :: replicate pad " "%char ++ m.(location) ++ s; eof := false |}).
Proof.
  intros Hm. pose proof Hm as [(Hb & He & H1) (H2 & H3 & H4) [Hlen Hbits] _].
  destruct (print_line_front pad m s) as (r & Hr & -> & Er). unfold scan_mapline.
  unfold scan_bind at 1. rewrite scan_front_print; [|done|by rewrite Hr; intros c [= <-]|by intros ->].
  rewrite Er. clear r Hr Er. cbn [fst snd].
  unfold scan_bind at 1. rewrite scan_skip_before_number by lia.
  unfold scan_bind at 1. rewrite scan_number_print by (done || lia).
  unfold scan_bind at 1. rewrite scan_skip_before_number by lia.
  unfold scan_bind at 1. rewrite scan_number_print by (done || lia).
  unfold scan_bind at 1. unfold scan_char at 1. cbn [rest eof]. rewrite Ascii.eqb_refl.
  unfold scan_bind at 1. rewrite scan_number_print by (done || lia).
  unfold scan_bind at 1. rewrite scan_skip_before_number by lia.
  unfold scan_bind at 1. rewrite scan_number_print by (done || lia).
  unfold scan_done, ULLONG_MAX, LONG_MAX, u32. rewrite !Z.min_l by lia. rewrite !Z.mod_small by lia. done.
Qed.

Section reading.
Context `{Build}.

Lemma skip_blanks_app k c r :
  c ≠ " "%char → skip_blanks {| rest := replicate k " "%char ++ c :: r; eof := false |} = (Some c, {| rest := r; eof := false |}).
Proof.
  intros Hc. unfold skip_blanks. rewrite read_while_app; [done| | |done].
  - apply Forall_replicate. apply Ascii.eqb_refl.
  - intros d [= <-]. apply Ascii.eqb_neq. congruence.
Qed.

(** A line that ends with a location: what separates it from the next line
    can be any white space. *)
Lemma read_mapline_location pad m sep s :
  mapline_ok m → m.(location) ≠ [] → isspace sep = true →
  read_mapline {| rest := print_line pad m ++ sep :: s; eof := false |} =
  Ret (Some m, scan_space {| rest := sep :: s; eof := false |}).
Proof.
  intros Hm Hl Hsep. pose proof (scan_mapline_print pad m (sep :: s) Hm) as Hscan.
  pose proof (bits_overflow_print pad m (sep :: s) Hm) as Hbo. destruct Hm as [_ _ [Hlen _] Hloc].
  unfold read_mapline. cbn [eof]. rewrite Hbo, Hscan. cbn iota.
  change (" "%char :: replicate pad " "%char ++ location m ++ sep :: s) with
    (replicate (S pad) " "%char ++ location m ++ sep :: s).
  destruct Hloc as [E|(c & w & E & Hne & Hw & Hword & Hc)]; [done|]. rewrite E.
  apply Forall_cons in Hword as [Hcw Hww]. cbn [app]. rewrite skip_blanks_app by (by intros ->).
  assert (is_EOF (Some c) || Ascii.eqb c newline = false) as ->.
  { apply orb_false_iff. split; [by apply N.eqb_neq|]. apply Ascii.eqb_neq. by intros ->. }
  rewrite scan_word_print by (done || (unfold is_word; by rewrite Hsep)).
  replace (MAPLINE_LOCATION_SIZE - 1 <=? zlen w) with false by (unfold MAPLINE_LOCATION_SIZE; lia).
  cbn [option_list app]. destruct m. cbn in E |- *. by subst.
Qed.

Lemma read_mapline_ok pad m s :
  mapline_ok m → read_mapline {| rest := print_mapline pad m ++ s; eof := false |} = Ret (Some m, after_line m s).
Proof.
  intros Hm. unfold print_mapline. rewrite <- app_assoc. cbn [app].
  destruct (decide (m.(location) = [])) as [E|E].
  - pose proof (scan_mapline_print pad m (newline :: s) Hm) as Hscan.
    pose proof (bits_overflow_print pad m (newline :: s) Hm) as Hbo. destruct Hm as [_ _ [Hlen _] _].
    unfold read_mapline. cbn [eof]. rewrite Hbo, Hscan. cbn iota.
    rewrite E. cbn [app]. change (" "%char :: replicate pad " "%char ++ newline :: s) with
      (replicate (S pad) " "%char ++ newline :: s). rewrite skip_blanks_app by done.
    unfold after_line. rewrite E. cbn. destruct m. cbn in E |- *. by subst.
  - rewrite read_mapline_location by done. unfold after_line. by destruct (location m).
Qed.

(** ** Looking an address up *)
Definition in_line (addr : Z) (m : mapline_t) : bool := (addr >? m.(range_begin)) && (addr <? m.(range_end)).
Definition line_range (m : mapline_t) : mem_range_t := {| low := m.(range_begin); high := m.(range_end) |}.

Definition print_map (lines : list (nat * mapline_t)) : list ascii :=
  concat ((λ l, print_mapline l.1 l.2) <$> lines).

Lemma print_map_head l lines : mapline_ok l.2 → ∃ c t, print_map (l :: lines) = c :: t ∧ isspace c = false.
Proof.
  intros [(Hb & _) _ _ _]. destruct (digits_head_word 16 8 (range_begin l.2) ltac:(lia) Hb) as (c & t & E & Hc).
  unfold print_map, print_mapline, print_line. cbn [fmap list_fmap concat]. rewrite E. cbn [app].
  eexists c, _. split; [done|]. unfold is_word in Hc. by apply negb_true_iff.
Qed.

Lemma scan_space_word s e c t : s = c :: t → isspace c = false → scan_space {| rest := s; eof := e |} = {| rest := s; eof := e |}.
Proof. intros -> Hc. apply (scan_space_app 0 (c :: t)); [by intros d [= <-]|done]. Qed.

Lemma scan_space_one sep s c t : isspace sep = true → s = c :: t → isspace c = false →
  scan_space {| rest := sep :: s; eof := false |} = {| rest := s; eof := false |}.
Proof.
  intros Hsep -> Hc. unfold scan_space. change (sep :: c :: t) with ([sep] ++ c :: t).
  rewrite read_while_app; [done|by constructor|by intros d [= <-]|done].
Qed.

(** A line that does not start with a number ends the process. *)
Lemma read_mapline_no_number c s :
  isspace c = false → is_digit 16 c = false → read_mapline {| rest := c :: s; eof := false |} = threadscan_fatal.
Proof.
  intros Hc Hd.
  assert (∃ f, scan_front {| rest := c :: s; eof := false |} = (None, f)) as [f Hf].
  { unfold scan_front, scan_bind at 1, scan_number. rewrite (scan_space_word _ _ c s) by done.
    unfold read_while. cbn [rest take_while]. unfold is_digit in Hd. destruct (digit 16 c); [done|]. by eexists. }
  unfold read_mapline, bits_overflow, scan_mapline, scan_bind at 1. cbn [eof]. by rewrite Hf.
Qed.

Lemma find_range_step fuel addr f m f' :
  read_mapline f = Ret (Some m, f') →
  find_range (S fuel) addr f = if in_line addr m then Ret (line_range m) else find_range fuel addr f'.
Proof. intros E. cbn [find_range]. by rewrite E. Qed.

(** The lines before the one that holds the address are passed. *)
Lemma find_range_pass fuel addr lines s c t :
  Forall (λ l, mapline_ok l.2 ∧ in_line addr l.2 = false) lines → s = c :: t → isspace c = false →
  find_range (length lines + fuel) addr {| rest := print_map lines ++ s; eof := false |} =
  find_range fuel addr {| rest := s; eof := false |}.
Proof.
  intros Hall Es Hc. induction Hall as [|l lines [Hok Hin] Hall IH]; [done|].
  unfold print_map. cbn [fmap list_fmap concat length Nat.add]. rewrite <- app_assoc. fold (print_map lines).
  rewrite (find_range_step _ _ _ l.2 _ (read_mapline_ok l.1 l.2 _ Hok)), Hin, <- IH.
  f_equal. unfold after_line. destruct (location l.2); [done|].
  assert (∃ c' t', print_map lines ++ s = c' :: t' ∧ isspace c' = false) as (c' & t' & E & Hc').
  { destruct lines as [|l' lines]; [by exists c, t|]. apply Forall_cons in Hall as [[Hok' _] _].
    destruct (print_map_head l' lines Hok') as (c' & t' & E & Hc'). exists c', (t' ++ s). by rewrite E. }
  by apply (scan_space_one _ _ c' t').
Qed.

Lemma print_map_length lines : Forall (λ l, mapline_ok l.2) lines → (length lines <= length (print_map lines))%nat.
Proof.
  intros Hall. induction Hall as [|l lines Hok Hall IH]; [done|]. unfold print_map. cbn [fmap list_fmap concat length].
  fold (print_map lines). rewrite length_app. unfold print_mapline. rewrite length_app. cbn [length]. lia.
Qed.

(** C33. A line that the kernel prints, with numbers that fit and a location
    that is absent or a word, is read back as it was; the next read starts at
    the next line, and the end of the file is noticed after a location. *)
Theorem read_mapline_roundtrip pad m lines :
  mapline_ok m → Forall (λ l, mapline_ok l.2) lines →
  read_mapline {| rest := print_map ((pad, m) :: lines); eof := false |} =
  Ret (Some m, {| rest := print_map lines;
                  eof := match lines, m.(location) with [], _ :: _ => true | _, _ => false end |}).
Proof.
  intros Hm Hall. unfold print_map. cbn [fmap list_fmap concat fst snd]. fold (print_map lines).
  rewrite read_mapline_ok by done. do 2 f_equal. unfold after_line. destruct (location m) as [|lc lw]; [by destruct lines|].
  destruct lines as [|l lines]; [done|]. apply Forall_cons in Hall as [Hl _].
  destruct (print_map_head l lines Hl) as (c' & t' & E & Hc'). by apply (scan_space_one _ _ c' t').
Qed.

(** What the search finds in a map. *)
Definition map_result (lines : list mapline_t) (addr : Z) : outcome mem_range_t :=
  match List.find (in_line addr) lines with
  | Some m => Ret (line_range m)
  | None =>
      match list.last lines with
      | Some {| location := _ :: _ |} => Ret {| low := 0; high := 0 |}
      | _ => threadscan_fatal
      end
  end.

Lemma find_none_forall addr (lines : list (nat * mapline_t)) :
  Forall (λ l, mapline_ok l.2) lines → List.find (in_line addr) lines.*2 = None →
  Forall (λ l, mapline_ok l.2 ∧ in_line addr l.2 = false) lines.
Proof.
  intros Hall Hf. apply Forall_forall. intros l Hl. rewrite Forall_forall in Hall. split; [by apply Hall|].
  apply (find_none _ _ Hf), list_elem_of_In. by apply list_elem_of_fmap_2.
Qed.

(** The first match splits the list. *)
Lemma find_some_split addr (lines : list (nat * mapline_t)) m :
  List.find (in_line addr) lines.*2 = Some m →
  ∃ l1 l l2, lines = l1 ++ l :: l2 ∧ l.2 = m ∧ in_line addr m = true ∧ List.find (in_line addr) l1.*2 = None.
Proof.
  induction lines as [|l lines IH]; [done|]. cbn. destruct (in_line addr l.2) eqn:E.
  - intros [= <-]. by exists [], l, lines.
  - intros (l1 & l' & l2 & -> & ? & ? & ?)%IH. exists (l :: l1), l', l2. cbn. by rewrite E.
Qed.

(** C32. For the memory map that the kernel prints, [threadscan_proc_stack_from_addr]
    returns the range of the first line that holds the address, bounds
    excluded.  Without such a line the range is empty when the last line has
    a location; otherwise the end of the file is not noticed in time and the
    process ends. *)
Theorem stack_from_addr_spec lines addr :
  Forall (λ l, mapline_ok l.2) lines → 0 < addr →
  threadscan_proc_stack_from_addr (Some (print_map lines)) addr = map_result lines.*2 addr.
Proof.
  intros Hall Ha. pose proof (print_map_length lines Hall) as Hlen.
  unfold threadscan_proc_stack_from_addr, map_result. rewrite c_assert_true by lia. cbn [mbind outcome_bind].
  set (n := length (print_map lines)) in *. destruct (List.find _ _) as [m|] eqn:E.
  - destruct (find_some_split _ _ _ E) as (l1 & l & l2 & -> & <- & Hin & Hl1).
    apply Forall_app in Hall as [H1 [Hl H2]%Forall_cons]. destruct (print_map_head l l2 Hl) as (c & t & Ec & Hc).
    assert (print_map (l1 ++ l :: l2) = print_map l1 ++ print_map (l :: l2)) as ->.
    { unfold print_map. by rewrite fmap_app, concat_app. }
    rewrite length_app in Hlen. cbn in Hlen. replace (S (S n)) with (length l1 + S (S (n - length l1)))%nat by lia.
    rewrite (find_range_pass _ _ _ _ c t) by (done || by apply find_none_forall).
    unfold print_map. cbn [fmap list_fmap concat]. fold (print_map l2).
    by rewrite (find_range_step _ _ _ l.2 _ (read_mapline_ok l.1 l.2 _ Hl)), Hin.
  - destruct (snoc_cases lines) as [->|(l1 & l & ->)].
    { cbn. by unfold threadscan_fatal; destruct debug. }
    rewrite fmap_app. cbn [fmap list_fmap]. rewrite last_snoc.
    pose proof (find_none_forall _ _ Hall E) as Hnone. apply Forall_app in Hnone as [H1 [[Hl Hin] _]%Forall_cons].
    destruct (print_map_head l [] Hl) as (c & t & Ec & Hc).
    assert (print_map (l1 ++ [l]) = print_map l1 ++ print_map [l]) as ->.
    { unfold print_map. by rewrite fmap_app, concat_app. }
    rewrite length_app in Hlen. cbn in Hlen. replace (S (S n)) with (length l1 + S (S (n - length l1)))%nat by lia.
    rewrite (find_range_pass _ _ _ _ c t) by done. unfold print_map. cbn [fmap list_fmap concat].
    rewrite (find_range_step _ _ _ l.2 _ (read_mapline_ok l.1 l.2 _ Hl)), Hin.
    unfold after_line. destruct l.2 as [??????? [|]]; cbn; [by unfold threadscan_fatal; destruct debug|done].
Qed.

(** C39. A location with a blank in it, such as that of a deleted file, ends the
    process when the line is passed: [%s] stops at the blank, the next call
    starts in the middle of the line and finds no number there. *)
Theorem stack_from_addr_blank_location lines pad m c s addr :
  Forall (λ l, mapline_ok l.2 ∧ in_line addr l.2 = false) (lines ++ [(pad, m)]) → m.(location) ≠ [] →
  isspace c = false → is_digit 16 c = false → 0 < addr →
  threadscan_proc_stack_from_addr (Some (print_map lines ++ print_line pad m ++ " "%char :: c :: s)) addr = threadscan_fatal.
Proof.
  intros [Hall [[Hm Hin] _]%Forall_cons]%Forall_app Hloc Hc Hd Ha. cbn [snd] in *.
  assert (length lines <= length (print_map lines))%nat as Hlen.
  { apply print_map_length. eapply Forall_impl; [exact Hall|]. by intros l [? _]. }
  unfold threadscan_proc_stack_from_addr. rewrite c_assert_true by lia. cbn [mbind outcome_bind].
  destruct (digits_head_word 16 8 (range_begin m) ltac:(lia)) as (b & t & E & Hb); [by apply (mo_ranges _ Hm)|].
  set (line := print_line pad m ++ " "%char :: c :: s).
  assert (∃ t', line = b :: t') as [t' Eline] by (unfold line, print_line; rewrite E; cbn [app]; by eexists).
  assert (length (print_map lines ++ line) >= length lines)%nat by (rewrite length_app; lia).
  replace (S (S (length (print_map lines ++ line)))) with
    (length lines + S (S (length (print_map lines ++ line) - length lines)))%nat by lia.
  rewrite (find_range_pass _ _ _ _ b t') by (done || by apply negb_true_iff).
  unfold line at 2. rewrite (find_range_step _ _ _ m _ (read_mapline_location pad m " "%char _ Hm Hloc eq_refl)), Hin.
  rewrite (scan_space_one _ _ c s) by done. cbn [find_range]. rewrite (read_mapline_no_number c s) by done.
  by unfold threadscan_fatal; destruct debug.
Qed.
End reading.

(** ** Examples *)
Section examples.
#[local] Existing Instance release_build.

Abbreviation text := String.list_ascii_of_string.

Definition ex_line (b e : Z) (loc : list ascii) : mapline_t :=
  {| range_begin := b; range_end := e; bits := text "rw-p"; f1 := 0; f2 := 8; f3 := 1; f4 := 52;
     location := loc |}.

Lemma ex_line_ok b e loc : 0 <= b < 2 ^ 64 → 0 <= e < 2 ^ 64 →
  match loc with
  | [] => true
  | c :: w => (1 <=? zlen w) && (zlen w <? 255) && forallb is_word (c :: w) && negb (N.eqb (N_of_ascii c) 255)
  end = true → mapline_ok (ex_line b e loc).
Proof.
  intros Hb He Hloc. split; cbn [ex_line range_begin range_end f1 f2 f3 f4 bits location].
  - lia.
  - lia.
  - split; [done|]. by repeat constructor.
  - destruct loc as [|c w]; [by left|]. right. exists c, w.
    rewrite !andb_true_iff in Hloc. destruct Hloc as [[[H1 H2] H3] H4]. split; [done|].
    split; [by intros ->|]. split; [lia|]. split; [|by apply N.eqb_neq, negb_true_iff].
    apply Forall_forall. intros d Hd. rewrite forallb_forall in H3. by apply H3, list_elem_of_In.
Qed.

Definition ex_lines : list (nat * mapline_t) :=
  [(20%nat, ex_line 0x400000 0x452000 (text "/usr/bin/app")); (0%nat, ex_line 0xe24000 0xe45000 []);
   (19%nat, ex_line 0x7ffd1000 0x7ffd4000 (text "[stack]"))].

Lemma ex_lines_ok : Forall (λ l, mapline_ok l.2) ex_lines.
Proof.
  repeat (apply Forall_cons; split; [apply ex_line_ok; first [lia|reflexivity]|]). by apply Forall_nil.
Qed.

Lemma read_mapline_roundtrip_witness :
  read_mapline {| rest := print_map ex_lines; eof := false |} =
  Ret (Some (ex_line 0x400000 0x452000 (text "/usr/bin/app")), {| rest := print_map (tail ex_lines); eof := false |}).
Proof.
  pose proof ex_lines_ok as Hall. apply Forall_cons in Hall as [Hm Hall].
  exact (read_mapline_roundtrip 20 _ _ Hm Hall).
Defined.

Lemma stack_from_addr_spec_witness :
  threadscan_proc_stack_from_addr (Some (print_map ex_lines)) 0x7ffd2345 = Ret {| low := 0x7ffd1000; high := 0x7ffd4000 |}.
Proof. rewrite (stack_from_addr_spec ex_lines 0x7ffd2345 ex_lines_ok); reflexivity. Defined.

Lemma stack_from_addr_blank_location_witness :
  threadscan_proc_stack_from_addr (Some (print_map [(0%nat, ex_line 0xe24000 0xe45000 [])] ++
    print_line 20 (ex_line 0x7f0010 0x7f0020 (text "/tmp/buffer")) ++
    text " (deleted)" ++ newline :: print_map ex_lines)) 0x7ffd2345 = Exited 1.
Proof.
  apply (stack_from_addr_blank_location (H := release_build) [(0%nat, ex_line 0xe24000 0xe45000 [])] 20
    (ex_line 0x7f0010 0x7f0020 (text "/tmp/buffer")) "("%char (text "deleted)" ++ newline :: print_map ex_lines)).
  - cbn [app]. repeat (apply Forall_cons; split; [split; [apply ex_line_ok; first [lia|reflexivity]|reflexivity]|]). by apply Forall_nil.
  - discriminate.
  - reflexivity.
  - reflexivity.
  - lia.
Defined.
End examples.
