(* ===== verification/Wrappers.v ===== *)
(** * wrappers.c: the functions that take the place of libpthread's

    The library is the original: [orig_pthread_create] and
    [orig_pthread_join] give the error codes, and the attribute functions are
    parameters too.  A thread is created by one call, starts in
    [threadscan_thread_base], ends in [pthread_exit] and is joined; each of
    these is an event, and events of different threads come in any order. *)

From S2P Require Import Prelude Conc Ghost Mem Env ThreadList Thread AllocIface ThreadData Proc.

(** libpthread's attribute objects. *)
Class PthreadAttr (attr_t : Type) := {
  pthread_attr_init : Z * attr_t;
  pthread_attr_getstack : attr_t → Z * (Z * Z); (* error code, address, size *)
  pthread_attr_setstack : attr_t → Z → Z → Z * attr_t;
}.

(** [main_args_t] *)
Definition main_args_argc (args : Z) : Z := args.
Definition main_args_argv (args : Z) : Z := args + 8.
Definition main_args_env (args : Z) : Z := args + 16.

Section code.
Context `{Build} {AS : Type} `{!Allocator AS} {attr_t : Type} `{!PthreadAttr attr_t}.
Context (v : statics_t) (g_threadscan_ptrs_per_thread : Z).
Context (orig_pthread_create : attr_t → Z → Z) (orig_pthread_join : Z → Z).
Notation step := (step AS).

(** [real_attr] *)
Definition attr_of (attr : option attr_t) : outcome attr_t :=
  match attr with
  | None => let '(ret, a) := pthread_attr_init in if negb (ret =? 0) then threadscan_fatal else Ret a
  | Some a => Ret a
  end.

(** The stack: the user's, or one of our own. *)
Definition stack_of (td : Z) (real_attr : attr_t) : step (attr_t * (Z * Z)) :=
  let '(ret, (stack, stacksize)) := pthread_attr_getstack real_attr in
  if negb (ret =? 0) then lifted threadscan_fatal
  else if stack =? 0 then
    _ ← lifted (c_assert (STACK_SIZE `mod` PAGESIZE =? 0));
    stack ← threadscan_alloc_mmap STACK_SIZE (λ _, []);
    let '(ret, real_attr) := pthread_attr_setstack real_attr stack STACK_SIZE in
    if negb (ret =? 0) then lifted threadscan_fatal
    else
      _ ← in_memory (wr (td_stack_is_ours td) 1);
      mret (real_attr, (stack, STACK_SIZE))
  else mret (real_attr, (stack, stacksize)).

(** The clean-up after a creation that failed. *)
Definition discard (td stack : Z) : step unit :=
  ours ← in_memory (rd (td_stack_is_ours td));
  _ ← (if negb (ours =? 0) then threadscan_alloc_munmap stack else mret tt);
  threadscan_util_thread_data_free td.

(** [pthread_create] up to the call of the library: the metadata, the
    attributes and the stack. *)
Definition hook_thread (attr : option attr_t) (start_routine arg : Z) : step (Z * (attr_t * Z)) :=
  n ← in_memory (sync_fetch_and_add v.(g_thread_count) 1);
  if MAX_THREAD_COUNT <? n then lifted threadscan_fatal
  else
    td ← threadscan_util_thread_data_new g_threadscan_ptrs_per_thread;
    if td =? 0 then lifted threadscan_fatal
    else
      _ ← in_memory (
        _ ← wr (td_user_routine td) start_routine;
        _ ← wr (td_user_arg td) arg;
        wr (td_is_active td) 0);
      real_attr ← lifted (attr_of attr);
      '(real_attr, (stack, stacksize)) ← stack_of td real_attr;
      _ ← in_memory (
        _ ← wr (td_user_stack_low td) stack;
        _ ← wr (td_user_stack_high td) (u64 (stack + stacksize));
        threadscan_proc_add_thread_data v td);
      mret (td, (real_attr, stack)).

Definition pthread_create (attr : option attr_t) (start_routine arg : Z) : step Z :=
  '(td, (real_attr, stack)) ← hook_thread attr start_routine arg;
  let ret := orig_pthread_create real_attr td in
  _ ← (if negb (ret =? 0) then discard td stack else mret tt);
  mret ret.

(** Up to [orig_pthread_exit], which does not return. *)
Definition pthread_exit (td : Z) : step unit :=
  in_memory (
    _ ← threadscan_thread_cleanup v td;
    _ ← sync_fetch_and_sub v.(g_thread_count) 1;
    mret tt).

Definition pthread_join (tid : Z) : step Z :=
  let ret := orig_pthread_join tid in
  _ ← threadscan_util_thread_data_cleanup v tid;
  mret ret.

(** The main thread: [thunk] is the address of [main_thunk], [args] that of
    [main_args] on the stack, [here] that of [stack_data].  The result is what
    [threadscan_thread_base] calls. *)
Definition main_replacement (procmap : option (list Ascii.ascii)) (thunk args here sp self : Z)
    (argc argv env : Z) : step (Z * Z) :=
  td ← threadscan_util_thread_data_new g_threadscan_ptrs_per_thread;
  _ ← in_memory (
    _ ← wr (main_args_argc args) argc;
    _ ← wr (main_args_argv args) argv;
    wr (main_args_env args) env);
  if td =? 0 then lifted threadscan_fatal
  else
    _ ← in_memory (_ ← wr (td_user_routine td) thunk; wr (td_user_arg td) args);
    stack_data ← lifted (threadscan_proc_stack_from_addr procmap here);
    in_memory (
      _ ← wr (td_user_stack_low td) stack_data.(low);
      _ ← threadscan_proc_add_thread_data v td;
      threadscan_thread_base td sp self).

(** ** Events *)
Inductive event :=
| Create (attr : option attr_t) (start_routine arg : Z)
| Start (td sp self : Z)
| Exit (td : Z)
| Join (tid : Z).

Definition run_event (ev : event) : step Z :=
  match ev with
  | Create attr start_routine arg => pthread_create attr start_routine arg
  | Start td sp self => in_memory (_ ← threadscan_thread_base td sp self; mret 0)
  | Exit td => _ ← pthread_exit td; mret 0
  | Join tid => pthread_join tid
  end.

Fixpoint run_events (evs : list event) : step (list Z) :=
  match evs with
  | [] => mret []
  | ev :: evs' => r ← run_event ev; rs ← run_events evs'; mret (r :: rs)
  end.
End code.

(** ** Creation *)
Section creation.
Context `{Build} {AS : Type} `{!Allocator AS} {attr_t : Type} `{!PthreadAttr attr_t}.
Context (v : statics_t) (ptrs : Z).
Implicit Types st : process AS.
Notation qsz := (ptrs * sizeof_size_t).
Context (Hv : statics_ok v) (Hptrs : 0 < qsz < 2 ^ 63) (Hpages : qsz `mod` PAGESIZE = 0).

(** The counter is apart from everything else. *)
Lemma repr_count st R S F n n' :
  threads_repr v qsz st R S F n →
  threads_repr v qsz {| heap := st.(heap); memory := <[v.(g_thread_count) := n']> st.(memory) |} R S F n'.
Proof.
  intros Hr. pose proof Hr as [Ho [H1 (q & Hq & Hl) H3 H4 H5] (p & Hp & Hs) Hk Hc HR HS Hf].
  pose proof (statics_distinct v Hv) as Hd.
  assert (v.(g_thread_count) ∈ statics_list v) as Hin by (unfold statics_list; rewrite !elem_of_cons; tauto).
  assert (∀ t a, t ∈ R ++ S → a ∈ td_scalars (t_td t) → v.(g_thread_count) ≠ a) as Hne.
  { intros t a Ht Ha E. eapply (scalar_not_static v _ Hf (t_td t)); [|exact Ha|exact Hin|by symmetry].
    apply elem_of_app. left. by apply threads_blocks_in. }
  assert (∀ ts p, ts ⊆ R ++ S → tlist st.(memory) p (t_td <$> ts) →
    tlist (<[v.(g_thread_count) := n']> st.(memory)) p (t_td <$> ts)) as Htl.
  { intros ts p' Hts. apply tlist_insert. intros td (t & -> & Ht%Hts)%list_elem_of_fmap. apply (Hne t); [done|apply next_scalar]. }
  assert (∀ t ref, t ∈ R ++ S → td_fields st.(memory) t ref → td_fields (<[v.(g_thread_count) := n']> st.(memory)) t ref) as Hfld.
  { intros t ref Ht Hfld. eapply td_fields_ext; [| |exact Hfld].
    - intros a Ha _. apply lookup_insert_ne. by eapply Hne.
    - apply lookup_insert_is_Some'. right. apply (tf_mapped _ _ _ Hfld), next_scalar. }
  split; cbn [heap memory]; try done.
  - split; [rewrite lookup_insert_ne by (intuition congruence); done| |done|done|done].
    exists q. rewrite lookup_insert_ne by (intuition congruence). split; [done|]. apply Htl; [|done]. intros t Ht. apply elem_of_app. by left.
  - exists p. rewrite lookup_insert_ne by (intuition congruence). split; [done|]. apply Htl; [|done]. intros t Ht. apply elem_of_app. by right.
  - by rewrite lookup_insert_ne by (intuition congruence).
  - by rewrite lookup_insert_eq.
  - intros t Ht. apply Hfld; [apply elem_of_app; by left|by apply HR].
  - intros t Ht. apply Hfld; [apply elem_of_app; by right|by apply HS].
Qed.

Lemma counter_ok st R S F n d :
  threads_repr v qsz st R S F n → -1 <= d <= 1 → 0 <= n + d < INT_MAX →
  run (rmw v.(g_thread_count) (λ x, Some (int_of_u64 (x + d)))) st.(memory) = Ret (n, <[v.(g_thread_count) := n + d]> st.(memory)).
Proof.
  intros Hr Hd Hn. cbn. rewrite (tr_count _ _ _ _ _ _ _ Hr). cbn [of_option mbind outcome_bind].
  by rewrite int_of_u64_small by lia.
Qed.

(** Metadata that is in no list is written to. *)
Lemma held_write st R S F n td m' :
  threads_repr v qsz st R S F n → (td, PAGESIZE) ∈ F → same_except (td_scalars td) st.(memory) m' →
  threads_repr v qsz {| heap := st.(heap); memory := m' |} R S F n.
Proof. apply repr_scalars. Qed.

(** The stack that [attr] gives, and the sizes of the blocks of a thread. *)
Definition own_stack (attr : attr_t) : bool := (pthread_attr_getstack attr).2.1 =? 0.
Definition create_sizes (attr : attr_t) : list Z :=
  PAGESIZE :: qsz :: (if own_stack attr then [STACK_SIZE] else []).

(** The attribute functions succeed. *)
Record attr_usable (attr : option attr_t) (real_attr : attr_t) : Prop := {
  au_init : attr_of attr = Ret real_attr;
  au_get : (pthread_attr_getstack real_attr).1 = 0;
  au_set : ∀ stack, (pthread_attr_setstack real_attr stack STACK_SIZE).1 = 0;
}.

Definition real_attr_of (real_attr : attr_t) (stack : Z) : attr_t :=
  if own_stack real_attr then (pthread_attr_setstack real_attr stack STACK_SIZE).2 else real_attr.

Definition with_stack (t : thr) (stack : Z) (own : bool) : thr :=
  {| t_td := t.(t_td); t_queue := t.(t_queue); t_low := stack; t_own := own; t_self := t.(t_self);
     t_routine := t.(t_routine); t_arg := t.(t_arg) |}.

(** The stack is chosen; [t] is the thread so far. *)
Lemma stack_of_ok st R S F n attr real_attr t sizes :
  threads_repr v qsz st R S ((t.(t_td), PAGESIZE) :: (t.(t_queue), qsz) :: F) n → td_fields st.(memory) t 1 →
  t.(t_own) = false → attr_usable attr real_attr →
  can_serve (statics_list v) st.(heap) ((if own_stack real_attr then [STACK_SIZE] else []) ++ sizes) →
  wp (stack_of t.(t_td) real_attr st) (λ r, ∃ stack size,
    r.1 = (real_attr_of real_attr stack, (stack, size)) ∧
    threads_repr v qsz r.2 R S (thread_blocks qsz (with_stack t stack (own_stack real_attr)) ++ F) n ∧
    can_serve (statics_list v) r.2.(heap) sizes ∧
    td_fields r.2.(memory) (with_stack t t.(t_low) (own_stack real_attr)) 1).
Proof.
  intros Hr Hfld Hown [_ Hget Hset] Hserve. unfold stack_of, real_attr_of, own_stack in *.
  destruct (pthread_attr_getstack real_attr) as [ret [stack size]]. cbn [fst snd] in *. subst ret. cbn [Z.eqb negb].
  destruct (stack =? 0) eqn:E0.
  - apply wp_step_bind, (wp_lifted _ tt); [by apply c_assert_true|]. cbn [fst snd]. apply wp_step_bind.
    eapply wp_mono; [eapply (repr_mmap v qsz st R S _ n STACK_SIZE sizes (λ _, []));
      [exact Hr|unfold STACK_SIZE; lia|reflexivity|exact Hserve|by intros p a ?%elem_of_nil]|].
    intros [p st1] (Hr1 & Hp & Hm1 & Hserve1). cbn [fst snd] in *. specialize (Hset p).
    destruct (pthread_attr_setstack real_attr p STACK_SIZE) as [ret a] eqn:Es. cbn [fst snd] in *. subst ret. cbn [Z.eqb negb].
    assert (st1.(memory) = st.(memory)) as Em.
    { rewrite Hm1. unfold zeroed. cbn [fmap list_fmap list_to_map]. apply map_empty_union. }
    rewrite <- Em in Hfld. pose proof Hfld as [Hmap H2 H3 H4 H5 H6 H7 H8].
    apply wp_step_bind, wp_in_memory. rewrite run_wr by (apply Hmap; scalar). apply wp_ret. cbn [fst snd].
    apply wp_ret. cbn [fst snd heap memory]. exists p, STACK_SIZE. split; [by rewrite Es|]. split; [|split; [done|]].
    + apply (repr_perm v ptrs _ _ _ ((p, STACK_SIZE) :: (t_td t, PAGESIZE) :: (t_queue t, qsz) :: F)).
      * symmetry. apply (Permutation_app_swap_app [_; _] [_] F).
      * eapply held_write; [exact Hr1|right; by left|]. apply same_except_insert; [scalar|apply same_except_refl].
    + split; cbn; try (by lookup_simp queue_addr). intros b Hb. apply lookup_insert_is_Some'. right. by apply Hmap.
  - apply wp_ret. cbn [fst snd]. exists stack, size. split; [done|]. split; [exact Hr|]. split; [done|].
    unfold with_stack. rewrite <- Hown. by destruct t.
Qed.

(** The metadata, the stack and the list are ready for the library. *)
Lemma hook_thread_ok st R S F n attr real_attr start_routine arg :
  threads_repr v qsz st R S F n → attr_usable attr real_attr → 0 <= n <= MAX_THREAD_COUNT →
  (Datatypes.S (length R) < list_fuel)%nat → can_serve (statics_list v) st.(heap) (create_sizes real_attr) →
  wp (hook_thread v ptrs attr start_routine arg st) (λ r, ∃ t,
    r.1 = (t.(t_td), (real_attr_of real_attr t.(t_low), t.(t_low))) ∧ t.(t_own) = own_stack real_attr ∧
    t.(t_self) = 0 ∧ t.(t_routine) = start_routine ∧ t.(t_arg) = arg ∧
    threads_repr v qsz r.2 (t :: R) S F (n + 1)).
Proof.
  intros Hr Hattr Hn Hlen Hserve. unfold hook_thread. apply wp_step_bind, wp_in_memory.
  unfold sync_fetch_and_add. rewrite (counter_ok _ _ _ _ _ 1 Hr) by (unfold MAX_THREAD_COUNT, INT_MAX in *; lia).
  apply wp_ret. cbn [fst snd]. replace (MAX_THREAD_COUNT <? n) with false by lia.
  pose proof (repr_count _ _ _ _ _ (n + 1) Hr) as Hr1. apply wp_step_bind.
  eapply wp_mono; [apply (data_new_ok v ptrs Hptrs Hpages _ R S F (n + 1) (if own_stack real_attr then [STACK_SIZE] else [])); [exact Hr1|exact Hserve]|].
  intros [td st2] (q & Hr2 & Htd & Hserve2 & Hfld2 & _). cbn [fst snd] in *. replace (td =? 0) with false by lia.
  apply wp_step_bind, wp_in_memory. pose proof (tf_mapped _ _ _ Hfld2) as Hmap. cbn [new_thr t_td] in Hmap.
  do 2 run_scalar Hmap. rewrite run_wr by (mapped Hmap). apply wp_ret. cbn [fst snd].
  set (m3 := <[_ := _]> (<[_ := _]> _)).
  set (t3 := {| t_td := td; t_queue := q; t_low := 0; t_own := false; t_self := 0; t_routine := start_routine; t_arg := arg |}).
  assert (td_fields m3 t3 1) as Hfld3.
  { destruct Hfld2 as [H1 H2 H3 H4 H5 H6 H7 H8]. unfold m3. split; cbn; try (by lookup_simp queue_addr).
    intros a Ha. repeat (apply lookup_insert_is_Some'; right). by apply H1. }
  assert (threads_repr v qsz {| heap := st2.(heap); memory := m3 |} R S ((td, PAGESIZE) :: (q, qsz) :: F) (n + 1)) as Hr3.
  { eapply held_write; [exact Hr2|by left|]. unfold m3. do 3 (apply same_except_insert; [scalar|]). apply same_except_refl. }
  apply wp_step_bind, (wp_lifted _ real_attr); [apply (au_init _ _ Hattr)|]. cbn [fst snd]. apply wp_step_bind.
  eapply wp_mono.
  { apply (stack_of_ok _ R S F (n + 1) attr real_attr t3 []); [exact Hr3|exact Hfld3|done|exact Hattr|]. by rewrite app_nil_r. }
  intros [[ra [stack size]] st4] (stack' & size' & E & Hr4 & _ & Hfld4). cbn [fst snd] in *. injection E as -> -> ->.
  set (t := with_stack t3 stack' (own_stack real_attr)) in Hr4. apply wp_step_bind, wp_in_memory.
  pose proof (tf_mapped _ _ _ Hfld4) as Hmap4. cbn [t_td t3 with_stack] in Hmap4.
  do 2 run_scalar Hmap4. set (m5 := <[_ := _]> (<[_ := _]> _)).
  assert (td_fields m5 t 1) as Hfld5.
  { destruct Hfld4 as [H1 H2 H3 H4 H5 H6 H7 H8]. unfold m5. split; cbn; try (by lookup_simp queue_addr).
    intros a Ha. repeat (apply lookup_insert_is_Some'; right). by apply H1. }
  assert (threads_repr v qsz {| heap := st4.(heap); memory := m5 |} R S (thread_blocks qsz t ++ F) (n + 1)) as Hr5.
  { eapply held_write; [exact Hr4|by left|]. unfold m5. do 2 (apply same_except_insert; [scalar|]). apply same_except_refl. }
  eapply wp_mono; [apply (add_ok v ptrs Hv Hptrs _ t R S F (n + 1) Hr5 Hfld5); [cbn; lia|done]|].
  intros [u m6] Hr6. cbn [fst snd heap memory] in *. apply wp_ret. cbn [fst snd]. by exists t.
Qed.

(** The threads that are counted are those in the list. *)
Definition threads_ok st R S F : Prop := threads_repr v qsz st R S F (Z.of_nat (length R)).

Lemma threads_ok_length st R S F : threads_ok st R S F → (length R < list_fuel)%nat.
Proof. intros Hr. pose proof (tl_len _ _ _ (tr_list _ _ _ _ _ _ _ Hr)) as Hl. by rewrite length_fmap in Hl. Qed.

(** The main thread registers itself; it was counted from the start.
    [main_args] is on its stack, apart from everything the library has. *)
Definition args_cells (args : Z) : list Z := [main_args_argc args; main_args_argv args; main_args_env args].

Record args_apart st (args : Z) (extra : list Z) : Prop := {
  aa_mapped a : a ∈ args_cells args → is_Some (st.(memory) !! a);
  aa_static a : a ∈ args_cells args ++ extra → a ∉ statics_list v;
  aa_extra a : a ∈ extra → a ∉ args_cells args;
}.

(** Without threads only the static variables matter. *)
Lemma repr_no_threads st F n m' :
  threads_repr v qsz st [] [] F n → (∀ x, x ∈ statics_list v → m' !! x = st.(memory) !! x) →
  threads_repr v qsz {| heap := st.(heap); memory := m' |} [] [] F n.
Proof.
  intros [Ho [H1 (q & Hq & Hl) H3 H4 H5] (p & Hp & Hs) Hk Hc HR HS Hf] Hm.
  assert (∀ x, x ∈ [tl_head (v.(globals).(thread_list_)); tl_lock (v.(globals).(thread_list_)); v.(g_staged_lock);
    v.(g_td_staged_to_free); v.(g_thread_count)] → m' !! x = st.(memory) !! x) as Hst by exact Hm.
  split; cbn [heap memory]; try done; try by intros t ?%elem_of_nil.
  - split; [rewrite Hst by (rewrite !elem_of_cons; tauto); done| |done|by intros t ?%elem_of_nil|done].
    exists q. rewrite Hst by (rewrite !elem_of_cons; tauto). by split.
  - exists p. rewrite Hst by (rewrite !elem_of_cons; tauto). by split.
  - rewrite Hst by (rewrite !elem_of_cons; tauto). done.
  - rewrite Hst by (rewrite !elem_of_cons; tauto). done.
Qed.

Lemma args_write (args argc argv env : Z) (m : mem) :
  (∀ a, a ∈ args_cells args → is_Some (m !! a)) →
  ∃ m', run (_ ← wr (main_args_argc args) argc; _ ← wr (main_args_argv args) argv; wr (main_args_env args) env) m = Ret (tt, m') ∧
    m' !! main_args_argc args = Some argc ∧ m' !! main_args_argv args = Some argv ∧ m' !! main_args_env args = Some env ∧
    same_except (args_cells args) m m'.
Proof.
  intros Hm. unfold args_cells in Hm.
  rewrite run_bind_wr by (apply Hm; by left). rewrite run_bind_wr by (apply lookup_insert_is_Some'; right; apply Hm; right; by left).
  rewrite run_wr by (do 2 (apply lookup_insert_is_Some'; right); apply Hm; do 2 right; by left).
  eexists. split; [done|]. assert (∀ x y : Z, x ≠ y → y ≠ x) as _ by congruence.
  repeat split; unfold main_args_argc, main_args_argv, main_args_env; [by lookup_simp lia..|].
  unfold args_cells. same_except.
Qed.

(** From the test of [td] on. *)
Definition main_rest (td : Z) (procmap : option (list Ascii.ascii)) (thunk args here sp self : Z) : step AS (Z * Z) :=
  _ ← in_memory (_ ← wr (td_user_routine td) thunk; wr (td_user_arg td) args);
  stack_data ← lifted (threadscan_proc_stack_from_addr procmap here);
  in_memory (
    _ ← wr (td_user_stack_low td) stack_data.(low);
    _ ← threadscan_proc_add_thread_data v td;
    threadscan_thread_base td sp self).

Lemma main_rest_ok st F td q procmap thunk args here sp self range :
  threads_repr v qsz st [] [] ((td, PAGESIZE) :: (q, qsz) :: F) 1 → td_fields st.(memory) (new_thr td q) 1 → 0 < td →
  threadscan_proc_stack_from_addr procmap here = Ret range → 0 <= sp < 2 ^ 64 →
  wp (main_rest td procmap thunk args here sp self st) (λ r, r.1 = (thunk, args) ∧
    ∃ t, t.(t_low) = range.(low) ∧ t.(t_own) = false ∧ t.(t_self) = self ∧ threads_ok r.2 [t] [] F).
Proof.
  intros Hr2 Hfld2 Htd Hrange Hsp. unfold main_rest.
  apply wp_step_bind, wp_in_memory. pose proof (tf_mapped _ _ _ Hfld2) as Hmap. cbn [new_thr t_td] in Hmap.
  run_scalar Hmap. rewrite run_wr by (mapped Hmap). apply wp_ret. cbn [fst snd].
  apply wp_step_bind, (wp_lifted _ range); [done|]. cbn [fst snd]. apply wp_in_memory. cbn [heap memory].
  rewrite run_bind_wr by (mapped Hmap).
  set (m3 := <[_ := _]> _).
  set (t := {| t_td := td; t_queue := q; t_low := range.(low); t_own := false; t_self := 0; t_routine := thunk; t_arg := args |}).
  assert (td_fields m3 t 1) as Hfld3.
  { destruct Hfld2 as [H1 H2 H3 H4 H5 H6 H7 H8]. unfold m3. split; cbn; try (by lookup_simp queue_addr).
    intros a Ha. repeat (apply lookup_insert_is_Some'; right). by apply H1. }
  assert (threads_repr v qsz {| heap := st.(heap); memory := m3 |} [] [] (thread_blocks qsz t ++ F) 1) as Hr3.
  { eapply held_write; [exact Hr2|by left|]. unfold m3. do 3 (apply same_except_insert; [scalar|]). apply same_except_refl. }
  rewrite run_bind. apply wp_bind.
  eapply wp_mono; [apply (add_ok v ptrs Hv Hptrs _ t [] [] F 1 Hr3 Hfld3); [cbn; lia|unfold list_fuel; cbn; lia]|].
  intros [u m4] Hr4. cbn [fst snd heap memory] in *.
  eapply wp_mono; [apply (base_ok v ptrs Hptrs _ [] t [] [] F 1 sp self Hr4 Hsp)|].
  intros [r m5] (Hr5 & _ & _ & _ & E). cbn [fst snd heap memory] in *. split; [done|]. by exists (started t self).
Qed.

(** It writes to the metadata and to static variables. *)
Lemma main_rest_frame st td procmap thunk args here sp self Q :
  wp (main_rest td procmap thunk args here sp self st) Q →
  wp (main_rest td procmap thunk args here sp self st)
     (λ r, ∀ a, a ∉ statics_list v → a ∉ td_scalars td → r.2.(memory) !! a = st.(memory) !! a).
Proof.
  set (S := λ a, a ∈ statics_list v ∨ a ∈ td_scalars td).
  assert (∀ a, a ∈ td_scalars td → S a) as Htd by (by right).
  assert (∀ a, a ∈ statics_list v → S a) as Hst by (by left).
  intros (r & E & _)%wp_iff. rewrite E. apply wp_ret. intros a Hns Hnt. revert E. unfold main_rest.
  intros (u1 & st1 & E1 & E)%step_bind_inv. apply in_memory_inv in E1 as (_ & E1). cbn [fst snd] in E1.
  apply step_bind_inv in E as (sd & st2 & (_ & Est)%lifted_inv & E). cbn [snd] in Est. subst st2. apply in_memory_inv in E as (_ & E).
  assert (¬ S a) as Ha by (by intros [?|?]).
  rewrite (writes_in_run S _ _ _ _ a) with (2 := E) (3 := Ha); [rewrite (writes_in_run S _ _ _ _ a) with (2 := E1) (3 := Ha); [done|]|].
  - split; [apply Htd; scalar|]. split; [apply Htd; scalar|done].
  - split; [apply Htd; scalar|]. apply writes_in_bind; [apply add_writes; [apply Hst..|apply Htd]|].
    + unfold statics_list. by left.
    + unfold statics_list. right. by left.
    + scalar.
    + intros u. by apply (base_writes ptrs).
Qed.

Lemma main_ok st F procmap thunk args here sp self argc argv env range extra :
  threads_repr v qsz st [] [] F 1 → can_serve (args_cells args ++ extra ++ statics_list v) st.(heap) [PAGESIZE; qsz] →
  args_apart st args extra →
  threadscan_proc_stack_from_addr procmap here = Ret range → 0 <= sp < 2 ^ 64 →
  wp (main_replacement v ptrs procmap thunk args here sp self argc argv env st) (λ r, r.1 = (thunk, args) ∧
    (r.2.(memory) !! main_args_argc args = Some argc ∧ r.2.(memory) !! main_args_argv args = Some argv ∧
     r.2.(memory) !! main_args_env args = Some env) ∧ (∀ a, a ∈ extra → r.2.(memory) !! a = st.(memory) !! a) ∧
    ∃ t, t.(t_low) = range.(low) ∧ t.(t_own) = false ∧ t.(t_self) = self ∧ threads_ok r.2 [t] [] F).
Proof.
  intros Hr Hserve [Hmapped Hstatic Hextra] Hrange Hsp. unfold main_replacement. apply wp_step_bind.
  eapply wp_mono; [apply wp_and|].
  { apply (data_new_ok v ptrs Hptrs Hpages _ [] [] F 1 [] Hr). eapply can_serve_mono; [|exact Hserve].
    intros x Hx. rewrite !elem_of_app. tauto. }
  { by apply (data_new_frame ptrs Hptrs Hpages _ _ _ (tr_heap _ _ _ _ _ _ _ Hr) Hserve). }
  intros [td st2] [(q & Hr2 & Htd & _ & Hfld2 & _) Hfr2]. cbn [fst snd] in *.
  pose proof (λ x Hx, proj1 (Hfr2 x Hx)) as Hfr. pose proof (λ x Hx, proj2 (Hfr2 x Hx)) as Hout. clear Hfr2.
  assert (∀ a, a ∈ args_cells args ++ extra → a ∉ td_scalars td) as Htda.
  { intros a Ha Hin%td_scalars_in. assert (outside (td, PAGESIZE) a) as Ho.
    { apply Hout. rewrite app_assoc. apply elem_of_app. by left. } unfold outside in Ho. cbn in Ho. lia. }
  apply wp_step_bind, wp_in_memory. destruct (args_write args argc argv env st2.(memory)) as (m3 & -> & Ha1 & Ha2 & Ha3 & Hm3).
  { intros a Ha. rewrite Hfr by (apply elem_of_app; by left). by apply Hmapped. }
  apply wp_ret. cbn [fst snd]. replace (td =? 0) with false by lia.
  assert (threads_repr v qsz {| heap := st2.(heap); memory := m3 |} [] [] ((td, PAGESIZE) :: (q, qsz) :: F) 1) as Hr3.
  { apply repr_no_threads; [done|]. intros x Hx. apply Hm3. intros Ha. apply (Hstatic x); [apply elem_of_app; by left|done]. }
  assert (∀ a, a ∈ td_scalars td → m3 !! a = st2.(memory) !! a) as Hsame.
  { intros a Ha. apply Hm3. intros Hin. apply (Htda a); [apply elem_of_app; by left|done]. }
  assert (td_fields m3 (new_thr td q) 1) as Hfld3.
  { eapply td_fields_ext; [intros a Ha _; by apply Hsame| |exact Hfld2]. cbn [new_thr t_td]. rewrite Hsame by apply next_scalar.
    apply (tf_mapped _ _ _ Hfld2), next_scalar. }
  assert (∀ a, a ∈ extra → m3 !! a = st.(memory) !! a) as Hextra3.
  { intros a Ha. rewrite Hm3 by by apply Hextra. apply Hfr. rewrite !elem_of_app. tauto. }
  eapply wp_mono; [apply wp_and|].
  { by apply (main_rest_ok {| heap := st2.(heap); memory := m3 |} F td q procmap thunk args here sp self range). }
  { eapply (main_rest_frame {| heap := st2.(heap); memory := m3 |} td procmap thunk args here sp self).
    by apply (main_rest_ok _ F td q procmap thunk args here sp self range). }
  intros [r st4] [(Hres & Ht) Hfr4]. cbn [fst snd memory] in *.
  assert (∀ a, a ∈ args_cells args ++ extra → st4.(memory) !! a = m3 !! a) as Hkeep.
  { intros a Ha. apply Hfr4; [by apply Hstatic|by apply Htda]. }
  split; [done|]. split; [|split; [|done]].
  - rewrite !Hkeep by (apply elem_of_app; left; unfold args_cells; rewrite !elem_of_cons; tauto). done.
  - intros a Ha. rewrite Hkeep by (apply elem_of_app; by right). by apply Hextra3.
Qed.

(** *** What goes wrong *)

(** A block is unmapped whatever still refers to it. *)
Lemma munmap_any h m p l bs :
  owns h ((p, l) :: bs) → ∃ h', threadscan_alloc_munmap p {| heap := h; memory := m |} =
    Ret (tt, {| heap := h'; memory := unmapped p l m |}) ∧ owns h' bs.
Proof.
  intros Ho. destruct (proj1 (wp_iff _ _) (owns_munmap _ _ _ _ Ho)) as (h' & E & Ho'). exists h'. split; [|done].
  unfold threadscan_alloc_munmap. cbn [heap memory]. rewrite E. cbn [mbind outcome_bind].
  by rewrite (owns_live _ _ p l Ho) by (by left).
Qed.

(** The stack goes first; the metadata is still there. *)
Lemma discard_stack_ok h m t bs :
  owns h (thread_blocks qsz t ++ bs) → td_fields m t 1 →
  (∀ b x, b ∈ thread_blocks qsz t → x ∈ statics_list v → outside b x) →
  ∃ h1 m1, (if negb ((if t.(t_own) then 1 else 0) =? 0) then threadscan_alloc_munmap t.(t_low) else mret tt)
      {| heap := h; memory := m |} = Ret (tt, {| heap := h1; memory := m1 |}) ∧
    owns h1 ((t.(t_queue), qsz) :: (t.(t_td), PAGESIZE) :: bs) ∧ td_fields m1 t 1 ∧
    (∀ x, x ∈ statics_list v → m1 !! x = m !! x).
Proof.
  intros Ho Hfld Hf. unfold thread_blocks in Ho, Hf. destruct (t_own t).
  - assert (owns h ((t_low t, STACK_SIZE) :: (t_queue t, qsz) :: (t_td t, PAGESIZE) :: bs)) as Ho'.
    { eapply owns_perm; [|exact Ho]. etransitivity; [apply (Permutation_app_swap_app [_; _] [_] bs)|].
      cbn. by constructor; constructor. }
    destruct (munmap_any h m _ _ _ Ho') as (h1 & E & Ho1). exists h1, (unmapped (t_low t) STACK_SIZE m).
    split; [exact E|]. split; [done|]. split.
    + assert (∀ a, a ∈ td_scalars (t_td t) → unmapped (t_low t) STACK_SIZE m !! a = m !! a) as Heq.
      { intros a Ha. apply unmapped_out. pose proof (ow_nodup _ _ Ho') as Hnd. cbn in Hnd. apply NoDup_cons in Hnd as [Hnd _].
        assert (outside (t_low t, STACK_SIZE) a) as Hout.
        { apply (owns_disjoint _ _ (t_td t, PAGESIZE) _ _ Ho'); [right; right; by left|by left| |by apply td_scalars_in].
          cbn. intros Eq. apply Hnd. rewrite Eq. right. by left. }
        unfold outside in Hout. cbn in Hout. lia. }
      eapply td_fields_ext; [intros a Ha _; by apply Heq| |exact Hfld]. rewrite Heq by apply next_scalar.
      apply (tf_mapped _ _ _ Hfld), next_scalar.
    + intros x Hx. apply unmapped_out.
      assert (outside (t_low t, STACK_SIZE) x) as Hout by (apply Hf; [right; right; by left|done]).
      unfold outside in Hout. cbn in Hout. lia.
  - exists h, m. split; [done|]. split; [|done]. eapply owns_perm; [|exact Ho]. apply Permutation_swap.
Qed.

(** Metadata that still counts one reference: a debug build stops; otherwise
    its blocks are gone. *)
Lemma free_referenced h m t bs :
  owns h ((t.(t_queue), qsz) :: (t.(t_td), PAGESIZE) :: bs) → td_fields m t 1 → t.(t_td) ≠ 0 →
  (∀ b x, b ∈ [(t.(t_td), PAGESIZE); (t.(t_queue), qsz)] → x ∈ statics_list v → outside b x) →
  if debug then threadscan_util_thread_data_free t.(t_td) {| heap := h; memory := m |} = Aborted
  else ∃ h' m', threadscan_util_thread_data_free t.(t_td) {| heap := h; memory := m |} = Ret (tt, {| heap := h'; memory := m' |}) ∧
    (∀ a, a ∈ td_scalars t.(t_td) → m' !! a = None) ∧ (∀ x, x ∈ statics_list v → m' !! x = m !! x).
Proof.
  intros Ho Hfld Ht0 Hf. unfold threadscan_util_thread_data_free.
  erewrite step_bind_ret by (apply lifted_ret, c_assert_true; lia). destruct debug eqn:Edbg.
  - erewrite step_bind_ret by (erewrite in_memory_eq by (apply run_rd, (tf_ref _ _ _ Hfld)); reflexivity).
    apply step_bind_aborted. unfold lifted, c_assert. by rewrite Edbg.
  - erewrite step_bind_ret by reflexivity. erewrite step_bind_ret by (by apply lifted_ret, c_assert_true).
    erewrite step_bind_ret by (erewrite in_memory_eq by (apply run_rd, (tf_queue _ _ _ Hfld)); reflexivity).
    cbn [heap memory]. destruct (munmap_any h m _ _ _ Ho) as (h2 & E2 & Ho3). rewrite (step_bind_ret _ _ _ _ _ E2).
    destruct (munmap_any h2 (unmapped (t_queue t) qsz m) _ _ _ Ho3) as (h3 & E3 & _). rewrite E3.
    exists h3, (unmapped (t_td t) PAGESIZE (unmapped (t_queue t) qsz m)). split; [done|]. split.
    + intros a Ha%td_scalars_in. by apply unmapped_in.
    + intros x Hx. pose proof (Hf (t_td t, PAGESIZE) x ltac:(by left) Hx) as H1.
      pose proof (Hf (t_queue t, qsz) x ltac:(right; by left) Hx) as H2.
      unfold outside in H1, H2. cbn in H1, H2. by rewrite !unmapped_out by lia.
Qed.

(** Discarding a thread that is in the list. *)
Lemma discard_listed st t R S F n :
  threads_repr v qsz st (t :: R) S F n →
  if debug then discard t.(t_td) t.(t_low) st = Aborted
  else ∃ h' m', discard t.(t_td) t.(t_low) st = Ret (tt, {| heap := h'; memory := m' |}) ∧
    (∀ a, a ∈ td_scalars t.(t_td) → m' !! a = None) ∧ (∀ x, x ∈ statics_list v → m' !! x = st.(memory) !! x).
Proof.
  intros Hr. pose proof (tr_running _ _ _ _ _ _ _ Hr t ltac:(by left)) as Hfld. pose proof (tr_heap _ _ _ _ _ _ _ Hr) as Ho.
  pose proof (tr_fixed _ _ _ _ _ _ _ Hr) as Hf. pose proof (tl_first _ _ _ (tr_list _ _ _ _ _ _ _ Hr)) as (p0 & _ & (_ & Ht0 & _)).
  change (threads_blocks qsz ((t :: R) ++ S) ++ F) with ((thread_blocks qsz t ++ threads_blocks qsz (R ++ S)) ++ F) in Ho, Hf.
  rewrite <- app_assoc in Ho, Hf. destruct st as [h m]. cbn [heap memory] in *.
  assert (∀ b x, b ∈ thread_blocks qsz t → x ∈ statics_list v → outside b x) as Hf'.
  { intros b x Hb. apply Hf. apply elem_of_app. by left. }
  destruct (discard_stack_ok h m t _ Ho Hfld Hf') as (h1 & m1 & E1 & Ho1 & Hfld1 & Hst1).
  assert (discard t.(t_td) t.(t_low) {| heap := h; memory := m |} =
    threadscan_util_thread_data_free t.(t_td) {| heap := h1; memory := m1 |}) as ->.
  { unfold discard. erewrite step_bind_ret by (erewrite in_memory_eq by (apply run_rd, (tf_own _ _ _ Hfld)); reflexivity).
    cbn [heap memory]. by rewrite (step_bind_ret _ _ _ _ _ E1). }
  pose proof (free_referenced h1 m1 t _ Ho1 Hfld1 Ht0) as Hfree. destruct debug.
  - apply Hfree. intros b x Hb. apply Hf'. rewrite !elem_of_cons, elem_of_nil in Hb. unfold thread_blocks. rewrite !elem_of_cons. tauto.
  - destruct Hfree as (h' & m' & E & Hgone & Hst).
    + intros b x Hb. apply Hf'. rewrite !elem_of_cons, elem_of_nil in Hb. unfold thread_blocks. rewrite !elem_of_cons. tauto.
    + exists h', m'. split; [exact E|]. split; [exact Hgone|]. intros x Hx. rewrite (Hst x Hx). by apply Hst1.
Qed.

(** The loop over a list whose first element is gone. *)
Lemma wait_dangling (curr td : Z) (m : mem) :
  m !! tl_lock (v.(globals).(thread_list_)) = Some 0 → m !! tl_head (v.(globals).(thread_list_)) = Some td → td ≠ 0 →
  m !! td_local_timestamp td = None → tl_lock (v.(globals).(thread_list_)) ≠ td_local_timestamp td →
  run (threadscan_proc_wait_for_timestamp v.(globals) curr) m = UB.
Proof.
  intros Hk Hh Htd Hn Hne. unfold threadscan_proc_wait_for_timestamp, foreach_in_thread_list.
  rewrite run_bind_lock by done. erewrite run_bind_rd by (rewrite lookup_insert_ne by addr; exact Hh).
  unfold list_fuel. rewrite run_bind. cbn [foreach_loop]. replace (td =? 0) with false by lia. rewrite run_bind.
  rewrite run_bind_lift with (a := tt) by (by apply c_assert_true). rewrite run_bind.
  assert (∀ c, run (await (td_local_timestamp td) c) (<[tl_lock (thread_list_ (globals v)) := 1]> m) = UB) as ->; [|done].
  intros c. cbn. by rewrite lookup_insert_ne, Hn.
Qed.

(** No thread with the id among those that ended. *)
Lemma find_staged_absent fuel m tid last p S :
  tlist m p (t_td <$> S) → (∀ u, u ∈ S → m !! td_self u.(t_td) = Some u.(t_self) ∧ u.(t_self) ≠ tid) →
  m !! td_self 0 = None → (length S < fuel)%nat → (S = [] → debug = false) →
  run (find_staged fuel tid last p) m = if debug then Aborted else UB.
Proof.
  revert last p S. induction fuel as [|fuel IH]; intros last p S Hl HS Hnull Hf He; [lia|]. cbn [find_staged].
  destruct S as [|u S]; cbn in Hl.
  - rewrite Hl, He by done. by rewrite run_bind_rd_unmapped.
  - destruct Hl as (-> & _ & next & Hn & Hl). destruct (HS u ltac:(by left)) as [Hself Hne].
    erewrite run_bind_rd by exact Hself. replace (t_self u =? tid) with false by lia. erewrite run_bind_rd by exact Hn.
    destruct S as [|w S].
    + cbn in Hl. subst next. cbn [Z.eqb negb]. destruct debug eqn:Edbg.
      * unfold c_assert. rewrite Edbg. done.
      * rewrite run_bind_lift with (a := tt) by (unfold c_assert; by rewrite Edbg).
        apply (IH _ 0 []); [done|by intros w ?%elem_of_nil|done|cbn in *; lia|done].
    + pose proof Hl as (-> & Hnz & _). rewrite run_bind_lift with (a := tt) by (apply c_assert_true; lia).
      apply (IH _ _ (w :: S)); [done|intros x Hx; apply HS; by right|done|cbn in *; lia|done].
Qed.

(** ** What each event does *)
Section events.
Context (orig_pthread_create : attr_t → Z → Z) (orig_pthread_join : Z → Z).

(** A successful creation, the start of a thread, its end, and a join of a
    thread that ended. *)
Inductive lifecycle (R S : list thr) : event (attr_t := attr_t) → list thr → list thr → Prop :=
| lc_create attr start_routine arg t :
    t.(t_self) = 0 → t.(t_routine) = start_routine → t.(t_arg) = arg →
    lifecycle R S (Create attr start_routine arg) (t :: R) S
| lc_start A t B sp self :
    R = A ++ t :: B → lifecycle R S (Start t.(t_td) sp self) (A ++ started t self :: B) S
| lc_exit A t B :
    R = A ++ t :: B → lifecycle R S (Exit t.(t_td)) (A ++ B) (t :: S)
| lc_join A t B :
    S = A ++ t :: B → (∀ u, u ∈ A → u.(t_self) ≠ t.(t_self)) → lifecycle R S (Join t.(t_self)) R (A ++ B).

(** What can happen: a thread is created while there are not too many, the
    library and the operating system play along; a known thread starts or
    ends; a thread that ended is joined. *)
Definition enabled st (R S : list thr) (ev : event (attr_t := attr_t)) : Prop :=
  match ev with
  | Create attr _ _ => ∃ real_attr, attr_usable attr real_attr ∧ Z.of_nat (length R) <= MAX_THREAD_COUNT ∧
      can_serve (statics_list v) st.(heap) (create_sizes real_attr) ∧ ∀ a td, orig_pthread_create a td = 0
  | Start td sp _ => 0 <= sp < 2 ^ 64 ∧ td ∈ t_td <$> R
  | Exit td => td ∈ t_td <$> R
  | Join tid => tid ∈ t_self <$> S ∧ orig_pthread_join tid = 0
  end.

Lemma create_event st R S F attr start_routine arg :
  threads_ok st R S F → enabled st R S (Create attr start_routine arg) →
  wp (pthread_create v ptrs orig_pthread_create attr start_routine arg st) (λ r, r.1 = 0 ∧ ∃ R' S',
    lifecycle R S (Create attr start_routine arg) R' S' ∧ threads_ok r.2 R' S' F).
Proof.
  intros Hr (real_attr & Hattr & Hn & Hserve & Hret). pose proof (threads_ok_length _ _ _ _ Hr) as Hlen.
  unfold pthread_create. apply wp_step_bind. eapply wp_mono.
  { apply (hook_thread_ok _ _ _ _ _ _ _ start_routine arg Hr Hattr); [lia| |exact Hserve].
    unfold MAX_THREAD_COUNT, list_fuel in *. lia. }
  intros [[td [ra stack]] st1] (t & E & _ & Hself & Hroutine & Harg & Hr1). cbn [fst snd] in *. injection E as -> -> ->.
  rewrite Hret. cbn [Z.eqb negb]. apply wp_step_bind, wp_ret. cbn [fst snd]. apply wp_ret. cbn [fst snd]. split; [done|].
  exists (t :: R), S. split; [by constructor|]. unfold threads_ok. cbn [length]. by rewrite Nat2Z.inj_succ.
Qed.

Lemma start_event st A t B S F sp self :
  threads_ok st (A ++ t :: B) S F → 0 <= sp < 2 ^ 64 →
  wp (in_memory (_ ← threadscan_thread_base t.(t_td) sp self; mret 0) st) (λ r, r.1 = 0 ∧
    threads_ok r.2 (A ++ started t self :: B) S F).
Proof.
  intros Hr Hsp. apply wp_in_memory. rewrite run_bind. apply wp_bind.
  eapply wp_mono; [by eapply (base_ok v ptrs Hptrs)|]. intros [r m'] (Hr' & _). cbn [fst snd] in *. apply wp_ret. cbn [fst snd].
  split; [done|]. unfold threads_ok in *. rewrite length_app in *. exact Hr'.
Qed.

Lemma exit_event st A t B S F :
  threads_ok st (A ++ t :: B) S F →
  wp (pthread_exit v t.(t_td) st) (λ r, threads_ok r.2 (A ++ B) (t :: S) F).
Proof.
  intros Hr. unfold pthread_exit. apply wp_in_memory. rewrite run_bind. apply wp_bind.
  eapply wp_mono; [apply (thread_cleanup_ok v ptrs Hv Hptrs _ _ _ _ _ _ _ Hr)|].
  intros [u m1] Hr1. cbn [fst snd] in *. unfold sync_fetch_and_sub. rewrite run_bind.
  pose proof (threads_ok_length _ _ _ _ Hr) as Hlen. rewrite length_app in Hlen. cbn in Hlen.
  assert (Z.of_nat (length (A ++ t :: B)) + -1 = Z.of_nat (length (A ++ B))) as En by (rewrite !length_app; cbn; lia).
  pose proof (counter_ok _ _ _ _ _ (-1) Hr1) as Hc. cbn [memory] in Hc.
  assert (run (rmw (g_thread_count v) (λ x, Some (int_of_u64 (x - 1)))) m1 = Ret (Z.of_nat (length (A ++ t :: B)),
    <[g_thread_count v := Z.of_nat (length (A ++ t :: B)) + -1]> m1)) as ->.
  { apply Hc; [lia|]. rewrite En, length_app. unfold INT_MAX, list_fuel in *. lia. }
  cbn [mbind outcome_bind]. apply wp_ret. cbn [fst snd]. rewrite En. exact (repr_count _ _ _ _ _ _ Hr1).
Qed.

(** The first thread of the list with this id. *)
Lemma first_with_self (S : list thr) tid :
  tid ∈ t_self <$> S → ∃ A t B, S = A ++ t :: B ∧ t.(t_self) = tid ∧ ∀ u, u ∈ A → u.(t_self) ≠ tid.
Proof.
  induction S as [|s S IH]; [by intros ?%elem_of_nil|]. intros Hin. destruct (decide (t_self s = tid)) as [E|E].
  - exists [], s, S. repeat split; [done|]. by intros u ?%elem_of_nil.
  - apply elem_of_cons in Hin as [->|Hin]; [done|]. destruct (IH Hin) as (A & t & B & -> & Ht & HA).
    exists (s :: A), t, B. repeat split; [done|]. by intros u [->|Hu]%elem_of_cons; [|apply HA].
Qed.

Lemma event_ok st R S F ev :
  threads_ok st R S F → enabled st R S ev →
  wp (run_event v ptrs orig_pthread_create orig_pthread_join ev st) (λ r, r.1 = 0 ∧ ∃ R' S',
    lifecycle R S ev R' S' ∧ threads_ok r.2 R' S' F).
Proof.
  intros Hr Hev. destruct ev as [attr start_routine arg|td sp self|td|tid]; cbn [run_event].
  - by apply create_event.
  - destruct Hev as [Hsp (t & -> & Ht)%list_elem_of_fmap]. apply list_elem_of_split in Ht as (A & B & ->).
    eapply wp_mono; [by apply start_event|]. intros r [E Hr']. split; [done|].
    exists (A ++ started t self :: B), S. split; [by constructor|done].
  - apply list_elem_of_fmap in Hev as (t & -> & Ht). apply list_elem_of_split in Ht as (A & B & ->).
    apply wp_step_bind. eapply wp_mono; [by apply exit_event|]. intros [u st'] Hr'. cbn [fst snd] in *.
    apply wp_ret. cbn [fst snd]. split; [done|]. exists (A ++ B), (t :: S). split; [by constructor|done].
  - destruct Hev as [Ht Hret]. destruct (first_with_self S tid Ht) as (A & t & B & -> & <- & HA).
    unfold pthread_join. rewrite Hret. apply wp_step_bind.
    eapply wp_mono; [apply (cleanup_ok v ptrs Hv Hptrs _ _ A t B _ _ _ Hr); [done|exact HA]|]. intros [u st'] Hr'. cbn [fst snd] in *.
    apply wp_ret. cbn [fst snd]. split; [done|]. exists R, (A ++ B). split; [by constructor|done].
Qed.

(** The live blocks are determined by the threads that are there. *)
Lemma threads_ok_live st st' R S R' S' F :
  threads_ok st R S F → threads_ok st' R' S' F → R ++ S ≡ₚ R' ++ S' → live st.(heap) = live st'.(heap).
Proof.
  intros Hr Hr' Hp. rewrite (ow_live _ _ (tr_heap _ _ _ _ _ _ _ Hr)), (ow_live _ _ (tr_heap _ _ _ _ _ _ _ Hr')).
  apply list_to_map_proper; [apply (ow_nodup _ _ (tr_heap _ _ _ _ _ _ _ Hr))|]. by rewrite Hp.
Qed.

(** Events one after another: each is enabled when it happens. *)
Fixpoint can_run (F : list (Z * Z)) (evs : list event) st R S : Prop :=
  match evs with
  | [] => True
  | ev :: evs' => enabled st R S ev ∧
      ∀ st' R' S', run_event v ptrs orig_pthread_create orig_pthread_join ev st = Ret (0, st') →
        lifecycle R S ev R' S' → threads_ok st' R' S' F → can_run F evs' st' R' S'
  end.

Inductive lifecycles : list thr → list thr → list event → list thr → list thr → Prop :=
| lcs_nil R S : lifecycles R S [] R S
| lcs_cons R S ev R1 S1 evs R2 S2 :
    lifecycle R S ev R1 S1 → lifecycles R1 S1 evs R2 S2 → lifecycles R S (ev :: evs) R2 S2.

Lemma events_ok F evs st R S :
  threads_ok st R S F → can_run F evs st R S →
  ∃ rs st' R' S', run_events v ptrs orig_pthread_create orig_pthread_join evs st = Ret (rs, st') ∧
    Forall (λ r, r = 0) rs ∧ lifecycles R S evs R' S' ∧ threads_ok st' R' S' F.
Proof.
  revert st R S. induction evs as [|ev evs IH]; intros st R S Hr Hrun.
  - exists [], st, R, S. split; [done|]. split; [constructor|]. by split; [constructor|].
  - destruct Hrun as [Hev Hrun].
    destruct (proj1 (wp_iff _ _) (event_ok st R S F ev Hr Hev)) as ([r st1] & E & Er & R1 & S1 & Hl & Hr1). cbn [fst snd] in *. subst r.
    destruct (IH st1 R1 S1 Hr1 (Hrun _ _ _ E Hl Hr1)) as (rs & st2 & R2 & S2 & E2 & Hrs & Hl2 & Hr2).
    exists (0 :: rs), st2, R2, S2. cbn [run_events]. unfold mbind, step_bind at 1. rewrite E. cbn [mbind outcome_bind].
    unfold step_bind at 1. rewrite E2. split; [done|]. split; [by constructor|]. split; [by econstructor|done].
Qed.

(** ** Properties *)

(** C6. The life of threads.  From a well-formed state, any sequence of events
    (creations, starts, ends, joins, of any threads, in any order), each of
    which can happen when it does, runs without a fault or a failed
    assertion; every call reports success; the lists of running and of ended
    threads change as the events say; and the allocator's live blocks are
    exactly those of the threads that are there and the others [F].  So when
    the same threads are left, the same blocks are live: nothing leaks, and
    nothing is released twice. *)
Theorem thread_lifecycle F evs st R S :
  threads_ok st R S F → can_run F evs st R S →
  ∃ rs st' R' S', run_events v ptrs orig_pthread_create orig_pthread_join evs st = Ret (rs, st') ∧
    Forall (λ r, r = 0) rs ∧ lifecycles R S evs R' S' ∧ threads_ok st' R' S' F ∧
    st'.(memory) !! v.(g_thread_count) = Some (Z.of_nat (length R')) ∧
    live st'.(heap) = list_to_map (threads_blocks qsz (R' ++ S') ++ F) ∧
    (R' ++ S' ≡ₚ R ++ S → live st'.(heap) = live st.(heap)).
Proof.
  intros Hr Hrun. destruct (events_ok F evs st R S Hr Hrun) as (rs & st' & R' & S' & E & Hrs & Hl & Hr').
  exists rs, st', R', S'. do 4 (split; [done|]). split; [apply (tr_count _ _ _ _ _ _ _ Hr')|].
  split; [apply (ow_live _ _ (tr_heap _ _ _ _ _ _ _ Hr'))|]. intros Hp. by apply (threads_ok_live _ _ _ _ _ _ _ Hr' Hr).
Qed.

(** C31. A thread that is created, started, ends and is joined leaves no trace:
    the lists, the counter and the live blocks are those from before. *)
Theorem create_exit_join_restores F st R S attr start_routine arg sp self :
  threads_ok st R S F → enabled st R S (Create attr start_routine arg) → 0 <= sp < 2 ^ 64 → orig_pthread_join self = 0 →
  ∃ td st1 st', pthread_create v ptrs orig_pthread_create attr start_routine arg st = Ret (0, st1) ∧
    st1.(memory) !! tl_head (v.(globals).(thread_list_)) = Some td ∧
    run_events v ptrs orig_pthread_create orig_pthread_join [Start td sp self; Exit td; Join self] st1 = Ret ([0; 0; 0], st') ∧
    threads_ok st' R S F ∧ live st'.(heap) = live st.(heap).
Proof.
  intros Hr Hev Hsp Hjoin. destruct Hev as (real_attr & Hattr & Hn & Hserve & Hret).
  pose proof (threads_ok_length _ _ _ _ Hr) as Hlen.
  destruct (proj1 (wp_iff _ _) (hook_thread_ok _ _ _ _ _ _ _ start_routine arg Hr Hattr ltac:(lia)
    ltac:(unfold MAX_THREAD_COUNT, list_fuel in *; lia) Hserve)) as ([[td [ra stack]] st1] & E1 & t & Et & _ & _ & _ & _ & Hr1).
  cbn [fst snd] in *. injection Et as -> -> ->. exists (t_td t), st1.
  assert (threads_ok st1 (t :: R) S F) as Hok1 by (unfold threads_ok; cbn [length]; by rewrite Nat2Z.inj_succ).
  destruct (proj1 (wp_iff _ _) (start_event st1 [] t R S F sp self Hok1 Hsp)) as ([r2 st2] & E2 & Er & Hok2). cbn [fst snd] in *. subst r2.
  destruct (proj1 (wp_iff _ _) (exit_event st2 [] (started t self) R S F Hok2)) as ([u st3] & E3 & Hok3). cbn [fst snd] in *. destruct u.
  destruct (proj1 (wp_iff _ _) (cleanup_ok v ptrs Hv Hptrs st3 R [] (started t self) S F _ self Hok3 eq_refl
    ltac:(by intros u ?%elem_of_nil))) as ([u st4] & E4 & Hok4). cbn [fst snd] in *. destruct u.
  exists st4. split; [|split; [|split; [|split; [exact Hok4|by apply (threads_ok_live _ _ _ _ _ _ _ Hok4 Hr)]]]].
  - unfold pthread_create. rewrite (step_bind_ret _ _ _ _ _ E1). cbn [fst snd]. rewrite Hret. done.
  - destruct (tl_first _ _ _ (tr_list _ _ _ _ _ _ _ Hr1)) as (p & Hp & (-> & _)). exact Hp.
  - cbn [run_events run_event]. rewrite (step_bind_ret _ _ _ _ _ E2).
    assert ((_ ← pthread_exit v (t_td t); mret 0) st2 = Ret (0, st3)) as E3' by (by rewrite (step_bind_ret _ _ _ _ _ E3)).
    assert (pthread_join v orig_pthread_join self st3 = Ret (0, st4)) as E4'.
    { unfold pthread_join. rewrite Hjoin. by rewrite (step_bind_ret _ _ _ _ _ E4). }
    erewrite step_bind_ret; [reflexivity|]. erewrite step_bind_ret by exact E3'.
    erewrite step_bind_ret; [reflexivity|]. erewrite step_bind_ret by exact E4'. reflexivity.
Qed.

End events.

(** The replacement of [main] registers the main thread, with the stack
    that the memory map gives, stores the arguments of [main] for
    [main_thunk], and goes on to it. *)
Theorem main_registers F st procmap thunk args here sp self argc argv env range :
  threads_repr v qsz st [] [] F 1 → can_serve (args_cells args ++ statics_list v) st.(heap) [PAGESIZE; qsz] →
  args_apart st args [] → threadscan_proc_stack_from_addr procmap here = Ret range → 0 <= sp < 2 ^ 64 →
  ∃ st' t, main_replacement v ptrs procmap thunk args here sp self argc argv env st = Ret ((thunk, args), st') ∧
    st'.(memory) !! main_args_argc args = Some argc ∧ st'.(memory) !! main_args_argv args = Some argv ∧
    st'.(memory) !! main_args_env args = Some env ∧
    threads_ok st' [t] [] F ∧ t.(t_low) = range.(low) ∧ t.(t_own) = false ∧ t.(t_self) = self.
Proof.
  intros Hr Hserve Hap Hrange Hsp.
  destruct (proj1 (wp_iff _ _) (main_ok _ _ _ thunk args _ _ self argc argv env _ [] Hr Hserve Hap Hrange Hsp))
    as ([r st'] & E & Er & (? & ? & ?) & _ & t & ? & ? & ? & ?).
  cbn [fst snd] in *. subst r. by exists st', t.
Qed.

(** C36. When the library cannot create the thread, its metadata is released
    although it is in the list of threads and counts one reference.  A debug
    build stops at the assertion on the reference count.  The release build
    returns the error code, counts the thread still, and leaves a dangling
    pointer at the head of the list: the next reclaimer that walks it
    accesses memory that is not mapped. *)
Theorem failed_creation_dangles (orig_pthread_create : attr_t → Z → Z) F st R S attr real_attr start_routine arg err :
  threads_ok st R S F → attr_usable attr real_attr → Z.of_nat (length R) <= MAX_THREAD_COUNT →
  can_serve (statics_list v) st.(heap) (create_sizes real_attr) → (∀ a td, orig_pthread_create a td = err) → err ≠ 0 →
  if debug then pthread_create v ptrs orig_pthread_create attr start_routine arg st = Aborted
  else ∃ st', pthread_create v ptrs orig_pthread_create attr start_routine arg st = Ret (err, st') ∧
    st'.(memory) !! v.(g_thread_count) = Some (Z.of_nat (length R) + 1) ∧
    ∀ curr, run (threadscan_proc_wait_for_timestamp v.(globals) curr) st'.(memory) = UB.
Proof.
  intros Hr Hattr Hn Hserve Hret Herr. pose proof (threads_ok_length _ _ _ _ Hr) as Hlen.
  destruct (proj1 (wp_iff _ _) (hook_thread_ok _ _ _ _ _ _ _ start_routine arg Hr Hattr ltac:(lia)
    ltac:(unfold MAX_THREAD_COUNT, list_fuel in *; lia) Hserve)) as ([[td [ra stack]] st1] & E1 & t & Et & _ & _ & _ & _ & Hr1).
  cbn [fst snd] in *. injection Et as -> -> ->. pose proof (discard_listed _ _ _ _ _ _ Hr1) as Hd.
  unfold pthread_create. rewrite (step_bind_ret _ _ _ _ _ E1). cbn [fst snd]. rewrite Hret.
  replace (err =? 0) with false by lia. cbn [negb]. destruct debug; [by apply step_bind_aborted|].
  destruct Hd as (h' & m' & E2 & Hgone & Hst). rewrite (step_bind_ret _ _ _ _ _ E2).
  exists {| heap := h'; memory := m' |}. split; [done|]. cbn [memory].
  assert (∀ x, x ∈ statics_list v → td_local_timestamp (t_td t) ≠ x) as Hne.
  { intros x Hx. eapply (scalar_not_static v _ (tr_fixed _ _ _ _ _ _ _ Hr1) (t_td t)); [by left|scalar|exact Hx]. }
  destruct (tl_first _ _ _ (tr_list _ _ _ _ _ _ _ Hr1)) as (p & Hp & (-> & Ht0 & _)).
  pose proof (tl_free _ _ _ (tr_list _ _ _ _ _ _ _ Hr1)) as Hk. split.
  - rewrite Hst by (unfold statics_list; rewrite !elem_of_cons; tauto). apply (tr_count _ _ _ _ _ _ _ Hr1).
  - intros curr. apply (wait_dangling curr (t_td t)).
    + rewrite Hst by (unfold statics_list; rewrite !elem_of_cons; tauto). exact Hk.
    + rewrite Hst by (unfold statics_list; rewrite !elem_of_cons; tauto). exact Hp.
    + exact Ht0.
    + apply Hgone. scalar.
    + apply not_eq_sym, Hne. unfold statics_list. rewrite !elem_of_cons. tauto.
Qed.

(** C37. Joining something that is no thread that ended (for instance when the
    library's join fails) runs off the list of ended threads: a debug build
    stops at an assertion, the release build dereferences a null pointer. *)
Theorem join_unknown_thread (orig_pthread_join : Z → Z) F st R S tid n :
  threads_repr v qsz st R S F n → tid ∉ t_self <$> S → st.(memory) !! td_self 0 = None → td_self 0 ≠ v.(g_staged_lock) →
  pthread_join v orig_pthread_join tid st = if debug then Aborted else UB.
Proof.
  intros Hr Hno Hnull Hne. pose proof Hr as [Ho Hl (p & Hp & Hs) Hk Hc HR HS Hf].
  pose proof (statics_distinct v Hv) as Hd. set (m := st.(memory)) in *.
  assert (v.(g_staged_lock) ∈ statics_list v) as Hin by (unfold statics_list; rewrite !elem_of_cons; tauto).
  assert (∀ t a, t ∈ S → a ∈ td_scalars (t_td t) → a ≠ v.(g_staged_lock)) as Hsc.
  { intros t a Ht Ha. eapply (scalar_not_static v _ Hf (t_td t)); [|exact Ha|exact Hin].
    apply elem_of_app. left. apply threads_blocks_in, elem_of_app. by right. }
  set (m1 := <[v.(g_staged_lock) := 1]> m).
  assert (∀ a, a ≠ v.(g_staged_lock) → m1 !! a = m !! a) as Hm1 by (intros a Ha; unfold m1; by rewrite lookup_insert_ne by congruence).
  assert (tlist m1 p (t_td <$> S)) as Hs1.
  { eapply tlist_ext; [|exact Hs]. intros td (t & -> & Ht)%list_elem_of_fmap. apply Hm1. by apply (Hsc t); [|apply next_scalar]. }
  pose proof (tlist_size _ _ _ Hs (staged_nodup v ptrs _ _ _ _ _ Hr)) as Hsz. rewrite length_fmap in Hsz.
  assert (run (unstage v (Datatypes.S (size m)) tid) m = if debug then Aborted else UB) as Hun.
  { unfold unstage. rewrite run_bind_lock by exact Hk. fold m1. erewrite run_bind_rd by (rewrite Hm1 by (intuition congruence); exact Hp).
    destruct (p =? 0) eqn:E0.
    - assert (S = []) as -> by (destruct S; [done|]; destruct Hs as (-> & ? & _); lia). replace p with 0 in * by lia.
      destruct debug eqn:Edbg; [unfold c_assert; by rewrite Edbg|].
      rewrite run_bind_lift with (a := tt) by (unfold c_assert; by rewrite Edbg). rewrite run_bind.
      rewrite (find_staged_absent _ _ _ _ _ [] Hs1); [by rewrite Edbg|by intros u ?%elem_of_nil|by rewrite Hm1|cbn; lia|done].
    - rewrite run_bind_lift with (a := tt) by (by apply c_assert_true). rewrite run_bind.
      rewrite (find_staged_absent _ _ _ _ _ S Hs1); [by destruct debug| |by rewrite Hm1|lia|].
      + intros u Hu. split; [rewrite Hm1 by (apply (Hsc u); [done|scalar]); apply (tf_self _ _ _ (HS u Hu))|].
        intros <-. apply Hno. by apply list_elem_of_fmap_2.
      + intros ->. cbn in Hs. lia. }
  unfold pthread_join, threadscan_util_thread_data_cleanup. fold m.
  assert (in_memory (unstage v (Datatypes.S (size m)) tid) st = if debug then Aborted else UB) as Hin'.
  { rewrite (in_memory_eq _ _ _ Hun). by destruct debug. }
  destruct debug; [apply step_bind_aborted, step_bind_aborted|apply step_bind_UB, step_bind_UB]; exact Hin'.
Qed.

(** C38. The limit on threads: a creation ends the process exactly when more
    than [MAX_THREAD_COUNT] threads are counted already.  One thread more than
    the limit can exist. *)
Theorem thread_limit (orig_pthread_create : attr_t → Z → Z) F st R S attr real_attr start_routine arg :
  threads_ok st R S F → attr_usable attr real_attr → can_serve (statics_list v) st.(heap) (create_sizes real_attr) →
  (∀ a td, orig_pthread_create a td = 0) →
  if Z.of_nat (length R) <=? MAX_THREAD_COUNT
  then ∃ st', pthread_create v ptrs orig_pthread_create attr start_routine arg st = Ret (0, st') ∧
    st'.(memory) !! v.(g_thread_count) = Some (Z.of_nat (length R) + 1)
  else pthread_create v ptrs orig_pthread_create attr start_routine arg st = threadscan_fatal.
Proof.
  intros Hr Hattr Hserve Hret. pose proof (threads_ok_length _ _ _ _ Hr) as Hlen.
  destruct (Z.leb_spec (Z.of_nat (length R)) MAX_THREAD_COUNT) as [Hle|Hgt].
  - destruct (proj1 (wp_iff _ _) (hook_thread_ok _ _ _ _ _ _ _ start_routine arg Hr Hattr ltac:(lia)
      ltac:(unfold MAX_THREAD_COUNT, list_fuel in *; lia) Hserve)) as ([[td [ra stack]] st1] & E1 & t & Et & _ & _ & _ & _ & Hr1).
    cbn [fst snd] in *. injection Et as -> -> ->. exists st1. split; [|apply (tr_count _ _ _ _ _ _ _ Hr1)].
    unfold pthread_create. rewrite (step_bind_ret _ _ _ _ _ E1). cbn [fst snd]. rewrite Hret. done.
  - assert (hook_thread v ptrs attr start_routine arg st = threadscan_fatal) as E.
    { unfold hook_thread, sync_fetch_and_add. erewrite step_bind_ret
        by (erewrite in_memory_eq by (apply (counter_ok _ _ _ _ _ 1 Hr); unfold INT_MAX, list_fuel in *; lia); reflexivity).
      replace (MAX_THREAD_COUNT <? Z.of_nat (length R)) with true by lia. unfold lifted, threadscan_fatal. by destruct debug. }
    unfold pthread_create, mbind, step_bind at 1. rewrite E. unfold threadscan_fatal. by destruct debug.
Qed.
End creation.

(** ** Examples *)
#[export] Instance simple_attr : PthreadAttr (Z * Z) := {|
  pthread_attr_init := (0, (0, 0));
  pthread_attr_getstack a := (0, a);
  pthread_attr_setstack _ stack size := (0, (stack, size));
|}.

Definition ex_statics : statics_t := {|
  globals := {| thread_list_ := 0x1000; global_timestamp := 0x1028; self_stacks_searched := 0x1030 |};
  g_staged_lock := 0x1010; g_td_staged_to_free := 0x1018; g_thread_count := 0x1020 |}.

Definition ex_start : process bump_state := {|
  heap := {| bump_next := 0x100000; bump_live := ∅ |};
  memory := {[0x1000 := 0; 0x1008 := 0; 0x1010 := 0; 0x1018 := 0; 0x1020 := 1; 0x1028 := 1;
              0x7ffd3000 := 0; 0x7ffd3008 := 0; 0x7ffd3010 := 0]} |}.

(** The library succeeds, or does not. *)
Definition ex_create (err : Z) (_ : Z * Z) (_ : Z) : Z := err.
Definition ex_join (_ : Z) : Z := 0.

Lemma ex_statics_ok : statics_ok ex_statics.
Proof. split; [|done]. by apply (bool_decide_unpack (NoDup (statics_list ex_statics))). Qed.

Lemma ex_start_repr : threads_repr ex_statics 8192 ex_start [] [] [] 1.
Proof.
  split; try done; try by intros t ?%elem_of_nil.
  - split; [|constructor|done]. split; cbn; [lia|by intros a l ?%lookup_empty_Some|by intros a la b lb ?%lookup_empty_Some].
  - split; try done; [by exists 0|constructor|by intros td ?%elem_of_nil|unfold list_fuel; cbn; lia].
  - by exists 0.
  - by intros b x ?%elem_of_nil.
Qed.

(** The example's operating system has memory between the static variables and
    the stack. *)
Lemma ex_can_serve_below (fixed sizes : list Z) (h : bump_state) :
  Forall (λ x, x < 0x2000 ∨ 0x7ffd3000 <= x) fixed → 0x2000 <= h.(bump_next) → Forall (λ z, 0 <= z) sizes → h.(bump_next) + foldr Z.add 0 sizes <= 0x7ffd0000 →
  can_serve fixed h sizes.
Proof.
  intros Hall Hn Hs. revert h Hn. induction Hs as [|z sizes Hz Hs IH]; intros h Hn Hsum; [done|]. cbn in Hsum.
  assert (0 <= foldr Z.add 0 sizes) as H0.
  { clear -Hs. induction Hs as [|z sizes Hz Hs IH]; [done|]. cbn. lia. }
  split; [done|]. intros p h' [= <- <-]. split.
  - intros x Hx. rewrite Forall_forall in Hall. specialize (Hall x Hx). unfold outside. cbn. lia.
  - apply IH; cbn; lia.
Qed.

Lemma ex_can_serve (sizes : list Z) (h : bump_state) :
  0x2000 <= h.(bump_next) → Forall (λ z, 0 <= z) sizes → can_serve (statics_list ex_statics) h sizes.
Proof.
  intros Hn Hs. revert h Hn. induction Hs as [|z sizes Hz Hs IH]; intros h Hn; [done|]. split; [done|].
  intros p h' [= <- <-]. split.
  - assert (Forall (λ x, x < 0x2000) (statics_list ex_statics)) as Hall by (apply (bool_decide_unpack _); reflexivity).
    intros x Hx. rewrite Forall_forall in Hall. specialize (Hall x Hx). left. cbn. lia.
  - apply IH. cbn. lia.
Qed.

(** The arguments are on the stack. *)
Lemma ex_args_apart : args_apart ex_statics ex_start 0x7ffd3000 [].
Proof.
  split.
  - intros a Ha. unfold args_cells in Ha. repeat (apply elem_of_cons in Ha as [->|Ha]; [by eexists|]). by apply elem_of_nil in Ha.
  - assert (Forall (λ a, a ∉ statics_list ex_statics) (args_cells 0x7ffd3000 ++ [])) as Hall by (apply (bool_decide_unpack _); reflexivity).
    by rewrite Forall_forall in Hall.
  - by intros a ?%elem_of_nil.
Qed.

Lemma ex_attr_usable : attr_usable (H := debug_build) None (0, 0).
Proof. by split. Qed.

Definition ex_map : list Ascii.ascii := print_map ex_lines.

Lemma main_registers_witness :
  ∃ st' t, main_replacement (H := debug_build) ex_statics 1024 (Some ex_map) 0x401000 0x7ffd3000 0x7ffd2345 0x7ffd2300 7 1 0x7ffd5000 0x7ffd6000 ex_start =
    Ret ((0x401000, 0x7ffd3000), st') ∧ t.(t_low) = 0x7ffd1000.
Proof.
  destruct (main_registers (H := debug_build) ex_statics 1024 ex_statics_ok ltac:(done) eq_refl [] ex_start (Some ex_map) 0x401000 0x7ffd3000
    0x7ffd2345 0x7ffd2300 7 1 0x7ffd5000 0x7ffd6000 {| low := 0x7ffd1000; high := 0x7ffd4000 |} ex_start_repr)
    as (st' & t & E & _ & _ & _ & _ & Hlow & _).
  - apply ex_can_serve_below; [by apply (bool_decide_unpack _)|done|by repeat constructor|by vm_compute].
  - exact ex_args_apart.
  - vm_compute. reflexivity.
  - lia.
  - exists st', t. split; [exact E|exact Hlow].
Defined.

(** The main thread is registered. *)
Definition ex_main : process bump_state :=
  match main_replacement (H := debug_build) ex_statics 1024 (Some ex_map) 0x401000 0x7ffd3000 0x7ffd2345 0x7ffd2300 7 1 0x7ffd5000 0x7ffd6000 ex_start with
  | Ret (_, st) => st
  | _ => ex_start
  end.

Lemma ex_main_ok : ∃ t, t.(t_td) = 0x100000 ∧ t.(t_self) = 7 ∧ threads_ok ex_statics 1024 ex_main [t] [] [].
Proof.
  destruct (proj1 (wp_iff _ _) (main_ok (H := debug_build) ex_statics 1024 ex_statics_ok ltac:(done) eq_refl ex_start [] (Some ex_map)
    0x401000 0x7ffd3000 0x7ffd2345 0x7ffd2300 7 1 0x7ffd5000 0x7ffd6000 {| low := 0x7ffd1000; high := 0x7ffd4000 |} [] ex_start_repr
    ltac:(apply ex_can_serve_below; [by apply (bool_decide_unpack _)|done|by repeat constructor|by vm_compute]) ex_args_apart ltac:(vm_compute; reflexivity) ltac:(lia)))
    as ([r st] & E & _ & _ & _ & t & _ & _ & Hself & Hr). cbn [fst snd] in *.
  assert (ex_main = st) as -> by (unfold ex_main; by rewrite E).
  exists t. split; [|split; [exact Hself|exact Hr]].
  assert (match main_replacement (H := debug_build) ex_statics 1024 (Some ex_map) 0x401000 0x7ffd3000 0x7ffd2345 0x7ffd2300 7 1 0x7ffd5000 0x7ffd6000 ex_start with
    | Ret (_, st) => st.(memory) !! 0x1000 | _ => None end = Some 0x100000) as Hhead by (vm_compute; reflexivity).
  rewrite E in Hhead. destruct (tl_first _ _ _ (tr_list _ _ _ _ _ _ _ Hr)) as (p & Hp & (-> & _)).
  unfold tl_head, ex_statics in Hp. cbn [globals thread_list_] in Hp. congruence.
Qed.

Lemma ex_main_next : 0x2000 <= ex_main.(heap).(bump_next).
Proof. vm_compute. discriminate. Qed.

Lemma ex_create_enabled st R : 0x2000 <= st.(heap).(bump_next) → Z.of_nat (length R) <= 256 →
  enabled (H := debug_build) ex_statics 1024 (ex_create 0) ex_join st R [] (Create None 0x400000 1).
Proof.
  intros Hn Hl. exists (0, 0). split; [exact ex_attr_usable|]. split; [exact Hl|]. split; [|done].
  apply ex_can_serve; [exact Hn|]. by repeat constructor.
Qed.

Lemma create_exit_join_restores_witness :
  ∃ td st1 st', pthread_create (H := debug_build) ex_statics 1024 (ex_create 0) None 0x400000 1 ex_main = Ret (0, st1) ∧
    run_events (H := debug_build) ex_statics 1024 (ex_create 0) ex_join [Start td 0x7f001234 8; Exit td; Join 8] st1 = Ret ([0; 0; 0], st') ∧
    live st'.(heap) = live ex_main.(heap).
Proof.
  destruct ex_main_ok as (t & _ & _ & Hr).
  destruct (create_exit_join_restores (H := debug_build) ex_statics 1024 ex_statics_ok ltac:(done) eq_refl (ex_create 0) ex_join
    [] ex_main [t] [] None 0x400000 1 0x7f001234 8 Hr) as (td & st1 & st' & E1 & _ & E2 & _ & Hlive).
  - apply ex_create_enabled; [exact ex_main_next|done].
  - lia.
  - reflexivity.
  - exists td, st1, st'. split; [exact E1|]. split; [exact E2|exact Hlive].
Defined.

(** The main thread creates another one, ends, and is joined by it. *)
Lemma thread_lifecycle_witness :
  ∃ rs st', run_events (H := debug_build) ex_statics 1024 (ex_create 0) ex_join
    [Create None 0x400000 1; Exit 0x100000; Join 7] ex_main = Ret (rs, st') ∧ Forall (λ r, r = 0) rs.
Proof.
  destruct ex_main_ok as (t & Htd & Hself & Hr).
  destruct (thread_lifecycle (H := debug_build) ex_statics 1024 ex_statics_ok ltac:(done) eq_refl (ex_create 0) ex_join
    [] [Create None 0x400000 1; Exit 0x100000; Join 7] ex_main [t] [] Hr) as (rs & st' & R' & S' & E & Hrs & _).
  - split; [apply ex_create_enabled; [exact ex_main_next|done]|]. intros st1 R1 S1 _ Hl1 _. inversion Hl1; subst.
    split; [rewrite <- Htd; right; by left|]. intros st2 R2 S2 _ Hl2 Hr2. split; [|done]. split; [|done].
    inversion Hl2 as [| |A u B Heq| ]; subst. destruct A as [|a A]; [|destruct A as [|a' A]; [|destruct A; discriminate]].
    + exfalso. injection Heq as <- <-. cbn [app] in Hr2.
      pose proof (thread_tds_nodup _ _ _ _ _ _ _ Hr2) as Hnd. cbn in Hnd. apply NoDup_cons in Hnd as [Hnd _]. apply Hnd.
      rewrite elem_of_cons. left. congruence.
    + injection Heq as <- <- <-. rewrite <- Hself. by left.
  - exists rs, st'. split; [exact E|exact Hrs].
Defined.

Lemma failed_creation_dangles_witness :
  ∃ st', pthread_create (H := release_build) ex_statics 1024 (ex_create 11) None 0x400000 1 ex_main = Ret (11, st') ∧
    run (threadscan_proc_wait_for_timestamp (H := release_build) ex_statics.(globals) 2) st'.(memory) = UB.
Proof.
  destruct ex_main_ok as (t & _ & _ & Hr).
  destruct (failed_creation_dangles (H := release_build) ex_statics 1024 ex_statics_ok ltac:(done) eq_refl (ex_create 11)
    [] ex_main [t] [] None (0, 0) 0x400000 1 11 Hr) as (st' & E & _ & Hub).
  - by split.
  - done.
  - apply ex_can_serve; [exact ex_main_next|]. by repeat constructor.
  - done.
  - discriminate.
  - exists st'. split; [exact E|apply Hub].
Defined.

Lemma join_unknown_thread_witness : pthread_join (H := release_build) ex_statics ex_join 9 ex_main = UB.
Proof.
  destruct ex_main_ok as (t & _ & _ & Hr).
  apply (join_unknown_thread (H := release_build) ex_statics 1024 ex_statics_ok ltac:(done) ex_join [] ex_main [t] [] 9 _ Hr).
  - by intros ?%elem_of_nil.
  - vm_compute. reflexivity.
  - discriminate.
Defined.

Lemma thread_limit_witness :
  ∃ st', pthread_create (H := debug_build) ex_statics 1024 (ex_create 0) None 0x400000 1 ex_main = Ret (0, st').
Proof.
  destruct ex_main_ok as (t & _ & _ & Hr).
  destruct (thread_limit (H := debug_build) ex_statics 1024 ex_statics_ok ltac:(done) eq_refl (ex_create 0)
    [] ex_main [t] [] None (0, 0) 0x400000 1 Hr) as (st' & E & _).
  - exact ex_attr_usable.
  - apply ex_can_serve; [exact ex_main_next|]. by repeat constructor.
  - done.
  - exists st'. exact E.
Defined.
