(* ===== verification/Alloc.v ===== *)
(** * alloc.c: the internal allocator

    Blocks come from mmap.  Each has a node in a circular doubly-linked list
    that is sorted by address; unused nodes are in a free list.  Nodes are
    carved from pages that are blocks themselves: the first node of a page
    describes the page.  mmap, munmap and mprotect are the operating system's
    and parameters here.  All accesses to the lists are made while
    [list_lock] is held, so a call is one step of the model. *)

From S2P Require Import Prelude Conc Mem AllocIface.

Definition ALLOC_BLOCKSIZE : Z := PAGESIZE.
Definition MAP_FAILED : Z := 2 ^ 64 - 1. (* (void * )-1 *)

Record memory_metadata_t := { md_addr : Z; md_length : Z; md_next : Z; md_prev : Z }.
Definition sizeof_memory_metadata_t : Z := 32.

(** Assignments to the fields. *)
Definition put_addr (x : Z) (n : memory_metadata_t) : memory_metadata_t :=
  {| md_addr := x; md_length := n.(md_length); md_next := n.(md_next); md_prev := n.(md_prev) |}.
Definition put_length (x : Z) (n : memory_metadata_t) : memory_metadata_t :=
  {| md_addr := n.(md_addr); md_length := x; md_next := n.(md_next); md_prev := n.(md_prev) |}.
Definition put_next (x : Z) (n : memory_metadata_t) : memory_metadata_t :=
  {| md_addr := n.(md_addr); md_length := n.(md_length); md_next := x; md_prev := n.(md_prev) |}.
Definition put_prev (x : Z) (n : memory_metadata_t) : memory_metadata_t :=
  {| md_addr := n.(md_addr); md_length := n.(md_length); md_next := n.(md_next); md_prev := x |}.

(** The system calls: the result and the new state of the operating system. *)
Class VirtualMemory (VS : Type) := {
  mmap : Z → VS → Z * VS;
  munmap : Z → Z → VS → Z * VS;
  mprotect : Z → Z → VS → Z * VS;
}.

(** The static variables and the nodes, by address. *)
Record alloc_state (VS : Type) := {
  nodes : gmap Z memory_metadata_t;
  free_list : Z;
  alloc_list : Z;
  vm : VS;
}.
Arguments nodes {VS}.
Arguments free_list {VS}.
Arguments alloc_list {VS}.
Arguments vm {VS}.

Section code.
Context `{Build} {VS : Type} `{!VirtualMemory VS}.
Implicit Types s : alloc_state VS.

Definition with_nodes (m : gmap Z memory_metadata_t) s : alloc_state VS :=
  {| nodes := m; free_list := s.(free_list); alloc_list := s.(alloc_list); vm := s.(vm) |}.
Definition with_free_list (p : Z) s : alloc_state VS :=
  {| nodes := s.(nodes); free_list := p; alloc_list := s.(alloc_list); vm := s.(vm) |}.
Definition with_alloc_list (p : Z) s : alloc_state VS :=
  {| nodes := s.(nodes); free_list := s.(free_list); alloc_list := p; vm := s.(vm) |}.
Definition with_vm (v : VS) s : alloc_state VS :=
  {| nodes := s.(nodes); free_list := s.(free_list); alloc_list := s.(alloc_list); vm := v |}.

(** [p->field] and [p->field = x]. *)
Definition node (p : Z) s : outcome memory_metadata_t := of_option (s.(nodes) !! p).
Definition update (f : memory_metadata_t → memory_metadata_t) (p : Z) s : outcome (alloc_state VS) :=
  _ ← node p s; Ret (with_nodes (alter f p s.(nodes)) s).
Definition set_addr (x : Z) := update (put_addr x).
Definition set_length (x : Z) := update (put_length x).
Definition set_next (x : Z) := update (put_next x).
Definition set_prev (x : Z) := update (put_prev x).

Definition LOW_ADDR (m : memory_metadata_t) : Z := m.(md_addr).
Definition HIGH_ADDR (m : memory_metadata_t) : Z := u64 (LOW_ADDR m + m.(md_length)).

Definition mmap_wrap (size : Z) s : outcome (Z * alloc_state VS) :=
  let '(ptr, v) := mmap size s.(vm) in
  if ptr =? MAP_FAILED then threadscan_fatal
  else
    _ ← c_assert (negb (ptr =? 0));
    Ret (ptr, with_vm v s).

Definition munmap_wrap (addr length : Z) s : Z * alloc_state VS :=
  let '(r, v) := munmap addr length s.(vm) in (r, with_vm v s).

(** [while (go(curr)) curr = curr->next;] *)
Fixpoint walk_while (fuel : nat) (go : memory_metadata_t → bool) (curr : Z) s : outcome Z :=
  match fuel with
  | O => OutOfFuel
  | S fuel' =>
      n ← node curr s;
      if go n then walk_while fuel' go n.(md_next) s else Ret curr
  end.

Definition metadata_do_insert (meta : Z) s : outcome (alloc_state VS) :=
  if s.(alloc_list) =? 0 then
    s ← set_prev meta meta (with_alloc_list meta s);
    set_next meta meta s
  else
    head ← node s.(alloc_list) s;
    last ← node head.(md_prev) s;
    m ← node meta s;
    if HIGH_ADDR last <=? LOW_ADDR m then
      s ← set_prev head.(md_prev) meta s;
      s ← set_next s.(alloc_list) meta s;
      head ← node s.(alloc_list) s;
      s ← set_next meta head.(md_prev) s;
      set_prev meta s.(alloc_list) s
    else
      curr ← walk_while (S (size s.(nodes))) (λ n, LOW_ADDR n <? HIGH_ADDR m) s.(alloc_list) s;
      s ← set_next curr meta s;
      n ← node curr s;
      s ← set_prev n.(md_prev) meta s;
      n ← node curr s;
      s ← set_next meta n.(md_prev) s;
      s ← set_prev meta curr s;
      Ret (if curr =? s.(alloc_list) then with_alloc_list meta s else s).

(** [metadata_do_insert] while holding the lock. *)
Definition metadata_insert (meta : Z) s : outcome (alloc_state VS) := metadata_do_insert meta s.

Definition metadata_remove (fuel : nat) (addr : Z) s : outcome (Z * alloc_state VS) :=
  _ ← c_assert (negb (s.(alloc_list) =? 0));
  curr ← walk_while fuel (λ n, negb (n.(md_addr) =? addr)) s.(alloc_list) s;
  if curr =? 0 then threadscan_fatal
  else
    n ← node curr s;
    s ← set_prev n.(md_prev) n.(md_next) s;
    n ← node curr s;
    s ← set_next n.(md_next) n.(md_prev) s;
    n ← node curr s;
    let s := if curr =? s.(alloc_list) then with_alloc_list n.(md_next) s else s in
    s ← set_prev 0 curr s;
    s ← set_next 0 curr s;
    Ret (curr, s).

(** Memory from mmap is filled with zeros. *)
Definition zero_node : memory_metadata_t := {| md_addr := 0; md_length := 0; md_next := 0; md_prev := 0 |}.
Definition page_nodes (p : Z) : list Z :=
  (λ i, p + sizeof_memory_metadata_t * i) <$> seqZ 0 (ALLOC_BLOCKSIZE / sizeof_memory_metadata_t).
Definition map_page (p : Z) s : alloc_state VS :=
  with_nodes (list_to_map ((λ a, (a, zero_node)) <$> page_nodes p) ∪ s.(nodes)) s.

(** The loop that makes the rest of a page a list of nodes. *)
Definition carve (p : Z) (i : Z) s : outcome (alloc_state VS) :=
  let node := p + sizeof_memory_metadata_t * i in
  s ← set_next s.(free_list) node s;
  Ret (with_free_list node s).

Definition metadata_new s : outcome (Z * alloc_state VS) :=
  s ← (if s.(free_list) =? 0 then
         '(p, s) ← mmap_wrap ALLOC_BLOCKSIZE s;
         s ← set_addr p p (map_page p s);
         s ← set_length ALLOC_BLOCKSIZE p s;
         s ← metadata_do_insert p s;
         for_range 1 (ALLOC_BLOCKSIZE / sizeof_memory_metadata_t - 1) (carve p) s
       else Ret s);
  let ret := s.(free_list) in
  _ ← c_assert (negb (ret =? 0));
  n ← node ret s;
  Ret (ret, with_free_list n.(md_next) s).

Definition metadata_free (meta : Z) s : outcome (alloc_state VS) :=
  s ← set_next s.(free_list) meta s;
  Ret (with_free_list meta s).

Definition threadscan_alloc_mmap (size : Z) s : outcome (Z * alloc_state VS) :=
  '(meta, s) ← metadata_new s;
  _ ← c_assert (size `mod` PAGESIZE =? 0);
  _ ← c_assert (negb (meta =? 0));
  s ← set_length size meta s;
  '(p, s) ← mmap_wrap size s;
  s ← set_addr p meta s;
  _ ← c_assert (negb (p =? 0) && negb (p =? MAP_FAILED));
  s ← metadata_insert meta s;
  n ← node meta s;
  let '(_, v) := mprotect n.(md_addr) size s.(vm) in (* only a diagnostic if it fails *)
  Ret (n.(md_addr), with_vm v s).

Definition threadscan_alloc_munmap (ptr : Z) s : outcome (alloc_state VS) :=
  _ ← c_assert (negb (ptr =? 0));
  '(meta, s) ← metadata_remove (S (size s.(nodes))) ptr s;
  if meta =? 0 then threadscan_fatal
  else
    n ← node meta s;
    let '(r, s) := munmap_wrap n.(md_addr) n.(md_length) s in
    if negb (r =? 0) then threadscan_fatal
    else metadata_free meta s.
End code.

(** ** Rings

    [path m a l z]: from the node [a] through the nodes [l] to the node [z],
    every link in both directions. *)
Definition nxt (m : gmap Z memory_metadata_t) (p : Z) : Z := from_option md_next 0 (m !! p).
Definition prv (m : gmap Z memory_metadata_t) (p : Z) : Z := from_option md_prev 0 (m !! p).
Definition low_of (m : gmap Z memory_metadata_t) (p : Z) : Z := from_option md_addr 0 (m !! p).
Definition len_of (m : gmap Z memory_metadata_t) (p : Z) : Z := from_option md_length 0 (m !! p).

Definition link (m : gmap Z memory_metadata_t) (a b : Z) : Prop := nxt m a = b ∧ prv m b = a.

Fixpoint path (m : gmap Z memory_metadata_t) (a : Z) (l : list Z) (z : Z) : Prop :=
  match l with
  | [] => link m a z
  | b :: l' => link m a b ∧ path m b l' z
  end.

Definition ring (m : gmap Z memory_metadata_t) (l : list Z) : Prop :=
  match l with [] => True | a :: l' => path m a l' a end.

Lemma path_app m a l1 b l2 z : path m a (l1 ++ b :: l2) z ↔ path m a l1 b ∧ path m b l2 z.
Proof. revert a. induction l1 as [|c l1 IH]; intros a; simpl; [done|]. rewrite IH. tauto. Qed.

(** A ring can be entered anywhere. *)
Lemma ring_rotate m l1 l2 : ring m (l1 ++ l2) → ring m (l2 ++ l1).
Proof.
  destruct l1 as [|a l1]; [by rewrite app_nil_r|]. destruct l2 as [|b l2]; [by rewrite app_nil_r|].
  simpl. rewrite !path_app. tauto.
Qed.

(** A path depends on the [next] fields of its nodes but the last, and on the
    [prev] fields of its nodes but the first. *)
Lemma path_ext m m' a l z :
  (∀ p, p ∈ a :: l → nxt m' p = nxt m p) → (∀ p, p ∈ l ++ [z] → prv m' p = prv m p) →
  path m a l z → path m' a l z.
Proof.
  revert a. induction l as [|b l IH]; intros a Hn Hp; simpl; unfold link.
  - by rewrite Hn, Hp by by left.
  - intros [[H1 H2] Hl]. split; [split; [rewrite Hn by (by left); done|rewrite Hp by (by left); done]|].
    apply IH; [intros p Hin; apply Hn; by right|intros p Hin; apply Hp; by right|done].
Qed.

Lemma ring_ext m m' l :
  (∀ p, p ∈ l → nxt m' p = nxt m p ∧ prv m' p = prv m p) → ring m l → ring m' l.
Proof.
  destruct l as [|a l]; [done|]. intros H. apply path_ext.
  - intros p Hp. by apply H.
  - intros p [Hp| ->%list_elem_of_singleton]%elem_of_app; apply H; [by right|by left].
Qed.

(** Insertion of [x] before the node a ring is entered at. *)
Lemma ring_insert m m' c l x :
  let p := prv m c in
  ring m (c :: l) → NoDup (c :: l) → x ∉ c :: l →
  nxt m' x = c → prv m' x = p → nxt m' p = x → prv m' c = x →
  (∀ q, q ≠ x → q ≠ p → nxt m' q = nxt m q) → (∀ q, q ≠ x → q ≠ c → prv m' q = prv m q) →
  ring m' (c :: l ++ [x]).
Proof.
  intros p Hr Hnd Hx Hnx Hpx Hnp Hpc Hn Hp. cbn [ring] in *.
  destruct (snoc_cases l) as [->|(l1 & y & ->)].
  { (* a single node *)
    assert (p = c) as Hpc' by (unfold p; apply Hr). rewrite Hpc' in *. split; [done|]. split; [done|]. done. }
  apply path_app in Hr as [Hr1 Hr2]. assert (p = y) as -> by (unfold p; apply Hr2).
  rewrite <- app_assoc. cbn [app]. rewrite path_app. split; [|split; [done|done]].
  apply NoDup_cons in Hnd as [Hc Hnd]. apply NoDup_app in Hnd as (Hnd1 & Hy & _).
  apply not_elem_of_cons in Hx as [Hxc Hx]. apply not_elem_of_app in Hx as [Hx1 Hxy].
  apply not_elem_of_app in Hc as [Hc1 Hcy]. rewrite !not_elem_of_cons in Hxy, Hcy.
  assert (y ∉ l1) as Hyl by (intros Hin; apply (Hy y Hin); by left).
  eapply path_ext; [| |exact Hr1].
  - intros q [->|Hq]%elem_of_cons; apply Hn; intuition congruence.
  - intros q [Hq| ->%list_elem_of_singleton]%elem_of_app; apply Hp; intuition congruence.
Qed.

(** Removal of the node a ring is entered at. *)
Lemma ring_remove m m' c l :
  let p := prv m c in
  let n := nxt m c in
  l ≠ [] → ring m (c :: l) → NoDup (c :: l) →
  nxt m' p = n → prv m' n = p →
  (∀ q, q ≠ p → q ≠ c → nxt m' q = nxt m q) → (∀ q, q ≠ n → q ≠ c → prv m' q = prv m q) →
  ring m' l.
Proof.
  intros p n Hl Hr Hnd Hnp Hpn Hn Hp. destruct l as [|b l]; [done|]. cbn [ring path] in *.
  destruct Hr as [[Hcb Hbc] Hr]. assert (n = b) as -> by done.
  apply NoDup_cons in Hnd as [Hc Hnd]. destruct (snoc_cases l) as [->|(l1 & y & ->)].
  { assert (p = b) as Hpb by (unfold p; apply Hr). rewrite Hpb in *. by split. }
  apply path_app in Hr as [Hr1 Hr2]. assert (p = y) as -> by (unfold p; apply Hr2).
  rewrite path_app. split; [|by split].
  apply NoDup_cons in Hnd as [Hb Hnd]. apply NoDup_app in Hnd as (Hnd1 & Hy & _).
  apply not_elem_of_cons in Hc as [Hcb' Hc]. apply not_elem_of_app in Hc as [Hc1 Hcy].
  apply not_elem_of_app in Hb as [Hb1 Hby]. rewrite !not_elem_of_cons in Hcy, Hby.
  assert (y ∉ l1) as Hyl by (intros Hin; apply (Hy y Hin); by left).
  eapply path_ext; [| |exact Hr1].
  - intros q [->|Hq]%elem_of_cons; apply Hn; intuition congruence.
  - intros q [Hq| ->%list_elem_of_singleton]%elem_of_app; apply Hp; intuition congruence.
Qed.

Lemma ring_prv_in m c l : ring m (c :: l) → prv m c ∈ c :: l.
Proof.
  cbn [ring]. destruct (snoc_cases l) as [->|(l1 & y & ->)].
  - intros [_ ->]. by left.
  - rewrite path_app. intros (_ & _ & ->). right. apply elem_of_app. right. by left.
Qed.

Lemma ring_nxt_in m c l : ring m (c :: l) → nxt m c ∈ c :: l.
Proof. destruct l as [|b l]; [intros [-> _]; by left|]. intros [[-> _] _]. right. by left. Qed.

(** ** Fields after an assignment *)
Section fields.
Context (m : gmap Z memory_metadata_t) (p x : Z) (Hp : is_Some (m !! p)).

Lemma field_alter (g : memory_metadata_t → Z) f q :
  from_option g 0 (alter f p m !! q) = if decide (q = p) then from_option (g ∘ f) 0 (m !! p) else from_option g 0 (m !! q).
Proof.
  clear Hp. case_decide as E; [subst q; rewrite lookup_alter_eq; by destruct (m !! p)|by rewrite lookup_alter_ne].
Qed.

Lemma field_alter_same (g : memory_metadata_t → Z) f q :
  (∀ n, g (f n) = g n) → from_option g 0 (alter f p m !! q) = from_option g 0 (m !! q).
Proof. clear Hp. intros Hg. rewrite field_alter. case_decide as E; [subst q|done]. destruct (m !! p); simpl; auto. Qed.

Lemma field_alter_put (g : memory_metadata_t → Z) f q :
  (∀ n, g (f n) = x) → from_option g 0 (alter f p m !! q) = if decide (q = p) then x else from_option g 0 (m !! q).
Proof. intros Hg. rewrite field_alter. case_decide as E; [subst q|done]. destruct Hp as [n ->]. simpl. auto. Qed.

Lemma nxt_put_next q : nxt (alter (put_next x) p m) q = if decide (q = p) then x else nxt m q.
Proof. by apply field_alter_put. Qed.
Lemma prv_put_prev q : prv (alter (put_prev x) p m) q = if decide (q = p) then x else prv m q.
Proof. by apply field_alter_put. Qed.
Lemma low_put_addr q : low_of (alter (put_addr x) p m) q = if decide (q = p) then x else low_of m q.
Proof. by apply field_alter_put. Qed.
Lemma len_put_length q : len_of (alter (put_length x) p m) q = if decide (q = p) then x else len_of m q.
Proof. by apply field_alter_put. Qed.
End fields.

Lemma nxt_put_prev m p x q : nxt (alter (put_prev x) p m) q = nxt m q.
Proof. apply field_alter_same. by intros. Qed.
Lemma prv_put_next m p x q : prv (alter (put_next x) p m) q = prv m q.
Proof. apply field_alter_same. by intros. Qed.
Lemma nxt_put_addr m p x q : nxt (alter (put_addr x) p m) q = nxt m q.
Proof. apply field_alter_same. by intros. Qed.
Lemma prv_put_addr m p x q : prv (alter (put_addr x) p m) q = prv m q.
Proof. apply field_alter_same. by intros. Qed.
Lemma nxt_put_length m p x q : nxt (alter (put_length x) p m) q = nxt m q.
Proof. apply field_alter_same. by intros. Qed.
Lemma prv_put_length m p x q : prv (alter (put_length x) p m) q = prv m q.
Proof. apply field_alter_same. by intros. Qed.
Lemma low_put_next m p x q : low_of (alter (put_next x) p m) q = low_of m q.
Proof. apply field_alter_same. by intros. Qed.
Lemma low_put_prev m p x q : low_of (alter (put_prev x) p m) q = low_of m q.
Proof. apply field_alter_same. by intros. Qed.
Lemma low_put_length m p x q : low_of (alter (put_length x) p m) q = low_of m q.
Proof. apply field_alter_same. by intros. Qed.
Lemma len_put_next m p x q : len_of (alter (put_next x) p m) q = len_of m q.
Proof. apply field_alter_same. by intros. Qed.
Lemma len_put_prev m p x q : len_of (alter (put_prev x) p m) q = len_of m q.
Proof. apply field_alter_same. by intros. Qed.
Lemma len_put_addr m p x q : len_of (alter (put_addr x) p m) q = len_of m q.
Proof. apply field_alter_same. by intros. Qed.

Lemma node_alter (m : gmap Z memory_metadata_t) f p q : is_Some (alter f p m !! q) ↔ is_Some (m !! q).
Proof. apply lookup_alter_is_Some. Qed.

(** The fields that an assignment leaves alone, and whether a node exists. *)
Create Rewrite HintDb fields.
#[export] Hint Rewrite nxt_put_prev prv_put_next nxt_put_addr prv_put_addr nxt_put_length prv_put_length
  low_put_next low_put_prev low_put_length len_put_next len_put_prev len_put_addr
  node_alter : fields.

(** Fields after a sequence of assignments to nodes that exist. *)
Ltac fields :=
  repeat first
    [ progress autorewrite with fields
    | rewrite nxt_put_next by (autorewrite with fields; assumption)
    | rewrite prv_put_prev by (autorewrite with fields; assumption)
    | rewrite low_put_addr by (autorewrite with fields; assumption)
    | rewrite len_put_length by (autorewrite with fields; assumption) ].

Ltac state_simpl :=
  cbn [with_nodes with_free_list with_alloc_list with_vm nodes free_list alloc_list vm].

(** ** The list of blocks *)
Section lists.
Context `{Build} {VS : Type} `{!VirtualMemory VS}.
Implicit Types s : alloc_state VS.

Lemma node_ok p s : is_Some (s.(nodes) !! p) → ∃ n, node p s = Ret n ∧ s.(nodes) !! p = Some n ∧
  n.(md_addr) = low_of s.(nodes) p ∧ n.(md_length) = len_of s.(nodes) p ∧
  n.(md_next) = nxt s.(nodes) p ∧ n.(md_prev) = prv s.(nodes) p.
Proof.
  intros [n Hn]. exists n. unfold node, low_of, len_of, nxt, prv. rewrite Hn. by repeat split.
Qed.

Lemma update_ok f p s : is_Some (s.(nodes) !! p) → update f p s = Ret (with_nodes (alter f p s.(nodes)) s).
Proof. intros [n Hn]. unfold update, node. by rewrite Hn. Qed.

(** A walk from [a] along [next] stops at the first node [go] rejects. *)
Lemma walk_while_ok go s fuel a l z l1 d l2 :
  path s.(nodes) a l z → a :: l = l1 ++ d :: l2 → (length l1 < fuel)%nat →
  (∀ p, p ∈ a :: l → is_Some (s.(nodes) !! p)) →
  (∀ p n, p ∈ l1 → s.(nodes) !! p = Some n → go n = true) →
  (∀ n, s.(nodes) !! d = Some n → go n = false) →
  walk_while fuel go a s = Ret d.
Proof.
  revert a l l1. induction fuel as [|fuel IH]; intros a l l1 Hp E Hf Hs Hgo Hd; [lia|].
  destruct (node_ok a s) as (n & Hn & Hl & _ & _ & Hnx & _); [apply Hs; by left|].
  cbn [walk_while]. rewrite Hn. cbn [mbind outcome_bind]. destruct l1 as [|a' l1]; injection E as -> E.
  - by rewrite (Hd n Hl).
  - rewrite (Hgo a' n) by (done || by left). subst l.
    assert (∃ b l', l1 ++ d :: l2 = b :: l') as (b & l' & E) by (destruct l1; by eexists _, _).
    rewrite E in Hp. destruct Hp as [[Hb _] Hp]. rewrite Hnx, Hb.
    apply (IH b l' l1); [done|done|simpl in Hf; lia| | |done].
    + intros p Hin. apply Hs. right. by rewrite E.
    + intros p n' Hin. apply Hgo. by right.
Qed.

(** Where no node is rejected the walk goes round and round. *)
Lemma walk_while_forever go s fuel c l a :
  ring s.(nodes) (c :: l) → a ∈ c :: l → (∀ p, p ∈ c :: l → ∃ n, s.(nodes) !! p = Some n ∧ go n = true) →
  walk_while fuel go a s = OutOfFuel.
Proof.
  intros Hr. revert a. induction fuel as [|fuel IH]; intros a Ha Hgo; [done|].
  destruct (Hgo a Ha) as (n & Hn & Hg). cbn [walk_while]. unfold node. rewrite Hn. cbn [of_option mbind outcome_bind].
  rewrite Hg. apply IH; [|done]. assert (n.(md_next) = nxt s.(nodes) a) as -> by (unfold nxt; by rewrite Hn).
  apply list_elem_of_split in Ha as (l1 & l2 & E). rewrite E in Hr. apply ring_rotate in Hr. rewrite E.
  cbn [app] in Hr. pose proof (ring_nxt_in _ _ _ Hr) as Hin. rewrite elem_of_app. rewrite elem_of_cons, elem_of_app in Hin.
  rewrite elem_of_cons. tauto.
Qed.

(** The regions the nodes describe, in increasing order. *)
Definition before (m : gmap Z memory_metadata_t) (p q : Z) : Prop := low_of m p + len_of m p <= low_of m q.
Definition region_ok (m : gmap Z memory_metadata_t) (p : Z) : Prop :=
  0 < low_of m p ∧ 0 < len_of m p ∧ low_of m p + len_of m p < 2 ^ 64.
Definition apart (m : gmap Z memory_metadata_t) (p q : Z) : Prop := before m p q ∨ before m q p.

Record blocks_list s (ns : list Z) : Prop := {
  bl_head : s.(alloc_list) = default 0 (head ns);
  bl_ring : ring s.(nodes) ns;
  bl_nodup : NoDup ns;
  bl_nodes : ∀ p, p ∈ ns → p ≠ 0 ∧ is_Some (s.(nodes) !! p) ∧ region_ok s.(nodes) p;
  bl_sorted : StronglySorted (before s.(nodes)) ns;
}.

(** What an insertion or a removal does not change: all but the links of the
    nodes [ns]. *)
Record same_but_links s s' (ns : list Z) : Prop := {
  sb_free : s'.(free_list) = s.(free_list);
  sb_vm : s'.(vm) = s.(vm);
  sb_dom : ∀ q, is_Some (s'.(nodes) !! q) ↔ is_Some (s.(nodes) !! q);
  sb_low : ∀ q, low_of s'.(nodes) q = low_of s.(nodes) q;
  sb_len : ∀ q, len_of s'.(nodes) q = len_of s.(nodes) q;
  sb_next : ∀ q, q ∉ ns → nxt s'.(nodes) q = nxt s.(nodes) q;
}.

Lemma high_addr_small n p s : region_ok s.(nodes) p → n.(md_addr) = low_of s.(nodes) p →
  n.(md_length) = len_of s.(nodes) p → HIGH_ADDR n = low_of s.(nodes) p + len_of s.(nodes) p.
Proof. intros (? & ? & ?) Ea El. unfold HIGH_ADDR, LOW_ADDR. rewrite Ea, El. apply u64_small. lia. Qed.

Lemma blocks_list_links s s' ns ns' :
  same_but_links s s' ns' → (∀ p, p ∈ ns' → p ≠ 0 ∧ is_Some (s.(nodes) !! p) ∧ region_ok s.(nodes) p) →
  s'.(alloc_list) = default 0 (head ns) → ring s'.(nodes) ns → NoDup ns → ns ⊆ ns' →
  StronglySorted (before s.(nodes)) ns → blocks_list s' ns.
Proof.
  intros [_ _ Hd Hlo Hle _] Hn Hh Hr Hnd Hsub Hs. split; try done.
  - intros p Hp. destruct (Hn p (Hsub p Hp)) as (? & ? & Hreg). split; [done|]. split; [by apply Hd|].
    unfold region_ok. by rewrite Hlo, Hle.
  - clear -Hs Hlo Hle. induction Hs as [|p l Hl IH Hp]; constructor; [done|].
    eapply Forall_impl; [exact Hp|]. intros q. unfold before. by rewrite !Hlo, Hle.
Qed.

(** ** Insertion *)

(** The four assignments that put [x] between the neighbours [p] and [c]; the
    code makes them in one of two orders. *)
Definition linked_between (m m' : gmap Z memory_metadata_t) (p x c : Z) : Prop :=
  (∀ q, nxt m' q = if decide (q = p) then x else if decide (q = x) then c else nxt m q) ∧
  (∀ q, prv m' q = if decide (q = c) then x else if decide (q = x) then p else prv m q) ∧
  (∀ q, low_of m' q = low_of m q) ∧ (∀ q, len_of m' q = len_of m q) ∧
  (∀ q, is_Some (m' !! q) ↔ is_Some (m !! q)).

Lemma linked_ring m m' A B x c R :
  B ++ A = c :: R → ring m (A ++ B) → NoDup (A ++ B) → x ∉ A ++ B →
  linked_between m m' (prv m c) x c → ring m' (A ++ x :: B).
Proof.
  intros E Hr Hnd Hx (Hn & Hp & _). apply ring_rotate in Hr. rewrite Permutation_app_comm in Hnd, Hx. rewrite E in *.
  pose proof (ring_prv_in _ _ _ Hr) as Hin.
  replace (A ++ x :: B) with ((A ++ [x]) ++ B) by (by rewrite <- app_assoc).
  apply ring_rotate. rewrite app_assoc, E.
  assert (prv m c ≠ x) by (by intros <-). assert (c ≠ x) by (intros ->; apply Hx; by left).
  apply (ring_insert m m'); try done.
  - rewrite Hn. repeat case_decide; congruence.
  - rewrite Hp. repeat case_decide; congruence.
  - rewrite Hn. by case_decide.
  - rewrite Hp. by case_decide.
  - intros q ??. rewrite Hn. repeat case_decide; congruence.
  - intros q ??. rewrite Hp. repeat case_decide; congruence.
Qed.

Lemma linked_blocks_list s s' A B x c R :
  blocks_list s (A ++ B) → B ++ A = c :: R → x ∉ A ++ B → x ≠ 0 → is_Some (s.(nodes) !! x) →
  region_ok s.(nodes) x → (∀ p, p ∈ A → before s.(nodes) p x) → (∀ p, p ∈ B → before s.(nodes) x p) →
  linked_between s.(nodes) s'.(nodes) (prv s.(nodes) c) x c →
  s'.(free_list) = s.(free_list) → s'.(vm) = s.(vm) → s'.(alloc_list) = default 0 (head (A ++ x :: B)) →
  blocks_list s' (A ++ x :: B) ∧ same_but_links s s' (A ++ x :: B).
Proof.
  intros [Hh Hr Hnd Hns Hs] E Hx Hx0 Hxs Hxr HA HB Hl Hf Hv Ha. pose proof Hl as (Hn & _ & Hlo & Hle & Hdom).
  assert (same_but_links s s' (A ++ x :: B)) as Hsame.
  { split; try done. intros q Hq. rewrite Hn. rewrite elem_of_app, elem_of_cons in Hq.
    assert (prv (nodes s) c ∈ A ++ B) as Hin.
    { apply ring_rotate in Hr. rewrite E in Hr. pose proof (ring_prv_in _ _ _ Hr) as Hin. rewrite <- E in Hin.
      rewrite elem_of_app in *. tauto. }
    rewrite elem_of_app in Hin. repeat case_decide; subst; tauto. }
  split; [|done]. apply (blocks_list_links s s' _ (A ++ x :: B)); try done.
  - intros p Hp. rewrite elem_of_app, elem_of_cons in Hp. destruct (decide (p = x)) as [->|]; [done|].
    apply Hns. rewrite elem_of_app. tauto.
  - by eapply linked_ring.
  - rewrite <- Permutation_middle. by constructor.
  - rewrite StronglySorted_app in Hs. destruct Hs as (HAB & HsA & HsB).
    apply StronglySorted_app_2; [|done|constructor; [done|by apply Forall_forall]].
    intros p q Hp [->|Hq]%elem_of_cons; auto.
Qed.

Lemma ring_last m c l : ring m (c :: l) → ∃ l', c :: l = l' ++ [prv m c].
Proof.
  cbn [ring]. destruct (snoc_cases l) as [->|(l1 & y & ->)].
  - intros [_ ->]. by exists [].
  - rewrite path_app. intros (_ & _ & ->). by exists (c :: l1).
Qed.

Lemma blocks_list_size s ns : blocks_list s ns → (length ns <= size s.(nodes))%nat.
Proof.
  intros Hb. rewrite <- size_dom, <- (size_list_to_set (C := gset Z)) by apply (bl_nodup _ _ Hb).
  apply subseteq_size. intros p Hp%elem_of_list_to_set. apply elem_of_dom. by apply (bl_nodes _ _ Hb).
Qed.

(** The last block is the one with the highest addresses. *)
Lemma before_last s ns c l x :
  blocks_list s ns → ns = c :: l → before s.(nodes) (prv s.(nodes) c) x → ∀ p, p ∈ ns → before s.(nodes) p x.
Proof.
  intros Hb -> Hx p Hp. pose proof (bl_ring _ _ Hb) as Hr. destruct (ring_last _ _ _ Hr) as [l' E].
  pose proof (bl_sorted _ _ Hb) as Hs. pose proof (bl_nodes _ _ Hb _ (ring_prv_in _ _ _ Hr)) as (_ & _ & ? & ? & ?).
  rewrite E in Hs, Hp. apply elem_of_app in Hp as [Hp| ->%list_elem_of_singleton]; [|done].
  pose proof (StronglySorted_app_1_elem_of _ _ _ _ _ Hs Hp ltac:(by left)) as Hbp. unfold before in *. lia.
Qed.

Lemma insert_first s x :
  blocks_list s [] → x ≠ 0 → is_Some (s.(nodes) !! x) → region_ok s.(nodes) x →
  wp (s ← set_prev x x (with_alloc_list x s); set_next x x s) (λ s', blocks_list s' [x] ∧ same_but_links s s' [x]).
Proof.
  intros [Hh _ _ _ _] Hx0 Hxs Hxr. unfold set_prev, set_next.
  rewrite update_ok by done. cbn [mbind outcome_bind]. rewrite update_ok by (state_simpl; by fields). apply wp_ret.
  state_simpl.
  set (s' := with_nodes _ _).
  assert (same_but_links s s' [x]) as Hsame.
  { split; try done; intros q; unfold s'; state_simpl; fields; [done..|]. intros Hq.
    rewrite decide_False; [done|]. intros ->. apply Hq. by left. }
  split; [|done]. apply (blocks_list_links s s' [x] [x]); try done.
  - by intros p ->%list_elem_of_singleton.
  - unfold s'. state_simpl. split; fields; by rewrite decide_True.
  - apply NoDup_singleton.
  - repeat constructor.
Qed.

(** The assignments that insert [x] after the last node [p]. *)
Definition link_last (x p : Z) s : outcome (alloc_state VS) :=
  s ← set_prev p x s;
  s ← set_next s.(alloc_list) x s;
  head ← node s.(alloc_list) s;
  s ← set_next x head.(md_prev) s;
  set_prev x s.(alloc_list) s.

Lemma insert_last s c l x :
  blocks_list s (c :: l) → x ∉ c :: l → x ≠ 0 → is_Some (s.(nodes) !! x) → region_ok s.(nodes) x →
  before s.(nodes) (prv s.(nodes) c) x →
  wp (link_last x (prv s.(nodes) c) s) (λ s', blocks_list s' ((c :: l) ++ [x]) ∧ same_but_links s s' ((c :: l) ++ [x])).
Proof.
  intros Hb Hx Hx0 Hxs Hxr Hlast. set (p := prv s.(nodes) c) in *.
  pose proof (bl_ring _ _ Hb) as Hr.
  assert (is_Some (s.(nodes) !! c)) as Hcs by (apply (bl_nodes _ _ Hb); by left).
  assert (is_Some (s.(nodes) !! p)) as Hps by (apply (bl_nodes _ _ Hb), ring_prv_in, Hr).
  apply not_elem_of_cons in Hx as Hx'. destruct Hx' as [Hxc _].
  assert (alloc_list s = c) as Hc by (apply (bl_head _ _ Hb)).
  unfold link_last, set_prev, set_next. rewrite update_ok by done. cbn [mbind outcome_bind].
  rewrite update_ok by (state_simpl; by fields). cbn [mbind outcome_bind with_nodes nodes alloc_list]. rewrite Hc.
  set (s2 := with_nodes _ (with_nodes _ s)).
  destruct (node_ok c s2) as (n & Hn & _ & _ & _ & _ & Hnp); [unfold s2; state_simpl; by fields|].
  rewrite Hn. cbn [mbind outcome_bind].
  assert (n.(md_prev) = p) as ->.
  { rewrite Hnp. unfold s2. state_simpl. fields. by rewrite decide_False. }
  rewrite update_ok by (unfold s2; state_simpl; by fields). cbn [mbind outcome_bind with_nodes alloc_list].
  replace (alloc_list s2) with c by done. rewrite update_ok by (unfold s2; state_simpl; by fields). apply wp_ret.
  apply (linked_blocks_list s _ (c :: l) [] x c l); try done; unfold s2; state_simpl.
  - by rewrite app_nil_r.
  - by rewrite app_nil_r.
  - intros q Hq. by eapply before_last.
  - by intros q ?%elem_of_nil.
  - split; [intros q; by fields|]. split; [intros q; by fields|].
    split; [intros q; by fields|]. split; intros q; by fields.
Qed.

(** The assignments that insert [x] before [d]. *)
Definition link_before (x d : Z) s : outcome (alloc_state VS) :=
  s ← set_next d x s;
  n ← node d s;
  s ← set_prev n.(md_prev) x s;
  n ← node d s;
  s ← set_next x n.(md_prev) s;
  s ← set_prev x d s;
  Ret (if d =? s.(alloc_list) then with_alloc_list x s else s).

Lemma insert_before s A d B x :
  blocks_list s (A ++ d :: B) → x ∉ A ++ d :: B → x ≠ 0 → is_Some (s.(nodes) !! x) → region_ok s.(nodes) x →
  (∀ p, p ∈ A → before s.(nodes) p x) → (∀ p, p ∈ d :: B → before s.(nodes) x p) →
  wp (link_before x d s) (λ s', blocks_list s' (A ++ x :: d :: B) ∧ same_but_links s s' (A ++ x :: d :: B)).
Proof.
  intros Hb Hx Hx0 Hxs Hxr HA HB. pose proof (ring_rotate _ _ _ (bl_ring _ _ Hb)) as Hr. cbn [app] in Hr.
  set (p := prv s.(nodes) d).
  assert (is_Some (s.(nodes) !! d)) as Hds by (apply (bl_nodes _ _ Hb), elem_of_app; right; by left).
  assert (is_Some (s.(nodes) !! p)) as Hps.
  { apply (bl_nodes _ _ Hb). rewrite Permutation_app_comm. exact (ring_prv_in _ _ _ Hr). }
  assert (d ≠ x) as Hdx by (intros ->; apply Hx, elem_of_app; right; by left).
  unfold link_before, set_prev, set_next. rewrite update_ok by done. cbn [mbind outcome_bind].
  set (s1 := with_nodes _ s).
  destruct (node_ok d s1) as (n & Hn & _ & _ & _ & _ & Hnp); [unfold s1; state_simpl; by fields|].
  rewrite Hn. cbn [mbind outcome_bind].
  assert (n.(md_prev) = p) as -> by (rewrite Hnp; unfold s1; state_simpl; by fields).
  rewrite update_ok by (unfold s1; state_simpl; by fields). cbn [mbind outcome_bind].
  set (s2 := with_nodes _ s1). clear n Hn Hnp.
  destruct (node_ok d s2) as (n & Hn & _ & _ & _ & _ & Hnp); [unfold s2, s1; state_simpl; by fields|].
  rewrite Hn. cbn [mbind outcome_bind].
  assert (n.(md_prev) = p) as ->.
  { rewrite Hnp. unfold s2, s1. state_simpl. fields. by rewrite decide_False. }
  rewrite update_ok by (unfold s2, s1; state_simpl; by fields). cbn [mbind outcome_bind].
  rewrite update_ok by (unfold s2, s1; state_simpl; by fields). cbn [mbind outcome_bind]. apply wp_ret.
  set (s3 := with_nodes _ (with_nodes _ s2)).
  assert (linked_between s.(nodes) s3.(nodes) p x d) as Hl.
  { unfold s3, s2, s1. state_simpl. split; [intros q; by fields|]. split; [intros q; by fields|].
    split; [intros q; by fields|]. split; intros q; by fields. }
  assert (d = s.(alloc_list) ↔ A = []) as Hhead.
  { rewrite (bl_head _ _ Hb). pose proof (bl_nodup _ _ Hb) as Hnd. destruct A as [|a A]; [done|]. cbn.
    split; [|done]. intros ->. cbn in Hnd. apply NoDup_cons in Hnd as [Hnin _]. destruct Hnin. apply elem_of_app. right. by left. }
  assert (s3.(alloc_list) = s.(alloc_list)) as E by done. rewrite E.
  apply (linked_blocks_list s _ A (d :: B) x d (B ++ A)); try done.
  - by destruct (d =? alloc_list s).
  - by destruct (d =? alloc_list s).
  - by destruct (d =? alloc_list s).
  - destruct (Z.eqb_spec d (alloc_list s)) as [Ed|Ed].
    + by rewrite (proj1 Hhead Ed).
    + rewrite E, (bl_head _ _ Hb). destruct A as [|a A]; [by destruct Ed; apply Hhead|done].
Qed.

Lemma metadata_do_insert_ok s ns x :
  blocks_list s ns → x ∉ ns → x ≠ 0 → is_Some (s.(nodes) !! x) → region_ok s.(nodes) x →
  (∀ p, p ∈ ns → apart s.(nodes) p x) →
  wp (metadata_do_insert x s) (λ s', ∃ A B, ns = A ++ B ∧
    blocks_list s' (A ++ x :: B) ∧ same_but_links s s' (A ++ x :: B)).
Proof.
  intros Hb Hx Hx0 Hxs Hxr Hap. unfold metadata_do_insert. rewrite (bl_head _ _ Hb). destruct ns as [|c l]; cbn [head default from_option id].
  { eapply wp_mono; [by apply insert_first|]. intros s' [H1 H2]. by exists [], []. }
  destruct (bl_nodes _ _ Hb c ltac:(by left)) as (Hc0 & Hcs & _). replace (c =? 0) with false by lia.
  destruct (node_ok c s Hcs) as (hd & Hhd & _ & _ & _ & _ & Hhp). rewrite Hhd. cbn [mbind outcome_bind].
  rewrite Hhp. set (p := prv s.(nodes) c).
  pose proof (ring_prv_in _ _ _ (bl_ring _ _ Hb)) as Hp. fold p in Hp.
  destruct (bl_nodes _ _ Hb p Hp) as (_ & Hps & Hpr).
  destruct (node_ok p s Hps) as (last & Hlast & _ & Hla & Hll & _ & _). rewrite Hlast. cbn [mbind outcome_bind].
  destruct (node_ok x s Hxs) as (m & Hm & _ & Hma & Hml & _ & _). rewrite Hm. cbn [mbind outcome_bind].
  rewrite (high_addr_small last p s Hpr Hla Hll). unfold LOW_ADDR at 1. rewrite Hma.
  destruct (Z.leb_spec (low_of s.(nodes) p + len_of s.(nodes) p) (low_of s.(nodes) x)) as [Hle|Hgt].
  - eapply wp_mono; [exact (insert_last s c l x Hb Hx Hx0 Hxs Hxr Hle)|].
    intros s' [H1 H2]. exists (c :: l), []. by rewrite app_nil_r.
  - rewrite (high_addr_small m x s Hxr Hma Hml). set (high := low_of s.(nodes) x + len_of s.(nodes) x).
    destruct (first_split (λ q, negb (low_of s.(nodes) q <? high)) (c :: l) p Hp) as (A & d & B & E & Hd & HA).
    { destruct (Hap p Hp) as [Hbf|Hbf]; unfold before in Hbf; lia. }
    rewrite (walk_while_ok _ s _ c l c A d B).
    + cbn [mbind outcome_bind].
      rewrite E in Hb, Hx, Hap |- *. eapply wp_mono.
      { apply (insert_before s A d B x); try done.
        - intros q Hq. specialize (HA q Hq). destruct (Hap q) as [?|Hbf]; [apply elem_of_app; by left|done|].
          unfold before in Hbf. lia.
        - intros q Hq. pose proof (bl_sorted _ _ Hb) as Hs. apply StronglySorted_app in Hs as (_ & _ & Hs).
          apply StronglySorted_cons in Hs as [Hdb _]. rewrite Forall_forall in Hdb.
          destruct (bl_nodes _ _ Hb d) as (_ & _ & ? & ? & ?); [apply elem_of_app; right; by left|].
          apply elem_of_cons in Hq as [->|Hq]; unfold before; [lia|]. specialize (Hdb q Hq). unfold before in Hdb. lia. }
      intros s' [H1 H2]. by exists A, (d :: B).
    + apply (bl_ring _ _ Hb).
    + done.
    + pose proof (blocks_list_size _ _ Hb) as Hsz. rewrite E, length_app in Hsz. lia.
    + intros q Hq. by apply (bl_nodes _ _ Hb).
    + intros q n Hq Hn. specialize (HA q Hq). unfold low_of in HA. rewrite Hn in HA. cbn in HA. unfold LOW_ADDR. lia.
    + intros n Hn. unfold low_of in Hd. rewrite Hn in Hd. cbn in Hd. unfold LOW_ADDR. lia.
Qed.

(** ** Removal *)
Definition unlinked (m m' : gmap Z memory_metadata_t) (d : Z) : Prop :=
  (∀ q, nxt m' q = if decide (q = d) then 0 else if decide (q = prv m d) then nxt m d else nxt m q) ∧
  (∀ q, prv m' q = if decide (q = d) then 0 else if decide (q = nxt m d) then prv m d else prv m q) ∧
  (∀ q, low_of m' q = low_of m q) ∧ (∀ q, len_of m' q = len_of m q) ∧
  (∀ q, is_Some (m' !! q) ↔ is_Some (m !! q)).

(** In a ring of two nodes at least no node is its own neighbour. *)
Lemma ring_neighbours m d l : l ≠ [] → ring m (d :: l) → NoDup (d :: l) → nxt m d ∈ l ∧ prv m d ∈ l.
Proof.
  intros Hl Hr Hnd. cbn [ring] in Hr. split.
  - destruct l as [|b l]; [done|]. destruct Hr as [[-> _] _]. by left.
  - destruct (snoc_cases l) as [->|(l1 & y & ->)]; [done|]. apply path_app in Hr as (_ & _ & ->).
    apply elem_of_app. right. by left.
Qed.

Lemma unlinked_ring m m' A d B :
  A ++ B ≠ [] → ring m (A ++ d :: B) → NoDup (A ++ d :: B) → unlinked m m' d → ring m' (A ++ B).
Proof.
  intros Hne Hr Hnd (Hn & Hp & _). apply ring_rotate in Hr. rewrite Permutation_app_comm in Hnd. cbn [app] in Hr, Hnd.
  assert (B ++ A ≠ []) as Hne' by (intros E; apply Hne; by apply app_nil in E as [-> ->]).
  destruct (ring_neighbours _ _ _ Hne' Hr Hnd) as [Hnx Hpv]. apply NoDup_cons in Hnd as Hd. destruct Hd as [Hd _].
  assert (nxt m d ≠ d ∧ prv m d ≠ d) as [??] by (split; intros E; rewrite E in *; done).
  apply ring_rotate. apply (ring_remove m m' d); try done.
  - rewrite Hn. repeat case_decide; congruence.
  - rewrite Hp. repeat case_decide; congruence.
  - intros q ??. rewrite Hn. repeat case_decide; congruence.
  - intros q ??. rewrite Hp. repeat case_decide; congruence.
Qed.

Lemma unlinked_blocks_list s s' A d B :
  blocks_list s (A ++ d :: B) → A ++ B ≠ [] → unlinked s.(nodes) s'.(nodes) d →
  s'.(free_list) = s.(free_list) → s'.(vm) = s.(vm) → s'.(alloc_list) = default 0 (head (A ++ B)) →
  blocks_list s' (A ++ B) ∧ same_but_links s s' (A ++ d :: B).
Proof.
  intros [Hh Hr Hnd Hns Hs] Hne Hu Hf Hv Ha. pose proof Hu as (Hn & _ & Hlo & Hle & Hdom).
  assert (same_but_links s s' (A ++ d :: B)) as Hsame.
  { split; try done. intros q Hq. rewrite Hn.
    pose proof (ring_rotate _ _ _ Hr) as Hr'. cbn [app] in Hr'. apply ring_prv_in in Hr'.
    change (d :: B ++ A) with ((d :: B) ++ A) in Hr'. rewrite Permutation_app_comm in Hr'.
    assert (d ∈ A ++ d :: B) by (apply elem_of_app; right; by left).
    repeat case_decide; subst; done. }
  split; [|done]. apply (blocks_list_links s s' _ (A ++ d :: B)); try done.
  - by eapply unlinked_ring.
  - rewrite <- Permutation_middle in Hnd. by apply NoDup_cons in Hnd as [_ ?].
  - intros q. rewrite !elem_of_app, elem_of_cons. tauto.
  - apply StronglySorted_app in Hs as (HAB & HsA & [HsB _]%StronglySorted_cons%and_comm).
    apply StronglySorted_app_2; [|done|done]. intros p q Hp Hq. apply HAB; [done|]. by right.
Qed.

(** The first node with the address is found. *)
Lemma find_block s A d B fuel c l :
  blocks_list s (A ++ d :: B) → A ++ d :: B = c :: l → (length A < fuel)%nat →
  walk_while fuel (λ n, negb (n.(md_addr) =? low_of s.(nodes) d)) c s = Ret d.
Proof.
  intros Hb E Hf. pose proof (bl_ring _ _ Hb) as Hr. rewrite E in Hr. apply (walk_while_ok _ s _ c l c A d B); try done.
  - intros p Hp. rewrite <- E in Hp. by apply (bl_nodes _ _ Hb).
  - intros p n Hp Hn. pose proof (bl_sorted _ _ Hb) as Hs. apply StronglySorted_app in Hs as (HAB & _ & _).
    specialize (HAB p d Hp ltac:(by left)).
    destruct (bl_nodes _ _ Hb p) as (_ & _ & _ & Hlen & _); [apply elem_of_app; by left|].
    unfold before, low_of, len_of in *. rewrite Hn in HAB, Hlen. cbn in HAB, Hlen. unfold low_of. lia.
  - intros n Hn. unfold low_of. rewrite Hn. cbn. lia.
Qed.

Lemma metadata_remove_ok s A d B fuel :
  blocks_list s (A ++ d :: B) → A ++ B ≠ [] → (length A < fuel)%nat →
  wp (metadata_remove fuel (low_of s.(nodes) d) s) (λ r, r.1 = d ∧
    blocks_list r.2 (A ++ B) ∧ same_but_links s r.2 (A ++ d :: B)).
Proof.
  intros Hb Hne Hf. unfold metadata_remove.
  assert (∃ c l, A ++ d :: B = c :: l) as (c & l & E) by (destruct A; by eexists _, _).
  pose proof Hb as Hb'. rewrite E in Hb'.
  assert (alloc_list s = c) as Hc by (apply (bl_head _ _ Hb')). rewrite Hc.
  destruct (bl_nodes _ _ Hb' c ltac:(by left)) as (Hc0 & _). replace (c =? 0) with false by lia.
  rewrite c_assert_true by done. cbn [mbind outcome_bind]. rewrite (find_block _ A d B _ c l) by done.
  cbn [mbind outcome_bind]. destruct (bl_nodes _ _ Hb d) as (Hd0 & Hds & _); [apply elem_of_app; right; by left|].
  replace (d =? 0) with false by lia.
  pose proof (ring_rotate _ _ _ (bl_ring _ _ Hb)) as Hr. cbn [app] in Hr.
  pose proof (bl_nodup _ _ Hb) as Hnd. rewrite Permutation_app_comm in Hnd. cbn [app] in Hnd.
  assert (B ++ A ≠ []) as Hne' by (intros E'; apply Hne; by apply app_nil in E' as [-> ->]).
  destruct (ring_neighbours _ _ _ Hne' Hr Hnd) as [Hnx Hpv]. apply NoDup_cons in Hnd as [Hd _].
  set (p := prv s.(nodes) d) in *. set (x := nxt s.(nodes) d) in *.
  assert (x ≠ d ∧ p ≠ d) as [Hxd Hpd] by (split; intros E'; rewrite E' in *; done).
  assert (is_Some (s.(nodes) !! x) ∧ is_Some (s.(nodes) !! p)) as [Hxs Hps].
  { split; apply (bl_nodes _ _ Hb); rewrite elem_of_app, elem_of_cons; rewrite elem_of_app in Hnx, Hpv; tauto. }
  destruct (node_ok d s Hds) as (n & Hn & _ & _ & _ & Hnn & Hnp). rewrite Hn. cbn [mbind outcome_bind].
  rewrite Hnn, Hnp. fold p x. clear n Hn Hnn Hnp. unfold set_prev, set_next.
  rewrite update_ok by done. cbn [mbind outcome_bind]. set (s1 := with_nodes _ s).
  destruct (node_ok d s1) as (n & Hn & _ & _ & _ & Hnn & Hnp); [unfold s1; state_simpl; by fields|].
  rewrite Hn. cbn [mbind outcome_bind].
  assert (n.(md_next) = x) as -> by (rewrite Hnn; unfold s1; state_simpl; by fields).
  assert (n.(md_prev) = p) as ->.
  { rewrite Hnp. unfold s1. state_simpl. fields. by rewrite decide_False. }
  clear n Hn Hnn Hnp. rewrite update_ok by (unfold s1; state_simpl; by fields). cbn [mbind outcome_bind].
  set (s2 := with_nodes _ s1).
  destruct (node_ok d s2) as (n & Hn & _ & _ & _ & Hnn & Hnp); [unfold s2, s1; state_simpl; by fields|].
  rewrite Hn. cbn [mbind outcome_bind].
  assert (n.(md_next) = x) as ->.
  { rewrite Hnn. unfold s2, s1. state_simpl. fields. by rewrite decide_False. }
  clear n Hn Hnn Hnp. set (s3 := if d =? alloc_list s2 then _ else s2).
  assert (s3.(nodes) = s2.(nodes) ∧ s3.(free_list) = s.(free_list) ∧ s3.(vm) = s.(vm) ∧
    s3.(alloc_list) = if d =? c then x else c) as (E3 & Ef & Ev & Ea).
  { subst s3. change (alloc_list s2) with (alloc_list s). rewrite Hc. by destruct (d =? c). }
  rewrite update_ok by (rewrite E3; unfold s2, s1; state_simpl; by fields). cbn [mbind outcome_bind].
  rewrite update_ok by (rewrite E3; unfold s2, s1; state_simpl; by fields). cbn [mbind outcome_bind].
  apply wp_ret. cbn [fst snd]. split; [done|]. apply (unlinked_blocks_list s); try done; state_simpl; rewrite ?E3.
  - unfold s2, s1. state_simpl.
    split; [intros q; by fields|]. split; [intros q; by fields|].
    split; [intros q; by fields|]. split; intros q; by fields.
  - rewrite Ea. destruct A as [|a A]; cbn [app] in E; injection E as E1 E2.
    + rewrite <- E1, Z.eqb_refl. cbn [app]. destruct B as [|b B]; [done|]. apply Hr.
    + rewrite <- E1. cbn. destruct (Z.eqb_spec d a) as [->|]; [|done].
      destruct Hd. apply elem_of_app. right. by left.
Qed.
End lists.
