(* ===== verification/AllocInv.v ===== *)
(** * alloc.c: the invariant of the lists, and the interface

    The operating system's promises about mmap, munmap and mprotect are a
    class; under them the two lists of alloc.c implement the interface of
    AllocIface.v. *)

From S2P Require Import Prelude Conc Mem AllocIface Alloc.

(** ** What the operating system promises

    [vm_blocks] is what is mapped: the length of the block at an address.
    Nothing is promised about a call of mmap that fails. *)
Class VirtualMemoryLaws (VS : Type) `{!VirtualMemory VS} := {
  vm_ok : VS → Prop;
  vm_blocks : VS → gmap Z Z;
  vm_range v p l : vm_ok v → vm_blocks v !! p = Some l →
    0 < p ∧ p `mod` PAGESIZE = 0 ∧ 0 < l ∧ p + l < 2 ^ 64 - 1;
  vm_disjoint v p l q k : vm_ok v → vm_blocks v !! p = Some l → vm_blocks v !! q = Some k → p ≠ q →
    p + l <= q ∨ q + k <= p;
  mmap_law v size : vm_ok v → 0 < size → size `mod` PAGESIZE = 0 → (mmap size v).1 ≠ MAP_FAILED →
    vm_ok (mmap size v).2 ∧ vm_blocks v !! (mmap size v).1 = None ∧
    vm_blocks (mmap size v).2 = <[(mmap size v).1 := size]> (vm_blocks v);
  munmap_law v p l : vm_ok v → vm_blocks v !! p = Some l →
    (munmap p l v).1 = 0 ∧ vm_ok (munmap p l v).2 ∧ vm_blocks (munmap p l v).2 = delete p (vm_blocks v);
  mprotect_law v p l : vm_ok v → vm_blocks v !! p = Some l →
    vm_ok (mprotect p l v).2 ∧ vm_blocks (mprotect p l v).2 = vm_blocks v;
}.

(** The page a node lies in. *)
Definition page_of (p : Z) : Z := p - p `mod` PAGESIZE.

Lemma page_of_node p i : p `mod` PAGESIZE = 0 → 0 <= i < 128 → page_of (p + sizeof_memory_metadata_t * i) = p.
Proof. unfold page_of, PAGESIZE, sizeof_memory_metadata_t. intros. Z.div_mod_to_equations. lia. Qed.

(** The free list. *)
Fixpoint free_chain (m : gmap Z memory_metadata_t) (a : Z) (fs : list Z) : Prop :=
  match fs with
  | [] => a = 0
  | q :: fs' => a = q ∧ free_chain m (nxt m q) fs'
  end.

Lemma free_chain_ext m m' a fs :
  (∀ p, p ∈ fs → nxt m' p = nxt m p) → free_chain m a fs → free_chain m' a fs.
Proof.
  revert a. induction fs as [|q fs IH]; intros a Hn; [done|]. intros [-> Hf]. split; [done|].
  rewrite Hn by (by left). apply IH; [intros p Hp; apply Hn; by right|done].
Qed.

Section invariant.
Context `{Build} {VS : Type} `{!VirtualMemory VS} `{!VirtualMemoryLaws VS}.
Implicit Types s : alloc_state VS.

(** The invariant while the nodes [hs] are in neither list: the blocks of the
    sorted list [ns] are mapped, [fs] is the free list, and every node lies
    in a page that is one of the blocks. *)
Record alloc_inv s (hs ns fs : list Z) : Prop := {
  ai_blocks : blocks_list s ns;
  ai_free : free_chain s.(nodes) s.(free_list) fs;
  ai_nodup : NoDup (hs ++ ns ++ fs);
  ai_nodes : ∀ p, p ∈ hs ++ ns ++ fs → p ≠ 0 ∧ is_Some (s.(nodes) !! p);
  ai_vm : vm_ok s.(vm);
  ai_mapped : ∀ p, p ∈ ns → vm_blocks s.(vm) !! low_of s.(nodes) p = Some (len_of s.(nodes) p);
  ai_pages : ∀ p, p ∈ hs ++ ns ++ fs → page_of p ∈ ns ∧
    low_of s.(nodes) (page_of p) = page_of p ∧ len_of s.(nodes) (page_of p) = PAGESIZE;
}.

(** The blocks that were handed out: a node that describes the page it lies in
    is not one of them. *)
Definition handed_out (m : gmap Z memory_metadata_t) (ns : list Z) : list (Z * Z) :=
  (λ p, (low_of m p, len_of m p)) <$> List.filter (λ p, negb (low_of m p =? p)) ns.

(** The nodes of the ring, computed. *)
Fixpoint ring_nodes (fuel : nat) (m : gmap Z memory_metadata_t) (stop p : Z) : list Z :=
  match fuel with
  | O => []
  | S fuel' => p :: if nxt m p =? stop then [] else ring_nodes fuel' m stop (nxt m p)
  end.

Definition blocks_of s : list Z :=
  if s.(alloc_list) =? 0 then [] else ring_nodes (size s.(nodes)) s.(nodes) s.(alloc_list) s.(alloc_list).

Definition live_blocks s : gmap Z Z := list_to_map (handed_out s.(nodes) (blocks_of s)).

Lemma ring_nodes_path fuel m stop a l :
  path m a l stop → stop ∉ l → (length l < fuel)%nat → ring_nodes fuel m stop a = a :: l.
Proof.
  revert a l. induction fuel as [|fuel IH]; intros a l Hp Hs Hf; [lia|]. cbn [ring_nodes]. f_equal.
  destruct l as [|b l]; cbn [path] in Hp.
  - destruct Hp as [-> _]. by rewrite Z.eqb_refl.
  - destruct Hp as [[-> _] Hp]. apply not_elem_of_cons in Hs as [Hb Hs].
    destruct (Z.eqb_spec b stop); [congruence|]. apply IH; [done|done|simpl in Hf; lia].
Qed.

Lemma blocks_of_eq s ns : blocks_list s ns → blocks_of s = ns.
Proof.
  intros Hb. unfold blocks_of. pose proof (blocks_list_size _ _ Hb) as Hsz. rewrite (bl_head _ _ Hb).
  destruct ns as [|c l]; [done|]. cbn. destruct (bl_nodes _ _ Hb c ltac:(by left)) as (Hc & _).
  replace (c =? 0) with false by lia. apply ring_nodes_path; [apply (bl_ring _ _ Hb)| |cbn in Hsz; lia].
  pose proof (bl_nodup _ _ Hb) as Hnd. by apply NoDup_cons in Hnd as [? _].
Qed.

(** Different nodes describe different addresses. *)
Lemma low_inj s ns p q :
  blocks_list s ns → p ∈ ns → q ∈ ns → low_of s.(nodes) p = low_of s.(nodes) q → p = q.
Proof.
  intros Hb Hp Hq E. destruct (decide (p = q)) as [|Hne]; [done|].
  assert (before s.(nodes) p q ∨ before s.(nodes) q p) as Hor.
  { pose proof (bl_sorted _ _ Hb) as Hs. apply list_elem_of_split in Hp as (l1 & l2 & ->).
    apply StronglySorted_app in Hs as (H12 & _ & [_ Hs]%StronglySorted_cons%and_comm).
    rewrite elem_of_app, elem_of_cons in Hq. destruct Hq as [Hq|[->|Hq]]; [|done|].
    - right. apply H12; [done|by left].
    - left. rewrite Forall_forall in Hs. by apply Hs. }
  destruct (bl_nodes _ _ Hb p Hp) as (_ & _ & ? & ? & ?). destruct (bl_nodes _ _ Hb q Hq) as (_ & _ & ? & ? & ?).
  unfold before in Hor. lia.
Qed.

Lemma live_lookup s ns a l :
  blocks_list s ns → live_blocks s !! a = Some l ↔
  ∃ p, p ∈ ns ∧ low_of s.(nodes) p = a ∧ len_of s.(nodes) p = l ∧ a ≠ p.
Proof.
  intros Hb. unfold live_blocks. rewrite (blocks_of_eq _ _ Hb), <- elem_of_list_to_map.
  - unfold handed_out. rewrite list_elem_of_fmap. split.
    + intros (p & [= -> ->] & [Hp Hne]%list_elem_of_In%filter_In). rewrite <- list_elem_of_In in Hp.
      exists p. repeat split; [done|]. lia.
    + intros (p & Hp & <- & <- & Hne). exists p. split; [done|]. apply list_elem_of_In, filter_In.
      split; [by apply list_elem_of_In|]. lia.
  - unfold handed_out. rewrite <- list_fmap_compose. apply NoDup_fmap_2_strong.
    + intros p q [Hp _]%list_elem_of_In%filter_In [Hq _]%list_elem_of_In%filter_In E. cbn in E.
      apply (low_inj s ns); by try apply list_elem_of_In.
    + apply NoDup_ListNoDup, List.NoDup_filter, NoDup_ListNoDup, (bl_nodup _ _ Hb).
Qed.

(** The invariant reads the nodes of the two lists only. *)
Lemma alloc_inv_ext s s' hs ns fs :
  alloc_inv s hs ns fs → s'.(alloc_list) = s.(alloc_list) → s'.(free_list) = s.(free_list) →
  vm_ok s'.(vm) → vm_blocks s.(vm) ⊆ vm_blocks s'.(vm) →
  (∀ q, is_Some (s.(nodes) !! q) → is_Some (s'.(nodes) !! q)) →
  (∀ q, q ∈ ns ++ fs → s'.(nodes) !! q = s.(nodes) !! q) →
  alloc_inv s' hs ns fs ∧ live_blocks s' = live_blocks s.
Proof.
  intros [Hb Hf Hnd Hns Hv Hm Hp] Ea Ef Hv' Hsub Hdom Hsame.
  assert (∀ q, q ∈ ns → s'.(nodes) !! q = s.(nodes) !! q) as Hns' by (intros q ?; apply Hsame, elem_of_app; by left).
  assert (∀ q, q ∈ ns → low_of s'.(nodes) q = low_of s.(nodes) q ∧ len_of s'.(nodes) q = len_of s.(nodes) q) as Hll.
  { intros q Hq. unfold low_of, len_of. by rewrite Hns'. }
  assert (blocks_list s' ns) as Hb'.
  { destruct Hb as [Hh Hr Hn Hbn Hs]. split; [congruence| |done| |].
    - eapply ring_ext; [|done]. intros q Hq. unfold nxt, prv. by rewrite Hns'.
    - intros q Hq. destruct (Hbn q Hq) as (? & ? & Hreg). destruct (Hll q Hq) as [El En]. split; [done|]. split; [by apply Hdom|].
      unfold region_ok. by rewrite El, En.
    - clear -Hs Hll. induction Hs as [|p l Hl IH Hp]; constructor.
      + apply IH. intros q Hq. apply Hll. by right.
      + apply Forall_forall. intros q Hq. rewrite Forall_forall in Hp. specialize (Hp q Hq). unfold before in *.
        destruct (Hll p ltac:(by left)) as [-> ->]. by destruct (Hll q ltac:(by right)) as [-> _]. }
  split.
  - split; try done.
    + rewrite Ef. eapply free_chain_ext; [|done]. intros q Hq. unfold nxt. rewrite Hsame; [done|]. apply elem_of_app. by right.
    + intros q Hq. destruct (Hns q Hq). split; [done|by apply Hdom].
    + intros q Hq. destruct (Hll q Hq) as [-> ->]. eapply lookup_weaken; [by apply Hm|done].
    + intros q Hq. destruct (Hp q Hq) as (Hin & ? & ?). by destruct (Hll _ Hin) as [-> ->].
  - apply map_eq. intros a. apply option_eq. intros l. rewrite !(live_lookup _ ns) by done.
    split; intros (p & Hp' & <- & <- & Hne); exists p; destruct (Hll p Hp') as [El En]; rewrite ?El, ?En in *; done.
Qed.

(** Nodes outside the lists can be set aside. *)
Lemma alloc_inv_drop s x hs ns fs : alloc_inv s (x :: hs) ns fs → alloc_inv s hs ns fs.
Proof.
  intros [Hb Hf Hnd Hns Hv Hm Hp]. cbn [app] in *. apply NoDup_cons in Hnd as [_ Hnd]. split; try done.
  - intros p Hin. apply Hns. by right.
  - intros p Hin. apply Hp. by right.
Qed.

Lemma insert_inv s x hs ns fs :
  alloc_inv s hs ns fs → x ∉ hs ++ ns ++ fs → x ≠ 0 → is_Some (s.(nodes) !! x) →
  vm_blocks s.(vm) !! low_of s.(nodes) x = Some (len_of s.(nodes) x) →
  (∀ q, q ∈ ns → low_of s.(nodes) q ≠ low_of s.(nodes) x) →
  page_of x ∈ x :: ns → low_of s.(nodes) (page_of x) = page_of x → len_of s.(nodes) (page_of x) = PAGESIZE →
  wp (metadata_do_insert x s) (λ s', ∃ ns', ns' ≡ₚ x :: ns ∧ alloc_inv s' hs ns' fs ∧ same_but_links s s' ns' ∧
    live_blocks s' = if decide (low_of s.(nodes) x = x) then live_blocks s
                     else <[low_of s.(nodes) x := len_of s.(nodes) x]> (live_blocks s)).
Proof.
  intros [Hb Hf Hnd Hns Hv Hm Hp] Hx Hx0 Hxs Hxm Hlow Hpx Hpl Hpn.
  destruct (vm_range _ _ _ Hv Hxm) as (? & _ & ? & ?).
  rewrite !not_elem_of_app in Hx. destruct Hx as (Hxh & Hxn & Hxf).
  eapply wp_mono.
  { apply (metadata_do_insert_ok s ns x); try done; [unfold region_ok; lia|].
    intros q Hq. unfold apart, before. eapply vm_disjoint; [done|by apply Hm|done|by apply Hlow]. }
  intros s' (A & B & -> & Hb' & Hs). exists (A ++ x :: B).
  assert (A ++ x :: B ≡ₚ x :: A ++ B) as Eperm by (by rewrite Permutation_middle). split; [done|].
  pose proof Hs as [Ef Ev Hd Hlo Hle Hnx]. split; [|split; [done|]].
  - split; try done.
    + rewrite Ef. eapply free_chain_ext; [|done]. intros q Hq. apply Hnx. rewrite Eperm.
      rewrite app_assoc in Hnd. apply NoDup_app in Hnd as (_ & Hnd & _). intros [->|Hin]%elem_of_cons; [done|].
      apply (Hnd q); [|done]. apply elem_of_app. by right.
    + rewrite Eperm. cbn [app]. rewrite <- Permutation_middle. apply NoDup_cons. split; [|done].
      rewrite !elem_of_app in *. tauto.
    + intros q Hq. rewrite Eperm in Hq. cbn [app] in Hq. rewrite <- Permutation_middle in Hq.
      rewrite Hd. apply elem_of_cons in Hq as [->|Hq]; [done|]. by apply Hns.
    + by rewrite Ev.
    + intros q Hq. rewrite Ev, Hlo, Hle. rewrite Eperm in Hq. apply elem_of_cons in Hq as [->|Hq]; [done|by apply Hm].
    + intros q Hq. rewrite Hlo, Hle. rewrite Eperm in Hq |- *. cbn [app] in Hq. rewrite <- Permutation_middle in Hq.
      apply elem_of_cons in Hq as [->|Hq]; [done|]. destruct (Hp q Hq) as (? & ? & ?). split; [by right|done].
  - apply map_eq. intros a. apply option_eq. intros l. rewrite (live_lookup _ _ _ _ Hb'). setoid_rewrite Hlo. setoid_rewrite Hle.
    transitivity ((low_of s.(nodes) x = a ∧ len_of s.(nodes) x = l ∧ a ≠ x) ∨ live_blocks s !! a = Some l).
    + rewrite (live_lookup _ _ _ _ Hb). setoid_rewrite Eperm. setoid_rewrite elem_of_cons. naive_solver.
    + case_decide as E; [naive_solver|]. rewrite lookup_insert_Some.
      assert (live_blocks s !! low_of s.(nodes) x = None) as Hnone.
      { destruct (live_blocks s !! low_of (nodes s) x) eqn:Hl; [|done]. apply (live_lookup _ _ _ _ Hb) in Hl as (q & Hq & Eq & _).
        by destruct (Hlow q Hq). }
      split; [intros [?|?]; [naive_solver|]|naive_solver]. right. split; [congruence|done].
Qed.

(** ** Nodes *)

(** A node of a known page that is in no list. *)
Lemma alloc_inv_hold s x hs ns fs :
  alloc_inv s hs ns fs → x ∉ hs ++ ns ++ fs → x ≠ 0 → is_Some (s.(nodes) !! x) →
  page_of x ∈ ns → low_of s.(nodes) (page_of x) = page_of x → len_of s.(nodes) (page_of x) = PAGESIZE →
  alloc_inv s (x :: hs) ns fs.
Proof.
  intros [Hb Hf Hnd Hns Hv Hm Hp] Hx Hx0 Hxs ? ? ?. split; try done.
  - by apply NoDup_cons.
  - intros p [->|Hin]%elem_of_cons; [done|by apply Hns].
  - intros p [->|Hin]%elem_of_cons; [done|by apply Hp].
Qed.

Lemma metadata_free_ok s x hs ns fs :
  alloc_inv s (x :: hs) ns fs →
  wp (metadata_free x s) (λ s', alloc_inv s' hs ns (x :: fs) ∧ live_blocks s' = live_blocks s ∧ s'.(vm) = s.(vm) ∧
    s'.(free_list) = x ∧ ∀ q, is_Some (s'.(nodes) !! q) ↔ is_Some (s.(nodes) !! q)).
Proof.
  intros Hi. destruct (ai_nodes _ _ _ _ Hi x ltac:(by left)) as [Hx0 Hxs].
  pose proof (ai_nodup _ _ _ _ Hi) as Hnd. cbn [app] in Hnd. apply NoDup_cons in Hnd as [Hx Hnd].
  unfold metadata_free, set_next. rewrite update_ok by done. cbn [mbind outcome_bind]. apply wp_ret.
  set (s1 := with_nodes _ s).
  assert (∀ q, q ≠ x → s1.(nodes) !! q = s.(nodes) !! q) as Hne by (intros q ?; unfold s1; state_simpl; by rewrite lookup_alter_ne).
  assert (∀ q, is_Some (s1.(nodes) !! q) ↔ is_Some (s.(nodes) !! q)) as Hdom by (intros q; unfold s1; state_simpl; apply node_alter).
  destruct (alloc_inv_ext s s1 hs ns fs) as [Hi1 Hlive]; try done.
  - by eapply alloc_inv_drop.
  - apply (ai_vm _ _ _ _ Hi).
  - intros q. by rewrite Hdom.
  - intros q Hq. apply Hne. intros ->. apply Hx, elem_of_app. by right.
  - assert (live_blocks (with_free_list x s1) = live_blocks s) as -> by done. split; [|done].
    pose proof Hi1 as [Hb Hf Hnd' Hns Hv Hm Hp].
    assert (hs ++ ns ++ x :: fs ≡ₚ x :: hs ++ ns ++ fs) as Eperm by (rewrite !app_assoc; by rewrite <- Permutation_middle).
    split; state_simpl; try done.
    + destruct Hb. by split.
    + split; [done|]. unfold s1. state_simpl. fields. rewrite decide_True by done. apply Hf.
    + rewrite Eperm. by apply NoDup_cons.
    + intros p. rewrite Eperm. intros [->|Hin]%elem_of_cons; [by split; [|apply Hdom]|by apply Hns].
    + intros p. rewrite Eperm. intros [->|Hin]%elem_of_cons; [|by apply Hp].
      destruct (ai_pages _ _ _ _ Hi x ltac:(by left)) as (? & ? & ?). unfold s1. state_simpl. by fields.
Qed.

(** The first node of the free list is taken. *)
Lemma take_free s ns x fs :
  alloc_inv s [] ns (x :: fs) →
  ∃ n, node x s = Ret n ∧ s.(free_list) = x ∧
    alloc_inv (with_free_list n.(md_next) s) [x] ns fs.
Proof.
  intros [Hb [Hx Hf] Hnd Hns Hv Hm Hp]. cbn [app] in *.
  destruct (Hns x) as [Hx0 Hxs]; [apply elem_of_app; right; by left|].
  destruct (node_ok x s Hxs) as (n & Hn & _ & _ & _ & Hnx & _). exists n. split; [done|]. split; [done|].
  assert ([x] ++ ns ++ fs ≡ₚ ns ++ x :: fs) as Eperm by (cbn; by rewrite Permutation_middle).
  split; state_simpl; try done.
  - destruct Hb. by split.
  - by rewrite Hnx.
  - by rewrite Eperm.
  - intros p. rewrite Eperm. apply Hns.
  - intros p. rewrite Eperm. apply Hp.
Qed.

(** ** A page of new nodes *)
Lemma elem_of_page_nodes p q : q ∈ page_nodes p ↔ ∃ i, 0 <= i < 128 ∧ q = p + sizeof_memory_metadata_t * i.
Proof.
  unfold page_nodes. rewrite list_elem_of_fmap. change (ALLOC_BLOCKSIZE / sizeof_memory_metadata_t) with 128.
  setoid_rewrite elem_of_seqZ. naive_solver lia.
Qed.

Lemma map_page_in p s q : q ∈ page_nodes p → is_Some ((map_page p s).(nodes) !! q).
Proof.
  intros Hq. unfold map_page. cbn. apply lookup_union_is_Some. left.
  exists zero_node. apply elem_of_list_to_map_1'.
  - intros y (a & [= _ ->] & _)%list_elem_of_fmap. done.
  - apply list_elem_of_fmap. by exists q.
Qed.

Lemma map_page_out p s q : q ∉ page_nodes p → (map_page p s).(nodes) !! q = s.(nodes) !! q.
Proof.
  intros Hq. unfold map_page. cbn. apply lookup_union_r, not_elem_of_list_to_map_1.
  rewrite <- list_fmap_compose. intros (a & -> & Ha)%list_elem_of_fmap. done.
Qed.

(** The nodes of a page that mmap just returned are in no list. *)
Lemma new_page_nodes s ns fs p q :
  alloc_inv s [] ns fs → vm_blocks s.(vm) !! p = None → p `mod` PAGESIZE = 0 → q ∈ page_nodes p → q ∉ ns ++ fs.
Proof.
  intros Hi Hnone Hp (i & Hi' & ->)%elem_of_page_nodes Hin.
  destruct (ai_pages _ _ _ _ Hi _ Hin) as (Hpg & El & _). rewrite page_of_node in Hpg, El by lia.
  pose proof (ai_mapped _ _ _ _ Hi p Hpg) as Hm. rewrite El in Hm. congruence.
Qed.

(** A new page, described by its first node, is one of the blocks. *)
Lemma new_page_ok s ns p v :
  alloc_inv s [] ns [] → vm_ok v → vm_blocks s.(vm) !! p = None → vm_blocks v = <[p := ALLOC_BLOCKSIZE]> (vm_blocks s.(vm)) →
  wp (s ← set_addr p p (map_page p (with_vm v s)); s ← set_length ALLOC_BLOCKSIZE p s; metadata_do_insert p s)
    (λ s', ∃ ns', ns' ≡ₚ p :: ns ∧ alloc_inv s' [] ns' [] ∧ live_blocks s' = live_blocks s ∧ s'.(vm) = v ∧
      (∀ q, q ∈ page_nodes p → is_Some (s'.(nodes) !! q)) ∧
      low_of s'.(nodes) p = p ∧ len_of s'.(nodes) p = PAGESIZE).
Proof.
  intros Hi Hv Hnone Ev. pose proof Hv as Hv'.
  destruct (vm_range v p ALLOC_BLOCKSIZE Hv) as (Hp0 & Hpm & _); [by rewrite Ev, lookup_insert_eq|].
  assert (p ∈ page_nodes p) as Hpp by (apply elem_of_page_nodes; exists 0; lia).
  pose proof (new_page_nodes _ _ _ _ p Hi Hnone Hpm Hpp) as Hpn. rewrite app_nil_r in Hpn.
  set (s1 := map_page p (with_vm v s)).
  assert (is_Some (s1.(nodes) !! p)) as Hs1 by (by apply map_page_in).
  unfold set_addr, set_length. rewrite update_ok by done. cbn [mbind outcome_bind].
  rewrite update_ok by (state_simpl; by fields). cbn [mbind outcome_bind].
  set (s3 := with_nodes _ (with_nodes _ s1)).
  assert (low_of s3.(nodes) p = p ∧ len_of s3.(nodes) p = ALLOC_BLOCKSIZE) as [El En].
  { unfold s3. state_simpl. split; fields; by rewrite decide_True. }
  assert (∀ q, is_Some (s1.(nodes) !! q) → is_Some (s3.(nodes) !! q)) as Hdom by (intros q ?; unfold s3; state_simpl; by fields).
  destruct (alloc_inv_ext s s3 [] ns []) as [Hi3 Hlive]; try done.
  - unfold s3. cbn [vm with_nodes s1 map_page with_vm]. rewrite Ev. by apply insert_subseteq.
  - intros q Hq. apply Hdom. destruct (decide (q ∈ page_nodes p)) as [Hin|Hin]; [by apply map_page_in|].
    unfold s1. by rewrite map_page_out.
  - intros q Hq. assert (q ∉ page_nodes p) as Hqp by (intros Hin; by eapply (new_page_nodes s ns [] p)).
    assert (q ≠ p) by (by intros ->). unfold s3. state_simpl. rewrite !lookup_alter_ne by done. unfold s1. by rewrite map_page_out.
  - assert (page_of p = p) as Epg by (unfold page_of; rewrite Hpm; lia).
    eapply wp_mono.
    { apply (insert_inv s3 p [] ns []); rewrite ?Epg, ?El, ?En; try done.
      - by rewrite app_nil_r.
      - lia.
      - by apply Hdom.
      - change (vm s3) with v. by rewrite Ev, lookup_insert_eq.
      - intros q Hq Eq. pose proof (ai_mapped _ _ _ _ Hi q Hq) as Hm.
        assert (s3.(nodes) !! q = s.(nodes) !! q) as E3.
        { assert (q ∉ page_nodes p) as Hqp by (intros Hin; eapply (new_page_nodes s ns [] p); [done..|]; by rewrite app_nil_r).
          assert (q ≠ p) by (by intros ->). unfold s3. state_simpl. rewrite !lookup_alter_ne by done. unfold s1. by rewrite map_page_out. }
        unfold low_of in Eq, Hm. rewrite E3 in Eq. rewrite Eq in Hm. congruence.
      - by left. }
    intros s' (ns' & Eperm & Hi' & Hs & Hl). exists ns'. rewrite El, decide_True in Hl by done.
    split; [done|]. split; [done|]. split; [congruence|]. split; [by rewrite (sb_vm _ _ _ Hs)|]. split.
    + intros q Hq. apply (sb_dom _ _ _ Hs), Hdom. by apply map_page_in.
    + by rewrite (sb_low _ _ _ Hs), (sb_len _ _ _ Hs).
Qed.

(** The rest of the page becomes the free list. *)
Lemma carve_page_ok s ns p :
  alloc_inv s [] ns [] → p ∈ ns → (∀ q, q ∈ ns → q ∈ page_nodes p → q = p) → p `mod` PAGESIZE = 0 → 0 < p →
  (∀ q, q ∈ page_nodes p → is_Some (s.(nodes) !! q)) →
  low_of s.(nodes) p = p → len_of s.(nodes) p = PAGESIZE →
  wp (for_range 1 (ALLOC_BLOCKSIZE / sizeof_memory_metadata_t - 1) (carve p) s)
    (λ s', ∃ fs, fs ≠ [] ∧ alloc_inv s' [] ns fs ∧ live_blocks s' = live_blocks s ∧ s'.(vm) = s.(vm)).
Proof.
  intros Hi Hp Honly Hpm Hp0 Hmem El En.
  change (ALLOC_BLOCKSIZE / sizeof_memory_metadata_t - 1) with 127.
  apply wp_for_range with (I := λ i s', ∃ fs, (1 < i → fs ≠ []) ∧ (∀ q, q ∈ fs → ∃ j, 1 <= j < i ∧ q = p + sizeof_memory_metadata_t * j) ∧
    alloc_inv s' [] ns fs ∧ live_blocks s' = live_blocks s ∧ s'.(vm) = s.(vm) ∧
    (∀ q, q ∈ page_nodes p → is_Some (s'.(nodes) !! q)) ).
  - exists []. split; [lia|]. split; [by intros q ?%elem_of_nil|done].
  - intros i s1 Hir (fs & _ & Hfs & Hi1 & Hl1 & Hv1 & Hm1).
    set (x := p + sizeof_memory_metadata_t * i).
    assert (x ∈ page_nodes p) as Hx by (apply elem_of_page_nodes; exists i; split; [lia|done]).
    assert (x ≠ p) as Hxp by (unfold x, sizeof_memory_metadata_t; lia).
    assert (page_of x = p) as Epg by (apply page_of_node; [done|lia]).
    destruct (ai_pages _ _ _ _ Hi1 p) as (_ & El1 & En1); [cbn [app]; apply elem_of_app; by left|].
    assert (page_of p = p) as Epp by (unfold page_of; rewrite Hpm; lia). rewrite Epp in El1, En1.
    assert (alloc_inv s1 [x] ns fs) as Hh.
    { apply alloc_inv_hold; rewrite ?Epg; try done; [|unfold x, sizeof_memory_metadata_t; lia|by apply Hm1].
      cbn. rewrite elem_of_app. intros [Hin|Hin]; [by apply Hxp, Honly|].
      destruct (Hfs x Hin) as (j & Hj & E). unfold x, sizeof_memory_metadata_t in E. lia. }
    eapply wp_mono; [apply (metadata_free_ok _ _ _ _ _ Hh)|]. intros s2 (Hi2 & Hl2 & Hv2 & _ & Hd2).
    exists (x :: fs). split; [done|]. split; [|split; [done|split; [congruence|split; [congruence|]]]].
    + intros q [->|Hq]%elem_of_cons; [exists i; split; [lia|done]|].
      destruct (Hfs q Hq) as (j & Hj & ->). exists j. split; [lia|done].
    + intros q Hq. apply Hd2. by apply Hm1.
  - intros s' (fs & Hne & _ & Hi' & Hl & Hv & _). exists fs. split; [apply Hne; lia|done].
Qed.

(** The state of the operating system after [metadata_new]; the calls of mmap
    that a request needs succeed. *)
Definition vm_after_new s : VS :=
  if s.(free_list) =? 0 then (mmap ALLOC_BLOCKSIZE s.(vm)).2 else s.(vm).
Definition node_avail s : Prop := s.(free_list) = 0 → (mmap ALLOC_BLOCKSIZE s.(vm)).1 ≠ MAP_FAILED.
Definition request_avail s (size : Z) : Prop :=
  node_avail s ∧ (mmap size (vm_after_new s)).1 ≠ MAP_FAILED.

Lemma mmap_wrap_ok size s :
  vm_ok s.(vm) → 0 < size → size `mod` PAGESIZE = 0 → (mmap size s.(vm)).1 ≠ MAP_FAILED →
  mmap_wrap size s = Ret ((mmap size s.(vm)).1, with_vm (mmap size s.(vm)).2 s) ∧ 0 < (mmap size s.(vm)).1.
Proof.
  intros Hv Hs Hm Hf. destruct (mmap_law _ _ Hv Hs Hm Hf) as (Hv' & _ & Eb).
  destruct (vm_range _ (mmap size s.(vm)).1 size Hv') as (Hp & _); [by rewrite Eb, lookup_insert_eq|].
  unfold mmap_wrap. destruct (mmap size s.(vm)) as [p v]. cbn [fst snd] in *.
  replace (p =? MAP_FAILED) with false by (symmetry; lia). rewrite c_assert_true by lia. done.
Qed.

Lemma mmap_wrap_fails size s : (mmap size s.(vm)).1 = MAP_FAILED → mmap_wrap size s = threadscan_fatal.
Proof. unfold mmap_wrap. destruct (mmap size s.(vm)) as [p v]. cbn. intros ->. by rewrite Z.eqb_refl. Qed.

Lemma metadata_new_ok s ns fs :
  alloc_inv s [] ns fs → node_avail s →
  wp (metadata_new s) (λ r, ∃ ns' fs', alloc_inv r.2 [r.1] ns' fs' ∧ live_blocks r.2 = live_blocks s ∧
    r.2.(vm) = vm_after_new s).
Proof.
  intros Hi Hav. unfold metadata_new, vm_after_new. apply wp_bind.
  eapply wp_mono with (P := λ s', ∃ ns' x fs', alloc_inv s' [] ns' (x :: fs') ∧ live_blocks s' = live_blocks s ∧
    s'.(vm) = if free_list s =? 0 then (mmap ALLOC_BLOCKSIZE s.(vm)).2 else s.(vm)).
  - destruct (Z.eqb_spec (free_list s) 0) as [E0|E0]; [|].
    + assert (fs = []) as ->.
      { destruct fs as [|q fs]; [done|]. destruct (ai_free _ _ _ _ Hi) as [<- _].
        destruct (ai_nodes _ _ _ _ Hi (free_list s)) as [? _]; [|done]. apply elem_of_app. right. apply elem_of_app. right. by left. }
      pose proof (ai_vm _ _ _ _ Hi) as Hv. specialize (Hav E0).
      destruct (mmap_law s.(vm) ALLOC_BLOCKSIZE Hv ltac:(done) ltac:(done) Hav) as (Hv' & Hnone & Eb).
      destruct (mmap_wrap_ok ALLOC_BLOCKSIZE s Hv ltac:(done) ltac:(done) Hav) as [-> Hp].
      cbn [mbind outcome_bind]. set (p := (mmap ALLOC_BLOCKSIZE s.(vm)).1) in *. set (v := (mmap ALLOC_BLOCKSIZE s.(vm)).2) in *.
      destruct (vm_range v p ALLOC_BLOCKSIZE Hv') as (_ & Hpm & _); [by rewrite Eb, lookup_insert_eq|].
      pose proof (new_page_ok s ns p v Hi Hv' Hnone Eb) as Hnew.
      rewrite <- !outcome_bind_assoc. apply wp_bind. rewrite outcome_bind_assoc. eapply wp_mono; [exact Hnew|].
      intros s1 (ns' & Eperm & Hi1 & Hl1 & Ev1 & Hm1 & El1 & En1).
      assert (p ∈ ns') as Hpin by (rewrite Eperm; by left).
      assert (∀ q, q ∈ ns' → q ∈ page_nodes p → q = p) as Honly.
      { intros q Hq Hqp. rewrite Eperm in Hq. apply elem_of_cons in Hq as [->|Hq]; [reflexivity|]. exfalso.
        apply (new_page_nodes s ns [] p q Hi Hnone Hpm Hqp). by rewrite app_nil_r. }
      eapply wp_mono; [exact (carve_page_ok s1 ns' p Hi1 Hpin Honly Hpm Hp Hm1 El1 En1)|].
      intros s2 (fs' & Hne & Hi2 & Hl2 & Ev2). destruct fs' as [|x fs']; [destruct (Hne eq_refl)|].
      exists ns', x, fs'. split; [exact Hi2|]. split; [rewrite Hl2; exact Hl1|rewrite Ev2; exact Ev1].
    + apply wp_ret. destruct fs as [|x fs]; [by destruct (ai_free _ _ _ _ Hi)|]. by exists ns, x, fs.
  - intros s1 (ns' & x & fs' & Hi1 & Hl1 & Ev1). destruct (take_free _ _ _ _ Hi1) as (n & Hn & Ef & Hi2).
    rewrite Ef. destruct (ai_nodes _ _ _ _ Hi1 x) as [Hx0 _]; [cbn; apply elem_of_app; right; by left|].
    rewrite c_assert_true by lia. cbn [mbind outcome_bind]. rewrite Hn. cbn [mbind outcome_bind]. apply wp_ret.
    by exists ns', fs'.
Qed.

(** ** The interface *)

(** A node that was set aside is given the block that mmap returned. *)
Lemma fill_node_ok s x ns fs size v p :
  alloc_inv s [x] ns fs → vm_ok v → vm_blocks s.(vm) !! p = None → vm_blocks v = <[p := size]> (vm_blocks s.(vm)) →
  let s' := with_nodes (alter (put_addr p) x (alter (put_length size) x s.(nodes))) (with_vm v s) in
  alloc_inv s' [] ns fs ∧ live_blocks s' = live_blocks s ∧
  low_of s'.(nodes) x = p ∧ len_of s'.(nodes) x = size ∧ x ∉ ns ++ fs ∧ p ≠ x ∧ is_Some (s'.(nodes) !! x) ∧
  (∀ q, q ∈ ns → low_of s'.(nodes) q ≠ p) ∧
  page_of x ∈ ns ∧ low_of s'.(nodes) (page_of x) = page_of x ∧ len_of s'.(nodes) (page_of x) = PAGESIZE.
Proof.
  intros Hi Hv Hnone Ev s'. pose proof (ai_nodup _ _ _ _ Hi) as Hnd. cbn [app] in Hnd. apply NoDup_cons in Hnd as [Hx _].
  destruct (ai_nodes _ _ _ _ Hi x ltac:(by left)) as [_ Hxs].
  destruct (ai_pages _ _ _ _ Hi x ltac:(by left)) as (Hpg & El & En).
  assert (page_of x ≠ x) as Hpx by (intros E; rewrite E in Hpg; apply Hx, elem_of_app; by left).
  assert (∀ q, q ≠ x → s'.(nodes) !! q = s.(nodes) !! q) as Hne by (intros q ?; unfold s'; state_simpl; by rewrite !lookup_alter_ne).
  assert (∀ q, q ∈ ns → low_of s'.(nodes) q = low_of s.(nodes) q ∧ q ≠ x) as Hns.
  { intros q Hq. assert (q ≠ x) by (intros ->; apply Hx, elem_of_app; by left). unfold low_of. by rewrite Hne. }
  destruct (alloc_inv_ext s s' [] ns fs) as [Hi' Hl]; try done.
  - by eapply alloc_inv_drop.
  - unfold s'. state_simpl. rewrite Ev. by apply insert_subseteq.
  - intros q Hq. unfold s'. state_simpl. by fields.
  - intros q Hq. apply Hne. by intros ->.
  - split; [done|]. split; [done|]. unfold s'. state_simpl.
    split; [fields; by rewrite decide_True|]. split; [fields; by rewrite decide_True|]. split; [done|]. split; [|split; [by fields|split]].
    + (* the node is in a page that is mapped *)
      intros ->. assert (vm_blocks v !! page_of x = Some PAGESIZE) as Hm.
      { rewrite Ev, lookup_insert_ne by done. rewrite <- El at 1. rewrite <- En. by apply (ai_mapped _ _ _ _ Hi). }
      assert (vm_blocks v !! x = Some size) as Hs by (by rewrite Ev, lookup_insert_eq).
      destruct (vm_range _ _ _ Hv Hs) as (_ & _ & ? & _).
      assert (page_of x <= x < page_of x + PAGESIZE) by (unfold page_of, PAGESIZE; Z.div_mod_to_equations; lia).
      destruct (vm_disjoint _ _ _ _ _ Hv Hm Hs Hpx); lia.
    + intros q Hq. pose proof (Hns q Hq) as [Eq _]. unfold s' in Eq. revert Eq. state_simpl. intros ->.
      intros E. pose proof (ai_mapped _ _ _ _ Hi q Hq) as Hm. rewrite E in Hm. congruence.
    + fields. by rewrite !decide_False.
Qed.

Lemma threadscan_alloc_mmap_ok s size :
  (∃ ns fs, alloc_inv s [] ns fs) → 0 < size → size `mod` PAGESIZE = 0 → request_avail s size →
  wp (threadscan_alloc_mmap size s) (λ r, (∃ ns fs, alloc_inv r.2 [] ns fs) ∧ 0 < r.1 ∧ live_blocks s !! r.1 = None ∧
    live_blocks r.2 = <[r.1 := size]> (live_blocks s)).
Proof.
  intros (ns0 & fs0 & Hi0) Hsz Hmod [Hav1 Hav2]. unfold threadscan_alloc_mmap. apply wp_bind.
  eapply wp_mono; [by eapply metadata_new_ok|]. intros [x s1] (ns & fs & Hi & Hl & Ev). cbn [fst snd] in *.
  destruct (ai_nodes _ _ _ _ Hi x ltac:(by left)) as [Hx0 Hxs].
  rewrite c_assert_true by lia. cbn [mbind outcome_bind]. rewrite c_assert_true by lia. cbn [mbind outcome_bind].
  unfold set_length. rewrite update_ok by done. cbn [mbind outcome_bind]. rewrite <- Ev in Hav2.
  set (s2 := with_nodes _ s1). pose proof (ai_vm _ _ _ _ Hi) as Hv.
  destruct (mmap_law s1.(vm) size Hv Hsz Hmod Hav2) as (Hv' & Hnone & Eb).
  destruct (mmap_wrap_ok size s2 Hv Hsz Hmod Hav2) as [-> Hp]. cbn [mbind outcome_bind].
  change (vm s2) with (vm s1) in *. set (p := (mmap size s1.(vm)).1) in *. set (v := (mmap size s1.(vm)).2) in *.
  unfold set_addr. rewrite update_ok by (unfold s2; state_simpl; by fields). cbn [mbind outcome_bind].
  rewrite c_assert_true by (apply andb_true_iff; split; lia). cbn [mbind outcome_bind].
  destruct (fill_node_ok s1 x ns fs size v p Hi Hv' Hnone Eb) as (Hi4 & Hl4 & El & En & Hx & Hpx & Hxs4 & Hlow & Hpg).
  change (with_nodes _ (with_vm v s2)) with (with_nodes (alter (put_addr p) x (alter (put_length size) x s1.(nodes))) (with_vm v s1)).
  set (s4 := with_nodes _ (with_vm v s1)) in *. apply wp_bind. unfold metadata_insert.
  eapply wp_mono.
  { apply (insert_inv s4 x [] ns fs); rewrite ?El, ?En; try done; [|right; apply Hpg|apply Hpg|apply Hpg].
    change (vm s4) with v. by rewrite Eb, lookup_insert_eq. }
  intros s5 (ns' & Eperm & Hi5 & Hs5 & Hl5). rewrite El, En in Hl5. rewrite decide_False in Hl5 by done.
  destruct (node_ok x s5) as (n & Hn & _ & Hna & _); [by apply (sb_dom _ _ _ Hs5)|]. rewrite Hn. cbn [mbind outcome_bind].
  rewrite (sb_low _ _ _ Hs5), El in Hna. rewrite Hna.
  destruct (mprotect p size (vm s5)) as [r v'] eqn:Emp.
  assert (vm_blocks s5.(vm) !! p = Some size) as Hpm.
  { rewrite (sb_vm _ _ _ Hs5). change (vm s4) with v. by rewrite Eb, lookup_insert_eq. }
  destruct (mprotect_law _ _ _ (ai_vm _ _ _ _ Hi5) Hpm) as [Hv6 Eb6]. rewrite Emp in Hv6, Eb6. cbn in Hv6, Eb6.
  apply wp_ret. cbn [fst snd].
  destruct (alloc_inv_ext s5 (with_vm v' s5) [] ns' fs) as [Hi6 Hl6]; try done; [by state_simpl; rewrite Eb6|].
  split; [by exists ns', fs|]. split; [done|]. rewrite Hl6, Hl5, Hl4, Hl. split; [|done].
  rewrite <- Hl. destruct (live_blocks s1 !! p) eqn:E; [|done].
  apply (live_lookup _ _ _ _ (ai_blocks _ _ _ _ Hi)) in E as (q & Hq & Elq & _).
  pose proof (ai_mapped _ _ _ _ Hi q Hq) as Hm. rewrite Elq in Hm. congruence.
Qed.

(** Whether memory is there is all that decides if the call returns. *)
Lemma alloc_mmap_fails s size :
  (∃ ns fs, alloc_inv s [] ns fs) → size `mod` PAGESIZE = 0 → ¬ request_avail s size →
  threadscan_alloc_mmap size s = threadscan_fatal.
Proof.
  intros (ns & fs & Hi) Hmod Hna. unfold threadscan_alloc_mmap.
  destruct (decide (s.(free_list) = 0 ∧ (mmap ALLOC_BLOCKSIZE s.(vm)).1 = MAP_FAILED)) as [[E Ef]|Hok].
  { unfold metadata_new. rewrite E. cbn [Z.eqb]. rewrite mmap_wrap_fails by done. unfold threadscan_fatal. by destruct debug. }
  assert (node_avail s) as Hav by (unfold node_avail; tauto).
  destruct (proj1 (wp_iff _ _) (metadata_new_ok s ns fs Hi Hav)) as ([x s1] & Hnew & ns' & fs' & Hi1 & _ & Ev). cbn [fst snd] in *.
  rewrite Hnew. cbn [mbind outcome_bind]. destruct (ai_nodes _ _ _ _ Hi1 x ltac:(by left)) as [Hx0 Hxs].
  rewrite c_assert_true by lia. cbn [mbind outcome_bind]. rewrite c_assert_true by lia. cbn [mbind outcome_bind].
  unfold set_length. rewrite update_ok by done. cbn [mbind outcome_bind].
  rewrite mmap_wrap_fails; [unfold threadscan_fatal; by destruct debug|]. cbn [vm with_nodes]. rewrite Ev.
  destruct (decide ((mmap size (vm_after_new s)).1 = MAP_FAILED)) as [|Hne]; [done|]. destruct Hna. by split.
Qed.

(** The node of a block that was handed out is set aside. *)
Lemma remove_inv s A d B fs fuel :
  alloc_inv s [] (A ++ d :: B) fs → low_of s.(nodes) d ≠ d → (length A < fuel)%nat →
  wp (metadata_remove fuel (low_of s.(nodes) d) s) (λ r, r.1 = d ∧ alloc_inv r.2 [d] (A ++ B) fs ∧
    r.2.(vm) = s.(vm) ∧ low_of r.2.(nodes) d = low_of s.(nodes) d ∧ len_of r.2.(nodes) d = len_of s.(nodes) d ∧
    (∀ q, q ∈ A ++ B → low_of r.2.(nodes) q ≠ low_of s.(nodes) d) ∧
    live_blocks r.2 = delete (low_of s.(nodes) d) (live_blocks s)).
Proof.
  intros Hi Hne Hf. pose proof Hi as [Hb Hfc Hnd Hns Hv Hm Hp]. cbn [app] in *.
  assert (A ++ d :: B ≡ₚ d :: A ++ B) as Eperm by (by rewrite Permutation_middle).
  assert (d ∈ A ++ d :: B) as Hd by (rewrite Eperm; by left).
  assert (∀ p, p ∈ (A ++ d :: B) ++ fs → page_of p ∈ A ++ B) as Hpages.
  { intros p Hin. destruct (Hp p Hin) as (Hpg & El & _). rewrite Eperm in Hpg.
    apply elem_of_cons in Hpg as [E|?]; [|done]. rewrite E in El. done. }
  eapply wp_mono.
  { apply (metadata_remove_ok s A d B fuel Hb); [|done]. intros E.
    assert (page_of d ∈ A ++ B) as Hin by (apply Hpages, elem_of_app; by left). rewrite E in Hin. by apply elem_of_nil in Hin. }
  intros [d' s1] (-> & Hb1 & [Ef Ev Hdom Hlo Hle Hnx]). cbn [fst snd] in *. split; [done|].
  assert (∀ q, q ∈ A ++ B → low_of s1.(nodes) q ≠ low_of s.(nodes) d) as Hlow.
  { intros q Hq. rewrite Hlo. intros E. apply (low_inj s _ q d Hb) in E; [|rewrite Eperm; by right|done].
    subst q. rewrite Eperm in Hnd. cbn [app] in Hnd. apply NoDup_cons in Hnd as [Hnin _]. apply Hnin, elem_of_app. by left. }
  assert ([d] ++ (A ++ B) ++ fs ≡ₚ (A ++ d :: B) ++ fs) as Eperm2 by (rewrite Eperm; done).
  split; [|rewrite Hlo, Hle; repeat split; try done].
  - split; try done.
    + rewrite Ef. eapply free_chain_ext; [|done]. intros q Hq. apply Hnx. intros Hin.
      apply NoDup_app in Hnd as (_ & Hnd & _). by eapply Hnd.
    + by rewrite Eperm2.
    + intros q. rewrite Eperm2, Hdom. apply Hns.
    + by rewrite Ev.
    + intros q Hq. rewrite Ev, Hlo, Hle. apply Hm. rewrite Eperm. by right.
    + intros q. rewrite Eperm2, Hlo, Hle. intros Hq. split; [by apply Hpages|]. by apply Hp.
  - apply map_eq. intros a. apply option_eq. intros l. rewrite lookup_delete_Some, (live_lookup _ _ _ _ Hb), (live_lookup _ _ _ _ Hb1).
    setoid_rewrite Hlo. setoid_rewrite Hle. setoid_rewrite Hlo in Hlow. split.
    + intros (q & Hq & <- & <- & Hqn). split; [by apply not_eq_sym, Hlow|]. exists q. repeat split; [rewrite Eperm; by right|done].
    + intros (Ha & q & Hq & <- & <- & Hqn). exists q. repeat split; [|done]. rewrite Eperm in Hq.
      apply elem_of_cons in Hq as [->|?]; [done|done].
Qed.

(** The block of a node that was set aside is unmapped. *)
Lemma unmap_inv s d ns fs v' :
  alloc_inv s [d] ns fs → vm_ok v' → vm_blocks v' = delete (low_of s.(nodes) d) (vm_blocks s.(vm)) →
  (∀ q, q ∈ ns → low_of s.(nodes) q ≠ low_of s.(nodes) d) → alloc_inv (with_vm v' s) [d] ns fs.
Proof.
  intros [Hb Hf Hnd Hns Hv Hm Hp] Hv' Ev' Hlow. split; state_simpl; try done.
  - destruct Hb. by split.
  - intros q Hq. rewrite Ev', lookup_delete_ne by (by apply not_eq_sym, Hlow). by apply Hm.
Qed.

Lemma threadscan_alloc_munmap_ok s ptr :
  (∃ ns fs, alloc_inv s [] ns fs) → is_Some (live_blocks s !! ptr) →
  wp (threadscan_alloc_munmap ptr s) (λ s', (∃ ns fs, alloc_inv s' [] ns fs) ∧ live_blocks s' = delete ptr (live_blocks s)).
Proof.
  intros (ns & fs & Hi) [l Hl]. pose proof (ai_blocks _ _ _ _ Hi) as Hb.
  apply (live_lookup _ _ _ _ Hb) in Hl as (d & Hd & <- & <- & Hne).
  pose proof (ai_mapped _ _ _ _ Hi d Hd) as Hm. destruct (vm_range _ _ _ (ai_vm _ _ _ _ Hi) Hm) as (Hp0 & _).
  apply list_elem_of_split in Hd as (A & B & ->). pose proof (blocks_list_size _ _ Hb) as Hsz. rewrite length_app in Hsz.
  unfold threadscan_alloc_munmap. rewrite c_assert_true by lia. cbn [mbind outcome_bind]. apply wp_bind.
  eapply wp_mono; [apply (remove_inv s A d B fs); [done|done|lia]|].
  intros [d' s1] (Ed & Hi1 & Ev & Elo & Ele & Hlow & Hlive). cbn [fst snd] in *. subst d'.
  destruct (ai_nodes _ _ _ _ Hi1 d ltac:(by left)) as [Hd0 Hds]. replace (d =? 0) with false by lia.
  destruct (node_ok d s1 Hds) as (n & Hn & _ & Hna & Hnl & _). rewrite Hn. cbn [mbind outcome_bind].
  rewrite Hna, Hnl, Elo, Ele. unfold munmap_wrap. rewrite Ev.
  destruct (munmap_law _ _ _ (ai_vm _ _ _ _ Hi) Hm) as (Hr & Hv' & Eb).
  destruct (munmap (low_of s.(nodes) d) (len_of s.(nodes) d) s.(vm)) as [r v']. cbn [fst snd] in *. subst r. cbn [Z.eqb negb].
  assert (alloc_inv (with_vm v' s1) [d] (A ++ B) fs) as Hi2 by (apply unmap_inv; rewrite ?Elo, ?Ev; done).
  eapply wp_mono; [apply (metadata_free_ok _ _ _ _ _ Hi2)|]. intros s3 (Hi3 & Hl3 & _).
  split; [by exists (A ++ B), (d :: fs)|]. by rewrite Hl3, <- Hlive.
Qed.

Lemma live_disjoint s a la b lb :
  (∃ ns fs, alloc_inv s [] ns fs) → live_blocks s !! a = Some la → live_blocks s !! b = Some lb → a ≠ b →
  a + la <= b ∨ b + lb <= a.
Proof.
  intros (ns & fs & Hi) Ha Hb Hne. pose proof (ai_blocks _ _ _ _ Hi) as Hl.
  apply (live_lookup _ _ _ _ Hl) in Ha as (p & Hp & <- & <- & _). apply (live_lookup _ _ _ _ Hl) in Hb as (q & Hq & <- & <- & _).
  pose proof (ai_mapped _ _ _ _ Hi p Hp). pose proof (ai_mapped _ _ _ _ Hi q Hq).
  by eapply vm_disjoint; [apply (ai_vm _ _ _ _ Hi)|..].
Qed.

(** A request of no bytes, which mmap refuses, ends the process. *)
Lemma alloc_mmap_zero s :
  (∀ u, (mmap 0 u).1 = MAP_FAILED) → (∃ ns fs, alloc_inv s [] ns fs) → threadscan_alloc_mmap 0 s = threadscan_fatal.
Proof. intros Hz Hok. apply alloc_mmap_fails; [done|done|]. intros [_ Hav]. by apply Hav. Qed.

(** alloc.c implements the interface of AllocIface.v. *)
#[export, refine] Instance alloc_allocator : Allocator (alloc_state VS) := {|
  alloc_mmap := threadscan_alloc_mmap;
  alloc_munmap := threadscan_alloc_munmap;
  alloc_ok s := ∃ ns fs, alloc_inv s [] ns fs;
  live := live_blocks;
  alloc_avail := request_avail;
|}.
Proof.
  - intros s size Hok Hsz Hmod Hav. apply threadscan_alloc_mmap_ok; [done|lia|done|done].
  - apply threadscan_alloc_munmap_ok.
  - apply live_disjoint.
Defined.
End invariant.

(** ** Properties *)
Section properties.
Context `{Build} {VS : Type} `{!VirtualMemory VS} `{!VirtualMemoryLaws VS}.
Implicit Types s : alloc_state VS.

(** The state at start-up. *)
Definition alloc_start (v : VS) : alloc_state VS := {| nodes := ∅; free_list := 0; alloc_list := 0; vm := v |}.

Lemma alloc_start_inv v : vm_ok v → alloc_inv (alloc_start v) [] [] [].
Proof.
  intros Hv. split; cbn; try done; try by intros p ?%elem_of_nil.
  - split; cbn; try done; [constructor|by intros p ?%elem_of_nil|constructor].
  - constructor.
Qed.

(** The addresses of the blocks that are known, in the order of the list. *)
Definition known_addresses s : list Z := low_of s.(nodes) <$> blocks_of s.

Lemma known_addresses_sorted s ns fs :
  alloc_inv s [] ns fs → StronglySorted Z.lt (known_addresses s).
Proof.
  intros Hi. pose proof (ai_blocks _ _ _ _ Hi) as Hb. unfold known_addresses. rewrite (blocks_of_eq _ _ Hb).
  pose proof (bl_sorted _ _ Hb) as Hs. pose proof (bl_nodes _ _ Hb) as Hn. clear -Hs Hn.
  induction Hs as [|p l Hl IH Hp]; cbn; constructor.
  - apply IH. intros q Hq. apply Hn. by right.
  - apply Forall_fmap, Forall_forall. intros q Hq. rewrite Forall_forall in Hp. specialize (Hp q Hq).
    destruct (Hn p ltac:(by left)) as (_ & _ & _ & ? & _). unfold before in Hp. cbn. lia.
Qed.

(** C11. A request for [size] bytes, a positive multiple of the page size, that
    the operating system has memory for returns a block that is not live and
    overlaps no live block; exactly this block becomes live, all others stay.
    The list of blocks is sorted by address again, whether the new block (and
    the page of new nodes, where the free list was empty) goes to its front,
    its middle or its end. *)
Theorem alloc_mmap_fresh s size :
  alloc_ok s → 0 < size → size `mod` PAGESIZE = 0 → request_avail s size →
  ∃ p s', threadscan_alloc_mmap size s = Ret (p, s') ∧ alloc_ok s' ∧
    live_blocks s' = <[p := size]> (live_blocks s) ∧ live_blocks s !! p = None ∧
    (∀ a l, live_blocks s !! a = Some l → a + l <= p ∨ p + size <= a) ∧
    StronglySorted Z.lt (known_addresses s').
Proof.
  intros Hok Hsz Hmod Hav.
  destruct (proj1 (wp_iff _ _) (threadscan_alloc_mmap_ok s size Hok Hsz Hmod Hav)) as ([p s'] & Hrun & Hok' & Hp & Hnone & Hl).
  cbn [fst snd] in *. exists p, s'. split; [done|]. split; [done|]. split; [done|]. split; [done|]. split.
  - intros a l Ha. assert (a ≠ p) as Hne by congruence.
    apply (live_disjoint s' a l p size Hok'); rewrite ?Hl; [|by rewrite lookup_insert_eq|done].
    by rewrite lookup_insert_ne by congruence.
  - destruct Hok' as (ns & fs & Hi). by eapply known_addresses_sorted.
Qed.

(** C12. Releasing a live block returns, and exactly this block is live no more:
    its node is taken out of the list of blocks and the memory unmapped. *)
Theorem alloc_munmap_releases s ptr :
  alloc_ok s → is_Some (live_blocks s !! ptr) →
  ∃ s', threadscan_alloc_munmap ptr s = Ret s' ∧ alloc_ok s' ∧ live_blocks s' = delete ptr (live_blocks s) ∧
    StronglySorted Z.lt (known_addresses s').
Proof.
  intros Hok Hl.
  destruct (proj1 (wp_iff _ _) (threadscan_alloc_munmap_ok s ptr Hok Hl)) as (s' & Hrun & Hok' & Hl').
  exists s'. split; [done|]. split; [done|]. split; [done|]. destruct Hok' as (ns & fs & Hi). by eapply known_addresses_sorted.
Qed.

(** C29. Without memory the call does not return: the process ends, whether it
    is the page for new nodes or the block itself that mmap refuses. *)
Theorem alloc_mmap_out_of_memory s size :
  alloc_ok s → size `mod` PAGESIZE = 0 → ¬ request_avail s size →
  threadscan_alloc_mmap size s = threadscan_fatal.
Proof. apply alloc_mmap_fails. Qed.

(** C30. For an address that no block has, [metadata_remove] never comes out of
    its loop: the list is circular, so the test for a null pointer after the
    loop is never reached. *)
Theorem unknown_address_loops s addr fuel :
  alloc_ok s → blocks_of s ≠ [] → addr ∉ known_addresses s → metadata_remove fuel addr s = OutOfFuel.
Proof.
  intros (ns & fs & Hi) Hne Haddr. pose proof (ai_blocks _ _ _ _ Hi) as Hb. unfold known_addresses in Haddr.
  rewrite (blocks_of_eq _ _ Hb) in Hne, Haddr. unfold metadata_remove. rewrite (bl_head _ _ Hb).
  destruct ns as [|c l]; [done|]. cbn [head default from_option id].
  destruct (bl_nodes _ _ Hb c ltac:(by left)) as (Hc & _). rewrite c_assert_true by lia. cbn [mbind outcome_bind].
  rewrite (walk_while_forever _ s fuel c l c); [done|apply (bl_ring _ _ Hb)|by left|].
  intros p Hp. destruct (bl_nodes _ _ Hb p Hp) as (_ & [n Hn] & _). exists n. split; [done|].
  assert (n.(md_addr) ≠ addr) as E; [|lia]. intros <-. apply Haddr, list_elem_of_fmap. exists p.
  unfold low_of. by rewrite Hn.
Qed.
End properties.

(** ** An operating system that meets the promises

    Addresses are given out once, in increasing order, as long as they last;
    like Linux it refuses a request of no bytes (EINVAL). *)
Record bump_vm := { bv_next : Z; bv_blocks : gmap Z Z }.

#[export] Instance bump_virtual_memory : VirtualMemory bump_vm := {|
  mmap size v := if (0 <? size) && (v.(bv_next) + size <? 2 ^ 64 - 1)
                 then (v.(bv_next), {| bv_next := v.(bv_next) + size; bv_blocks := <[v.(bv_next) := size]> v.(bv_blocks) |})
                 else (MAP_FAILED, v);
  munmap p _ v := (0, {| bv_next := v.(bv_next); bv_blocks := delete p v.(bv_blocks) |});
  mprotect _ _ v := (0, v);
|}.

Record bump_vm_ok (v : bump_vm) : Prop := {
  bvo_next : 0 < v.(bv_next) ∧ v.(bv_next) `mod` PAGESIZE = 0;
  bvo_blocks : ∀ p l, v.(bv_blocks) !! p = Some l →
    0 < p ∧ p `mod` PAGESIZE = 0 ∧ 0 < l ∧ p + l <= v.(bv_next) ∧ p + l < 2 ^ 64 - 1;
  bvo_disjoint : ∀ p l q k, v.(bv_blocks) !! p = Some l → v.(bv_blocks) !! q = Some k → p ≠ q → p + l <= q ∨ q + k <= p;
}.

#[export, refine] Instance bump_virtual_memory_laws : VirtualMemoryLaws bump_vm := {|
  vm_ok := bump_vm_ok;
  vm_blocks := bv_blocks;
|}.
Proof.
  - intros v p l Hv Hp. destruct (bvo_blocks v Hv p l Hp) as (? & ? & ? & ? & ?). done.
  - intros v p l q k Hv. apply (bvo_disjoint v Hv).
  - intros [next b] size [[Hn Hm] Hb Hd] Hs Hsm. cbn in *. replace (0 <? size) with true by lia.
    cbn [andb]. destruct (Z.ltb_spec (next + size) (2 ^ 64 - 1)); [|done].
    intros _. cbn. split; [split; cbn|split; [|done]].
    + split; [lia|]. unfold PAGESIZE in *. Z.div_mod_to_equations. lia.
    + intros p l [[<- <-]|[_ Hp]]%lookup_insert_Some; [lia|]. destruct (Hb p l Hp) as (? & ? & ? & ? & ?). lia.
    + intros p l q k [[<- <-]|[_ Hp]]%lookup_insert_Some [[<- <-]|[_ Hq]]%lookup_insert_Some Hne; [done|..].
      * destruct (Hb q k Hq) as (? & ? & ? & ? & ?). lia.
      * destruct (Hb p l Hp) as (? & ? & ? & ? & ?). lia.
      * by apply Hd.
    + destruct (b !! next) as [l|] eqn:E; [|done]. destruct (Hb next l E) as (? & ? & ? & ? & ?). lia.
  - intros [next b] p l [[Hn Hm] Hb Hd] Hp. cbn in *. split; [done|]. split; [split; cbn|done].
    + done.
    + intros q k [_ Hq]%lookup_delete_Some. by apply Hb.
    + intros q k q' k' [_ Hq]%lookup_delete_Some [_ Hq']%lookup_delete_Some. by apply Hd.
  - done.
Defined.

Definition ex_vm (next : Z) : bump_vm := {| bv_next := next; bv_blocks := ∅ |}.

Lemma ex_vm_ok next : 0 < next → next `mod` PAGESIZE = 0 → bump_vm_ok (ex_vm next).
Proof. intros. split; [done|intros p l E|intros p l q k E]; cbn in E; by rewrite lookup_empty in E. Qed.

Section examples.
#[local] Existing Instance release_build.

Lemma ex_start_ok next : 0 < next → next `mod` PAGESIZE = 0 → alloc_ok (alloc_start (ex_vm next)).
Proof. intros. exists [], []. by apply alloc_start_inv, ex_vm_ok. Qed.

Lemma alloc_mmap_fresh_witness :
  ∃ p s', threadscan_alloc_mmap 0x2000 (alloc_start (ex_vm 0x1000)) = Ret (p, s') ∧ live_blocks s' = {[p := 0x2000]}.
Proof.
  destruct (alloc_mmap_fresh (alloc_start (ex_vm 0x1000)) 0x2000 (ex_start_ok 0x1000 eq_refl eq_refl) eq_refl eq_refl)
    as (p & s' & Hrun & _ & Hl & _); [split; vm_compute; discriminate|]. exists p, s'. split; [exact Hrun|exact Hl].
Defined.

(** One block was handed out. *)
Definition ex_one_block : alloc_state bump_vm :=
  match threadscan_alloc_mmap 0x2000 (alloc_start (ex_vm 0x1000)) with Ret (_, s) => s | _ => alloc_start (ex_vm 0x1000) end.

Lemma ex_one_block_ok : alloc_ok ex_one_block.
Proof.
  pose proof (threadscan_alloc_mmap_ok (alloc_start (ex_vm 0x1000)) 0x2000 (ex_start_ok 0x1000 eq_refl eq_refl) eq_refl eq_refl) as Hw.
  specialize (Hw ltac:(split; vm_compute; discriminate)). unfold ex_one_block.
  destruct (threadscan_alloc_mmap _ _) as [[p s]| | | |]; try done. apply Hw.
Qed.

Lemma alloc_munmap_releases_witness :
  ∃ s', threadscan_alloc_munmap 0x2000 ex_one_block = Ret s' ∧ live_blocks s' = ∅.
Proof.
  destruct (alloc_munmap_releases ex_one_block 0x2000 ex_one_block_ok) as (s' & Hrun & _ & Hl & _).
  - assert (live_blocks ex_one_block !! 0x2000 = Some 0x2000) as -> by (vm_compute; reflexivity). by eexists.
  - exists s'. split; [exact Hrun|]. rewrite Hl. vm_compute. reflexivity.
Defined.

Lemma alloc_mmap_out_of_memory_witness :
  threadscan_alloc_mmap 0x2000 (alloc_start (ex_vm (2 ^ 64 - 0x2000))) = Exited 1.
Proof.
  apply (alloc_mmap_out_of_memory (H := release_build) (alloc_start (ex_vm (2 ^ 64 - 0x2000))) 0x2000).
  - by apply ex_start_ok.
  - reflexivity.
  - intros [_ H]. apply H. vm_compute. reflexivity.
Defined.

Lemma unknown_address_loops_witness : metadata_remove 1000 0x2008 ex_one_block = OutOfFuel.
Proof.
  apply (unknown_address_loops ex_one_block 0x2008 1000 ex_one_block_ok).
  - vm_compute. discriminate.
  - assert (known_addresses ex_one_block = [0x1000; 0x2000]) as -> by (vm_compute; reflexivity).
    rewrite !elem_of_cons, elem_of_nil. intuition discriminate.
Defined.
End examples.
