(* ===== verification/Buffers.v ===== *)
(** * threadscan.c: the pointers being tracked

    The working buffer, the list of left-over pointers ([storage]), the
    thread queues, and what happens to them before and after a scan.  Blocks
    of memory from the allocator are arrays of words, by base address; the
    left-over blocks are linked through their first word, as in the program. *)

From S2P Require Import Prelude Conc Mem Env Queue Sort AllocIface.
From S2P Require Import Search.

(** The state these functions work on. *)
Record rstate (AS : Type) := {
  g_tsdata : threadscan_data_t;
  blocks : gmap Z (list Z);
  allocator : AS;
  queues : list queue_t; (* the [ptr_list] of each thread on the list *)
  freed : list Z;        (* the calls of free(), in order *)
}.
Arguments g_tsdata {AS}.
Arguments blocks {AS}.
Arguments allocator {AS}.
Arguments queues {AS}.
Arguments freed {AS}.

Section code.
Context `{Build} {AS : Type} `{!Allocator AS}.
Implicit Types st : rstate AS.

Definition set_tsdata (g : threadscan_data_t) st : rstate AS :=
  {| g_tsdata := g; blocks := st.(blocks); allocator := st.(allocator); queues := st.(queues); freed := st.(freed) |}.
Definition set_blocks (b : gmap Z (list Z)) st : rstate AS :=
  {| g_tsdata := st.(g_tsdata); blocks := b; allocator := st.(allocator); queues := st.(queues); freed := st.(freed) |}.
Definition set_allocator (a : AS) st : rstate AS :=
  {| g_tsdata := st.(g_tsdata); blocks := st.(blocks); allocator := a; queues := st.(queues); freed := st.(freed) |}.
Definition set_queues (q : list queue_t) st : rstate AS :=
  {| g_tsdata := st.(g_tsdata); blocks := st.(blocks); allocator := st.(allocator); queues := q; freed := st.(freed) |}.
Definition add_freed (l : list Z) st : rstate AS :=
  {| g_tsdata := st.(g_tsdata); blocks := st.(blocks); allocator := st.(allocator); queues := st.(queues);
     freed := st.(freed) ++ l |}.

Definition set_n_addrs (n : Z) (g : threadscan_data_t) : threadscan_data_t :=
  {| max_ptrs := g.(max_ptrs); n_addrs := n; buf_addrs := g.(buf_addrs); n_scan_map := g.(n_scan_map);
     buf_scan_map := g.(buf_scan_map); working_buffer_sz := g.(working_buffer_sz);
     scan_map_offset := g.(scan_map_offset); storage := g.(storage) |}.
Definition set_n_scan_map (n : Z) (g : threadscan_data_t) : threadscan_data_t :=
  {| max_ptrs := g.(max_ptrs); n_addrs := g.(n_addrs); buf_addrs := g.(buf_addrs); n_scan_map := n;
     buf_scan_map := g.(buf_scan_map); working_buffer_sz := g.(working_buffer_sz);
     scan_map_offset := g.(scan_map_offset); storage := g.(storage) |}.
Definition set_storage (p : Z) (g : threadscan_data_t) : threadscan_data_t :=
  {| max_ptrs := g.(max_ptrs); n_addrs := g.(n_addrs); buf_addrs := g.(buf_addrs); n_scan_map := g.(n_scan_map);
     buf_scan_map := g.(buf_scan_map); working_buffer_sz := g.(working_buffer_sz);
     scan_map_offset := g.(scan_map_offset); storage := p |}.

(** Memory from mmap is filled with zeros. *)
Definition threadscan_alloc_mmap (size : Z) st : outcome (Z * rstate AS) :=
  '(p, a) ← alloc_mmap size st.(allocator);
  Ret (p, set_blocks (<[p := replicate (Z.to_nat (size / sizeof_size_t)) 0]> st.(blocks)) (set_allocator a st)).

Definition threadscan_alloc_munmap (ptr : Z) st : outcome (rstate AS) :=
  a ← alloc_munmap ptr st.(allocator);
  Ret (set_blocks (delete ptr st.(blocks)) (set_allocator a st)).

Definition get_block (p : Z) st : outcome (list Z) := of_option (st.(blocks) !! p).
Definition put_block (p : Z) (b : list Z) st : rstate AS := set_blocks (<[p := b]> st.(blocks)) st.

Definition assign_working_space (buf : Z) st : rstate AS :=
  let g := st.(g_tsdata) in
  set_tsdata {| max_ptrs := g.(max_ptrs); n_addrs := g.(n_addrs); buf_addrs := buf;
                n_scan_map := g.(n_scan_map); buf_scan_map := buf + g.(scan_map_offset);
                working_buffer_sz := g.(working_buffer_sz); scan_map_offset := g.(scan_map_offset);
                storage := g.(storage) |} st.

Definition store_remaining_addrs (addrs n : Z) st : outcome (rstate AS) :=
  if n =? 0 then threadscan_alloc_munmap addrs st
  else
    n2 ← cint (n + 2);
    limit ← cint (st.(g_tsdata).(max_ptrs) * 2);
    if n2 >? limit then threadscan_fatal
    else
      b ← get_block addrs st;
      x ← aget b 0; b ← aset b n x;         (* addrs[n] = addrs[0] *)
      x ← aget b 1; b ← aset b (n + 1) x;   (* addrs[n + 1] = addrs[1] *)
      b ← aset b 1 n;                       (* tmp->length = n *)
      b ← aset b 0 st.(g_tsdata).(storage); (* tmp->next = storage *)
      Ret (set_tsdata (set_storage addrs st.(g_tsdata)) (put_block addrs b st)).

(** Copies [max] words of [buf] from index [off] on to the working buffer. *)
Definition add_to_buf_addrs (n : Z) (buf : list Z) (off max : Z) st : outcome (Z * rstate AS) :=
  sum ← cint (n + max);
  limit ← cint (st.(g_tsdata).(max_ptrs) * 2);
  if sum >? limit then threadscan_fatal
  else
    b ← get_block st.(g_tsdata).(buf_addrs) st;
    b ← memcpy b n buf off max;
    Ret (sum, put_block st.(g_tsdata).(buf_addrs) b st).

(** The loop over the left-over blocks. *)
Fixpoint add_leftovers (fuel : nat) (leftovers n : Z) st : outcome (Z * rstate AS) :=
  if leftovers =? 0 then Ret (n, st)
  else match fuel with
  | O => OutOfFuel
  | S fuel' =>
      b ← get_block leftovers st;
      length ← aget b 1;
      '(n, st) ← add_to_buf_addrs n b 2 (int_of_u64 length) st;
      b ← get_block leftovers st;
      next ← aget b 0;
      st ← threadscan_alloc_munmap leftovers st;
      add_leftovers fuel' next n st
  end.

(** The loop over the threads. *)
Fixpoint pop_queues (todo done : list queue_t) (n : Z) st : outcome (Z * rstate AS) :=
  match todo with
  | [] => Ret (n, set_queues done st)
  | q :: todo' =>
      limit ← cint (st.(g_tsdata).(max_ptrs) * 2);
      len ← cint (limit - n);
      b ← get_block st.(g_tsdata).(buf_addrs) st;
      '(r, q') ← run (threadscan_queue_pop_bulk b n (u64 len)) q;
      n ← cint (n + r.1);
      pop_queues todo' (done ++ [q']) n (put_block st.(g_tsdata).(buf_addrs) r.2 st)
  end.

Definition generate_working_pointers_list st : outcome (Z * rstate AS) :=
  let leftovers := st.(g_tsdata).(storage) in
  let st := set_tsdata (set_storage 0 st.(g_tsdata)) st in
  '(n, st) ← add_leftovers (size st.(blocks)) leftovers 0 st;
  pop_queues st.(queues) [] n st.

(** The body of the loop of [handle_unreferenced_ptrs]: the write position,
    the array, and the addresses passed to free(). *)
Definition handle_one (i : Z) (s : Z * list Z * list Z) : outcome (Z * list Z * list Z) :=
  let '(write_position, addrs, out) := s in
  x ← aget addrs i;
  if negb (Z.land x 1 =? 0) then
    x ← aget addrs i;
    addrs ← aset addrs write_position (PTR_MASK x);
    addrs ← aset addrs i 0;
    Ret (write_position + 1, addrs, out)
  else
    addrs' ← aset addrs i 0;
    Ret (write_position, addrs', out ++ [x]).

Definition handle_unreferenced_ptrs (addrs count : Z) st : outcome (Z * rstate AS) :=
  b ← get_block addrs st;
  '(write_position, b, out) ← for_range 0 count handle_one (0, b, []);
  Ret (write_position, add_freed out (put_block addrs b st)).
End code.

(** ** After the scan *)

(** An address whose low bit is set is referenced. *)
Definition is_marked (x : Z) : bool := negb (Z.land x 1 =? 0).

(** The longest prefix of marked addresses. *)
Fixpoint leading (l : list Z) : nat :=
  match l with
  | x :: l' => if is_marked x then S (leading l') else O
  | [] => O
  end.

(** The addresses kept, with the marks removed; the first [leading l] of them
    are overwritten by zeros. *)
Definition kept (l : list Z) : list Z :=
  let survivors := PTR_MASK <$> List.filter is_marked l in
  replicate (leading l) 0 ++ drop (leading l) survivors.

Definition not_kept (l : list Z) : list Z := List.filter (λ x, negb (is_marked x)) l.

Lemma is_marked_odd x : is_marked x = (x `mod` 2 =? 1).
Proof.
  unfold is_marked. rewrite land_1_mod. pose proof (Z.mod_pos_bound x 2).
  destruct (Z.eqb_spec (x `mod` 2) 0), (Z.eqb_spec (x `mod` 2) 1); try done; lia.
Qed.

Lemma leading_le l : (leading l ≤ length (List.filter is_marked l))%nat.
Proof. induction l as [|x l IH]; simpl; [lia|]. destruct (is_marked x); simpl; lia. Qed.

Lemma length_kept l : length (kept l) = length (List.filter is_marked l).
Proof.
  unfold kept. rewrite length_app, length_replicate, length_drop, length_fmap.
  pose proof (leading_le l). lia.
Qed.

Lemma leading_snoc l x :
  leading (l ++ [x]) =
    if decide (leading l = length l) then (length l + (if is_marked x then 1 else 0))%nat else leading l.
Proof.
  induction l as [|y l IH]; simpl; [by destruct (is_marked x)|].
  destruct (is_marked y); [|by destruct (is_marked x)]. rewrite IH.
  repeat case_decide; simpl in *; try lia; congruence.
Qed.

(** If all are marked so far, all that is kept is zeros. *)
Lemma leading_all l : leading l = length l → List.filter is_marked l = l.
Proof.
  induction l as [|x l IH]; simpl; [done|]. destruct (is_marked x); [|done].
  intros [= H]. by rewrite IH.
Qed.

Lemma leading_lt l : leading l ≠ length l → (length (List.filter is_marked l) < length l)%nat.
Proof.
  induction l as [|x l IH]; simpl; [done|]. destruct (is_marked x); simpl; intros H.
  - assert (leading l ≠ length l) by congruence. specialize (IH ltac:(done)). lia.
  - pose proof (List.filter_length_le is_marked l). lia.
Qed.

Lemma kept_snoc l x :
  kept (l ++ [x]) =
    if is_marked x then
      if decide (leading l = length l) then replicate (S (length l)) 0 else kept l ++ [PTR_MASK x]
    else kept l.
Proof.
  unfold kept. rewrite leading_snoc, List.filter_app. simpl. destruct (decide _) as [E|Hne].
  - pose proof (leading_all l E) as Hall. rewrite Hall, E.
    destruct (is_marked x); rewrite fmap_app.
    + rewrite Nat.add_1_r, drop_ge, app_nil_r; [done|]. rewrite length_app, length_fmap. simpl. lia.
    + rewrite Nat.add_0_r. simpl. by rewrite app_nil_r.
  - rewrite fmap_app. pose proof (leading_le l). destruct (is_marked x); simpl.
    + rewrite drop_app_le by (rewrite length_fmap; lia). by rewrite app_assoc.
    + by rewrite app_nil_r.
Qed.

Lemma kept_all l : leading l = length l → kept l = replicate (length l) 0.
Proof.
  intros E. unfold kept. rewrite leading_all, E by done.
  rewrite drop_ge by (by rewrite length_fmap). apply app_nil_r.
Qed.

Lemma kept_le l : (length (kept l) ≤ length l)%nat.
Proof. rewrite length_kept. apply List.filter_length_le. Qed.

Lemma kept_lt l : leading l ≠ length l → (length (kept l) < length l)%nat.
Proof. rewrite length_kept. apply leading_lt. Qed.

(** The state of the loop after [done]: what is kept, zeros, and the rest. *)
Definition handle_state (done rest : list Z) : Z * list Z * list Z :=
  (zlen (kept done), kept done ++ replicate (length done - length (kept done)) 0 ++ rest, not_kept done).

(** Writes in the middle of an array. *)
Lemma aset_middle l y r i v : zlen l = i → aset (l ++ y :: r) i v = Ret (l ++ v :: r).
Proof.
  intros <-. pose proof (zlen_nonneg l). pose proof (zlen_nonneg r).
  rewrite aset_in by (rewrite zlen_app, zlen_cons; lia). by rewrite zupd_middle.
Qed.

(** The zeros behind the retained pointers. *)
Lemma zeros_behind done : leading done ≠ length done →
  ∃ z, replicate (length done - length (kept done)) 0 = 0 :: z ∧ z ++ [0] = 0 :: z ∧
    zlen done = zlen (kept done ++ 0 :: z).
Proof.
  intros Hne. pose proof (kept_lt done Hne) as Hlt. exists (replicate (length done - length (kept done) - 1) 0).
  assert (replicate (length done - length (kept done)) 0 = 0 :: replicate (length done - length (kept done) - 1) 0) as E.
  { destruct (length done - length (kept done))%nat as [|n] eqn:E; [lia|]. simpl. by rewrite Nat.sub_0_r. }
  split; [done|]. split; [symmetry; apply replicate_S_end|].
  unfold zlen. rewrite length_app. cbn [length]. rewrite length_replicate. lia.
Qed.

Lemma handle_one_ok done x rest :
  handle_one (zlen done) (handle_state done (x :: rest)) = Ret (handle_state (done ++ [x]) rest).
Proof.
  unfold handle_one, handle_state. pose proof (kept_le done) as Hle.
  set (K := kept done) in *. set (Zs := replicate (length done - length K) 0).
  assert (zlen (K ++ Zs) = zlen done) as Hlen.
  { unfold zlen, Zs. rewrite length_app, length_replicate. lia. }
  pose proof (zlen_nonneg done). pose proof (zlen_nonneg rest).
  rewrite app_assoc. rewrite aget_in by (rewrite zlen_app, zlen_cons; lia). cbn [mbind outcome_bind].
  rewrite znth_middle by done. rewrite kept_snoc. fold K. unfold not_kept.
  rewrite List.filter_app. cbn [List.filter]. fold (is_marked x). destruct (is_marked x) eqn:Hx; cbn [negb].
  - rewrite app_nil_r, length_app. cbn [mbind outcome_bind]. destruct (decide (leading done = length done)) as [E|Hne].
    + (* only marked addresses so far *)
      assert (K = replicate (length done) 0) as HK by by apply kept_all.
      assert (length K = length done) as HKl by (by rewrite HK, length_replicate).
      assert (Zs = []) as -> by (unfold Zs; by rewrite HKl, Nat.sub_diag).
      rewrite app_nil_r in *. rewrite aset_middle by (unfold zlen; lia). cbn [mbind outcome_bind].
      rewrite aset_middle by done. cbn [mbind outcome_bind]. do 2 f_equal. f_equal.
      * unfold zlen. rewrite length_replicate, HKl. lia.
      * rewrite length_replicate. cbn [length]. replace (_ - _)%nat with 0%nat by lia.
        rewrite HK. change (replicate 0 0) with (@nil Z). rewrite replicate_S_end, <- app_assoc. done.
    + destruct (zeros_behind done Hne) as (z & HZ & Hz & Hlen'). fold K Zs in HZ, Hlen'. rewrite HZ in *.
      rewrite <- app_assoc. cbn [app]. rewrite aset_middle by done. cbn [mbind outcome_bind].
      change (PTR_MASK x :: z ++ x :: rest) with ((PTR_MASK x :: z) ++ x :: rest). rewrite app_assoc.
      rewrite aset_middle by (rewrite Hlen', !zlen_app, !zlen_cons; lia). cbn [mbind outcome_bind]. do 2 f_equal. f_equal.
      * by rewrite zlen_app.
      * rewrite length_app. cbn [length].
        replace (length done + 1 - (length K + 1))%nat with (length done - length K)%nat by lia.
        fold Zs. rewrite HZ, <- Hz, <- !app_assoc. done.
  - rewrite aset_middle by done. do 2 f_equal. f_equal.
    rewrite length_app. cbn [length]. replace (length done + 1 - length K)%nat with (S (length done - length K)) by lia.
    rewrite replicate_S_end, <- !app_assoc. done.
Qed.

Section handle.
Context `{Build} {AS : Type} `{!Allocator AS}.

Lemma handle_unreferenced_ptrs_ok (addrs count : Z) (st : rstate AS) (b : list Z) :
  st.(blocks) !! addrs = Some b → 0 ≤ count ≤ zlen b →
  let l := take (Z.to_nat count) b in
  handle_unreferenced_ptrs addrs count st =
    Ret (zlen (kept l),
         add_freed (not_kept l)
           (put_block addrs (kept l ++ replicate (length l - length (kept l)) 0 ++ drop (Z.to_nat count) b) st)).
Proof.
  intros Hb Hc l. unfold handle_unreferenced_ptrs, get_block. rewrite Hb. cbn [of_option mbind outcome_bind].
  assert (wp (for_range 0 count handle_one (0, b, [])) (λ s, s = handle_state l (drop (Z.to_nat count) b))) as Hloop.
  { apply wp_for_range with (I := λ i s, s = handle_state (take (Z.to_nat i) b) (drop (Z.to_nat i) b)).
    - done.
    - intros i s Hi ->. pose proof (znth_lookup b i ltac:(lia)) as Hx.
      rewrite (drop_S _ _ _ Hx).
      assert (zlen (take (Z.to_nat i) b) = i) as Hlen by (rewrite zlen_take; lia).
      rewrite <- Hlen at 1. rewrite handle_one_ok. apply wp_ret.
      rewrite <- (take_S_r _ _ _ Hx). by replace (Z.to_nat (i + 1)) with (S (Z.to_nat i)) by lia.
    - intros s ->. by replace (0 `max` count) with count by lia. }
  apply wp_iff in Hloop as (s & -> & ->). done.
Qed.

(** C15. [handle_unreferenced_ptrs] on any buffer: every unmarked address is
    passed to free() once, in order; the marked ones are moved to the front,
    with their marks removed; the rest of the prefix is zeroed.  As the code
    is written, the marked addresses before the first unmarked one are zeroed
    as well ([kept]): they are neither freed nor kept. *)
Theorem handle_unreferenced_ptrs_spec (addrs count : Z) (st : rstate AS) (b : list Z) :
  st.(blocks) !! addrs = Some b → 0 ≤ count ≤ zlen b →
  let l := take (Z.to_nat count) b in
  handle_unreferenced_ptrs addrs count st =
    Ret (zlen (kept l),
         add_freed (not_kept l)
           (put_block addrs (kept l ++ replicate (length l - length (kept l)) 0 ++ drop (Z.to_nat count) b) st)).
Proof. apply handle_unreferenced_ptrs_ok. Qed.
End handle.

(** ** Left-over pointers *)

(** A block of left-over pointers: addr_storage_t. *)
Record holds (blk : list Z) (next : Z) (addrs : list Z) : Prop := {
  ho_next : znth blk 0 = next;
  ho_length : znth blk 1 = zlen addrs;
  ho_addrs : slice blk 2 (zlen addrs) = addrs;
  ho_room : 2 + zlen addrs <= zlen blk;
}.

(** The blocks linked from [p], with the pointers in each. *)
Fixpoint chain (bl : gmap Z (list Z)) (p : Z) (l : list (Z * list Z)) : Prop :=
  match l with
  | [] => p = 0
  | (a, addrs) :: l' =>
      p = a ∧ a ≠ 0 ∧ ∃ blk next, bl !! a = Some blk ∧ holds blk next addrs ∧ chain bl next l'
  end.

Lemma chain_ext bl bl' p l :
  (∀ a, a ∈ l.*1 → bl' !! a = bl !! a) → chain bl p l → chain bl' p l.
Proof.
  revert p. induction l as [|[a addrs] l IH]; intros p Heq; [done|].
  intros (-> & Hnz & blk & next & Hb & Hh & Hc). split; [done|]. split; [done|].
  exists blk, next. split; [by rewrite Heq by (by left)|]. split; [done|].
  apply IH; [|done]. intros a' Ha'. apply Heq. by right.
Qed.

Section storage.
Context `{Build} {AS : Type} `{!Allocator AS}.
Implicit Types st : rstate AS.

Lemma holds_store b n next :
  0 < n → n + 2 <= zlen b →
  let b1 := zupd b n (znth b 0) in
  let b2 := zupd b1 (n + 1) (znth b1 1) in
  ∃ stored, holds (zupd (zupd b2 1 n) 0 next) next stored ∧ zlen stored = n ∧
    stored ≡ₚ take (Z.to_nat n) b.
Proof.
  intros Hn Hlen b1 b2.
  assert (zlen b1 = zlen b ∧ zlen b2 = zlen b) as [Hl1 Hl2] by (unfold b2, b1; by rewrite !zlen_zupd).
  exists (slice b2 2 n). assert (zlen (slice b2 2 n) = n) as Hs by (apply zlen_slice; lia).
  split; [|split; [done|]].
  - split; rewrite ?Hs; rewrite ?zlen_zupd; try lia.
    + apply znth_zupd_eq. rewrite zlen_zupd. lia.
    + rewrite znth_zupd_ne by lia. apply znth_zupd_eq. lia.
    + apply znth_ext; rewrite !zlen_slice; rewrite ?zlen_zupd; try lia.
      intros i Hi. rewrite !znth_slice by lia. by rewrite !znth_zupd_ne by lia.
  - destruct (decide (n = 1)) as [->|Hn1].
    + (* one pointer: it is copied twice *)
      assert (slice b2 2 1 = take (Z.to_nat 1) b) as ->; [|done].
      apply znth_ext; rewrite ?zlen_slice, ?zlen_take by lia; [lia|]. intros i Hi. assert (i = 0) as -> by lia.
      rewrite znth_slice, znth_take by lia. unfold b2, b1.
      rewrite !znth_zupd; rewrite ?zlen_zupd; try lia. simpl. reflexivity.
    + assert (slice b2 2 n = slice b 2 (n - 2) ++ slice b 0 2) as ->.
      { apply znth_ext; rewrite ?zlen_app, !zlen_slice by lia; [lia|]. intros i Hi.
        rewrite znth_slice by lia. unfold b2, b1. destruct (Z.ltb_spec i (n - 2)).
        - rewrite znth_app_l by (rewrite zlen_slice; lia). rewrite znth_slice by lia.
          by rewrite !znth_zupd_ne by lia.
        - rewrite znth_app_r by (rewrite zlen_slice; lia). rewrite zlen_slice, znth_slice by lia.
          destruct (decide (i = n - 2)) as [->|].
          + rewrite znth_zupd_ne by lia. replace (2 + (n - 2)) with n by lia.
            rewrite znth_zupd_eq by lia. f_equal. lia.
          + replace (2 + i) with (n + 1) by lia. rewrite znth_zupd_eq by (rewrite zlen_zupd; lia).
            rewrite znth_zupd_ne by lia. f_equal. lia. }
      rewrite Permutation_app_comm. replace (take (Z.to_nat n) b) with (slice b 0 (2 + (n - 2))).
      * by rewrite slice_split by lia.
      * unfold slice. simpl. f_equal. lia.
Qed.

(** [store_remaining_addrs] turns the array into a block in front of the
    others; with no pointers left it releases the array. *)
Lemma store_remaining_ok addrs n st b :
  st.(blocks) !! addrs = Some b → 0 < n → n + 2 <= 2 * st.(g_tsdata).(max_ptrs) <= zlen b →
  2 * st.(g_tsdata).(max_ptrs) <= INT_MAX →
  ∃ b' stored,
    store_remaining_addrs addrs n st =
      Ret (set_tsdata (set_storage addrs st.(g_tsdata)) (put_block addrs b' st)) ∧
    holds b' st.(g_tsdata).(storage) stored ∧ stored ≡ₚ take (Z.to_nat n) b ∧ zlen b' = zlen b.
Proof.
  intros Hb Hn Hroom Hmax. unfold store_remaining_addrs, get_block.
  destruct (holds_store b n st.(g_tsdata).(storage) Hn ltac:(lia)) as (stored & Hh & _ & Hp).
  replace (n =? 0) with false by lia.
  rewrite !cint_in by (unfold INT_MIN, INT_MAX in *; lia). cbn [mbind outcome_bind].
  replace (n + 2 >? max_ptrs (g_tsdata st) * 2) with false by lia.
  rewrite Hb. cbn [of_option mbind outcome_bind].
  repeat (rewrite ?aget_in, ?aset_in by (rewrite ?zlen_zupd; lia); cbn [mbind outcome_bind]).
  eexists _, stored. split; [reflexivity|]. split; [exact Hh|]. split; [exact Hp|]. by rewrite !zlen_zupd.
Qed.
End storage.

(** The blocks the state knows are the live blocks of the allocator. *)
Definition blocks_ok {AS} `{!Allocator AS} (st : rstate AS) : Prop :=
  alloc_ok st.(allocator) ∧ ∀ a, is_Some (st.(blocks) !! a) ↔ is_Some (live st.(allocator) !! a).

(** Nothing but blocks and the allocator differs. *)
Definition same_rest {AS} (st st' : rstate AS) : Prop :=
  st'.(g_tsdata) = st.(g_tsdata) ∧ st'.(queues) = st.(queues) ∧ st'.(freed) = st.(freed).

Lemma chain_mapped bl p l a : chain bl p l → a ∈ l.*1 → is_Some (bl !! a).
Proof.
  revert p. induction l as [|[a' addrs] l IH]; intros p; cbn [chain]; [by intros _ ?%elem_of_nil|].
  intros (-> & _ & blk & next & Hb & _ & Hc) [->|Hin]%elem_of_cons; [by eexists|by eapply IH].
Qed.

Lemma chain_size bl p l : chain bl p l → NoDup l.*1 → (length l ≤ size bl)%nat.
Proof.
  intros Hc Hnd. rewrite <- size_dom, <- (length_fmap fst).
  rewrite <- (size_list_to_set (C := gset Z)) by done. apply subseteq_size.
  intros a Ha%elem_of_list_to_set. apply elem_of_dom. by eapply chain_mapped.
Qed.

Section working_set.
Context `{Build} {AS : Type} `{!Allocator AS}.
Implicit Types st : rstate AS.

Lemma alloc_munmap_ok p st :
  blocks_ok st → is_Some (st.(blocks) !! p) →
  wp (threadscan_alloc_munmap p st) (λ st', blocks_ok st' ∧ same_rest st st' ∧
    st'.(blocks) = delete p st.(blocks)).
Proof.
  intros [Ha Hl] Hp. unfold threadscan_alloc_munmap. apply wp_bind.
  eapply wp_mono; [by apply alloc_munmap_spec, Hl|]. intros a [Ha' Hl']. apply wp_ret.
  split; [|done]. split; [done|]. intros x. cbn. rewrite Hl'.
  destruct (decide (x = p)) as [->|]; [by rewrite !lookup_delete_eq|]. by rewrite !lookup_delete_ne.
Qed.

Lemma alloc_mmap_ok n st :
  blocks_ok st → 0 < n < 2 ^ 63 → n `mod` PAGESIZE = 0 → alloc_avail st.(allocator) n →
  wp (threadscan_alloc_mmap n st) (λ r, blocks_ok r.2 ∧ same_rest st r.2 ∧ 0 < r.1 ∧
    st.(blocks) !! r.1 = None ∧
    r.2.(blocks) = <[r.1 := replicate (Z.to_nat (n / sizeof_size_t)) 0]> st.(blocks)).
Proof.
  intros [Ha Hl] Hn Hp Hav. unfold threadscan_alloc_mmap. apply wp_bind.
  eapply wp_mono; [by apply alloc_mmap_spec|]. intros [p a] (Ha' & Hp0 & Hnone & Hl'). cbn [fst snd] in *.
  apply wp_ret. split; [|split; [done|split; [done|split; [|done]]]].
  - split; [done|]. intros x. cbn. rewrite Hl'.
    destruct (decide (x = p)) as [->|]; [rewrite !lookup_insert_eq; by split; eexists|].
    by rewrite !lookup_insert_ne.
  - cbn [fst]. destruct (blocks st !! p) eqn:E; [|done].
    assert (is_Some (live (allocator st) !! p)) as [x Hx] by (apply Hl; by eexists). congruence.
Qed.

Lemma put_block_ok p b st : blocks_ok st → is_Some (st.(blocks) !! p) → blocks_ok (put_block p b st).
Proof.
  intros [Ha Hl] Hp. split; [done|]. intros x. cbn. destruct (decide (x = p)) as [->|].
  - rewrite lookup_insert_eq, <- Hl. split; [done|by eexists].
  - by rewrite lookup_insert_ne.
Qed.

(** The working buffer is big enough for [limit] pointers. *)
Record buffer_ok st (limit : Z) (b : list Z) : Prop := {
  bo_blocks : blocks_ok st;
  bo_limit : limit = st.(g_tsdata).(max_ptrs) * 2 ∧ 0 <= limit <= 2 ^ 28;
  bo_block : st.(blocks) !! st.(g_tsdata).(buf_addrs) = Some b;
  bo_room : limit <= zlen b;
}.

Lemma add_to_buf_addrs_ok n src off m st limit b :
  buffer_ok st limit b → 0 <= n → 0 <= m → n + m <= limit → 0 <= off → off + m <= zlen src →
  add_to_buf_addrs n src off m st =
    Ret (n + m, put_block st.(g_tsdata).(buf_addrs) (blit b n (slice src off m)) st).
Proof.
  intros [Hbl [-> Hlim] Hb Hroom] Hn Hm Hnm Hoff Hsrc. unfold add_to_buf_addrs, get_block.
  rewrite !cint_in by (unfold INT_MIN, INT_MAX; lia). cbn [mbind outcome_bind].
  replace (n + m >? max_ptrs (g_tsdata st) * 2) with false by lia.
  rewrite Hb. cbn [of_option mbind outcome_bind]. rewrite memcpy_in by lia. done.
Qed.

(** More pointers than fit: the process ends. *)
Lemma add_to_buf_addrs_full n src off m st limit b :
  buffer_ok st limit b → 0 <= n <= limit → 0 <= m <= INT_MAX - limit → limit < n + m →
  add_to_buf_addrs n src off m st = threadscan_fatal.
Proof.
  intros [Hbl [-> Hlim] Hb Hroom] Hn Hm Hnm. unfold add_to_buf_addrs.
  rewrite !cint_in by (unfold INT_MIN, INT_MAX in *; lia). cbn [mbind outcome_bind].
  by replace (n + m >? max_ptrs (g_tsdata st) * 2) with true by lia.
Qed.

(** The pointers of a chain. *)
Definition chain_addrs (l : list (Z * list Z)) : list Z := concat l.*2.

Lemma add_leftovers_ok fuel p l n st limit b :
  buffer_ok st limit b → chain st.(blocks) p l → NoDup l.*1 → st.(g_tsdata).(buf_addrs) ∉ l.*1 →
  (length l ≤ fuel)%nat → 0 <= n → n + zlen (chain_addrs l) <= limit →
  wp (add_leftovers fuel p n st) (λ r,
    r.1 = n + zlen (chain_addrs l) ∧ same_rest st r.2 ∧
    buffer_ok r.2 limit (blit b n (chain_addrs l)) ∧
    ∀ a, a ≠ st.(g_tsdata).(buf_addrs) →
      r.2.(blocks) !! a = if decide (a ∈ l.*1) then None else st.(blocks) !! a).
Proof.
  revert p l n st b. induction fuel as [|fuel IH]; intros p l n st b Hbuf Hc Hnd Hnin Hlen Hn Hroom.
  all: destruct l as [|[a addrs] l]; [simpl in Hc; subst p; simpl; rewrite Z.add_0_r, blit_nil; repeat split; try apply Hbuf; by intros|].
  { simpl in Hlen. lia. }
  pose proof Hc as (-> & Hnz & blk & next & Hblk & Hh & Hc'). cbn [add_leftovers].
  destruct (Z.eqb_spec a 0) as [?|_]; [done|].
  apply not_elem_of_cons in Hnin as [Hna Hnin]. apply NoDup_cons in Hnd as [Hal Hnd]. cbn [fst] in *.
  assert (get_block a st = Ret blk) as -> by (unfold get_block; by rewrite Hblk). cbn [mbind outcome_bind].
  pose proof (zlen_nonneg addrs). pose proof (ho_room _ _ _ Hh) as Hr.
  assert (chain_addrs ((a, addrs) :: l) = addrs ++ chain_addrs l) as Hca by done.
  rewrite Hca in *. rewrite zlen_app in Hroom. pose proof (zlen_nonneg (chain_addrs l)).
  rewrite aget_in by lia. cbn [mbind outcome_bind]. rewrite (ho_length _ _ _ Hh).
  destruct (bo_limit _ _ _ Hbuf) as [_ Hlim].
  rewrite int_of_u64_small by (unfold INT_MAX; lia).
  rewrite (add_to_buf_addrs_ok n blk 2 (zlen addrs) st limit b) by (done || lia). cbn [mbind outcome_bind].
  rewrite (ho_addrs _ _ _ Hh). set (b1 := blit b n addrs).
  set (st1 := put_block (buf_addrs (g_tsdata st)) b1 st).
  assert (zlen b1 = zlen b) as Hb1 by (apply zlen_blit; pose proof (bo_room _ _ _ Hbuf); lia).
  assert (buffer_ok st1 limit b1) as Hbuf1.
  { destruct Hbuf as [Hbl Hlim' Hb Hroom']. split; try done.
    - apply put_block_ok; [done|by eexists].
    - cbn. by rewrite lookup_insert_eq.
    - by rewrite Hb1. }
  assert (get_block a st1 = Ret blk) as -> by (unfold get_block; cbn; by rewrite lookup_insert_ne, Hblk).
  cbn [mbind outcome_bind]. rewrite aget_in by lia. cbn [mbind outcome_bind]. rewrite (ho_next _ _ _ Hh).
  apply wp_bind. eapply wp_mono.
  { apply (alloc_munmap_ok a st1); [apply Hbuf1|]. cbn. rewrite lookup_insert_ne by done. by eexists. }
  intros st2 (Hok2 & (E1 & E2 & E3) & Hbl2). cbn in Hbl2, E1, E2, E3.
  assert (buffer_ok st2 limit b1) as Hbuf2.
  { destruct Hbuf1 as [_ Hlim' Hb Hroom']. split; try done.
    - by rewrite E1.
    - rewrite Hbl2, E1, lookup_delete_ne by done. done. }
  eapply wp_mono.
  { apply (IH next l (n + zlen addrs) st2 b1); try done; try lia.
    - eapply chain_ext; [|exact Hc']. intros a' Ha'. rewrite Hbl2.
      rewrite lookup_delete_ne by (by intros ->). rewrite lookup_insert_ne; [done|]. by intros <-.
    - by rewrite E1.
    - simpl in Hlen. lia. }
  intros [r st3] (-> & (F1 & F2 & F3) & Hbuf3 & Hother). cbn [fst snd] in *.
  split; [rewrite zlen_app; lia|]. split; [split; [congruence|split; congruence]|]. split.
  - unfold b1 in Hbuf3. rewrite blit_app in Hbuf3; [done|done|]. pose proof (bo_room _ _ _ Hbuf). lia.
  - intros x Hx. rewrite Hother by (by rewrite E1). rewrite Hbl2.
    assert (x ∈ ((a, addrs) :: l).*1 ↔ x = a ∨ x ∈ l.*1) as Hiff by apply elem_of_cons.
    destruct (decide (x = a)) as [->|Hxa].
    + rewrite lookup_delete_eq. repeat case_decide; try done. tauto.
    + rewrite lookup_delete_ne, lookup_insert_ne by done. repeat case_decide; try done; tauto.
Qed.

(** All the pointers of some queues, oldest first. *)
Definition queued (qs : list queue_t) : list Z := concat (contents <$> qs).

Definition queues_ok (qs : list queue_t) : Prop :=
  Forall (λ q, queue_wf q ∧ (debug = true → 0 ∉ contents q)) qs.

(** How many of [l] fit from [n] on. *)
Definition fits (limit n : Z) (l : list Z) : Z := Z.min (limit - n) (zlen l).

Lemma take_app_min (k : Z) (l1 l2 : list Z) :
  0 <= k → take (Z.to_nat (Z.min k (zlen l1))) l1 ++ take (Z.to_nat (k - Z.min k (zlen l1))) l2 =
    take (Z.to_nat k) (l1 ++ l2).
Proof.
  intros Hk. rewrite take_app. f_equal.
  - destruct (Z.leb_spec k (zlen l1)); [by rewrite Z.min_l|].
    rewrite Z.min_r by lia. rewrite !take_ge; [done|unfold zlen in *; lia..].
  - f_equal. unfold zlen. lia.
Qed.

Lemma drop_app_min (k : Z) (l1 l2 : list Z) :
  0 <= k → drop (Z.to_nat (Z.min k (zlen l1))) l1 ++ drop (Z.to_nat (k - Z.min k (zlen l1))) l2 =
    drop (Z.to_nat k) (l1 ++ l2).
Proof.
  intros Hk. rewrite drop_app. f_equal.
  - destruct (Z.leb_spec k (zlen l1)); [by rewrite Z.min_l|].
    rewrite Z.min_r by lia. rewrite !drop_ge; [done|unfold zlen in *; lia..].
  - f_equal. unfold zlen. lia.
Qed.

Lemma fits_take limit n l : 0 <= n <= limit →
  take (Z.to_nat (fits limit n l)) l = take (Z.to_nat (limit - n)) l ∧
  drop (Z.to_nat (fits limit n l)) l = drop (Z.to_nat (limit - n)) l ∧
  zlen (take (Z.to_nat (limit - n)) l) = fits limit n l.
Proof.
  intros Hn. unfold fits. rewrite zlen_take. split; [|split; [|unfold zlen; lia]].
  - destruct (Z.leb_spec (limit - n) (zlen l)); [by rewrite Z.min_l|].
    rewrite Z.min_r by lia. rewrite !take_ge; [done|unfold zlen in *; lia..].
  - destruct (Z.leb_spec (limit - n) (zlen l)); [by rewrite Z.min_l|].
    rewrite Z.min_r by lia. rewrite !drop_ge; [done|unfold zlen in *; lia..].
Qed.

Lemma pop_queues_ok todo done_ n st limit b :
  buffer_ok st limit b → queues_ok todo → 0 <= n <= limit →
  wp (pop_queues todo done_ n st) (λ r,
    r.1 = n + fits limit n (queued todo) ∧
    r.2.(g_tsdata) = st.(g_tsdata) ∧ r.2.(freed) = st.(freed) ∧
    buffer_ok r.2 limit (blit b n (take (Z.to_nat (limit - n)) (queued todo))) ∧
    (∀ a, a ≠ st.(g_tsdata).(buf_addrs) → r.2.(blocks) !! a = st.(blocks) !! a) ∧
    ∃ todo', r.2.(queues) = done_ ++ todo' ∧ queues_ok todo' ∧
      (capacity <$> todo') = (capacity <$> todo) ∧ queued todo' = drop (Z.to_nat (limit - n)) (queued todo)).
Proof.
  revert done_ n st b. induction todo as [|q todo IH]; intros done_ n st b Hbuf Hq Hn; cbn [pop_queues].
  - apply wp_ret. cbn [fst snd]. unfold fits, queued. cbn. change (zlen []) with 0.
    split; [lia|]. split; [done|]. split; [done|]. rewrite take_nil, blit_nil.
    split; [split; apply Hbuf|]. split; [done|]. exists []. rewrite app_nil_r, drop_nil. by repeat constructor.
  - apply Forall_cons in Hq as [[Hwf Hnz] Hq].
    pose proof (bo_limit _ _ _ Hbuf) as [El Hlim].
    rewrite !cint_in by (unfold INT_MIN, INT_MAX; lia). cbn [mbind outcome_bind].
    rewrite <- El. rewrite cint_in by (unfold INT_MIN, INT_MAX; lia). cbn [mbind outcome_bind].
    unfold get_block. rewrite (bo_block _ _ _ Hbuf). cbn [of_option mbind outcome_bind].
    rewrite u64_small by lia. pose proof (bo_room _ _ _ Hbuf) as Hroom.
    destruct (pop_bulk_run q b n (limit - n) Hwf) as (q' & Hrun & Hwf' & Hcap & _ & Hc');
      [unfold INT_MAX; lia|lia|lia|done|].
    rewrite Hrun. cbn [mbind outcome_bind fst snd].
    set (k := (limit - n) `min` zlen (contents q)) in *.
    pose proof (zlen_nonneg (contents q)). assert (0 <= k <= limit - n) as Hk by lia.
    rewrite cint_in by (unfold INT_MIN, INT_MAX; lia). cbn [mbind outcome_bind].
    set (t := take (Z.to_nat k) (contents q)). assert (zlen t = k) as Ht by (unfold t; rewrite zlen_take; lia).
    set (st1 := put_block _ _ st).
    assert (buffer_ok st1 limit (blit b n t)) as Hbuf1.
    { destruct Hbuf as [Hbl Hl Hb Hr]. split; try done.
      - apply put_block_ok; [done|by eexists].
      - cbn. by rewrite lookup_insert_eq.
      - by rewrite zlen_blit by lia. }
    eapply wp_mono; [apply (IH (done_ ++ [q']) (n + k) st1 _ Hbuf1 Hq); lia|].
    intros [r st2] (-> & Hg & Hf & Hbuf2 & Hother & todo' & Hqs & Hok & Hcaps & Hqd). cbn [fst snd] in *.
    assert (queued (q :: todo) = contents q ++ queued todo) as Hqc by done. rewrite Hqc.
    split.
    { unfold fits. rewrite zlen_app. pose proof (zlen_nonneg (queued todo)). lia. }
    split; [done|]. split; [done|]. split.
    + replace (limit - (n + k)) with (limit - n - k) in Hbuf2 by lia. rewrite <- Ht in Hbuf2 at 1.
      pose proof (zlen_nonneg (queued todo)).
      rewrite blit_app in Hbuf2; [|lia|rewrite zlen_take; lia].
      unfold t in Hbuf2. subst k. by rewrite take_app_min in Hbuf2 by lia.
    + split; [intros a Ha; rewrite Hother by done; cbn; by rewrite lookup_insert_ne|].
      exists (q' :: todo'). rewrite Hqs, <- app_assoc. split; [done|]. split; [|split].
      * constructor; [|done]. split; [done|]. intros Hd. rewrite Hc'. intros Hin. apply (Hnz Hd).
        eapply elem_of_submseteq; [exact Hin|]. apply submseteq_drop.
      * cbn. by rewrite Hcaps, Hcap.
      * change (queued (q' :: todo')) with (contents q' ++ queued todo'). rewrite Hqd, Hc'.
        replace (limit - (n + k)) with (limit - n - k) by lia. subst k. by rewrite drop_app_min by lia.
Qed.

(** What is gathered: the left-over pointers, then queued ones as they fit. *)
Definition gathered st (limit : Z) (l : list (Z * list Z)) : list Z :=
  chain_addrs l ++ take (Z.to_nat (limit - zlen (chain_addrs l))) (queued st.(queues)).

(** The state before pointers are gathered. *)
Record gather_pre st (limit : Z) (b : list Z) (l : list (Z * list Z)) : Prop := {
  gp_buffer : buffer_ok st limit b;
  gp_chain : chain st.(blocks) st.(g_tsdata).(storage) l;
  gp_nodup : NoDup l.*1;
  gp_buf : st.(g_tsdata).(buf_addrs) ∉ l.*1;
  gp_queues : queues_ok st.(queues);
  gp_fits : zlen (chain_addrs l) <= limit;
}.

Lemma generate_working_pointers_list_ok st limit b l :
  gather_pre st limit b l →
  wp (generate_working_pointers_list st) (λ r,
    r.1 = zlen (gathered st limit l) ∧
    r.2.(g_tsdata) = set_storage 0 st.(g_tsdata) ∧ r.2.(freed) = st.(freed) ∧
    buffer_ok r.2 limit (blit b 0 (gathered st limit l)) ∧
    queues_ok r.2.(queues) ∧ (capacity <$> r.2.(queues)) = (capacity <$> st.(queues)) ∧
    queued r.2.(queues) = drop (Z.to_nat (limit - zlen (chain_addrs l))) (queued st.(queues)) ∧
    (∀ a, a ≠ st.(g_tsdata).(buf_addrs) →
       r.2.(blocks) !! a = if decide (a ∈ l.*1) then None else st.(blocks) !! a)).
Proof.
  intros [Hbuf Hc Hnd Hnin Hq Hfit]. unfold generate_working_pointers_list. cbv zeta.
  set (st0 := set_tsdata (set_storage 0 (g_tsdata st)) st).
  assert (buffer_ok st0 limit b) as Hbuf0 by (destruct Hbuf; by split).
  pose proof (zlen_nonneg (chain_addrs l)) as Hz.
  apply wp_bind. eapply wp_mono.
  { apply (add_leftovers_ok _ _ l 0 st0 limit b); try done; by eapply chain_size. }
  intros [n st1]. rewrite Z.add_0_l. cbn [fst snd]. intros (-> & (E1 & E2 & E3) & Hbuf1 & Hother).
  cbn in E1, E2, E3. rewrite E2.
  eapply wp_mono; [apply (pop_queues_ok _ [] _ _ limit _ Hbuf1 Hq); lia|].
  intros [n st2]. cbn [fst snd]. intros (-> & F1 & F2 & Hbuf2 & Hother2 & todo' & F3 & Hq' & Hcaps & Hqd).
  destruct (fits_take limit (zlen (chain_addrs l)) (queued (queues st)) ltac:(lia)) as (_ & _ & Hlen).
  split; [|split; [congruence|split; [congruence|split; [|split; [|split; [|split]]]]]].
  - unfold gathered. by rewrite zlen_app, Hlen.
  - pose proof (bo_room _ _ _ Hbuf).
    replace (zlen (chain_addrs l)) with (0 + zlen (chain_addrs l)) in Hbuf2 at 2 by lia.
    rewrite blit_app in Hbuf2; [done|lia|]. rewrite Z.add_0_l, Hlen. unfold fits. lia.
  - by rewrite F3.
  - by rewrite F3.
  - by rewrite F3.
  - intros a Ha. rewrite Hother2 by (by rewrite E1). by apply Hother.
Qed.

(** C16. [generate_working_pointers_list] gathers every left-over pointer and
    the oldest pointers of the thread queues, as many as fit, in the working
    buffer, in order; what does not fit stays queued, the left-over blocks
    are released, and nothing is freed or lost. *)
Theorem generate_working_pointers_list_spec st limit b l :
  gather_pre st limit b l →
  wp (generate_working_pointers_list st) (λ r,
    r.1 = zlen (gathered st limit l) ∧
    r.2.(g_tsdata) = set_storage 0 st.(g_tsdata) ∧ r.2.(freed) = st.(freed) ∧
    buffer_ok r.2 limit (blit b 0 (gathered st limit l)) ∧
    queues_ok r.2.(queues) ∧ (capacity <$> r.2.(queues)) = (capacity <$> st.(queues)) ∧
    queued r.2.(queues) = drop (Z.to_nat (limit - zlen (chain_addrs l))) (queued st.(queues)) ∧
    (∀ a, a ≠ st.(g_tsdata).(buf_addrs) →
       r.2.(blocks) !! a = if decide (a ∈ l.*1) then None else st.(blocks) !! a)).
Proof. apply generate_working_pointers_list_ok. Qed.
End working_set.

(** ** A concrete state

    Two left-over pointers, one queued pointer, a buffer of twelve words. *)
Definition ex_buffers : rstate bump_state := {|
  g_tsdata := {| max_ptrs := 4; n_addrs := 0; buf_addrs := 0x10000; n_scan_map := 0; buf_scan_map := 0x10040;
                 working_buffer_sz := 96; scan_map_offset := 64; storage := 0x20000 |};
  blocks := {[0x10000 := replicate 12 0; 0x20000 := [0; 2; 0x1000; 0x2000]]};
  allocator := {| bump_next := 0x30000; bump_live := {[0x10000 := 96; 0x20000 := 32]} |};
  queues := [mk_queue [0x3000; 0; 0; 0] 4 1 4];
  freed := [];
|}.

Lemma ex_bump_ok : bump_ok {| bump_next := 0x30000; bump_live := {[0x10000 := 96; 0x20000 := 32]} |}.
Proof.
  split; cbn.
  - done.
  - intros a l [[<- <-]|[_ [<- <-]%lookup_singleton_Some]]%lookup_insert_Some; lia.
  - intros a la b lb [[<- <-]|[_ [<- <-]%lookup_singleton_Some]]%lookup_insert_Some
      [[<- <-]|[_ [<- <-]%lookup_singleton_Some]]%lookup_insert_Some; lia.
Qed.

Lemma ex_queue_wf : queue_wf (mk_queue [0x3000; 0; 0; 0] 4 1 4).
Proof. split; [by exists 2|]. split; [done|]. cbn. lia. Qed.

Lemma ex_gather_pre : gather_pre (H := debug_build) ex_buffers 8 (replicate 12 0) [(0x20000, [0x1000; 0x2000])].
Proof.
  split.
  - split; [|split; [done|lia]|done|done]. split; [exact ex_bump_ok|].
    intros a. cbn. by rewrite !lookup_insert_is_Some, !lookup_singleton_is_Some.
  - split; [done|]. split; [done|]. exists [0; 2; 0x1000; 0x2000], 0. by repeat split.
  - repeat constructor. apply not_elem_of_nil.
  - by intros ?%list_elem_of_singleton.
  - repeat constructor; [apply ex_queue_wf..|]. intros _. vm_compute. by intros ?%list_elem_of_singleton.
  - done.
Qed.

Lemma generate_working_pointers_list_spec_witness :
  wp (generate_working_pointers_list (H := debug_build) ex_buffers) (λ r,
    r.1 = 3 ∧ r.2.(blocks) !! 0x10000 = Some ([0x1000; 0x2000; 0x3000] ++ replicate 9 0) ∧
    r.2.(blocks) !! 0x20000 = None).
Proof.
  eapply wp_mono; [exact (generate_working_pointers_list_spec (H := debug_build) _ _ _ _ ex_gather_pre)|].
  intros [n st] (H1 & H2 & _ & H3 & _ & _ & _ & H4). cbn [fst snd] in *. split; [exact H1|]. split.
  - destruct H3 as [_ _ H3 _]. rewrite H2 in H3. exact H3.
  - exact (H4 0x20000 ltac:(done)).
Defined.

Lemma handle_unreferenced_ptrs_spec_witness :
  let st := put_block 0x10000 [0x1001; 0x2000; 0x3001; 0x4000; 0; 0] ex_buffers in
  handle_unreferenced_ptrs 0x10000 4 st =
    Ret (2, add_freed [0x2000; 0x4000] (put_block 0x10000 [0; 0x3000; 0; 0; 0; 0] st)).
Proof.
  intros st.
  exact (handle_unreferenced_ptrs_spec 0x10000 4 st
           [0x1001; 0x2000; 0x3001; 0x4000; 0; 0] eq_refl ltac:(vm_compute; split; discriminate)).
Defined.
