(* ===== verification/Reclaim.v ===== *)
(** * threadscan.c: reclamation

    [threadscan_reclaim] puts the parts together: gather the pointers
    (Buffers.v), sort them (Sort.v), build the scan map (Search.v), let all
    threads scan (Round.v), then free what nobody refers to and store the
    rest.  Also here: the sizes computed at start-up.  [disposed] says what
    becomes of the addresses. *)

From S2P Require Import Prelude Conc Ghost Mem Env Queue Sort ThreadList Thread Search Round AllocIface Buffers.

(** ** The sizes of the buffers *)
Section sizes.
Context `{Build}.

(** [signal_failed]: signal() returned SIG_ERR. *)
Definition register_signal_handlers (signal_failed : bool) (g_threadscan_ptrs_per_thread : Z)
    (g : threadscan_data_t) : outcome threadscan_data_t :=
  _ ← (if signal_failed then threadscan_fatal else Ret tt);
  max ← cint (g_threadscan_ptrs_per_thread * MAX_THREAD_COUNT);
  twice ← cint (2 * max);
  let scan_map_sz := int_of_u64 (u64 (u64 (twice * sizeof_size_t) * sizeof_size_t) / PAGESIZE) in
  let scan_map_sz :=
    if negb (u64 scan_map_sz `mod` PAGESIZE =? 0) then
      let sz := int_of_u64 (u64 (u64 scan_map_sz + PAGESIZE)) in
      int_of_u64 (Z.land (u64 sz) (u64 (Z.lnot (PAGESIZE - 1))))
    else scan_map_sz in
  let sz := u64 (u64 (max * sizeof_size_t) * 2) in
  Ret {| max_ptrs := max; n_addrs := g.(n_addrs); buf_addrs := g.(buf_addrs);
         n_scan_map := g.(n_scan_map); buf_scan_map := g.(buf_scan_map);
         working_buffer_sz := u64 (sz + u64 scan_map_sz); scan_map_offset := sz; storage := 0 |}.
End sizes.

(** Room for twice [max_ptrs] addresses and for one scan map entry per page
    of them, in whole pages. *)
Record sizes_ok (g : threadscan_data_t) : Prop := {
  so_max : 0 < g.(max_ptrs) <= 2 ^ 23;
  so_offset : g.(scan_map_offset) = sizeof_size_t * (2 * g.(max_ptrs));
  so_pages : g.(working_buffer_sz) `mod` PAGESIZE = 0 ∧ g.(scan_map_offset) `mod` PAGESIZE = 0;
  so_map : g.(scan_map_offset) + sizeof_size_t * ((2 * g.(max_ptrs) + per_page - 1) / per_page)
             <= g.(working_buffer_sz) < 2 ^ 30;
}.

Lemma register_sizes `{Build} ptrs_per_thread g :
  1 <= ptrs_per_thread <= MAX_PTRS_PER_THREAD →
  wp (register_signal_handlers false ptrs_per_thread g) (λ g',
    sizes_ok g' ∧ g'.(max_ptrs) = ptrs_per_thread * MAX_THREAD_COUNT ∧ g'.(storage) = 0).
Proof.
  unfold MAX_PTRS_PER_THREAD, register_signal_handlers, MAX_THREAD_COUNT. intros Hp.
  cbn [mbind outcome_bind]. rewrite !cint_in by (unfold INT_MIN, INT_MAX; lia). cbn [mbind outcome_bind].
  rewrite cint_in by (unfold INT_MIN, INT_MAX; lia). cbn [mbind outcome_bind].
  unfold PAGESIZE, sizeof_size_t. cbv zeta.
  assert (u64 (u64 (2 * (ptrs_per_thread * 256) * 8) * 8) / 0x1000 = 8 * ptrs_per_thread) as ->.
  { rewrite (u64_small (2 * (ptrs_per_thread * 256) * 8)) by lia.
    rewrite u64_small by lia. replace (2 * (ptrs_per_thread * 256) * 8 * 8) with (8 * ptrs_per_thread * 0x1000) by lia.
    by rewrite Z.div_mul. }
  rewrite (int_of_u64_small (8 * ptrs_per_thread)) by (unfold INT_MAX; lia).
  rewrite (u64_small (8 * ptrs_per_thread)) by lia. rewrite (u64_small (ptrs_per_thread * 256 * 8)) by lia.
  rewrite (u64_small (ptrs_per_thread * 256 * 8 * 2)) by lia.
  set (sz := if negb ((8 * ptrs_per_thread) `mod` 0x1000 =? 0) then _ else _).
  assert (8 * ptrs_per_thread <= sz < 8 * ptrs_per_thread + 0x1000 ∧ sz `mod` 0x1000 = 0) as [Hsz Hmod].
  { unfold sz. destruct (Z.eqb_spec ((8 * ptrs_per_thread) `mod` 0x1000) 0) as [E|Hne]; cbn [negb]; [lia|].
    rewrite (u64_small (8 * ptrs_per_thread + 0x1000)) by lia.
    rewrite (int_of_u64_small (8 * ptrs_per_thread + 0x1000)) by (unfold INT_MAX; lia).
    rewrite (u64_small (8 * ptrs_per_thread + 0x1000)) by lia.
    assert (Z.land (8 * ptrs_per_thread + 0x1000) (u64 (Z.lnot (0x1000 - 1))) =
      Z.land (8 * ptrs_per_thread + 0x1000) (Z.lnot (Z.ones 12))) as ->.
    { z_bits. rewrite !Z.land_spec. destruct (Z.leb_spec 64 n).
      - rewrite (testbit_small _ 64) by lia. done.
      - f_equal. unfold u64. rewrite <- Z.land_ones, Z.land_spec, Z.ones_spec_low by lia. by rewrite andb_true_r. }
    rewrite land_lnot_ones by lia. change (2 ^ 12) with 0x1000.
    rewrite int_of_u64_small by (unfold INT_MAX; Z.div_mod_to_equations; lia).
    Z.div_mod_to_equations. lia. }
  clearbody sz. rewrite (u64_small sz) by lia. rewrite u64_small by lia.
  cbn. split; [|done]. split; cbn [max_ptrs scan_map_offset working_buffer_sz]; unfold sizeof_size_t; try lia.
  - unfold PAGESIZE. split; Z.div_mod_to_equations; lia.
  - rewrite per_page_eq. Z.div_mod_to_equations. lia.
Qed.

(** C17. Whatever number of pointers per thread env.c allows, the sizes are
    computed without overflow and fit: the working buffer holds two buffers
    of [max_ptrs] addresses for every one of the 256 threads' queues and a
    scan map entry per page, and both parts are whole pages. *)
Theorem register_signal_handlers_sizes `{Build} ptrs_per_thread g :
  1 <= ptrs_per_thread <= MAX_PTRS_PER_THREAD →
  wp (register_signal_handlers false ptrs_per_thread g) (λ g',
    sizes_ok g' ∧ g'.(max_ptrs) = ptrs_per_thread * MAX_THREAD_COUNT ∧ g'.(storage) = 0).
Proof. apply register_sizes. Qed.

Lemma register_signal_handlers_sizes_witness :
  wp (register_signal_handlers (H := debug_build) false 1024 example_data) (λ g',
    sizes_ok g' ∧ g'.(max_ptrs) = 1024 * MAX_THREAD_COUNT ∧ g'.(storage) = 0).
Proof.
  exact (register_signal_handlers_sizes (H := debug_build) 1024 example_data ltac:(unfold MAX_PTRS_PER_THREAD; lia)).
Defined.

(** ** What the marks say about the addresses *)

(** [x] is the word found in the buffer for the address [s] after the scan;
    [P0] holds of the addresses that were referenced when the scan began, [P1]
    of those that still are, [U] of those that are there once.  Of an address
    that is there more than once, some copies may be left unmarked. *)
Definition after_scan (P0 P1 U : Z → Prop) (s x : Z) : Prop :=
  (0 ≤ s ∧ s `mod` 4 = 0) ∧ (P0 s ∧ x = s + 1 ∨ (U s → ¬ P1 s) ∧ x = s).

Definition survivors (l : list Z) : list Z := PTR_MASK <$> List.filter is_marked l.

(** What becomes of the addresses [S]: [fl] are freed and [stored] are kept
    for the next round. *)
Record disposed (P0 P1 : Z → Prop) (S fl stored : list Z) : Prop := {
  ds_unreferenced a : ¬ P0 a → occ fl a = occ S a;
  ds_referenced a : P1 a → occ S a = 1%nat → a ∉ fl;
  ds_freed a : (occ fl a ≤ occ S a)%nat;
  ds_once a : a ≠ 0 → (occ fl a + occ stored a ≤ occ S a)%nat;
  ds_stored a : a ≠ 0 → a ∈ stored → P0 a ∧ ∃ b, b ∈ fl ∧ b ≤ a;
  ds_kept a b : (occ fl a < occ S a)%nat → b ∈ fl → b < a → a ∈ stored;
  ds_zero a : P1 a → occ S a = 1%nat → (∀ b, b ∈ S → a ≤ b) → 0 ∈ stored;
}.

Lemma disposed_perm P0 P1 S S' fl stored stored' :
  S ≡ₚ S' → stored ≡ₚ stored' → disposed P0 P1 S fl stored → disposed P0 P1 S' fl stored'.
Proof.
  intros HS Hst [H1 H2 H3 H4 H5 H6 H7]. split; intros a; rewrite <- ?HS, <- ?Hst; auto.
  - intros b. rewrite <- HS, <- Hst. apply H6.
  - intros HP Ho Hle. apply (H7 a HP Ho). intros b Hb. apply Hle. by rewrite <- HS.
Qed.

Lemma disposed_impl P0 P1 P1' S fl stored :
  (∀ a, P1' a → P1 a) → disposed P0 P1 S fl stored → disposed P0 P1' S fl stored.
Proof. intros Hi [H1 H2 H3 H4 H5 H6 H7]. split; auto. intros a HP. by apply H7, Hi. Qed.

(** When no address is there twice, those without references at the start
    are freed, those with references at the end are not, and of the rest
    those with a freed address before them are kept. *)
Lemma disposed_exact P0 P1 S fl stored :
  disposed P0 P1 S fl stored → NoDup S → 0 ∉ S →
  NoDup fl ∧ (∀ a, a ∈ fl → a ∈ S ∧ ¬ P1 a) ∧ (∀ a, a ∈ S → ¬ P0 a → a ∈ fl) ∧
  (∀ a, a ≠ 0 → a ∈ stored ↔ a ∈ S ∧ a ∉ fl ∧ ∃ b, b ∈ fl ∧ b < a).
Proof.
  intros Hd Hnd H0. pose proof (proj1 (occ_NoDup S) Hnd) as Hle.
  assert (∀ a, a ∈ S → occ S a = 1%nat) as H1.
  { intros a Ha%occ_pos. specialize (Hle a). lia. }
  split; [|split; [|split]].
  - apply occ_NoDup. intros a. pose proof (ds_freed _ _ _ _ _ Hd a). specialize (Hle a). lia.
  - intros a Hin. apply occ_pos in Hin as Hp. pose proof (ds_freed _ _ _ _ _ Hd a).
    assert (a ∈ S) as Ha by (apply occ_pos; lia). split; [done|]. intros HP.
    by apply (ds_referenced _ _ _ _ _ Hd a HP (H1 a Ha)).
  - intros a Ha HP. apply occ_pos. rewrite (ds_unreferenced _ _ _ _ _ Hd a HP). by apply occ_pos.
  - intros a Ha. split.
    + intros Hin. destruct (ds_stored _ _ _ _ _ Hd a Ha Hin) as [_ (b & Hb & Hlt)].
      apply occ_pos in Hin. pose proof (ds_once _ _ _ _ _ Hd a Ha). specialize (Hle a).
      assert (a ∉ fl) as Hn by (intros Hf%occ_pos; lia).
      split; [apply occ_pos; lia|]. split; [done|]. exists b. split; [done|].
      destruct (decide (b = a)) as [->|]; [done|lia].
    + intros (HaS & Hn & b & Hb & Hlt). eapply (ds_kept _ _ _ _ _ Hd a b); [|done|done].
      rewrite (proj2 (occ_0 fl a) Hn), (H1 a HaS). lia.
Qed.

Section marks.
Context (P0 P1 U : Z → Prop).

Lemma after_scan_cases s x : after_scan P0 P1 U s x →
  (P0 s ∧ is_marked x = true ∧ PTR_MASK x = s) ∨ ((U s → ¬ P1 s) ∧ is_marked x = false ∧ x = s).
Proof.
  rewrite is_marked_odd, PTR_MASK_mod.
  intros [[Hs Hm] [[HP ->]|[HP ->]]]; [left|right]; (split; [done|]); Z.div_mod_to_equations; lia.
Qed.

Lemma kept_cons x l : kept (x :: l) = if is_marked x then 0 :: kept l else survivors l.
Proof. unfold kept. cbn [leading List.filter]. by destruct (is_marked x). Qed.

Lemma survivors_cons x l : survivors (x :: l) = if is_marked x then PTR_MASK x :: survivors l else survivors l.
Proof. unfold survivors. cbn [List.filter]. by destruct (is_marked x). Qed.

Lemma not_kept_cons x l : not_kept (x :: l) = if is_marked x then not_kept l else x :: not_kept l.
Proof. unfold not_kept. cbn [List.filter]. by destruct (is_marked x). Qed.

Lemma occ_after S L a : Forall2 (after_scan P0 P1 U) S L → (occ (not_kept L) a + occ (survivors L) a)%nat = occ S a.
Proof.
  induction 1 as [|s x S L Hx _ IH]; [done|]. rewrite survivors_cons, not_kept_cons.
  destruct (after_scan_cases s x Hx) as [(_ & -> & ->)|(_ & -> & ->)]; rewrite !occ_cons; lia.
Qed.

Lemma not_kept_after S L a : Forall2 (after_scan P0 P1 U) S L → a ∈ not_kept L → U a → ¬ P1 a.
Proof.
  induction 1 as [|s x S L Hx _ IH]; [by intros ?%elem_of_nil|]. rewrite not_kept_cons.
  destruct (after_scan_cases s x Hx) as [(_ & -> & _)|(HP & -> & ->)]; [done|].
  by intros [->|?]%elem_of_cons; auto.
Qed.

Lemma survivors_after S L a : Forall2 (after_scan P0 P1 U) S L → a ∈ survivors L → P0 a.
Proof.
  induction 1 as [|s x S L Hx _ IH]; [by intros ?%elem_of_nil|]. rewrite survivors_cons.
  destruct (after_scan_cases s x Hx) as [(HP & -> & ->)|(_ & -> & _)]; [|done].
  by intros [->|?]%elem_of_cons; auto.
Qed.

Lemma occ_kept L a : a ≠ 0 → (occ (kept L) a ≤ occ (survivors L) a)%nat.
Proof.
  intros Ha. unfold kept. rewrite occ_app, occ_replicate by done.
  rewrite (occ_take_drop (leading L) (survivors L)). unfold survivors. lia.
Qed.

(** In increasing order, an address that is kept has a freed one before
    it, and so is every marked address with a freed one before it. *)
Lemma kept_before S L a :
  Forall2 (after_scan P0 P1 U) S L → StronglySorted Z.le S → a ≠ 0 → a ∈ kept L →
  ∃ b, b ∈ not_kept L ∧ b ≤ a.
Proof.
  intros HL HS Ha. revert HS. induction HL as [|s x S L Hx HL IH]; intros HS.
  { by intros ?%elem_of_nil. }
  apply StronglySorted_cons in HS as [Hle HS]. rewrite Forall_forall in Hle. rewrite kept_cons, not_kept_cons.
  destruct (after_scan_cases s x Hx) as [(_ & -> & _)|(HP & -> & ->)].
  - intros [->|Hin]%elem_of_cons; [done|]. by apply IH.
  - intros Hin. exists s. split; [by left|]. apply Hle, occ_pos.
    rewrite <- (occ_after S L a HL). apply occ_pos in Hin. lia.
Qed.

Lemma not_kept_elem S L a : Forall2 (after_scan P0 P1 U) S L → a ∈ not_kept L → a ∈ S.
Proof. intros HL Hin. apply occ_pos. rewrite <- (occ_after S L a HL). apply occ_pos in Hin. lia. Qed.

Lemma kept_after S L a b :
  Forall2 (after_scan P0 P1 U) S L → StronglySorted Z.le S → a ∈ survivors L → b ∈ not_kept L → b < a → a ∈ kept L.
Proof.
  intros HL HS Ha Hb Hlt. revert HS Ha Hb. induction HL as [|s x S L Hx HL IH]; intros HS; [by intros ?%elem_of_nil|].
  apply StronglySorted_cons in HS as [Hle HS]. rewrite Forall_forall in Hle.
  rewrite kept_cons, survivors_cons, not_kept_cons.
  destruct (after_scan_cases s x Hx) as [(_ & -> & ->)|(_ & -> & ->)]; [|done].
  intros Ha Hb. right. apply IH; [done| |done]. apply elem_of_cons in Ha as [->|]; [|done].
  specialize (Hle b (not_kept_elem _ _ _ HL Hb)). lia.
Qed.

(** When the smallest address is still referenced, a zero is kept in its
    place. *)
Lemma kept_zero S L a :
  Forall2 (after_scan P0 P1 U) S L → StronglySorted Z.le S → P1 a → U a → a ∈ S →
  (∀ b, b ∈ S → a ≤ b) → 0 ∈ kept L.
Proof.
  intros HL HS HP Ha Hin Hmin.
  destruct HL as [|s x S L Hx _]; [by apply elem_of_nil in Hin|].
  apply StronglySorted_cons in HS as [Hle _]. rewrite Forall_forall in Hle.
  assert (s = a) as ->.
  { pose proof (Hmin s ltac:(by left)). apply elem_of_cons in Hin as [->|Hin]; [done|]. specialize (Hle a Hin). lia. }
  rewrite kept_cons. assert (is_marked x = true) as ->; [|by left].
  destruct Hx as [[H0 Hm] [[_ ->]|[Hn _]]]; [|by destruct (Hn Ha)].
  rewrite is_marked_odd. apply Z.eqb_eq. Z.div_mod_to_equations; lia.
Qed.
End marks.

(** The array after the scan decides what becomes of the addresses. *)
Lemma after_scan_disposed P0 P1 S L :
  Forall2 (after_scan P0 P1 (λ a, occ S a = 1%nat)) S L → StronglySorted Z.le S →
  disposed P0 P1 S (not_kept L) (kept L).
Proof.
  intros HL HS. split; intros a.
  - intros HP. rewrite <- (occ_after _ _ _ S L a HL). assert (occ (survivors L) a = 0%nat); [|lia].
    apply occ_0. by intros ?%(survivors_after _ _ _ S L a HL).
  - intros HP HU Hin. by apply (not_kept_after _ _ _ S L a HL Hin HU).
  - rewrite <- (occ_after _ _ _ S L a HL). lia.
  - intros Ha. rewrite <- (occ_after _ _ _ S L a HL). pose proof (occ_kept L a Ha). lia.
  - intros Ha Hin. split.
    + apply (survivors_after _ _ _ S L a HL), occ_pos. apply occ_pos in Hin. pose proof (occ_kept L a Ha). lia.
    + by apply (kept_before _ _ _ S L a HL).
  - intros b Hocc Hb Hlt. apply (kept_after _ _ _ S L a b HL HS); [|done|done]. apply occ_pos.
    rewrite <- (occ_after _ _ _ S L a HL) in Hocc. lia.
  - intros HP HU Hmin. apply (kept_zero _ _ _ S L a HL HS HP HU); [apply occ_pos; lia|done].
Qed.

(** ** The code around the round *)
Section code.
Context `{Build} {AS : Type} `{!Allocator AS}.
Implicit Types st : rstate AS.

(** Up to the call of [do_reclaim].  When the scan map is made, the working
    buffer becomes part of the memory [m] all threads see. *)
Definition reclaim_prepare st (m : mem) : outcome (rstate AS * mem) :=
  '(working_memory, st) ← threadscan_alloc_mmap st.(g_tsdata).(working_buffer_sz) st;
  let st := assign_working_space working_memory st in
  '(n, st) ← generate_working_pointers_list st;
  let st := set_tsdata (set_n_addrs n st.(g_tsdata)) st in
  let buf := st.(g_tsdata).(buf_addrs) in
  b ← get_block buf st;
  b ← threadscan_util_sort b n;
  let st := put_block buf b st in
  '(k, m) ← run (generate_scan_map st.(g_tsdata)) (store_block buf b m);
  Ret (set_tsdata (set_n_scan_map k st.(g_tsdata)) st, m).

(** From the return of [do_reclaim] on. *)
Definition reclaim_finish (v : globals_t) (addrs count : Z) st (m : mem) : outcome (rstate AS * mem) :=
  '(_, m) ← run (threadscan_thread_cleanup_release v) m;
  '(_, m) ← run (assert_monotonicity addrs count) m;
  b ← get_block addrs st;
  let st := put_block addrs (load_block addrs (zlen b) m) st in
  '(remaining, st) ← handle_unreferenced_ptrs addrs count st;
  b ← get_block addrs st;
  b ← threadscan_util_randomize b remaining;
  st ← store_remaining_addrs addrs remaining (put_block addrs b st);
  Ret (st, m).

(** [threadscan_reclaim] by thread [me] while the threads [ts] run [user]: the
    result is reached in some interleaving of the round. *)
Inductive threadscan_reclaim (v : globals_t) (pthread_kill : Z → Z → prog Z Z) (sigpending : Z → Z)
    (user : thread → prog Z (prog Z unit)) (me : thread) (ts : list thread) st (m : mem) : rstate AS → mem → Prop :=
| reclaim_returns st2 m2 ps m3 r st4 m4 :
    reclaim_prepare st m = Ret (st2, m2) →
    rtc pstep (round_pool v st2.(g_tsdata) pthread_kill sigpending user me ts, m2) (ps, m3) →
    ps !! 0%nat = Some (Stop (Ret r)) →
    reclaim_finish v r.1 r.2 st2 m3 = Ret (st4, m4) →
    threadscan_reclaim v pthread_kill sigpending user me ts st m st4 m4.
End code.

(** ** The threads before the round *)
Section environment.
Context (v : globals_t) (sigpending : Z → Z) (heap : Z → Prop) (me : thread) (ts : list thread).

(** The list holds the metadata of the threads, and of idle ones. *)
Definition env_idle (m : mem) (td : Z) : Prop :=
  td ≠ 0 ∧ m !! td_is_active td = Some 0 ∧
  ∀ a, a ∈ [td_next td; td_is_active td] → ¬ vol v sigpending heap ts m a ∧ a ≠ v.(global_timestamp) ∧ is_Some (m !! a).
Definition env_list (m : mem) (tds : list Z) : Prop :=
  ∃ idle, tds ≡ₚ (th_td <$> threads me ts) ++ idle ∧ ∀ td, td ∈ idle → env_idle m td.

(** The memory of the threads, before the working buffer is part of it. *)
Record round_env (m : mem) : Prop := {
  re_list : ∃ tds, thread_list v.(thread_list_) m tds ∧ env_list m tds;
  re_ready : ∀ t, t ∈ threads me ts → t.(th_td) ≠ 0 ∧
    ∀ a, a ∈ [td_next t.(th_td); td_self t.(th_td); td_is_active t.(th_td); td_user_stack_low t.(th_td);
              td_user_stack_high t.(th_td); td_local_block_low t.(th_td); td_local_block_high t.(th_td)] →
      ¬ vol v sigpending heap ts m a ∧ a ≠ v.(global_timestamp) ∧ is_Some (m !! a);
  re_mapped : ∀ t a, t ∈ threads me ts → scans (scanner_of m t) a →
    is_Some (m !! a) ∧ ¬ ctl v sigpending ts a ∧ ¬ heap a ∧ a ≠ v.(global_timestamp);
  re_private : ∀ t t' a, t ∈ threads me ts → t' ∈ threads me ts → t ≠ t' →
    scans (scanner_of m t) a → ¬ scans (scanner_of m t') a;
  re_heap : ∀ a, heap a → is_Some (m !! a) ∧ ¬ ctl v sigpending ts a ∧ a ≠ v.(global_timestamp);
  re_head : tl_head v.(thread_list_) ≠ v.(global_timestamp) ∧
    ¬ vol v sigpending heap ts m (tl_head v.(thread_list_)) ∧ is_Some (m !! tl_head v.(thread_list_));
  re_global : ¬ ctl v sigpending ts v.(global_timestamp) ∧ is_Some (m !! v.(global_timestamp));
  re_active : ∀ t, t ∈ ts → word m (td_is_active t.(th_td)) ≠ 0 ∧
    word m (td_self t.(th_td)) = t.(th_self) ∧ t.(th_rsp) ≠ 0;
  re_counter : is_Some (m !! v.(self_stacks_searched));
  re_pending : ∀ t, t ∈ ts → m !! pending_of sigpending t = Some 0;
  re_stamps : ∀ t, t ∈ ts → is_Some (m !! td_local_timestamp t.(th_td)) ∧
    ∃ n, m !! td_times_without_update t.(th_td) = Some n ∧ INT_MIN ≤ n ≤ INT_MAX;
  re_distinct : v.(self_stacks_searched) ≠ tl_lock v.(thread_list_) ∧
    ∀ t, t ∈ ts →
      (∀ a, a ∈ [pending_of sigpending t; td_local_timestamp t.(th_td); td_times_without_update t.(th_td)] →
         a ≠ v.(self_stacks_searched) ∧ a ≠ tl_lock v.(thread_list_)) ∧
      (∀ t', t' ∈ ts → pending_of sigpending t ≠ td_local_timestamp t'.(th_td) ∧
         pending_of sigpending t ≠ td_times_without_update t'.(th_td) ∧
         td_local_timestamp t.(th_td) ≠ td_times_without_update t'.(th_td));
}.

(** The lock's time stamp is not one of the words user code writes. *)
Lemma global_not_vol m : round_env m → ¬ vol v sigpending heap ts m v.(global_timestamp).
Proof.
  intros He [Hc|[Hh|(t & Ht & Hs)]].
  - by apply (re_global _ He).
  - by apply (re_heap _ He) in Hh as (_ & _ & ?).
  - by apply (re_mapped _ He) in Hs as (_ & _ & _ & ?); [|right].
Qed.

(** User code that keeps the discipline does so too when other words have
    changed before it starts. *)
Lemma users_ok_rely retired user m m' :
  (∀ t, t ∈ ts → scanner_of m' t = scanner_of m t ∧ user_rely (scanner_of m t) m m') →
  users_ok heap retired user ts m → users_ok heap retired user ts m'.
Proof.
  intros Hr Hu t Ht. destruct (Hr t Ht) as [-> Hrely]. eapply rg_stable; [apply user_rely_trans|exact Hrely|by apply Hu].
Qed.

Context (m m2 : mem) (Henv : round_env m) (Hsub : m ⊆ m2).

Lemma mapped_sub a : is_Some (m !! a) → m2 !! a = m !! a.
Proof. intros [x Hx]. rewrite Hx. by eapply lookup_weaken. Qed.

Lemma is_Some_sub a : is_Some (m !! a) → is_Some (m2 !! a).
Proof. intros Ha. by rewrite mapped_sub. Qed.

Lemma word_sub a : is_Some (m !! a) → word m2 a = word m a.
Proof. intros Ha. unfold word. by rewrite mapped_sub. Qed.

Lemma ctl_mapped a : ctl v sigpending ts a → is_Some (m !! a).
Proof.
  intros [->|[->|(t & Ht & [->|[->| ->]])]].
  - apply (re_counter _ Henv).
  - destruct (re_list _ Henv) as (tds & Hl & _). rewrite (tl_free _ _ _ Hl). by eexists.
  - rewrite (re_pending _ Henv t Ht). by eexists.
  - apply (re_stamps _ Henv t Ht).
  - destruct (re_stamps _ Henv t Ht) as [_ (n & -> & _)]. by eexists.
Qed.

Lemma tlist_sub p tds : tlist m p tds → tlist m2 p tds.
Proof.
  revert p. induction tds as [|td tds IH]; intros p; [done|]. cbn [tlist].
  intros (-> & Hnz & next & Hn & Hl). split; [done|]. split; [done|]. exists next.
  split; [by eapply lookup_weaken|by apply IH].
Qed.

Lemma scanner_of_sub t : t ∈ threads me ts → scanner_of m2 t = scanner_of m t.
Proof.
  intros Ht. destruct (re_ready _ Henv t Ht) as [_ Hr]. unfold scanner_of.
  rewrite !word_sub; [done|apply Hr; rewrite !elem_of_cons; tauto..].
Qed.

Lemma scanners_sub : scanner_of m2 <$> threads me ts = scanner_of m <$> threads me ts.
Proof. apply list_fmap_ext. intros i t Ht%list_elem_of_lookup_2. by apply scanner_of_sub. Qed.

(** The addresses referenced are the same in both memories. *)
Lemma holding_sub p : holding m2 (threads me ts) m2 p ↔ holding m (threads me ts) m p.
Proof.
  rewrite !holding_refers. apply exist_proper. intros t. apply and_iff_under. intros Ht.
  rewrite scanner_of_sub by done. unfold refers.
  split; intros (a & w & Ha & Hw & Hp); exists a, w; (split; [done|]); (split; [|done]).
  - rewrite <- Hw. symmetry. by apply mapped_sub, (re_mapped _ Henv t).
  - rewrite <- Hw. by apply mapped_sub, (re_mapped _ Henv t).
Qed.

Lemma vol_sub a : vol v sigpending heap ts m2 a ↔ vol v sigpending heap ts m a.
Proof.
  unfold vol. do 2 apply or_iff_compat_l. apply exist_proper. intros t. apply and_iff_under. intros Ht.
  by rewrite scanner_of_sub by by right.
Qed.

Lemma vol_mapped a : vol v sigpending heap ts m a → is_Some (m !! a).
Proof.
  intros [Hc|[Hh|(t & Ht & Hs)]]; [by apply ctl_mapped|by apply (re_heap _ Henv)|].
  by apply (re_mapped _ Henv t); [right|].
Qed.

(** The working buffer is set up in memory: addresses [S] in increasing
    order, and their scan map, in words that no thread used before.  The debug
    build insists on distinct addresses. *)
Context `{Build}.
Record working_ready (g : threadscan_data_t) (S : list Z) : Prop := {
  wk_n : g.(n_addrs) = zlen S ∧ 0 < zlen S ≤ 2 ^ 28;
  wk_nsm : g.(n_scan_map) = scan_map_pages g;
  wk_sorted : ∀ i j, 0 ≤ i → i ≤ j → j < zlen S → znth S i ≤ znth S j;
  wk_aligned : ∀ a, a ∈ S → 0 ≤ a ∧ a `mod` 4 = 0;
  wk_debug : debug = true → NoDup S ∧ 0 ∉ S;
  wk_start : scan_start g (znth S) m2;
  wk_sep : ∀ i k, 0 ≤ i < g.(n_addrs) → 0 ≤ k < g.(n_scan_map) →
           elt g.(buf_addrs) i ≠ elt g.(buf_scan_map) k;
  wk_new : (∀ i, 0 ≤ i < g.(n_addrs) → m !! elt g.(buf_addrs) i = None) ∧
           (∀ k, 0 ≤ k < g.(n_scan_map) → m !! elt g.(buf_scan_map) k = None);
}.

Context (g : threadscan_data_t) (S : list Z) (Hwork : working_ready g S).

Lemma mapped_not_buf a i : is_Some (m !! a) → 0 ≤ i < g.(n_addrs) → a ≠ elt g.(buf_addrs) i.
Proof. intros [x Hx] Hi ->. destruct (wk_new _ _ Hwork) as [Hn _]. by rewrite (Hn i Hi) in Hx. Qed.

Lemma working_setup : scan_setup g (znth S) (vol v sigpending heap ts m2).
Proof.
  destruct (wk_n _ _ Hwork) as [En Hn]. destruct (wk_new _ _ Hwork) as [Hb Hm]. split.
  - by rewrite En.
  - apply (wk_nsm _ _ Hwork).
  - apply (wk_sep _ _ Hwork).
  - split; intros i Hi [x Hx]%vol_sub%vol_mapped; [rewrite Hb in Hx by done|rewrite Hm in Hx by done]; done.
  - intros i j Hi Hij Hj. apply (wk_sorted _ _ Hwork); lia.
  - intros i Hi. apply (wk_aligned _ _ Hwork), znth_elem_of. lia.
  - intros Hd. destruct (wk_debug _ _ Hwork Hd) as [Hnd H0]. split.
    + assert (znth S 0 ∈ S) as Hin by (apply znth_elem_of; lia). pose proof (wk_aligned _ _ Hwork _ Hin).
      assert (znth S 0 ≠ 0) by (by intros E; rewrite E in Hin). lia.
    + intros i j Hi Hij Hj. apply NoDup_znth_lt; try done; [apply (wk_sorted _ _ Hwork)|lia].
Qed.

Lemma fixed_mapped a : ¬ vol v sigpending heap ts m a → is_Some (m !! a) → fixed v g sigpending heap ts m2 a.
Proof. intros Hc Ha. split; [by rewrite vol_sub|]. intros i Hi. by apply mapped_not_buf. Qed.

Lemma working_round_start : round_start v g sigpending (znth S) heap me ts m2.
Proof.
  split.
  - apply working_setup.
  - apply (wk_start _ _ Hwork).
  - intros t Ht r k Hr Hk. rewrite scanner_of_sub in Hr by done.
    destruct (re_mapped _ Henv t (elt r.(low) k) Ht) as (Hm & Hc & Hh & _); [by exists r, k|].
    split; [by apply is_Some_sub|]. split; [tauto|]. intros i Hi. by apply mapped_not_buf.
  - intros t t' a Ht Ht'. rewrite !scanner_of_sub by done. by apply (re_private _ Henv).
  - intros a Ha. by apply (re_heap _ Henv).
  - destruct (re_list _ Henv) as (tds & [Hf (p & Hp & Hl) Hnd Hsep Hlen] & idle & Hperm & Hidle). exists tds. split; [split; try done|].
    + by eapply lookup_weaken.
    + exists p. split; [by eapply lookup_weaken|by apply tlist_sub].
    + exists idle. split; [done|]. intros td Htd. destruct (Hidle td Htd) as (Hnz & Hact & Hr). split; [done|].
      destruct (Hr (td_next td)) as (? & _ & ?); [by left|]. destruct (Hr (td_is_active td)) as (? & _ & ?); [by right; left|].
      split; [by apply fixed_mapped|]. split; [by apply is_Some_sub|]. split; [by apply fixed_mapped|by eapply lookup_weaken].
  - intros t Ht. destruct (re_ready _ Henv t Ht) as [Hnz Hr]. split; [done|]. intros a Ha.
    destruct (Hr a Ha) as (? & _ & ?). split; [by apply fixed_mapped|by apply is_Some_sub].
  - apply fixed_mapped; apply (re_head _ Henv).
  - split; [apply fixed_mapped; [by apply global_not_vol|]|apply is_Some_sub]; apply (re_global _ Henv).
  - intros t Ht. destruct (re_ready _ Henv t) as [_ Hr]; [by right|].
    rewrite !word_sub; [by apply (re_active _ Henv)|apply Hr; rewrite !elem_of_cons; tauto..].
  - apply is_Some_sub, (re_counter _ Henv).
  - intros t Ht. eapply lookup_weaken; [by apply (re_pending _ Henv)|done].
  - intros t Ht. destruct (re_stamps _ Henv t Ht) as [Hs (n & Hn & Hr)]. split; [by apply is_Some_sub|].
    exists n. split; [by eapply lookup_weaken|done].
  - apply (re_distinct _ Henv).
Qed.
End environment.

(** ** The preparation *)
Section prepare.
Context `{Build} {AS : Type} `{!Allocator AS}.
Implicit Types st : rstate AS.

(** The state in which a thread may reclaim; [l] are the left-over blocks. *)
Record reclaim_state st (l : list (Z * list Z)) : Prop := {
  rc_sizes : sizes_ok st.(g_tsdata);
  rc_blocks : blocks_ok st;
  rc_chain : chain st.(blocks) st.(g_tsdata).(storage) l;
  rc_nodup : NoDup l.*1;
  rc_queues : queues_ok st.(queues);
}.

(** How many addresses the working buffer holds. *)
Definition limit_of st : Z := st.(g_tsdata).(max_ptrs) * 2.

(** The addresses of this round: what is left over and what is queued fits,
    with room to store everything again; the addresses are those of heap
    blocks, or zeros a former round has left; a debug build needs them to be
    distinct; memory from mmap is new to the threads, and there is enough
    for the working buffer. *)
Record reclaim_round st (l : list (Z * list Z)) (m : mem) : Prop := {
  rr_left : zlen (chain_addrs l) <= limit_of st;
  rr_room : 0 < zlen (gathered st (limit_of st) l) <= limit_of st - 2;
  rr_aligned : ∀ a, a ∈ gathered st (limit_of st) l → 0 ≤ a ∧ a `mod` 4 = 0;
  rr_debug : debug = true → NoDup (gathered st (limit_of st) l) ∧ 0 ∉ gathered st (limit_of st) l;
  rr_fresh : ∀ p a', alloc_mmap st.(g_tsdata).(working_buffer_sz) st.(allocator) = Ret (p, a') →
    ∀ i, 0 ≤ i < st.(g_tsdata).(working_buffer_sz) / sizeof_size_t → m !! elt p i = None;
  rr_avail : alloc_avail st.(allocator) st.(g_tsdata).(working_buffer_sz);
}.

(** The same without what the debug build asks of the addresses. *)
Record round_gathers st (l : list (Z * list Z)) (m : mem) : Prop := {
  ga_left : zlen (chain_addrs l) <= limit_of st;
  ga_room : 0 < zlen (gathered st (limit_of st) l) <= limit_of st - 2;
  ga_aligned : ∀ a, a ∈ gathered st (limit_of st) l → 0 ≤ a ∧ a `mod` 4 = 0;
  ga_fresh : ∀ p a', alloc_mmap st.(g_tsdata).(working_buffer_sz) st.(allocator) = Ret (p, a') →
    ∀ i, 0 ≤ i < st.(g_tsdata).(working_buffer_sz) / sizeof_size_t → m !! elt p i = None;
  ga_avail : alloc_avail st.(allocator) st.(g_tsdata).(working_buffer_sz);
}.

Lemma reclaim_round_gathers st l m : reclaim_round st l m → round_gathers st l m.
Proof. by intros [H1 H2 H3 H4 H5 H6]. Qed.

(** The sizes survive what the functions change. *)
Lemma sizes_ok_ext g g' :
  sizes_ok g → g'.(max_ptrs) = g.(max_ptrs) → g'.(scan_map_offset) = g.(scan_map_offset) →
  g'.(working_buffer_sz) = g.(working_buffer_sz) → sizes_ok g'.
Proof. intros [H1 H2 H3 H4] E1 E2 E3. split; rewrite ?E1, ?E2, ?E3; done. Qed.

(** The number of words of the working buffer. *)
Lemma sizes_words g : sizes_ok g →
  let words := g.(working_buffer_sz) / sizeof_size_t in
  0 <= (2 * g.(max_ptrs) + per_page - 1) / per_page ∧
  2 * g.(max_ptrs) + (2 * g.(max_ptrs) + per_page - 1) / per_page <= words < 2 ^ 27.
Proof.
  intros [H1 H2 [H3 _] H4]. cbv zeta. rewrite H2, per_page_eq in *. unfold sizeof_size_t, PAGESIZE in *.
  Z.div_mod_to_equations. lia.
Qed.

(** A sorted working buffer becomes visible: the scan map is made. *)
Lemma scan_map_ok g S b m :
  sizes_ok g → g.(buf_scan_map) = g.(buf_addrs) + g.(scan_map_offset) →
  zlen b = g.(working_buffer_sz) / sizeof_size_t → g.(n_addrs) = zlen S →
  S = take (Z.to_nat g.(n_addrs)) b → 0 < zlen S <= 2 * g.(max_ptrs) →
  (∀ i j, 0 ≤ i → i ≤ j → j < zlen S → znth S i ≤ znth S j) →
  (∀ a, a ∈ S → 0 ≤ a ∧ a `mod` 4 = 0) →
  (∀ i, 0 ≤ i < zlen b → m !! elt g.(buf_addrs) i = None) →
  wp (run (generate_scan_map g) (store_block g.(buf_addrs) b m)) (λ r,
    m ⊆ r.2 ∧ (∀ i, 0 ≤ i < zlen S → r.2 !! elt g.(buf_addrs) i = Some (znth S i)) ∧
    ((debug = true → NoDup S ∧ 0 ∉ S) → working_ready m r.2 (set_n_scan_map r.1 g) S)).
Proof.
  intros Hsz Hbm Hb Hn HS Hlen Hsort Hal Hnew. pose proof (sizes_words g Hsz) as Hw. cbv zeta in Hw.
  pose proof (so_max _ Hsz) as Hmax. rewrite <- Hb in Hw.
  assert (∀ k, elt g.(buf_scan_map) k = elt g.(buf_addrs) (2 * g.(max_ptrs) + k)) as Hmapaddr.
  { intros k. rewrite Hbm, (so_offset _ Hsz). unfold elt. lia. }
  assert (0 <= scan_map_pages g <= (2 * g.(max_ptrs) + per_page - 1) / per_page) as Hpages.
  { unfold scan_map_pages. rewrite per_page_eq. Z.div_mod_to_equations. lia. }
  set (m0 := store_block g.(buf_addrs) b m).
  assert (∀ i, 0 ≤ i < g.(n_addrs) → m0 !! elt g.(buf_addrs) i = Some (znth S i)) as Hbuf.
  { intros i Hi. unfold m0. rewrite store_block_in by lia. rewrite HS, znth_take by lia. done. }
  assert (∀ i k, 0 ≤ i < g.(n_addrs) → 0 ≤ k < scan_map_pages g →
    elt g.(buf_addrs) i ≠ elt g.(buf_scan_map) k) as Hsep.
  { intros i k Hi Hk E. rewrite Hmapaddr in E. apply elt_inj in E. lia. }
  eapply wp_mono.
  { apply (generate_scan_map_run g (znth S) m0); [lia|done| |done].
    intros k Hk. rewrite Hmapaddr. unfold m0. rewrite store_block_in by lia. by eexists. }
  intros [n m2] [-> [Hset Hrest]]. cbn [fst snd] in *. split.
  - apply map_subseteq_spec. intros a x Hx. rewrite Hrest.
    + unfold m0. rewrite store_block_out; [done|]. intros i Hi ->. by rewrite Hnew in Hx.
    + intros k Hk ->. rewrite Hmapaddr, Hnew in Hx by lia. done.
  - split; [intros i Hi; rewrite Hrest; [apply Hbuf; lia|intros k Hk; apply Hsep; lia]|].
    intros Hdb. split; cbn [set_n_scan_map n_addrs n_scan_map buf_addrs buf_scan_map]; try done.
    + split; [done|]. lia.
    + split; cbn; [|done]. intros i Hi. rewrite Hrest; [by apply Hbuf|]. intros k Hk. by apply Hsep.
    + split; [intros i Hi; apply Hnew; lia|]. intros k Hk. rewrite Hmapaddr. apply Hnew. lia.
Qed.

(** What [reclaim_prepare] establishes. *)
Record prepared st (l : list (Z * list Z)) (m : mem) (st2 : rstate AS) (m2 : mem) (S : list Z) : Prop := {
  pp_addrs : S ≡ₚ gathered st (limit_of st) l;
  pp_mem : m ⊆ m2;
  pp_working : working_ready m m2 st2.(g_tsdata) S;
  pp_state : reclaim_state st2 [];
  pp_buffer : ∃ b, st2.(blocks) !! st2.(g_tsdata).(buf_addrs) = Some b ∧ limit_of st <= zlen b <= 2 ^ 27;
  pp_limit : limit_of st2 = limit_of st;
  pp_live : st2.(g_tsdata).(buf_addrs) ≠ 0;
  pp_freed : st2.(freed) = st.(freed);
  pp_caps : (capacity <$> st2.(queues)) = (capacity <$> st.(queues));
  pp_queued : queued st2.(queues) = drop (Z.to_nat (limit_of st - zlen (chain_addrs l))) (queued st.(queues));
}.

(** The working buffer is there, and everything that will be gathered. *)
Lemma working_memory_ok st l m :
  reclaim_state st l → round_gathers st l m →
  let sz := working_buffer_sz (g_tsdata st) in
  wp (threadscan_alloc_mmap sz st) (λ r,
    same_rest st r.2 ∧ 0 < r.1 ∧ (∀ i, 0 ≤ i < sz / sizeof_size_t → m !! elt r.1 i = None) ∧
    gather_pre (assign_working_space r.1 r.2) (limit_of st) (replicate (Z.to_nat (sz / sizeof_size_t)) 0) l).
Proof.
  intros [Hsz Hbl Hc Hnd Hq] [Hleft Hroom Hal Hfresh Hav] sz.
  pose proof (sizes_words _ Hsz) as Hw. cbv zeta in Hw. fold sz in Hw. pose proof (so_max _ Hsz) as Hmax.
  pose proof (so_map _ Hsz) as Hmap. rewrite (so_offset _ Hsz), per_page_eq in Hmap. unfold sizeof_size_t in Hmap.
  assert (0 < sz < 2 ^ 63) as Hsz63 by (unfold sz; Z.div_mod_to_equations; lia).
  pose proof (alloc_mmap_ok sz st Hbl Hsz63 (proj1 (so_pages _ Hsz)) Hav) as ([p st1] & Hrun & Hok & Hsame & Hp & Hnone & Hblocks)%wp_iff.
  assert (∃ a', alloc_mmap sz st.(allocator) = Ret (p, a')) as [a' Halloc].
  { unfold threadscan_alloc_mmap in Hrun. apply outcome_bind_inv in Hrun as ([p' a''] & Ha & [= <- _]). by eexists. }
  rewrite Hrun. apply wp_ret. cbn [fst snd] in *. pose proof Hsame as (E1 & E2 & E3).
  split; [done|]. split; [done|]. split; [by apply (Hfresh p a')|].
  assert (p ∉ l.*1) as Hpl.
  { intros Hin. pose proof (chain_mapped _ _ _ _ Hc Hin) as [x Hx]. congruence. }
  split; cbn; rewrite ?E1, ?E2; try done.
  - split; [done|..]; cbn; rewrite ?E1.
    + split; [done|]. unfold limit_of. lia.
    + by rewrite Hblocks, lookup_insert_eq.
    + rewrite zlen_replicate. unfold limit_of. lia.
  - eapply chain_ext; [|exact Hc]. intros a Ha. rewrite Hblocks, lookup_insert_ne; [done|]. by intros ->.
Qed.

(** The prefix of the sorted buffer. *)
Lemma sorted_prefix b0 G :
  0 <= zlen G <= zlen b0 → zlen b0 < 2 ^ 27 → take (Z.to_nat (zlen G)) b0 = G →
  wp (threadscan_util_sort b0 (zlen G)) (λ b, zlen b = zlen b0 ∧ take (Z.to_nat (zlen G)) b ≡ₚ G ∧
    ∀ i j, 0 ≤ i → i ≤ j → j < zlen G →
      znth (take (Z.to_nat (zlen G)) b) i ≤ znth (take (Z.to_nat (zlen G)) b) j).
Proof.
  intros HG Hb Ht. eapply wp_mono; [apply (util_sort_ok b0 (zlen G) HG); lia|]. intros b [Hperm Hsorted].
  split; [apply (rp_len _ _ _ _ Hperm)|]. destruct (range_perm_prefix _ _ _ Hperm HG) as [HS _]. rewrite Ht in HS.
  split; [done|]. intros i j Hi Hij Hj. rewrite !znth_take by lia. apply Hsorted; lia.
Qed.

(** The working buffer after the preparation, whatever the addresses are. *)
Record buffer_sorted st (l : list (Z * list Z)) (m : mem) (st2 : rstate AS) (m2 : mem) (S : list Z) : Prop := {
  bs_addrs : S ≡ₚ gathered st (limit_of st) l;
  bs_sorted : ∀ i j, 0 ≤ i → i ≤ j → j < zlen S → znth S i ≤ znth S j;
  bs_n : st2.(g_tsdata).(n_addrs) = zlen S;
  bs_words : ∀ i, 0 ≤ i < zlen S → m2 !! elt st2.(g_tsdata).(buf_addrs) i = Some (znth S i);
  bs_new : ∀ i, 0 ≤ i < zlen S → m !! elt st2.(g_tsdata).(buf_addrs) i = None;
  bs_mem : m ⊆ m2;
}.

Lemma prepare_sorts st l m :
  reclaim_state st l → round_gathers st l m →
  wp (reclaim_prepare st m) (λ r, ∃ S, buffer_sorted st l m r.1 r.2 S ∧
    ((debug = true → NoDup (gathered st (limit_of st) l) ∧ 0 ∉ gathered st (limit_of st) l) → prepared st l m r.1 r.2 S)).
Proof.
  intros Hst Hround. unfold reclaim_prepare.
  pose proof (working_memory_ok _ _ _ Hst Hround) as ([p st1] & -> & (E1 & E2 & E3) & Hp & Hfresh & Hpre)%wp_iff.
  cbn [fst snd mbind outcome_bind] in *. destruct Hst as [Hsz _ _ _ _]. destruct Hround as [Hleft Hroom Hal _ _].
  pose proof (sizes_words _ Hsz) as Hw. cbv zeta in Hw. pose proof (so_max _ Hsz) as Hmax.
  set (sz := working_buffer_sz (g_tsdata st)) in *. set (limit := limit_of st) in *.
  set (st1' := assign_working_space p st1) in *.
  assert (gathered st1' limit l = gathered st limit l) as Hg by (unfold gathered; cbn; by rewrite E2).
  apply wp_bind. eapply wp_mono; [exact (generate_working_pointers_list_ok st1' limit _ l Hpre)|].
  rewrite Hg. intros [n st2]. cbn [fst snd]. intros (-> & F1 & F2 & Hbuf & Hq' & Hcaps & Hqd & Hother).
  cbn in F1, F2, Hqd, Hcaps. rewrite E1 in F1. rewrite E2 in Hqd, Hcaps. rewrite E3 in F2.
  set (G := gathered st limit l) in *. set (b0 := blit _ 0 G) in *.
  assert (zlen b0 = sz / sizeof_size_t) as Hb0.
  { unfold b0. rewrite zlen_blit; rewrite ?zlen_replicate; unfold limit, limit_of in *; lia. }
  assert (take (Z.to_nat (zlen G)) b0 = G) as Htake.
  { unfold b0, blit. simpl. apply take_app_length'. unfold zlen. lia. }
  cbn [set_tsdata g_tsdata]. unfold get_block. cbn [set_tsdata blocks set_n_addrs buf_addrs].
  rewrite (bo_block _ _ _ Hbuf). cbn [of_option mbind outcome_bind].
  pose proof (sorted_prefix b0 G ltac:(unfold limit, limit_of in *; lia) ltac:(unfold sz in *; lia) Htake) as (b & -> & Hblen & HS & Hsorted)%wp_iff.
  cbn [mbind outcome_bind]. set (S := take (Z.to_nat (zlen G)) b) in *. set (g1 := set_n_addrs (zlen G) (g_tsdata st2)).
  assert (zlen S = zlen G) as HSlen by (unfold zlen at 1; by rewrite (Permutation_length HS)).
  assert (buf_addrs g1 = p) as Hbufp by (unfold g1; rewrite F1; done).
  assert (sizes_ok g1) as Hsz1 by (apply (sizes_ok_ext _ _ Hsz); unfold g1; rewrite F1; cbn; by rewrite ?E1).
  apply wp_bind. eapply wp_mono.
  { apply (scan_map_ok g1 S b m); rewrite ?HSlen; try done; try (unfold g1; rewrite F1; cbn; rewrite ?E1; unfold limit, limit_of in *; fold sz; done || lia).
    - intros a. rewrite HS. apply Hal.
    - rewrite Hbufp. intros i Hi. apply Hfresh. lia. }
  intros [k m2] (Hsub & Hwords & Hready). cbn [fst snd] in *. apply wp_ret. exists S. split.
  { split; cbn [fst snd]; try done.
    - by rewrite HSlen.
    - intros i Hi. cbn. cbn in Hbufp. rewrite Hbufp. apply Hfresh. unfold limit, limit_of in *. fold sz. lia. }
  intros Hdb. assert (debug = true → NoDup S ∧ 0 ∉ S) as HdbS by (by rewrite HS).
  specialize (Hready HdbS). split; cbn [fst snd]; try done.
  - split; cbn; try done.
    + apply (sizes_ok_ext _ _ Hsz1); done.
    + apply put_block_ok; [apply Hbuf|]. exists b0. exact (bo_block _ _ _ Hbuf).
    + by rewrite F1.
    + constructor.
  - exists b. cbn. split; [apply lookup_insert_eq|]. unfold limit, limit_of in *. lia.
  - cbn. unfold limit_of. cbn. rewrite F1. cbn. rewrite ?E1. done.
  - cbn. fold g1. cbn in Hbufp. rewrite Hbufp. lia.
Qed.

Lemma reclaim_prepare_ok st l m :
  reclaim_state st l → reclaim_round st l m →
  wp (reclaim_prepare st m) (λ r, ∃ S, prepared st l m r.1 r.2 S).
Proof.
  intros Hst Hround. eapply wp_mono; [apply (prepare_sorts st l m Hst), reclaim_round_gathers, Hround|].
  intros [st2 m2] (S & _ & Hp). exists S. apply Hp, (rr_debug _ _ _ Hround).
Qed.
End prepare.

(** ** After the round *)
Section finish.
Context `{Build} {AS : Type} `{!Allocator AS}.
Implicit Types st : rstate AS.

Lemma get_block_ok p b st : st.(blocks) !! p = Some b → get_block p st = Ret b.
Proof. unfold get_block. by intros ->. Qed.

(** In a debug build the array must be strictly increasing. *)
Lemma assert_monotonicity_run a n (x : Z → Z) (m : mem) :
  (debug = true → (∀ i, 0 ≤ i < n → m !! elt a i = Some (x i) ∧ 0 < x i) ∧ ∀ i, 0 < i < n → x (i - 1) < x i) →
  run (assert_monotonicity a n) m = Ret (tt, m).
Proof.
  intros Hdb.
  assert (wp (run (assert_monotonicity a n) m) (λ r, r.2 = m)) as ([[] m'] & E & Hm)%wp_iff; [|by cbn in Hm; subst].
  apply (rg_run eq _ (λ _ m', m' = m)). unfold assert_monotonicity. destruct debug; [|by apply rg_ret].
  destruct (Hdb eq_refl) as [Hx Hs].
  apply rg_bind; [exact _|].
  apply rg_pfor_range with (I := λ i last m', m' = m ∧ (i = 0 ∧ last = 0 ∨ 0 < i ∧ last = x (i - 1))); try exact _.
  - by intros i last m1 m2 ? <-.
  - split; [done|by left].
  - intros i last m1 Hi [-> Hlast]. destruct (Hx i Hi) as [Hl Hpos].
    apply rg_bind_read. intros m2 <-. exists (x i). split; [done|].
    assert (last < x i) by (destruct Hlast as [[-> ->]|[? ->]]; [done|apply Hs; lia]).
    replace (x i <=? last) with false by lia.
    apply rg_rd; [exact _|]. intros m2 <-. simpl. rewrite Hl. simpl. intros m2 <-. split; [done|]. right.
    split; [lia|]. f_equal. lia.
  - intros s m1 [-> _]. by apply rg_ret.
Qed.

(** [fl]: the addresses freed; [P0], [P1]: those referenced when the scan
    began and after it. *)
Record reclaimed st (S : list Z) (P0 P1 : Z → Prop) st' (l' : list (Z * list Z)) (fl : list Z) : Prop := {
  rd_state : reclaim_state st' l';
  rd_freed : st'.(freed) = st.(freed) ++ fl;
  rd_disposed : disposed P0 P1 S fl (chain_addrs l');
  rd_queued : st'.(queues) = st.(queues);
}.

(** What the scan left in the buffer at [buf]. *)
Record scanned (P0 P1 : Z → Prop) (S : list Z) (buf : Z) (m : mem) : Prop := {
  sn_sorted : ∀ i j, 0 ≤ i → i ≤ j → j < zlen S → znth S i ≤ znth S j;
  sn_debug : debug = true → NoDup S ∧ 0 ∉ S;
  sn_words : ∀ i, 0 ≤ i < zlen S →
    ∃ x, m !! elt buf i = Some x ∧ after_scan P0 P1 (λ a, occ S a = 1%nat) (znth S i) x;
}.

(** The array of the addresses after the scan. *)
Lemma load_after_scan P0 P1 S (m : mem) buf n :
  scanned P0 P1 S buf m → zlen S <= n →
  Forall2 (after_scan P0 P1 (λ a, occ S a = 1%nat)) S (take (Z.to_nat (zlen S)) (load_block buf n m)).
Proof.
  intros [_ _ Hscan] Hn. pose proof (zlen_nonneg S). set (L := take _ _).
  assert (zlen L = zlen S) as HL by (unfold L; rewrite zlen_take, zlen_load_block by lia; lia).
  apply Forall2_same_length_lookup_2; [unfold zlen in HL; lia|]. intros i s x Hs Hx.
  pose proof (lookup_lt_Some _ _ _ Hs) as Hi.
  apply lookup_znth in Hs, Hx. unfold L in Hx. rewrite znth_take in Hx by (unfold zlen; lia).
  rewrite znth_load_block in Hx by (unfold zlen in *; lia).
  destruct (Hscan (Z.of_nat i)) as (y & Hy & Hya); [unfold zlen; lia|].
  unfold word in Hx. rewrite Hy in Hx. cbn in Hx. by subst.
Qed.

(** The marked array passes [assert_monotonicity]. *)
Lemma assert_after_scan P0 P1 S (m : mem) buf :
  scanned P0 P1 S buf m → run (assert_monotonicity buf (zlen S)) m = Ret (tt, m).
Proof.
  intros [Hsort Hdb Hscan]. apply (assert_monotonicity_run _ _ (λ i, word m (elt buf i))). intros Hd.
  destruct (Hdb Hd) as [Hnd H0]. pose proof (NoDup_znth_lt S Hnd Hsort) as Hlt.
  split; intros i Hi; unfold word.
  - assert (znth S i ≠ 0) by (intros E; apply H0; rewrite <- E; by apply znth_elem_of).
    destruct (Hscan i Hi) as (x & -> & [[??] Hx]). cbn. split; [done|]. destruct Hx as [[_ ->]|[_ ->]]; lia.
  - destruct (Hscan (i - 1)) as (x & -> & [[??] Hx]); [lia|]. destruct (Hscan i) as (y & -> & [[??] Hy]); [lia|].
    cbn. assert (znth S (i - 1) < znth S i) by (apply Hlt; lia).
    destruct Hx as [[_ ->]|[_ ->]], Hy as [[_ ->]|[_ ->]]; Z.div_mod_to_equations; lia.
Qed.

(** What is kept becomes the only block of left-over pointers. *)
Lemma store_kept_ok buf K B st :
  reclaim_state st [] → st.(blocks) !! buf = Some B → buf ≠ 0 → take (Z.to_nat (zlen K)) B ≡ₚ K →
  zlen K + 2 <= limit_of st <= zlen B →
  wp (store_remaining_addrs buf (zlen K) st) (λ st', ∃ l',
    reclaim_state st' l' ∧ st'.(freed) = st.(freed) ∧ st'.(queues) = st.(queues) ∧ chain_addrs l' ≡ₚ K).
Proof.
  intros [Hsz Hbl Hc Hnd Hq] HB Hbuf HK Hroom. cbn in Hc. unfold limit_of in Hroom.
  pose proof (zlen_nonneg K). pose proof (so_max _ Hsz). destruct (decide (zlen K = 0)) as [HK0|HK0].
  - (* nothing is left *)
    assert (K = []) as -> by (by apply length_zero_iff_nil; unfold zlen in HK0; lia).
    unfold store_remaining_addrs. cbn.
    eapply wp_mono; [apply (alloc_munmap_ok buf st Hbl); by eexists|].
    intros st4 (Hbl4 & (F1 & F2 & F3) & _). exists []. split; [|done].
    split; rewrite ?F1, ?F2; done.
  - destruct (store_remaining_ok buf (zlen K) st B) as (b' & stored & -> & Hh & Hst & _);
      [done|lia|lia|unfold INT_MAX; lia|].
    assert (blocks_ok (put_block buf b' st)) as Hbl4 by (apply put_block_ok; [done|by eexists]).
    apply wp_ret. exists [(buf, stored)]. split; [split|].
    + by apply (sizes_ok_ext _ _ Hsz).
    + exact Hbl4.
    + split; [done|]. split; [done|]. exists b', 0. split; [apply lookup_insert_eq|].
      split; [|done]. rewrite <- Hc. exact Hh.
    + repeat constructor. apply not_elem_of_nil.
    + done.
    + split; [done|]. split; [done|]. unfold chain_addrs. cbn. by rewrite app_nil_r, Hst.
Qed.

(** [buffered]: the working buffer of the state is [b], and has room. *)
Record buffered st (b : list Z) : Prop := {
  bf_block : st.(blocks) !! st.(g_tsdata).(buf_addrs) = Some b;
  bf_live : st.(g_tsdata).(buf_addrs) ≠ 0;
  bf_room : limit_of st <= zlen b <= 2 ^ 27;
}.

(** Memory after the release of the lock. *)
Definition released (v : globals_t) (m : mem) : mem :=
  <[v.(global_timestamp) := TIMESTAMP (word m v.(global_timestamp))]> m.

(** Freeing, shuffling and storing. *)
Lemma reclaim_finish_ok v st m S P0 P1 b :
  reclaim_state st [] → buffered st b → 0 < zlen S <= limit_of st - 2 →
  is_Some (m !! v.(global_timestamp)) →
  (∀ i, 0 ≤ i < zlen S → v.(global_timestamp) ≠ elt st.(g_tsdata).(buf_addrs) i) →
  scanned P0 P1 S st.(g_tsdata).(buf_addrs) m →
  wp (reclaim_finish v st.(g_tsdata).(buf_addrs) (zlen S) st m) (λ r,
    r.2 = released v m ∧ ∃ l' fl, reclaimed st S P0 P1 r.1 l' fl).
Proof.
  set (buf := st.(g_tsdata).(buf_addrs)). intros Hst [Hb Hbuf Hroom] Hlen [stamp Hg] Hgb Hscan. fold buf in Hb.
  unfold reclaim_finish, threadscan_thread_cleanup_release.
  rewrite (run_bind_rd _ _ _ _ Hg), run_wr by (by eexists). cbn [mbind outcome_bind].
  assert (<[global_timestamp v := TIMESTAMP stamp]> m = released v m) as ->.
  { unfold released, word. by rewrite Hg. }
  set (m1 := released v m).
  assert (scanned P0 P1 S buf m1) as Hscan1.
  { destruct Hscan as [? ? Hw]. split; [done..|]. intros i Hi. unfold m1, released.
    rewrite lookup_insert_ne by by apply Hgb. by apply Hw. }
  rewrite (assert_after_scan P0 P1 S m1 buf) by done.
  cbn [mbind outcome_bind]. rewrite (get_block_ok _ _ _ Hb). cbn [mbind outcome_bind].
  set (B := load_block buf (zlen b) m1). assert (zlen B = zlen b) as HB by (apply zlen_load_block, zlen_nonneg).
  rewrite (handle_unreferenced_ptrs_ok buf (zlen S) _ B); [|apply lookup_insert_eq|rewrite HB; lia].
  cbn [mbind outcome_bind]. pose proof (load_after_scan P0 P1 S m1 buf (zlen b) Hscan1 ltac:(lia)) as HL.
  fold B in HL. set (L := take _ B) in *. pose proof (Forall2_length _ _ _ HL) as HLl.
  pose proof (kept_le L) as Hkl. set (K := kept L) in *. set (B2 := K ++ _).
  assert (zlen K <= zlen S) as HKS by (unfold zlen; lia).
  assert (zlen B2 = zlen b) as HB2.
  { unfold B2. rewrite !zlen_app, zlen_replicate, zlen_drop, HB. unfold zlen in *. lia. }
  erewrite get_block_ok by apply lookup_insert_eq.
  cbn [mbind outcome_bind]. pose proof (zlen_nonneg K) as HK0.
  pose proof (util_randomize_ok B2 (zlen K) ltac:(lia) ltac:(unfold INT_MAX; lia)) as (B3 & -> & Hperm)%wp_iff.
  cbn [mbind outcome_bind]. pose proof (rp_len _ _ _ _ Hperm) as HB3.
  destruct (range_perm_prefix _ _ _ Hperm ltac:(lia)) as [HK _].
  unfold B2 in HK. rewrite (take_app_length' K) in HK by (unfold zlen; lia).
  set (st3 := put_block buf B3 _). destruct Hst as [Hsz Hbl Hc Hnd Hq].
  assert (blocks_ok st3) as Hbl3.
  { do 3 (apply put_block_ok; [|try (cbn; rewrite lookup_insert_eq); by eexists]). exact Hbl. }
  apply wp_bind. eapply wp_mono.
  { apply (store_kept_ok buf K B3 st3); [by split|apply lookup_insert_eq|done|done|].
    unfold limit_of in *. cbn. lia. }
  intros st4 (l' & Hst4 & Hf & Hqs & Hl'). apply wp_ret. split; [done|]. exists l', (not_kept L). cbn in Hf, Hqs.
  split; cbn [fst]; try done. apply (disposed_perm _ _ S S _ K); [done|done|].
  apply after_scan_disposed; [done|]. apply znth_StronglySorted, (sn_sorted _ _ _ _ _ Hscan).
Qed.
End finish.

(** ** The whole of [threadscan_reclaim] *)
Section reclaim.
Context `{Build} {AS : Type} `{!Allocator AS}.
Context (v : globals_t) (pthread_kill : Z → Z → prog Z Z) (sigpending : Z → Z).
Context (heap retired : Z → Prop) (user : thread → prog Z (prog Z unit)).
Context (me : thread) (ts : list thread) (st : rstate AS) (l : list (Z * list Z)) (m : mem).

(** An address the threads refer to when the memory is [m']. *)
Definition in_use (m' : mem) (a : Z) : Prop := holding m (threads me ts) m' a.

(** Of addresses that are not retired nothing is known. *)
Definition maybe_used (a : Z) : Prop := retired a → in_use m a.
Definition surely_used (m' : mem) (a : Z) : Prop := retired a ∧ in_use m' a.

Context (Hst : reclaim_state st l) (Hround : reclaim_round st l m).
Context (Henv : round_env v sigpending heap me ts m) (Hkill : pthread_kill_delivers pthread_kill sigpending ts).
Context (Husers : users_ok heap retired user ts m).

Lemma prepared_unique st2 m2 S i : prepared st l m st2 m2 S → 0 ≤ i < n_addrs st2.(g_tsdata) →
  occ S (znth S i) = 1%nat → unique st2.(g_tsdata) (znth S) i.
Proof.
  intros Hp Hi H1 j Hj E. destruct (wk_n _ _ _ _ (pp_working _ _ _ _ _ _ Hp)) as [En _].
  symmetry. apply (occ_1_index S i j); lia || done.
Qed.

(** The round can start. *)
Lemma prepared_users st2 m2 S : prepared st l m st2 m2 S → users_ok heap retired user ts m2.
Proof.
  intros Hp. pose proof (pp_mem _ _ _ _ _ _ Hp) as Hsub. apply (users_ok_rely heap ts retired user m); [|done].
  intros t Ht. assert (t ∈ threads me ts) as Ht' by by right.
  split; [by apply (scanner_of_sub v sigpending heap me ts m m2 Henv Hsub)|].
  split; intros a Ha; [|by apply (is_Some_sub m m2 Hsub)].
  apply (mapped_sub m m2 Hsub). by apply (re_mapped _ _ _ _ _ _ Henv t).
Qed.

Lemma prepared_start st2 m2 S :
  prepared st l m st2 m2 S → round_start v st2.(g_tsdata) sigpending (znth S) heap me ts m2.
Proof.
  intros Hp. apply (working_round_start v sigpending heap me ts m m2 Henv (pp_mem _ _ _ _ _ _ Hp) _ S).
  apply (pp_working _ _ _ _ _ _ Hp).
Qed.

(** Memory at the end of the round. *)
Record scan_over (st2 : rstate AS) (m2 : mem) (S : list Z) (m3 : mem) : Prop := {
  so_fixed a : is_Some (m !! a) → ¬ vol v sigpending heap ts m a → m3 !! a = m !! a;
  so_mapped a : is_Some (m !! a) → is_Some (m3 !! a);
  so_in_use p : retired p → in_use m3 p → in_use m p;
  so_scanned : scanned maybe_used (surely_used m3) S st2.(g_tsdata).(buf_addrs) m3;
}.

Lemma prepared_scanned st2 m2 S ps m3 r :
  prepared st l m st2 m2 S →
  rtc pstep (round_pool v st2.(g_tsdata) pthread_kill sigpending user me ts, m2) (ps, m3) →
  ps !! 0%nat = Some (Stop (Ret r)) →
  r = (st2.(g_tsdata).(buf_addrs), st2.(g_tsdata).(n_addrs)) ∧ scan_over st2 m2 S m3.
Proof.
  intros Hp Hrun Hr. pose proof (pp_working _ _ _ _ _ _ Hp) as Hwork. pose proof (pp_mem _ _ _ _ _ _ Hp) as Hsub.
  destruct (round_result _ _ _ _ _ _ _ _ _ _ _ _ _ _ (prepared_start _ _ _ Hp) Hkill (prepared_users _ _ _ Hp) Hrun Hr)
    as (-> & [Hfixed Hmapped Hheld Hex]).
  assert (∀ m' p, holding m2 (threads me ts) m' p ↔ in_use m' p) as Hin.
  { intros m' p. unfold in_use, holding. by rewrite (scanners_sub v sigpending heap me ts m m2 Henv Hsub). }
  assert (∀ p, in_use m2 p ↔ in_use m p) as Hiff.
  { intros p. rewrite <- Hin. apply (holding_sub v sigpending heap me ts m m2 Henv Hsub). }
  split; [done|]. split; [| | |split; [apply Hwork..|]].
  - intros a Ha Hv. rewrite Hfixed; [by apply (mapped_sub m m2 Hsub)|].
    by apply (fixed_mapped v sigpending heap me ts m m2 Henv Hsub _ S).
  - intros a Ha. by apply Hmapped, (is_Some_sub m m2 Hsub).
  - intros p Hret. rewrite <- (Hiff p), <- !Hin. by apply Hheld.
  - intros i Hi. destruct (wk_n _ _ _ _ Hwork) as [En Hn]. rewrite <- En in Hi.
    pose proof (wk_aligned _ _ _ _ Hwork (znth S i) ltac:(apply znth_elem_of; lia)) as Hal.
    destruct (Hex i Hi) as [[Hf Hx]|[Hf Hx]]; rewrite !Hin in Hf.
    + exists (znth S i + 1). split; [done|]. split; [done|]. left. split; [|done].
      intros Hret. rewrite <- Hiff. by apply Hf.
    + exists (znth S i). split; [done|]. split; [done|]. right. split; [|done].
      intros H1 [Hret Hu]. by apply Hf; [by apply (prepared_unique st2 m2)|..].
Qed.

(** From the end of the round on. *)
Lemma reclaim_finish_prepared st2 m2 S ps m3 r :
  prepared st l m st2 m2 S →
  rtc pstep (round_pool v st2.(g_tsdata) pthread_kill sigpending user me ts, m2) (ps, m3) →
  ps !! 0%nat = Some (Stop (Ret r)) →
  wp (reclaim_finish v r.1 r.2 st2 m3)
    (λ r, r.2 = released v m3 ∧ ∃ l' fl, reclaimed st2 S maybe_used (surely_used m3) r.1 l' fl).
Proof.
  intros Hp Hrun Hr. pose proof (pp_working _ _ _ _ _ _ Hp) as Hwork.
  destruct (prepared_scanned _ _ _ _ _ _ Hp Hrun Hr) as (-> & [_ Hmapped _ Hscan]). cbn [fst snd].
  destruct (wk_n _ _ _ _ Hwork) as [En Hn]. rewrite En.
  destruct (pp_buffer _ _ _ _ _ _ Hp) as (b & Hb & Hroom).
  assert (fixed v st2.(g_tsdata) sigpending heap ts m2 v.(global_timestamp)) as Hg
    by apply (rd_global _ _ _ _ _ _ _ _ (prepared_start _ _ _ Hp)).
  apply (reclaim_finish_ok v st2 m3 S maybe_used (surely_used m3) b).
  - apply (pp_state _ _ _ _ _ _ Hp).
  - split; [done|by apply (pp_live _ _ _ _ _ _ Hp)|by rewrite (pp_limit _ _ _ _ _ _ Hp)].
  - rewrite (pp_limit _ _ _ _ _ _ Hp). pose proof (rr_room _ _ _ Hround).
    unfold zlen at 1 2. rewrite (Permutation_length (pp_addrs _ _ _ _ _ _ Hp)). done.
  - apply Hmapped, (re_global _ _ _ _ _ _ Henv).
  - intros i Hi. apply Hg. lia.
  - done.
Qed.

(** The release of the lock changes no word a thread scans. *)
Lemma in_use_released m3 a : in_use (released v m3) a ↔ in_use m3 a.
Proof.
  unfold in_use. rewrite !holding_refers. apply exist_proper. intros t. apply and_iff_under. intros Ht.
  unfold refers, released.
  assert (∀ b, scans (scanner_of m t) b → b ≠ v.(global_timestamp)) as Hne
    by (intros b Hb; by apply (re_mapped _ _ _ _ _ _ Henv t)).
  split; intros (b & w & Hb & Hw & Hp); exists b, w; (split; [done|]); (split; [|done]).
  - by rewrite lookup_insert_ne in Hw by by apply not_eq_sym, Hne.
  - by rewrite lookup_insert_ne by by apply not_eq_sym, Hne.
Qed.
End reclaim.

(** C13. Reclaiming always comes to an end: from a well-formed state, with
    addresses that fit, the preparation returns; in every interleaving of the
    reclaimer with the other threads that follows, no thread is at fault,
    some thread can step until all are done, and there is no infinite
    schedule; and wherever [do_reclaim] has returned, the rest of
    [threadscan_reclaim] returns as well. *)
Theorem reclaim_terminates `{Build} `{!Allocator AS} v pthread_kill sigpending heap retired user me ts
    (st : rstate AS) l m :
  reclaim_state st l → reclaim_round st l m →
  round_env v sigpending heap me ts m → pthread_kill_delivers pthread_kill sigpending ts →
  users_ok heap retired user ts m →
  ∃ st2 m2, reclaim_prepare st m = Ret (st2, m2) ∧
    ∀ ps m3, rtc pstep (round_pool v st2.(g_tsdata) pthread_kill sigpending user me ts, m2) (ps, m3) →
      (∀ i p, ps !! i = Some p → ¬ faulty p m3) ∧
      (Forall finished ps ∨ ∃ c', pstep (ps, m3) c') ∧
      Acc (λ c' c, pstep c c') (ps, m3) ∧
      (∀ r, ps !! 0%nat = Some (Stop (Ret r)) →
         ∃ st4 m4, reclaim_finish v r.1 r.2 st2 m3 = Ret (st4, m4) ∧
           threadscan_reclaim v pthread_kill sigpending user me ts st m st4 m4).
Proof.
  intros Hst Hround Henv Hkill Husers.
  pose proof (reclaim_prepare_ok st l m Hst Hround) as ([st2 m2] & Hrun & S & Hp)%wp_iff. cbn [fst snd] in Hp.
  exists st2, m2. split; [done|]. intros ps m3 Hsteps.
  pose proof (prepared_start v sigpending heap me ts st l m Henv _ _ _ Hp) as Hstart.
  pose proof (prepared_users v sigpending heap retired user me ts st l m Henv Husers _ _ _ Hp) as Hus.
  destruct (round_safe _ _ _ _ _ _ _ _ _ _ _ _ _ Hstart Hkill Hus Hsteps) as (H1 & H2 & H3).
  split; [done|]. split; [done|]. split; [done|]. intros r Hr.
  pose proof (reclaim_finish_prepared v pthread_kill sigpending heap retired user me ts st l m Hround Henv Hkill Husers
    st2 m2 S ps m3 r Hp Hsteps Hr) as ([st4 m4] & Hfin & _)%wp_iff.
  exists st4, m4. split; [done|]. by eapply reclaim_returns.
Qed.

(** There is a run in which it returns. *)
Lemma reclaim_completes `{Build} `{!Allocator AS} v pthread_kill sigpending heap retired user me ts
    (st : rstate AS) l m :
  reclaim_state st l → reclaim_round st l m →
  round_env v sigpending heap me ts m → pthread_kill_delivers pthread_kill sigpending ts →
  users_ok heap retired user ts m →
  ∃ st4 m4, threadscan_reclaim v pthread_kill sigpending user me ts st m st4 m4.
Proof.
  intros Hst Hround Henv Hkill Husers.
  pose proof (reclaim_prepare_ok st l m Hst Hround) as ([st2 m2] & Hrun & S & Hp)%wp_iff. cbn [fst snd] in Hp.
  pose proof (prepared_start v sigpending heap me ts st l m Henv _ _ _ Hp) as Hstart.
  pose proof (prepared_users v sigpending heap retired user me ts st l m Henv Husers _ _ _ Hp) as Hus.
  destruct (pool_finishes (round_pool v st2.(g_tsdata) pthread_kill sigpending user me ts, m2)) as ([ps m3] & Hsteps & Hfin).
  { intros [ps m3] Hsteps. by destruct (round_safe _ _ _ _ _ _ _ _ _ _ _ _ _ Hstart Hkill Hus Hsteps) as (_ & H2 & _). }
  destruct ps as [|p ps]; [by pose proof (pstep_length _ _ Hsteps)|].
  apply Forall_cons in Hfin as [[r ->] _].
  pose proof (reclaim_finish_prepared v pthread_kill sigpending heap retired user me ts st l m Hround Henv Hkill Husers
    st2 m2 S _ m3 r Hp Hsteps eq_refl) as ([st4 m4] & Hfin & _)%wp_iff.
  exists st4, m4. by eapply reclaim_returns.
Qed.

(** What a reclamation does, for its clients. *)
Record reclaim_result `{Build} `{!Allocator AS} (retired : Z → Prop) (me : thread) (ts : list thread)
    (st st4 : rstate AS) (l l' : list (Z * list Z)) (fl : list Z) (m m4 : mem) : Prop := {
  rs_state : reclaim_state st4 l';
  rs_freed : st4.(freed) = st.(freed) ++ fl;
  rs_disposed : disposed (maybe_used retired me ts m) (surely_used retired me ts m m4)
    (gathered st (limit_of st) l) fl (chain_addrs l');
  rs_queued : queued st4.(queues) = drop (Z.to_nat (limit_of st - zlen (chain_addrs l))) (queued st.(queues));
  rs_caps : (capacity <$> st4.(queues)) = (capacity <$> st.(queues));
  rs_scanner t : t ∈ threads me ts → scanner_of m4 t = scanner_of m t;
  rs_in_use p : retired p → in_use me ts m m4 p → in_use me ts m m p;
}.

Lemma threadscan_reclaim_ok `{Build} `{!Allocator AS} v pthread_kill sigpending heap retired user me ts
    (st st4 : rstate AS) l m m4 :
  reclaim_state st l → reclaim_round st l m →
  round_env v sigpending heap me ts m → pthread_kill_delivers pthread_kill sigpending ts →
  users_ok heap retired user ts m →
  threadscan_reclaim v pthread_kill sigpending user me ts st m st4 m4 →
  ∃ l' fl, reclaim_result retired me ts st st4 l l' fl m m4.
Proof.
  intros Hst Hround Henv Hkill Husers [st2 m2 ps m3 r st' m' Hprep Hsteps Hr Hfin].
  pose proof (reclaim_prepare_ok st l m Hst Hround) as (x & Hx & S & Hp)%wp_iff.
  rewrite Hprep in Hx. injection Hx as <-. cbn [fst snd] in Hp.
  pose proof (reclaim_finish_prepared v pthread_kill sigpending heap retired user me ts st l m Hround Henv Hkill Husers
    st2 m2 S ps m3 r Hp Hsteps Hr) as (x & Hx & Hm' & l' & fl & [H1 H2 H3 H4])%wp_iff.
  rewrite Hfin in Hx. injection Hx as <-. cbn [fst snd] in *. subst m'.
  destruct (prepared_scanned v pthread_kill sigpending heap retired user me ts st l m Henv Hkill Husers _ _ _ _ _ _ Hp Hsteps Hr)
    as (_ & [Hfixed _ Huse _]).
  pose proof (in_use_released v sigpending heap me ts m Henv m3) as Hrel.
  exists l', fl. split.
  - done.
  - by rewrite H2, (pp_freed _ _ _ _ _ _ Hp).
  - apply (disposed_perm _ _ S _ _ (chain_addrs l')); [apply (pp_addrs _ _ _ _ _ _ Hp)|done|].
    apply (disposed_impl _ (surely_used retired me ts m m3)); [|done]. intros a [??]. split; [done|]. by apply Hrel.
  - rewrite H4. apply (pp_queued _ _ _ _ _ _ Hp).
  - rewrite H4. apply (pp_caps _ _ _ _ _ _ Hp).
  - intros t Ht. destruct (re_ready _ _ _ _ _ _ Henv t Ht) as [_ Hready].
    assert (∀ a, ¬ vol v sigpending heap ts m a ∧ a ≠ v.(global_timestamp) ∧ is_Some (m !! a) →
      word (released v m3) a = word m a) as Hword.
    { intros a (Hv & Hg & Ha). unfold word, released. by rewrite lookup_insert_ne, Hfixed by done. }
    unfold scanner_of. rewrite !Hword by (apply Hready; rewrite !elem_of_cons; tauto). done.
  - intros p Hret Hu%Hrel. by apply Huse.
Qed.

(** Words that neither the round nor user code writes stay as they are. *)
Lemma threadscan_reclaim_memory `{Build} `{!Allocator AS} v pthread_kill sigpending heap retired user me ts
    (st st4 : rstate AS) l m m4 :
  reclaim_state st l → reclaim_round st l m →
  round_env v sigpending heap me ts m → pthread_kill_delivers pthread_kill sigpending ts →
  users_ok heap retired user ts m →
  threadscan_reclaim v pthread_kill sigpending user me ts st m st4 m4 →
  (∀ b, is_Some (m !! b) → ¬ vol v sigpending heap ts m b → b ≠ v.(global_timestamp) → m4 !! b = m !! b) ∧
  ∀ b, is_Some (m !! b) → is_Some (m4 !! b).
Proof.
  intros Hst Hround Henv Hkill Husers [st2 m2 ps m3 r st' m' Hprep Hsteps Hr Hfin].
  pose proof (reclaim_prepare_ok st l m Hst Hround) as (x & Hx & S & Hp)%wp_iff.
  rewrite Hprep in Hx. injection Hx as <-. cbn [fst snd] in Hp.
  pose proof (reclaim_finish_prepared v pthread_kill sigpending heap retired user me ts st l m Hround Henv Hkill Husers
    st2 m2 S ps m3 r Hp Hsteps Hr) as (x & Hx & Hm' & _)%wp_iff.
  rewrite Hfin in Hx. injection Hx as <-. cbn [snd] in Hm'. subst m'.
  destruct (prepared_scanned v pthread_kill sigpending heap retired user me ts st l m Henv Hkill Husers _ _ _ _ _ _ Hp Hsteps Hr)
    as (_ & [Hfixed Hmapped _ _]). unfold released.
  split; intros b Hb.
  - intros Hv Hg. rewrite lookup_insert_ne by by apply not_eq_sym. by apply Hfixed.
  - apply lookup_insert_is_Some'. right. by apply Hmapped.
Qed.

(** C2. What [threadscan_reclaim] does with distinct retired addresses, in
    any interleaving with the other threads and the code they run: what is
    passed to free() was gathered, is freed once, and no stack and no local
    block refers to it any more; every gathered address that was not
    referenced when the reclamation began is freed; what is not freed is
    stored for the next round if a smaller gathered address was freed (the
    others are lost: see [kept]); what did not fit stays queued; and the
    state is well-formed for the next round. *)
Theorem reclaim_frees_unreferenced `{Build} `{!Allocator AS} v pthread_kill sigpending heap retired user me ts
    (st st4 : rstate AS) l m m4 :
  let addrs := gathered st (limit_of st) l in
  reclaim_state st l → reclaim_round st l m → NoDup addrs → 0 ∉ addrs → (∀ a, a ∈ addrs → retired a) →
  round_env v sigpending heap me ts m → pthread_kill_delivers pthread_kill sigpending ts →
  users_ok heap retired user ts m →
  threadscan_reclaim v pthread_kill sigpending user me ts st m st4 m4 →
  ∃ l' fl, reclaim_state st4 l' ∧ st4.(freed) = st.(freed) ++ fl ∧ NoDup fl ∧
    (∀ a, a ∈ fl → a ∈ addrs ∧ ¬ in_use me ts m m4 a) ∧
    (∀ a, a ∈ addrs → ¬ in_use me ts m m a → a ∈ fl) ∧
    (∀ a, a ≠ 0 → a ∈ chain_addrs l' ↔ a ∈ addrs ∧ a ∉ fl ∧ ∃ b, b ∈ fl ∧ b < a) ∧
    queued st4.(queues) = drop (Z.to_nat (limit_of st - zlen (chain_addrs l))) (queued st.(queues)) ∧
    (capacity <$> st4.(queues)) = (capacity <$> st.(queues)).
Proof.
  intros addrs Hst Hround Hnd H0 Hret Henv Hkill Husers Hrec.
  destruct (threadscan_reclaim_ok _ _ _ _ _ _ _ _ _ _ _ _ _ Hst Hround Henv Hkill Husers Hrec)
    as (l' & fl & [H1 H2 Hd H3 H4 _ _]).
  destruct (disposed_exact _ _ _ _ _ Hd Hnd H0) as (H5 & H6 & H7 & H8). exists l', fl.
  split; [done|]. split; [done|]. split; [done|]. split; [|split; [|done]].
  - intros a Ha. destruct (H6 a Ha) as [Hin Hn]. split; [done|]. intros Hu. apply Hn. split; [by apply Hret|done].
  - intros a Ha Hu. apply H7; [done|]. intros Hm. by apply Hu, Hm, Hret.
Qed.

(** C21. What [threadscan_reclaim] does in the release build with any
    addresses, equal ones and zeros included: a retired address no thread
    referred to is freed as often as it was gathered; one that is referenced
    and was gathered once is not freed; no address is freed or kept more
    often than it was gathered; and what is kept was referenced.  (Of an
    address gathered twice one copy can be freed although it is referenced.) *)
Theorem reclaim_accounts `{Build} `{!Allocator AS} v pthread_kill sigpending heap retired user me ts
    (st st4 : rstate AS) l m m4 :
  let addrs := gathered st (limit_of st) l in
  reclaim_state st l → reclaim_round st l m →
  round_env v sigpending heap me ts m → pthread_kill_delivers pthread_kill sigpending ts →
  users_ok heap retired user ts m →
  threadscan_reclaim v pthread_kill sigpending user me ts st m st4 m4 →
  ∃ l' fl, reclaim_state st4 l' ∧ st4.(freed) = st.(freed) ++ fl ∧
    (∀ a, retired a → ¬ in_use me ts m m a → occ fl a = occ addrs a) ∧
    (∀ a, retired a → in_use me ts m m4 a → occ addrs a = 1%nat → a ∉ fl) ∧
    (∀ a, a ≠ 0 → (occ fl a + occ (chain_addrs l') a ≤ occ addrs a)%nat) ∧
    (∀ a, a ≠ 0 → retired a → a ∈ chain_addrs l' → in_use me ts m m a).
Proof.
  intros addrs Hst Hround Henv Hkill Husers Hrec.
  destruct (threadscan_reclaim_ok _ _ _ _ _ _ _ _ _ _ _ _ _ Hst Hround Henv Hkill Husers Hrec)
    as (l' & fl & [H1 H2 [D1 D2 D3 D4 D5 D6 _] _ _ _ _]).
  exists l', fl. split; [done|]. split; [done|]. split; [|split; [|split; [done|]]].
  - intros a Hret Hu. apply D1. intros Hm. by apply Hu, Hm.
  - intros a Hret Hu. by apply D2.
  - intros a Ha Hret Hin. by apply (D5 a Ha Hin).
Qed.

(** ** A concrete reclamation

    The threads of the example of Round.v and what they run; three pointers
    are queued. *)
Section schedule.
Context `{Build} {AS : Type} `{!Allocator AS}.

(** [threadscan_reclaim] under a given schedule. *)
Definition reclaim_under (schedule : list nat) v pthread_kill sigpending user me ts (st : rstate AS) (m : mem) :
    option (rstate AS * mem) :=
  match reclaim_prepare st m with
  | Ret (st2, m2) =>
      let c := psched schedule (round_pool v st2.(g_tsdata) pthread_kill sigpending user me ts, m2) in
      match c.1 with
      | Stop (Ret r) :: _ =>
          match reclaim_finish v r.1 r.2 st2 c.2 with Ret x => Some x | _ => None end
      | _ => None
      end
  | _ => None
  end.

Lemma reclaim_under_sound schedule v pthread_kill sigpending user me ts (st st4 : rstate AS) (m m4 : mem) :
  reclaim_under schedule v pthread_kill sigpending user me ts st m = Some (st4, m4) →
  threadscan_reclaim v pthread_kill sigpending user me ts st m st4 m4.
Proof.
  unfold reclaim_under. destruct (reclaim_prepare st m) as [[st2 m2]| | | |] eqn:Hprep; try done.
  pose proof (psched_rtc schedule (round_pool v st2.(g_tsdata) pthread_kill sigpending user me ts, m2)) as Hrun.
  destruct (psched _ _) as [ps m3]. cbn [fst snd].
  destruct ps as [|[[r| | | |]| | | |] ps]; try done. destruct (reclaim_finish _ _ _ _ _) as [x| | | |] eqn:Hfin; try done.
  intros [= ->]. by eapply reclaim_returns.
Qed.
End schedule.

Definition ex_state : rstate bump_state := {|
  g_tsdata := {| max_ptrs := 256; n_addrs := 0; buf_addrs := 0; n_scan_map := 0; buf_scan_map := 0;
                 working_buffer_sz := 8192; scan_map_offset := 4096; storage := 0 |};
  blocks := ∅;
  allocator := {| bump_next := 0x900000; bump_live := ∅ |};
  queues := [mk_queue [0x3000; 0x1000; 0x2000; 0] 4 3 4];
  freed := [];
|}.

(** The reclaimer's stack refers to 0x2000, the other thread's local block
    to 0x3000; 0x1000 is the argument of a thread that has not started. *)
Definition ex_env_mem : mem := list_to_map (
  [(0x20000, 0x2001); (0x20008, 7); (0x30000, 0); (0x40000, 0x2800); (0x40008, 0x3000);
   (0x5000, 0x300000); (0x5008, 0); (0x6000, 2); (0x6008, 1); (0x7010, 0); (0x50000, 0)] ++
  ex_td 0x100000 0 1 1 0x20010 0 0 ++ ex_td 0x200000 0x100000 2 1 0x30008 0x40000 0x40010 ++
  ex_unstarted 0x300000 0x200000 0x1000).

Lemma ex_reclaim_state : reclaim_state (H := debug_build) ex_state [].
Proof.
  split.
  - split; [done|done|done|]. split; vm_compute; [discriminate|reflexivity].
  - split; [split; cbn; [done|by intros ?? ?%lookup_empty_Some|by intros ???? ?%lookup_empty_Some]|].
    intros a. cbn. by rewrite !lookup_empty.
  - done.
  - constructor.
  - apply Forall_singleton. split; [split; [by exists 2|split; [done|cbn; lia]]|].
    intros _. vm_compute. intros Hin. repeat (apply elem_of_cons in Hin as [Hin|Hin]; [discriminate Hin|]).
    by apply elem_of_nil in Hin.
Qed.

Lemma ex_env_below a x : ex_env_mem !! a = Some x → a < 0x900000.
Proof.
  intros Hx%elem_of_map_to_list.
  assert (forallb (λ c, c.1 <? 0x900000) (map_to_list ex_env_mem) = true) as Hall by (vm_compute; reflexivity).
  rewrite forallb_forall in Hall. apply list_elem_of_In in Hx. specialize (Hall _ Hx). cbn in Hall. lia.
Qed.

Lemma ex_gathered : gathered ex_state (limit_of ex_state) [] = [0x3000; 0x1000; 0x2000].
Proof. reflexivity. Qed.

Lemma ex_gathered_distinct :
  NoDup (gathered ex_state (limit_of ex_state) []) ∧ 0 ∉ gathered ex_state (limit_of ex_state) [].
Proof.
  rewrite ex_gathered. split.
  - vm_compute; repeat constructor; rewrite ?elem_of_cons, ?elem_of_nil; intuition discriminate.
  - rewrite !elem_of_cons, elem_of_nil. intuition discriminate.
Qed.

Lemma ex_gathered_retired a : a ∈ gathered ex_state (limit_of ex_state) [] → ex_retired a.
Proof. rewrite ex_gathered. unfold ex_retired. rewrite !elem_of_cons, elem_of_nil. tauto. Qed.

Lemma ex_reclaim_round : reclaim_round (H := debug_build) ex_state [] ex_env_mem.
Proof.
  split; rewrite ?ex_gathered.
  - done.
  - done.
  - intros a Ha. repeat (apply elem_of_cons in Ha as [->|Ha]; [done|]). by apply elem_of_nil in Ha.
  - intros _. exact ex_gathered_distinct.
  - intros p a' [= <- _] i Hi. destruct (ex_env_mem !! elt 0x900000 i) as [x|] eqn:Hx; [|done].
    apply ex_env_below in Hx. unfold elt, sizeof_size_t in Hx. lia.
  - done.
Qed.

Lemma ex_env_words t : t ∈ threads ex_me [ex_other] →
  scan_words (scanner_of ex_env_mem t) = if bool_decide (t = ex_me) then [0x20000; 0x20008] else [0x30000; 0x40000; 0x40008].
Proof. revert t. by apply ex_two. Qed.

Lemma ex_env_private t t' a : t ∈ threads ex_me [ex_other] → t' ∈ threads ex_me [ex_other] → t ≠ t' →
  scans (scanner_of ex_env_mem t) a → ¬ scans (scanner_of ex_env_mem t') a.
Proof.
  intros Ht Ht' Hne. rewrite <- !elem_of_scan_words, !ex_env_words by done.
  unfold threads in Ht, Ht'. rewrite elem_of_cons, list_elem_of_singleton in Ht, Ht'.
  destruct Ht as [->| ->], Ht' as [->| ->]; try done; simpl; rewrite !elem_of_cons, elem_of_nil; lia.
Qed.

Lemma ex_env_mapped t a : t ∈ threads ex_me [ex_other] → scans (scanner_of ex_env_mem t) a →
  is_Some (ex_env_mem !! a) ∧ ¬ ctl ex_vars ex_sigpending [ex_other] a ∧ ¬ ex_heap a ∧ a ≠ ex_vars.(global_timestamp).
Proof.
  intros Ht Ha%elem_of_scan_words. rewrite ex_env_words in Ha by done.
  assert (a ∈ [0x20000; 0x20008; 0x30000; 0x40000; 0x40008]) as Hin.
  { revert Ha. case_bool_decide; rewrite !elem_of_cons, elem_of_nil; tauto. }
  split.
  - clear Ha. repeat (apply elem_of_cons in Hin as [->|Hin]; [by eexists|]). by apply elem_of_nil in Hin.
  - unfold ex_heap. cbn [global_timestamp ex_vars]. rewrite !elem_of_cons, elem_of_nil in Hin.
    split; [intros Hc%ex_ctl_cases; lia|lia].
Qed.

Lemma ex_env_ready t : t ∈ threads ex_me [ex_other] → t.(th_td) ≠ 0 ∧
  ∀ a, a ∈ [td_next t.(th_td); td_self t.(th_td); td_is_active t.(th_td); td_user_stack_low t.(th_td);
            td_user_stack_high t.(th_td); td_local_block_low t.(th_td); td_local_block_high t.(th_td)] →
    ¬ vol ex_vars ex_sigpending ex_heap [ex_other] ex_env_mem a ∧ a ≠ ex_vars.(global_timestamp) ∧
    is_Some (ex_env_mem !! a).
Proof.
  revert t. apply ex_two; (split; [done|]); intros a Ha;
    repeat (apply elem_of_cons in Ha as [->|Ha]); try (by apply elem_of_nil in Ha);
    (split; [by apply ex_not_vol|split; [done|by eexists]]).
Qed.

Lemma ex_env_list : thread_list ex_vars.(thread_list_) ex_env_mem [0x300000; 0x200000; 0x100000].
Proof.
  split; [done|..].
  - exists 0x300000. split; [done|]. do 3 (split; [done|]; split; [done|]; eexists; split; [reflexivity|]). done.
  - by apply (bool_decide_unpack (NoDup [0x300000; 0x200000; 0x100000])).
  - intros td Htd. repeat (apply elem_of_cons in Htd as [->|Htd]; [by split|]). by apply elem_of_nil in Htd.
  - unfold list_fuel. simpl. lia.
Qed.

Lemma ex_round_env : round_env ex_vars ex_sigpending ex_heap ex_me [ex_other] ex_env_mem.
Proof.
  split.
  - exists [0x300000; 0x200000; 0x100000]. split; [exact ex_env_list|].
    exists [0x300000]. split; [by apply (bool_decide_unpack ([0x300000; 0x200000; 0x100000] ≡ₚ [0x100000; 0x200000; 0x300000]))|].
    intros td ->%list_elem_of_singleton. split; [done|]. split; [done|]. intros a Ha.
    repeat (apply elem_of_cons in Ha as [->|Ha]); try (by apply elem_of_nil in Ha);
      (split; [by apply ex_not_vol|split; [done|by eexists]]).
  - apply ex_env_ready.
  - apply ex_env_mapped.
  - apply ex_env_private.
  - intros a ->. split; [by eexists|]. split; [intros Hc%ex_ctl_cases; lia|done].
  - split; [done|]. split; [by apply ex_not_vol|by eexists].
  - split; [intros Hc%ex_ctl_cases; cbn [global_timestamp ex_vars] in Hc; lia|by eexists].
  - apply ex_one. by repeat split.
  - by eexists.
  - by apply ex_one.
  - apply ex_one. split; [by eexists|]. exists 0. split; [done|]. unfold INT_MIN, INT_MAX. lia.
  - split; [done|]. apply ex_one. split.
    + intros a Ha. repeat (apply elem_of_cons in Ha as [->|Ha]); try (by apply elem_of_nil in Ha); by split.
    + intros t' ->%list_elem_of_singleton. by repeat split.
Qed.

Lemma ex_env_users m : scanner_of m ex_other = ex_scanner → m !! 0x40008 = Some 0x3000 →
  is_Some (m !! 0x30000) → is_Some (m !! 0x50000) → users_ok ex_heap ex_retired ex_user [ex_other] m.
Proof. intros Hs ??? t ->%list_elem_of_singleton. rewrite Hs. by apply ex_user_ok. Qed.

Lemma ex_users : users_ok ex_heap ex_retired ex_user [ex_other] ex_env_mem.
Proof. by apply ex_env_users; [| |eexists..]. Qed.

Lemma ex_kill_delivers : pthread_kill_delivers ex_kill ex_sigpending [ex_other].
Proof. by intros t ->%list_elem_of_singleton. Qed.

Definition ex_schedule : list nat := concat (replicate 110 [1%nat; 0%nat]).

Lemma reclaim_terminates_witness :
  ∃ st2 m2, reclaim_prepare (H := debug_build) ex_state ex_env_mem = Ret (st2, m2) ∧
    ∀ ps m3, rtc pstep (round_pool (H := debug_build) ex_vars st2.(g_tsdata) ex_kill ex_sigpending ex_user ex_me [ex_other], m2) (ps, m3) →
      ∀ i p, ps !! i = Some p → ¬ faulty p m3.
Proof.
  destruct (reclaim_terminates (H := debug_build) ex_vars ex_kill ex_sigpending ex_heap ex_retired ex_user ex_me [ex_other] ex_state [] ex_env_mem
    ex_reclaim_state ex_reclaim_round ex_round_env ex_kill_delivers ex_users) as (st2 & m2 & Hrun & Hall).
  exists st2, m2. split; [exact Hrun|]. intros ps m3 Hs. exact (proj1 (Hall ps m3 Hs)).
Defined.

(** The reference of the other thread is only on its stack when that is
    scanned. *)
Lemma reclaim_frees_unreferenced_witness :
  ∃ st4 m4, threadscan_reclaim (H := debug_build) ex_vars ex_kill ex_sigpending ex_user ex_me [ex_other] ex_state ex_env_mem st4 m4 ∧
    st4.(freed) = [0x1000] ∧ m4 !! 0x40008 = Some 0 ∧ ¬ in_use ex_me [ex_other] ex_env_mem m4 0x1000 ∧
    ∃ l', reclaim_state (H := debug_build) st4 l' ∧ 0x2000 ∈ chain_addrs l' ∧ 0x3000 ∈ chain_addrs l'.
Proof.
  set (o := reclaim_under (H := debug_build) ex_schedule ex_vars ex_kill ex_sigpending ex_user ex_me [ex_other] ex_state ex_env_mem).
  assert ((λ x, (freed x.1, x.2 !! 0x40008)) <$> o = Some ([0x1000], Some 0)) as Hfr by (vm_compute; reflexivity).
  destruct o as [[st4 m4]|] eqn:E; [|done]. injection Hfr as Hfr Hm4.
  apply reclaim_under_sound in E. exists st4, m4. split; [exact E|]. split; [exact Hfr|]. split; [exact Hm4|].
  destruct (reclaim_frees_unreferenced (H := debug_build) ex_vars ex_kill ex_sigpending ex_heap ex_retired ex_user
    ex_me [ex_other] ex_state st4 []
    ex_env_mem m4 ex_reclaim_state ex_reclaim_round (proj1 ex_gathered_distinct) (proj2 ex_gathered_distinct)
    ex_gathered_retired ex_round_env ex_kill_delivers ex_users E)
    as (l' & fl & Hst4 & Hf & _ & Hfl & _ & Hst & _).
  rewrite Hfr in Hf. cbn in Hf. subst fl. split.
  - apply Hfl. by left.
  - exists l'. split; [exact Hst4|]. rewrite ex_gathered in Hst.
    split; apply Hst; try done; rewrite !elem_of_cons, !elem_of_nil;
      (split; [lia|split; [lia|exists 0x1000; rewrite elem_of_cons; lia]]).
Defined.

(** The release build, with 0x2000 collected twice: it is on the reclaimer's
    stack, and still one of the copies is freed. *)
Definition ex_twice : rstate bump_state := set_queues [mk_queue [0x2000; 0x1000; 0x2000; 0] 4 3 4] ex_state.

Lemma ex_twice_state : reclaim_state (H := release_build) ex_twice [].
Proof.
  destruct ex_reclaim_state as [H1 H2 H3 H4 H5]. split; try done.
  apply Forall_singleton. split; [split; [by exists 2|split; [done|cbn; lia]]|done].
Qed.

Lemma ex_twice_round : reclaim_round (H := release_build) ex_twice [] ex_env_mem.
Proof.
  destruct ex_reclaim_round as [H1 H2 H3 H4 H5 H6].
  assert (gathered ex_twice (limit_of ex_twice) [] = [0x2000; 0x1000; 0x2000]) as E by reflexivity.
  split; rewrite ?E; try done. intros a Ha. repeat (apply elem_of_cons in Ha as [->|Ha]; [done|]). by apply elem_of_nil in Ha.
Qed.

Lemma reclaim_accounts_witness :
  ∃ st4 m4, threadscan_reclaim (H := release_build) ex_vars ex_kill ex_sigpending ex_user ex_me [ex_other] ex_twice ex_env_mem st4 m4 ∧
    st4.(freed) = [0x1000; 0x2000] ∧ in_use ex_me [ex_other] ex_env_mem ex_env_mem 0x2000 ∧
    ∃ l' fl, reclaim_state (H := release_build) st4 l' ∧ st4.(freed) = fl ∧
      (∀ a, ex_retired a → ¬ in_use ex_me [ex_other] ex_env_mem ex_env_mem a → occ fl a = occ [0x2000; 0x1000; 0x2000] a) ∧
      (∀ a, a ≠ 0 → ex_retired a → a ∈ chain_addrs l' → in_use ex_me [ex_other] ex_env_mem ex_env_mem a).
Proof.
  set (o := reclaim_under (H := release_build) ex_schedule ex_vars ex_kill ex_sigpending ex_user ex_me [ex_other] ex_twice ex_env_mem).
  assert ((λ x, freed x.1) <$> o = Some [0x1000; 0x2000]) as Hfr by (vm_compute; reflexivity).
  destruct o as [[st4 m4]|] eqn:E; [|done]. injection Hfr as Hfr.
  apply reclaim_under_sound in E. exists st4, m4. split; [exact E|]. split; [exact Hfr|]. split.
  { exists (scanner_of ex_env_mem ex_me), {| low := 0x20000; high := 0x20010 |}, 0, 0x2001.
    split; [by left|]. split; [by left|]. split; [done|]. by split. }
  destruct (reclaim_accounts (H := release_build) ex_vars ex_kill ex_sigpending ex_heap ex_retired ex_user
    ex_me [ex_other] ex_twice st4 []
    ex_env_mem m4 ex_twice_state ex_twice_round ex_round_env ex_kill_delivers ex_users E)
    as (l' & fl & Hst4 & Hf & Hun & _ & _ & Hst).
  exists l', fl. split; [exact Hst4|]. split; [exact Hf|]. split; [exact Hun|exact Hst].
Defined.
