(* ===== verification/Collect.v ===== *)
(** * threadscan.c: the interface for applications

    [threadscan_collect] registers a pointer and reclaims when the thread's
    own queue is full.  The call is a machine: its own steps are the test of
    the loop, the attempt to get the reclaimer's lock and the reclamation, and
    between them the other threads compute, collect, take the lock and
    reclaim.  [threadscan_register_local_block] tells the scanner about a block
    of memory of the thread. *)

From S2P Require Import Prelude Conc Ghost Mem Env Queue Sort ThreadList Thread Search Round AllocIface Buffers Reclaim.

(** Where a thread is in the loop of [threadscan_collect]. *)
Inductive collect_pc := Testing | Trying | Holding | Returned.

(** A reclamation: by whom, beside whom, from where to where. *)
Record reclamation (AS : Type) := {
  rc_by : thread;
  rc_others : list thread;
  rc_before : rstate AS * mem;
  rc_after : rstate AS * mem;
}.
Arguments rc_by {AS}.
Arguments rc_others {AS}.
Arguments rc_before {AS}.
Arguments rc_after {AS}.

(** A call of [threadscan_collect] among other threads: [holder] has the
    reclaimer's lock, [rounds] are the reclamations since the call. *)
Record collecting (AS : Type) := {
  pc : collect_pc;
  c_state : rstate AS;
  c_mem : mem;
  holder : option thread;
  rounds : list (reclamation AS);
}.
Arguments pc {AS}.
Arguments c_state {AS}.
Arguments c_mem {AS}.
Arguments holder {AS}.
Arguments rounds {AS}.

(** A step of the thread itself, one in which it yields, or one of another
    thread. *)
Inductive collect_label := own | yield | other.

Section code.
Context `{Build} {AS : Type} `{!Allocator AS}.
Implicit Types (st : rstate AS) (r : reclamation AS) (rs : list (reclamation AS)).

(** The thread's own queue is number [k] of the list of threads. *)
Definition own_push (k : nat) (ptr : Z) st : outcome (rstate AS) :=
  q ← of_option (st.(queues) !! k);
  '(_, q) ← run (threadscan_queue_push ptr) q;
  Ret (set_queues (<[k := q]> st.(queues)) st).

Definition own_is_full (k : nat) st : outcome Z :=
  q ← of_option (st.(queues) !! k);
  '(r, _) ← run threadscan_queue_is_full q;
  Ret r.

Context (v : globals_t) (pthread_kill : Z → Z → prog Z Z) (sigpending : Z → Z) (heap retired : Z → Prop).
Context (me : thread) (ts : list thread) (k : nat).

(** What a reclamation by [t] among [others] needs (see [reclaim_round]), and
    that the code they run meanwhile makes no references to what is
    retired. *)
Definition reclaim_ready (t : thread) (others : list thread) st (m : mem) : Prop :=
  pthread_kill_delivers pthread_kill sigpending others ∧ round_env v sigpending heap t others m ∧
  ∃ l, reclaim_state st l ∧ reclaim_round st l m.

Definition reclaims r : Prop :=
  let '(st, m) := r.(rc_before) in
  let '(st', m') := r.(rc_after) in
  reclaim_ready r.(rc_by) r.(rc_others) st m ∧
  ∃ user, users_ok heap retired user r.(rc_others) m ∧
    threadscan_reclaim v pthread_kill sigpending user r.(rc_by) r.(rc_others) st m st' m'.

(** The steps of the loop

      while (threadscan_queue_is_full(&td->ptr_list)) {
          threadscan_thread_cleanup_try_acquire() ? threadscan_reclaim() : pthread_yield();
      }

    and what the other threads do meanwhile: they compute, collect pointers
    of their own, take the lock and reclaim. *)
Inductive collect_step : collect_label → collecting AS → collecting AS → Prop :=
| collect_full st m h rs x :
    own_is_full k st = Ret x → x ≠ 0 →
    collect_step own (Build_collecting AS Testing st m h rs) (Build_collecting AS Trying st m h rs)
| collect_room st m h rs :
    own_is_full k st = Ret 0 →
    collect_step own (Build_collecting AS Testing st m h rs) (Build_collecting AS Returned st m h rs)
| collect_acquire st m h rs x m' :
    run (threadscan_thread_cleanup_try_acquire v) m = Ret (x, m') → x ≠ 0 →
    collect_step own (Build_collecting AS Trying st m h rs) (Build_collecting AS Holding st m' (Some me) rs)
| collect_yield st m h rs m' :
    run (threadscan_thread_cleanup_try_acquire v) m = Ret (0, m') →
    collect_step yield (Build_collecting AS Trying st m h rs) (Build_collecting AS Testing st m' h rs)
| collect_reclaim st m h rs r :
    r.(rc_by) = me → r.(rc_others) = ts → r.(rc_before) = (st, m) → reclaims r →
    collect_step own (Build_collecting AS Holding st m h rs)
      (Build_collecting AS Testing r.(rc_after).1 r.(rc_after).2 None (rs ++ [r]))
| other_runs p st m h rs m' :
    m' !! v.(global_timestamp) = m !! v.(global_timestamp) →
    collect_step other (Build_collecting AS p st m h rs) (Build_collecting AS p st m' h rs)
| other_collects p st m h rs j ptr st' :
    j ≠ k → own_push j ptr st = Ret st' →
    collect_step other (Build_collecting AS p st m h rs) (Build_collecting AS p st' m h rs)
| other_acquires p st m h rs t x m' :
    t ∈ ts → run (threadscan_thread_cleanup_try_acquire v) m = Ret (x, m') → x ≠ 0 →
    collect_step other (Build_collecting AS p st m h rs) (Build_collecting AS p st m' (Some t) rs)
| other_reclaims p st m t rs r :
    t ∈ ts → r.(rc_by) = t → threads r.(rc_by) r.(rc_others) ≡ₚ threads me ts →
    r.(rc_before) = (st, m) → reclaims r →
    collect_step other (Build_collecting AS p st m (Some t) rs)
      (Build_collecting AS p r.(rc_after).1 r.(rc_after).2 None (rs ++ [r])).

Inductive collect_run : collecting AS → list collect_label → collecting AS → Prop :=
| run_start c : collect_run c [] c
| run_step c ls c' l c'' : collect_run c ls c' → collect_step l c' c'' → collect_run c (ls ++ [l]) c''.

(** The call: a diagnostic is printed for NULL, and nothing else happens. *)
Definition threadscan_collect (ptr : Z) st (m : mem) (h : option thread) : outcome (collecting AS) :=
  if ptr =? 0 then Ret (Build_collecting AS Returned st m h [])
  else
    st ← own_push k ptr st;
    Ret (Build_collecting AS Testing st m h []).
End code.

Definition threadscan_register_local_block (td addr size : Z) : prog Z unit :=
  _ ← wr (td_local_block_high td) (u64 (addr + size));
  wr (td_local_block_low td) addr.

(** ** Acquiring the lock leaves the threads alone *)
Section acquire.
Context `{Build} (v : globals_t) (sigpending : Z → Z) (heap : Z → Prop) (me : thread) (ts : list thread).

Lemma try_acquire_writes :
  writes_in (λ a, a = v.(global_timestamp) ∨ a = tl_lock v.(thread_list_)) (threadscan_thread_cleanup_try_acquire v).
Proof.
  unfold threadscan_thread_cleanup_try_acquire. apply writes_in_bind; [by intros z|]. intros x.
  destruct (TIMESTAMP_IS_ACTIVE x); [done|]. apply writes_in_bind.
  { apply writes_in_bind; [|done]. split; [by left|by intros z]. }
  intros [|]; [|done]. apply writes_in_bind; [|done]. apply foreach_writes; [by right|]. intros td u.
  unfold c_assert. destruct debug; [destruct (negb (td =? 0))|]; by intros z || done.
Qed.

(** The lock of the list is free again afterwards. *)
Lemma try_acquire_unlocks r (m m' : mem) :
  m !! tl_lock v.(thread_list_) = Some 0 → v.(global_timestamp) ≠ tl_lock v.(thread_list_) →
  run (threadscan_thread_cleanup_try_acquire v) m = Ret (r, m') → m' !! tl_lock v.(thread_list_) = Some 0.
Proof.
  intros Hl Hne. unfold threadscan_thread_cleanup_try_acquire.
  destruct (m !! global_timestamp v) as [x|] eqn:Hx; [|by rewrite run_bind_rd_unmapped].
  rewrite (run_bind_rd _ _ _ _ Hx). destruct (TIMESTAMP_IS_ACTIVE x); [by intros [= _ <-]|].
  unfold BCAS. rewrite run_bind. erewrite run_bind_rmw; [|exact Hx|by rewrite Z.eqb_refl]. rewrite Z.eqb_refl.
  cbn [run mret prog_mret mbind outcome_bind negb].
  set (m1 := <[_ := _]> m). intros Hrun. rewrite run_bind in Hrun.
  apply outcome_bind_inv in Hrun as ([u m2] & Hw & [= _ <-]).
  unfold threadscan_proc_wait_for_timestamp, foreach_in_thread_list in Hw.
  repeat (rewrite run_bind in Hw; apply outcome_bind_inv in Hw as ([? ?] & ? & Hw)).
  injection Hw as <- <-.
  match goal with Hu : run (pthread_mutex_unlock _) ?m = _ |- _ =>
    simpl in Hu; destruct (m !! tl_lock (thread_list_ v)); [|done]; simpl in Hu; injection Hu as <- <- end.
  apply lookup_insert_eq.
Qed.

(** The metadata fields a scan reads. *)
Definition td_fields (td : Z) : list Z :=
  [td_next td; td_self td; td_is_active td; td_user_stack_low td; td_user_stack_high td;
   td_local_block_low td; td_local_block_high td].

(** A thread that finds the lock free, and nobody still helping with an older
    reclamation, gets it. *)
Record lock_free (m : mem) : Prop := {
  lf_stamp : ∃ x, m !! v.(global_timestamp) = Some x ∧ TIMESTAMP_IS_ACTIVE x = false;
  lf_helpers : ∀ tds td, thread_list v.(thread_list_) m tds → td ∈ tds → ∃ x, m !! td_local_timestamp td = Some x ∧
    TIMESTAMP_IS_ACTIVE x = false ∧ td_local_timestamp td ≠ v.(global_timestamp) ∧
    td_local_timestamp td ≠ tl_lock v.(thread_list_);
}.

(** The link of every member of the list. *)
Lemma env_list_member m tds : round_env v sigpending heap me ts m → env_list v sigpending heap me ts m tds →
  ∀ td, td ∈ tds → td ≠ 0 ∧ ¬ vol v sigpending heap ts m (td_next td) ∧ td_next td ≠ v.(global_timestamp) ∧ is_Some (m !! td_next td).
Proof.
  intros Hm (idle & Hperm & Hidle) td. rewrite Hperm. intros [(t & -> & Ht)%list_elem_of_fmap|Htd]%elem_of_app.
  - destruct (re_ready _ _ _ _ _ _ Hm t Ht) as [Hnz Hr]. split; [done|]. apply Hr. by left.
  - destruct (Hidle td Htd) as (Hnz & _ & Hr). split; [done|]. apply Hr. by left.
Qed.

Lemma try_acquire_run m : round_env v sigpending heap me ts m → lock_free m →
  ∃ m1, run (threadscan_thread_cleanup_try_acquire v) m = Ret (1, m1).
Proof.
  intros Hm [(x & Hx & Hfree) Hhelp]. unfold threadscan_thread_cleanup_try_acquire.
  rewrite (run_bind_rd _ _ _ _ Hx), Hfree. unfold BCAS. rewrite run_bind.
  erewrite run_bind_rmw; [|exact Hx|by rewrite Z.eqb_refl]. rewrite Z.eqb_refl.
  cbn [run mret prog_mret mbind outcome_bind negb]. set (m1 := <[_ := _]> m). rewrite run_bind.
  destruct (re_list _ _ _ _ _ _ Hm) as (tds & Hlist & Htds). pose proof Hlist as [Hf (p & Hp & Hl) Hnd Hsep Hlen].
  destruct (re_head _ _ _ _ _ _ Hm) as (Hh & _). destruct (re_global _ _ _ _ _ _ Hm) as [Hgc _].
  assert (v.(global_timestamp) ≠ tl_lock v.(thread_list_)) as Hgl by (intros E; apply Hgc; right; left; done).
  pose proof (env_list_member m tds Hm Htds) as Hin.
  assert (thread_list v.(thread_list_) m1 tds) as Hl1.
  { split; try done; unfold m1.
    - by rewrite lookup_insert_ne.
    - exists p. rewrite lookup_insert_ne by done. split; [done|]. eapply tlist_ext; [|exact Hl].
      intros td (_ & _ & Hg & _)%Hin. by rewrite lookup_insert_ne by by apply not_eq_sym. }
  unfold threadscan_proc_wait_for_timestamp. rewrite (foreach_run _ _ _ _ _ Hl1).
  - cbn. by eexists.
  - intros td Htd. destruct (Hhelp tds td Hlist Htd) as (y & Hy & Hact & Hg & Hlk). destruct (Hin td Htd) as [Hnz _].
    rewrite (run_bind_lift _ _ _ tt) by (apply c_assert_true; lia).
    cbn. unfold m1. rewrite !lookup_insert_ne by by apply not_eq_sym. rewrite Hy. cbn. by rewrite Hact.
Qed.

Context (m m1 : mem) (Hm : round_env v sigpending heap me ts m) (r : Z).
Context (Hrun : run (threadscan_thread_cleanup_try_acquire v) m = Ret (r, m1)).

Lemma acquired_other a : a ≠ v.(global_timestamp) → a ≠ tl_lock v.(thread_list_) → m1 !! a = m !! a.
Proof. intros H1 H2. apply (writes_in_run _ _ _ _ _ _ try_acquire_writes Hrun). by intros [?|?]. Qed.

Lemma acquired_mapped a : is_Some (m !! a) → is_Some (m1 !! a).
Proof. by apply (run_mapped _ _ _ _ _ Hrun). Qed.

(** Control words other than the lock. *)
Lemma acquired_ctl a : ctl v sigpending ts a → a ≠ tl_lock v.(thread_list_) → m1 !! a = m !! a.
Proof.
  intros Hc Ha. apply acquired_other; [|done]. intros ->.
  by destruct (re_global _ _ _ _ _ _ Hm).
Qed.

Lemma acquired_fixed a : ¬ vol v sigpending heap ts m a → a ≠ v.(global_timestamp) → m1 !! a = m !! a.
Proof. intros Hn Hg. apply acquired_other; [done|]. intros ->. apply Hn. left. by right; left. Qed.

Lemma acquired_field t a : t ∈ threads me ts → a ∈ td_fields t.(th_td) → m1 !! a = m !! a.
Proof.
  intros Ht Ha. destruct (re_ready _ _ _ _ _ _ Hm t Ht) as [_ Hr]. destruct (Hr _ Ha) as (Hn & Hg & _).
  by apply acquired_fixed.
Qed.

Lemma acquired_word t a : t ∈ threads me ts → a ∈ td_fields t.(th_td) → word m1 a = word m a.
Proof. intros Ht Ha. unfold word. by rewrite (acquired_field t a Ht Ha). Qed.

Lemma acquired_scanner t : t ∈ threads me ts → scanner_of m1 t = scanner_of m t.
Proof.
  intros Ht. unfold scanner_of. by rewrite !(acquired_word t) by (done || (unfold td_fields; rewrite !elem_of_cons; tauto)).
Qed.

Lemma acquired_list tds : thread_list v.(thread_list_) m tds → env_list v sigpending heap me ts m tds →
  thread_list v.(thread_list_) m1 tds.
Proof.
  intros [Hf (p & Hp & Hl) Hnd Hsep Hlen] Htds.
  destruct (re_head _ _ _ _ _ _ Hm) as (Hh & Hhc & _). destruct (re_global _ _ _ _ _ _ Hm) as [Hgc _]. split; try done.
  - eapply try_acquire_unlocks; [exact Hf| |exact Hrun]. intros E. apply Hgc. right; left. done.
  - exists p. rewrite acquired_other; [|done|intros E; apply Hhc; left; right; by left]. split; [done|].
    eapply tlist_ext; [|exact Hl]. intros td Htd. destruct (env_list_member m tds Hm Htds td Htd) as (_ & Hn & Hg & _).
    by apply acquired_fixed.
Qed.

(** The words the threads scan are as they were. *)
Lemma acquired_rely t : t ∈ threads me ts → user_rely (scanner_of m t) m m1.
Proof.
  intros Ht. split; [|apply acquired_mapped]. intros a Ha.
  destruct (re_mapped _ _ _ _ _ _ Hm t a Ht Ha) as (_ & Hc & _ & Hg). apply acquired_other; [done|].
  intros ->. apply Hc. right; by left.
Qed.

Lemma acquired_vol a : vol v sigpending heap ts m1 a ↔ vol v sigpending heap ts m a.
Proof.
  unfold vol. do 2 apply or_iff_compat_l. apply exist_proper. intros t. apply and_iff_under. intros Ht.
  by rewrite acquired_scanner by by right.
Qed.

Lemma acquired_users retired user : users_ok heap retired user ts m → users_ok heap retired user ts m1.
Proof.
  apply users_ok_rely. intros t Ht. split; [apply acquired_scanner|apply acquired_rely]; by right.
Qed.

(** A thread that does not get the lock changes nothing. *)
Lemma not_acquired : r = 0 → m1 = m.
Proof.
  intros ->. revert Hrun. unfold threadscan_thread_cleanup_try_acquire.
  destruct (m !! global_timestamp v) as [x|] eqn:Hx; [|by rewrite run_bind_rd_unmapped].
  rewrite (run_bind_rd _ _ _ _ Hx). destruct (TIMESTAMP_IS_ACTIVE x); [by intros [= <-]|].
  rewrite run_bind. unfold BCAS. erewrite run_bind_rmw; [|exact Hx|by rewrite Z.eqb_refl]. rewrite Z.eqb_refl.
  cbn [run mret prog_mret mbind outcome_bind negb]. rewrite run_bind.
  by intros ([u m2] & _ & [=])%outcome_bind_inv.
Qed.

(** The environment of a scan is still there. *)
Lemma acquired_env : round_env v sigpending heap me ts m1.
Proof.
  destruct (re_distinct _ _ _ _ _ _ Hm) as [Hd1 Hd2]. split.
  - destruct (re_list _ _ _ _ _ _ Hm) as (tds & Hl & Hp). exists tds. split; [by apply acquired_list|].
    destruct Hp as (idle & Hp & Hidle). exists idle. split; [done|].
    intros td Htd. destruct (Hidle td Htd) as (Hnz & Hact & Hr). split; [done|]. split.
    { destruct (Hr (td_is_active td)) as (? & ? & _); [by right; left|]. by rewrite acquired_fixed. }
    intros a Ha. destruct (Hr a Ha) as (? & ? & ?). rewrite acquired_vol. auto using acquired_mapped.
  - intros t Ht. destruct (re_ready _ _ _ _ _ _ Hm t Ht) as [Hnz Hr]. split; [done|].
    intros a Ha. destruct (Hr a Ha) as (? & ? & ?). by rewrite acquired_vol; auto using acquired_mapped.
  - intros t a Ht. rewrite (acquired_scanner t Ht). intros Hs.
    destruct (re_mapped _ _ _ _ _ _ Hm t a Ht Hs). split; [by apply acquired_mapped|done].
  - intros t t' a Ht Ht'. rewrite !acquired_scanner by done. by apply (re_private _ _ _ _ _ _ Hm).
  - intros a Ha. destruct (re_heap _ _ _ _ _ _ Hm a Ha). split; [by apply acquired_mapped|done].
  - destruct (re_head _ _ _ _ _ _ Hm) as (? & ? & ?). by rewrite acquired_vol; auto using acquired_mapped.
  - destruct (re_global _ _ _ _ _ _ Hm). split; [done|by apply acquired_mapped].
  - intros t Ht. rewrite !(acquired_word t) by ((by right) || (unfold td_fields; rewrite !elem_of_cons; tauto)).
    by apply (re_active _ _ _ _ _ _ Hm).
  - apply acquired_mapped, (re_counter _ _ _ _ _ _ Hm).
  - intros t Ht. rewrite acquired_ctl; [by apply (re_pending _ _ _ _ _ _ Hm)| |].
    + right; right. exists t. auto.
    + apply (Hd2 t Ht). by left.
  - intros t Ht. destruct (re_stamps _ _ _ _ _ _ Hm t Ht) as [Hs (n & Hn & Hr)].
    split; [by apply acquired_mapped|]. exists n. rewrite acquired_ctl; [done| |].
    + right; right. exists t. auto.
    + apply (Hd2 t Ht). by right; right; left.
  - done.
Qed.
End acquire.

(** ** Collecting a pointer *)

(** A reclamation gives the lock back. *)
Lemma reclaim_unlocks `{Build} `{!Allocator AS} v pthread_kill sigpending heap retired user me ts
    (st st4 : rstate AS) l m m4 :
  reclaim_state st l → reclaim_round st l m →
  round_env v sigpending heap me ts m → pthread_kill_delivers pthread_kill sigpending ts →
  users_ok heap retired user ts m →
  threadscan_reclaim v pthread_kill sigpending user me ts st m st4 m4 →
  ∃ x, m4 !! v.(global_timestamp) = Some x ∧ TIMESTAMP_IS_ACTIVE x = false.
Proof.
  intros Hst Hround Henv Hkill Husers [st2 m2 ps m3 r st' m' Hprep Hsteps Hr Hfin].
  pose proof (reclaim_prepare_ok st l m Hst Hround) as (x & Hx & S & Hp)%wp_iff.
  rewrite Hprep in Hx. injection Hx as <-. cbn [fst snd] in Hp.
  pose proof (reclaim_finish_prepared v pthread_kill sigpending heap retired user me ts st l m Hround Henv Hkill Husers
    st2 m2 S ps m3 r Hp Hsteps Hr) as (x & Hx & Hm' & _)%wp_iff.
  rewrite Hfin in Hx. injection Hx as <-. cbn [snd] in Hm'. subst m'. unfold released.
  rewrite lookup_insert_eq. eexists. split; [done|]. apply TIMESTAMP_inactive.
Qed.

(** Waiting for the threads that still help takes and gives back the lock of
    the list, and writes nothing else. *)
Lemma wait_writes `{Build} v curr : writes_in (λ a, a = tl_lock v.(thread_list_)) (threadscan_proc_wait_for_timestamp v curr).
Proof.
  apply foreach_writes; [done|]. intros td u.
  unfold c_assert. destruct debug; [destruct (negb (td =? 0))|]; by intros z || done.
Qed.

(** Trying to get the lock while it is taken. *)
Lemma try_acquire_taken `{Build} v (m : mem) x :
  m !! v.(global_timestamp) = Some x → TIMESTAMP_IS_ACTIVE x = true →
  run (threadscan_thread_cleanup_try_acquire v) m = Ret (0, m).
Proof.
  intros Hx Ha. unfold threadscan_thread_cleanup_try_acquire. by rewrite (run_bind_rd _ _ _ _ Hx), Ha.
Qed.

(** The answer says whether the lock was free; if it was, it is taken now. *)
Lemma try_acquire_answer `{Build} v (m m' : mem) r :
  v.(global_timestamp) ≠ tl_lock v.(thread_list_) →
  run (threadscan_thread_cleanup_try_acquire v) m = Ret (r, m') →
  ∃ x, m !! v.(global_timestamp) = Some x ∧
    (r = 0 ∧ m' = m ∧ TIMESTAMP_IS_ACTIVE x = true ∨
     r = 1 ∧ TIMESTAMP_IS_ACTIVE x = false ∧ ∃ y, m' !! v.(global_timestamp) = Some y ∧ TIMESTAMP_IS_ACTIVE y = true).
Proof.
  intros Hne. unfold threadscan_thread_cleanup_try_acquire.
  destruct (m !! global_timestamp v) as [x|] eqn:Hx; [|by rewrite run_bind_rd_unmapped].
  rewrite (run_bind_rd _ _ _ _ Hx). intros Hrun. exists x. split; [done|].
  destruct (TIMESTAMP_IS_ACTIVE x) eqn:Ha; [left; by injection Hrun as <- <-|right]. revert Hrun.
  rewrite run_bind. unfold BCAS. erewrite run_bind_rmw; [|exact Hx|by rewrite Z.eqb_refl]. rewrite Z.eqb_refl.
  cbn [run mret prog_mret mbind outcome_bind negb]. rewrite run_bind.
  intros ([u m2] & Hw & [= <- <-])%outcome_bind_inv. split; [done|]. split; [done|].
  exists (TIMESTAMP_SET_ACTIVE (u64 (x + 1))). split; [|apply TIMESTAMP_RAISE_FLAG_active].
  rewrite (writes_in_run (λ a, a = tl_lock v.(thread_list_)) _ _ _ _ _ (wait_writes v _) Hw) by done.
  apply lookup_insert_eq.
Qed.

Section collect.
Context `{Build} {AS : Type} `{!Allocator AS}.
Context (v : globals_t) (pthread_kill : Z → Z → prog Z Z) (sigpending : Z → Z) (heap retired : Z → Prop).
Context (me : thread) (ts : list thread) (k : nat).
Implicit Types (st : rstate AS) (r : reclamation AS) (c : collecting AS).

#[local] Abbreviation reclaim_ready := (reclaim_ready v pthread_kill sigpending heap).
#[local] Abbreviation reclaims := (reclaims v pthread_kill sigpending heap retired).
#[local] Abbreviation collect_step := (collect_step v pthread_kill sigpending heap retired me ts k).
#[local] Abbreviation collect_run := (collect_run v pthread_kill sigpending heap retired me ts k).

Lemma queues_ok_lookup qs i q : queues_ok qs → qs !! i = Some q → queue_wf q.
Proof. intros Hq Hi. by apply (Forall_lookup_1 _ _ _ _ Hq Hi). Qed.

Lemma own_is_full_eq st q : st.(queues) !! k = Some q → queue_wf q →
  own_is_full k st = Ret (if zlen (contents q) =? capacity q - 1 then 1 else 0).
Proof. intros Hq Hwf. unfold own_is_full. rewrite Hq. cbn. by rewrite is_full_run. Qed.

(** A pointer is put on the thread's queue. *)
Lemma own_push_run ptr st q :
  st.(queues) !! k = Some q → queue_wf q → own_is_full k st = Ret 0 → idx_head q + 1 + capacity q < 2 ^ 64 →
  ∃ q1, own_push k ptr st = Ret (set_queues (<[k := q1]> st.(queues)) st) ∧
    queue_wf q1 ∧ capacity q1 = capacity q ∧ contents q1 = contents q ++ [ptr].
Proof.
  intros Hq Hwf Hroom Hidx. rewrite (own_is_full_eq st q Hq Hwf) in Hroom. pose proof Hwf as (_ & _ & Hi1 & Hi2 & _).
  assert (zlen (contents q) < capacity q - 1) as Hlt.
  { rewrite contents_length in * by done. destruct (Z.eqb_spec (idx_head q - (idx_tail q - capacity q)) (capacity q - 1)); [done|lia]. }
  destruct (push_run q ptr Hwf Hlt Hidx) as (q1 & Hrun & Hwf1 & Hcap1 & _ & Hc1). exists q1.
  split; [|done]. unfold own_push. rewrite Hq. cbn [of_option mbind outcome_bind]. by rewrite Hrun.
Qed.

(** Another thread's push leaves the queue and what was freed alone. *)
Lemma other_push_same j ptr st st' : j ≠ k → own_push j ptr st = Ret st' →
  st'.(queues) !! k = st.(queues) !! k ∧ st'.(freed) = st.(freed).
Proof.
  intros Hj. unfold own_push. intros (q & _ & ([u q'] & _ & [= <-])%outcome_bind_inv)%outcome_bind_inv.
  split; [|done]. by apply list_lookup_insert_ne.
Qed.

(** What is gathered leaves room to store everything again, so everything
    that is queued was gathered. *)
Lemma round_gathers_all st l m : reclaim_round st l m →
  zlen (chain_addrs l) + zlen (queued st.(queues)) <= limit_of st.
Proof.
  intros [Hleft Hroom _ _ _ _]. unfold gathered in Hroom. rewrite zlen_app, zlen_take in Hroom. lia.
Qed.

(** What a reclamation did with the address [a]: it was gathered; when nobody
    referred to it at the start it was freed; when somebody still does, and it
    was gathered once, it was not; and if it was not freed it is kept for the
    next round, unless no smaller address was freed (see [kept]). *)
Definition disposed_of r (a : Z) : Prop :=
  let '(st, m) := r.(rc_before) in
  let '(st', m') := r.(rc_after) in
  ∃ l l' fl, chain st.(blocks) st.(g_tsdata).(storage) l ∧ chain st'.(blocks) st'.(g_tsdata).(storage) l' ∧
    st'.(freed) = st.(freed) ++ fl ∧ a ∈ gathered st (limit_of st) l ∧
    (retired a → ¬ in_use r.(rc_by) r.(rc_others) m m a → a ∈ fl) ∧
    (retired a → in_use r.(rc_by) r.(rc_others) m m' a → occ (gathered st (limit_of st) l) a = 1%nat → a ∉ fl) ∧
    (∀ b, a ∉ fl → b ∈ fl → b < a → a ∈ chain_addrs l').

(** A reclamation, by whatever thread, empties the queue and disposes of what
    was on it. *)
Lemma reclaims_queue r q : reclaims r → r.(rc_before).1.(queues) !! k = Some q →
  (∃ q', r.(rc_after).1.(queues) !! k = Some q' ∧ queue_wf q' ∧ capacity q' = capacity q ∧ contents q' = []) ∧
  (∀ a, a ∈ contents q → disposed_of r a) ∧
  (∃ fl, r.(rc_after).1.(freed) = r.(rc_before).1.(freed) ++ fl) ∧
  ∃ x, r.(rc_after).2 !! v.(global_timestamp) = Some x ∧ TIMESTAMP_IS_ACTIVE x = false.
Proof.
  unfold reclaims, disposed_of. destruct r as [t others [st m] [st' m']]. cbn.
  intros [(Hkill & Henv & l & Hst & Hround) (user & Husers & Hrec)] Hq.
  pose proof (reclaim_unlocks _ _ _ _ _ _ _ _ _ _ _ _ _ Hst Hround Henv Hkill Husers Hrec) as Hstamp.
  destruct (threadscan_reclaim_ok _ _ _ _ _ _ _ _ _ _ _ _ _ Hst Hround Henv Hkill Husers Hrec)
    as (l' & fl & [Hst2 Hfr [D1 D2 _ _ _ D6 _] Hqd Hcaps _ _]).
  pose proof (round_gathers_all _ _ _ Hround) as Hall. rewrite drop_ge in Hqd by (unfold zlen in *; lia).
  split; [|split; [|split; [by eexists|done]]].
  - assert ((capacity <$> st'.(queues)) !! k = Some (capacity q)) as Hc by (by rewrite Hcaps, list_lookup_fmap, Hq).
    rewrite list_lookup_fmap in Hc. destruct (st'.(queues) !! k) as [q'|] eqn:Hq'; [|done]. injection Hc as Hc.
    exists q'. split; [done|]. split; [eapply queues_ok_lookup; [apply (rc_queues _ _ Hst2)|done]|]. split; [done|].
    unfold queued in Hqd. apply concat_nil_Forall in Hqd. rewrite Forall_fmap in Hqd.
    exact (Forall_lookup_1 _ _ _ _ Hqd Hq').
  - intros a Ha. exists l, l', fl. split; [apply (rc_chain _ _ Hst)|]. split; [apply (rc_chain _ _ Hst2)|]. split; [done|].
    assert (a ∈ gathered st (limit_of st) l) as Hin.
    { unfold gathered. apply elem_of_app. right. rewrite take_ge by (unfold zlen in *; lia).
      unfold queued. apply list_elem_of_In, in_concat. exists (contents q).
      rewrite <- !list_elem_of_In. split; [|done]. apply list_elem_of_fmap. exists q. split; [done|].
      by eapply list_elem_of_lookup_2. }
    split; [done|]. split.
    + intros Hret Hu. apply occ_pos. rewrite D1; [by apply occ_pos|]. intros Hm. by apply Hu, Hm.
    + split; [intros Hret Hu; by apply D2|]. intros b Hn Hb Hlt. apply (D6 a b); [|done|done].
      rewrite (proj2 (occ_0 fl a) Hn). by apply occ_pos.
Qed.

(** ** What is true throughout a call

    [l] is what was on the queue after the push, [n] its capacity, [fr] what
    had been freed. *)
Record collect_inv (l : list Z) (n : Z) (fr : list Z) c : Prop := {
  ci_queue : ∃ q, c.(c_state).(queues) !! k = Some q ∧ queue_wf q ∧ capacity q = n ∧
    contents q = match c.(rounds) with [] => l | _ => [] end;
  ci_first r : head c.(rounds) = Some r → (∀ a, a ∈ l → disposed_of r a) ∧ r.(rc_after).1.(freed) `prefix_of` c.(c_state).(freed);
  ci_freed : fr `prefix_of` c.(c_state).(freed) ∧ (c.(rounds) = [] → c.(c_state).(freed) = fr);
  ci_room : c.(pc) = Returned → own_is_full k c.(c_state) = Ret 0;
}.

Section invariant.
Context (l : list Z) (n : Z) (fr : list Z) (Hn : 2 <= n).

Lemma empty_room st q : st.(queues) !! k = Some q → queue_wf q → capacity q = n → contents q = [] →
  own_is_full k st = Ret 0.
Proof.
  intros Hq Hwf Hcap Hc. rewrite (own_is_full_eq st q Hq Hwf), Hc, Hcap. change (zlen []) with 0.
  by replace (0 =? n - 1) with false by lia.
Qed.

Lemma collect_inv_reclaim p st m h h' rs r :
  collect_inv l n fr (Build_collecting AS p st m h rs) → r.(rc_before) = (st, m) → reclaims r →
  own_is_full k r.(rc_after).1 = Ret 0 ∧
  ∀ p', collect_inv l n fr (Build_collecting AS p' r.(rc_after).1 r.(rc_after).2 h' (rs ++ [r])).
Proof.
  intros [(q & Hq & Hwf & Hcap & Hc) Hfirst [Hfr Hsame] _] Hb Hr. cbn [c_state rounds] in *.
  destruct (reclaims_queue r q Hr) as ((q' & Hq' & Hwf' & Hcap' & Hc') & Hdisp & (fl & Hfl) & _); [by rewrite Hb|].
  rewrite Hb in Hfl. cbn [fst] in Hfl.
  assert (own_is_full k r.(rc_after).1 = Ret 0) as Hroom by (apply (empty_room _ q'); [done|done|lia|done]).
  split; [done|]. intros p'. split; cbn [c_state rounds pc].
  - exists q'. split; [done|]. split; [done|]. split; [lia|]. rewrite Hc'. by destruct rs.
  - intros r0. destruct rs as [|r1 rs]; cbn [app head].
    + intros [= <-]. split; [|done]. intros a Ha. apply Hdisp. by rewrite Hc.
    + intros [= <-]. destruct (Hfirst r1 eq_refl) as [H1 H2]. split; [done|]. rewrite Hfl. by apply prefix_app_r.
  - split; [rewrite Hfl; by apply prefix_app_r|]. by destruct rs.
  - done.
Qed.

Lemma collect_inv_step lab c c' : collect_inv l n fr c → collect_step lab c c' → collect_inv l n fr c'.
Proof.
  intros Hc Hs. destruct Hs as [st m h rs x Hf Hx|st m h rs Hf|st m h rs x m' Hrun Hx|st m h rs m' Hrun|
    st m h rs r Hme Hts Hb Hr|p st m h rs m' Hg|p st m h rs j ptr st' Hj Hp|p st m h rs t x m' Ht Hrun Hx|
    p st m t rs r Ht Hby Hperm Hb Hr].
  1-4,6,8: destruct Hc; split; try done; cbn; by try intros [=].
  - by apply (collect_inv_reclaim Holding st m h None rs r).
  - destruct (other_push_same j ptr st st' Hj Hp) as [Eq Ef].
    destruct Hc as [H1 H2 H3 H4]. split; cbn [c_state rounds pc] in *; rewrite ?Eq, ?Ef; try done.
    intros Hpc. specialize (H4 Hpc). unfold own_is_full in *. by rewrite Eq.
  - by apply (collect_inv_reclaim p st m (Some t) None rs r).
Qed.

Lemma collect_inv_run c ls c' : collect_inv l n fr c → collect_run c ls c' → collect_inv l n fr c'.
Proof. intros Hc Hr. induction Hr; [done|]. eapply collect_inv_step; [|done]. by apply IHHr. Qed.
End invariant.

(** The call starts with the pointer on the queue. *)
Lemma collect_call ptr st m h q : ptr ≠ 0 →
  st.(queues) !! k = Some q → queue_wf q → own_is_full k st = Ret 0 → idx_head q + 1 + capacity q < 2 ^ 64 →
  ∃ st1, threadscan_collect k ptr st m h = Ret (Build_collecting AS Testing st1 m h []) ∧ own_push k ptr st = Ret st1 ∧
    collect_inv (contents q ++ [ptr]) (capacity q) st.(freed) (Build_collecting AS Testing st1 m h []).
Proof.
  intros Hptr Hq Hwf Hroom Hidx.
  destruct (own_push_run ptr st q Hq Hwf Hroom Hidx) as (q1 & Hrun & Hwf1 & Hcap1 & Hc1). eexists.
  unfold threadscan_collect. replace (ptr =? 0) with false by lia. rewrite Hrun. split; [done|]. split; [done|].
  split; cbn [c_state rounds pc]; try done. exists q1. split; [|done].
  apply list_lookup_insert_eq. by eapply lookup_lt_Some.
Qed.

(** ** How long a call takes *)

(** The steps of the thread itself, and those in which it yielded. *)
Definition own_steps (ls : list collect_label) : nat :=
  length (List.filter (λ l, match l with other => false | _ => true end) ls).
Definition yields (ls : list collect_label) : nat :=
  length (List.filter (λ l, match l with yield => true | _ => false end) ls).

(** An upper bound of the steps the thread has left if it does not yield. *)
Definition steps_left c : nat :=
  match c.(pc) with
  | Testing => match own_is_full k c.(c_state) with Ret 0 => 1 | _ => 4 end
  | Trying => 3
  | Holding => 2
  | Returned => 0
  end.

Lemma steps_left_Testing st m h rs : (1 ≤ steps_left (Build_collecting AS Testing st m h rs) ≤ 4)%nat.
Proof. unfold steps_left. cbn. repeat case_match; lia. Qed.

Lemma steps_bounded l n fr c ls c' : 2 <= n → collect_inv l n fr c → collect_run c ls c' →
  (own_steps ls + steps_left c' ≤ 2 * yields ls + steps_left c)%nat.
Proof.
  intros Hn Hc Hr. induction Hr as [c|c ls c1 lab c2 Hr IH Hs]; [unfold own_steps, yields; cbn; lia|].
  specialize (IH Hc). pose proof (collect_inv_run l n fr Hn _ _ _ Hc Hr) as Hc1. clear Hr.
  unfold own_steps, yields in *. rewrite !List.filter_app, !length_app.
  destruct Hs as [st m h rs x Hf Hx|st m h rs Hf|st m h rs x m' Hrun Hx|st m h rs m' Hrun|
    st m h rs r Hme Hts Hb Hr|p st m h rs m' Hg|p st m h rs j ptr st' Hj Hp|p st m h rs t x m' Ht Hrun Hx|
    p st m t rs r Ht Hby Hperm Hb Hr]; cbn [List.filter length].
  - revert IH. unfold steps_left. cbn. rewrite Hf. destruct x; [done|..]; lia.
  - revert IH. unfold steps_left. cbn. rewrite Hf. lia.
  - revert IH. unfold steps_left. cbn. lia.
  - pose proof (steps_left_Testing st m' h rs).
    change (steps_left (Build_collecting AS Trying st m h rs)) with 3%nat in IH. lia.
  - destruct (collect_inv_reclaim l n fr Hn _ _ _ _ None _ _ Hc1 Hb Hr) as [Hroom _].
    revert IH. unfold steps_left. cbn. rewrite Hroom. lia.
  - revert IH. unfold steps_left. cbn. lia.
  - destruct (other_push_same j ptr st st' Hj Hp) as [Eq _]. revert IH. unfold steps_left, own_is_full. cbn. rewrite Eq. lia.
  - revert IH. unfold steps_left. cbn. lia.
  - destruct (collect_inv_reclaim l n fr Hn _ _ _ _ None _ _ Hc1 Hb Hr) as [Hroom _].
    revert IH. unfold steps_left. cbn. rewrite Hroom. destruct p; try lia. repeat case_match; lia.
Qed.

(** ** The lock *)

(** Who has the lock: the stamp is active while somebody has it, and the
    thread itself has it when it is about to reclaim. *)
Record lock_inv c : Prop := {
  li_stamp : ∃ x, c.(c_mem) !! v.(global_timestamp) = Some x ∧
    TIMESTAMP_IS_ACTIVE x = match c.(holder) with Some _ => true | None => false end;
  li_own : c.(pc) = Holding ↔ c.(holder) = Some me;
}.

Lemma lock_inv_step l n fr lab c c' :
  v.(global_timestamp) ≠ tl_lock v.(thread_list_) → me ∉ ts → collect_inv l n fr c →
  lock_inv c → collect_step lab c c' → lock_inv c'.
Proof.
  intros Hne Hme Hinv [(s & Hst & Ha) Ho] Hs. destruct Hs as [st m h rs x Hf Hx|st m h rs Hf|st m h rs x m' Hrun Hx|st m h rs m' Hrun|
    st m h rs r Hby Hts Hb Hr|p st m h rs m' Hg|p st m h rs j ptr st' Hj Hp|p st m h rs t x m' Ht Hrun Hx|
    p st m t rs r Ht Hby Hperm Hb Hr]; cbn [c_mem holder pc] in *.
  1,2: (split; cbn [c_mem holder pc]; [by eexists|]); rewrite <- Ho; by split; intros.
  - destruct (try_acquire_answer v m m' x Hne Hrun) as (y & Hy & [[-> _]|(_ & _ & z & Hz & Haz)]); [done|].
    split; cbn [c_mem holder pc]; [by exists z|done].
  - destruct (try_acquire_answer v m m' 0 Hne Hrun) as (y & Hy & [(_ & -> & _)|[[=] _]]).
    split; cbn [c_mem holder pc]; [by exists s|]. rewrite <- Ho. by split; intros.
  - destruct Hinv as [(q & Hq & _) _ _ _]. cbn in Hq.
    destruct (reclaims_queue r q Hr) as (_ & _ & _ & x & Hx & Hax); [by rewrite Hb|]. split; cbn [c_mem holder pc]; [by exists x|done].
  - split; cbn [c_mem holder pc]; [exists s; by rewrite Hg|done].
  - split; cbn [c_mem holder pc]; [by exists s|done].
  - destruct (try_acquire_answer v m m' x Hne Hrun) as (y & Hy & [[-> _]|(_ & Hfree & z & Hz & Haz)]); [done|].
    rewrite Hst in Hy. injection Hy as <-. rewrite Ha in Hfree. destruct h; [done|].
    split; cbn [c_mem holder pc]; [by exists z|]. rewrite Ho. split; [done|]. by intros [= ->].
  - destruct Hinv as [(q & Hq & _) _ _ _]. cbn in Hq.
    destruct (reclaims_queue r q Hr) as (_ & _ & _ & x & Hx & Hax); [by rewrite Hb|]. split; cbn [c_mem holder pc]; [by exists x|].
    rewrite Ho. split; [|done]. by intros [= ->].
Qed.

Lemma lock_inv_run l n fr c ls c' :
  2 <= n → v.(global_timestamp) ≠ tl_lock v.(thread_list_) → me ∉ ts → collect_inv l n fr c →
  lock_inv c → collect_run c ls c' → lock_inv c'.
Proof.
  intros Hn Hne Hme Hc Hl Hr. induction Hr as [|c ls c1 lab c2 Hr IH Hs]; [done|].
  eapply (lock_inv_step l n fr); [done|done|by eapply collect_inv_run|by apply IH|exact Hs].
Qed.

(** ** Progress *)

(** The thread is not stuck waiting for a thread that still helps with an
    older reclamation, and a reclamation it is about to do can be done. *)
Definition unobstructed c : Prop :=
  match c.(pc) with
  | Trying => c.(holder) = None → round_env v sigpending heap me ts c.(c_mem) ∧ lock_free v c.(c_mem)
  | Holding => reclaim_ready me ts c.(c_state) c.(c_mem) ∧ ∃ user, users_ok heap retired user ts c.(c_mem)
  | _ => True
  end.

Lemma holding_reclaims st m h rs :
  reclaim_ready me ts st m → (∃ user, users_ok heap retired user ts m) →
  ∃ r, r.(rc_before) = (st, m) ∧ reclaims r ∧
    collect_step own (Build_collecting AS Holding st m h rs)
      (Build_collecting AS Testing r.(rc_after).1 r.(rc_after).2 None (rs ++ [r])).
Proof.
  intros Hready [user Husers]. pose proof Hready as (Hkill & Henv & l & Hst & Hround).
  destruct (reclaim_completes _ _ _ _ _ _ _ _ _ _ _ Hst Hround Henv Hkill Husers) as (st' & m' & Hrec).
  set (r := Build_reclamation AS me ts (st, m) (st', m')).
  assert (reclaims r) as Hr by (split; [done|by exists user]). exists r. split; [done|]. split; [done|].
  by apply collect_reclaim.
Qed.

Lemma not_stuck l n fr c :
  2 <= n → collect_inv l n fr c → lock_inv c → c.(pc) ≠ Returned → unobstructed c →
  ∃ lab c', lab ≠ other ∧ collect_step lab c c'.
Proof.
  intros Hn [(q & Hq & Hwf & _ & _) _ _ _] [(s & Hs & Ha) _]. unfold unobstructed.
  destruct c as [p st m h rs]. cbn [pc c_state c_mem holder rounds] in *. intros Hpc Hfree. destruct p; [| | |done].
  - pose proof (own_is_full_eq st q Hq Hwf) as Hf. destruct (_ =? _).
    + exists own. eexists. split; [done|]. by eapply collect_full.
    + exists own. eexists. split; [done|]. by apply collect_room.
  - destruct h as [t|].
    + exists yield. eexists. split; [done|]. apply collect_yield. by eapply try_acquire_taken.
    + destruct (Hfree eq_refl) as [Henv Hlf]. destruct (try_acquire_run v sigpending heap me ts m Henv Hlf) as [m1 Hrun].
      exists own. eexists. split; [done|]. by eapply collect_acquire.
  - destruct Hfree as [Hready Huser]. destruct (holding_reclaims st m h rs Hready Huser) as (r & _ & _ & Hstep).
    exists own. by eexists.
Qed.

(** A thread yields only while another one has the lock. *)
Lemma yield_lock c c' : v.(global_timestamp) ≠ tl_lock v.(thread_list_) → lock_inv c → collect_step yield c c' →
  ∃ t, t ≠ me ∧ c.(holder) = Some t.
Proof.
  intros Hne [(s & Hs & Ha) Ho] Hstep. inversion Hstep as [| | |st m h rs m' Hrun| | | | |]; subst c c'. cbn [pc c_state c_mem holder rounds unobstructed] in *.
  destruct (try_acquire_answer v m m' 0 Hne Hrun) as (y & Hy & [(_ & _ & Hact)|[[=] _]]).
  rewrite Hs in Hy. injection Hy as <-. rewrite Ha in Hact. destruct h as [t|]; [|done].
  exists t. split; [|done]. intros ->. by discriminate (proj2 Ho eq_refl).
Qed.

Lemma collect_run_app c1 ls c2 ls' c3 : collect_run c1 ls c2 → collect_run c2 ls' c3 → collect_run c1 (ls ++ ls') c3.
Proof.
  intros H1 H2. revert H1. induction H2; intros H1; [by rewrite app_nil_r|]. rewrite app_assoc.
  eapply run_step; [by apply IHcollect_run|done].
Qed.

Lemma run_once lab c c' : collect_step lab c c' → collect_run c [lab] c'.
Proof. intros Hs. change [lab] with ([] ++ [lab]). eapply run_step; [apply run_start|done]. Qed.

(** Nobody else has the lock or still helps, and a round can be done. *)
Record alone c : Prop := {
  al_lock : ∀ t, c.(holder) = Some t → t = me;
  al_free : c.(holder) = None → lock_free v c.(c_mem);
  al_ready : reclaim_ready me ts c.(c_state) c.(c_mem) ∧ ∃ user, users_ok heap retired user ts c.(c_mem);
}.

(** The thread goes on by itself, without yielding. *)
Definition returns_alone c : Prop :=
  ∃ n c', collect_run c (replicate n own) c' ∧ c'.(pc) = Returned.

Lemma returns_alone_step c c' : collect_step own c c' → returns_alone c' → returns_alone c.
Proof.
  intros Hs (n & c2 & Hr & Hpc). exists (S n), c2. split; [|done].
  change (replicate (S n) own) with ([own] ++ replicate n own). eapply collect_run_app; [|done]. by apply run_once.
Qed.

Lemma room_returns st m h rs : own_is_full k st = Ret 0 → returns_alone (Build_collecting AS Testing st m h rs).
Proof. intros Hf. eapply returns_alone_step; [by apply collect_room|]. exists 0%nat. eexists. split; [apply run_start|done]. Qed.

Lemma holding_returns l n fr st m h rs :
  2 <= n → collect_inv l n fr (Build_collecting AS Holding st m h rs) →
  reclaim_ready me ts st m → (∃ user, users_ok heap retired user ts m) →
  returns_alone (Build_collecting AS Holding st m h rs).
Proof.
  intros Hn Hc Hready Huser. destruct (holding_reclaims st m h rs Hready Huser) as (r & Hb & Hr & Hstep).
  destruct (collect_inv_reclaim l n fr Hn _ _ _ _ None _ _ Hc Hb Hr) as [Hroom _].
  eapply returns_alone_step; [exact Hstep|]. by apply room_returns.
Qed.

Lemma reclaim_round_acquired st l m m1 x :
  reclaim_round st l m → round_env v sigpending heap me ts m →
  run (threadscan_thread_cleanup_try_acquire v) m = Ret (x, m1) → reclaim_round st l m1.
Proof.
  intros [H1 H2 H3 H4 H5 H6] Hm Hrun. split; try done. intros p a' Ha i Hi. specialize (H5 p a' Ha i Hi).
  assert (∀ b, is_Some (m !! b) → elt p i ≠ b) as Hne by (intros b [y Hy] <-; congruence).
  rewrite (acquired_other v m m1 x Hrun); [done|apply Hne|apply Hne].
  - apply (re_global _ _ _ _ _ _ Hm).
  - destruct (re_list _ _ _ _ _ _ Hm) as (tds & Hl & _). rewrite (tl_free _ _ _ Hl). by eexists.
Qed.

Lemma reclaim_ready_acquired st m m1 x :
  reclaim_ready me ts st m → run (threadscan_thread_cleanup_try_acquire v) m = Ret (x, m1) → reclaim_ready me ts st m1.
Proof.
  intros (Hk & Henv & l & Hst & Hr) Hrun. split; [done|]. split; [by eapply acquired_env|].
  exists l. split; [done|]. by eapply reclaim_round_acquired.
Qed.

Lemma trying_returns l n fr st m rs :
  2 <= n → collect_inv l n fr (Build_collecting AS Trying st m None rs) → lock_free v m →
  reclaim_ready me ts st m → (∃ user, users_ok heap retired user ts m) →
  returns_alone (Build_collecting AS Trying st m None rs).
Proof.
  intros Hn Hc Hlf Hready [user Huser]. pose proof Hready as (_ & Henv & _).
  destruct (try_acquire_run v sigpending heap me ts m Henv Hlf) as [m1 Hrun].
  assert (collect_step own (Build_collecting AS Trying st m None rs) (Build_collecting AS Holding st m1 (Some me) rs)) as Hs
    by by eapply collect_acquire.
  eapply returns_alone_step; [exact Hs|]. apply (holding_returns l n fr); [done|by eapply collect_inv_step|..].
  - by eapply reclaim_ready_acquired.
  - exists user. by eapply acquired_users.
Qed.

Lemma alone_returns l n fr c :
  2 <= n → collect_inv l n fr c → lock_inv c → alone c → returns_alone c.
Proof.
  intros Hn Hc [_ Ho] [Hlock Hfree [Hready Huser]]. pose proof Hc as [(q & Hq & Hwf & _) _ _ _].
  destruct c as [p st m h rs]. cbn [pc c_state c_mem holder rounds unobstructed] in *. destruct p.
  - pose proof (own_is_full_eq st q Hq Hwf) as Hf. destruct (_ =? _); [|by apply room_returns].
    assert (collect_step own (Build_collecting AS Testing st m h rs) (Build_collecting AS Trying st m h rs)) as Hs
      by by eapply collect_full.
    eapply returns_alone_step; [exact Hs|]. destruct h as [t|].
    { pose proof (Hlock t eq_refl) as ->. by discriminate (proj2 Ho eq_refl). }
    apply (trying_returns l n fr); auto. by eapply collect_inv_step.
  - destruct h as [t|]; [pose proof (Hlock t eq_refl) as ->; by discriminate (proj2 Ho eq_refl)|].
    apply (trying_returns l n fr); auto.
  - by apply (holding_returns l n fr).
  - exists 0%nat. eexists. split; [apply run_start|done].
Qed.
End collect.

(** C10. [threadscan_collect] of a pointer, called while the thread's queue has
    room, among threads that compute, collect, take the lock and reclaim as
    they like: when it returns the queue has room again (which is what the
    next call needs).  If there was no reclamation since the call, the pointer
    is at the end of the queue and nothing was freed.  Otherwise the queue is
    empty, and the first reclamation, whoever did it, gathered the pointer and
    all that was queued before it: what nobody referred to at its start was
    freed then, what somebody still refers to at its end was not (if it was
    collected only once), and what was not freed is kept for the next round if
    a smaller address was freed. *)
Theorem collect_spec `{Build} `{!Allocator AS} v pthread_kill sigpending heap retired me ts k
    (ptr : Z) (st : rstate AS) (m : mem) h (q : queue_t) c0 ls c :
  st.(queues) !! k = Some q → queue_wf q → 2 <= capacity q → own_is_full k st = Ret 0 →
  idx_head q + 1 + capacity q < 2 ^ 64 → ptr ≠ 0 →
  threadscan_collect k ptr st m h = Ret c0 →
  collect_run v pthread_kill sigpending heap retired me ts k c0 ls c → c.(pc) = Returned →
  own_is_full k c.(c_state) = Ret 0 ∧
  ∃ q', c.(c_state).(queues) !! k = Some q' ∧ queue_wf q' ∧ capacity q' = capacity q ∧
    match c.(rounds) with
    | [] => contents q' = contents q ++ [ptr] ∧ c.(c_state).(freed) = st.(freed)
    | r :: _ => contents q' = [] ∧ r.(rc_after).1.(freed) `prefix_of` c.(c_state).(freed) ∧
        ∀ a, a ∈ contents q ++ [ptr] → disposed_of retired r a
    end.
Proof.
  intros Hq Hwf Hcap Hroom Hidx Hptr Hcall Hrun Hpc.
  destruct (collect_call retired k ptr st m h q Hptr Hq Hwf Hroom Hidx) as (st1 & E & _ & Hinv).
  rewrite Hcall in E. injection E as ->.
  destruct (collect_inv_run v pthread_kill sigpending heap retired me ts k _ _ _ Hcap _ _ _ Hinv Hrun)
    as [(q' & Hq' & Hwf' & Hcap' & Hc') Hfirst [_ Hsame] Hend].
  split; [by apply Hend|]. exists q'. split; [done|]. split; [done|]. split; [done|].
  destruct (rounds c) as [|r rs]; [by split; [|apply Hsame]|]. destruct (Hfirst r eq_refl). done.
Qed.

(** C14. [threadscan_collect] returns.  In every run, whatever the other threads
    do, the thread takes at most two steps for each time it yields and four
    more; it yields only while another thread has the reclaimer's lock; before
    it has returned it can always take a step, unless it waits for a thread
    that still helps with an older reclamation or the round it is about to do
    cannot be done; and when nobody else has the lock it gets it, reclaims,
    finds room and returns without yielding. *)
Theorem collect_returns `{Build} `{!Allocator AS} v pthread_kill sigpending heap retired me ts k
    (ptr : Z) (st : rstate AS) (m : mem) h (q : queue_t) :
  v.(global_timestamp) ≠ tl_lock v.(thread_list_) → me ∉ ts →
  st.(queues) !! k = Some q → queue_wf q → 2 <= capacity q → own_is_full k st = Ret 0 →
  idx_head q + 1 + capacity q < 2 ^ 64 → ptr ≠ 0 →
  (∃ x, m !! v.(global_timestamp) = Some x ∧ TIMESTAMP_IS_ACTIVE x = match h with Some _ => true | None => false end) →
  h ≠ Some me →
  ∃ c0, threadscan_collect k ptr st m h = Ret c0 ∧ ∀ ls c,
    collect_run v pthread_kill sigpending heap retired me ts k c0 ls c →
    (own_steps ls ≤ 2 * yields ls + 4)%nat ∧
    (∀ c', collect_step v pthread_kill sigpending heap retired me ts k yield c c' → ∃ t, t ≠ me ∧ c.(holder) = Some t) ∧
    (c.(pc) ≠ Returned → unobstructed v pthread_kill sigpending heap retired me ts c →
       ∃ lab c', lab ≠ other ∧ collect_step v pthread_kill sigpending heap retired me ts k lab c c') ∧
    (alone v pthread_kill sigpending heap retired me ts c →
       returns_alone v pthread_kill sigpending heap retired me ts k c).
Proof.
  intros Hne Hme Hq Hwf Hcap Hroom Hidx Hptr Hstamp Hh.
  destruct (collect_call retired k ptr st m h q Hptr Hq Hwf Hroom Hidx) as (st1 & Hcall & _ & Hinv).
  eexists. split; [exact Hcall|]. intros ls c Hrun.
  pose proof (collect_inv_run v pthread_kill sigpending heap retired me ts k _ _ _ Hcap _ _ _ Hinv Hrun) as Hc.
  assert (lock_inv v me c) as Hl.
  { eapply (lock_inv_run v pthread_kill sigpending heap retired me ts k); [exact Hcap|done|done|exact Hinv| |exact Hrun].
    split; [done|]. cbn [pc holder]. split; [done|]. by intros ->. }
  split; [|split; [|split]].
  - pose proof (steps_bounded v pthread_kill sigpending heap retired me ts k _ _ _ _ _ _ Hcap Hinv Hrun).
    pose proof (steps_left_Testing k st1 m h []). lia.
  - intros c' Hs. by eapply yield_lock.
  - intros Hpc Hfree. by eapply not_stuck.
  - intros Hal. by eapply alone_returns.
Qed.

(** One more pointer fills the queue. *)
Definition ex_collect_state : rstate bump_state :=
  set_queues [mk_queue [0x3000; 0x1000; 0; 0] 4 2 4] ex_state.

(** A thread of the example can reclaim. *)
Lemma ex_collect_ready : reclaim_ready (H := debug_build) ex_vars ex_kill ex_sigpending ex_heap ex_me [ex_other] ex_state ex_env_mem.
Proof.
  split; [exact ex_kill_delivers|]. split; [exact ex_round_env|]. exists [].
  split; [exact ex_reclaim_state|exact ex_reclaim_round].
Qed.

(** The hypotheses of [collect_spec]. *)
Lemma ex_collect_wf : queue_wf (mk_queue [0x3000; 0x1000; 0; 0] 4 2 4).
Proof. split; [by exists 2|]. split; [done|]. cbn. lia. Qed.

Lemma ex_collect_capacity : 2 <= capacity (mk_queue [0x3000; 0x1000; 0; 0] 4 2 4).
Proof. done. Qed.

Lemma ex_collect_index : idx_head (mk_queue [0x3000; 0x1000; 0; 0] 4 2 4) + 1 +
  capacity (mk_queue [0x3000; 0x1000; 0; 0] 4 2 4) < 2 ^ 64.
Proof. done. Qed.

Lemma ex_collect_nonnull : 0x2000 ≠ 0.
Proof. done. Qed.

Lemma ex_collect_room : own_is_full (H := debug_build) 0 ex_collect_state = Ret 0.
Proof. vm_compute. reflexivity. Qed.

Definition ex_calling : collecting bump_state := Build_collecting _ Testing ex_state ex_env_mem None [].

Lemma ex_collect_call : threadscan_collect (H := debug_build) 0 0x2000 ex_collect_state ex_env_mem None = Ret ex_calling.
Proof. vm_compute. reflexivity. Qed.

#[local] Abbreviation ex_run := (collect_run (H := debug_build) ex_vars ex_kill ex_sigpending ex_heap ex_retired ex_me [ex_other] 0).
#[local] Abbreviation ex_step := (collect_step (H := debug_build) ex_vars ex_kill ex_sigpending ex_heap ex_retired ex_me [ex_other] 0).

Lemma ex_collect_tests : ex_step own ex_calling (Build_collecting _ Trying ex_state ex_env_mem None []).
Proof. apply (collect_full _ _ _ _ _ _ _ _ _ _ _ _ 1); [vm_compute; reflexivity|done]. Qed.

(** The thread finds its queue full, gets the lock and reclaims; 0x1000 is
    freed. *)
Lemma ex_collect_run : ∃ r st' m',
  ex_run ex_calling [own; own; own; own] (Build_collecting _ Returned st' m' None [r]) ∧ st'.(freed) = [0x1000].
Proof.
  set (acq := run (threadscan_thread_cleanup_try_acquire (H := debug_build) ex_vars) ex_env_mem).
  set (o := '(_, m1) ← acq; of_option (reclaim_under (H := debug_build) ex_schedule ex_vars ex_kill ex_sigpending
              ex_user ex_me [ex_other] ex_state m1)).
  assert ((x ← acq; Ret x.1) = Ret 1) as Hacq by (vm_compute; reflexivity).
  assert ((x ← o; r ← own_is_full (H := debug_build) 0 x.1; Ret (r, freed x.1)) = Ret (0, [0x1000])) as Ho by (vm_compute; reflexivity).
  apply outcome_bind_inv in Hacq as ([x m1] & Eacq & [= ->]). unfold o in Ho. rewrite Eacq in Ho.
  cbn [mbind outcome_bind] in Ho. apply outcome_bind_inv in Ho as ([st' m'] & Hrec & Ho).
  apply outcome_bind_inv in Ho as (x & Hfull & [= -> Hfr]). cbn [fst] in Hfull, Hfr.
  assert (reclaim_under (H := debug_build) ex_schedule ex_vars ex_kill ex_sigpending ex_user ex_me [ex_other] ex_state m1 = Some (st', m')) as Hu.
  { destruct (reclaim_under _ _ _ _ _ _ _ _ _) as [y|]; [|done]. by injection Hrec as ->. }
  apply reclaim_under_sound in Hu.
  exists (Build_reclamation _ ex_me [ex_other] (ex_state, m1) (st', m')), st', m'. split; [|exact Hfr].
  change [own; own; own; own] with ([own] ++ [own] ++ [own] ++ [own]).
  eapply collect_run_app; [apply run_once, ex_collect_tests|].
  eapply collect_run_app; [apply run_once; apply (collect_acquire _ _ _ _ _ _ _ _ _ _ _ _ 1 m1); [exact Eacq|discriminate]|].
  eapply collect_run_app; apply run_once.
  - apply (collect_reclaim _ _ _ _ _ _ _ _ _ m1 _ [] (Build_reclamation _ ex_me [ex_other] (ex_state, m1) (st', m')) eq_refl eq_refl eq_refl).
    split; [eapply reclaim_ready_acquired; [exact ex_collect_ready|exact Eacq]|]. exists ex_user. split; [|exact Hu].
    eapply acquired_users; [exact ex_round_env|exact Eacq|exact ex_users].
  - apply collect_room. exact Hfull.
Qed.

Lemma collect_spec_witness :
  ∃ r st' m', ex_run ex_calling [own; own; own; own] (Build_collecting _ Returned st' m' None [r]) ∧
    st'.(freed) = [0x1000] ∧ own_is_full (H := debug_build) 0 st' = Ret 0 ∧
    ∀ a, a ∈ [0x3000; 0x1000; 0x2000] → disposed_of ex_retired r a.
Proof.
  destruct ex_collect_run as (r & st' & m' & Hrun & Hfr). exists r, st', m'. split; [exact Hrun|]. split; [exact Hfr|].
  destruct (collect_spec (H := debug_build) ex_vars ex_kill ex_sigpending ex_heap ex_retired ex_me [ex_other] 0 0x2000
    ex_collect_state ex_env_mem None (mk_queue [0x3000; 0x1000; 0; 0] 4 2 4) ex_calling [own; own; own; own]
    (Build_collecting _ Returned st' m' None [r])) as (Hroom & q' & _ & _ & _ & _ & _ & Hdisp).
  - exact eq_refl.
  - exact ex_collect_wf.
  - exact ex_collect_capacity.
  - exact ex_collect_room.
  - exact ex_collect_index.
  - exact ex_collect_nonnull.
  - exact ex_collect_call.
  - exact Hrun.
  - exact eq_refl.
  - split; [exact Hroom|exact Hdisp].
Defined.

Lemma ex_lock_available : lock_free ex_vars ex_env_mem.
Proof.
  split; [by exists 2|]. intros tds td Hl. rewrite (thread_list_det _ _ _ _ Hl ex_env_list). intros Htd.
  exists 0. repeat (apply elem_of_cons in Htd as [->|Htd]; [by vm_compute|]). by apply elem_of_nil in Htd.
Qed.

(** The other thread gets the lock before this one tries. *)
Lemma ex_overtaken : ∃ m1,
  ex_run ex_calling [own; other] (Build_collecting _ Trying ex_state m1 (Some ex_other) []).
Proof.
  destruct (try_acquire_run (H := debug_build) ex_vars ex_sigpending ex_heap ex_me [ex_other] ex_env_mem ex_round_env ex_lock_available)
    as [m1 Hacq].
  exists m1. change [own; other] with ([own] ++ [other]). eapply collect_run_app; apply run_once; [exact ex_collect_tests|].
  apply (other_acquires _ _ _ _ _ _ _ _ _ _ _ _ _ _ 1); [by left|exact Hacq|done].
Qed.

Lemma ex_alone : alone (H := debug_build) ex_vars ex_kill ex_sigpending ex_heap ex_retired ex_me [ex_other] ex_calling.
Proof.
  split; [done|intros _; exact ex_lock_available|]. split; [exact ex_collect_ready|]. exists ex_user. exact ex_users.
Qed.

Lemma ex_calling_stamp : ∃ x, ex_env_mem !! ex_vars.(global_timestamp) = Some x ∧ TIMESTAMP_IS_ACTIVE x = false.
Proof. by exists 2. Qed.

Lemma ex_me_not_other : ex_me ∉ [ex_other].
Proof. by intros ?%list_elem_of_singleton. Qed.

(** Left alone the thread returns; overtaken by the other one it yields. *)
Lemma collect_returns_witness :
  returns_alone (H := debug_build) ex_vars ex_kill ex_sigpending ex_heap ex_retired ex_me [ex_other] 0 ex_calling ∧
  ∃ m1, ex_run ex_calling [own; other] (Build_collecting _ Trying ex_state m1 (Some ex_other) []) ∧
    ∃ lab c', lab ≠ other ∧ ex_step lab (Build_collecting _ Trying ex_state m1 (Some ex_other) []) c'.
Proof.
  destruct (collect_returns (H := debug_build) ex_vars ex_kill ex_sigpending ex_heap ex_retired ex_me [ex_other] 0 0x2000
    ex_collect_state ex_env_mem None (mk_queue [0x3000; 0x1000; 0; 0] 4 2 4) ltac:(discriminate) ex_me_not_other eq_refl ex_collect_wf
    ex_collect_capacity ex_collect_room ex_collect_index ex_collect_nonnull ex_calling_stamp ltac:(discriminate)) as (c0 & Hcall & Hall).
  rewrite ex_collect_call in Hcall. injection Hcall as <-. split.
  - apply (Hall [] ex_calling (run_start _ _ _ _ _ _ _ _ _)). exact ex_alone.
  - destruct ex_overtaken as (m1 & Hrun). exists m1. split; [exact Hrun|].
    apply (Hall _ _ Hrun); [discriminate|]. intros [=].
Defined.

(** ** Registering a local block *)
Section local_block.
Context (td addr size : Z) (m : mem).
Context (Hlow : is_Some (m !! td_local_block_low td)) (Hhigh : is_Some (m !! td_local_block_high td)).

Definition after_high : mem := <[td_local_block_high td := u64 (addr + size)]> m.
Definition after_low : mem := <[td_local_block_low td := addr]> after_high.

(** The states a signal handler can see. *)
Definition registering (c : list (prog Z unit) * mem) : Prop :=
  c = ([threadscan_register_local_block td addr size], m) ∨
  c = ([wr (td_local_block_low td) addr], after_high) ∨
  c = ([Stop (Ret tt)], after_low).

Lemma registering_step c c' : registering c → pstep c c' → registering c'.
Proof.
  intros Hc Hs. destruct Hs as
    [ps mm i l k w Hi Hv|ps mm i l w k m' Hi Hv|ps mm i l f k w w' m' Hi Hv Hf Hw|ps mm i l g k w Hi Hv Hg];
    destruct Hc as [[= -> ->]|[[= -> ->]|[= -> ->]]]; destruct i as [|i]; simpl in Hi; try done;
    injection Hi as <- <- <-; simpl in Hv.
  - right; left. destruct Hhigh as [x Hx]. rewrite Hx in Hv. by injection Hv as <-.
  - right; right. unfold after_high in Hv. rewrite lookup_insert_ne in Hv by (unfold td_local_block_low, td_local_block_high; lia).
    destruct Hlow as [x Hx]. rewrite Hx in Hv. by injection Hv as <-.
Qed.

Lemma registering_rtc c : rtc pstep ([threadscan_register_local_block td addr size], m) c → registering c.
Proof.
  intros Hr. remember ([threadscan_register_local_block td addr size], m) as c0 eqn:E.
  assert (registering c0) as H0 by (by left). clear E.
  induction Hr as [|c1 c2 c3 Hs _ IH]; [done|]. apply IH. by eapply registering_step.
Qed.
End local_block.

(** C28. What a signal handler that interrupts
    [threadscan_register_local_block] anywhere finds as the bounds of the
    local block: the old ones, the old [low] with the new [high], or the new
    ones.  When no block was registered before, it finds none or the new one;
    when there was one, the middle state is a range that was never
    registered. *)
Theorem register_local_block_views (td addr size low0 high0 : Z) (m m' : mem) (ps : list (prog Z unit)) :
  m !! td_local_block_low td = Some low0 → m !! td_local_block_high td = Some high0 →
  rtc pstep ([threadscan_register_local_block td addr size], m) (ps, m') →
  let view := (word m' (td_local_block_low td), word m' (td_local_block_high td)) in
  let registered := (addr, u64 (addr + size)) in
  (view = (low0, high0) ∨ view = (low0, u64 (addr + size)) ∨ view = registered) ∧
  (low0 = 0 → 0 < view.1 → view = registered) ∧
  (Forall finished ps → view = registered).
Proof.
  intros Hl Hh Hr view registered.
  assert (td_local_block_low td ≠ td_local_block_high td) as Hne by (unfold td_local_block_low, td_local_block_high; lia).
  destruct (registering_rtc td addr size m (mk_is_Some _ _ Hl) (mk_is_Some _ _ Hh) _ Hr) as [[= -> ->]|[[= -> ->]|[= -> ->]]];
    unfold view, word, after_low, after_high; lookup_simp ltac:(done); rewrite ?Hl, ?Hh; cbn [from_option id fst].
  - split; [by left|]. split; [intros; lia|]. by intros [[? ?] _]%Forall_cons.
  - split; [by right; left|]. split; [intros; lia|]. by intros [[? ?] _]%Forall_cons.
  - split; [by right; right|done].
Qed.

(** The second registration of a block, interrupted half way. *)
Lemma register_local_block_views_witness :
  let m : mem := {[td_local_block_low 0x1000 := 0x2000; td_local_block_high 0x1000 := 0x2100]} in
  let c := psched [0%nat] ([threadscan_register_local_block 0x1000 0x8000 0x80], m) in
  let view := (word c.2 (td_local_block_low 0x1000), word c.2 (td_local_block_high 0x1000)) in
  view = (0x2000, 0x8080) ∧
  (view = (0x2000, 0x2100) ∨ view = (0x2000, 0x8080) ∨ view = (0x8000, 0x8080)).
Proof.
  intros m c view. split; [vm_compute; reflexivity|].
  apply (register_local_block_views 0x1000 0x8000 0x80 0x2000 0x2100 m c.2 c.1 eq_refl eq_refl).
  rewrite <- surjective_pairing. apply psched_rtc.
Defined.
