(* ===== verification/Zeros.v ===== *)
(** * threadscan.c: a zero among the addresses

    [handle_unreferenced_ptrs] overwrites the pointers it retains with zeros
    as long as it has not seen one to free (see [kept]), so a zero can be
    among the addresses of the next round.  In a debug build that round never
    ends: [assert_monotonicity] stops the first thread that scans. *)

From S2P Require Import Prelude Conc Ghost Mem Env Queue Sort ThreadList Thread Search Round AllocIface Buffers Reclaim Collect.

(** ** Programs that leave a word alone

    [keeps a x Q p]: as long as the word [a] is [x], [p] does not change it,
    and its results are in [Q]. *)
Fixpoint keeps {A} (a x : Z) (Q : A → Prop) (p : prog Z A) : Prop :=
  match p with
  | Stop o => ∀ r, o = Ret r → Q r
  | Rd l k => ∀ y, (l = a → y = x) → keeps a x Q (k y)
  | Wr l y k => (l = a → y = x) ∧ keeps a x Q k
  | Rmw l f k => ∀ y z, (l = a → y = x) → f y = Some z → (l = a → z = x) ∧ keeps a x Q (k y)
  | Await l c k => ∀ y, (l = a → y = x) → keeps a x Q (k y)
  end.

Section keeps.
Context (a x : Z).

Lemma keeps_bind {A B} (P : A → Prop) (Q : B → Prop) (p : prog Z A) (f : A → prog Z B) :
  keeps a x P p → (∀ r, P r → keeps a x Q (f r)) → keeps a x Q (p ≫= f).
Proof.
  intros Hp Hf. unfold mbind, prog_mbind. induction p as [o|l k IH|l y k IH|l g k IH|l c k IH]; simpl in *.
  - destruct o; simpl; try done. by apply Hf, Hp.
  - auto.
  - destruct Hp. auto.
  - intros y z Hy Hz. destruct (Hp y z Hy Hz). auto.
  - auto.
Qed.

Lemma keeps_writes {A} (S : Z → Prop) (p : prog Z A) : writes_in S p → ¬ S a → keeps a x (λ _, True) p.
Proof.
  intros Hp Ha. assert (∀ l : Z, S l → l ≠ a) as Hne by (by intros l Hl ->).
  induction p as [o|l k IH|l y k IH|l g k IH|l c k IH]; simpl in *.
  - done.
  - auto.
  - destruct Hp as [Hl Hk]. split; [by intros ->|auto].
  - destruct Hp as [Hl Hk]. intros y z _ _. split; [by intros ->|auto].
  - auto.
Qed.

(** The first step of a program decides. *)
Lemma keeps_seq {A B} (S : Z → Prop) (Q : B → Prop) (p : prog Z A) (f : A → prog Z B) :
  writes_in S p → ¬ S a → (∀ r, keeps a x Q (f r)) → keeps a x Q (p ≫= f).
Proof. intros Hp Ha Hf. eapply keeps_bind; [by eapply keeps_writes|auto]. Qed.

(** A pool of such programs. *)
Lemma keeps_step {A} (Q : A → Prop) (c c' : list (prog Z A) * mem) :
  pstep c c' → Forall (keeps a x Q) c.1 → c.2 !! a = Some x → Forall (keeps a x Q) c'.1 ∧ c'.2 !! a = Some x.
Proof.
  intros Hs Hp Hm.
  assert (∀ (m : mem) l y, m !! a = Some x → sread m l = Ret y → l = a → y = x) as Hread.
  { intros m l y Ha Hr ->. simpl in Hr. rewrite Ha in Hr. by injection Hr. }
  assert (∀ (m m' : mem) l y, m !! a = Some x → swrite m l y = Ret m' → (l = a → y = x) → m' !! a = Some x) as Hwrite.
  { intros m m' l y Ha Hw Hy. simpl in Hw. destruct (m !! l); [|done]. injection Hw as <-.
    destruct (decide (l = a)) as [->|Hne]; [by rewrite lookup_insert_eq, Hy|by rewrite lookup_insert_ne]. }
  destruct Hs as
    [ps m i l k y Hi Hy|ps m i l y k m' Hi Hw|ps m i l f k y z m' Hi Hy Hf Hw|ps m i l g k y Hi Hy Hc]; cbn [fst snd] in *;
    pose proof (Forall_lookup_1 _ _ _ _ Hp Hi) as Ht; simpl in Ht.
  - split; [|done]. apply Forall_insert; [done|]. eapply Ht, Hread; done.
  - destruct Ht as [Hy Hk]. split; [by apply Forall_insert|by eapply Hwrite].
  - destruct (Ht y z) as [Hz Hk]; [by eapply Hread|done|]. split; [by apply Forall_insert|by eapply Hwrite].
  - split; [|done]. apply Forall_insert; [done|]. eapply Ht, Hread; done.
Qed.

Lemma keeps_rtc {A} (Q : A → Prop) (c c' : list (prog Z A) * mem) :
  rtc pstep c c' → Forall (keeps a x Q) c.1 → c.2 !! a = Some x → Forall (keeps a x Q) c'.1 ∧ c'.2 !! a = Some x.
Proof.
  induction 1 as [|c c1 c2 Hs _ IH]; [done|]. intros Hp Hm. destruct (keeps_step Q _ _ Hs Hp Hm). auto.
Qed.
End keeps.

(** ** The programs of a round, when the first address is zero *)
Section round.
Context `{Build} (Hdebug : debug = true).
Context (v : globals_t) (g : threadscan_data_t) (pthread_kill : Z → Z → prog Z Z) (sigpending : Z → Z).
Context (Hn : 0 < g.(n_addrs)).
Abbreviation first := (elt g.(buf_addrs) 0).

Lemma zero_stops_assert {A} (Q : A → Prop) (k : unit → prog Z A) :
  keeps first 0 Q (assert_monotonicity g.(buf_addrs) g.(n_addrs) ≫= k).
Proof.
  unfold assert_monotonicity. rewrite Hdebug. unfold pfor_range.
  replace (Z.to_nat (g.(n_addrs) - 0)) with (S (Z.to_nat (g.(n_addrs) - 1))) by lia.
  intros y Hy. rewrite (Hy eq_refl). unfold threadscan_fatal. rewrite Hdebug. by intros r.
Qed.

Lemma zero_stops_search {A} (Q : A → Prop) r (k : unit → prog Z A) : keeps first 0 Q (search_range g r ≫= k).
Proof.
  apply (keeps_bind _ _ (λ _, False)); [|done]. apply zero_stops_assert.
Qed.

(** The same for a run of one thread. *)
Lemma zero_aborts_search {A} r (k : unit → prog Z A) (m : mem) :
  m !! first = Some 0 → run (search_range g r ≫= k) m = Aborted.
Proof.
  intros H0. unfold search_range, assert_monotonicity. rewrite Hdebug. unfold pfor_range.
  replace (Z.to_nat (g.(n_addrs) - 0)) with (S (Z.to_nat (g.(n_addrs) - 1))) by lia.
  cbn [pfor_n]. do 4 rewrite run_bind. rewrite (run_bind_rd _ _ _ _ H0). unfold threadscan_fatal. by rewrite Hdebug.
Qed.

(** [mapped]: the words there were before the round. *)
Context (mapped : Z → Prop) (Hfirst : ¬ mapped first).
Context (Hkill : ∀ self sig, writes_in mapped (pthread_kill self sig)).

Lemma writes_assert b : writes_in mapped (lift (L := Z) (c_assert b)).
Proof. done. Qed.

Lemma signal_writes me : mapped (tl_lock v.(thread_list_)) →
  writes_in mapped (threadscan_thread_signal_all_but_me v pthread_kill me SIGTHREADSCAN).
Proof.
  intros Hl. apply writes_in_bind; [done|]. intros _. apply foreach_writes; [done|]. intros td s.
  apply writes_in_bind; [done|]. intros _. apply writes_in_bind; [case_match; [by intros ?|done]|]. intros act.
  case_match; [|done]. intros self. apply writes_in_bind; [apply Hkill|]. intros ret. by repeat case_match.
Qed.

Lemma do_reclaim_keeps (me : thread) : mapped v.(self_stacks_searched) → mapped (tl_lock v.(thread_list_)) →
  keeps first 0 (λ _, False) (do_reclaim v g pthread_kill me.(th_td) me.(th_rsp)).
Proof.
  intros Hc Hl. unfold do_reclaim, threadscan_thread_user_stack.
  eapply (keeps_seq _ _ mapped); [by intros ??|done|]. intros us.
  eapply (keeps_seq _ _ mapped); [done|done|]. intros _.
  eapply (keeps_seq _ _ mapped); [by apply signal_writes|done|]. intros n. apply zero_stops_search.
Qed.

Lemma raise_flag_writes td : mapped (td_local_timestamp td) → mapped (td_times_without_update td) →
  writes_in mapped (threadscan_thread_cleanup_raise_flag v td).
Proof.
  intros Hs Ht. apply writes_in_bind; [done|]. intros _ old. split; [done|]. intros curr. split; [done|].
  case_match; [done|]. case_match; [|done]. apply writes_in_bind; [by intros ?|]. intros times. case_match; [|done].
  by apply writes_in_bind.
Qed.

Lemma bystander_keeps user (t : thread) : writes_in mapped (user t) →
  mapped (td_local_timestamp t.(th_td)) → mapped (td_times_without_update t.(th_td)) →
  keeps first 0 (λ _, False) (bystander v g sigpending user t).
Proof.
  intros Hu Hs Ht. unfold bystander, signal_handler, search_self_stack, threadscan_thread_user_stack.
  eapply (keeps_seq _ _ mapped); [exact Hu|done|]. intros rest.
  eapply (keeps_seq _ _ mapped); [by intros ?|done|]. intros pending.
  apply (keeps_bind _ _ (λ _, False)); [|done].
  eapply (keeps_seq _ _ mapped); [done|done|]. intros _.
  eapply (keeps_seq _ _ mapped); [by apply raise_flag_writes|done|]. intros _.
  apply (keeps_bind _ _ (λ _, False)); [|done].
  eapply (keeps_seq _ _ mapped); [by intros ??|done|]. intros us.
  eapply (keeps_seq _ _ mapped); [done|done|]. intros _. apply zero_stops_search.
Qed.

Lemma round_stuck user me ts (m : mem) ps m' i r :
  mapped v.(self_stacks_searched) → mapped (tl_lock v.(thread_list_)) →
  (∀ t, t ∈ ts → writes_in mapped (user t) ∧ mapped (td_local_timestamp t.(th_td)) ∧ mapped (td_times_without_update t.(th_td))) →
  m !! first = Some 0 → rtc pstep (round_pool v g pthread_kill sigpending user me ts, m) (ps, m') →
  ps !! i ≠ Some (Stop (Ret r)).
Proof.
  intros Hc Hl Hts H0 Hr Hi.
  destruct (keeps_rtc first 0 (λ _, False) _ _ Hr) as [Hps _]; [|done|].
  - apply Forall_cons. split; [by apply do_reclaim_keeps|]. apply Forall_fmap, Forall_forall. intros t Ht.
    destruct (Hts t Ht) as (? & ? & ?). by apply bystander_keeps.
  - exact (Forall_lookup_1 _ _ _ _ Hps Hi r eq_refl).
Qed.
End round.

(** ** The round of a thread that is alone *)
Section alone.
Context `{Build} (Hdebug : debug = true).
Context (v : globals_t) (g : threadscan_data_t) (pthread_kill : Z → Z → prog Z Z) (sigpending : Z → Z).
Context (heap : Z → Prop) (me : thread) (m m2 : mem).
Context (Henv : round_env v sigpending heap me [] m) (Hsub : m ⊆ m2).

Lemma alone_list tds : thread_list v.(thread_list_) m tds → env_list v sigpending heap me [] m tds →
  thread_list v.(thread_list_) (<[v.(self_stacks_searched) := 0]> m2) tds.
Proof.
  intros [Hf (p & Hp & Hl) Hnd Hsep Hlen] Htds.
  destruct (re_head _ _ _ _ _ _ Henv) as (_ & Hhead & _). destruct (re_distinct _ _ _ _ _ _ Henv) as [Hcl _].
  assert (∀ a, ¬ vol v sigpending heap [] m a → v.(self_stacks_searched) ≠ a) as Hne.
  { intros a Ha <-. apply Ha. left. by left. }
  split; try done.
  - rewrite lookup_insert_ne by done. by eapply lookup_weaken.
  - exists p. rewrite lookup_insert_ne by by apply Hne. split; [by eapply lookup_weaken|].
    eapply tlist_ext; [|exact Hl]. intros td Htd.
    destruct (env_list_member v sigpending heap me [] m tds Henv Htds td Htd) as (_ & Hn & _ & [x Hx]).
    rewrite lookup_insert_ne by by apply Hne. rewrite Hx. by eapply lookup_weaken.
Qed.

(** Nobody is signalled. *)
Lemma alone_signals :
  run (threadscan_thread_signal_all_but_me v pthread_kill me.(th_td) SIGTHREADSCAN) (<[v.(self_stacks_searched) := 0]> m2) =
    Ret (0, <[tl_lock v.(thread_list_) := 0]> (<[v.(self_stacks_searched) := 0]> m2)).
Proof.
  destruct (re_list _ _ _ _ _ _ Henv) as (tds & Hl & Htds). pose proof (alone_list tds Hl Htds) as Hl'.
  destruct (re_ready _ _ _ _ _ _ Henv me ltac:(by left)) as [Hme _].
  unfold threadscan_thread_signal_all_but_me. rewrite (run_bind_lift _ _ _ tt) by (apply c_assert_true; lia).
  unfold threadscan_proc_signal_all_except. apply (foreach_run _ _ _ tds 0); [done|].
  intros td Htd. destruct (env_list_member v sigpending heap me [] m tds Henv Htds td Htd) as (Hnz & _).
  rewrite (run_bind_lift _ _ _ tt) by (apply c_assert_true; lia).
  destruct Htds as (idle & Hperm & Hidle). rewrite Hperm in Htd. cbn in Htd. apply elem_of_cons in Htd as [->|Htd].
  - by rewrite Z.eqb_refl.
  - destruct (Hidle td Htd) as (_ & Hact & Hr). destruct (Hr (td_is_active td)) as (Hv & _); [right; by left|].
    destruct (td =? th_td me); [done|]. cbn [negb].
    assert (∀ a, ctl v sigpending [] a → a ≠ td_is_active td) as Hne by (intros a Ha ->; apply Hv; by left).
    assert (<[tl_lock v.(thread_list_) := 1]> (<[v.(self_stacks_searched) := 0]> m2) !! td_is_active td = Some 0) as E.
    { rewrite lookup_insert_ne by (apply Hne; by right; left). rewrite lookup_insert_ne by (apply Hne; by left).
      by eapply lookup_weaken. }
    by rewrite (run_bind_rd _ _ _ _ E).
Qed.

Lemma alone_aborts : 0 < g.(n_addrs) → m !! elt g.(buf_addrs) 0 = None → m2 !! elt g.(buf_addrs) 0 = Some 0 →
  run (do_reclaim v g pthread_kill me.(th_td) me.(th_rsp)) m2 = Aborted.
Proof.
  intros Hn Hnew H0. destruct (re_ready _ _ _ _ _ _ Henv me ltac:(by left)) as [_ Hr].
  assert (∀ a, is_Some (m !! a) → a ≠ elt g.(buf_addrs) 0 ∧ is_Some (m2 !! a)) as Hmap.
  { intros a [x Hx]. split; [intros ->; congruence|]. exists x. by eapply lookup_weaken. }
  pose proof (re_counter _ _ _ _ _ _ Henv) as Hc.
  assert (is_Some (m !! tl_lock v.(thread_list_))) as Hl.
  { destruct (re_list _ _ _ _ _ _ Henv) as (tds & Hl & _). rewrite (tl_free _ _ _ Hl). by eexists. }
  destruct (Hmap (td_user_stack_low me.(th_td))) as [_ [low Hlow]]; [apply Hr; rewrite !elem_of_cons; tauto|].
  destruct (Hmap (td_user_stack_high me.(th_td))) as [_ [high Hhigh]]; [apply Hr; rewrite !elem_of_cons; tauto|].
  unfold do_reclaim, threadscan_thread_user_stack. rewrite run_bind, (run_bind_rd _ _ _ _ Hlow), (run_bind_rd _ _ _ _ Hhigh).
  cbn [run mret prog_mret mbind outcome_bind]. rewrite run_bind_wr by by apply Hmap.
  rewrite run_bind, alone_signals. cbn [mbind outcome_bind]. apply zero_aborts_search; [done|done|].
  rewrite !lookup_insert_ne by by apply Hmap. done.
Qed.
End alone.

(** ** A round with a zero *)
Section zero.
Context `{Build} {AS : Type} `{!Allocator AS} (Hdebug : debug = true).
Context (v : globals_t) (pthread_kill : Z → Z → prog Z Z) (sigpending : Z → Z) (heap : Z → Prop).
Context (user : thread → prog Z (prog Z unit)) (me : thread) (ts : list thread).
Context (st : rstate AS) (l : list (Z * list Z)) (m : mem).
Context (Hst : reclaim_state st l) (Hgather : round_gathers st l m) (Henv : round_env v sigpending heap me ts m).

(** The words user code writes were there before the round, whatever it
    reads; so are those that sending a signal writes. *)
Definition writes_mapped : Prop :=
  (∀ t, t ∈ ts → writes_in (λ a, is_Some (m !! a)) (user t)) ∧
  ∀ self sig, writes_in (λ a, is_Some (m !! a)) (pthread_kill self sig).

Lemma zero_prepared : 0 ∈ gathered st (limit_of st) l → ∃ st2 m2,
  reclaim_prepare st m = Ret (st2, m2) ∧ m ⊆ m2 ∧ 0 < n_addrs st2.(g_tsdata) ∧
  m !! elt st2.(g_tsdata).(buf_addrs) 0 = None ∧ m2 !! elt st2.(g_tsdata).(buf_addrs) 0 = Some 0.
Proof.
  intros H0. pose proof (prepare_sorts st l m Hst Hgather) as ([st2 m2] & Hrun & S & [HS Hsort En Hw Hnew Hsub] & _)%wp_iff.
  cbn [fst snd] in *. exists st2, m2. pose proof (ga_room _ _ _ Hgather) as [Hroom _].
  assert (zlen S = zlen (gathered st (limit_of st) l)) as Hlen by (unfold zlen; by rewrite HS).
  rewrite <- HS in H0. apply elem_of_znth in H0 as (i & Hi & E).
  assert (znth S 0 = 0) as Hz.
  { pose proof (Hsort 0 i ltac:(lia) ltac:(lia) ltac:(lia)). assert (znth S 0 ∈ gathered st (limit_of st) l) as Hin
      by (rewrite <- (elem_of_Permutation_proper _ _ _ HS); apply znth_elem_of; lia). destruct (ga_aligned _ _ _ Hgather _ Hin). lia. }
  split; [done|]. split; [done|]. split; [lia|]. split; [apply Hnew; lia|]. rewrite Hw by lia. by rewrite Hz.
Qed.

Lemma zero_round_stops : 0 ∈ gathered st (limit_of st) l → writes_mapped →
  ∃ st2 m2, reclaim_prepare st m = Ret (st2, m2) ∧
    (∀ ps m3 i r, rtc pstep (round_pool v st2.(g_tsdata) pthread_kill sigpending user me ts, m2) (ps, m3) →
       ps !! i ≠ Some (Stop (Ret r))) ∧
    (ts = [] → run (do_reclaim v st2.(g_tsdata) pthread_kill me.(th_td) me.(th_rsp)) m2 = Aborted).
Proof.
  intros H0 [Hu Hk]. destruct (zero_prepared H0) as (st2 & m2 & Hrun & Hsub & Hn & Hnew & Hz).
  exists st2, m2. split; [done|]. split.
  - intros ps m3 i r Hr. eapply (round_stuck Hdebug v _ pthread_kill sigpending Hn (λ a, is_Some (m !! a))); try done.
    + rewrite Hnew. by intros [? ?].
    + apply (re_counter _ _ _ _ _ _ Henv).
    + destruct (re_list _ _ _ _ _ _ Henv) as (tds & Hl & _). rewrite (tl_free _ _ _ Hl). by eexists.
    + intros t Ht. split; [by apply Hu|]. destruct (re_stamps _ _ _ _ _ _ Henv t Ht) as (? & x & -> & _).
      split; [done|by eexists].
  - intros ->. by eapply alone_aborts.
Qed.
End zero.

(** C27. A debug build does not survive a reclamation in which the smallest
    address was still in use.  [handle_unreferenced_ptrs] leaves a zero in its
    place, which is stored with the retained pointers, so the next round
    gathers it; and in that round, whatever was collected since and however
    the threads are interleaved, neither the reclaimer nor any thread it
    signals ever gets past its first scan: [threadscan_reclaim] does not
    return, and a reclaimer that is the only active thread ends in abort(). *)
Theorem zero_stops_debug_build `{Build} `{!Allocator AS} v pthread_kill sigpending heap retired user me ts
    (st st1 : rstate AS) l m m1 a :
  debug = true → let addrs := gathered st (limit_of st) l in
  reclaim_state st l → reclaim_round st l m →
  round_env v sigpending heap me ts m → pthread_kill_delivers pthread_kill sigpending ts →
  users_ok heap retired user ts m →
  threadscan_reclaim v pthread_kill sigpending user me ts st m st1 m1 →
  a ∈ addrs → (∀ b, b ∈ addrs → a ≤ b) → retired a → in_use me ts m m1 a →
  ∃ l1, reclaim_state st1 l1 ∧ 0 ∈ chain_addrs l1 ∧
    ∀ (st' : rstate AS) m' heap' user' me' ts',
      reclaim_state st' l1 → round_gathers st' l1 m' → round_env v sigpending heap' me' ts' m' →
      writes_mapped pthread_kill user' ts' m' →
      (∀ st4 m4, ¬ threadscan_reclaim v pthread_kill sigpending user' me' ts' st' m' st4 m4) ∧
      ∃ st2 m2, reclaim_prepare st' m' = Ret (st2, m2) ∧
        (∀ ps m3 i r, rtc pstep (round_pool v st2.(g_tsdata) pthread_kill sigpending user' me' ts', m2) (ps, m3) →
           ps !! i ≠ Some (Stop (Ret r))) ∧
        (ts' = [] → run (do_reclaim v st2.(g_tsdata) pthread_kill me'.(th_td) me'.(th_rsp)) m2 = Aborted).
Proof.
  intros Hd addrs Hst Hround Henv Hkill Husers Hrec Ha Hmin Hret Huse.
  destruct (threadscan_reclaim_ok _ _ _ _ _ _ _ _ _ _ _ _ _ Hst Hround Henv Hkill Husers Hrec) as (l1 & fl & Hres).
  destruct (rr_debug _ _ _ Hround Hd) as [Hnd _].
  assert (0 ∈ chain_addrs l1) as H0.
  { apply (ds_zero _ _ _ _ _ (rs_disposed _ _ _ _ _ _ _ _ _ _ Hres) a); [done| |done].
    apply occ_pos in Ha as Hp. pose proof (proj1 (occ_NoDup addrs) Hnd a). fold addrs. lia. }
  exists l1. split; [apply (rs_state _ _ _ _ _ _ _ _ _ _ Hres)|]. split; [done|].
  intros st' m' heap' user' me' ts' Hst' Hg' Henv' Hw.
  assert (0 ∈ gathered st' (limit_of st') l1) as H0' by (apply elem_of_app; by left).
  pose proof (zero_round_stops Hd v pthread_kill sigpending heap' user' me' ts' st' l1 m' Hst' Hg' Henv' H0' Hw)
    as (st2 & m2 & Hrun & Hno & Hab).
  split; [|by exists st2, m2].
  intros st4 m4 [st3 m3 ps m5 r st5 m6 Hprep Hsteps Hr _]. rewrite Hrun in Hprep. injection Hprep as <- <-.
  by apply (Hno _ _ _ _ Hsteps Hr).
Qed.

(** ** Two rounds of a debug build

    0x2000 is on the reclaimer's stack and is the smaller of two addresses;
    in the next round the other thread is about to leave. *)
Section example.
#[local] Existing Instance debug_build.

(** Threads that are not known get no signal. *)
Definition ex_kill_known (self sig : Z) : prog Z Z :=
  if self =? 2 then ex_kill self sig else mret ESRCH.

Definition ex_zero_state : rstate bump_state := set_queues [mk_queue [0x3000; 0x2000; 0; 0] 4 2 4] ex_state.
Definition ex_left_mem : mem := <[td_is_active 0x200000 := 0]> ex_env_mem.

Lemma ex_zero_gathered : gathered ex_zero_state (limit_of ex_zero_state) [] = [0x3000; 0x2000].
Proof. reflexivity. Qed.

Lemma ex_zero_reclaim_state : reclaim_state ex_zero_state [].
Proof.
  destruct ex_reclaim_state as [H1 H2 H3 H4 _]. split; try done.
  apply Forall_singleton. split; [split; [by exists 2|split; [done|cbn; lia]]|].
  intros _. vm_compute. intros Hin. repeat (apply elem_of_cons in Hin as [Hin|Hin]; [discriminate Hin|]).
  by apply elem_of_nil in Hin.
Qed.

Lemma ex_zero_round : reclaim_round ex_zero_state [] ex_env_mem.
Proof.
  destruct ex_reclaim_round as [H1 _ _ _ H5 H6]. split; rewrite ?ex_zero_gathered; try done.
  - intros a Ha. repeat (apply elem_of_cons in Ha as [->|Ha]; [done|]). by apply elem_of_nil in Ha.
  - intros _. split; [by apply (bool_decide_unpack _)|]. rewrite !elem_of_cons, elem_of_nil. intuition discriminate.
Qed.

Lemma ex_known_delivers : pthread_kill_delivers ex_kill_known ex_sigpending [ex_other].
Proof. by intros t ->%list_elem_of_singleton. Qed.

(** Only the counter and the lock change in a round without other threads. *)
Lemma ex_alone_vol m a : vol ex_vars ex_sigpending (λ _, False) [] m a → a = 0x6008 ∨ a = 0x5008.
Proof.
  intros [[->|[->|(t & Ht & _)]]|[[]|(t & Ht & _)]]; [by left|by right|by apply elem_of_nil in Ht|by apply elem_of_nil in Ht].
Qed.

Lemma ex_alone_word a x : ex_left_mem !! a = Some x → a ≠ 0x6008 → a ≠ 0x5008 → a ≠ 0x6000 →
  ¬ vol ex_vars ex_sigpending (λ _, False) [] ex_left_mem a ∧ a ≠ ex_vars.(global_timestamp) ∧ is_Some (ex_left_mem !! a).
Proof.
  intros Hx H1 H2 H3. split; [by intros [?|?]%ex_alone_vol|]. split; [done|by eexists].
Qed.

Lemma ex_left_list : thread_list ex_vars.(thread_list_) ex_left_mem [0x300000; 0x200000; 0x100000].
Proof.
  destruct ex_env_list as [H1 (p & Hp & Hl) H3 H4 H5]. split; try done. exists p. unfold ex_left_mem.
  rewrite lookup_insert_ne by done. split; [done|]. eapply tlist_ext; [|exact Hl].
  intros td Htd. rewrite lookup_insert_ne; [done|].
  repeat (apply elem_of_cons in Htd as [->|Htd]; [done|]). by apply elem_of_nil in Htd.
Qed.

Lemma ex_alone_env : round_env ex_vars ex_sigpending (λ _, False) ex_me [] ex_left_mem.
Proof.
  split; try by intros t ?%elem_of_nil.
  - exists [0x300000; 0x200000; 0x100000]. split; [exact ex_left_list|]. exists [0x200000; 0x300000].
    split; [by apply (bool_decide_unpack ([0x300000; 0x200000; 0x100000] ≡ₚ [0x100000; 0x200000; 0x300000]))|].
    intros td Htd. repeat (apply elem_of_cons in Htd as [->|Htd]; [(split; [done|]; split; [by vm_compute|]); intros a Ha;
      repeat (apply elem_of_cons in Ha as [->|Ha]; [by eapply ex_alone_word|]); by apply elem_of_nil in Ha|]).
    by apply elem_of_nil in Htd.
  - intros t ->%list_elem_of_singleton. split; [done|]. intros a Ha.
    repeat (apply elem_of_cons in Ha as [->|Ha]; [by eapply ex_alone_word|]). by apply elem_of_nil in Ha.
  - intros t a ->%list_elem_of_singleton Ha%elem_of_scan_words. assert (a ∈ [0x20000; 0x20008]) as Hin by exact Ha.
    repeat (apply elem_of_cons in Hin as [->|Hin]; [split; [by eexists|]; split;
      [by intros [?|[?|(t' & ?%elem_of_nil & _)]]|by split; [intros []|]]|]). by apply elem_of_nil in Hin.
  - intros t t' a ->%list_elem_of_singleton ->%list_elem_of_singleton. done.
  - by intros a [].
  - split; [done|]. destruct (ex_alone_word (tl_head ex_vars.(thread_list_)) 0x300000) as (? & _ & ?); done.
  - split; [by intros [?|[?|(t' & ?%elem_of_nil & _)]]|by eexists].
  - by eexists.
  - by split; [|intros t ?%elem_of_nil].
Qed.

Lemma ex_alone_writes : writes_mapped ex_kill_known ex_user [] ex_left_mem.
Proof.
  split; [by intros t ?%elem_of_nil|]. intros self sig. unfold ex_kill_known.
  destruct (Z.eqb_spec self 2) as [->|]; [|done]. split; [by eexists|done].
Qed.

(** What is left over after the first round. *)
Lemma ex_left_over st1 l1 blk : reclaim_state st1 l1 → st1.(g_tsdata).(storage) = 0x900000 →
  st1.(blocks) !! 0x900000 = Some blk → take 4 blk = [0; 2; 0; 0] → chain_addrs l1 = [0; 0].
Proof.
  intros [_ _ Hc _ _] Hs Hb Ht. rewrite Hs in Hc. destruct blk as [|b0 [|b1 [|b2 [|b3 blk]]]]; try done.
  injection Ht as -> -> -> ->. destruct l1 as [|[p addrs] l1]; [done|].
  destruct Hc as (<- & _ & blk' & next & Hb' & [<- Hlen Haddrs _] & Hc). rewrite Hb in Hb'. injection Hb' as <-.
  assert (l1 = []) as ->.
  { destruct l1 as [|[p' ?] l1]; [done|]. destruct Hc as (<- & H0 & _). by destruct H0. }
  rewrite <- Hlen in Haddrs. unfold chain_addrs. cbn. by rewrite <- Haddrs.
Qed.

Lemma ex_first_round : ∃ st1 m1 blk,
  threadscan_reclaim ex_vars ex_kill_known ex_sigpending ex_user ex_me [ex_other] ex_zero_state ex_env_mem st1 m1 ∧
  m1 !! 0x20000 = Some 0x2001 ∧ st1.(g_tsdata).(storage) = 0x900000 ∧ st1.(g_tsdata).(max_ptrs) = 256 ∧
  st1.(g_tsdata).(working_buffer_sz) = 8192 ∧ st1.(queues) = [mk_queue [0x3000; 0x2000; 0; 0] 4 2 6] ∧
  st1.(allocator).(bump_next) = 0x902000 ∧
  st1.(blocks) !! 0x900000 = Some blk ∧ take 4 blk = [0; 2; 0; 0].
Proof.
  set (o := reclaim_under ex_schedule ex_vars ex_kill_known ex_sigpending ex_user ex_me [ex_other] ex_zero_state ex_env_mem).
  assert ((λ x, (x.2 !! 0x20000, storage (g_tsdata x.1), max_ptrs (g_tsdata x.1), working_buffer_sz (g_tsdata x.1), queues x.1,
      bump_next (allocator x.1), take 4 <$> blocks x.1 !! 0x900000)) <$> o =
    Some (Some 0x2001, 0x900000, 256, 8192, [mk_queue [0x3000; 0x2000; 0; 0] 4 2 6], 0x902000, Some [0; 2; 0; 0])) as Ho
    by (vm_compute; reflexivity).
  destruct o as [[st1 m1]|] eqn:E; [|discriminate Ho]. apply reclaim_under_sound in E. exists st1, m1.
  cbn [fmap option_fmap option_map fst snd] in Ho. destruct (blocks st1 !! 0x900000) as [blk|]; [|discriminate Ho].
  exists blk. split; [exact E|]. injection Ho as H1 H2 H3 H4 H5 H6 H7.
  split; [exact H1|]. split; [exact H2|]. split; [exact H3|]. split; [exact H4|]. split; [exact H5|]. split; [exact H6|].
  split; [done|exact H7].
Qed.

Lemma ex_left_below a x : ex_left_mem !! a = Some x → a < 0x900000.
Proof.
  unfold ex_left_mem. intros [[<- _]|[_ Hx]]%lookup_insert_Some; [done|by eapply ex_env_below].
Qed.

Lemma ex_stack_reference m : m !! 0x20000 = Some 0x2001 → in_use ex_me [ex_other] ex_env_mem m 0x2000.
Proof.
  intros Hm. exists (scanner_of ex_env_mem ex_me), {| low := 0x20000; high := 0x20010 |}, 0, 0x2001.
  split; [by left|]. split; [by left|]. split; [done|]. by split.
Qed.

Lemma zero_stops_debug_build_witness : ∃ st1 m1,
  threadscan_reclaim ex_vars ex_kill_known ex_sigpending ex_user ex_me [ex_other] ex_zero_state ex_env_mem st1 m1 ∧
  (∀ st4 m4, ¬ threadscan_reclaim ex_vars ex_kill_known ex_sigpending ex_user ex_me [] st1 ex_left_mem st4 m4) ∧
  ∃ st2 m2, reclaim_prepare st1 ex_left_mem = Ret (st2, m2) ∧
    run (do_reclaim ex_vars st2.(g_tsdata) ex_kill_known 0x100000 0x20000) m2 = Aborted.
Proof.
  destruct ex_first_round as (st1 & m1 & blk & Hrec & Hm1 & Hs & Hmax & Hsz & Hq & Hnext & Hb & Ht).
  exists st1, m1. split; [exact Hrec|].
  destruct (zero_stops_debug_build (H := debug_build) ex_vars ex_kill_known ex_sigpending ex_heap ex_retired ex_user ex_me [ex_other]
    ex_zero_state st1 [] ex_env_mem m1 0x2000 eq_refl ex_zero_reclaim_state ex_zero_round ex_round_env ex_known_delivers ex_users Hrec)
    as (l1 & Hst1 & _ & Hnext_round).
  - rewrite ex_zero_gathered, !elem_of_cons. tauto.
  - rewrite ex_zero_gathered. intros b. rewrite !elem_of_cons, elem_of_nil. lia.
  - unfold ex_retired. rewrite !elem_of_cons. tauto.
  - exact (ex_stack_reference m1 Hm1).
  - pose proof (ex_left_over st1 l1 blk Hst1 Hs Hb Ht) as Hl1.
    assert (gathered st1 (limit_of st1) l1 = [0; 0]) as Hg.
    { unfold gathered, limit_of. rewrite Hl1, Hq, Hmax. reflexivity. }
    destruct (Hnext_round st1 ex_left_mem (λ _, False) ex_user ex_me [] Hst1) as (Hno & st2 & m2 & Hrun & _ & Hab).
    + split; rewrite ?Hg, ?Hl1; unfold limit_of; rewrite ?Hmax.
      * done.
      * done.
      * intros a Ha. repeat (apply elem_of_cons in Ha as [->|Ha]; [done|]). by apply elem_of_nil in Ha.
      * intros p a' [= <- _] i Hi. rewrite Hsz in Hi. rewrite Hnext.
        destruct (ex_left_mem !! elt 0x902000 i) as [x|] eqn:Hx; [|done].
        apply ex_left_below in Hx. unfold elt, sizeof_size_t in Hx. lia.
      * done.
    + exact ex_alone_env.
    + exact ex_alone_writes.
    + split; [exact Hno|]. exists st2, m2. split; [exact Hrun|]. by apply Hab.
Defined.
End example.
