(* ===== verification/Lifetime.v ===== *)
(** * Threads that come and go, interleaved

    Wrappers.v runs creation, start, end and join of threads as single steps.
    Here they are interleaved word by word, with each other and with
    reclaimers that signal the threads in the list and wait for them: two
    mutexes, a compare-and-swap, two atomic counters and the waits of
    libpthread are all that keeps them apart.  A signal may be delivered long
    after it was sent, while its thread creates another one, holds a mutex,
    waits or leaves, also when it has left the list.

    [create] and [join] are pthread_create and pthread_join of wrappers.c with
    the allocator left out: the blocks of the metadata are there from the
    start, filled with zeros, and a thread that is joined leaves its block to
    somebody else, who writes to it.  Rounds and handlers are [do_reclaim] and
    [signal_handler] of Round.v, which search the stacks.  What the reclaimer
    does alone between rounds, gathering, sorting and freeing addresses, is
    left out: the buffers have the same addresses in every round, and a mark
    stays.  No local blocks are registered.

    The proof gives each thread a stage, 0 to 11; [inv] says for each stage
    what the words of its metadata hold, [mover] who may end it.  [signals]
    has the sets of threads a signal is on its way to, that are in the handler,
    that have raised their flag, and whose search the reclaimer still waits
    for: the counter is the number of those signalled less the last ones. *)

From S2P Require Import Prelude Conc Ghost Mem Env ThreadList Thread Search Round AllocIface ThreadData Wrappers.

(** What a thread does besides its own work. *)
Inductive action :=
| Pthread_create (c : nat)
| Pthread_join (c : nat)
| Reclaim (rsp : Z)
| Work (p : prog Z unit).

(** What the model knows of thread [i]. *)
Record profile := {
  pr_td : Z;                   (* its metadata *)
  pr_self : Z;                 (* its pthread_t *)
  pr_sp : Z;                   (* its stack pointer when it starts *)
  pr_routine : Z; pr_arg : Z; pr_stack : Z; pr_stacksize : Z; pr_own : bool; pr_queue : Z; (* what pthread_create stores *)
  pr_started : Z; pr_ended : Z; pr_pending : Z; (* words of libpthread and the system: it runs, it has ended, its signals *)
  pr_junk : Z → Z;             (* what the next owner of its metadata writes there *)
  pr_rsp : nat → Z;            (* its stack pointer when a handler starts *)
  pr_plan : list action;
}.

Section code.
Context `{Build} (v : statics_t) (g_threadscan_ptrs_per_thread : Z) (pthread_kill : Z → Z → prog Z Z).
Context (g : threadscan_data_t) (thread : nat → profile).
Notation td i := (thread i).(pr_td).

(** [pthread_create], with the metadata and the stack allocated. *)
Definition create (c : nat) : prog Z unit :=
  let t := thread c in
  n ← sync_fetch_and_add v.(g_thread_count) 1;
  if MAX_THREAD_COUNT <? n then lift threadscan_fatal
  else
    _ ← td_queue_init t.(pr_td) t.(pr_queue) g_threadscan_ptrs_per_thread;
    _ ← wr (td_local_block_high t.(pr_td)) 0;
    _ ← wr (td_local_block_low t.(pr_td)) 0;
    _ ← wr (td_ref_count t.(pr_td)) 1;
    _ ← wr (td_user_routine t.(pr_td)) t.(pr_routine);
    _ ← wr (td_user_arg t.(pr_td)) t.(pr_arg);
    _ ← wr (td_is_active t.(pr_td)) 0;
    _ ← (if t.(pr_own) then wr (td_stack_is_ours t.(pr_td)) 1 else mret tt);
    _ ← wr (td_user_stack_low t.(pr_td)) t.(pr_stack);
    _ ← wr (td_user_stack_high t.(pr_td)) (u64 (t.(pr_stack) + t.(pr_stacksize)));
    _ ← threadscan_proc_add_thread_data v t.(pr_td);
    wr t.(pr_started) 1.

(** The next owner of a block. *)
Fixpoint overwrite (cells : list Z) (junk : Z → Z) : prog Z unit :=
  match cells with
  | [] => mret tt
  | a :: cells' => _ ← wr a (junk a); overwrite cells' junk
  end.

(** [pthread_join] of thread [c]: the original waits, then
    [threadscan_util_thread_data_cleanup]. *)
Definition join (c : nat) : prog Z unit :=
  _ ← await (thread c).(pr_ended) (λ e, negb (e =? 0));
  t ← unstage v list_fuel (thread c).(pr_self);
  ref_count ← rd (td_ref_count t);
  if ref_count >? 0 then lift threadscan_fatal
  else
    _ ← rd (td_stack_is_ours t);
    _ ← rd (td_user_stack_low t);
    ref_count ← (if debug then rd (td_ref_count t) else mret 0);
    _ ← lift (c_assert (ref_count =? 0));
    _ ← rd (td_queue_e t);
    overwrite (td_scalars t) (thread c).(pr_junk).

(** A round: what [threadscan_reclaim] does between taking the reclaimer's
    lock and releasing it; [rsp] is the stack pointer. *)
Definition reclaim (i : nat) (rsp : Z) : prog Z unit :=
  acquired ← threadscan_thread_cleanup_try_acquire v.(globals);
  if negb (acquired =? 0) then
    _ ← do_reclaim v.(globals) g pthread_kill (td i) rsp;
    threadscan_thread_cleanup_release v.(globals)
  else mret tt.

Definition run_action (i : nat) (a : action) : prog Z unit :=
  match a with
  | Pthread_create c => create c
  | Pthread_join c => join c
  | Reclaim rsp => reclaim i rsp
  | Work p => p
  end.

Fixpoint run_actions (i : nat) (l : list action) : prog Z unit :=
  match l with
  | [] => mret tt
  | a :: l' => _ ← run_action i a; run_actions i l'
  end.

(** How the system delivers signals to thread [i]: one that is sent sets the
    lowest bit of a word, delivery takes it and starts the handler, which runs
    once at a time.  At most [fuel] are delivered. *)
Fixpoint serve (i fuel : nat) : prog Z unit :=
  _ ← rmw (thread i).(pr_pending) (λ x, if Z.odd x then Some (x + 1) else None);
  match fuel with
  | O => lift OutOfFuel
  | S fuel' =>
      _ ← signal_handler v.(globals) g (td i) ((thread i).(pr_rsp) fuel) SIGTHREADSCAN;
      _ ← rmw (thread i).(pr_pending) (λ x, Some (x - 2));
      serve i fuel'
  end.

(** The main thread is number 0; it stays when it has carried out its plan.
    Another thread ends when its signals have been handled. *)
Definition life (i : nat) : prog Z unit :=
  let t := thread i in
  if decide (i = 0%nat) then run_actions i t.(pr_plan)
  else
    _ ← await t.(pr_started) (λ x, negb (x =? 0));
    _ ← threadscan_thread_base t.(pr_td) t.(pr_sp) t.(pr_self);
    _ ← run_actions i t.(pr_plan);
    _ ← threadscan_thread_cleanup v t.(pr_td);
    _ ← sync_fetch_and_sub v.(g_thread_count) 1;
    _ ← await t.(pr_pending) (λ x, x =? 0);
    wr t.(pr_ended) 1.
End code.

(** ** The words the threads share *)
Inductive field :=
  | Routine | Arg | Next | Self | Low | High | Ours | Active | Queue_e | Queue_capacity | Queue_head | Queue_tail
  | Time | Times | Block_low | Block_high | Refs.

Inductive cell :=
| Head | Lock | Staged | Staged_lock | Count | Stamp | Searched
| Field (c : nat) (f : field)
| Started (c : nat) | Ended (c : nat) | Pending (c : nat).

#[export] Instance field_eq_dec : EqDecision field.
Proof. solve_decision. Defined.
#[export] Instance cell_eq_dec : EqDecision cell.
Proof. solve_decision. Defined.

Definition all_fields : list field :=
  [Routine; Arg; Next; Self; Low; High; Ours; Active; Queue_e; Queue_capacity; Queue_head; Queue_tail; Time; Times;
   Block_low; Block_high; Refs].

Lemma all_fields_spec f : f ∈ all_fields.
Proof. apply (bool_decide_unpack _). by destruct f. Qed.

(** The words of [n] threads. *)
Definition all_cells (n : nat) : list cell :=
  [Head; Lock; Staged; Staged_lock; Count; Stamp; Searched] ++
  (c ← seq 0 n; [Started c; Ended c; Pending c] ++ (Field c <$> all_fields)).

Definition in_range (n : nat) (w : cell) : Prop :=
  match w with Field c _ | Started c | Ended c | Pending c => (c < n)%nat | _ => True end.

Lemma elem_of_all_cells n w : w ∈ all_cells n ↔ in_range n w.
Proof.
  unfold all_cells. rewrite elem_of_app, list_elem_of_bind. split.
  - intros [Hw|(c & Hw & Hc%elem_of_seq)].
    + repeat (apply elem_of_cons in Hw as [->|Hw]; [done|]). by apply elem_of_nil in Hw.
    + apply elem_of_app in Hw as [Hw|(f & -> & _)%list_elem_of_fmap]; [|cbn; lia].
      repeat (apply elem_of_cons in Hw as [->|Hw]; [cbn; lia|]). by apply elem_of_nil in Hw.
  - intros Hw. destruct w as [| | | | | | |c f|c|c|c]; cbn in Hw.
    1-7: left; apply (bool_decide_unpack _); done.
    all: right; exists c; (split; [|apply elem_of_seq; lia]); apply elem_of_app.
    + right. apply list_elem_of_fmap_2, all_fields_spec.
    + left. by left.
    + left. right. by left.
    + left. right. right. by left.
Qed.

(** ** The stages of a thread

    A thread goes through these stages in order; who moves it on is fixed. *)
Abbreviation Unborn := 0%nat (only parsing).
Abbreviation Hooked := 1%nat (only parsing).   (* counted; its parent fills in its metadata *)
Abbreviation Listed := 2%nat (only parsing).   (* in the list of threads *)
Abbreviation Launched := 3%nat (only parsing). (* libpthread runs it *)
Abbreviation Running := 4%nat (only parsing).
Abbreviation Leaving := 5%nat (only parsing).  (* not active any more *)
Abbreviation Unlisted := 6%nat (only parsing). (* out of the list *)
Abbreviation Dropped := 7%nat (only parsing).  (* no reference is left *)
Abbreviation Parked := 8%nat (only parsing).   (* in the list of ended threads *)
Abbreviation Uncounted := 9%nat (only parsing).
Abbreviation Over := 10%nat (only parsing).    (* it has ended *)
Abbreviation Gone := 11%nat (only parsing).    (* joined *)

(** What goes on with signals. *)
Record signals := {
  helping : gset nat;            (* its flag is raised *)
  handling : gset nat;           (* in the handler *)
  arrived : gset nat;            (* signalled, the signal is not delivered yet *)
  owed : gset nat;               (* signalled, and its search does not count yet *)
  reclaimer : option nat;
  signalled : option (gset nat); (* in this round, once the counter is reset *)
  begun : nat;                   (* the number of rounds up to now *)
  left : nat → nat;              (* how many more a thread begins *)
  taken : nat → nat;             (* how many signals a thread was delivered *)
}.

Record ghost := {
  stage : nat → nat;
  listed : list nat;
  parked : list nat;
  list_owner : option nat;
  parked_owner : option nat;
  sigs : signals;
}.

Definition set_stage (c k : nat) (γ : ghost) : ghost :=
  {| stage := λ x, if decide (x = c) then k else γ.(stage) x; listed := γ.(listed); parked := γ.(parked);
     list_owner := γ.(list_owner); parked_owner := γ.(parked_owner); sigs := γ.(sigs) |}.
Definition set_listed (l : list nat) (γ : ghost) : ghost :=
  {| stage := γ.(stage); listed := l; parked := γ.(parked);
     list_owner := γ.(list_owner); parked_owner := γ.(parked_owner); sigs := γ.(sigs) |}.
Definition set_parked (l : list nat) (γ : ghost) : ghost :=
  {| stage := γ.(stage); listed := γ.(listed); parked := l;
     list_owner := γ.(list_owner); parked_owner := γ.(parked_owner); sigs := γ.(sigs) |}.
Definition set_list_owner (o : option nat) (γ : ghost) : ghost :=
  {| stage := γ.(stage); listed := γ.(listed); parked := γ.(parked);
     list_owner := o; parked_owner := γ.(parked_owner); sigs := γ.(sigs) |}.
Definition set_parked_owner (o : option nat) (γ : ghost) : ghost :=
  {| stage := γ.(stage); listed := γ.(listed); parked := γ.(parked);
     list_owner := γ.(list_owner); parked_owner := o; sigs := γ.(sigs) |}.
Definition set_sigs (σ : signals) (γ : ghost) : ghost :=
  {| stage := γ.(stage); listed := γ.(listed); parked := γ.(parked);
     list_owner := γ.(list_owner); parked_owner := γ.(parked_owner); sigs := σ |}.

(** The steps of a round. *)
Definition acquired_by (i : nat) (σ : signals) : signals :=
  {| helping := σ.(helping); handling := σ.(handling); arrived := σ.(arrived); owed := σ.(owed);
     reclaimer := Some i; signalled := None; begun := S σ.(begun);
     left := λ x, if decide (x = i) then pred (σ.(left) i) else σ.(left) x; taken := σ.(taken) |}.
Definition reset (σ : signals) : signals :=
  {| helping := σ.(helping); handling := σ.(handling); arrived := σ.(arrived); owed := σ.(owed);
     reclaimer := σ.(reclaimer); signalled := Some ∅; begun := σ.(begun); left := σ.(left); taken := σ.(taken) |}.
Definition sent (S : gset nat) (c : nat) (σ : signals) : signals :=
  {| helping := σ.(helping); handling := σ.(handling); arrived := {[c]} ∪ σ.(arrived); owed := {[c]} ∪ σ.(owed);
     reclaimer := σ.(reclaimer); signalled := Some ({[c]} ∪ S); begun := σ.(begun); left := σ.(left); taken := σ.(taken) |}.
Definition released (σ : signals) : signals :=
  {| helping := σ.(helping); handling := σ.(handling); arrived := σ.(arrived); owed := σ.(owed);
     reclaimer := None; signalled := None; begun := σ.(begun); left := σ.(left); taken := σ.(taken) |}.
Definition delivered (c : nat) (σ : signals) : signals :=
  {| helping := σ.(helping); handling := {[c]} ∪ σ.(handling); arrived := σ.(arrived) ∖ {[c]}; owed := σ.(owed);
     reclaimer := σ.(reclaimer); signalled := σ.(signalled); begun := σ.(begun); left := σ.(left);
     taken := λ x, if decide (x = c) then S (σ.(taken) c) else σ.(taken) x |}.
Definition set_helping (h : gset nat) (σ : signals) : signals :=
  {| helping := h; handling := σ.(handling); arrived := σ.(arrived); owed := σ.(owed);
     reclaimer := σ.(reclaimer); signalled := σ.(signalled); begun := σ.(begun); left := σ.(left); taken := σ.(taken) |}.
Definition counted_in (c : nat) (σ : signals) : signals :=
  {| helping := σ.(helping); handling := σ.(handling); arrived := σ.(arrived); owed := σ.(owed) ∖ {[c]};
     reclaimer := σ.(reclaimer); signalled := σ.(signalled); begun := σ.(begun); left := σ.(left); taken := σ.(taken) |}.
Definition returned (c : nat) (σ : signals) : signals :=
  {| helping := σ.(helping); handling := σ.(handling) ∖ {[c]}; arrived := σ.(arrived); owed := σ.(owed);
     reclaimer := σ.(reclaimer); signalled := σ.(signalled); begun := σ.(begun); left := σ.(left); taken := σ.(taken) |}.

Lemma elem_of_other (c x : nat) (S : gset nat) : x ≠ c → x ∈ {[c]} ∪ S ↔ x ∈ S.
Proof. set_solver. Qed.

Lemma size_without (c : nat) (S : gset nat) : c ∈ S → (size (S ∖ {[c]}) + 1 = size S)%nat.
Proof.
  intros Hc. pose proof (size_union {[c]} (S ∖ {[c]}) ltac:(set_solver)) as E.
  rewrite <- union_difference_singleton_L in E by done. rewrite size_singleton in E. lia.
Qed.

(** The links of a list of threads. *)
Definition head_of (td : nat → Z) (l : list nat) : Z := match l with [] => 0 | c :: _ => td c end.
Fixpoint next_of (td : nat → Z) (l : list nat) (c : nat) : Z :=
  match l with
  | [] => 0
  | x :: l' => if decide (x = c) then head_of td l' else next_of td l' c
  end.

Lemma next_of_cons td c l x : x ≠ c → next_of td (c :: l) x = next_of td l x.
Proof. intros Hne. cbn. by rewrite decide_False by done. Qed.

Lemma next_of_app td pre c post :
  NoDup (pre ++ c :: post) → next_of td (pre ++ c :: post) c = head_of td post.
Proof.
  intros Hnd. induction pre as [|y pre IH]; cbn.
  - by rewrite decide_True.
  - apply NoDup_cons in Hnd as [Hy Hnd]. rewrite decide_False; [by apply IH|]. set_solver.
Qed.

(** Taking [c] out. *)
Lemma next_of_remove td pre p c post x :
  NoDup (pre ++ p :: c :: post) → x ≠ p → x ≠ c → next_of td (pre ++ p :: post) x = next_of td (pre ++ p :: c :: post) x.
Proof.
  intros Hnd Hp Hc. induction pre as [|y pre IH]; cbn.
  - rewrite !(decide_False (P := p = x)) by done. by rewrite (decide_False (P := c = x)) by done.
  - apply NoDup_cons in Hnd as [_ Hnd]. rewrite IH by done.
    destruct pre; [|done]. by destruct (decide (y = x)).
Qed.

(** [w] is the word that leads to [c]. *)
Lemma next_of_without td (root w : cell) l pre c post :
  l = pre ++ c :: post → NoDup l → (w = root ∧ pre = [] ∨ ∃ p pre', w = Field p Next ∧ pre = pre' ++ [p]) →
  ∀ x, x ≠ c → w ≠ Field x Next → next_of td (pre ++ post) x = next_of td l x.
Proof.
  intros -> Hnd Hw x Hx Hwx. destruct Hw as [[-> ->]|(p & pre' & -> & ->)].
  - cbn [app]. by rewrite next_of_cons by done.
  - rewrite <- !app_assoc in *. cbn [app] in *. apply next_of_remove; [done|congruence|done].
Qed.

Lemma next_of_tlist td l (m : mem) :
  NoDup l → (∀ c, c ∈ l → td c ≠ 0 ∧ m !! td_next (td c) = Some (next_of td l c)) → tlist m (head_of td l) (td <$> l).
Proof.
  induction l as [|c l IH]; intros Hnd Hl; [done|]. apply NoDup_cons in Hnd as [Hc Hnd].
  destruct (Hl c) as [Hnz Hn]; [by left|]. cbn in Hn. rewrite decide_True in Hn by done.
  split; [done|]. split; [done|]. exists (head_of td l). split; [done|]. apply IH; [done|].
  intros x Hx. destruct (Hl x) as [? Hx']; [by right|]. split; [done|]. rewrite Hx', next_of_cons; [done|]. by intros ->.
Qed.

(** What a thread knows of the stages of its children. *)
Definition upd (c k : nat) (kids : nat → nat) : nat → nat := λ x, if decide (x = c) then k else kids x.

(** The rounds in a plan. *)
Fixpoint rounds (l : list action) : nat :=
  match l with [] => 0 | Reclaim _ :: l' => S (rounds l') | _ :: l' => rounds l' end.

(** What a thread knows of itself: the stages of its children, how many rounds
    it may still begin, and whether it has the reclaimer's lock. *)
Record view := { kids_of :> nat → nat; budget : nat; reclaims : bool }.
Definition updv (c k : nat) (kids : view) : view :=
  {| kids_of := upd c k kids; budget := kids.(budget); reclaims := kids.(reclaims) |}.

Lemma updv_eq c k kids : updv c k kids c = k.
Proof. cbn. unfold upd. by rewrite decide_True. Qed.

Section lifetime.
Context `{Build} (v : statics_t) (g_threadscan_ptrs_per_thread : Z) (pthread_kill : Z → Z → prog Z Z).
Context (g : threadscan_data_t) (o : Z → Z) (thread : nat → profile) (n : nat) (parent : nat → nat) (joined : nat → bool) (m0 : mem).
Notation td i := ((thread i).(pr_td)).
Notation self i := ((thread i).(pr_self)).
Notation tl := (v.(globals).(thread_list_)).
Notation td_ := (λ c, td c).

Definition field_at (a : Z) (f : field) : Z :=
  match f with
  | Routine => td_user_routine a | Arg => td_user_arg a | Next => td_next a | Self => td_self a
  | Low => td_user_stack_low a | High => td_user_stack_high a | Ours => td_stack_is_ours a | Active => td_is_active a
  | Queue_e => td_queue_e a | Queue_capacity => td_queue_capacity a | Queue_head => td_queue_idx_head a
  | Queue_tail => td_queue_idx_tail a | Time => td_local_timestamp a | Times => td_times_without_update a
  | Block_low => td_local_block_low a | Block_high => td_local_block_high a | Refs => td_ref_count a
  end.

Definition address (w : cell) : Z :=
  match w with
  | Head => tl_head tl | Lock => tl_lock tl | Staged => v.(g_td_staged_to_free) | Staged_lock => v.(g_staged_lock)
  | Count => v.(g_thread_count) | Stamp => v.(globals).(global_timestamp) | Searched => v.(globals).(self_stacks_searched)
  | Field c f => field_at (td c) f
  | Started c => (thread c).(pr_started) | Ended c => (thread c).(pr_ended) | Pending c => (thread c).(pr_pending)
  end.

(** The stack of a thread, as far as it is searched. *)
Definition stack_high (i : nat) : Z := u64 ((thread i).(pr_sp) - Z.land (thread i).(pr_sp) (PAGESIZE - 1)).
Definition on_stack (i : nat) (rsp : Z) : Prop := 0 < rsp ∧ (thread i).(pr_stack) <= rsp < stack_high i ∧ rsp `mod` 8 = 0.

(** The addresses that are searched for and the scan map.  Other threads mark
    addresses, and change any other word, meanwhile. *)
Definition buffer_word (a : Z) : Prop :=
  (∃ k, 0 <= k < g.(n_addrs) ∧ a = elt g.(buf_addrs) k) ∨ ∃ k, 0 <= k < g.(n_scan_map) ∧ a = elt g.(buf_scan_map) k.
Notation not_buffer := (λ a, ¬ buffer_word a).
Notation any_address := (λ _ : Z, True).
Notation changes := (may_change g o any_address not_buffer).
Notation buffers_ok := (scan_inv g o any_address).

(** The threads that are counted. *)
Definition counted (γ : ghost) : list nat := filter (λ c, (1 <= γ.(stage) c <= 8)%nat) (seq 0 n).

(** What holds of the value [x] of a word. *)
Definition good (γ : ghost) (w : cell) (x : Z) : Prop :=
  match w with
  | Head => x = head_of td_ γ.(listed)
  | Lock => x = if γ.(list_owner) then 1 else 0
  | Staged => x = head_of td_ γ.(parked)
  | Staged_lock => x = if γ.(parked_owner) then 1 else 0
  | Count => x = Z.of_nat (length (counted γ))
  | Stamp => TIMESTAMP_IS_ACTIVE x = if γ.(sigs).(reclaimer) then true else false
  | Searched => ∀ S, γ.(sigs).(signalled) = Some S → x = Z.of_nat (size S) - Z.of_nat (size γ.(sigs).(owed))
  | Pending c => x = (if decide (c ∈ γ.(sigs).(arrived)) then 1 else 0) + (if decide (c ∈ γ.(sigs).(handling)) then 2 else 0)
  | Field c Next =>
      ((2 <= γ.(stage) c <= 5)%nat → x = next_of td_ γ.(listed) c) ∧
      ((8 <= γ.(stage) c <= 10)%nat → x = next_of td_ γ.(parked) c)
  | Field c Active => (γ.(stage) c = Running → x = 1) ∧ ((2 <= γ.(stage) c <= 5)%nat → γ.(stage) c ≠ Running → x = 0)
  | Field c Self => (4 <= γ.(stage) c <= 10)%nat → x = self c
  | Field c Refs => ((2 <= γ.(stage) c <= 6)%nat → x = 1) ∧ ((7 <= γ.(stage) c <= 10)%nat → x = 0)
  | Field c Time => (γ.(stage) c <= 10)%nat → TIMESTAMP_IS_ACTIVE x = true → c ∈ γ.(sigs).(helping)
  | Field c Times => (γ.(stage) c <= 10)%nat → INT_MIN <= x <= INT_MAX
  | Field c High => (4 <= γ.(stage) c <= 10)%nat → x = stack_high c
  | Field c Block_low => (γ.(stage) c <= 10)%nat → x = 0
  | Field c _ => True
  | Started c => x = if decide (3 <= γ.(stage) c)%nat then 1 else 0
  | Ended c => x = if decide (10 <= γ.(stage) c)%nat then 1 else 0
  end.

(** All rounds together. *)
Definition total : nat := sum_list ((λ i, rounds (thread i).(pr_plan)) <$> seq 0 n).

(** Only threads that run are signalled, by the reclaimer, once in a round;
    the rounds are counted in advance. *)
Record wf_signals (γ : ghost) : Prop := {
  ws_round : γ.(sigs).(reclaimer) = None → γ.(sigs).(signalled) = None;
  ws_reset : γ.(sigs).(signalled) = None → γ.(sigs).(owed) = ∅;
  ws_sent S : γ.(sigs).(signalled) = Some S → γ.(sigs).(owed) ⊆ S ∧ S ⊆ set_seq 0 n;
  ws_owed : γ.(sigs).(arrived) ⊆ γ.(sigs).(owed) ∧ γ.(sigs).(owed) ⊆ γ.(sigs).(arrived) ∪ γ.(sigs).(handling);
  ws_helping : γ.(sigs).(helping) ⊆ γ.(sigs).(handling);
  ws_stage c : c ∈ γ.(sigs).(arrived) ∪ γ.(sigs).(handling) → (c < n ∧ 4 <= γ.(stage) c <= 9)%nat;
  ws_reclaimer i : γ.(sigs).(reclaimer) = Some i → (i < n)%nat;
  ws_begun : (γ.(sigs).(begun) + sum_list (γ.(sigs).(left) <$> seq 0 n) <= total)%nat;
  ws_taken c : (γ.(sigs).(taken) c + (if decide (c ∈ γ.(sigs).(arrived)) then 1 else 0) +
    (if decide (γ.(sigs).(reclaimer) = None ∨ c ∈ default ∅ γ.(sigs).(signalled)) then 0 else 1) <= γ.(sigs).(begun))%nat;
}.

(** The lists hold the threads of the stages in between. *)
Record wf (γ : ghost) : Prop := {
  wf_listed : NoDup γ.(listed) ∧ ∀ c, c ∈ γ.(listed) ↔ (c < n ∧ 2 <= γ.(stage) c <= 5)%nat;
  wf_parked : NoDup γ.(parked) ∧ ∀ c, c ∈ γ.(parked) ↔ (c < n ∧ 8 <= γ.(stage) c <= 10)%nat;
  wf_owners i : γ.(list_owner) = Some i ∨ γ.(parked_owner) = Some i → (i < n)%nat;
  wf_sigs : wf_signals γ;
}.

Definition state : Type := mem * ghost.
Implicit Types s : state.
Implicit Types w : cell.

Record inv s : Prop := {
  in_wf : wf s.2;
  in_good w : in_range n w → ∃ x, s.1 !! address w = Some x ∧ good s.2 w x;
  in_mapped : still_mapped m0 s.1;
  in_buffers : buffers_ok s.1;
}.

(** Who moves thread [c] on from stage [k]. *)
Definition mover (c k : nat) : nat := if decide (3 <= k <= 9)%nat then c else parent c.

(** The fields it has to itself, other than by holding a mutex. *)
Definition owned (k : nat) (f : field) : Prop :=
  k = Hooked ∧ (f = Next ∨ f = Active ∨ f = Refs) ∨ k = Launched ∧ (f = Self ∨ f = High) ∨ k = Dropped ∧ f = Next ∨
  k = Gone ∧ f = Refs.

(** What thread [i] can rely on. *)
Record R0 (i : nat) s s' : Prop := {
  R_inv : inv s → inv s';
  R_changes : changes s.1 s'.1;
  R_mono c : (s.2.(stage) c <= s'.2.(stage) c)%nat;
  R_mine c : mover c (s.2.(stage) c) = i → s'.2.(stage) c = s.2.(stage) c;
  R_start : (s.2.(stage) i <= Launched → s'.2.(stage) i <= Launched)%nat;
  R_child c : parent c = i → (s.2.(stage) c <= Over → s'.2.(stage) c <= Over)%nat;
  R_fields c f : (c < n)%nat → owned (s.2.(stage) c) f → mover c (s.2.(stage) c) = i →
    s'.1 !! address (Field c f) = s.1 !! address (Field c f);
  R_list : (s.2.(list_owner) = Some i ↔ s'.2.(list_owner) = Some i) ∧ (s.2.(list_owner) = Some i → s'.2.(listed) = s.2.(listed));
  R_park : (s.2.(parked_owner) = Some i ↔ s'.2.(parked_owner) = Some i) ∧ (s.2.(parked_owner) = Some i → s'.2.(parked) = s.2.(parked));
}.

(** And about the signals. *)
Record RS (i : nat) s s' : Prop := {
  R_reclaimer : s.2.(sigs).(reclaimer) = Some i ↔ s'.2.(sigs).(reclaimer) = Some i;
  R_round : s.2.(sigs).(reclaimer) = Some i → s'.2.(sigs).(signalled) = s.2.(sigs).(signalled) ∧ s'.2.(sigs).(owed) ⊆ s.2.(sigs).(owed);
  R_left : s'.2.(sigs).(left) i = s.2.(sigs).(left) i;
  R_gone : (6 <= s.2.(stage) i)%nat → i ∉ s.2.(sigs).(arrived) ∪ s.2.(sigs).(handling) → i ∉ s'.2.(sigs).(arrived) ∪ s'.2.(sigs).(handling);
}.

Definition R (i : nat) s s' : Prop := R0 i s s' ∧ RS i s s'.

(** What the handler of thread [c] can rely on. *)
Record RH (c : nat) s s' : Prop := {
  RH_inv : inv s → inv s';
  RH_changes : changes s.1 s'.1;
  RH_handling : c ∈ s.2.(sigs).(handling) ↔ c ∈ s'.2.(sigs).(handling);
  RH_helping : c ∈ s.2.(sigs).(helping) ↔ c ∈ s'.2.(sigs).(helping);
  RH_owed : c ∈ s.2.(sigs).(owed) ∖ s.2.(sigs).(arrived) ↔ c ∈ s'.2.(sigs).(owed) ∖ s'.2.(sigs).(arrived);
  RH_taken : s'.2.(sigs).(taken) c = s.2.(sigs).(taken) c;
}.

(** Any step of thread [i], and of the handler of [c]. *)
Definition G (i : nat) s s' : Prop := (inv s → inv s') ∧ (∀ j, j ≠ i → R j s s') ∧ ∀ c, RH c s s'.
Definition GH (c : nat) s s' : Prop := (inv s → inv s') ∧ (∀ j, R j s s') ∧ ∀ c', c' ≠ c → RH c' s s'.

(** What a waiting thread knows, and a waiting handler. *)
Definition W (i : nat) s : Prop :=
  inv s ∧ s.2.(parked_owner) ≠ Some i ∧
  (s.2.(list_owner) ≠ Some i ∧
     (i ≠ 0%nat ∧ (s.2.(stage) i < Launched)%nat ∨ s.2.(list_owner) ≠ None ∨ s.2.(parked_owner) ≠ None ∨
      (∃ c, (i < c < n)%nat ∧ (3 <= s.2.(stage) c <= 9)%nat) ∨
      ∃ c, c ∈ s.2.(sigs).(owed) ∪ s.2.(sigs).(arrived) ∪ s.2.(sigs).(handling)) ∨
   ∃ c, c ∈ s.2.(sigs).(helping)).
Definition WH (c : nat) s : Prop := inv s ∧ c ∉ s.2.(sigs).(arrived) ∪ s.2.(sigs).(handling).

(** *** The program and its threads *)

(** Code that leaves these words and the buffers alone, unless it marks an
    address; its own words are there from the start. *)
Definition elsewhere (m m' : mem) : Prop := (∀ w, in_range n w → m' !! address w = m !! address w) ∧ changes m m'.
Definition quiet (p : prog Z unit) : Prop := ∀ m, still_mapped m0 m → buffers_ok m → rg changes elsewhere p (λ _ _, True) m.

(** What a thread's plan has to be: it creates each of its children, once, and
    joins those that [joined] says, once, after it has created them. *)
Definition outcome_of (i : nat) (c : nat) : nat := if joined c then Gone else Launched.
Fixpoint plan_ok (i : nat) (kids : nat → nat) (l : list action) : Prop :=
  match l with
  | [] => ∀ c, (0 < c < n)%nat → parent c = i → kids c = outcome_of i c
  | Pthread_create c :: l' =>
      (i < c < n)%nat ∧ parent c = i ∧ kids c = Unborn ∧ plan_ok i (upd c Launched kids) l'
  | Pthread_join c :: l' =>
      (i < c < n)%nat ∧ parent c = i ∧ kids c = Launched ∧ plan_ok i (upd c Gone kids) l'
  | Reclaim rsp :: l' => on_stack i rsp ∧ plan_ok i kids l'
  | Work p :: l' => quiet p ∧ plan_ok i kids l'
  end.

(** The handlers run next to their threads: the runs in which a thread stands
    still while its handler runs are among these. *)
Definition pool : list (prog Z unit) :=
  (life v g_threadscan_ptrs_per_thread pthread_kill g thread <$> seq 0 n) ++
  ((λ i, serve v g thread i total) <$> seq 0 n).

(** When main starts: nobody else is there. *)
Definition at_start (w : cell) (x : Z) : Prop :=
  match w with
  | Head => x = td 0%nat
  | Count => x = 1
  | Stamp => TIMESTAMP_IS_ACTIVE x = false
  | Searched => True
  | Field 0 Active | Field 0 Refs => x = 1
  | Field 0 Self => x = self 0%nat
  | Field 0 Time => TIMESTAMP_IS_ACTIVE x = false
  | Field 0 Times => INT_MIN <= x <= INT_MAX
  | Field 0 Next | Field 0 Block_low => x = 0
  | Field 0 High => x = stack_high 0
  | Field 0 _ => True
  | Started c => x = if decide (c = 0%nat) then 1 else 0
  | _ => x = 0
  end.

(** At any time: the lists are lists of different threads, which other threads
    can walk through, and the count is in range. *)
Definition intact (m : mem) : Prop :=
  ∃ l l' p p' k, NoDup (l ++ l') ∧ (∀ c, c ∈ l ++ l' → (c < n)%nat) ∧
    m !! tl_head tl = Some p ∧ tlist m p (td_ <$> l) ∧
    m !! v.(g_td_staged_to_free) = Some p' ∧ tlist m p' (td_ <$> l') ∧
    m !! v.(g_thread_count) = Some k ∧ 0 <= k <= Z.of_nat n.

(** When nobody reclaims, no signal is on its way. *)
Definition settled (m : mem) : Prop :=
  ∀ x, m !! v.(globals).(global_timestamp) = Some x → TIMESTAMP_IS_ACTIVE x = false →
  ∀ c, (c < n)%nat → ∃ y, m !! (thread c).(pr_pending) = Some y ∧ Z.odd y = false.

(** What every word of the library holds, given the stage [k c] of each thread
    and the members [l] and [l'] of the two lists. *)
Record words (k : nat → nat) (l l' : list nat) (m : mem) : Prop := {
  wd_listed : NoDup l ∧ ∀ c, c ∈ l ↔ (c < n ∧ Listed <= k c <= Leaving)%nat;
  wd_parked : NoDup l' ∧ ∀ c, c ∈ l' ↔ (c < n ∧ Parked <= k c <= Over)%nat;
  wd_list : ∃ p, m !! tl_head tl = Some p ∧ tlist m p (td_ <$> l);
  wd_staged : ∃ p, m !! v.(g_td_staged_to_free) = Some p ∧ tlist m p (td_ <$> l');
  wd_mutexes : (∃ x, m !! tl_lock tl = Some x ∧ (x = 0 ∨ x = 1)) ∧ ∃ x, m !! v.(g_staged_lock) = Some x ∧ (x = 0 ∨ x = 1);
  wd_count : m !! v.(g_thread_count) = Some (Z.of_nat (length (filter (λ c, Hooked <= k c <= Parked)%nat (seq 0 n))));
  wd_started c : (c < n)%nat → m !! (thread c).(pr_started) = Some (if decide (Launched <= k c)%nat then 1 else 0);
  wd_ended c : (c < n)%nat → m !! (thread c).(pr_ended) = Some (if decide (Over <= k c)%nat then 1 else 0);
  wd_active c : (c < n)%nat → (Listed <= k c <= Leaving)%nat →
    m !! td_is_active (td c) = Some (if decide (k c = Running) then 1 else 0);
  wd_known c : (c < n)%nat → (Running <= k c <= Over)%nat →
    m !! td_self (td c) = Some (self c) ∧ m !! td_user_stack_high (td c) = Some (stack_high c);
  wd_refs c : (c < n)%nat → (Listed <= k c <= Over)%nat →
    m !! td_ref_count (td c) = Some (if decide (k c <= Unlisted)%nat then 1 else 0);
  wd_block c : (c < n)%nat → (k c <= Over)%nat → m !! td_local_block_low (td c) = Some 0;
  wd_times c : (c < n)%nat → (k c <= Over)%nat → ∃ x, m !! td_times_without_update (td c) = Some x ∧ INT_MIN <= x <= INT_MAX;
  (* 1: a signal is on its way, 2: the handler runs *)
  wd_pending c : (c < n)%nat → ∃ x, m !! (thread c).(pr_pending) = Some x ∧ 0 <= x <= 3 ∧ (x ≠ 0 → (Running <= k c <= Uncounted)%nat);
  wd_flag c x : (c < n)%nat → (k c <= Over)%nat → m !! td_local_timestamp (td c) = Some x → TIMESTAMP_IS_ACTIVE x = true →
    ∃ y, m !! (thread c).(pr_pending) = Some y ∧ 2 <= y;
}.

(** When all have ended. *)
Definition not_joined : list nat := filter (λ c, joined c = false) (seq 1 (n - 1)).
Record at_end (m : mem) : Prop := {
  end_list : thread_list tl m [td 0%nat];
  end_parked : ∃ l p, l ≡ₚ not_joined ∧ m !! v.(g_td_staged_to_free) = Some p ∧ tlist m p (td_ <$> l);
  end_staged_lock : m !! v.(g_staged_lock) = Some 0;
  end_count : m !! v.(g_thread_count) = Some 1;
  end_flags c : c = 0%nat ∨ c ∈ not_joined → ∃ stamp, m !! td_local_timestamp (td c) = Some stamp ∧ TIMESTAMP_IS_ACTIVE stamp = false;
  end_idle : ∃ stamp, m !! v.(globals).(global_timestamp) = Some stamp ∧ TIMESTAMP_IS_ACTIVE stamp = false;
  end_signals c : (c < n)%nat → m !! (thread c).(pr_pending) = Some 0;
  end_refs c : c ∈ not_joined → m !! td_ref_count (td c) = Some 0;
}.

(** What is assumed: the program's threads and their plans, addresses and
    identifiers that differ, addresses to search for with their scan map,
    stacks that are mapped, and the system, which signals a thread that runs;
    for one that has ended the result is undefined. *)
Record setting : Prop := {
  st_number : (0 < n <= S (Z.to_nat MAX_THREAD_COUNT))%nat;
  st_parent c : (0 < c < n)%nat → (parent c < c)%nat;
  st_distinct : NoDup (address <$> all_cells n);
  st_self c c' : (c < n)%nat → (c' < n)%nat → self c = self c' → c = c';
  st_td c : (c < n)%nat → td c ≠ 0;
  st_list : tl ≠ 0;
  st_setup : scan_setup g o not_buffer;
  st_scan : scan_start g o m0;
  st_apart w : in_range n w → ¬ buffer_word (address w);
  st_stack c rsp k : (c < n)%nat → on_stack c rsp → 0 <= k < range_words {| low := rsp; high := stack_high c |} →
    is_Some (m0 !! elt rsp k);
  st_rsp c k : (c < n)%nat → on_stack c ((thread c).(pr_rsp) k);
  st_kill c sig : (c < n)%nat → pthread_kill (self c) sig =
    (runs ← rd (thread c).(pr_started);
     ended ← rd (thread c).(pr_ended);
     if negb (runs =? 0) && (ended =? 0) then _ ← rmw (thread c).(pr_pending) (λ x, Some (Z.lor x 1)); mret 0 else lift UB);
  st_start w : in_range n w → ∃ x, m0 !! address w = Some x ∧ at_start w x;
  st_plan i : (i < n)%nat → plan_ok i (λ _, Unborn) (thread i).(pr_plan);
}.
Context (HS : setting).
Let Hn := st_number HS.
Let Hparent := st_parent HS.
Let Hdistinct := st_distinct HS.
Let Hself := st_self HS.
Let Htd := st_td HS.
Let Htl := st_list HS.
Let Hsetup := st_setup HS.
Let Hscan := st_scan HS.
Let Hapart := st_apart HS.
Let Hstack := st_stack HS.
Let Hrsp := st_rsp HS.
Let Hkill := st_kill HS.
Let Hstart := st_start HS.
Let Hplan := st_plan HS.

(** [set_solver] without the assumptions on the setting. *)
Ltac sets := try clear Hn Hparent Hdistinct Hself Htd Htl Hsetup Hscan Hapart Hstack Hrsp Hkill Hstart Hplan HS; set_solver.

Lemma address_inj w w' : in_range n w → in_range n w' → address w = address w' → w = w'.
Proof.
  intros [i Hi]%elem_of_all_cells%list_elem_of_lookup [j Hj]%elem_of_all_cells%list_elem_of_lookup E.
  assert (i = j) as ->; [|congruence].
  apply (NoDup_lookup _ _ _ (address w) Hdistinct); rewrite list_lookup_fmap, ?Hi, ?Hj; simpl; congruence.
Qed.

(** *** The buffers *)
Lemma changes_refl m : changes m m.
Proof. split; [reflexivity|by intros a]. Qed.

Lemma changes_trans m1 m2 m3 : changes m1 m2 → changes m2 m3 → changes m1 m3.
Proof. intros [A1 A2] [B1 B2]. split; [by etrans|]. intros a Ha. by apply B2, A2. Qed.

Lemma changes_write w x m : in_range n w → changes m (<[address w := x]> m).
Proof.
  intros Hw. split.
  - intros a Ha. left. apply lookup_insert_ne. intros <-. by apply Ha, Hapart.
  - intros a Ha. apply lookup_insert_is_Some'. by right.
Qed.

Lemma changes_buffers m m' : changes m m' → buffers_ok m → buffers_ok m'.
Proof. intros [Hs _]. by apply (scan_inv_step _ _ _ _ Hsetup). Qed.

(** A search of the stack keeps off the words of the library. *)
Lemma search_quiet c rsp : (c < n)%nat → on_stack c rsp → quiet (search_range g {| low := rsp; high := stack_high c |}).
Proof.
  intros Hc Hrs m Hm Hb. apply (rg_weaken changes changes (scan_own g o any_address) elsewhere); [done| |].
  - intros m1 m2 Hs. split; [|by apply may_change_scan_own]. intros w Hw.
    destruct (Hs (address w)) as [?|(k & Hk & E & _)]; [done|]. destruct (Hapart w Hw). left. by exists k.
  - apply (search_range_safe _ _ _ _ Hsetup); [done|]. split; [done|]. intros k Hk. by apply Hm, (Hstack c).
Qed.

(** *** Relies *)
Lemma rely_refl i : Reflexive (R i).
Proof. intros s. split; split; try done. apply changes_refl. Qed.

Lemma R0_trans i s1 s2 s3 : R0 i s1 s2 → R0 i s2 s3 → R0 i s1 s3.
Proof.
  intros [A1 A2 A3 A4 A5 A6 A7 [A8 A8'] [A9 A9']] [B1 B2 B3 B4 B5 B6 B7 [B8 B8'] [B9 B9']]. split; auto; [by eapply changes_trans|..].
  - intros c. specialize (A3 c). specialize (B3 c). lia.
  - intros c Hc. rewrite B4; [by apply A4|]. by rewrite A4.
  - intros c f Hcn Ho Hc. rewrite B7; [by apply A7|done|..]; by rewrite A4.
  - split; [by rewrite A8|]. intros Ho. rewrite B8'; [by apply A8'|by apply A8].
  - split; [by rewrite A9|]. intros Ho. rewrite B9'; [by apply A9'|by apply A9].
Qed.

Lemma rely_trans i : Transitive (R i).
Proof.
  intros s1 s2 s3 [A [A1 A2 A3 A4]] [B [B1 B2 B3 B4]]. split; [by eapply R0_trans|]. split.
  - by rewrite A1.
  - intros Hr. destruct (A2 Hr) as [<- ?], (B2 (proj1 A1 Hr)) as [? ?]. split; [done|sets].
  - congruence.
  - intros Hk Hg. apply B4; [|by apply A4]. pose proof (R_mono _ _ _ A i). lia.
Qed.

Lemma RH_refl c : Reflexive (RH c).
Proof. intros s. split; try done. apply changes_refl. Qed.

Lemma RH_trans c : Transitive (RH c).
Proof.
  intros s1 s2 s3 [A1 A2 A3 A4 A5 A6] [B1 B2 B3 B4 B5 B6]. split; auto; [by eapply changes_trans|by rewrite A3|by rewrite A4|by rewrite A5|congruence].
Qed.

(** *** One write *)
Record moves (i : nat) (γ γ' : ghost) : Prop := {
  mv_stage c : γ'.(stage) c = γ.(stage) c ∨ mover c (γ.(stage) c) = i ∧ γ'.(stage) c = S (γ.(stage) c);
  mv_list : (γ'.(list_owner) = γ.(list_owner) ∨ γ.(list_owner) = None ∧ γ'.(list_owner) = Some i ∨
             γ.(list_owner) = Some i ∧ γ'.(list_owner) = None) ∧
            (γ'.(listed) = γ.(listed) ∨ γ.(list_owner) = Some i);
  mv_park : (γ'.(parked_owner) = γ.(parked_owner) ∨ γ.(parked_owner) = None ∧ γ'.(parked_owner) = Some i ∨
             γ.(parked_owner) = Some i ∧ γ'.(parked_owner) = None) ∧
            (γ'.(parked) = γ.(parked) ∨ γ.(parked_owner) = Some i);
  mv_sigs : γ'.(sigs) = γ.(sigs);
}.

Lemma moves_refl i γ : moves i γ γ.
Proof. split; auto. Qed.

Lemma moves_stage i c γ γ' :
  mover c (γ.(stage) c) = i → γ'.(stage) = (set_stage c (S (γ.(stage) c)) γ).(stage) →
  γ'.(list_owner) = γ.(list_owner) → γ'.(parked_owner) = γ.(parked_owner) → γ'.(sigs) = γ.(sigs) →
  γ'.(listed) = γ.(listed) ∨ γ.(list_owner) = Some i → γ'.(parked) = γ.(parked) ∨ γ.(parked_owner) = Some i → moves i γ γ'.
Proof.
  intros Hm E1 E2 E3 E4 E5 E6. split.
  - intros x. rewrite E1. cbn. case_decide; [subst x; by right|by left].
  - split; [by left|done].
  - split; [by left|done].
  - done.
Qed.

Lemma write_inv s w x γ' :
  inv s → in_range n w → wf γ' → good γ' w x →
  (∀ w' y, w' ≠ w → in_range n w' → s.1 !! address w' = Some y → good s.2 w' y → good γ' w' y) →
  inv (<[address w := x]> s.1, γ').
Proof.
  intros [Hwf Hgood Hmap Hbuf] Hw Hwf' Hx Hkeep. split; [done|..]; cbn [fst snd].
  - intros w' Hw'. destruct (decide (w' = w)) as [->|Hne].
    + exists x. by rewrite lookup_insert_eq.
    + destruct (Hgood w' Hw') as (y & Hy & Hg). exists y. rewrite lookup_insert_ne; [auto|].
      intros E%address_inj; [|done|done]. congruence.
  - intros a Ha. apply lookup_insert_is_Some'. auto.
  - by apply (changes_buffers s.1); [apply changes_write|].
Qed.

Lemma write_G i s w x γ' :
  in_range n w → moves i s.2 γ' → (inv s → inv (<[address w := x]> s.1, γ')) →
  (∀ c f, w = Field c f → owned (s.2.(stage) c) f → mover c (s.2.(stage) c) = i) →
  G i s (<[address w := x]> s.1, γ').
Proof.
  intros Hw [M1 [M2 M2'] [M3 M3'] M4] Hinv Hown. split; [done|]. split.
  2: { intros c. split; cbn [fst snd]; rewrite ?M4; try done. by apply changes_write. }
  intros j Hj. split; [|split; cbn [snd]; by rewrite ?M4]. split; cbn [fst snd].
  - done.
  - by apply changes_write.
  - intros c. destruct (M1 c); lia.
  - intros c Hc. destruct (M1 c) as [?|[Hm _]]; congruence.
  - destruct (M1 j) as [?|[Hm E]]; [lia|]. unfold mover in Hm. case_decide; [congruence|lia].
  - intros c Hc Hle. destruct (M1 c) as [?|[Hm E]]; [lia|]. unfold mover in Hm. case_decide; [lia|congruence].
  - intros c f Hcn Ho Hc. apply lookup_insert_ne. intros E%address_inj; [|done|done].
    specialize (Hown c f E Ho). congruence.
  - split; [|intros Ho; destruct M2'; congruence]. intuition congruence.
  - split; [|intros Ho; destruct M3'; congruence]. intuition congruence.
Qed.

(** *** Stages and lists *)
Lemma wf_signals_stage γ γ' :
  wf_signals γ → γ'.(sigs) = γ.(sigs) →
  (∀ c, c ∈ γ.(sigs).(arrived) ∪ γ.(sigs).(handling) → (4 <= γ.(stage) c <= 9)%nat → (4 <= γ'.(stage) c <= 9)%nat) →
  wf_signals γ'.
Proof.
  intros [A1 A2 A3 A4 A5 A6 A7 A8 A9] E Hst. split; rewrite ?E; try done.
  intros c Hc. destruct (A6 c Hc) as [Hcn Hk]. split; [done|]. by apply Hst.
Qed.

Lemma wf_stage c k γ :
  ((2 <= γ.(stage) c <= 5) ↔ (2 <= k <= 5))%nat → ((8 <= γ.(stage) c <= 10) ↔ (8 <= k <= 10))%nat →
  (c ∈ γ.(sigs).(arrived) ∪ γ.(sigs).(handling) → (4 <= γ.(stage) c <= 9) → (4 <= k <= 9))%nat →
  wf γ → wf (set_stage c k γ).
Proof.
  intros H1 H2 H3 [[W1 W1'] [W2 W2'] W3 W4]. split; cbn.
  - split; [done|]. intros x. rewrite W1'. case_decide; [subst; lia|done].
  - split; [done|]. intros x. rewrite W2'. case_decide; [subst; lia|done].
  - done.
  - apply (wf_signals_stage γ); [done|done|]. intros x Hx. cbn. case_decide; [subst; auto|done].
Qed.

Lemma wf_enlist c γ : (c < n)%nat → γ.(stage) c = Hooked → wf γ → wf (set_stage c Listed (set_listed (c :: γ.(listed)) γ)).
Proof.
  intros Hc Hk [[W1 W1'] [W2 W2'] W3 W4]. split; cbn.
  - split; [apply NoDup_cons; split; [rewrite W1'; lia|done]|]. intros x. rewrite elem_of_cons, W1'. case_decide; [subst; lia|].
    intuition.
  - split; [done|]. intros x. rewrite W2'. case_decide; [subst; lia|done].
  - done.
  - apply (wf_signals_stage γ); [done|done|]. intros x Hx. cbn. case_decide; [subst; lia|done].
Qed.

Lemma wf_park c γ : (c < n)%nat → γ.(stage) c = Dropped → wf γ → wf (set_stage c Parked (set_parked (c :: γ.(parked)) γ)).
Proof.
  intros Hc Hk [[W1 W1'] [W2 W2'] W3 W4]. split; cbn.
  - split; [done|]. intros x. rewrite W1'. case_decide; [subst; lia|done].
  - split; [apply NoDup_cons; split; [rewrite W2'; lia|done]|]. intros x. rewrite elem_of_cons, W2'. case_decide; [subst; lia|].
    intuition.
  - done.
  - apply (wf_signals_stage γ); [done|done|]. intros x Hx. cbn. case_decide; [subst; lia|done].
Qed.

Lemma elem_of_without (pre post : list nat) c x : NoDup (pre ++ c :: post) → x ∈ pre ++ post ↔ x ∈ pre ++ c :: post ∧ x ≠ c.
Proof. intros (H1 & H2 & [H3 H4]%NoDup_cons)%NoDup_app. specialize (H2 c). sets. Qed.

Lemma NoDup_without (pre post : list nat) c : NoDup (pre ++ c :: post) → NoDup (pre ++ post).
Proof. intros (H1 & H2 & [H3 H4]%NoDup_cons)%NoDup_app. apply NoDup_app. sets. Qed.

Lemma wf_delist pre c post γ :
  γ.(listed) = pre ++ c :: post → γ.(stage) c = Leaving → wf γ → wf (set_stage c Unlisted (set_listed (pre ++ post) γ)).
Proof.
  intros Hl Hk [[W1 W1'] [W2 W2'] W3 W4]. rewrite Hl in W1. split; cbn.
  - split; [by eapply NoDup_without|]. intros x. rewrite elem_of_without, <- Hl, W1' by done. case_decide; [subst; lia|].
    intuition.
  - split; [done|]. intros x. rewrite W2'. case_decide; [subst; lia|done].
  - done.
  - apply (wf_signals_stage γ); [done|done|]. intros x Hx. cbn. case_decide; [subst; lia|done].
Qed.

Lemma wf_unpark pre c post γ :
  γ.(parked) = pre ++ c :: post → γ.(stage) c = Over → wf γ → wf (set_stage c Gone (set_parked (pre ++ post) γ)).
Proof.
  intros Hl Hk [[W1 W1'] [W2 W2'] W3 W4]. rewrite Hl in W2. split; cbn.
  - split; [done|]. intros x. rewrite W1'. case_decide; [subst; lia|done].
  - split; [by eapply NoDup_without|]. intros x. rewrite elem_of_without, <- Hl, W2' by done. case_decide; [subst; lia|].
    intuition.
  - done.
  - apply (wf_signals_stage γ); [done|done|]. intros x Hx. cbn. case_decide; [subst; lia|done].
Qed.

(** The count. *)
Lemma counted_same c k γ γ' :
  γ'.(stage) = (set_stage c k γ).(stage) → ((1 <= γ.(stage) c <= 8) ↔ (1 <= k <= 8))%nat → counted γ' = counted γ.
Proof.
  intros E Hk. unfold counted. apply list_filter_iff. intros x. rewrite E. cbn. case_decide; [by subst|done].
Qed.

Lemma length_counted c k γ :
  (c < n)%nat → (¬ (1 <= γ.(stage) c <= 8))%nat → (1 <= k <= 8)%nat →
  length (counted (set_stage c k γ)) = S (length (counted γ)) ∧ (length (counted γ) < n)%nat.
Proof.
  intros Hc Hk Hk'. unfold counted.
  assert (seq 0 n = seq 0 c ++ c :: seq (S c) (n - S c)) as E.
  { replace n with (c + S (n - S c))%nat at 1 by lia. by rewrite seq_app. }
  assert (∀ l : list nat, c ∉ l → filter (λ x, (1 <= (set_stage c k γ).(stage) x <= 8)%nat) l = filter (λ x, (1 <= γ.(stage) x <= 8)%nat) l) as Hl.
  { intros l Hl. induction l as [|x l IH]; [done|]. apply not_elem_of_cons in Hl as [Hne Hl].
    rewrite !filter_cons, IH by done. cbn. rewrite (decide_False (P := x = c)) by done. done. }
  assert (c ∉ seq 0 c ∧ c ∉ seq (S c) (n - S c)) as [H1 H2] by (rewrite !elem_of_seq; lia).
  rewrite E, !filter_app, !filter_cons, !Hl, !length_app by done. cbn [stage set_stage]. rewrite (decide_True (P := c = c)) by done.
  rewrite decide_True, decide_False by done. cbn [length]. split; [lia|].
  pose proof (length_filter (λ x, (1 <= γ.(stage) x <= 8)%nat) (seq 0 c)) as L1.
  pose proof (length_filter (λ x, (1 <= γ.(stage) x <= 8)%nat) (seq (S c) (n - S c))) as L2.
  rewrite length_seq in *. lia.
Qed.

(** *** Rules

    For any rely and any knowledge of those who wait. *)
Definition stable_under (Re : state → state → Prop) (Φ : state → Prop) : Prop := ∀ s s', Re s s' → Φ s → Φ s'.

Section rules.
Context {Re : state → state → Prop} {Wa : state → Prop}.

Lemma rule_rd {A} Gu Φ w (k : Z → prog Z A) P s :
  stable_under Re Φ → (∀ s, Φ s → inv s) → in_range n w → Φ s →
  (∀ x s', Φ s' → s'.1 !! address w = Some x → good s'.2 w x → grg Re Gu Wa (k x) P s') →
  grg Re Gu Wa (rd (address w) ≫= k) P s.
Proof.
  intros HΦ Hinv Hw Hs Hk. apply grg_bind_rd. intros s1 S1. pose proof (HΦ _ _ S1 Hs) as Hs1.
  destruct (in_good _ (Hinv _ Hs1) w Hw) as (x & Hx & Hg). simpl sread. rewrite Hx. apply wp_ret. by apply Hk.
Qed.

Lemma rule_wr {A} Gu Φ w x (f : ghost → ghost) (k : unit → prog Z A) P s :
  stable_under Re Φ → (∀ s, Φ s → inv s) → in_range n w → Φ s →
  (∀ s1, Φ s1 → Gu s1 (<[address w := x]> s1.1, f s1.2) ∧ grg Re Gu Wa (k tt) P (<[address w := x]> s1.1, f s1.2)) →
  grg Re Gu Wa (wr (address w) x ≫= k) P s.
Proof.
  intros HΦ Hinv Hw Hs Hk. apply grg_bind_wr. intros s1 S1. pose proof (HΦ _ _ S1 Hs) as Hs1.
  destruct (in_good _ (Hinv _ Hs1) w Hw) as (y & Hy & _). simpl swrite. rewrite Hy. apply wp_ret.
  exists (f s1.2). by apply Hk.
Qed.

Lemma rule_wr_then {A} Gu Φ Ψ w x (f : ghost → ghost) (k : unit → prog Z A) P s :
  stable_under Re Φ → (∀ s, Φ s → inv s) → in_range n w → Φ s →
  (∀ s1, Φ s1 → Gu s1 (<[address w := x]> s1.1, f s1.2) ∧ Ψ (<[address w := x]> s1.1, f s1.2)) →
  (∀ s', Ψ s' → grg Re Gu Wa (k tt) P s') → grg Re Gu Wa (wr (address w) x ≫= k) P s.
Proof.
  intros HΦ Hinv Hw Hs Hstep Hk. apply (rule_wr Gu Φ w x f); [done..|]. intros s1 Hs1. destruct (Hstep s1 Hs1) as [? ?].
  split; [done|by apply Hk].
Qed.

Lemma rule_wr_last Gu Φ Ψ w x (f : ghost → ghost) s :
  stable_under Re Φ → (∀ s, Φ s → inv s) → in_range n w → stable_under Re Ψ → Φ s →
  (∀ s1, Φ s1 → Gu s1 (<[address w := x]> s1.1, f s1.2) ∧ Ψ (<[address w := x]> s1.1, f s1.2)) →
  grg Re Gu Wa (wr (address w) x) (λ _, Ψ) s.
Proof.
  intros HΦ Hinv Hw HΨ Hs Hk. apply grg_wr. intros s1 S1. pose proof (HΦ _ _ S1 Hs) as Hs1.
  destruct (in_good _ (Hinv _ Hs1) w Hw) as (y & Hy & _). simpl swrite. rewrite Hy. apply wp_ret.
  exists (f s1.2). destruct (Hk s1 Hs1) as [HG HΨ1]. split; [done|]. intros s3 S3. by eapply HΨ.
Qed.

(** Atomic operations; [op] is the new value, if the operation can be done. *)
Lemma rule_rmw_at {A} Gu Φ w op (f : Z → ghost → ghost) (k : Z → prog Z A) P s :
  stable_under Re Φ → (∀ s, Φ s → inv s) → in_range n w → Φ s →
  (∀ x s1, Φ s1 → s1.1 !! address w = Some x → good s1.2 w x →
     match op x with
     | Some y => Gu s1 (<[address w := y]> s1.1, f x s1.2) ∧ grg Re Gu Wa (k x) P (<[address w := y]> s1.1, f x s1.2)
     | None => Wa s1
     end) →
  grg Re Gu Wa (rmw (address w) op ≫= k) P s.
Proof.
  intros HΦ Hinv Hw Hs Hk. apply grg_bind_rmw. intros s1 S1. pose proof (HΦ _ _ S1 Hs) as Hs1.
  destruct (in_good _ (Hinv _ Hs1) w Hw) as (x & Hx & Hg). simpl sread. rewrite Hx. apply wp_ret.
  specialize (Hk x s1 Hs1 Hx Hg). destruct (op x) as [y|]; [|done].
  simpl swrite. rewrite Hx. apply wp_ret. by exists (f x s1.2).
Qed.

Lemma rule_rmw {A} Gu Φ w op (f : ghost → ghost) (k : Z → prog Z A) P s :
  stable_under Re Φ → (∀ s, Φ s → inv s) → in_range n w → Φ s →
  (∀ x s1, Φ s1 → s1.1 !! address w = Some x → good s1.2 w x →
     match op x with
     | Some y => Gu s1 (<[address w := y]> s1.1, f s1.2) ∧ grg Re Gu Wa (k x) P (<[address w := y]> s1.1, f s1.2)
     | None => Wa s1
     end) →
  grg Re Gu Wa (rmw (address w) op ≫= k) P s.
Proof. apply (rule_rmw_at Gu Φ w op (λ _, f)). Qed.

Lemma rule_await {A} Gu Φ w (op : Z → bool) (k : Z → prog Z A) P s :
  stable_under Re Φ → (∀ s, Φ s → inv s) → in_range n w → Φ s →
  (∀ x s1, Φ s1 → s1.1 !! address w = Some x → good s1.2 w x →
     if op x then grg Re Gu Wa (k x) P s1 else Wa s1) →
  grg Re Gu Wa (await (address w) op ≫= k) P s.
Proof.
  intros HΦ Hinv Hw Hs Hk. apply grg_bind_await. intros s1 S1. pose proof (HΦ _ _ S1 Hs) as Hs1.
  destruct (in_good _ (Hinv _ Hs1) w Hw) as (x & Hx & Hg). simpl sread. rewrite Hx. apply wp_ret. by apply Hk.
Qed.

(** Code that keeps off these words. *)
Lemma elsewhere_R0 j m m' γ : inv (m', γ) → elsewhere m m' → R0 j (m, γ) (m', γ).
Proof. intros Hi' [Hsame Hmap]. split; cbn; try done. intros c f Hc _ _. by apply (Hsame (Field c f)). Qed.

Lemma elsewhere_G j m m' γ : inv (m', γ) → elsewhere m m' → G j (m, γ) (m', γ) ∧ GH j (m, γ) (m', γ).
Proof.
  intros Hi' He. assert (∀ j, R j (m, γ) (m', γ)) as HR by (intros j'; split; [by apply elsewhere_R0|by split]).
  assert (∀ c, RH c (m, γ) (m', γ)) as HRH by (intros c; split; try done; by destruct He).
  by split; split; [|split| |split].
Qed.

Lemma quiet_grg Gu (Φ : state → Prop) p s :
  stable_under Re Φ → (∀ s, Φ s → inv s) → (∀ s s', Re s s' → changes s.1 s'.1) →
  (∀ m m' γ, inv (m', γ) → elsewhere m m' → Φ (m, γ) → Φ (m', γ) ∧ Gu (m, γ) (m', γ)) →
  quiet p → Φ s → grg Re Gu Wa p (λ _, Φ) s.
Proof.
  intros HΦ Hinv Hmap HGu Hp Hs. apply grg_mono with (P := λ _ s', Φ s' ∧ True); [|by intros [] s' []].
  apply (grg_of_rg_inv Re Gu Wa Φ changes elsewhere p (λ _ _, True));
    [| |done|apply Hp; [apply (in_mapped _ (Hinv _ Hs))|apply (in_buffers _ (Hinv _ Hs))]].
  - intros s1 s2 HR Hs1. split; [by eapply HΦ|by apply Hmap].
  - intros m m' γ Hm [Hsame Hm']. apply HGu; [|by split|done].
    destruct (Hinv _ Hm) as [I1 I2 I3 I4]. split; cbn in *; [done| |intros a Ha; by apply Hm', I3|by eapply changes_buffers].
    intros w Hw. rewrite Hsame by done. by apply I2.
Qed.

(** What a search does first, and the rest of it. *)
Lemma user_stack_grg Gu Φ c s :
  stable_under Re Φ → (∀ s, Φ s → inv s) → (c < n)%nat → (∀ s, Φ s → 4 <= s.2.(stage) c <= 10)%nat → Φ s →
  grg Re Gu Wa (threadscan_thread_user_stack (td c)) (λ r s', r.(high) = stack_high c ∧ Φ s') s.
Proof.
  intros HΦ Hinv Hc Hst Hs. unfold threadscan_thread_user_stack.
  apply (rule_rd Gu Φ (Field c Low)); [done..|]. clear s Hs. intros x s Hs _ _.
  apply (rule_rd Gu Φ (Field c High)); [done..|]. clear s Hs. intros y s Hs _ Hg.
  apply grg_ret. intros s' S. split; [by apply Hg, Hst|by eapply HΦ].
Qed.

Lemma search_block_grg Gu Φ c s :
  stable_under Re Φ → (∀ s, Φ s → inv s) → (c < n)%nat → (∀ s, Φ s → 4 <= s.2.(stage) c <= 10)%nat → Φ s →
  grg Re Gu Wa (search_local_block g (td c)) (λ _, Φ) s.
Proof.
  intros HΦ Hinv Hc Hst Hs. unfold search_local_block. apply (rule_rd Gu Φ (Field c Block_low)); [done..|].
  clear s Hs. intros x s Hs _ Hg. cbn in Hg. rewrite Hg by (specialize (Hst s Hs); lia). apply grg_ret. intros s' S. by eapply HΦ.
Qed.

End rules.

(** *** What thread [i] knows *)
Section one.
Context (i : nat) (Hi : (i < n)%nat).
Implicit Types kids : view.

(** The stage of a child as far as its parent knows: from [Launched] on it
    moves by itself. *)
Definition knows (k x : nat) : Prop := k = Launched ∧ (3 <= x <= 10)%nat ∨ (k < 3 ∨ 10 <= k)%nat ∧ x = k.

Record K (k : nat) (lo po : bool) (kids : view) s : Prop := {
  k_inv : inv s;
  k_stage : s.2.(stage) i = k;
  k_sigs : s.2.(sigs).(left) i = kids.(budget) ∧ (s.2.(sigs).(reclaimer) = Some i ↔ kids.(reclaims) = true);
  k_list : s.2.(list_owner) = Some i ↔ lo = true;
  k_park : s.2.(parked_owner) = Some i ↔ po = true;
  k_kids c : (0 < c < n)%nat → parent c = i → knows (kids c) (s.2.(stage) c);
}.

Notation stable := (stable_under (R i)).

Lemma K_stable k lo po kids : (3 <= k <= 9)%nat → stable (K k lo po kids).
Proof.
  intros Hk s s' [HR HRS] [K1 K2 [K3 K3'] K4 K5 K6]. split.
  - by apply (R_inv _ _ _ HR).
  - rewrite <- K2. apply (R_mine _ _ _ HR). unfold mover. by rewrite decide_True by lia.
  - by rewrite (R_left _ _ _ HRS), <- (R_reclaimer _ _ _ HRS).
  - rewrite <- K4. symmetry. apply (R_list _ _ _ HR).
  - rewrite <- K5. symmetry. apply (R_park _ _ _ HR).
  - intros c Hc Hp. destruct (K6 c Hc Hp) as [[E Hx]|[Hk' E]].
    + left. split; [done|]. pose proof (R_mono _ _ _ HR c). pose proof (R_child _ _ _ HR c Hp). lia.
    + right. split; [done|]. rewrite <- E. apply (R_mine _ _ _ HR). unfold mover. by rewrite decide_False by lia.
Qed.

Lemma stable_and Φ Ψ : stable Φ → stable Ψ → stable (λ s, Φ s ∧ Ψ s).
Proof. intros H1 H2 s s' HR [HΦ HΨ]. split; [by eapply H1|by eapply H2]. Qed.

(** With a mutex, and the list it protects. *)
Definition KL (k : nat) (kids : view) (l : list nat) s : Prop := K k true false kids s ∧ s.2.(listed) = l.
Definition KP (k : nat) (kids : view) (l : list nat) s : Prop := K k false true kids s ∧ s.2.(parked) = l.

Lemma KL_stable k kids l : (3 <= k <= 9)%nat → stable (KL k kids l).
Proof.
  intros Hk s s' HR [HK <-]. split; [by apply (K_stable k true false kids Hk s s')|].
  apply (R_list _ _ _ (proj1 HR)). by apply (k_list _ _ _ _ _ HK).
Qed.

Lemma KP_stable k kids l : (3 <= k <= 9)%nat → stable (KP k kids l).
Proof.
  intros Hk s s' HR [HK <-]. split; [by apply (K_stable k false true kids Hk s s')|].
  apply (R_park _ _ _ (proj1 HR)). by apply (k_park _ _ _ _ _ HK).
Qed.

Lemma write_step s w x γ' :
  inv s → in_range n w → moves i s.2 γ' → wf γ' → good γ' w x →
  (∀ w' y, w' ≠ w → in_range n w' → s.1 !! address w' = Some y → good s.2 w' y → good γ' w' y) →
  (∀ c f, w = Field c f → owned (s.2.(stage) c) f → mover c (s.2.(stage) c) = i) →
  G i s (<[address w := x]> s.1, γ') ∧ inv (<[address w := x]> s.1, γ').
Proof.
  intros Hinv Hw Hm Hwf Hg Hkeep Hown.
  assert (inv (<[address w := x]> s.1, γ')) as Hinv' by (by apply write_inv).
  split; [|done]. by apply write_G.
Qed.

(** *** The two mutexes *)
Lemma list_owner_step s o' :
  inv s → (s.2.(list_owner) = None ∧ o' = Some i ∨ s.2.(list_owner) = Some i ∧ o' = None) →
  G i s (<[address Lock := if o' then 1 else 0]> s.1, set_list_owner o' s.2) ∧
  inv (<[address Lock := if o' then 1 else 0]> s.1, set_list_owner o' s.2).
Proof.
  intros Hs Ho. pose proof (in_wf _ Hs) as [W1 W2 W3 W4]. apply write_step; try done.
  - split; [by left|split; [|by left]|split; by left|done]. right. cbn. tauto.
  - split; [done|done| |by apply (wf_signals_stage s.2)]. cbn. intros j [Hj|Hj]; [|apply W3; by right]. by destruct Ho as [[_ ->]|[_ ->]]; simplify_eq.
  - by intros [] y.
Qed.

Lemma parked_owner_step s o' :
  inv s → (s.2.(parked_owner) = None ∧ o' = Some i ∨ s.2.(parked_owner) = Some i ∧ o' = None) →
  G i s (<[address Staged_lock := if o' then 1 else 0]> s.1, set_parked_owner o' s.2) ∧
  inv (<[address Staged_lock := if o' then 1 else 0]> s.1, set_parked_owner o' s.2).
Proof.
  intros Hs Ho. pose proof (in_wf _ Hs) as [W1 W2 W3 W4]. apply write_step; try done.
  - split; [by left|split; by left|split; [|by left]|done]. right. cbn. tauto.
  - split; [done|done| |by apply (wf_signals_stage s.2)]. cbn. intros j [Hj|Hj]; [apply W3; by left|]. by destruct Ho as [[_ ->]|[_ ->]]; simplify_eq.
  - by intros [] y.
Qed.

Lemma list_lock_grg_with (B : state → Prop) k kids s :
  (4 <= k <= 9)%nat → (∀ lo, stable (λ s, K k lo false kids s ∧ B s)) →
  (∀ s, B s → B (<[address Lock := 1]> s.1, set_list_owner (Some i) s.2)) → K k false false kids s → B s →
  grg (R i) (G i) (W i) (pthread_mutex_lock (tl_lock tl)) (λ _ s', KL k kids s'.2.(listed) s' ∧ B s') s.
Proof.
  intros Hk HB HBw Hs Hb. unfold pthread_mutex_lock.
  apply (rule_rmw (G i) (λ s, K k false false kids s ∧ B s) Lock _ (set_list_owner (Some i))); [apply HB|by intros ? [[] _]|done|done|].
  clear s Hs Hb. intros x s [Hs Hb] Hx Hg. cbn in Hg. pose proof Hs as [K1 K2 K3 K4 K5 K6].
  destruct (s.2.(list_owner)) as [j|] eqn:Ho; subst x; cbn [Z.eqb].
  { assert (s.2.(list_owner) ≠ Some i ∧ s.2.(parked_owner) ≠ Some i) as [? ?] by (rewrite Ho in *; intuition congruence).
    split; [done|]. split; [done|]. left. split; [done|]. right. left. congruence. }
  destruct (list_owner_step s (Some i) K1 ltac:(by left)) as [HG Hi'].
  split; [done|]. apply grg_ret. intros s2 S2.
  destruct (HB true _ _ S2) as [HK2 HB2]; [split; [by split|by apply HBw]|]. done.
Qed.

Lemma list_lock_grg k kids s :
  (4 <= k <= 9)%nat → K k false false kids s →
  grg (R i) (G i) (W i) (pthread_mutex_lock (tl_lock tl)) (λ _ s', KL k kids s'.2.(listed) s') s.
Proof.
  intros Hk Hs. eapply grg_mono; [apply (list_lock_grg_with (λ _, True) k kids); try done|by intros _ s' []].
  intros lo s1 s2 HR [HK _]. split; [|done]. by eapply K_stable; [lia|..].
Qed.

Lemma list_unlock_grg_with (B : state → Prop) k kids l s :
  (4 <= k <= 9)%nat → (∀ lo, stable (λ s, K k lo false kids s ∧ B s)) →
  (∀ s, B s → B (<[address Lock := 0]> s.1, set_list_owner None s.2)) → KL k kids l s ∧ B s →
  grg (R i) (G i) (W i) (pthread_mutex_unlock (tl_lock tl)) (λ _ s', K k false false kids s' ∧ B s') s.
Proof.
  intros Hk HB HBw Hs. unfold pthread_mutex_unlock.
  apply (rule_wr_last (G i) (λ s, KL k kids l s ∧ B s) (λ s, K k false false kids s ∧ B s) Lock 0 (set_list_owner None));
    [|by intros ? [[[]]]|done|apply HB|done|].
  - intros s1 s2 HR [HK1 HB1]. split; [by apply (KL_stable k kids l ltac:(lia) s1)|].
    destruct (HB true _ _ HR) as [_ ?]; [split; [apply HK1|done]|done].
  - intros s1 [[[K1 K2 K3 K4 K5 K6] _] HB1].
    destruct (list_owner_step s1 None K1 ltac:(right; tauto)) as [HG Hi']. split; [done|]. split; [by split|by apply HBw].
Qed.

Lemma list_unlock_grg k kids l s :
  (4 <= k <= 9)%nat → KL k kids l s →
  grg (R i) (G i) (W i) (pthread_mutex_unlock (tl_lock tl)) (λ _, K k false false kids) s.
Proof.
  intros Hk Hs. eapply grg_mono; [apply (list_unlock_grg_with (λ _, True) k kids l); try done|by intros [] s' []].
  intros lo s1 s2 HR [HK _]. split; [|done]. by eapply K_stable; [lia|..].
Qed.

Lemma parked_lock_grg k kids s :
  (4 <= k <= 9)%nat → K k false false kids s →
  grg (R i) (G i) (W i) (pthread_mutex_lock v.(g_staged_lock)) (λ _ s', KP k kids s'.2.(parked) s') s.
Proof.
  intros Hk Hs. unfold pthread_mutex_lock.
  apply (rule_rmw (G i) (K k false false kids) Staged_lock _ (set_parked_owner (Some i))); [apply K_stable; lia|by intros ? []|done|done|].
  intros x s1 Hs1 Hx Hg. cbn in Hg. pose proof Hs1 as [K1 K2 K3 K4 K5 K6].
  destruct (s1.2.(parked_owner)) as [j|] eqn:Ho; subst x; cbn [Z.eqb].
  { assert (s1.2.(list_owner) ≠ Some i ∧ s1.2.(parked_owner) ≠ Some i) as [? ?] by (rewrite Ho in *; intuition congruence).
    split; [done|]. split; [done|]. left. split; [done|]. right. right. left. congruence. }
  destruct (parked_owner_step s1 (Some i) K1 ltac:(by left)) as [HG Hi'].
  split; [done|]. apply grg_ret. intros s2 S2.
  assert (KP k kids (parked s1.2) (<[address Staged_lock := 1]> s1.1, set_parked_owner (Some i) s1.2)) as HKP by (by split; [split|]).
  pose proof (KP_stable k kids (parked s1.2) ltac:(lia) _ _ S2 HKP) as [? E]. by split.
Qed.

Lemma parked_unlock_grg_with (B : state → Prop) k kids l s :
  (4 <= k <= 9)%nat → (∀ po, stable (λ s, K k false po kids s ∧ B s)) →
  (∀ s γ, B s → B (<[address Staged_lock := 0]> s.1, γ)) → KP k kids l s ∧ B s →
  grg (R i) (G i) (W i) (pthread_mutex_unlock v.(g_staged_lock)) (λ _ s', K k false false kids s' ∧ B s') s.
Proof.
  intros Hk HB HBw Hs. unfold pthread_mutex_unlock.
  apply (rule_wr_last (G i) (λ s, KP k kids l s ∧ B s) (λ s, K k false false kids s ∧ B s) Staged_lock 0 (set_parked_owner None));
    [|by intros ? [[[]]]|done|apply HB|done|].
  - intros s1 s2 HR [HK1 HB1]. split; [by apply (KP_stable k kids l ltac:(lia) s1)|].
    destruct (HB true _ _ HR) as [_ ?]; [split; [apply HK1|done]|done].
  - intros s1 [[[K1 K2 K3 K4 K5 K6] _] HB1].
    destruct (parked_owner_step s1 None K1 ltac:(right; tauto)) as [HG Hi']. split; [done|]. split; [by split|by apply HBw].
Qed.

Lemma parked_unlock_grg k kids l s :
  (4 <= k <= 9)%nat → KP k kids l s →
  grg (R i) (G i) (W i) (pthread_mutex_unlock v.(g_staged_lock)) (λ _, K k false false kids) s.
Proof.
  intros Hk Hs. eapply grg_mono; [apply (parked_unlock_grg_with (λ _, True) k kids l); try done|by intros [] s' []].
  intros po s1 s2 HR [HK _]. split; [|done]. by eapply K_stable; [lia|..].
Qed.

(** *** Creation *)
(** After [set_stage] of a child, or of the thread itself. *)
Lemma K_child k lo po kids c k' s s' :
  K k lo po kids s → inv s' → c ≠ i → (k' < 3 ∨ 10 <= k' ∨ k' = Launched)%nat →
  s'.2.(stage) = (set_stage c k' s.2).(stage) → s'.2.(list_owner) = s.2.(list_owner) →
  s'.2.(parked_owner) = s.2.(parked_owner) → s'.2.(sigs) = s.2.(sigs) → K k lo po (updv c k' kids) s'.
Proof.
  intros [K1 K2 K3 K4 K5 K6] Hinv Hne Hk' E1 E2 E3 E4. split; rewrite ?E1, ?E2, ?E3, ?E4; try done; cbn.
  - by rewrite decide_False.
  - intros x Hx Hp. cbn. unfold upd. case_decide; [|by apply K6]. subst x. unfold knows. lia.
Qed.

Lemma K_self k lo po kids k' s s' :
  K k lo po kids s → inv s' → s'.2.(stage) = (set_stage i k' s.2).(stage) → s'.2.(list_owner) = s.2.(list_owner) →
  s'.2.(parked_owner) = s.2.(parked_owner) → s'.2.(sigs) = s.2.(sigs) → K k' lo po kids s'.
Proof.
  intros [K1 K2 K3 K4 K5 K6] Hinv E1 E2 E3 E4. split; rewrite ?E1, ?E2, ?E3, ?E4; try done; cbn.
  - by rewrite decide_True.
  - intros x Hx Hp. rewrite decide_False; [by apply K6|]. intros ->. pose proof (Hparent i). lia.
Qed.

(** The obligations of [write_step] about the other words. *)
Ltac by_stage Hg :=
  repeat match type of Hg with
         | ?P → _ => let HP := fresh in assert P as HP by lia; specialize (Hg HP); clear HP
         end; try done; try congruence; try lia; auto.
(** [count] proves that the count is what it was; [rest] what is special. *)
Ltac other_words count :=
  let c' := fresh "c'" in
  intros [| | | | | | |c' []|c'|c'|c'] y; cbn; intros Hne Hr Hy; repeat case_decide; subst; try done; try lia;
  intros Hg; try (rewrite count; done);
  try (let Hg' := fresh in destruct Hg as [Hg Hg']; split; intros; [by_stage Hg|by_stage Hg']; fail); intros; by_stage Hg.

Section create.
Context (c : nat) (Hc : (i < c < n)%nat) (Hp : parent c = i).

(** The values of fields of a child that is not in the list yet. *)
Definition known (l : list (field * Z)) s : Prop :=
  ∀ f x, (f, x) ∈ l → owned Hooked f ∧ s.1 !! address (Field c f) = Some x.

Lemma kid_stage k lo po kids x s : K k lo po kids s → kids c = x → x ≠ Launched → s.2.(stage) c = x.
Proof. intros HK <- Hx. destruct (k_kids _ _ _ _ _ HK c ltac:(lia) Hp) as [[? _]|[_ ?]]; congruence. Qed.

Lemma mover_kid k : (k < 3 ∨ 10 <= k)%nat → mover c k = i.
Proof. intros Hk. unfold mover. by rewrite decide_False by lia. Qed.

Lemma known_stable (B : state → Prop) k lo po kids l :
  stable B → (∀ s, B s → K k lo po kids s) → kids c = Hooked → stable (λ s, B s ∧ known l s).
Proof.
  intros HB HK Hkid s s' HR [Hs Hl]. split; [by eapply HB|]. intros f x [Ho Hx]%Hl. split; [done|].
  pose proof (kid_stage _ _ _ _ _ _ (HK _ Hs) Hkid ltac:(done)) as Hst.
  rewrite <- Hx. apply (R_fields _ _ _ (proj1 HR)); rewrite ?Hst; [lia|done|]. apply mover_kid. lia.
Qed.

(** Its parent fills in its fields; [B] is what else it knows, about the
    stages and the lists. *)
Lemma child_wr_last (B : ghost → Prop) lo kids f x l l' s :
  stable (λ s, K 4 lo false kids s ∧ B s.2) → kids c = Hooked → f ≠ Time → f ≠ Times → (f = Block_low → x = 0) →
  (∀ f' y, (f', y) ∈ l' → f' = f ∧ y = x ∧ owned Hooked f' ∨ f' ≠ f ∧ (f', y) ∈ l) →
  (K 4 lo false kids s ∧ B s.2) ∧ known l s →
  grg (R i) (G i) (W i) (wr (address (Field c f)) x) (λ _ s, (K 4 lo false kids s ∧ B s.2) ∧ known l' s) s.
Proof.
  intros HB Hkid Hf1 Hf2 Hf3 Hl' Hs. set (KB := λ s, K 4 lo false kids s ∧ B s.2) in *.
  assert (∀ l, stable (λ s, KB s ∧ known l s)) as Hst' by (intros l''; by apply (known_stable _ 4 lo false kids); [|intros ? []|]).
  apply (rule_wr_last (G i) (λ s, KB s ∧ known l s) (λ s, KB s ∧ known l' s) (Field c f) x (λ γ, γ));
    [apply Hst'|by intros ? [[[] _] _]|cbn; lia|apply Hst'|done|].
  clear s Hs. intros s [[HK Hb] Hl]. pose proof (kid_stage _ _ _ _ _ _ HK Hkid ltac:(done)) as Hst. pose proof HK as [K1 K2 K3 K4 K5 K6].
  destruct (write_step s (Field c f) x s.2) as [HG Hi']; [done|cbn; lia|apply moves_refl|apply (in_wf _ K1)| |done| |].
  - destruct f; cbn; rewrite ?Hst; try done; try (intros; by apply Hf3); intuition lia.
  - intros c' f' [= <- <-] _. rewrite Hst. apply mover_kid. lia.
  - split; [done|]. split; [split; [by split|done]|]. intros f' y [(-> & -> & Ho)|[Hne Hin]]%Hl'; cbn [fst].
    + split; [done|]. apply lookup_insert_eq.
    + destruct (Hl _ _ Hin) as [Ho Hy]. split; [done|]. rewrite lookup_insert_ne; [done|].
      intros E%address_inj; [congruence|cbn; lia..].
Qed.

Lemma child_wr {A} (B : ghost → Prop) lo kids f x l l' (k : unit → prog Z A) P s :
  stable (λ s, K 4 lo false kids s ∧ B s.2) → kids c = Hooked → f ≠ Time → f ≠ Times → (f = Block_low → x = 0) →
  (∀ f' y, (f', y) ∈ l' → f' = f ∧ y = x ∧ owned Hooked f' ∨ f' ≠ f ∧ (f', y) ∈ l) →
  (K 4 lo false kids s ∧ B s.2) ∧ known l s →
  (∀ s', (K 4 lo false kids s' ∧ B s'.2) ∧ known l' s' → grg (R i) (G i) (W i) (k tt) P s') →
  grg (R i) (G i) (W i) (wr (address (Field c f)) x ≫= k) P s.
Proof.
  intros HB Hkid Hf1 Hf2 Hf3 Hl' Hs Hk. apply grg_bind; [apply rely_refl|]. eapply grg_mono; [by eapply child_wr_last|].
  intros [] s' Hs'. by apply Hk.
Qed.

(** The child is counted. *)
Lemma count_child_grg kids s :
  kids c = Unborn → K 4 false false kids s →
  grg (R i) (G i) (W i) (sync_fetch_and_add v.(g_thread_count) 1)
    (λ x s', x <= MAX_THREAD_COUNT ∧ K 4 false false (updv c Hooked kids) s') s.
Proof.
  intros Hkid Hs. unfold sync_fetch_and_add.
  apply (rule_rmw (G i) (K 4 false false kids) Count _ (set_stage c Hooked)); [apply K_stable; lia|by intros ? []|done|done|].
  clear s Hs. intros x s Hs Hx Hg. cbn in Hg. subst x.
  pose proof (kid_stage _ _ _ _ _ _ Hs Hkid ltac:(done)) as Hst.
  destruct (length_counted c Hooked s.2) as [E Hlt]; [lia|rewrite Hst; lia|lia|].
  assert (length (counted s.2) <= 256)%nat as Hle by (unfold MAX_THREAD_COUNT in Hn; lia).
  rewrite int_of_u64_small by (unfold INT_MAX; lia).
  destruct (write_step s Count (Z.of_nat (length (counted s.2)) + 1) (set_stage c Hooked s.2)) as [HG Hi']; try done.
  - apply (k_inv _ _ _ _ _ Hs).
  - apply (moves_stage i c); rewrite ?Hst; try done; by left.
  - apply wf_stage; [rewrite Hst; lia..|apply (in_wf _ (k_inv _ _ _ _ _ Hs))].
  - cbn [good]. rewrite E. lia.
  - other_words (eq_refl 0).
  - split; [done|]. intros s' HR. split; [unfold MAX_THREAD_COUNT; lia|].
    apply (K_stable 4 false false (updv c Hooked kids) ltac:(lia) _ _ HR). eapply K_child; try done; lia.
Qed.

(** A thread that runs is in the list, so the list is not empty. *)
Lemma list_init_grg lo po kids (Φ : state → Prop) s :
  stable Φ → (∀ s, Φ s → K 4 lo po kids s) → Φ s →
  grg (R i) (G i) (W i) (threadscan_util_thread_list_init tl) (λ _, Φ) s.
Proof.
  intros HΦ HK Hs. unfold threadscan_util_thread_list_init.
  apply grg_bind_lift. rewrite c_assert_true by lia. apply wp_ret.
  apply (rule_rd (G i) Φ Head); [done|intros s1 Hs1; apply (k_inv _ _ _ _ _ (HK s1 Hs1))|done|done|].
  intros x s1 Hs1 _ Hg. cbn in Hg.
  assert (x ≠ 0) as Hx.
  { pose proof (HK _ Hs1) as HK1. pose proof (in_wf _ (k_inv _ _ _ _ _ HK1)) as [[_ W1] _ _ _].
    assert (i ∈ s1.2.(listed)) as Hin by (apply W1; rewrite (k_stage _ _ _ _ _ HK1); lia).
    destruct (s1.2.(listed)) as [|y l]; [by apply elem_of_nil in Hin|]. subst x. cbn. apply Htd, W1. by left. }
  destruct (Z.eqb_spec x 0); [done|]. intros s2 S2. by eapply HΦ.
Qed.

(** The child is put in the list. *)
Lemma list_add_grg kids s :
  kids c = Hooked → K 4 false false kids s ∧ known [(Active, 0); (Refs, 1)] s →
  grg (R i) (G i) (W i) (threadscan_util_thread_list_add tl (td c)) (λ _, K 4 false false (updv c Listed kids)) s.
Proof.
  intros Hkid Hs. unfold threadscan_util_thread_list_add.
  apply grg_bind_lift. rewrite c_assert_true by lia. apply wp_ret.
  apply grg_bind_lift. pose proof (Htd c ltac:(lia)). rewrite c_assert_true by lia. apply wp_ret.
  apply grg_bind; [apply rely_refl|]. eapply grg_mono.
  { apply (list_lock_grg_with (known [(Active, 0); (Refs, 1)]) 4 kids); [lia|..|apply Hs|apply Hs].
    - intros lo. apply (known_stable _ 4 lo false kids); [apply K_stable; lia|done|done].
    - intros s1 Hl f x [Ho Hx]%Hl. split; [done|]. cbn [fst]. rewrite lookup_insert_ne; [done|].
      intros E%address_inj; [done|done|cbn; lia]. }
  intros [] s1 [HK1 Hl1]. set (l := s1.2.(listed)) in HK1.
  set (Φ kn := λ s, KL 4 kids l s ∧ known kn s).
  assert (∀ kn, stable (Φ kn)) as HΦ by (intros kn; by apply (known_stable _ 4 true false kids); [apply KL_stable; lia|intros ? []|]).
  apply (rule_rd (G i) (Φ [(Active, 0); (Refs, 1)]) Head); [apply HΦ|by intros ? [[[] _] _]|done|done|].
  clear s Hs HK1 Hl1. intros x s Hs _ Hg. cbn in Hg. rewrite (proj2 (proj1 Hs)) in Hg. subst x.
  apply (child_wr (λ γ, γ.(listed) = l) true kids Next (head_of td_ l) [(Active, 0); (Refs, 1)] [(Next, head_of td_ l); (Active, 0); (Refs, 1)]);
    [apply KL_stable; lia|done..| |done|].
  { intros f y. rewrite !elem_of_cons, elem_of_nil. unfold owned. intuition (simplify_eq; auto). }
  clear s Hs. intros s Hs.
  eapply rule_wr with (Φ := Φ [(Next, head_of td_ l); (Active, 0); (Refs, 1)]) (w := Head)
    (f := λ γ, set_stage c Listed (set_listed (c :: l) γ)); [apply HΦ|by intros ? [[[] _] _]|done|done|].
  clear s Hs. intros s [[HK El] Hl]. pose proof (kid_stage _ _ _ _ _ _ HK Hkid ltac:(done)) as Hst. pose proof HK as [K1 K2 K3 K4 K5 K6].
  destruct (write_step s Head (td c) (set_stage c Listed (set_listed (c :: l) s.2))) as [HG Hi']; [done|done|..].
  - apply (moves_stage i c); rewrite ?Hst; try done; [|by left]. right. by apply K4.
  - subst l. rewrite <- El. apply wf_enlist; [lia|done|apply (in_wf _ K1)].
  - done.
  - assert (∀ f y y', (f, y) ∈ [(Next, head_of td_ l); (Active, 0); (Refs, 1)] → s.1 !! address (Field c f) = Some y' → y' = y) as Hf
      by (intros f y y' [_ Hy]%Hl ?; congruence).
    assert (counted (set_stage c Listed (set_listed (c :: l) s.2)) = counted s.2) as Hcount
      by (apply (counted_same c Listed); [done|rewrite Hst; lia]).
    other_words Hcount; split; try lia; intros;
      first [refine (Hf Next _ y _ Hy)|refine (Hf Active _ y _ Hy)|refine (Hf Refs _ y _ Hy)]; rewrite !elem_of_cons; tauto.
  - done.
  - split; [done|]. apply (list_unlock_grg 4 (updv c Listed kids) (c :: l)); [lia|]. split; [|done].
    eapply K_child; try done; lia.
Qed.

(** libpthread starts the child. *)
Lemma start_child_grg kids s :
  kids c = Listed → K 4 false false kids s →
  grg (R i) (G i) (W i) (wr (thread c).(pr_started) 1) (λ _, K 4 false false (updv c Launched kids)) s.
Proof.
  intros Hkid Hs.
  apply (rule_wr_last (G i) (K 4 false false kids) _ (Started c) 1 (set_stage c Launched));
    [apply K_stable; lia|by intros ? []|cbn; lia|apply K_stable; lia|done|].
  clear s Hs. intros s HK. pose proof (kid_stage _ _ _ _ _ _ HK Hkid ltac:(done)) as Hst. pose proof HK as [K1 K2 K3 K4 K5 K6].
  assert (counted (set_stage c Launched s.2) = counted s.2) as Hcount by (apply (counted_same c Launched); [done|rewrite Hst; lia]).
  destruct (write_step s (Started c) 1 (set_stage c Launched s.2)) as [HG Hi']; [done|cbn; lia|..].
  - apply (moves_stage i c); rewrite ?Hst; try done; by left.
  - apply wf_stage; [rewrite Hst; lia..|apply (in_wf _ K1)].
  - cbn. by rewrite (decide_True (P := c = c)) by done.
  - other_words Hcount.
  - done.
  - split; [done|]. eapply K_child; try done; lia.
Qed.

Lemma K_ext k lo po kids kids' s :
  (∀ x, kids x = kids' x) → kids.(budget) = kids'.(budget) → kids.(reclaims) = kids'.(reclaims) → K k lo po kids s → K k lo po kids' s.
Proof. intros E E1 E2 [K1 K2 K3 K4 K5 K6]. split; rewrite <- ?E1, <- ?E2; try done. intros x Hx Hp'. rewrite <- E. by apply K6. Qed.

Ltac child_write f l' :=
  match goal with
  | Hs : (K 4 false false ?kids ?s ∧ True) ∧ known _ ?s |- _ =>
      eapply (child_wr (λ _, True) false kids f _ _ l');
        [eassumption|eassumption|done|done|done| |exact Hs|];
        [intros ? ?; rewrite ?elem_of_cons, ?elem_of_nil; unfold owned; intuition (simplify_eq; auto)|clear s Hs; intros s Hs]
  end.

Lemma create_grg kids s :
  kids c = Unborn → K 4 false false kids s →
  grg (R i) (G i) (W i) (create v g_threadscan_ptrs_per_thread thread c) (λ _, K 4 false false (updv c Launched kids)) s.
Proof.
  intros Hkid Hs. unfold create. apply grg_bind; [apply rely_refl|]. eapply grg_mono; [by apply count_child_grg|].
  clear s Hs. intros x s [Hx Hs]. replace (MAX_THREAD_COUNT <? x) with false by lia.
  set (kids1 := updv c Hooked kids). assert (kids1 c = Hooked) as Hkid1 by (apply updv_eq).
  assert (stable (λ s, K 4 false false kids1 s ∧ True)) as Hst
    by (apply stable_and; [apply K_stable; lia|by intros ? ?]).
  assert ((K 4 false false kids1 s ∧ True) ∧ known [] s) as Hs' by (split; [done|by intros f y ?%elem_of_nil]).
  clear Hs. rename Hs' into Hs.
  assert (∀ l, stable (λ s, (K 4 false false kids1 s ∧ True) ∧ known l s)) as HΦ
    by (intros l; by apply (known_stable _ 4 false false kids1); [|intros ? []|]).
  unfold td_queue_init. apply grg_bind; [apply rely_refl|].
  apply grg_mono with (P := λ _ s, (K 4 false false kids1 s ∧ True) ∧ known [] s).
  { child_write Queue_e (@nil (field * Z)). child_write Queue_capacity (@nil (field * Z)). child_write Queue_head (@nil (field * Z)).
    apply (child_wr_last (λ _, True) false kids1 Queue_tail _ []); try done. by intros ? ? ?%elem_of_nil. }
  clear s Hs. intros _ s Hs.
  child_write Block_high (@nil (field * Z)). child_write Block_low (@nil (field * Z)).
  child_write Refs [(Refs, 1)]. child_write Routine [(Refs, 1)]. child_write Arg [(Refs, 1)].
  child_write Active [(Active, 0); (Refs, 1)].
  apply grg_bind; [apply rely_refl|].
  apply grg_mono with (P := λ _ s, (K 4 false false kids1 s ∧ True) ∧ known [(Active, 0); (Refs, 1)] s).
  { destruct (pr_own _).
    - apply (child_wr_last (λ _, True) false kids1 Ours _ [(Active, 0); (Refs, 1)]); try done.
      intros ? ?; rewrite ?elem_of_cons, ?elem_of_nil; intuition (simplify_eq; auto).
    - apply grg_ret. intros s' HR. by apply (HΦ _ s). }
  clear s Hs. intros _ s Hs.
  child_write Low [(Active, 0); (Refs, 1)]. child_write High [(Active, 0); (Refs, 1)].
  apply grg_bind; [apply rely_refl|].
  apply grg_mono with (P := λ _, K 4 false false (updv c Listed kids1)).
  { unfold threadscan_proc_add_thread_data. apply grg_bind; [apply rely_refl|].
    eapply grg_mono; [apply (list_init_grg false false kids1 (λ s, (K 4 false false kids1 s ∧ True) ∧ known [(Active, 0); (Refs, 1)] s)); [apply HΦ|by intros ? [[] _]|done]|].
    intros _ s1 [[Hs1 _] Hl1]. by apply list_add_grg. }
  intros _ s1 Hs1. eapply grg_mono; [apply (start_child_grg (updv c Listed kids1)); [apply updv_eq|done]|].
  intros [] s2. apply K_ext; [|done..]. intros y. unfold kids1. cbn. unfold upd. by repeat case_decide.
Qed.
End create.

(** *** Walking through the list *)

(** The links in memory. *)
Lemma good_next l c s : inv s → s.2.(listed) = l → c ∈ l → s.1 !! td_next (td c) = Some (next_of td_ l c).
Proof.
  intros Hs <- Hc. pose proof (in_wf _ Hs) as [[_ W1] _ _ _]. apply W1 in Hc as [Hc Hst].
  destruct (in_good _ Hs (Field c Next) Hc) as (x & Hx & Hg & _). cbn in Hx. rewrite Hx. f_equal. by apply Hg.
Qed.

Lemma listed_tlist l s : inv s → s.2.(listed) = l → tlist s.1 (head_of td_ l) (td_ <$> l).
Proof.
  intros Hs El. pose proof (in_wf _ Hs) as [[Hnd W1] _ _ _]. apply next_of_tlist; [by rewrite <- El|].
  intros c Hc. split; [apply Htd, W1; by rewrite El|by apply good_next].
Qed.

Lemma threads_fit (l : list nat) : NoDup l → (∀ c, c ∈ l → (c < n)%nat) → (length l <= n < list_fuel)%nat.
Proof.
  intros Hnd Hl. assert (length l <= length (seq 0 n))%nat as Hlen.
  { apply submseteq_length, NoDup_submseteq; [done|]. intros x Hx%Hl. apply elem_of_seq. lia. }
  rewrite length_seq in Hlen. unfold list_fuel, MAX_THREAD_COUNT in *. lia.
Qed.

Lemma listed_fits l s : inv s → s.2.(listed) = l → (length l <= n < list_fuel)%nat.
Proof. intros Hs <-. pose proof (in_wf _ Hs) as [[Hnd W1] _ _ _]. apply threads_fit; [done|]. by intros c [? _]%W1. Qed.

Lemma td_inj_ c c' : (c < n)%nat → (c' < n)%nat → td c = td c' → c = c'.
Proof.
  intros Hc Hc' E. assert (Field c Next = Field c' Next) as E'; [|congruence].
  apply address_inj; [done|done|]. cbn. by rewrite E.
Qed.

(** A loop over the list; [J] is what is known of the signals in addition,
    after [k] elements. *)
Lemma foreach_grg {S} (body : Z → S → prog Z S) (J : list nat → nat → S → signals → Prop) kids a s :
  (∀ l k a s s', R i s s' → J l k a s.2.(sigs) → J l k a s'.2.(sigs)) →
  (∀ l k a c s, l !! k = Some c → NoDup l → (length l < list_fuel)%nat → J l k a s.2.(sigs) → KL 4 kids l s →
     (c < n)%nat → (2 <= s.2.(stage) c)%nat →
     grg (R i) (G i) (W i) (body (td c) a) (λ a' s', J l (Datatypes.S k) a' s'.2.(sigs) ∧ KL 4 kids l s') s) →
  (∀ l, J l 0%nat a s.2.(sigs)) → K 4 false false kids s →
  grg (R i) (G i) (W i) (foreach_in_thread_list tl body a)
    (λ a' s', K 4 false false kids s' ∧ ∃ l, J l (length l) a' s'.2.(sigs)) s.
Proof.
  intros HJ Hbody Ha Hs. unfold foreach_in_thread_list.
  apply grg_bind; [apply rely_refl|].
  eapply grg_mono; [apply (list_lock_grg_with (λ s, ∀ l, J l 0%nat a s.2.(sigs)) 4 kids); [lia| |done|done|done]|].
  { intros lo s1 s2 HR [HK HJ1]. split; [by apply (K_stable 4 lo false kids ltac:(lia) s1)|]. intros l. by apply (HJ _ _ _ s1). }
  clear s Ha Hs. intros [] s [Hs Ha]. set (l := s.2.(listed)) in *. specialize (Ha l).
  pose proof (KL_stable 4 kids l ltac:(lia)) as HKL.
  set (Φ k a s := J l k a s.2.(sigs) ∧ KL 4 kids l s).
  assert (∀ k a, stable (Φ k a)) as HΦ by (intros k a' s1 s2 HR [H1 H2]; split; [by apply (HJ _ _ _ s1)|by apply (HKL s1)]).
  apply (rule_rd (G i) (Φ 0%nat a) Head); [done|by intros ? [_ [[]]]|done|done|].
  clearbody l. clear s Hs Ha. intros x s Hs _ Hg. cbn in Hg. pose proof (proj2 Hs) as [HK El]. rewrite El in Hg. subst x.
  pose proof (listed_fits l s (k_inv _ _ _ _ _ HK) El) as Hlen.
  pose proof (in_wf _ (k_inv _ _ _ _ _ HK)) as [[Hnd _] _ _ _]. rewrite El in Hnd.
  apply grg_bind; [apply rely_refl|].
  apply grg_mono with (P := λ a', Φ (length l) a').
  - apply grg_mono with (P := λ a', Φ (length (td_ <$> l)) a'); [|intros a' s'; by rewrite length_fmap].
    apply (grg_foreach_loop (R i) (G i) (W i) body s.1 (td_ <$> l) (λ visited, Φ (length visited)))
      with (visited := []) (todo := td_ <$> l).
    + apply rely_refl.
    + intros vis a' st st' HR Hst. by apply (HΦ _ _ st).
    + intros vis a' st t [_ [HK' El']] (c & -> & Hc)%list_elem_of_fmap.
      by rewrite !(good_next l c) by (done || apply (k_inv _ _ _ _ _ HK') || apply (k_inv _ _ _ _ _ HK)).
    + intros vis t todo a' st Htds [HJ' Hst]. rewrite length_app, Nat.add_comm. cbn.
      assert ((td_ <$> l) !! length vis = Some t) as Ht by (rewrite Htds; by apply list_lookup_middle).
      rewrite list_lookup_fmap in Ht. apply fmap_Some in Ht as (c & Hc & ->).
      pose proof (in_wf _ (k_inv _ _ _ _ _ (proj1 Hst))) as [[_ W1] _ _ _].
      assert (c ∈ st.2.(listed)) as Hin by (rewrite (proj2 Hst); by eapply list_elem_of_lookup_2). apply W1 in Hin.
      by apply (Hbody l (length vis) a' c st); [| |lia| | |lia|lia].
    + done.
    + by apply listed_tlist, El; apply (k_inv _ _ _ _ _ HK).
    + rewrite length_fmap. lia.
    + done.
  - clear s Hs HK El. intros a' s [Ha Hs]. apply grg_bind; [apply rely_refl|].
    eapply grg_mono; [apply (list_unlock_grg_with (λ s, J l (length l) a' s.2.(sigs)) 4 kids l); [lia| |done|done]|].
    + intros lo s1 s2 HR [HK HJ1]. split; [by apply (K_stable 4 lo false kids ltac:(lia) s1)|]. by apply (HJ _ _ _ s1).
    + intros [] s' Hs'. apply grg_ret. intros s2 S2. destruct Hs' as [HK HJ1].
      split; [by apply (K_stable 4 false false kids ltac:(lia) s')|]. exists l. by apply (HJ _ _ _ s').
Qed.

(** Waiting for the threads that still help an earlier round; [J] is about
    the round. *)
Lemma wait_grg (J : signals → Prop) curr kids s :
  (∀ s s', R i s s' → J s.2.(sigs) → J s'.2.(sigs)) → K 4 false false kids s → J s.2.(sigs) →
  grg (R i) (G i) (W i) (threadscan_proc_wait_for_timestamp v.(globals) curr) (λ _ s', K 4 false false kids s' ∧ J s'.2.(sigs)) s.
Proof.
  intros HJ Hs Hj. eapply grg_mono; [apply (foreach_grg _ (λ _ _ _, J) kids tt)|by intros ? ? [? [_ ?]]]; [by intros _ _ _|..|done|done].
  clear s Hs Hj. intros l k [] c s Hc _ _ Hj Hs Hcn _.
  apply grg_bind_lift. pose proof (Htd c Hcn). rewrite c_assert_true by lia. apply wp_ret.
  set (Φ s := J s.2.(sigs) ∧ KL 4 kids l s).
  assert (stable Φ) as HΦ by (intros s1 s2 HR [H1 H2]; split; [by apply (HJ s1)|by apply (KL_stable 4 kids l ltac:(lia) s1)]).
  apply (rule_await (G i) Φ (Field c Time)); [done|by intros ? [_ [[]]]|done|done|].
  clear s Hs Hj. intros x s [Hj Hs] _ Hg. destruct (negb _) eqn:E.
  - apply grg_ret. intros s' S. by apply (HΦ s).
  - apply negb_false_iff, andb_prop in E as [E _]. destruct Hs as [[K1 K2 K3 K4 K5 K6] El].
    split; [done|]. split; [rewrite K5; done|]. right. exists c. apply Hg; [|done].
    pose proof (in_wf _ K1) as [[_ W1] _ _ _]. assert (c ∈ s.2.(listed)) as Hin%W1 by (rewrite El; by eapply list_elem_of_lookup_2). lia.
Qed.

(** *** Signals and rounds *)

(** A step that changes what goes on with signals. *)
Lemma signal_step s w x σ :
  inv s → in_range n w → wf_signals (set_sigs σ s.2) → good (set_sigs σ s.2) w x →
  (∀ w' y, w' ≠ w → in_range n w' → s.1 !! address w' = Some y → good s.2 w' y → good (set_sigs σ s.2) w' y) →
  (∀ c f k, w = Field c f → ¬ owned k f) →
  let s' := (<[address w := x]> s.1, set_sigs σ s.2) in
  inv s' ∧ (∀ j, R0 j s s') ∧ changes s.1 s'.1.
Proof.
  intros Hs Hw Hwf Hg Hkeep Hown s'.
  assert (inv s') as Hi' by (apply write_inv; [done|done|by destruct (in_wf _ Hs)|done|done]).
  assert (changes s.1 s'.1) as Hmap by (by apply changes_write).
  split; [done|]. split; [|done]. intros j. split; try done.
  intros c f Hc Ho _. apply lookup_insert_ne. intros E%address_inj; [|done|done]. by destruct (Hown c f _ E Ho).
Qed.

(** A thread that took or gave up the reclaimer's lock. *)
Definition with_lock kids : view := {| kids_of := kids; budget := pred kids.(budget); reclaims := true |}.
Definition without_lock kids : view := {| kids_of := kids; budget := kids.(budget); reclaims := false |}.

Lemma K_sigs k lo po kids kids' s w x σ :
  K k lo po kids s → inv (<[address w := x]> s.1, set_sigs σ s.2) → (∀ c, kids' c = kids c) →
  σ.(left) i = kids'.(budget) → (σ.(reclaimer) = Some i ↔ kids'.(reclaims) = true) →
  K k lo po kids' (<[address w := x]> s.1, set_sigs σ s.2).
Proof.
  intros [K1 K2 K3 K4 K5 K6] Hi' E1 E2 E3. split; try done. intros c Hc Hp. rewrite E1. by apply K6.
Qed.

(** The sum of the budgets. *)
Lemma sum_left_spend (f : nat → nat) l :
  NoDup l → i ∈ l → (0 < f i)%nat →
  S (sum_list ((λ x, if decide (x = i) then pred (f i) else f x) <$> l)) = sum_list (f <$> l).
Proof.
  intros Hnd Hin Hf. induction l as [|x l IH]; [by apply elem_of_nil in Hin|]. apply NoDup_cons in Hnd as [Hx Hnd]. cbn.
  case_decide as Hd.
  - subst x. assert ((λ x, if decide (x = i) then pred (f i) else f x) <$> l = f <$> l) as ->; [|lia].
    apply list_fmap_ext. intros k y Hy. rewrite decide_False; [done|]. intros ->. by apply Hx, (list_elem_of_lookup_2 _ k).
  - apply elem_of_cons in Hin as [->|Hin]; [done|]. rewrite <- (IH Hnd Hin). lia.
Qed.

(** Taking the lock. *)
Lemma round_begins kids s old x :
  K 4 false false kids s → (0 < kids.(budget))%nat → good s.2 Stamp old → TIMESTAMP_IS_ACTIVE old = false →
  TIMESTAMP_IS_ACTIVE x = true →
  let s' := (<[address Stamp := x]> s.1, set_sigs (acquired_by i s.2.(sigs)) s.2) in
  G i s s' ∧ K 4 false false (with_lock kids) s'.
Proof.
  intros HK Hb Hold Hina Hact s'. pose proof HK as [K1 K2 [K3 K3'] K4 K5 K6]. cbn in Hold. rewrite Hina in Hold.
  destruct (s.2.(sigs).(reclaimer)) as [|] eqn:Hrec; [done|].
  pose proof (wf_sigs _ (in_wf _ K1)) as [S1 S2 S3 S4 S5 S6 S7 S8 S9].
  destruct (signal_step s Stamp x (acquired_by i s.2.(sigs))) as (Hi' & HR0 & Hmap); [done|done|..].
  - split; cbn; try done; auto.
    + by intros j [= <-].
    + rewrite <- (sum_left_spend s.2.(sigs).(left) (seq 0 n)) in S8; [lia|apply NoDup_seq|apply elem_of_seq; lia|lia].
    + intros c. specialize (S9 c). rewrite Hrec, (decide_True (P := None = None ∨ _)) in S9 by (by left). repeat case_decide; lia.
  - done.
  - intros [| | | | | | |c []|c|c|c] y; cbn; try done.
  - done.
  - split; [|apply (K_sigs 4 false false kids); try done; cbn; rewrite decide_True by done; congruence].
    split; [done|]. split.
    + intros j Hj. split; [done|]. split; cbn; rewrite ?Hrec; try done; [intuition congruence|by rewrite decide_False].
    + intros c. by split.
Qed.

(** Resetting the counter. *)
Lemma reset_step kids s :
  K 4 false false kids s → kids.(reclaims) = true → s.2.(sigs).(signalled) = None →
  let s' := (<[address Searched := 0]> s.1, set_sigs (reset s.2.(sigs)) s.2) in
  G i s s' ∧ K 4 false false kids s'.
Proof.
  intros HK Hr Hnone s'. pose proof HK as [K1 K2 [K3 K3'] K4 K5 K6]. pose proof (proj2 K3' Hr) as Hrec.
  pose proof (wf_sigs _ (in_wf _ K1)) as [S1 S2 S3 S4 S5 S6 S7 S8 S9]. specialize (S2 Hnone).
  destruct (signal_step s Searched 0 (reset s.2.(sigs))) as (Hi' & HR0 & Hmap); [done|done|..].
  - split; cbn; try done.
    + by rewrite Hrec.
    + intros S [= <-]. rewrite S2. sets.
    + intros c. specialize (S9 c). by rewrite Hnone in S9.
  - cbn. intros S [= <-]. by rewrite S2, !size_empty.
  - intros [| | | | | | |c []|c|c|c] y; cbn; done.
  - done.
  - split; [|by apply (K_sigs 4 false false kids)].
    split; [done|]. split; [|intros c; by split].
    intros j Hj. split; [done|]. split; cbn; rewrite ?Hrec; try done. congruence.
Qed.

(** Sending a signal to a thread that runs. *)
Lemma sent_step kids l c S s x :
  KL 4 kids l s → kids.(reclaims) = true → s.2.(sigs).(signalled) = Some S → c ∉ S → (c < n)%nat → (4 <= s.2.(stage) c <= 5)%nat →
  good s.2 (Pending c) x →
  let s' := (<[address (Pending c) := Z.lor x 1]> s.1, set_sigs (sent S c s.2.(sigs)) s.2) in
  G i s s' ∧ KL 4 kids l s'.
Proof.
  intros [HK El] Hr HS' Hc Hcn Hst Hx s'. pose proof HK as [K1 K2 [K3 K3'] K4 K5 K6]. pose proof (proj2 K3' Hr) as Hrec.
  pose proof (wf_sigs _ (in_wf _ K1)) as [S1 S2 S3 [S4 S4'] S5 S6 S7 S8 S9]. destruct (S3 S HS') as [Ho Hrange].
  assert (c ∉ s.2.(sigs).(owed) ∧ c ∉ s.2.(sigs).(arrived)) as [Hco Hca] by sets.
  destruct (signal_step s (Pending c) (Z.lor x 1) (sent S c s.2.(sigs))) as (Hi' & HR0 & Hmap); [done|done|..].
  - split; cbn; try done.
    + by rewrite Hrec.
    + intros S' [= <-]. split; [sets|]. assert (c ∈ (set_seq 0 n : gset nat)) by (apply elem_of_set_seq; lia). sets.
    + split; [by apply union_mono_l|]. rewrite <- (assoc_L (∪)). by apply union_mono_l.
    + intros c' Hc'. destruct (decide (c' = c)) as [->|Hne]; [lia|]. apply S6. sets.
    + intros c'. specialize (S9 c'). rewrite HS', Hrec in S9. rewrite Hrec. cbn [default] in *.
      destruct (decide (c' = c)) as [->|Hne].
      * rewrite (decide_False (P := c ∈ s.2.(sigs).(arrived))) in S9 by done.
        rewrite (decide_False (P := Some i = None ∨ c ∈ S)) in S9 by naive_solver.
        rewrite !decide_True by sets. lia.
      * rewrite (decide_ext (c' ∈ {[c]} ∪ s.2.(sigs).(arrived)) (c' ∈ s.2.(sigs).(arrived))) by by apply elem_of_other.
        rewrite (decide_ext (Some i = None ∨ c' ∈ {[c]} ∪ S) (Some i = None ∨ c' ∈ S)) by by rewrite elem_of_other. done.
  - cbn in *. rewrite (decide_False (P := c ∈ s.2.(sigs).(arrived))) in Hx by done. rewrite (decide_True (P := c ∈ {[c]} ∪ s.2.(sigs).(arrived))) by sets.
    subst x. by case_decide.
  - intros [| | | | | | |c' []|c'|c'|c'] y; cbn; try done.
    + intros _ _ _ Hg S' [= <-]. specialize (Hg S HS'). rewrite !size_union, !size_singleton by sets. lia.
    + intros Hne _ _ ->. rewrite (decide_ext (c' ∈ {[c]} ∪ s.2.(sigs).(arrived)) (c' ∈ s.2.(sigs).(arrived))); [done|].
      apply elem_of_other. congruence.
  - done.
  - split; [|split; [by apply (K_sigs 4 true false kids)|done]].
    split; [done|]. split.
    + intros j Hj. split; [done|]. split; cbn; rewrite ?Hrec; try done; [congruence|].
      intros Hk Hj'. assert (j ≠ c) by (intros ->; lia). sets.
    + intros c'. split; try done. cbn. rewrite !elem_of_difference. destruct (decide (c' = c)) as [->|Hne]; [|by rewrite !elem_of_other].
      split; [by intros []|]. intros [_ []]. sets.
Qed.

(** Giving up the lock. *)
Lemma round_ends kids s x :
  K 4 false false kids s → kids.(reclaims) = true → s.2.(sigs).(owed) = ∅ → TIMESTAMP_IS_ACTIVE x = false →
  let s' := (<[address Stamp := x]> s.1, set_sigs (released s.2.(sigs)) s.2) in
  G i s s' ∧ K 4 false false (without_lock kids) s'.
Proof.
  intros HK Hr Ho Hina s'. pose proof HK as [K1 K2 [K3 K3'] K4 K5 K6]. pose proof (proj2 K3' Hr) as Hrec.
  pose proof (wf_sigs _ (in_wf _ K1)) as [S1 S2 S3 S4 S5 S6 S7 S8 S9].
  destruct (signal_step s Stamp x (released s.2.(sigs))) as (Hi' & HR0 & Hmap); [done|done|..].
  - split; cbn; try done. intros c. specialize (S9 c). rewrite (decide_True (P := None = None ∨ _)) by (by left). lia.
  - done.
  - intros [| | | | | | |c []|c|c|c] y; cbn; done.
  - done.
  - split; [|by apply (K_sigs 4 false false kids)].
    split; [done|]. split; [|intros c; by split].
    intros j Hj. split; [done|]. split; cbn; rewrite ?Hrec; try done; intuition congruence.
Qed.

(** A thread that has been active runs as long as it is in the list. *)
Lemma kill_grg c kids l S sig s :
  (c < n)%nat → c ∈ l → c ∉ S → kids.(reclaims) = true →
  KL 4 kids l s → s.2.(sigs).(signalled) = Some S → (4 <= s.2.(stage) c)%nat →
  grg (R i) (G i) (W i) (pthread_kill (self c) sig)
    (λ r s', r = 0 ∧ KL 4 kids l s' ∧ s'.2.(sigs).(signalled) = Some ({[c]} ∪ S)) s.
Proof.
  intros Hc Hin HcS Hr Hs HS' Hst. rewrite Hkill by done.
  assert (∀ S, stable (λ s, KL 4 kids l s ∧ s.2.(sigs).(signalled) = Some S)) as HΨ.
  { intros S' s1 s2 HR [HK HS1]. split; [by apply (KL_stable 4 kids l ltac:(lia) s1)|].
    destruct (R_round _ _ _ (proj2 HR)) as [-> _]; [|done]. by apply (k_sigs _ _ _ _ _ (proj1 HK)). }
  set (Φ := λ s, (KL 4 kids l s ∧ s.2.(sigs).(signalled) = Some S) ∧ (4 <= s.2.(stage) c)%nat).
  assert (stable Φ) as HΦ.
  { intros s1 s2 HR [HK Hle]. split; [by apply (HΨ S s1)|]. pose proof (R_mono _ _ _ (proj1 HR) c). lia. }
  assert (∀ s, Φ s → inv s ∧ (4 <= s.2.(stage) c <= 5)%nat) as HI.
  { intros s1 [[[HK El] _] Hle]. pose proof (k_inv _ _ _ _ _ HK) as Hi1. split; [done|].
    pose proof (in_wf _ Hi1) as [[_ W1] _ _ _]. rewrite <- El in Hin. apply W1 in Hin. lia. }
  apply (rule_rd (G i) Φ (Started c)); [done|by intros s1 Hs1; apply HI|done|done|].
  clear s Hs HS' Hst. intros x s Hs _ Hg. cbn in Hg. rewrite decide_True in Hg by (pose proof (HI _ Hs); lia). subst x.
  apply (rule_rd (G i) Φ (Ended c)); [done|by intros s1 Hs1; apply HI|done|done|].
  clear s Hs. intros x s Hs _ Hg. cbn in Hg. rewrite decide_False in Hg by (pose proof (HI _ Hs); lia). subst x. cbn [Z.eqb negb andb].
  apply (rule_rmw (G i) Φ (Pending c) _ (λ γ, set_sigs (sent S c γ.(sigs)) γ)); [done|by intros s1 Hs1; apply HI|done|done|].
  clear s Hs. intros x s Hs _ Hg. destruct (sent_step kids l c S s x) as [HG HK]; [apply Hs|done|apply Hs|done|done|by apply HI|done|].
  split; [done|]. apply grg_ret. intros s' S1. split; [done|]. by apply (HΨ ({[c]} ∪ S) _ _ S1).
Qed.

(** The threads that are signalled, up to the [k]-th of the list. *)
Definition signalled_upto (l : list nat) (k : nat) (x : Z) (σ : signals) : Prop :=
  σ.(reclaimer) = Some i ∧ ∃ S, σ.(signalled) = Some S ∧ x = Z.of_nat (size S) ∧ (size S <= k)%nat ∧
    ∀ c, c ∈ S → ∃ j, (j < k)%nat ∧ l !! j = Some c.

Lemma signalled_upto_stable l k x s s' : R i s s' → signalled_upto l k x s.2.(sigs) → signalled_upto l k x s'.2.(sigs).
Proof.
  intros [_ [H1 H2 _ _]] [Hr (S & HS1 & Hx)]. split; [by apply H1|]. exists S. split; [|done]. by rewrite (proj1 (H2 Hr)).
Qed.

Lemma signalled_upto_skip l k x σ : signalled_upto l k x σ → signalled_upto l (S k) x σ.
Proof.
  intros [Hr (S & HS1 & Hx & Hk & Hin)]. split; [done|]. exists S. split; [done|]. split; [done|]. split; [lia|].
  intros c (j & Hj & Hl)%Hin. exists j. split; [lia|done].
Qed.

Lemma signal_others_grg kids s :
  K 4 false false kids s → kids.(reclaims) = true → s.2.(sigs).(signalled) = Some ∅ →
  grg (R i) (G i) (W i) (threadscan_thread_signal_all_but_me v.(globals) pthread_kill (td i) SIGTHREADSCAN)
    (λ x s', K 4 false false kids s' ∧ ∃ S, s'.2.(sigs).(signalled) = Some S ∧ x = Z.of_nat (size S)) s.
Proof.
  intros Hs Hr HS'. unfold threadscan_thread_signal_all_but_me.
  apply grg_bind_lift. pose proof (Htd i Hi). rewrite c_assert_true by lia. apply wp_ret.
  unfold threadscan_proc_signal_all_except.
  eapply grg_mono; [apply (foreach_grg _ signalled_upto kids)|].
  - apply signalled_upto_stable.
  - clear s Hs HS'. intros l k x c s Hc Hnd Hlen Hx Hs Hcn Hst.
    assert (stable (λ s, KL 4 kids l s ∧ signalled_upto l k x s.2.(sigs))) as HΨ.
    { apply stable_and; [apply KL_stable; lia|]. intros s1 s2. apply signalled_upto_stable. }
    assert (∀ s s', R i s s' → KL 4 kids l s ∧ signalled_upto l k x s.2.(sigs) →
      signalled_upto l (S k) x s'.2.(sigs) ∧ KL 4 kids l s') as Hskip.
    { intros s1 s2 HR [H1 H2]%(HΨ _ _ HR). split; [by apply signalled_upto_skip|done]. }
    apply grg_bind_lift. pose proof (Htd c Hcn). rewrite c_assert_true by lia. apply wp_ret.
    destruct (Z.eqb_spec (td c) (td i)) as [E|Hne]; cbn [negb].
    { apply grg_ret. intros s' S. by apply (Hskip s). }
    apply (rule_rd (G i) (λ s, KL 4 kids l s ∧ signalled_upto l k x s.2.(sigs)) (Field c Active)); [done|by intros ? [[[]]]|done|done|].
    clear s Hx Hs Hst. intros y s [Hs Hx] _ [Hg1 Hg2].
    assert (c ∈ s.2.(listed)) as Hin by (rewrite (proj2 Hs); by eapply list_elem_of_lookup_2).
    pose proof (in_wf _ (k_inv _ _ _ _ _ (proj1 Hs))) as [[_ W1] _ _ _]. pose proof (proj1 (W1 _) Hin) as Hst. rewrite (proj2 Hs) in Hin.
    destruct (Z.eqb_spec y 0) as [->|Hy]; cbn [negb].
    { apply grg_ret. intros s' S. by apply (Hskip s). }
    assert (s.2.(stage) c = Running) as Hrun by (destruct (decide (s.2.(stage) c = Running)); [done|by destruct Hy; apply Hg2; lia]).
    set (Φ := λ s, (KL 4 kids l s ∧ signalled_upto l k x s.2.(sigs)) ∧ (4 <= s.2.(stage) c)%nat).
    assert (stable Φ) as HΦ.
    { intros s1 s2 HR [HK Hle]. split; [by apply (HΨ s1)|]. pose proof (R_mono _ _ _ (proj1 HR) c). lia. }
    apply (rule_rd (G i) Φ (Field c Self)); [done|by intros ? [[[[]]]]|done|by split; [|lia]|].
    clear s Hs Hx Hg1 Hg2 W1 Hst Hrun. intros z s [[Hs Hx] Hst] _ Hg.
    pose proof (in_wf _ (k_inv _ _ _ _ _ (proj1 Hs))) as [[_ W1] _ _ _]. pose proof (proj1 (W1 c) ltac:(by rewrite (proj2 Hs))) as Hst'.
    cbn in Hg. rewrite Hg by lia. apply grg_bind; [apply rely_refl|].
    destruct Hx as (Hrec & S & HS' & -> & Hk & HSin).
    assert (c ∉ S) as HcS.
    { intros (j & Hj & Hlj)%HSin. pose proof (NoDup_lookup _ _ _ _ Hnd Hc Hlj). lia. }
    eapply grg_mono; [by apply (kill_grg c kids l S)|]. clear s Hs Hg W1 Hst Hst' Hrec HS'. intros r s (-> & Hs & HS').
    cbn [Z.eqb EINVAL ESRCH]. pose proof (lookup_lt_Some _ _ _ Hc) as Hkl. pose proof (size_union_alt {[c]} S) as Hsz.
    assert (size ({[c]} ∪ S) = Datatypes.S (size S)) as E by (rewrite size_union, size_singleton by sets; done).
    intros s' S1. apply wp_cint; [unfold INT_MIN, INT_MAX, list_fuel in *; lia|].
    split; [|by apply (KL_stable 4 kids l ltac:(lia) s)]. apply (signalled_upto_stable _ _ _ s); [done|].
    split; [by apply (k_sigs _ _ _ _ _ (proj1 Hs))|]. exists ({[c]} ∪ S). split; [done|]. split; [lia|]. split; [lia|].
    intros c' [->%elem_of_singleton|Hc']%elem_of_union; [by exists k; split; [lia|]|].
    destruct (HSin c' Hc') as (j & Hj & Hlj). exists j. split; [lia|done].
  - intros l. split; [by apply (k_sigs _ _ _ _ _ Hs)|]. exists ∅. rewrite size_empty. split; [done|]. split; [done|]. split; [lia|]. sets.
  - done.
  - cbv beta. intros x s' (HK & l & _ & S & HS1 & Hx & _). split; [done|]. by exists S.
Qed.

(** A write that changes no stage and no list, of a word about which nothing
    is kept. *)
Lemma plain_step s w x :
  inv s → in_range n w → good s.2 w x → (∀ c f, w = Field c f → ¬ owned (s.2.(stage) c) f) →
  G i s (<[address w := x]> s.1, s.2) ∧ inv (<[address w := x]> s.1, s.2).
Proof.
  intros Hs Hw Hg Ho. apply write_step; try done; [apply moves_refl|apply (in_wf _ Hs)|].
  intros c f E Hof. by destruct (Ho c f E).
Qed.

Lemma K_memory k lo po kids m m' γ : K k lo po kids (m, γ) → inv (m', γ) → K k lo po kids (m', γ).
Proof. intros [K1 K2 K3 K4 K5 K6] Hi'. by split. Qed.

(** The lock is taken; the counter is not reset yet. *)
Definition fresh kids s : Prop := K 4 false false (with_lock kids) s ∧ s.2.(sigs).(signalled) = None.

Lemma fresh_stable kids : stable (fresh kids).
Proof.
  intros s s' HR [HK Hn']. split; [by apply (K_stable 4 false false _ ltac:(lia) s)|].
  destruct (R_round _ _ _ (proj2 HR)) as [-> _]; [|done]. by apply (k_sigs _ _ _ _ _ HK).
Qed.

Lemma acquire_grg kids s :
  K 4 false false kids s → (0 < kids.(budget))%nat →
  grg (R i) (G i) (W i) (threadscan_thread_cleanup_try_acquire v.(globals))
    (λ r s', r = 0 ∧ K 4 false false kids s' ∨ r = 1 ∧ fresh kids s') s.
Proof.
  intros Hs Hb. unfold threadscan_thread_cleanup_try_acquire. pose proof (K_stable 4 false false kids ltac:(lia)) as HK.
  apply (rule_rd (G i) (K 4 false false kids) Stamp); [done|by intros ? []|done|done|].
  clear s Hs. intros x s Hs _ _. destruct (TIMESTAMP_IS_ACTIVE x) eqn:Hx; [intros s' S; left; split; [done|by apply (HK s)]|].
  apply grg_bind; [apply rely_refl|].
  apply grg_mono with (P := λ b s', if b : bool then fresh kids s' else K 4 false false kids s').
  - unfold BCAS.
    apply (rule_rmw_at (G i) (K 4 false false kids) Stamp _ (λ y γ, if y =? x then set_sigs (acquired_by i γ.(sigs)) γ else γ));
      [done|by intros ? []|done|done|].
    clear s Hs. intros y s Hs _ Hg. cbv beta. destruct (Z.eqb_spec y x) as [->|Hne].
    + destruct (round_begins kids s x (TIMESTAMP_SET_ACTIVE (u64 (x + 1)))) as [HG HK']; [done..|apply TIMESTAMP_RAISE_FLAG_active|].
      split; [done|]. intros s' S. by apply (fresh_stable kids _ _ S).
    + destruct (plain_step s Stamp y) as [HG Hi']; [by destruct Hs|done..|].
      split; [done|]. intros s' S. apply (HK _ _ S). destruct s. by eapply K_memory.
  - clear s Hs. intros [] s Hs; cbn [negb]; [|intros s' S; left; split; [done|by apply (HK s)]].
    apply grg_bind; [apply rely_refl|].
    eapply grg_mono; [apply (wait_grg (λ σ, σ.(reclaimer) = Some i ∧ σ.(signalled) = None) _ (with_lock kids))|].
    + intros s1 s2 [_ [H1 H2 _ _]] [Hr Hn']. split; [by apply H1|]. by rewrite (proj1 (H2 Hr)).
    + apply Hs.
    + split; [by apply (k_sigs _ _ _ _ _ (proj1 Hs))|apply Hs].
    + intros [] s1 (Hs1 & _ & Hn1) s2 S2. right. split; [done|]. by apply (fresh_stable kids s1).
Qed.

(** The wait for the searches of the others. *)
Lemma wait_searches_grg kids S s :
  K 4 false false kids s → kids.(reclaims) = true → s.2.(sigs).(signalled) = Some S →
  grg (R i) (G i) (W i) (await (address Searched) (λ x, negb (x <? Z.of_nat (size S))))
    (λ _ s', K 4 false false kids s' ∧ s'.2.(sigs).(owed) = ∅) s.
Proof.
  intros Hs Hr HS'. set (Φ := λ s, K 4 false false kids s ∧ s.2.(sigs).(signalled) = Some S).
  assert (stable Φ) as HΦ.
  { intros s1 s2 HR [HK HS1]. split; [by apply (K_stable 4 false false kids ltac:(lia) s1)|].
    destruct (R_round _ _ _ (proj2 HR)) as [-> _]; [|done]. by apply (k_sigs _ _ _ _ _ HK). }
  change (await ?a ?g) with (x ← await a g; mret x).
  apply (rule_await (G i) Φ Searched); [done|by intros ? [[]]|done|done|]. clear s Hs HS'. intros x s [Hs HS'] _ Hg.
  cbn in Hg. specialize (Hg S HS'). subst x. pose proof Hs as [K1 K2 [K3 K3'] K4 K5 K6].
  destruct (decide (s.2.(sigs).(owed) = ∅)) as [E|Hne].
  - rewrite E, size_empty, (proj2 (Z.ltb_ge _ _)) by lia. apply grg_ret. intros s' S1.
    split; [by apply (K_stable 4 false false kids ltac:(lia) s)|].
    destruct (R_round _ _ _ (proj2 S1)) as [_ Ho]; [by apply K3'|]. rewrite E in Ho. sets.
  - assert (size s.2.(sigs).(owed) ≠ 0%nat) as Hsz by (by intros ?%size_empty_inv%leibniz_equiv).
    rewrite (proj2 (Z.ltb_lt _ _)) by lia. cbn [negb]. split; [done|]. split; [by rewrite K5|]. left. split; [by rewrite K4|].
    right. right. right. right. destruct (set_choose_L _ Hne) as [c Hc]. exists c. sets.
Qed.

(** With the lock, when all have answered. *)
Lemma searched_stable kids : kids.(reclaims) = true → stable (λ s, K 4 false false kids s ∧ s.2.(sigs).(owed) = ∅).
Proof.
  intros Hr s1 s2 HR [HK1 Ho1]. split; [by apply (K_stable 4 false false kids ltac:(lia) s1)|].
  destruct (R_round _ _ _ (proj2 HR)) as [_ Ho]; [by apply (k_sigs _ _ _ _ _ HK1)|]. rewrite Ho1 in Ho. sets.
Qed.

(** [do_reclaim]. *)
Lemma whole_round_grg rsp kids s :
  on_stack i rsp → fresh kids s →
  grg (R i) (G i) (W i) (do_reclaim v.(globals) g pthread_kill (td i) rsp)
    (λ _ s', K 4 false false (with_lock kids) s' ∧ s'.2.(sigs).(owed) = ∅) s.
Proof.
  intros Hrs Hs. unfold do_reclaim. set (kids' := with_lock kids). pose proof (K_stable 4 false false kids' ltac:(lia)) as HK.
  assert (∀ s, K 4 false false kids' s → 4 <= s.2.(stage) i <= 10)%nat as Hst4 by (intros s1 [_ -> _ _ _ _]; lia).
  apply grg_bind; [apply rely_refl|].
  eapply grg_mono; [apply (user_stack_grg (G i) (fresh kids)); [apply fresh_stable|by intros ? [[]]|done|intros s1 [? _]; by apply Hst4|done]|].
  clear s Hs. intros r s [Hhigh Hs].
  apply (rule_wr (G i) (fresh kids) Searched 0 (λ γ, set_sigs (reset γ.(sigs)) γ)); [apply fresh_stable|by intros ? [[]]|done|done|].
  clear s Hs. intros s [Hs Hn']. destruct (reset_step kids' s Hs eq_refl Hn') as [HG Hs']. split; [exact HG|].
  apply grg_bind; [apply rely_refl|]. eapply grg_mono; [by apply (signal_others_grg kids')|].
  cbv beta. clear s Hs Hn' HG Hs'. intros x s (Hs & S & HS' & ->).
  apply grg_bind; [apply rely_refl|].
  set (Ψ := λ s, K 4 false false kids' s ∧ s.2.(sigs).(signalled) = Some S).
  assert (stable Ψ) as HΨ.
  { intros s1 s2 HR [HK1 HS1]. split; [by apply (HK s1)|].
    destruct (R_round _ _ _ (proj2 HR)) as [-> _]; [|done]. by apply (k_sigs _ _ _ _ _ HK1). }
  apply grg_mono with (P := λ _, Ψ).
  { rewrite Hhigh. apply quiet_grg; [done|by intros ? [[]]|intros s1 s2 HR; apply (R_changes _ _ _ (proj1 HR))| |by apply search_quiet|done].
    intros m m' γ Hi' He [HK1 HS1]. split; [split; [by eapply K_memory|done]|by apply elsewhere_G]. }
  clear s Hs HS'. intros _ s Hs. apply grg_bind; [apply rely_refl|].
  eapply grg_mono; [apply (search_block_grg (G i) Ψ); [done|by intros ? [[]]|done|intros s1 [? _]; by apply Hst4|done]|].
  clear s Hs. intros _ s [Hs HS']. apply grg_bind; [apply rely_refl|].
  eapply grg_mono; [by apply (wait_searches_grg kids' S)|]. cbv beta. clear s Hs HS'. intros _ s Hs.
  apply grg_ret. intros s' S1. by apply (searched_stable kids' eq_refl s s').
Qed.

Lemma reclaim_grg rsp kids s :
  on_stack i rsp → K 4 false false kids s → (0 < kids.(budget))%nat → kids.(reclaims) = false →
  grg (R i) (G i) (W i) (reclaim v pthread_kill g thread i rsp)
    (λ _ s', ∃ b, (pred kids.(budget) <= b)%nat ∧ K 4 false false {| kids_of := kids; budget := b; reclaims := false |} s') s.
Proof.
  intros Hrs Hs Hb Hr. unfold reclaim. set (kids' := with_lock kids). pose proof (K_stable 4 false false kids' ltac:(lia)) as HK.
  apply grg_bind; [apply rely_refl|]. eapply grg_mono; [by apply (acquire_grg kids)|].
  clear s Hs. intros acquired s [[-> Hs]|[-> Hs]].
  { apply grg_ret. intros s' S. exists kids.(budget). split; [lia|]. apply (K_stable 4 false false kids ltac:(lia) _ _ S) in Hs.
    destruct Hs as [K1 K2 K3 K4 K5 K6]. rewrite Hr in K3. by split. }
  change (negb (1 =? 0)) with true. cbn iota.
  apply grg_bind; [apply rely_refl|]. eapply grg_mono; [by apply (whole_round_grg rsp kids)|]. fold kids'. cbv beta.
  clear s Hs. intros _ s Hs. unfold threadscan_thread_cleanup_release.
  set (Φ := λ s, K 4 false false kids' s ∧ s.2.(sigs).(owed) = ∅).
  assert (stable Φ) as HΦ by (by apply searched_stable).
  apply (rule_rd (G i) Φ Stamp); [done|by intros ? [[]]|done|done|]. clear s Hs. intros x s Hs _ _.
  eapply grg_mono; [apply (rule_wr_last (G i) Φ (K 4 false false (without_lock kids')) Stamp (TIMESTAMP x) (λ γ, set_sigs (released γ.(sigs)) γ));
    [done|by intros ? [[]]|done|apply K_stable; lia|done|]|].
  - clear s Hs. intros s [Hs Ho]. by apply (round_ends kids' s (TIMESTAMP x)); [| | |apply TIMESTAMP_inactive].
  - intros [] s1 Hs1. exists (pred kids.(budget)). by split.
Qed.

(** *** Leaving *)
Lemma mover_self k : (3 <= k <= 9)%nat → mover i k = i.
Proof. intros Hk. unfold mover. by rewrite decide_True by lia. Qed.

Lemma inactive_grg {A} kids (k : unit → prog Z A) P s :
  K 4 false false kids s →
  (∀ s', K 5 false false kids s' → grg (R i) (G i) (W i) (k tt) P s') →
  grg (R i) (G i) (W i) (wr (td_is_active (td i)) 0 ≫= k) P s.
Proof.
  intros Hs Hk. apply (rule_wr (G i) (K 4 false false kids) (Field i Active) 0 (set_stage i Leaving));
    [apply K_stable; lia|by intros ? []|done|done|].
  clear s Hs. intros s Hs. pose proof Hs as [K1 K2 K3 K4 K5 K6].
  assert (counted (set_stage i Leaving s.2) = counted s.2) as Hcount by (apply (counted_same i Leaving); [done|rewrite K2; lia]).
  destruct (write_step s (Field i Active) 0 (set_stage i Leaving s.2)) as [HG Hi']; [done|done|..].
  - apply (moves_stage i i); rewrite ?K2; try done; by left.
  - apply wf_stage; [rewrite K2; lia..|apply (in_wf _ K1)].
  - cbn. rewrite decide_True by done. lia.
  - other_words Hcount.
  - intros c f [= <- <-]. rewrite K2. unfold owned. lia.
  - split; [done|]. apply Hk. by eapply K_self.
Qed.

(** The search for the element before its own. *)
Lemma find_previous_grg fuel kids l done_ c mid post s :
  l = done_ ++ c :: mid ++ i :: post → (length mid < fuel)%nat → KL 5 kids l s →
  grg (R i) (G i) (W i) (find_previous fuel (td i) (td c))
    (λ r s', KL 5 kids l s' ∧ ∃ pre p, r = td p ∧ l = pre ++ p :: i :: post) s.
Proof.
  revert done_ c mid s. induction fuel as [|fuel IH]; intros done_ c mid s El Hlen Hs; [lia|]. cbn [find_previous].
  assert (∀ s, KL 5 kids l s → c ∈ s.2.(listed) ∧ (c < n)%nat ∧ NoDup l ∧ ∀ x, x ∈ l → (x < n)%nat) as Hin.
  { intros s' [[K1 _ _ _ _ _] El']. pose proof (in_wf _ K1) as [[Hnd W1] _ _ _]. rewrite El' in *.
    assert (c ∈ l) as Hcl by (rewrite El, elem_of_app; right; by left). split; [done|]. split; [by apply W1|]. split; [done|].
    intros x Hx. by apply W1. }
  apply (rule_rd (G i) (KL 5 kids l) (Field c Next)); [apply KL_stable; lia|by intros ? [[]]|exact (proj1 (proj2 (Hin s Hs)))|done|].
  clear s Hs. intros x s Hs Hx _. destruct (Hin _ Hs) as (Hcl & Hcn & Hnd & Hall).
  change (s.1 !! td_next (td c) = Some x) in Hx.
  rewrite (good_next l c s) in Hx; [|apply (k_inv _ _ _ _ _ (proj1 Hs))|apply Hs|by rewrite <- (proj2 Hs)]. injection Hx as <-.
  assert (next_of td_ l c = head_of td_ (mid ++ i :: post)) as E.
  { rewrite El in *. by apply next_of_app. }
  rewrite E. destruct mid as [|y mid]; cbn [head_of app].
  - rewrite Z.eqb_refl. apply grg_ret. intros s' S. split; [by apply (KL_stable 5 kids l ltac:(lia) s)|]. by exists done_, c.
  - assert (y ≠ i) as Hne.
    { rewrite El in Hnd. apply NoDup_app in Hnd as (_ & _ & [_ Hnd]%NoDup_cons). apply NoDup_cons in Hnd as [Hy _]. sets. }
    assert (y < n)%nat as Hy by (apply Hall; rewrite El, elem_of_app; right; right; by left).
    destruct (Z.eqb_spec (td y) (td i)) as [Et|_]; [by apply td_inj_ in Et|]. cbn [negb].
    apply (rule_rd (G i) (KL 5 kids l) (Field c Next)); [apply KL_stable; lia|by intros ? [[]]|done|done|].
    clear s Hs Hcl. intros x s Hs Hx _. change (s.1 !! td_next (td c) = Some x) in Hx.
    rewrite (good_next l c s), E in Hx; [|apply (k_inv _ _ _ _ _ (proj1 Hs))|apply Hs|by rewrite <- (proj2 Hs); apply (Hin s)]. injection Hx as <-. cbn [head_of app].
    apply grg_bind_lift. pose proof (Htd y Hy). rewrite c_assert_true by lia. apply wp_ret.
    apply (IH (done_ ++ [c]) y mid); [by rewrite <- app_assoc|cbn in Hlen; lia|done].
Qed.

(** Unlinking: one write, to the head or to the element before. *)
Lemma unlink_step kids l pre post w s :
  KL 5 kids l s → l = pre ++ i :: post →
  (w = Head ∧ pre = [] ∨ ∃ p pre', w = Field p Next ∧ pre = pre' ++ [p]) →
  let s' := (<[address w := next_of td_ l i]> s.1, set_stage i Unlisted (set_listed (pre ++ post) s.2)) in
  G i s s' ∧ KL 6 kids (pre ++ post) s'.
Proof.
  intros [HK El] Epre Hw. pose proof HK as [K1 K2 K3 K4 K5 K6]. pose proof (in_wf _ K1) as [[Hnd W1] [_ W2] _ _]. rewrite El in Hnd, W1.
  assert (next_of td_ l i = head_of td_ post) as E by (rewrite Epre in *; by apply next_of_app).
  pose proof (next_of_without td_ Head w l pre i post Epre Hnd Hw) as Hother.
  assert (in_range n w) as Hwr.
  { destruct Hw as [[-> _]|(p & pre' & -> & ->)]; [done|]. apply W1. rewrite Epre. sets. }
  set (γ' := set_stage i Unlisted (set_listed (pre ++ post) s.2)).
  assert (counted γ' = counted s.2) as Hcount by (apply (counted_same i Unlisted); [done|rewrite K2; lia]).
  destruct (write_step s w (next_of td_ l i) γ') as [HG Hi']; [done|done|..].
  - apply (moves_stage i i); rewrite ?K2; try done; [right; by apply K4|by left].
  - apply wf_delist; [by rewrite El|done|apply (in_wf _ K1)].
  - rewrite E. destruct Hw as [[-> ->]|(p & pre' & -> & ->)]; [done|]. cbn.
    assert (p ∈ l) as Hp%W1 by (rewrite Epre; sets).
    assert (p ≠ i) as Hpi by (intros ->; rewrite Epre in Hnd; apply NoDup_app in Hnd as (_ & Hd & _); apply (Hd i); sets).
    rewrite decide_False by done. split; [|lia]. intros _. rewrite <- app_assoc. symmetry. apply next_of_app.
    rewrite Epre in Hnd. apply NoDup_without in Hnd. by rewrite <- app_assoc in Hnd.
  - unfold γ' in *. other_words Hcount.
    + destruct Hw as [[-> _]|(p & pre' & -> & Ep)]; [done|]. rewrite Hg, Epre, Ep. by destruct pre'.
    + by rewrite Hother by congruence.
  - intros c f -> Ho. destruct Hw as [[? _]|(p & pre' & [= -> ->] & ->)]; [done|].
    assert (p ∈ l) as Hp%W1 by (rewrite Epre; sets). destruct Ho as [?|[[_ [?|?]]|[?|[_ ?]]]]; [lia|done|done|lia|done].
  - split; [done|]. split; [|done]. by eapply K_self.
Qed.

Lemma list_remove_grg kids s :
  K 5 false false kids s →
  grg (R i) (G i) (W i) (threadscan_util_thread_list_remove tl (td i)) (λ _, K 6 false false kids) s.
Proof.
  intros Hs. unfold threadscan_util_thread_list_remove.
  apply grg_bind_lift. rewrite c_assert_true by lia. apply wp_ret.
  apply grg_bind_lift. pose proof (Htd i Hi). rewrite c_assert_true by lia. apply wp_ret.
  apply grg_bind; [apply rely_refl|]. eapply grg_mono; [apply (list_lock_grg 5 kids); [lia|done]|].
  clear s Hs. intros [] s Hs. set (l := s.2.(listed)) in *. clearbody l. pose proof (KL_stable 5 kids l ltac:(lia)) as HKL.
  apply (rule_rd (G i) (KL 5 kids l) Head); [done|by intros ? [[]]|done|done|].
  clear s Hs. intros x s Hs _ Hg. cbn in Hg. pose proof Hs as [HK El]. rewrite El in Hg.
  pose proof (in_wf _ (k_inv _ _ _ _ _ HK)) as [[Hnd W1] _ _ _]. rewrite El in Hnd, W1.
  assert (i ∈ l) as Hin by (apply W1; rewrite (k_stage _ _ _ _ _ HK); lia).
  destruct l as [|c l']; [by apply elem_of_nil in Hin|]. cbn in Hg. subst x. set (l := c :: l') in *.
  assert (c < n)%nat as Hcn by (apply W1; by left).
  apply grg_bind_lift. pose proof (Htd c Hcn). rewrite c_assert_true by lia. apply wp_ret.
  assert (∀ s, KL 5 kids l s → s.1 !! td_next (td i) = Some (next_of td_ l i)) as Hnext.
  { intros s' Hs'. apply (good_next l i); [apply (k_inv _ _ _ _ _ (proj1 Hs'))|apply Hs'|done]. }
  assert (∀ w pre post s, KL 5 kids l s → l = pre ++ i :: post →
    (w = Head ∧ pre = [] ∨ ∃ p pre', w = Field p Next ∧ pre = pre' ++ [p]) →
    grg (R i) (G i) (W i) (next ← rd (td_next (td i)); wr (address w) next) (λ _, KL 6 kids (pre ++ post)) s) as Hunlink.
  { intros w pre post s1 Hs1 Epre Hw.
    apply (rule_rd (G i) (KL 5 kids l) (Field i Next)); [done|by intros ? [[]]|done|done|].
    clear s1 Hs1. intros x s1 Hs1 Hx _. change (s1.1 !! td_next (td i) = Some x) in Hx. rewrite Hnext in Hx by done. injection Hx as <-.
    apply (rule_wr_last (G i) (KL 5 kids l) _ w _ (λ γ, set_stage i Unlisted (set_listed (pre ++ post) γ)));
      [done|by intros ? [[]]| |apply KL_stable; lia|done|].
    - destruct Hw as [[-> _]|(p & pre' & -> & ->)]; [done|]. apply W1. rewrite Epre. sets.
    - intros s2 Hs2. by apply (unlink_step kids l pre post). }
  apply grg_bind; [apply rely_refl|].
  apply grg_mono with (P := λ _ s, ∃ l2, KL 6 kids l2 s).
  - destruct (Z.eqb_spec (td c) (td i)) as [E|Hne].
    + apply td_inj_ in E as ->; [|done|done]. eapply grg_mono; [apply (Hunlink Head [] l'); [done|done|by left]|]. intros [] s1 Hs1. by exists l'.
    + assert (∃ mid post, l = [] ++ c :: mid ++ i :: post) as (mid & post & E).
      { apply elem_of_cons in Hin as [->|Hin]; [done|]. apply list_elem_of_split in Hin as (mid & post & ->). by exists mid, post. }
      apply grg_bind; [apply rely_refl|].
      pose proof (listed_fits l s (k_inv _ _ _ _ _ HK) El) as Hfit.
      eapply grg_mono; [apply (find_previous_grg list_fuel kids l [] c mid post s)|].
      * done.
      * rewrite E in Hfit. cbn in Hfit. rewrite length_app in Hfit. lia.
      * done.
      * clear s Hs HK El Hfit W1. intros r s (Hs & pre & p & -> & E').
        eapply grg_mono; [apply (Hunlink (Field p Next) (pre ++ [p]) post); [done|by rewrite <- app_assoc|right; by exists p, pre]|].
        intros [] s1 Hs1. by eexists.
  - clear s Hs HK El W1. intros [] s (l2 & Hs). by apply (list_unlock_grg 6 kids l2); [lia|].
Qed.

(** The last reference is dropped. *)
Lemma drop_step kids s x :
  K 6 false false kids s → s.1 !! td_ref_count (td i) = Some x → good s.2 (Field i Refs) x →
  x = 1 ∧ let s' := (<[address (Field i Refs) := 0]> s.1, set_stage i Dropped s.2) in G i s s' ∧ K 7 false false kids s'.
Proof.
  intros HK Hx Hval. pose proof HK as [K1 K2 K3 K4 K5 K6]. cbn in Hval. split; [apply Hval; lia|].
  assert (counted (set_stage i Dropped s.2) = counted s.2) as Hcount by (apply (counted_same i Dropped); [done|rewrite K2; lia]).
  destruct (write_step s (Field i Refs) 0 (set_stage i Dropped s.2)) as [HG Hi']; [done|done|..].
  - apply (moves_stage i i); rewrite ?K2; try done; by left.
  - apply wf_stage; [rewrite K2; lia..|apply (in_wf _ K1)].
  - cbn. rewrite decide_True by done. lia.
  - other_words Hcount.
  - intros c f [= <- <-]. rewrite K2. unfold owned. lia.
  - split; [done|]. by eapply K_self.
Qed.

(** It is put in the list of ended threads. *)
Lemma park_step kids l s :
  KP 7 kids l s → s.1 !! td_next (td i) = Some (head_of td_ l) →
  let s' := (<[address Staged := td i]> s.1, set_stage i Parked (set_parked (i :: l) s.2)) in G i s s' ∧ KP 8 kids (i :: l) s'.
Proof.
  intros [HK El] Hn'. pose proof HK as [K1 K2 K3 K4 K5 K6]. set (γ' := set_stage i Parked (set_parked (i :: l) s.2)).
  assert (counted γ' = counted s.2) as Hcount by (apply (counted_same i Parked); [done|rewrite K2; lia]).
  destruct (write_step s Staged (td i) γ') as [HG Hi']; [done|done|..].
  - apply (moves_stage i i); rewrite ?K2; try done; [by left|right; by apply K5].
  - unfold γ'. rewrite <- El. apply wf_park; [done|done|apply (in_wf _ K1)].
  - done.
  - unfold γ' in *. other_words Hcount.
  - done.
  - split; [done|]. split; [by eapply K_self|done].
Qed.

Lemma decr_ref_grg kids s :
  K 6 false false kids s →
  grg (R i) (G i) (W i) (threadscan_util_thread_data_decr_ref v (td i)) (λ _, K 8 false false kids) s.
Proof.
  intros Hs. unfold threadscan_util_thread_data_decr_ref, sync_fetch_and_sub.
  apply (rule_rmw (G i) (K 6 false false kids) (Field i Refs) _ (set_stage i Dropped)); [apply K_stable; lia|by intros ? []|done|done|].
  clear s Hs. intros x s Hs Hx Hg. destruct (drop_step kids s x Hs Hx Hg) as (-> & HG & Hs'). split; [exact HG|].
  clear HG Hg Hx Hs. change (int_of_u64 (1 - 1)) with 0. change (1 - 1 =? 0) with true. cbn iota.
  set (s' := (<[address (Field i Refs) := 0]> s.1, set_stage i Dropped s.2)) in *. clearbody s'.
  apply grg_bind; [apply rely_refl|]. eapply grg_mono; [apply (parked_lock_grg 7 kids); [lia|done]|].
  clear s s' Hs'. intros [] s Hs. set (l := s.2.(parked)) in *. clearbody l. pose proof (KP_stable 7 kids l ltac:(lia)) as HKP.
  apply (rule_rd (G i) (KP 7 kids l) Staged); [done|by intros ? [[]]|done|done|].
  clear s Hs. intros x s Hs _ Hg. cbn in Hg. rewrite (proj2 Hs) in Hg. subst x.
  apply (rule_wr (G i) (KP 7 kids l) (Field i Next) (head_of td_ l) (λ γ, γ)); [done|by intros ? [[]]|done|done|].
  clear s Hs. intros s Hs. pose proof Hs as [[K1 K2 K3 K4 K5 K6] El].
  destruct (write_step s (Field i Next) (head_of td_ l) s.2) as [HG Hi']; [done|done|apply moves_refl|apply (in_wf _ K1)|cbn; lia|done| |].
  { intros c f [= <- <-] _. rewrite K2. by apply mover_self; lia. }
  split; [done|]. set (Φ := λ s, KP 7 kids l s ∧ s.1 !! td_next (td i) = Some (head_of td_ l)).
  apply (rule_wr (G i) Φ Staged (td i) (λ γ, set_stage i Parked (set_parked (i :: l) γ))); [|by intros ? [[[]]]|done|..].
  - intros s1 s2 HR [HK1 Hn1]. split; [by apply (HKP s1)|]. rewrite <- Hn1.
    apply (R_fields _ _ _ (proj1 HR) i Next Hi); rewrite (k_stage _ _ _ _ _ (proj1 HK1)); [unfold owned; tauto|by apply mover_self; lia].
  - split; [by split; [split|]|]. apply lookup_insert_eq.
  - clear s Hs K1 K2 K3 K4 K5 K6 El HG Hi'. intros s [Hs Hn']. destruct (park_step kids l s Hs Hn') as [HG Hs'].
    split; [exact HG|]. by apply (parked_unlock_grg 8 kids (i :: l)); [lia|].
Qed.

(** [threadscan_thread_cleanup]. *)
Lemma thread_cleanup_grg kids s :
  K 4 false false kids s →
  grg (R i) (G i) (W i) (threadscan_thread_cleanup v (td i)) (λ _, K 8 false false kids) s.
Proof.
  intros Hs. unfold threadscan_thread_cleanup.
  apply grg_bind_lift. pose proof (Htd i Hi). rewrite c_assert_true by lia. apply wp_ret.
  apply (inactive_grg kids); [done|]. clear s Hs. intros s Hs.
  apply grg_bind; [apply rely_refl|]. eapply grg_mono; [by apply list_remove_grg|]. intros [] s1 Hs1. by apply decr_ref_grg.
Qed.

(** The count goes down. *)
Lemma uncount_grg kids s :
  K 8 false false kids s →
  grg (R i) (G i) (W i) (sync_fetch_and_sub v.(g_thread_count) 1) (λ _, K 9 false false kids) s.
Proof.
  intros Hs. unfold sync_fetch_and_sub. change (rmw ?a ?g) with (x ← rmw a g; mret x).
  apply (rule_rmw (G i) (K 8 false false kids) Count _ (set_stage i Uncounted)); [apply K_stable; lia|by intros ? []|done|done|].
  clear s Hs. intros x s Hs _ Hg. cbn in Hg. subst x. pose proof Hs as [K1 K2 K3 K4 K5 K6].
  destruct (length_counted i Parked (set_stage i Uncounted s.2)) as [E Hlt]; [done|cbn; rewrite decide_True by done; lia|lia|].
  assert (counted (set_stage i Parked (set_stage i Uncounted s.2)) = counted s.2) as E'.
  { apply list_filter_iff. intros x. cbn. case_decide; [subst; by rewrite K2|done]. }
  rewrite E' in E. assert (length (counted (set_stage i Uncounted s.2)) <= 256)%nat as Hle by (unfold MAX_THREAD_COUNT in Hn; lia).
  rewrite int_of_u64_small by (unfold INT_MAX; lia).
  destruct (write_step s Count (Z.of_nat (length (counted s.2)) - 1) (set_stage i Uncounted s.2)) as [HG Hi']; [done|done|..].
  - apply (moves_stage i i); rewrite ?K2; try done; by left.
  - apply wf_stage; [rewrite K2; lia..|apply (in_wf _ K1)].
  - cbn [good]. lia.
  - other_words (eq_refl 0).
  - done.
  - split; [done|]. apply grg_ret. intros s' S. apply (K_stable 9 false false kids ltac:(lia) _ _ S). by eapply K_self.
Qed.

(** *** Joining *)
Section join.
Context (c : nat) (Hc : (i < c < n)%nat) (Hp : parent c = i).

(** [pthread_join] returned: the child has ended. *)
Lemma wait_end_grg {A} kids (k : Z → prog Z A) P s :
  kids c = Launched → K 4 false false kids s →
  (∀ x s', K 4 false false (updv c Over kids) s' → grg (R i) (G i) (W i) (k x) P s') →
  grg (R i) (G i) (W i) (await (thread c).(pr_ended) (λ e, negb (e =? 0)) ≫= k) P s.
Proof.
  intros Hkid Hs Hk. apply (rule_await (G i) (K 4 false false kids) (Ended c)); [apply K_stable; lia|by intros ? []|cbn; lia|done|].
  clear s Hs. intros x s Hs _ Hg. cbn in Hg. pose proof Hs as [K1 K2 K3 K4 K5 K6].
  assert (3 <= s.2.(stage) c <= 10)%nat as Hst by (destruct (K6 c ltac:(lia) Hp) as [[_ ?]|[? _]]; [done|lia]).
  case_decide as Hd; subst x; cbn [Z.eqb negb].
  - apply Hk. split; try done. intros x Hx Hpx. cbn. unfold upd. case_decide; [|by apply K6]. subst x. right. lia.
  - split; [done|]. split; [by rewrite K5|]. left. split; [by rewrite K4|]. right. right. right. left. exists c. lia.
Qed.

Definition last_td (l : list nat) : Z := from_option td_ 0 (last l).

(** The search in the list of ended threads. *)
Lemma find_staged_grg fuel kids l pre x rest s :
  l = pre ++ x :: rest → c ∈ x :: rest → (length rest < fuel)%nat → KP 4 kids l s →
  grg (R i) (G i) (W i) (find_staged fuel (self c) (last_td pre) (td x))
    (λ r s', KP 4 kids l s' ∧ ∃ pre post, r = (last_td pre, td c) ∧ l = pre ++ c :: post) s.
Proof.
  revert pre x rest s. induction fuel as [|fuel IH]; intros pre x rest s El Hin Hlen Hs; [lia|]. cbn [find_staged].
  assert (∀ s, KP 4 kids l s → NoDup l ∧ ∀ y, y ∈ l → (y < n)%nat ∧ (8 <= s.2.(stage) y <= 10)%nat) as Hall.
  { intros s' [[K1 _ _ _ _ _] El']. pose proof (in_wf _ K1) as [_ [Hnd W2] _ _]. rewrite El' in *. split; [done|]. apply W2. }
  assert (x ∈ l) as Hxl by (rewrite El; sets). pose proof (proj2 (Hall _ Hs) x Hxl) as [Hxn _].
  pose proof (KP_stable 4 kids l ltac:(lia)) as HKP.
  apply (rule_rd (G i) (KP 4 kids l) (Field x Self)); [done|by intros ? [[]]|done|done|].
  clear s Hs. intros y s Hs _ Hg. cbn in Hg. destruct (Hall _ Hs) as [Hnd Hst]. rewrite Hg by (apply Hst in Hxl; lia). clear y Hg.
  destruct (Z.eqb_spec (self x) (self c)) as [E|Hne].
  { apply Hself in E as ->; [|done|lia]. apply grg_ret. intros s' S. split; [by apply (HKP s)|]. by exists pre, rest. }
  apply elem_of_cons in Hin as [->|Hin]; [done|]. destruct rest as [|z rest]; [by apply elem_of_nil in Hin|].
  assert (z ∈ l) as Hzl by (rewrite El; sets). pose proof (proj1 (Hst z Hzl)) as Hzn.
  apply (rule_rd (G i) (KP 4 kids l) (Field x Next)); [done|by intros ? [[]]|done|done|].
  clear s Hs Hst. intros y s Hs _ [_ Hg]. rewrite Hg, (proj2 Hs) by (apply (Hall _ Hs); done).
  assert (next_of td_ l x = td z) as -> by (rewrite El in *; by apply next_of_app).
  apply grg_bind_lift. pose proof (Htd z Hzn). rewrite c_assert_true by lia. apply wp_ret.
  replace (td x) with (last_td (pre ++ [x])) by (unfold last_td; by rewrite last_snoc).
  apply (IH (pre ++ [x]) z rest); [by rewrite <- app_assoc|done|cbn in Hlen; lia|done].
Qed.

(** The child's metadata after it was taken out. *)
Definition no_references s : Prop := s.1 !! td_ref_count (td c) = Some 0.

Lemma no_references_stable lo po kids : kids c = Gone → stable (λ s, K 4 lo po kids s ∧ no_references s).
Proof.
  intros Hkid s s' HR [HK Hr]. split; [by apply (K_stable 4 lo po kids ltac:(lia) s)|].
  pose proof (kid_stage c Hc Hp _ _ _ _ _ _ HK Hkid ltac:(done)) as Hst.
  unfold no_references. rewrite <- Hr. apply (R_fields _ _ _ (proj1 HR) c Refs); rewrite ?Hst; [lia|unfold owned; tauto|].
  apply mover_kid; [done..|lia].
Qed.

Lemma unpark_step kids l pre post w s :
  KP 4 kids l s → kids c = Over → l = pre ++ c :: post →
  (w = Staged ∧ pre = [] ∨ ∃ p pre', w = Field p Next ∧ pre = pre' ++ [p]) →
  let s' := (<[address w := next_of td_ l c]> s.1, set_stage c Gone (set_parked (pre ++ post) s.2)) in
  G i s s' ∧ KP 4 (updv c Gone kids) (pre ++ post) s' ∧ no_references s'.
Proof.
  intros [HK El] Hkid Epre Hw. pose proof HK as [K1 K2 K3 K4 K5 K6]. pose proof (in_wf _ K1) as [[_ W1] [Hnd W2] _ _]. rewrite El in Hnd, W2.
  pose proof (kid_stage c Hc Hp _ _ _ _ _ _ HK Hkid ltac:(done)) as Hst.
  assert (next_of td_ l c = head_of td_ post) as E by (rewrite Epre in *; by apply next_of_app).
  pose proof (next_of_without td_ Staged w l pre c post Epre Hnd Hw) as Hother.
  assert (in_range n w) as Hwr.
  { destruct Hw as [[-> _]|(p & pre' & -> & ->)]; [done|]. apply W2. rewrite Epre. sets. }
  set (γ' := set_stage c Gone (set_parked (pre ++ post) s.2)).
  assert (counted γ' = counted s.2) as Hcount by (apply (counted_same c Gone); [done|rewrite Hst; lia]).
  assert (no_references (<[address w := next_of td_ l c]> s.1, γ')) as Hno.
  { destruct (in_good _ K1 (Field c Refs)) as (x & Hx & _ & Hg); [cbn; lia|]. rewrite Hg in Hx by lia.
    unfold no_references. cbn [fst]. rewrite lookup_insert_ne; [exact Hx|].
    intros E'%(address_inj w (Field c Refs)); [|done|cbn; lia]. destruct Hw as [[-> _]|(p & pre' & -> & _)]; done. }
  destruct (write_step s w (next_of td_ l c) γ') as [HG Hi']; [done|done|..].
  - apply (moves_stage i c); rewrite ?Hst; try done; [by left|right; by apply K5].
  - apply wf_unpark; [by rewrite El|done|apply (in_wf _ K1)].
  - rewrite E. destruct Hw as [[-> ->]|(p & pre' & -> & ->)]; [done|]. cbn.
    assert (p ∈ l) as Hpl%W2 by (rewrite Epre; sets).
    assert (p ≠ c) as Hpi by (intros ->; rewrite Epre in Hnd; apply NoDup_app in Hnd as (_ & Hd & _); apply (Hd c); sets).
    rewrite decide_False by done. split; [lia|]. intros _. rewrite <- app_assoc. symmetry. apply next_of_app.
    rewrite Epre in Hnd. apply NoDup_without in Hnd. by rewrite <- app_assoc in Hnd.
  - unfold γ' in *. other_words Hcount.
    + destruct Hw as [[-> _]|(p & pre' & -> & Ep)]; [done|]. rewrite Hg, Epre, Ep. by destruct pre'.
    + by rewrite Hother by congruence.
  - intros x f -> Ho. destruct Hw as [[? _]|(p & pre' & [= -> ->] & ->)]; [done|].
    assert (p ∈ l) as Hpl%W2 by (rewrite Epre; sets). destruct Ho as [?|[[_ [?|?]]|[?|[_ ?]]]]; [lia|done|done|lia|done].
  - split; [done|]. split; [|done]. split; [|done]. eapply K_child; try done; lia.
Qed.
(** The next field of the child. *)
Lemma parked_next kids l s x :
  kids c = Over → KP 4 kids l s → s.1 !! td_next (td c) = Some x → x = next_of td_ l c.
Proof.
  intros Hkid [HK El] Hx. pose proof (kid_stage c Hc Hp _ _ _ _ _ _ HK Hkid ltac:(done)) as Hst.
  destruct (in_good _ (k_inv _ _ _ _ _ HK) (Field c Next)) as (y & Hy & _ & Hg); [cbn; lia|].
  change (s.1 !! td_next (td c) = Some y) in Hy. rewrite Hx in Hy. injection Hy as <-. rewrite Hg by lia. by rewrite El.
Qed.

Lemma unpark_wr kids l pre post w s :
  kids c = Over → l = pre ++ c :: post →
  (w = Staged ∧ pre = [] ∨ ∃ p pre', w = Field p Next ∧ pre = pre' ++ [p]) → KP 4 kids l s →
  grg (R i) (G i) (W i) (wr (address w) (next_of td_ l c))
    (λ _ s, KP 4 (updv c Gone kids) (pre ++ post) s ∧ no_references s) s.
Proof.
  intros Hkid El Hw Hs. pose proof (KP_stable 4 kids l ltac:(lia)) as HKP.
  assert (updv c Gone kids c = Gone) as Hgone by (apply updv_eq).
  apply (rule_wr_last (G i) (KP 4 kids l) _ w _ (λ γ, set_stage c Gone (set_parked (pre ++ post) γ))); [done|by intros ? [[]]| | |done|].
  - destruct Hw as [[-> _]|(p & pre' & -> & ->)]; [done|].
    pose proof (in_wf _ (k_inv _ _ _ _ _ (proj1 Hs))) as [_ [_ W2] _ _]. apply W2. rewrite (proj2 Hs), El. sets.
  - intros s1 s2 HR [HK1 Hn1]. split; [by apply (KP_stable 4 _ (pre ++ post) ltac:(lia) s1)|].
    by apply (no_references_stable false true (updv c Gone kids) Hgone s1); [|split; [apply HK1|]].
  - intros s1 Hs1. by destruct (unpark_step kids l pre post w s1) as (HG & HK1 & Hno).
Qed.

Lemma unstage_grg kids s :
  kids c = Over → K 4 false false kids s →
  grg (R i) (G i) (W i) (unstage v list_fuel (self c))
    (λ t s', t = td c ∧ K 4 false false (updv c Gone kids) s' ∧ no_references s') s.
Proof.
  intros Hkid Hs. unfold unstage.
  apply grg_bind; [apply rely_refl|]. eapply grg_mono; [apply (parked_lock_grg 4 kids); [lia|done]|].
  clear s Hs. intros [] s Hs. set (l := s.2.(parked)) in *. clearbody l. pose proof (KP_stable 4 kids l ltac:(lia)) as HKP.
  apply (rule_rd (G i) (KP 4 kids l) Staged); [done|by intros ? [[]]|done|done|].
  clear s Hs. intros x s Hs _ Hg. cbn in Hg. pose proof Hs as [HK El]. rewrite El in Hg.
  pose proof (kid_stage c Hc Hp _ _ _ _ _ _ HK Hkid ltac:(done)) as Hst.
  pose proof (in_wf _ (k_inv _ _ _ _ _ HK)) as [_ [Hnd W2] _ _]. rewrite El in Hnd, W2.
  assert (c ∈ l) as Hin by (apply W2; lia).
  pose proof (threads_fit l Hnd (λ y Hy, proj1 (proj1 (W2 y) Hy))) as Hlen.
  destruct l as [|y l']; [by apply elem_of_nil in Hin|]. cbn in Hg. subst x. set (l := y :: l') in *.
  assert (y < n)%nat as Hy by (apply W2; by left).
  apply grg_bind_lift. pose proof (Htd y Hy). rewrite c_assert_true by lia. apply wp_ret.
  apply grg_bind; [apply rely_refl|]. eapply grg_mono.
  { apply (find_staged_grg list_fuel kids l [] y l' s); [done|done| |done]. unfold l in Hlen. cbn in Hlen. lia. }
  clear s Hs HK El Hst W2. intros r s (Hs & pre & post & -> & El).
  apply (rule_rd (G i) (KP 4 kids l) (Field c Next)); [done|by intros ? [[]]|cbn; lia|done|].
  clear s Hs. intros x s Hs Hx _. apply (parked_next kids l) in Hx; [subst x|done|done].
  apply grg_bind; [apply rely_refl|].
  eapply grg_mono with (P := λ _ s, KP 4 (updv c Gone kids) (pre ++ post) s ∧ no_references s).
  - destruct (Z.eqb_spec (last_td pre) 0) as [E|Hne]; cbn [negb].
    + apply (unpark_wr kids l pre post Staged); [done|done| |done]. left. split; [done|]. destruct pre as [|p pre' _] using rev_ind; [done|].
      unfold last_td in E. rewrite last_snoc in E. cbn in E. exfalso. apply (Htd p); [|done].
      pose proof (in_wf _ (k_inv _ _ _ _ _ (proj1 Hs))) as [_ [_ W2] _ _]. apply W2. rewrite (proj2 Hs), El. sets.
    + destruct pre as [|p pre' _] using rev_ind; [done|].
      unfold last_td. rewrite last_snoc. apply (unpark_wr kids l (pre' ++ [p]) post (Field p Next)); [done|done| |done]. right. by exists p, pre'.
  - clear s Hs. intros [] s (Hs & Hno). apply grg_bind; [apply rely_refl|].
    assert (updv c Gone kids c = Gone) as Hgone by (apply updv_eq).
    eapply grg_mono; [apply (parked_unlock_grg_with no_references 4 (updv c Gone kids) (pre ++ post)); [lia|..]|].
    + intros po. by apply no_references_stable.
    + intros s1 γ Hn1. unfold no_references. cbn [fst]. rewrite lookup_insert_ne; [done|].
      intros E'%(address_inj Staged_lock (Field c Refs)); [done|done|cbn; lia].
    + done.
    + intros [] s1 Hs1. apply grg_ret. intros s2 S2. split; [done|].
      by apply (no_references_stable false false (updv c Gone kids) Hgone s1).
Qed.
(** The metadata belongs to somebody else now. *)
Lemma overwrite_grg kids fs junk s :
  kids c = Gone → K 4 false false kids s →
  grg (R i) (G i) (W i) (overwrite ((λ f, address (Field c f)) <$> fs) junk) (λ _, K 4 false false kids) s.
Proof.
  intros Hkid. revert s. induction fs as [|f fs IH]; intros s Hs; cbn [overwrite fmap list_fmap].
  { apply grg_ret. intros s' S. by apply (K_stable 4 false false kids ltac:(lia) s). }
  apply (rule_wr (G i) (K 4 false false kids) (Field c f) _ (λ γ, γ)); [apply K_stable; lia|by intros ? []|cbn; lia|done|].
  clear s Hs. intros s HK. pose proof (kid_stage c Hc Hp _ _ _ _ _ _ HK Hkid ltac:(done)) as Hst. pose proof HK as [K1 K2 K3 K4 K5 K6].
  destruct (write_step s (Field c f) (junk (address (Field c f))) s.2) as [HG Hi']; [done|cbn; lia|apply moves_refl|apply (in_wf _ K1)| |done| |].
  - destruct f; cbn; rewrite ?Hst; try done; intuition lia.
  - intros c' f' [= <- <-] _. rewrite Hst. apply mover_kid; [done..|lia].
  - split; [done|]. apply IH. by split.
Qed.

Lemma join_grg kids s :
  kids c = Launched → K 4 false false kids s →
  grg (R i) (G i) (W i) (join v thread c) (λ _, K 4 false false (updv c Gone kids)) s.
Proof.
  intros Hkid Hs. unfold join. apply (wait_end_grg kids); [done|done|]. clear s Hs. intros _ s Hs.
  assert (updv c Over kids c = Over) as Hover by (apply updv_eq).
  set (kids' := updv c Gone (updv c Over kids)).
  assert (kids' c = Gone) as Hgone by (apply updv_eq).
  pose proof (no_references_stable false false kids' Hgone) as HΦ.
  set (Φ := λ s, K 4 false false kids' s ∧ no_references s) in HΦ.
  assert (∀ s, Φ s → inv s) as HI by (by intros ? [[] _]).
  apply grg_bind; [apply rely_refl|]. eapply grg_mono; [by apply (unstage_grg (updv c Over kids))|].
  clear s Hs. intros t s (-> & Hs). change (Φ s) in Hs.
  apply (rule_rd (G i) Φ (Field c Refs)); [done|done|cbn; lia|done|].
  clear s Hs. intros x s Hs Hx _. change (s.1 !! td_ref_count (td c) = Some x) in Hx.
  rewrite (proj2 Hs) in Hx. injection Hx as <-. change (0 >? 0) with false. cbn iota.
  apply (rule_rd (G i) Φ (Field c Ours)); [done|done|cbn; lia|done|]. clear s Hs. intros x s Hs _ _.
  apply (rule_rd (G i) Φ (Field c Low)); [done|done|cbn; lia|done|]. clear s Hs x. intros x s Hs _ _. clear x.
  apply grg_bind; [apply rely_refl|]. eapply grg_mono with (P := λ x s, x = 0 ∧ Φ s).
  { destruct debug; [|apply grg_ret; intros s' S; split; [done|by apply (HΦ s)]].
    unfold rd. intros s' S. pose proof (HΦ _ _ S Hs) as Hs'. cbn [sread mem_shared]. rewrite (proj2 Hs'). apply wp_ret.
    intros s2 S2. apply wp_ret. split; [done|]. by apply (HΦ s'). }
  clear s Hs. intros x s [-> Hs]. apply grg_bind_lift. rewrite c_assert_true by done. apply wp_ret.
  apply (rule_rd (G i) Φ (Field c Queue_e)); [done|done|cbn; lia|done|]. clear s Hs. intros x s Hs _ _.
  apply grg_mono with (P := λ _, K 4 false false kids').
  - apply (overwrite_grg kids' all_fields); [done|apply Hs].
  - intros _ s1. apply K_ext; [|done..]. intros y. unfold kids'. cbn. unfold upd. by repeat case_decide.
Qed.
End join.
(** *** All a thread does *)
Definition view_of (f : nat → nat) (b : nat) : view := {| kids_of := f; budget := b; reclaims := false |}.

Lemma run_actions_grg l f b s :
  plan_ok i f l → (rounds l <= b)%nat → K 4 false false (view_of f b) s →
  grg (R i) (G i) (W i) (run_actions v g_threadscan_ptrs_per_thread pthread_kill g thread i l)
    (λ _ s', ∃ b, K 4 false false (view_of (outcome_of i) b) s') s.
Proof.
  revert f b s. induction l as [|[c|c|rsp|p] l IH]; intros f b s; cbn [plan_ok run_actions run_action rounds].
  - intros Hend _ Hs. apply grg_ret. intros s' S. exists b. pose proof (K_stable 4 false false _ ltac:(lia) _ _ S Hs) as [K1 K2 K3 K4 K5 K6].
    split; try done. intros c Hc Hp. cbn. rewrite <- (Hend c Hc Hp). by apply K6.
  - intros (Hc & Hp & Hk & Hl) Hb Hs. apply grg_bind; [apply rely_refl|].
    eapply grg_mono; [by apply (create_grg c Hc Hp (view_of f b))|]. intros [] s1. by apply IH.
  - intros (Hc & Hp & Hk & Hl) Hb Hs. apply grg_bind; [apply rely_refl|].
    eapply grg_mono; [by apply (join_grg c Hc Hp (view_of f b))|]. intros [] s1. by apply IH.
  - intros [Hrs Hl] Hb Hs. apply grg_bind; [apply rely_refl|].
    eapply grg_mono; [apply (reclaim_grg rsp (view_of f b)); [done|done|cbn; lia|done]|]. intros [] s1 (b' & Hb' & Hs1).
    cbn in Hb'. apply (IH f b'); [done|lia|done].
  - intros [Hp Hl] Hb Hs. apply grg_bind; [apply rely_refl|].
    eapply grg_mono with (P := λ _, K 4 false false (view_of f b)); [|intros [] s1; by apply IH].
    apply quiet_grg; [apply K_stable; lia|by intros ? []|intros s1 s2 HR; apply (R_changes _ _ _ (proj1 HR))| |done|done].
    intros m m' γ Hi' He HK. split; [by eapply K_memory|by apply elsewhere_G].
Qed.

(** A thread at its end. *)
Record over (s : state) : Prop := {
  ov_inv : inv s;
  ov_stage : if decide (i = 0%nat) then s.2.(stage) i = Running else (Over <= s.2.(stage) i)%nat;
  ov_reclaimer : s.2.(sigs).(reclaimer) ≠ Some i;
  ov_list : s.2.(list_owner) ≠ Some i;
  ov_park : s.2.(parked_owner) ≠ Some i;
  ov_kids c : (0 < c < n)%nat → parent c = i → knows (outcome_of i c) (s.2.(stage) c);
}.

Lemma over_stable : stable over.
Proof.
  intros s s' [HR HRS] [K1 K2 K3 K4 K5 K6]. split.
  - by apply (R_inv _ _ _ HR).
  - case_decide as Hd.
    + rewrite <- K2. apply (R_mine _ _ _ HR). unfold mover. by rewrite decide_True by lia.
    + pose proof (R_mono _ _ _ HR i). lia.
  - by rewrite <- (R_reclaimer _ _ _ HRS).
  - intros Ho. by apply K4, (R_list _ _ _ HR).
  - intros Ho. by apply K5, (R_park _ _ _ HR).
  - intros c Hc Hp. destruct (K6 c Hc Hp) as [[E Hx]|[Hk' E]].
    + left. split; [done|]. pose proof (R_mono _ _ _ HR c). pose proof (R_child _ _ _ HR c Hp). lia.
    + right. split; [done|]. rewrite <- E. apply (R_mine _ _ _ HR). unfold mover. by rewrite decide_False by lia.
Qed.
(** And at its start. *)
Record born (s : state) : Prop := {
  bn_inv : inv s;
  bn_stage : if decide (i = 0%nat) then s.2.(stage) i = Running else (s.2.(stage) i <= Launched)%nat;
  bn_sigs : s.2.(sigs).(left) i = rounds (thread i).(pr_plan) ∧ s.2.(sigs).(reclaimer) ≠ Some i;
  bn_list : s.2.(list_owner) ≠ Some i;
  bn_park : s.2.(parked_owner) ≠ Some i;
  bn_kids c : (0 < c < n)%nat → parent c = i → s.2.(stage) c = Unborn;
}.

Lemma born_stable : stable born.
Proof.
  intros s s' [HR HRS] [K1 K2 K3 K4 K5 K6]. split.
  - by apply (R_inv _ _ _ HR).
  - case_decide as Hd.
    + rewrite <- K2. apply (R_mine _ _ _ HR). unfold mover. by rewrite decide_True by lia.
    + by apply (R_start _ _ _ HR).
  - by rewrite (R_left _ _ _ HRS), <- (R_reclaimer _ _ _ HRS).
  - intros Ho. by apply K4, (R_list _ _ _ HR).
  - intros Ho. by apply K5, (R_park _ _ _ HR).
  - intros c Hc Hp. specialize (K6 c Hc Hp). rewrite <- K6. apply (R_mine _ _ _ HR). rewrite K6. unfold mover. by rewrite decide_False by lia.
Qed.

Definition view0 : view := view_of (λ _, Unborn) (rounds (thread i).(pr_plan)).

Lemma born_K k s : born s → s.2.(stage) i = k → K k false false view0 s.
Proof.
  intros [K1 K2 [K3 K3'] K4 K5 K6] E. split; [done|done| | | |].
  - split; [done|]. by split; intros ?.
  - by split; intros ?.
  - by split; intros ?.
  - intros c Hc Hp. right. split; [cbn; lia|by apply K6].
Qed.

(** [threadscan_thread_base]. *)
Lemma base_grg kids s :
  K 3 false false kids s →
  grg (R i) (G i) (W i) (threadscan_thread_base (td i) (thread i).(pr_sp) (self i)) (λ _, K 4 false false kids) s.
Proof.
  intros Hs. unfold threadscan_thread_base. pose proof (K_stable 3 false false kids ltac:(lia)) as HK.
  assert (∀ f x s, (f = High ∨ f = Time ∨ f = Self) → good s.2 (Field i f) x → K 3 false false kids s →
    G i s (<[address (Field i f) := x]> s.1, s.2) ∧ K 3 false false kids (<[address (Field i f) := x]> s.1, s.2)) as Hstep.
  { intros f x s1 Hf Hg [K1 K2 K3 K4 K5 K6].
    destruct (write_step s1 (Field i f) x s1.2) as [HG Hi']; [done|done|apply moves_refl|apply (in_wf _ K1)|done|done| |].
    - intros c' f' [= <- <-] _. rewrite K2. by apply mover_self; lia.
    - split; [done|]. by split. }
  set (Φ f x := λ s, K 3 false false kids s ∧ s.1 !! address (Field i f) = Some x).
  assert (∀ f x, f = Self ∨ f = High → stable (Φ f x)) as HΦ.
  { intros f x Hf s1 s2 HR [HK1 Hx]. split; [by apply (HK s1)|]. rewrite <- Hx.
    apply (R_fields _ _ _ (proj1 HR) i f Hi); rewrite (k_stage _ _ _ _ _ HK1); [unfold owned; tauto|by apply mover_self; lia]. }
  assert (∀ s f f' x, f ≠ f' → (<[address (Field i f) := x]> s.1) !! address (Field i f') = s.1 !! address (Field i f')) as other_field.
  { intros s1 f f' x Hne. apply lookup_insert_ne. intros E%address_inj; [congruence|done..]. }
  apply (rule_wr_then (G i) (K 3 false false kids) (Φ High (stack_high i)) (Field i High) (stack_high i) (λ γ, γ)); [done|by intros ? []|done|done|..].
  { clear s Hs. intros s Hs. destruct (Hstep High (stack_high i) s) as [HG Hs1]; [by left|done|done|]. split; [exact HG|].
    split; [exact Hs1|apply lookup_insert_eq]. }
  clear s Hs. intros s Hs.
  apply (rule_wr_then (G i) (Φ High (stack_high i)) (Φ High (stack_high i)) (Field i Time) 0 (λ γ, γ)); [by apply HΦ; right|by intros ? [[]]|done|done|..].
  { clear s Hs. intros s [Hs Hx]. destruct (Hstep Time 0 s) as [HG Hs1]; [by right; left|done|done|]. split; [exact HG|].
    split; [exact Hs1|cbn [fst]; by rewrite (other_field s)]. }
  clear s Hs. intros s Hs.
  apply (rule_wr_then (G i) (Φ High (stack_high i)) (λ s, Φ High (stack_high i) s ∧ Φ Self (self i) s) (Field i Self) (self i) (λ γ, γ)); [by apply HΦ; right|by intros ? [[]]|done|done|..].
  { clear s Hs. intros s [Hs Hx]. destruct (Hstep Self (self i) s) as [HG Hs1]; [by right; right|done|done|]. split; [exact HG|].
    split; (split; [exact Hs1|]); [cbn [fst]; by rewrite (other_field s)|apply lookup_insert_eq]. }
  clear s Hs. intros s Hs.
  apply (rule_wr (G i) (λ s, Φ High (stack_high i) s ∧ Φ Self (self i) s) (Field i Active) 1 (set_stage i Running));
    [apply stable_and; apply HΦ; [by right|by left]|by intros ? [[[]]]|done|done|].
  clear s Hs. intros s [[Hs Hhigh1] [_ Hself1]]. cbn [address field_at] in Hhigh1, Hself1. pose proof Hs as [K1 K2 K3 K4 K5 K6].
  assert (counted (set_stage i Running s.2) = counted s.2) as Hcount by (apply (counted_same i Running); [done|rewrite K2; lia]).
  destruct (write_step s (Field i Active) 1 (set_stage i Running s.2)) as [HG Hi']; [done|done|..].
  - apply (moves_stage i i); rewrite ?K2; try done; by left.
  - apply wf_stage; [rewrite K2; lia..|apply (in_wf _ K1)].
  - cbn. rewrite decide_True by done. split; [done|]. intros _ []. done.
  - other_words Hcount.
  - intros c f [= <- <-] _. rewrite K2. by apply mover_self; lia.
  - split; [done|].
    assert (K 4 false false kids (<[address (Field i Active) := 1]> s.1, set_stage i Running s.2)) as Hs1 by (by eapply K_self).
    revert Hs1. generalize (<[address (Field i Active) := 1]> s.1, set_stage i Running s.2). clear dependent s. intros s Hs.
    pose proof (K_stable 4 false false kids ltac:(lia)) as HK4.
    apply (rule_rd (G i) (K 4 false false kids) (Field i Routine)); [done|by intros ? []|done|done|]. clear s Hs. intros x s Hs _ _.
    apply (rule_rd (G i) (K 4 false false kids) (Field i Arg)); [done|by intros ? []|done|done|]. clear s Hs. intros y s Hs _ _.
    apply grg_ret. intros s' S. by apply (HK4 s).
Qed.

(** The end: no signal is on its way any more. *)
Definition gone s : Prop := i ∉ s.2.(sigs).(arrived) ∪ s.2.(sigs).(handling).

Lemma gone_stable kids : stable (λ s, K 9 false false kids s ∧ gone s).
Proof.
  intros s s' HR [HK Hg]. split; [by apply (K_stable 9 false false kids ltac:(lia) s)|].
  apply (R_gone _ _ _ (proj2 HR)); [|done]. rewrite (k_stage _ _ _ _ _ HK). lia.
Qed.

Lemma end_grg b s :
  i ≠ 0%nat → K 9 false false (view_of (outcome_of i) b) s →
  grg (R i) (G i) (W i) (_ ← await (thread i).(pr_pending) (λ x, x =? 0); wr (thread i).(pr_ended) 1) (λ _, over) s.
Proof.
  intros H0 Hs. set (kids := view_of (outcome_of i) b) in *.
  apply (rule_await (G i) (K 9 false false kids) (Pending i)); [apply K_stable; lia|by intros ? []|done|done|].
  clear s Hs. intros x s Hs _ Hg. cbn in Hg. destruct (Z.eqb_spec x 0) as [E|Hne].
  2: { pose proof Hs as [K1 K2 K3 K4 K5 K6]. split; [done|]. split; [by rewrite K5|]. left. split; [by rewrite K4|].
       do 4 right. exists i. apply elem_of_union. repeat case_decide; [by right|left; by apply elem_of_union_r|by right|lia]. }
  assert (gone s) as Hgone by (unfold gone; rewrite not_elem_of_union; repeat case_decide; lia || done).
  clear E Hg. apply (rule_wr_last (G i) (λ s, K 9 false false kids s ∧ gone s) over (Ended i) 1 (set_stage i Over));
    [apply gone_stable|by intros ? [[]]|done|apply over_stable|done|].
  clear s Hs Hgone. intros s [Hs Hgone]. pose proof Hs as [K1 K2 [K3 K3'] K4 K5 K6].
  assert (counted (set_stage i Over s.2) = counted s.2) as Hcount by (apply (counted_same i Over); [done|rewrite K2; lia]).
  destruct (write_step s (Ended i) 1 (set_stage i Over s.2)) as [HG Hi']; [done|done|..].
  - apply (moves_stage i i); rewrite ?K2; try done; try (by left).
  - apply wf_stage; [rewrite K2; lia..|done|apply (in_wf _ K1)].
  - cbn. by rewrite (decide_True (P := i = i)) by done.
  - other_words Hcount.
  - done.
  - split; [done|]. split; cbn; try done.
    + rewrite decide_False by done. rewrite decide_True by done. lia.
    + by rewrite K3'.
    + by rewrite K4.
    + by rewrite K5.
    + intros c Hc Hp. rewrite decide_False; [by apply K6|]. intros ->. pose proof (Hparent i). lia.
Qed.

Lemma life_grg s :
  born s → grg (R i) (G i) (W i) (life v g_threadscan_ptrs_per_thread pthread_kill g thread i) (λ _, over) s.
Proof.
  intros Hs. pose proof (Hplan i Hi) as Hpl. unfold life. case_decide as H0.
  { assert (s.2.(stage) i = Running) as E by (destruct Hs as [_ E _ _ _ _]; by rewrite decide_True in E).
    pose proof (born_K 4 s Hs E) as HK.
    eapply grg_mono; [by apply (run_actions_grg _ (λ _, Unborn) _ _ Hpl (le_n _))|].
    intros [] s' (b & [K1 K2 [K3 K3'] K4 K5 K6]).
    split; try done; [by rewrite decide_True|rewrite K3'; done|rewrite K4; done|rewrite K5; done]. }
  apply (rule_await (G i) born (Started i)); [apply born_stable|by intros ? []|done|done|].
  clear s Hs. intros x s Hs _ Hg. cbn in Hg.
  assert (s.2.(stage) i <= Launched)%nat as Hle by (destruct Hs as [_ E _ _ _ _]; by rewrite decide_False in E).
  case_decide as Hd; subst x; cbn [Z.eqb negb].
  2: { destruct Hs as [B1 _ B3 B4 B5 _]. split; [done|]. split; [done|]. left. split; [done|]. left. split; [done|lia]. }
  pose proof (born_K 3 s Hs ltac:(lia)) as HK. clear Hs Hle Hd.
  apply grg_bind; [apply rely_refl|].
  eapply grg_mono; [by apply (base_grg view0)|]. clear s HK. intros [] s HK.
  apply grg_bind; [apply rely_refl|].
  eapply grg_mono; [by apply (run_actions_grg _ (λ _, Unborn) _ _ Hpl (le_n _))|]. clear dependent s. intros [] s (b & HK).
  apply grg_bind; [apply rely_refl|]. eapply grg_mono; [by apply thread_cleanup_grg|]. clear dependent s. intros [] s HK.
  apply grg_bind; [apply rely_refl|]. eapply grg_mono; [by apply uncount_grg|]. cbv beta. intros x s' HK'. by apply (end_grg b).
Qed.
End one.

(** *** What a handler knows *)
Section handlers.
Context (c : nat) (Hc : (c < n)%nat).
Notation stable := (stable_under (RH c)).

(** Whether it runs, has raised its flag, and has still to search. *)
Record HK (runs flag search : bool) (fuel : nat) s : Prop := {
  h_inv : inv s;
  h_handling : c ∈ s.2.(sigs).(handling) ↔ runs = true;
  h_helping : c ∈ s.2.(sigs).(helping) ↔ flag = true;
  h_owed : c ∈ s.2.(sigs).(owed) ∖ s.2.(sigs).(arrived) ↔ search = true;
  h_taken : (s.2.(sigs).(taken) c + fuel = total)%nat;
}.

Lemma HK_stable runs flag search fuel : stable (HK runs flag search fuel).
Proof.
  intros s s' [R1 R2 R3 R4 R5 R6] [H1 H2 H3 H4 H5]. split; [by apply R1|by rewrite <- R3|by rewrite <- R4|by rewrite <- R5|by rewrite R6].
Qed.

(** A step of the handler: the others keep what they know. *)
Lemma handler_step s w x σ :
  inv s → in_range n w → wf_signals (set_sigs σ s.2) → good (set_sigs σ s.2) w x →
  (∀ w' y, w' ≠ w → in_range n w' → s.1 !! address w' = Some y → good s.2 w' y → good (set_sigs σ s.2) w' y) →
  (∀ c f k, w = Field c f → ¬ owned k f) →
  σ.(reclaimer) = s.2.(sigs).(reclaimer) → σ.(signalled) = s.2.(sigs).(signalled) → σ.(left) = s.2.(sigs).(left) →
  σ.(owed) ⊆ s.2.(sigs).(owed) → (∀ j, j ∈ σ.(arrived) ∪ σ.(handling) → j ∈ s.2.(sigs).(arrived) ∪ s.2.(sigs).(handling)) →
  (∀ j, j ≠ c → (j ∈ s.2.(sigs).(handling) ↔ j ∈ σ.(handling)) ∧ (j ∈ s.2.(sigs).(helping) ↔ j ∈ σ.(helping)) ∧
     (j ∈ s.2.(sigs).(owed) ↔ j ∈ σ.(owed)) ∧ (j ∈ s.2.(sigs).(arrived) ↔ j ∈ σ.(arrived)) ∧ σ.(taken) j = s.2.(sigs).(taken) j) →
  let s' := (<[address w := x]> s.1, set_sigs σ s.2) in GH c s s' ∧ inv s'.
Proof.
  intros Hs Hw Hwf Hg Hkeep Hown E1 E2 E3 Ho Hah Hj s'.
  destruct (signal_step s w x σ) as (Hi' & HR0 & Hmap); [done..|]. split; [|done]. split; [done|]. split.
  - intros j. split; [done|]. split; cbn; rewrite ?E1, ?E2, ?E3; try done. intros _ Hn' Hn2. by apply Hn', Hah.
  - intros j Hne. destruct (Hj j Hne) as (A1 & A2 & A3 & A4 & A5). split; cbn; try done. by rewrite !elem_of_difference, A3, A4.
Qed.

(** A signal is delivered. *)
Lemma delivered_step s x fuel :
  HK false false false fuel s → good s.2 (Pending c) x → Z.odd x = true →
  let s' := (<[address (Pending c) := x + 1]> s.1, set_sigs (delivered c s.2.(sigs)) s.2) in
  ∃ fuel', fuel = S fuel' ∧ GH c s s' ∧ HK true false true fuel' s'.
Proof.
  intros [H1 H2 H3 H4 H5] Hg Hodd s'. pose proof (wf_sigs _ (in_wf _ H1)) as [S1 S2 S3 [S4 S4'] S5 S6 S7 S8 S9].
  assert (c ∉ s.2.(sigs).(handling)) as Hch by (by intros ?%H2). assert (c ∉ s.2.(sigs).(helping)) as Hcf by (by intros ?%H3).
  cbn in Hg. rewrite (decide_False (P := c ∈ s.2.(sigs).(handling))) in Hg by done.
  destruct (decide (c ∈ s.2.(sigs).(arrived))) as [Hca|]; [|by subst x]. change (1 + 0) with 1 in Hg. subst x.
  pose proof (S9 c) as Hbud. rewrite (decide_True (P := c ∈ _)) in Hbud by done.
  destruct fuel as [|fuel']; [lia|]. exists fuel'. split; [done|].
  destruct (handler_step s (Pending c) (1 + 1) (delivered c s.2.(sigs))) as [HG Hi']; [done|done| | | |done..| | |].
  - split; cbn; try done.
    + split; [sets|]. intros y Hy%S4'. destruct (decide (y = c)); sets.
    + sets.
    + intros j Hj. apply S6. destruct (decide (j = c)) as [->|Hne]; sets.
    + intros j. specialize (S9 j). destruct (decide (j = c)) as [->|Hne].
      * rewrite (decide_False (P := c ∈ _ ∖ _)) by sets. lia.
      * rewrite (decide_ext (j ∈ _ ∖ {[c]}) (j ∈ s.2.(sigs).(arrived))) by sets. done.
  - cbn. rewrite (decide_False (P := c ∈ _ ∖ _)), (decide_True (P := c ∈ _ ∪ _)) by sets. done.
  - intros [| | | | | | |c' []|c'|c'|c'] y; cbn; try done. intros Hne _ _ ->.
    assert (c' ≠ c) by congruence. rewrite (decide_ext (c' ∈ _ ∖ {[c]}) (c' ∈ s.2.(sigs).(arrived))) by sets.
    rewrite (decide_ext (c' ∈ {[c]} ∪ _) (c' ∈ s.2.(sigs).(handling))); [done|]. by apply elem_of_other.
  - cbn. intros j Hj. destruct (decide (j = c)) as [->|Hne]; sets.
  - cbn. intros j Hne. rewrite decide_False by done. sets.
  - split; [done|]. split; cbn; [done|sets|by rewrite H3|sets|]. rewrite decide_True by done. lia.
Qed.

(** It changes its flag or its counter. *)
Lemma flag_step s f x h flag flag' search fuel :
  HK true flag search fuel s → f = Time ∨ f = Times → good (set_sigs (set_helping h s.2.(sigs)) s.2) (Field c f) x →
  (∀ j, j ≠ c → j ∈ s.2.(sigs).(helping) ↔ j ∈ h) → (c ∈ h ↔ flag' = true) → (f = Times → h = s.2.(sigs).(helping)) →
  let s' := (<[address (Field c f) := x]> s.1, set_sigs (set_helping h s.2.(sigs)) s.2) in
  GH c s s' ∧ HK true flag' search fuel s'.
Proof.
  intros [H1 H2 H3 H4 H5] Hf Hg Hh Hch Hf' s'. pose proof (wf_sigs _ (in_wf _ H1)) as [S1 S2 S3 S4 S5 S6 S7 S8 S9].
  destruct (handler_step s (Field c f) x (set_helping h s.2.(sigs))) as [HG Hi']; [done|done| |done| | |done..| |].
  - split; cbn; try done. intros y Hy. destruct (decide (y = c)) as [->|Hne]; [by apply H2|]. apply S5. by apply Hh.
  - intros [| | | | | | |c' []|c'|c'|c'] y; cbn; try done. intros Hne _ _ Hy E1 E2. specialize (Hy E1 E2).
    destruct (decide (c' = c)) as [->|Hc']; [|by apply Hh]. destruct Hf as [->|Hf]; [done|]. by rewrite Hf'.
  - intros c' f' k [= <- <-]. unfold owned. destruct Hf as [-> | ->]; intuition congruence.
  - intros j Hne. cbn. by rewrite (Hh j Hne).
  - split; [done|]. by split.
Qed.

(** Its search counts. *)
Lemma counted_in_step s x fuel :
  HK true true true fuel s → good s.2 Searched x →
  let s' := (<[address Searched := int_of_u64 (x + 1)]> s.1, set_sigs (counted_in c s.2.(sigs)) s.2) in
  GH c s s' ∧ HK true true false fuel s'.
Proof.
  intros [H1 H2 H3 H4 H5] Hg s'. pose proof (wf_sigs _ (in_wf _ H1)) as [S1 S2 S3 [S4 S4'] S5 S6 S7 S8 S9].
  pose proof (proj2 H4 eq_refl) as [Hco Hca]%elem_of_difference. pose proof (proj2 H2 eq_refl) as Hch.
  destruct (s.2.(sigs).(signalled)) as [S|] eqn:HS'; [|rewrite (S2 eq_refl) in Hco; by apply elem_of_empty in Hco].
  destruct (S3 S eq_refl) as [Ho Hr]. cbn in Hg. specialize (Hg S HS').
  pose proof (subseteq_size _ _ Ho) as Hle. pose proof (subseteq_size _ _ Hr) as Hle'. rewrite size_set_seq in Hle'.
  pose proof (size_without c s.2.(sigs).(owed) Hco) as Hsz.
  assert (int_of_u64 (x + 1) = x + 1) as E by (apply int_of_u64_small; unfold INT_MAX, MAX_THREAD_COUNT in *; lia).
  subst s'. rewrite E.
  destruct (handler_step s Searched (x + 1) (counted_in c s.2.(sigs))) as [HG Hi']; [done|done| | | |done..| | | |].
  - split; cbn; try done.
    + by rewrite HS'.
    + by rewrite HS'.
    + rewrite HS'. intros S' [= <-]. split; [sets|done].
    + split; [sets|]. intros y [Hy%S4' _]%elem_of_difference. done.
    + rewrite HS'. exact S9.
  - cbn. intros S' HS2. assert (S' = S) as -> by congruence. lia.
  - intros [| | | | | | |c' []|c'|c'|c'] y; cbn; done.
  - cbn. sets.
  - done.
  - cbn. intros j Hne. sets.
  - split; [done|]. split; cbn; [done|done|done| |done]. rewrite !elem_of_difference. split; [|done]. intros [[_ []] _]. by apply elem_of_singleton.
Qed.

(** It returns. *)
Lemma returned_step s x fuel :
  HK true false false fuel s → good s.2 (Pending c) x →
  let s' := (<[address (Pending c) := x - 2]> s.1, set_sigs (returned c s.2.(sigs)) s.2) in
  GH c s s' ∧ HK false false false fuel s'.
Proof.
  intros [H1 H2 H3 H4 H5] Hg s'. pose proof (wf_sigs _ (in_wf _ H1)) as [S1 S2 S3 [S4 S4'] S5 S6 S7 S8 S9].
  pose proof (proj2 H2 eq_refl) as Hch. assert (c ∉ s.2.(sigs).(helping)) as Hcf by (by intros ?%H3).
  assert (c ∈ s.2.(sigs).(owed) → c ∈ s.2.(sigs).(arrived)) as Hoa.
  { intros Ho. destruct (decide (c ∈ s.2.(sigs).(arrived))); [done|]. assert (false = true) as ?; [|done]. apply H4. sets. }
  destruct (handler_step s (Pending c) (x - 2) (returned c s.2.(sigs))) as [HG Hi']; [done|done| | | |done..| | |].
  - split; cbn; try done.
    + split; [done|]. intros y Hy. destruct (decide (y = c)) as [->|Hne]; [by apply elem_of_union_l, Hoa|]. apply S4' in Hy. sets.
    + sets.
    + intros j Hj. apply S6. sets.
  - cbn in *. rewrite (decide_True (P := c ∈ s.2.(sigs).(handling))) in Hg by done. rewrite (decide_False (P := c ∈ _ ∖ _)) by sets. lia.
  - intros [| | | | | | |c' []|c'|c'|c'] y; cbn; try done. intros Hne _ _ ->. assert (c' ≠ c) by congruence.
    by rewrite (decide_ext (c' ∈ _ ∖ {[c]}) (c' ∈ s.2.(sigs).(handling))) by sets.
  - cbn. sets.
  - cbn. intros j Hne. sets.
  - split; [done|]. split; cbn; [done|sets|done|done|done].
Qed.

Lemma HK_inv runs flag search fuel s : HK runs flag search fuel s → inv s.
Proof. by intros []. Qed.

Lemma raised_wr fuel search f x s1 :
  f = Time ∨ f = Times ∧ INT_MIN <= x <= INT_MAX → HK true true search fuel s1 →
  let s' := (<[address (Field c f) := x]> s1.1, set_sigs (set_helping s1.2.(sigs).(helping) s1.2.(sigs)) s1.2) in
  GH c s1 s' ∧ HK true true search fuel s'.
Proof.
  intros Hf Hs. apply (flag_step s1 f x _ true true search fuel); try done; [tauto| |by destruct Hs].
  destruct Hf as [-> |[-> ?]]; cbn; intros; [|done]. by apply (h_helping _ _ _ _ _ Hs).
Qed.

(** [threadscan_thread_cleanup_raise_flag]. *)
Lemma flag_raised_grg fuel s :
  HK true false true fuel s →
  grg (RH c) (GH c) (WH c) (threadscan_thread_cleanup_raise_flag v.(globals) (td c)) (λ _, HK true true true fuel) s.
Proof.
  intros Hs. unfold threadscan_thread_cleanup_raise_flag. pose proof (HK_stable true true true fuel) as Hst.
  apply grg_bind_lift. pose proof (Htd c Hc). rewrite c_assert_true by lia. apply wp_ret.
  apply (rule_rd (GH c) (HK true false true fuel) (Field c Time)); [apply HK_stable|apply HK_inv|done|done|].
  clear s Hs. intros old s Hs _ _.
  apply (rule_wr_then (GH c) (HK true false true fuel) (HK true true true fuel) (Field c Time) (TIMESTAMP_RAISE_FLAG old)
    (λ γ, set_sigs (set_helping ({[c]} ∪ γ.(sigs).(helping)) γ.(sigs)) γ)); [apply HK_stable|apply HK_inv|done|done|..].
  { clear s Hs. intros s Hs. apply (flag_step s Time _ _ false true true fuel Hs); [by left|cbn; sets|sets|sets|done]. }
  clear s Hs. intros s Hs.
  apply (rule_rd (GH c) (HK true true true fuel) Stamp); [done|apply HK_inv|done|done|]. clear s Hs. intros curr s Hs _ _.
  set (keep := λ γ : ghost, set_sigs (set_helping γ.(sigs).(helping) γ.(sigs)) γ).
  apply (rule_wr_then (GH c) (HK true true true fuel) (HK true true true fuel) (Field c Time) _ keep); [done|apply HK_inv|done|done|..].
  { clear s Hs. intros s Hs. apply raised_wr; [by left|done]. }
  clear s Hs. intros s Hs.
  assert (∀ x s, INT_MIN <= x <= INT_MAX → HK true true true fuel s →
    grg (RH c) (GH c) (WH c) (wr (td_times_without_update (td c)) x) (λ _, HK true true true fuel) s) as Htimes.
  { clear s Hs. intros x s Hx Hs.
    apply (rule_wr_last (GH c) (HK true true true fuel) _ (Field c Times) x keep); [done|apply HK_inv|done|done|done|].
    intros s1 Hs1. apply raised_wr; [by right|done]. }
  destruct (negb _); [by apply Htimes|]. destruct (negb _); [|apply grg_ret; intros s3 S; by apply (Hst s)].
  apply (rule_rd (GH c) (HK true true true fuel) (Field c Times)); [done|apply HK_inv|done|done|].
  clear s Hs. intros times s Hs _ Hg. cbn in Hg.
  assert (INT_MIN <= times <= INT_MAX) as Ht.
  { apply Hg. destruct (ws_stage _ (wf_sigs _ (in_wf _ (h_inv _ _ _ _ _ Hs))) c); [|lia].
    apply elem_of_union_r. by apply (h_handling _ _ _ _ _ Hs). }
  destruct (Z.ltb_spec times 2); [|apply grg_ret; intros s3 S; by apply (Hst s)].
  apply grg_bind_lift. apply wp_cint; [unfold INT_MIN, INT_MAX in *; lia|]. apply Htimes; [unfold INT_MIN, INT_MAX in *; lia|done].
Qed.

(** A thread in the handler has not ended. *)
Lemma handling_stage flag search fuel s : HK true flag search fuel s → (4 <= s.2.(stage) c <= 10)%nat.
Proof.
  intros Hs. destruct (ws_stage _ (wf_sigs _ (in_wf _ (h_inv _ _ _ _ _ Hs))) c); [|lia].
  apply elem_of_union_r. by apply (h_handling _ _ _ _ _ Hs).
Qed.

(** [search_self_stack]. *)
Lemma self_stack_grg rsp fuel s :
  on_stack c rsp → HK true true true fuel s →
  grg (RH c) (GH c) (WH c) (search_self_stack v.(globals) g (td c) rsp) (λ _, HK true true false fuel) s.
Proof.
  intros Hrs Hs. unfold search_self_stack. pose proof (handling_stage true true fuel) as Hst.
  apply grg_bind; [apply RH_refl|].
  eapply grg_mono; [apply (user_stack_grg (GH c) (HK true true true fuel)); [apply HK_stable|apply HK_inv|done|done|done]|].
  clear s Hs. intros r s [Hhigh Hs]. apply grg_bind_lift. rewrite c_assert_true by (destruct Hrs; lia). apply wp_ret.
  apply grg_bind; [apply RH_refl|]. eapply grg_mono with (P := λ _, HK true true true fuel).
  { rewrite Hhigh. apply quiet_grg; [apply HK_stable|apply HK_inv|intros s1 s2 HR; apply (RH_changes _ _ _ HR)| |by apply search_quiet|done].
    intros m m' γ Hi' He [H1 H2 H3 H4 H5]. split; [by split|by apply elsewhere_G]. }
  clear s Hs. intros _ s Hs. apply grg_bind; [apply RH_refl|].
  eapply grg_mono; [apply (search_block_grg (GH c) (HK true true true fuel)); [apply HK_stable|apply HK_inv|done|done|done]|].
  clear s Hs. intros [] s Hs. unfold sync_fetch_and_add.
  apply (rule_rmw (GH c) (HK true true true fuel) Searched _ (λ γ, set_sigs (counted_in c γ.(sigs)) γ)); [apply HK_stable|apply HK_inv|done|done|].
  clear s Hs. intros x s Hs _ Hg. destruct (counted_in_step s x fuel Hs Hg) as [HG Hs2]. split; [exact HG|].
  apply grg_ret. intros s' S. by apply (HK_stable _ _ _ _ _ _ S).
Qed.

Lemma handler_grg rsp fuel s :
  on_stack c rsp → HK true false true fuel s →
  grg (RH c) (GH c) (WH c) (signal_handler v.(globals) g (td c) rsp SIGTHREADSCAN) (λ _, HK true false false fuel) s.
Proof.
  intros Hrs Hs. unfold signal_handler. apply grg_bind_lift. rewrite c_assert_true by done. apply wp_ret.
  apply grg_bind; [apply RH_refl|]. eapply grg_mono; [by apply (flag_raised_grg fuel)|]. clear s Hs. intros [] s Hs.
  apply grg_bind; [apply RH_refl|]. eapply grg_mono; [by apply (self_stack_grg rsp fuel)|]. clear s Hs. intros [] s Hs.
  unfold threadscan_thread_cleanup_lower_flag.
  apply (rule_rd (GH c) (HK true true false fuel) (Field c Time)); [apply HK_stable|apply HK_inv|done|exact Hs|].
  clear s Hs. intros y s Hs _ _.
  apply (rule_wr_last (GH c) (HK true true false fuel) _ (Field c Time) (TIMESTAMP y)
    (λ γ, set_sigs (set_helping (γ.(sigs).(helping) ∖ {[c]}) γ.(sigs)) γ)); [apply HK_stable|apply HK_inv|done|apply HK_stable|done|].
  clear s Hs. intros s Hs. apply (flag_step s Time (TIMESTAMP y) _ true false false fuel Hs); [by left| |sets|sets|done].
  cbn. by rewrite TIMESTAMP_inactive.
Qed.

Lemma waiting_handler s x fuel : HK false false false fuel s → good s.2 (Pending c) x → Z.odd x = false → WH c s.
Proof.
  intros [H1 H2 H3 H4 H5] Hg Hodd. split; [done|]. assert (c ∉ s.2.(sigs).(handling)) as Hh by (by intros ?%H2).
  cbn in Hg. rewrite (decide_False (P := c ∈ s.2.(sigs).(handling))) in Hg by done. case_decide; [by subst x|]. sets.
Qed.

(** The system delivers no more signals than are sent. *)
Lemma delivery_grg {A} fuel (k : Z → prog Z A) P s :
  HK false false false fuel s → (∀ x fuel' s', fuel = S fuel' → HK true false true fuel' s' → grg (RH c) (GH c) (WH c) (k x) P s') →
  grg (RH c) (GH c) (WH c) (rmw (thread c).(pr_pending) (λ x, if Z.odd x then Some (x + 1) else None) ≫= k) P s.
Proof.
  intros Hs Hk. apply (rule_rmw (GH c) (HK false false false fuel) (Pending c) _ (λ γ, set_sigs (delivered c γ.(sigs)) γ));
    [apply HK_stable|apply HK_inv|done|done|]. clear s Hs. intros x s Hs _ Hg. destruct (Z.odd x) eqn:Hodd.
  - destruct (delivered_step s x _ Hs Hg Hodd) as (fuel' & E & HG & Hs2). split; [exact HG|]. by eapply Hk.
  - by apply (waiting_handler _ x _ Hs).
Qed.

Lemma serve_grg fuel s :
  HK false false false fuel s → grg (RH c) (GH c) (WH c) (serve v g thread c fuel) (λ _ _, False) s.
Proof.
  revert s. induction fuel as [|fuel IH]; intros s Hs; cbn [serve]; apply (delivery_grg _ _ _ _ Hs); [done|].
  clear s Hs. intros _ fuel' s [= <-] Hs. apply grg_bind; [apply RH_refl|].
  eapply grg_mono; [by apply (handler_grg _ fuel); [apply Hrsp|]|]. clear s Hs. intros [] s Hs.
  apply (rule_rmw (GH c) (HK true false false fuel) (Pending c) _ (λ γ, set_sigs (returned c γ.(sigs)) γ)); [apply HK_stable|apply HK_inv|done|done|].
  clear s Hs. intros x s Hs _ Hg. destruct (returned_step s x fuel Hs Hg) as [HG Hs2]. split; [exact HG|]. by apply IH.
Qed.
End handlers.

(** *** All threads *)
Definition γ0 : ghost :=
  {| stage := λ c, if decide (c = 0%nat) then Running else Unborn; listed := [0%nat]; parked := [];
     list_owner := None; parked_owner := None;
     sigs := {| helping := ∅; handling := ∅; arrived := ∅; owed := ∅; reclaimer := None; signalled := None;
                begun := 0; left := λ i, rounds (thread i).(pr_plan); taken := λ _, 0%nat |} |}.

Lemma counted_main γ :
  γ.(stage) 0%nat = Running → (∀ c, (0 < c < n)%nat → ¬ (1 <= γ.(stage) c <= 8)%nat) → counted γ = [0%nat].
Proof.
  intros H0 Hc. unfold counted. replace n with (S (n - 1)) by lia. cbn [seq]. rewrite filter_cons, decide_True by lia. f_equal.
  assert (∀ l, (∀ x, x ∈ l → ¬ (1 <= γ.(stage) x <= 8)%nat) → filter (λ c, (1 <= γ.(stage) c <= 8)%nat) l = []) as Hl.
  { induction l as [|x l IH]; intros Hl; [done|]. rewrite filter_cons, decide_False, IH; [done|sets|]. apply Hl. by left. }
  apply Hl. intros x Hx%elem_of_seq. apply Hc. lia.
Qed.

Lemma wf_signals_start : wf_signals γ0.
Proof. by split. Qed.

Lemma life_inv_start : inv (m0, γ0).
Proof.
  split; cbn [fst snd]; [| |by intros a|by apply scan_start_inv].
  - split; cbn; [| | |apply wf_signals_start].
    + split; [apply NoDup_singleton|]. intros c. rewrite list_elem_of_singleton. case_decide; lia.
    + split; [constructor|]. intros c. rewrite elem_of_nil. case_decide; lia.
    + by intros i [].
  - intros w Hw. destruct (Hstart w Hw) as (x & Hx & Hs). exists x. split; [done|].
    destruct w as [| | | | | | |[|c] []|c|c|c]; cbn in *; subst; try done; try (repeat case_decide; lia);
      try (split; intros; done || lia); try (intros; congruence).
    rewrite counted_main; [done|done|]. intros c Hc. cbn. rewrite decide_False by lia. lia.
Qed.

(** The threads and then their handlers. *)
Definition all_R (k : nat) : state → state → Prop := if decide (k < n)%nat then R k else RH (k - n).
Definition all_G (k : nat) : state → state → Prop := if decide (k < n)%nat then G k else GH (k - n).
Definition all_W (k : nat) : state → Prop := if decide (k < n)%nat then W k else WH (k - n).
Definition all_Q (k : nat) : unit → state → Prop := if decide (k < n)%nat then λ _, over k else λ _ _, False.

Lemma all_R_refl k : Reflexive (all_R k).
Proof. unfold all_R. case_decide; [apply rely_refl|apply RH_refl]. Qed.

Lemma all_R_trans k : Transitive (all_R k).
Proof. unfold all_R. case_decide; [apply rely_trans|apply RH_trans]. Qed.

Lemma all_G_R k j s s' : k ≠ j → all_G k s s' → all_R j s s'.
Proof.
  unfold all_G, all_R. intros Hne. repeat case_decide; intros (_ & HR & HRH); [apply HR; congruence|apply HRH|apply HR|apply HRH; lia].
Qed.

Lemma all_G_inv k s s' : all_G k s s' → inv s → inv s'.
Proof. unfold all_G. case_decide; by intros [? _]. Qed.

Lemma all_G_mono k s s' c : all_G k s s' → (s.2.(stage) c <= s'.2.(stage) c)%nat.
Proof. unfold all_G. case_decide; intros (_ & HR & _); apply R_mono with (i := S k), HR; lia. Qed.

Lemma pool_ok : gpool_ok all_R all_G all_W all_Q (pool, m0) γ0.
Proof.
  intros k p Hp. cbn [fst snd] in *. unfold pool in Hp. unfold all_R, all_G, all_W, all_Q.
  apply lookup_app_Some in Hp as [Hp|[Hge Hp]]; apply list_lookup_fmap_Some in Hp as (j & -> & [-> Hj]%lookup_seq).
  - rewrite !(decide_True (P := (k < n)%nat)) by done. rewrite Nat.add_0_l. apply life_grg; [done|].
    split; try done; [apply life_inv_start|cbn; by case_decide; [|lia]|]. intros c Hc _. cbn. by rewrite decide_False by lia.
  - rewrite length_fmap, length_seq in *. rewrite !(decide_False (P := (k < n)%nat)) by lia. apply serve_grg; [done|].
    split; cbn; [apply life_inv_start|sets..|done].
Qed.

Lemma pool_reached m ps :
  rtc pstep (pool, m0) (ps, m) →
  ∃ γ, gpool_ok all_R all_G all_W all_Q (ps, m) γ ∧ inv (m, γ) ∧ length ps = (n + n)%nat.
Proof.
  intros Hrun.
  destruct (gpool_ok_rtc all_R all_G all_W all_Q all_R_refl all_R_trans all_G_R inv (pool, m0) (ps, m) γ0) as (γ & Hok & Hi);
    [exact all_G_inv|done|apply pool_ok|apply life_inv_start|].
  exists γ. split; [done|]. split; [done|].
  pose proof (pstep_length _ _ Hrun) as Hlen. cbn in Hlen. unfold pool in Hlen. by rewrite length_app, !length_fmap, length_seq in Hlen.
Qed.

Lemma pool_later m ps m' ps' γ :
  gpool_ok all_R all_G all_W all_Q (ps, m) γ → inv (m, γ) → rtc pstep (ps, m) (ps', m') →
  ∃ γ', inv (m', γ') ∧ ∀ c, (γ.(stage) c <= γ'.(stage) c)%nat.
Proof.
  intros Hok Hs Hrun.
  destruct (gpool_ok_rtc all_R all_G all_W all_Q all_R_refl all_R_trans all_G_R
    (λ s, inv s ∧ ∀ c, (γ.(stage) c <= s.2.(stage) c)%nat) (ps, m) (ps', m') γ) as (γ' & _ & Hi); [|done|done|by split|by exists γ'].
  intros k s s' HG [Hi Hm]. split; [by eapply all_G_inv|]. intros c. etrans; [apply Hm|]. by eapply all_G_mono.
Qed.

(** No handler runs and no signal is on its way. *)
Definition quiescent s : Prop := ∀ c, c ∉ s.2.(sigs).(arrived) ∪ s.2.(sigs).(handling).

Lemma handlers_quiescent s : inv s → (∀ c, (c < n)%nat → WH c s) → quiescent s.
Proof.
  intros Hs Hall c Hin. destruct (ws_stage _ (wf_sigs _ (in_wf _ Hs)) c Hin) as [Hc _]. by destruct (Hall c Hc) as [_ []].
Qed.

Lemma quiescent_sets s : inv s → quiescent s → ∀ c, c ∉ s.2.(sigs).(helping) ∧ c ∉ s.2.(sigs).(owed).
Proof.
  intros Hs Hq c. pose proof (wf_sigs _ (in_wf _ Hs)) as [_ _ _ [_ S4] S5 _ _ _ _]. specialize (Hq c). sets.
Qed.

(** Some thread can always go on when no handler can: nobody who waits or has
    ended holds a mutex or is searched for, a thread waits for the end of
    threads with greater numbers and for its start only by those with smaller
    ones. *)
Lemma all_over s :
  inv s → (∀ i, (i < n)%nat → over i s ∨ W i s) → quiescent s → ∀ i, (i < n)%nat → over i s ∧ ¬ W i s.
Proof.
  intros Hs Hall Hq. pose proof (quiescent_sets s Hs Hq) as Hsets. pose proof (in_wf _ Hs) as [_ _ W3 _].
  assert (s.2.(parked_owner) = None) as Hpark.
  { destruct (s.2.(parked_owner)) as [j|] eqn:E; [|done]. pose proof (W3 j (or_intror eq_refl)) as Hj.
    by destruct (Hall j Hj) as [[]|(_ & ? & _)]. }
  assert (∀ i, W i s → s.2.(list_owner) ≠ Some i ∧ (i ≠ 0%nat ∧ (s.2.(stage) i < Launched)%nat ∨ s.2.(list_owner) ≠ None ∨
    ∃ c, (i < c < n)%nat ∧ (3 <= s.2.(stage) c <= 9)%nat)) as HW.
  { intros i (_ & _ & [(Ho & Hw)|(c & Hc)]); [|by destruct (Hsets c)]. split; [done|]. rewrite Hpark in Hw.
    destruct Hw as [?|[?|[?|[?|(c & Hc)]]]]; [tauto..|]. destruct (Hsets c) as [_ ?]. specialize (Hq c). sets. }
  assert (s.2.(list_owner) = None) as Hlist.
  { destruct (s.2.(list_owner)) as [j|] eqn:E; [|done]. pose proof (W3 j (or_introl eq_refl)) as Hj.
    destruct (Hall j Hj) as [[]|Hw]; [done|]. by destruct (HW j Hw). }
  (* nobody runs *)
  assert (∀ k c, (n - c <= k)%nat → (0 < c < n)%nat → ¬ (3 <= s.2.(stage) c <= 9)%nat) as Hrun.
  { induction k as [|k IH]; intros c Hk Hc Hst; [lia|]. destruct (Hall c ltac:(lia)) as [Ho|Hw].
    - pose proof (ov_stage _ _ Ho) as E. rewrite decide_False in E by lia. lia.
    - destruct (HW c Hw) as [_ [[_ ?]|[?|(c' & Hc' & Hst')]]]; [lia|done|]. by apply (IH c'); [lia..|]. }
  assert (∀ k i, (i <= k)%nat → (i < n)%nat → over i s) as Hover.
  { induction k as [|k IH]; intros i Hk Hi; (destruct (Hall i Hi) as [|Hw]; [done|]);
      (destruct (HW i Hw) as [_ [[H0 Hst]|[?|(c & Hc & Hst)]]]; [|done|by destruct (Hrun n c ltac:(lia) ltac:(lia))]); [lia|].
    pose proof (Hparent i ltac:(lia)) as Hp.
    destruct (ov_kids _ _ (IH (parent i) ltac:(lia) ltac:(lia)) i ltac:(lia) eq_refl) as [[_ ?]|[Hk' E]]; [lia|].
    unfold outcome_of in *. destruct (joined i); lia. }
  intros i Hi. split; [by apply (Hover i i)|]. intros Hw. destruct (HW i Hw) as [_ [[H0 Hst]|[?|(c & Hc & Hst)]]]; [|done|].
  - pose proof (ov_stage _ _ (Hover i i ltac:(lia) Hi)) as E. rewrite decide_False in E by done. lia.
  - by destruct (Hrun n c ltac:(lia) ltac:(lia)).
Qed.

Lemma over_stages s :
  (∀ i, (i < n)%nat → over i s) →
  s.2.(stage) 0%nat = Running ∧ ∀ c, (0 < c < n)%nat → s.2.(stage) c = if joined c then Gone else Over.
Proof.
  intros Hall. split; [by apply (ov_stage _ _ (Hall 0%nat ltac:(lia)))|]. intros c Hc.
  pose proof (ov_stage _ _ (Hall c ltac:(lia))) as E. rewrite decide_False in E by lia. pose proof (Hparent c Hc).
  destruct (ov_kids _ _ (Hall (parent c) ltac:(lia)) c Hc eq_refl) as [[Ho Hx]|[Ho Hx]]; unfold outcome_of in *; destruct (joined c); lia.
Qed.

Lemma elem_of_not_joined c : c ∈ not_joined ↔ (0 < c < n)%nat ∧ joined c = false.
Proof. unfold not_joined. rewrite list_elem_of_filter, elem_of_seq. intuition lia. Qed.

Lemma all_over_at_end m γ : inv (m, γ) → (∀ i, (i < n)%nat → over i (m, γ)) → quiescent (m, γ) → at_end m.
Proof.
  intros Hs Hall Hq. destruct (over_stages _ Hall) as [H0 Hst]. cbn [fst snd] in *.
  assert (∀ c, c ∈ not_joined → (0 < c < n)%nat ∧ γ.(stage) c = Over) as Hnj.
  { intros c [Hc E]%elem_of_not_joined. split; [done|]. by rewrite Hst, E. }
  pose proof (in_wf _ Hs) as [[L1 L2] [P1 P2] _ _]. cbn [snd] in *.
  assert (γ.(listed) = [0%nat]) as El.
  { apply Permutation_singleton_r. apply NoDup_Permutation; [done|apply NoDup_singleton|]. intros c. rewrite L2, list_elem_of_singleton.
    destruct (decide (c = 0%nat)) as [->|Hc]; [lia|]. split; [|done]. intros [Hcn Hk]. rewrite Hst in Hk by lia. destruct (joined c); lia. }
  assert (γ.(parked) ≡ₚ not_joined) as Ep.
  { apply NoDup_Permutation; [done|apply NoDup_filter, NoDup_seq|]. intros c. rewrite P2. split; [|intros [? ?]%Hnj; lia].
    intros [Hcn Hk]. apply elem_of_not_joined. destruct (decide (c = 0%nat)) as [->|Hc]; [lia|]. split; [lia|].
    rewrite Hst in Hk by lia. destruct (joined c); [lia|done]. }
  assert (∀ w, in_range n w → ∃ x, m !! address w = Some x ∧ good γ w x) as Hgood by apply (in_good _ Hs).
  split.
  - split.
    + destruct (Hgood Lock) as (x & Hx & Hg); [done|]. cbn in Hx, Hg. rewrite Hx, Hg. f_equal.
      destruct (γ.(list_owner)) as [j|] eqn:E; [|done]. pose proof (wf_owners _ (in_wf _ Hs) j (or_introl E)) as Hj.
      by destruct (ov_list _ _ (Hall j Hj)).
    + destruct (Hgood Head) as (x & Hx & Hg); [done|]. cbn in Hx, Hg. rewrite El in Hg. exists x. split; [done|].
      rewrite Hg. rewrite <- El. change [td 0%nat] with (td_ <$> [0%nat]). rewrite <- El. by apply (listed_tlist _ (m, γ)).
    + apply NoDup_singleton.
    + intros t ->%list_elem_of_singleton. split; intros E.
      * assert (Field 0 Next = Head) as ?; [|done]. apply address_inj; [cbn; lia|done|done].
      * assert (Field 0 Next = Lock) as ?; [|done]. apply address_inj; [cbn; lia|done|done].
    + unfold list_fuel. cbn. lia.
  - exists γ.(parked). destruct (Hgood Staged) as (x & Hx & Hg); [done|]. cbn in Hx, Hg. exists x. split; [done|]. split; [done|].
    rewrite Hg. apply next_of_tlist; [done|]. intros c [Hc Hk]%P2. split; [by apply Htd|].
    destruct (Hgood (Field c Next) Hc) as (y & Hy & _ & Hg'). cbn in Hy. rewrite Hy. f_equal. by apply Hg'.
  - destruct (Hgood Staged_lock) as (x & Hx & Hg); [done|]. cbn in Hx, Hg. rewrite Hx, Hg. f_equal.
    destruct (γ.(parked_owner)) as [j|] eqn:E; [|done]. pose proof (wf_owners _ (in_wf _ Hs) j (or_intror E)) as Hj.
    by destruct (ov_park _ _ (Hall j Hj)).
  - destruct (Hgood Count) as (x & Hx & Hg); [done|]. cbn in Hx, Hg. rewrite Hx, Hg. rewrite counted_main; [done|done|].
    intros c Hc. rewrite Hst by done. destruct (joined c); lia.
  - intros c Hc. assert (c < n ∧ γ.(stage) c <= 10)%nat as [Hcn Hk] by (destruct Hc as [->|[? ?]%Hnj]; lia).
    destruct (Hgood (Field c Time) Hcn) as (x & Hx & Hg). cbn in Hx, Hg. exists x. split; [done|].
    destruct (TIMESTAMP_IS_ACTIVE x); [|done]. destruct (quiescent_sets _ Hs Hq c) as [[] _]. by apply Hg.
  - destruct (Hgood Stamp) as (x & Hx & Hg); [done|]. cbn in Hx, Hg. exists x. split; [done|]. rewrite Hg.
    destruct (γ.(sigs).(reclaimer)) as [j|] eqn:E; [|done]. pose proof (ws_reclaimer _ (wf_sigs _ (in_wf _ Hs)) j E) as Hj.
    by destruct (ov_reclaimer _ _ (Hall j Hj)).
  - intros c Hc. destruct (Hgood (Pending c) Hc) as (x & Hx & Hg). cbn in Hx, Hg. specialize (Hq c). rewrite not_elem_of_union in Hq. cbn in Hq.
    rewrite !decide_False in Hg by tauto. by rewrite Hx, Hg.
  - intros c [Hc Hk]%Hnj. destruct (Hgood (Field c Refs)) as (x & Hx & _ & Hg); [cbn; lia|]. cbn in Hx. rewrite Hx, Hg; [done|lia].
Qed.

Lemma inv_intact m γ : inv (m, γ) → intact m.
Proof.
  intros Hs. pose proof (in_wf _ Hs) as [[L1 L2] [P1 P2] _ _]. cbn [snd] in *.
  assert (∀ w, in_range n w → ∃ x, m !! address w = Some x ∧ good γ w x) as Hgood by apply (in_good _ Hs).
  destruct (Hgood Head) as (p & Hp & Ep); [done|]. destruct (Hgood Staged) as (q & Hq & Eq); [done|].
  destruct (Hgood Count) as (k & Hk & Ek); [done|]. cbn in *.
  exists γ.(listed), γ.(parked), p, q, k. split; [|split; [|split; [|split; [|split; [|split; [|split]]]]]]; try done.
  - apply NoDup_app. split; [done|]. split; [|done]. intros c Hc%L2 Hc'%P2. lia.
  - intros c [Hc|Hc]%elem_of_app; [by apply L2 in Hc as [? _]|by apply P2 in Hc as [? _]].
  - rewrite Ep. by apply (listed_tlist _ (m, γ)).
  - rewrite Eq. apply next_of_tlist; [done|]. intros c [Hc Hst]%P2. split; [by apply Htd|].
    destruct (Hgood (Field c Next) Hc) as (y & Hy & _ & Hg'). cbn in Hy. rewrite Hy. f_equal. by apply Hg'.
  - rewrite Ek. unfold counted. pose proof (length_filter (λ c, (1 <= γ.(stage) c <= 8)%nat) (seq 0 n)) as Hlen.
    rewrite length_seq in Hlen. lia.
Qed.

Lemma inv_words m γ : inv (m, γ) → words γ.(stage) γ.(listed) γ.(parked) m.
Proof.
  intros Hs. pose proof (in_wf _ Hs) as [HL HP _ [_ _ _ _ S5 S6 _ _ _]]. cbn [snd] in *.
  assert (∀ w, in_range n w → ∃ x, m !! address w = Some x ∧ good γ w x) as Hgood by apply (in_good _ Hs).
  assert (∀ w x, in_range n w → (∀ y, good γ w y → y = x) → m !! address w = Some x) as Hword.
  { intros w x Hw Hx. destruct (Hgood w Hw) as (y & Hy & Hg). by rewrite Hy, (Hx y Hg). }
  split.
  - done.
  - done.
  - exists (head_of td_ γ.(listed)). split; [by apply (Hword Head)|]. by apply (listed_tlist _ (m, γ)).
  - exists (head_of td_ γ.(parked)). split; [by apply (Hword Staged)|]. apply next_of_tlist; [apply HP|].
    intros c [Hc Hst]%HP. split; [by apply Htd|]. apply (Hword (Field c Next)); [done|]. cbn. intros y [_ Hy]. by apply Hy.
  - split; [destruct (Hgood Lock) as (x & Hx & Hg)|destruct (Hgood Staged_lock) as (x & Hx & Hg)]; try done;
      exists x; (split; [done|]); cbn in Hg; case_match; auto.
  - by apply (Hword Count).
  - intros c Hc. by apply (Hword (Started c)).
  - intros c Hc. by apply (Hword (Ended c)).
  - intros c Hc Hk. apply (Hword (Field c Active)); [done|]. cbn. intros y [H1 H2]. case_decide; auto.
  - intros c Hc Hk. split; [apply (Hword (Field c Self))|apply (Hword (Field c High))]; try done; cbn; auto.
  - intros c Hc Hk. apply (Hword (Field c Refs)); [done|]. cbn. intros y [H1 H2]. case_decide; [apply H1|apply H2]; lia.
  - intros c Hc Hk. apply (Hword (Field c Block_low)); [done|]. cbn. auto.
  - intros c Hc Hk. destruct (Hgood (Field c Times) Hc) as (x & Hx & Hg). exists x. split; [done|]. by apply Hg.
  - intros c Hc. destruct (Hgood (Pending c) Hc) as (x & Hx & Hg). cbn in Hg. exists x. split; [done|].
    pose proof (S6 c) as Hst. rewrite elem_of_union in Hst. repeat case_decide; (split; [lia|]); intros Hne; try lia;
      apply Hst; auto.
  - intros c x Hc Hk Hx Hact. destruct (Hgood (Field c Time) Hc) as (x' & Hx' & Hg). cbn in Hx', Hg. simplify_eq.
    destruct (Hgood (Pending c) Hc) as (y & Hy & Hgy). cbn in Hgy. exists y. split; [done|].
    rewrite (decide_True (P := c ∈ γ.(sigs).(handling))) in Hgy by (by apply S5, Hg). case_decide; lia.
Qed.

Lemma inv_settled m γ : inv (m, γ) → settled m.
Proof.
  intros Hs x Hx Hina c Hc. pose proof (wf_sigs _ (in_wf _ Hs)) as [S1 S2 _ [S4 _] _ _ _ _ _]. cbn [snd] in *.
  destruct (in_good _ Hs Stamp) as (x' & Hx' & Hg); [done|]. cbn in Hx', Hg. simplify_eq. rewrite Hina in Hg.
  destruct (γ.(sigs).(reclaimer)) as [j|] eqn:E; [done|]. rewrite (S2 (S1 eq_refl)) in S4.
  destruct (in_good _ Hs (Pending c) Hc) as (y & Hy & Hg'). cbn in Hy, Hg'. exists y. split; [done|].
  rewrite (decide_False (P := c ∈ γ.(sigs).(arrived))) in Hg' by sets. case_decide; by subst y.
Qed.

Lemma pool_interleaved m ps :
  rtc pstep (pool, m0) (ps, m) →
  intact m ∧ settled m ∧
  (∀ i p, ps !! i = Some p → ¬ faulty p m) ∧ Acc (λ c' c, pstep c c') (ps, m) ∧
  ((∃ c', pstep (ps, m) c') ∨ Forall finished (take n ps) ∧ at_end m).
Proof.
  intros Hrun. destruct (pool_reached m ps Hrun) as (γ & Hok & Hs & Hlen).
  assert (∀ i p, ps !! i = Some p → ¬ faulty p m) as Hsafe
    by (intros i p Hp; by apply (gpool_ok_safe all_R all_G all_W all_Q all_R_refl (ps, m) γ i p)).
  split; [by eapply inv_intact|]. split; [by eapply inv_settled|]. split; [done|]. split; [apply pstep_wf|].
  destruct (not_faulty_progress ps m Hsafe) as [Hall|?]; [right|by left].
  assert (∀ k, (k < n + n)%nat → ∃ p, ps !! k = Some p ∧ (finished p ∧ all_Q k tt (m, γ) ∨ all_W k (m, γ))) as Hstuck.
  { intros k Hk. destruct (lookup_lt_is_Some_2 ps k) as [p Hp]; [lia|]. exists p. split; [done|].
    destruct (Forall_lookup_1 _ _ _ _ Hall Hp) as [Hf|Hb]; [left|right].
    - split; [done|]. destruct Hf as [[] ->]. by apply (gpool_ok_post all_R all_G all_W all_Q all_R_refl (ps, m) γ k tt).
    - by apply (gpool_ok_blocked all_R all_G all_W all_Q all_R_refl (ps, m) γ k p). }
  unfold all_Q, all_W in Hstuck.
  assert (quiescent (m, γ)) as Hq.
  { apply handlers_quiescent; [done|]. intros c Hc. destruct (Hstuck (n + c)%nat) as (p & _ & Hk); [lia|].
    rewrite !decide_False in Hk by lia. replace (n + c - n)%nat with c in Hk by lia. tauto. }
  assert (∀ i, (i < n)%nat → over i (m, γ) ∧ ¬ W i (m, γ)) as Hover.
  { apply all_over; [done| |done]. intros i Hi. destruct (Hstuck i) as (p & _ & Hk); [lia|]. rewrite !decide_True in Hk by done. tauto. }
  split; [|apply (all_over_at_end m γ Hs); [|done]; intros i Hi; by apply Hover].
  apply Forall_lookup. intros i p [Hp Hi]%lookup_take_Some. destruct (Hstuck i) as (p' & Hp' & Hk); [lia|].
  rewrite !decide_True in Hk by done. destruct (Hover i Hi). simplify_eq. tauto.
Qed.
End lifetime.

(** C5. Threads that create others, join them, become the reclaimer, signal the
    others and wait for their searches, work and leave, with the handlers their
    signals start, interleaved word by word: no access is at fault and in the
    debug build no assertion fails, which includes that nobody is signalled who
    has ended; both lists can be walked through at any time, whatever is written
    to the metadata of a thread that was joined; when nobody reclaims no signal
    is on its way; no schedule goes on forever, and what cannot go on has
    reached its end: all threads have ended, the list of threads holds main
    alone, the ended threads nobody has joined wait in the other list with no
    reference left, the count is one, no flag is raised, no signal is pending,
    nobody reclaims and both mutexes are free. *)
Theorem threads_interleaved `{Build} (v : statics_t) (g_threadscan_ptrs_per_thread : Z) (pthread_kill : Z → Z → prog Z Z)
    (g : threadscan_data_t) (o : Z → Z) (thread : nat → profile) (n : nat) (parent : nat → nat) (joined : nat → bool)
    (m0 m : mem) (ps : list (prog Z unit)) :
  setting v pthread_kill g o thread n parent joined m0 →
  rtc pstep (pool v g_threadscan_ptrs_per_thread pthread_kill g thread n, m0) (ps, m) →
  intact v thread n m ∧ settled v thread n m ∧
  (∀ i p, ps !! i = Some p → ¬ faulty p m) ∧
  Acc (λ c' c, pstep c c') (ps, m) ∧
  ((∃ c', pstep (ps, m) c') ∨ Forall finished (take n ps) ∧ at_end v thread n joined m).
Proof. intros HS. by apply (pool_interleaved v g_threadscan_ptrs_per_thread pthread_kill g o thread n parent joined m0 HS). Qed.

(** C8. In the same interleavings, what the words of the library hold: at any
    moment each thread is in one of the stages from its creation to its join
    such that the list of threads has those from its insertion to its removal
    and the other list those that have ended and were not joined, without
    repetition; the count is the number of threads from creation to the
    decrement; [is_active] is 1 exactly while a listed thread runs; the id and
    the end of the stack are the thread's own; the reference count is 1 until
    it is dropped and 0 afterwards; a mutex is 0 or 1; signals are pending
    only for threads that have started and have not ended; and a flag is
    raised only while a handler runs.  Later all this holds again, and no
    thread has gone back to an earlier stage. *)
Theorem words_well_formed `{Build} (v : statics_t) (g_threadscan_ptrs_per_thread : Z) (pthread_kill : Z → Z → prog Z Z)
    (g : threadscan_data_t) (o : Z → Z) (thread : nat → profile) (n : nat) (parent : nat → nat) (joined : nat → bool)
    (m0 m m' : mem) (ps ps' : list (prog Z unit)) :
  setting v pthread_kill g o thread n parent joined m0 →
  rtc pstep (pool v g_threadscan_ptrs_per_thread pthread_kill g thread n, m0) (ps, m) →
  rtc pstep (ps, m) (ps', m') →
  ∃ stage stage', (∃ l l', words v thread n stage l l' m) ∧ (∃ l l', words v thread n stage' l l' m') ∧
    ∀ c, (stage c <= stage' c)%nat.
Proof.
  intros HS Hrun Hrun'. destruct (pool_reached v g_threadscan_ptrs_per_thread pthread_kill g o thread n parent joined m0 HS m ps Hrun)
    as (γ & Hok & Hs & _).
  destruct (pool_later v g_threadscan_ptrs_per_thread pthread_kill g o thread n parent joined m0 HS m ps m' ps' γ Hok Hs Hrun')
    as (γ' & Hs' & Hmono).
  exists γ.(stage), γ'.(stage). split; [|split; [|done]].
  - exists γ.(listed), γ.(parked). by eapply inv_words.
  - exists γ'.(listed), γ'.(parked). by eapply inv_words.
Qed.

(** ** Three threads

    Main creates two, works, joins the first and becomes the reclaimer; the
    first reclaims as well.  They search the same two words. *)
Definition ex_life_vars : statics_t :=
  {| globals := {| thread_list_ := 0x5000; global_timestamp := 0x6000; self_stacks_searched := 0x6008 |};
     g_staged_lock := 0x6010; g_td_staged_to_free := 0x6018; g_thread_count := 0x6020 |}.
Definition ex_work : prog Z unit := x ← rd 0x9000; wr 0x9000 (x + 1).
Definition ex_thread (i : nat) : profile :=
  {| pr_td := 0x100000 * Z.of_nat (S i); pr_self := 100 + Z.of_nat i; pr_sp := 0x7FF0;
     pr_routine := 1; pr_arg := 2; pr_stack := 0x6FF0; pr_stacksize := 0x1000; pr_own := true; pr_queue := 0xA000;
     pr_started := 0x8000 + 0x100 * Z.of_nat i; pr_ended := 0x8008 + 0x100 * Z.of_nat i;
     pr_pending := 0x8010 + 0x100 * Z.of_nat i; pr_junk := λ a, a;
     pr_rsp := λ _, 0x6FF0;
     pr_plan := match i with
                | 0%nat => [Pthread_create 1; Pthread_create 2; Work ex_work; Pthread_join 1; Reclaim 0x6FF0]
                | 1%nat => [Reclaim 0x6FF0; Work ex_work]
                | _ => [Work ex_work]
                end |}.
Definition ex_life_kill (self sig : Z) : prog Z Z :=
  let t := ex_thread (Z.to_nat (self - 100)) in
  runs ← rd t.(pr_started);
  ended ← rd t.(pr_ended);
  if negb (runs =? 0) && (ended =? 0) then _ ← rmw t.(pr_pending) (λ x, Some (Z.lor x 1)); mret 0 else lift UB.
Definition ex_value (w : cell) : Z :=
  match w with
  | Head => 0x100000
  | Count | Field 0 Active | Field 0 Refs | Started 0 => 1
  | Field 0 Self => 100
  | Field 0 High => 0x7000
  | _ => 0
  end.
Definition ex_words : list (Z * Z) :=
  [(0x10000, 0x1000); (0x10008, 0x2000); (0x10010, 0x3000); (0x11000, 0x1000); (0x9000, 0); (0x6FF0, 7); (0x6FF8, 0x2001)].
Definition ex_life_mem : mem :=
  list_to_map (ex_words ++ ((λ w, (address ex_life_vars ex_thread w, ex_value w)) <$> all_cells 3)).
Definition ex_joined (c : nat) : bool := Nat.eqb c 1.

Lemma ex_distinct : NoDup (ex_words.*1 ++ (address ex_life_vars ex_thread <$> all_cells 3)).
Proof. apply (bool_decide_unpack _). by vm_compute. Qed.

Lemma ex_apart a w : a ∈ ex_words.*1 → in_range 3 w → address ex_life_vars ex_thread w ≠ a.
Proof.
  intros Ha Hw <-. pose proof ex_distinct as (_ & Hd & _)%NoDup_app. apply (Hd _ Ha).
  by apply list_elem_of_fmap_2, elem_of_all_cells.
Qed.

Lemma ex_buffer a : buffer_word example_data a → a ∈ [0x10000; 0x10008; 0x10010; 0x11000].
Proof.
  intros [(k & Hk & ->)|(k & Hk & ->)]; cbn in Hk; [|assert (k = 0) as -> by lia; by do 3 right; left].
  assert (k = 0 ∨ k = 1 ∨ k = 2) as [->|[->| ->]] by lia; apply (bool_decide_unpack _); done.
Qed.

Lemma ex_work_quiet : quiet ex_life_vars example_data example_addr ex_thread 3 ex_life_mem ex_work.
Proof.
  intros m Hm _. apply rg_bind_rd. intros m' [_ S].
  assert (is_Some (m' !! 0x9000)) as [x Hx] by (apply S, Hm; by eexists). simpl sread. rewrite Hx. apply wp_ret.
  intros m2 [_ S2]. destruct (S2 0x9000) as [y Hy]; [by eexists|]. cbn [swrite mem_shared]. rewrite Hy. apply wp_ret.
  split; [|by intros m3 S3]. split; [|split].
  - intros w Hw. apply lookup_insert_ne. intros E. by apply (ex_apart 0x9000 w); [apply (bool_decide_unpack _)|..].
  - intros a Ha. left. apply lookup_insert_ne. intros <-. apply Ha. intros Hb%ex_buffer. revert Hb. by apply (bool_decide_unpack _).
  - intros a Ha. apply lookup_insert_is_Some'. by right.
Qed.

Lemma ex_life_lookup a x : (a, x) ∈ ex_words → ex_life_mem !! a = Some x.
Proof.
  intros Ha. apply elem_of_list_to_map_1.
  - rewrite fmap_app, <- list_fmap_compose. apply ex_distinct.
  - apply elem_of_app. by left.
Qed.

Lemma ex_scan_setup : scan_setup (H := debug_build) example_data example_addr (λ a, ¬ buffer_word example_data a).
Proof.
  destruct example_setup as [H1 H2 H3 _ H5 H6 H7]. split; try done. split; intros k Hk Hb; apply Hb; [left|right]; by exists k.
Qed.

Lemma ex_stack rsp k :
  0x6FF0 <= rsp < 0x7000 → rsp `mod` 8 = 0 → 0 <= k < range_words {| low := rsp; high := 0x7000 |} → is_Some (ex_life_mem !! elt rsp k).
Proof.
  intros Hr Hal Hk. assert (rsp = 0x6FF0 ∨ rsp = 0x6FF8) as Hcases by (Z.div_mod_to_equations; lia).
  assert (elt rsp k = 0x6FF0 ∨ elt rsp k = 0x6FF8) as [-> | ->].
  { destruct Hcases as [-> | ->]; [change (range_words _) with 2 in Hk|change (range_words _) with 1 in Hk]; unfold elt, sizeof_size_t; lia. }
  - exists 7. by apply ex_life_lookup, (bool_decide_unpack _).
  - exists 0x2001. by apply ex_life_lookup, (bool_decide_unpack _).
Qed.

Lemma ex_setting : setting (H := debug_build) ex_life_vars ex_life_kill example_data example_addr ex_thread 3 (λ _, 0%nat) ex_joined ex_life_mem.
Proof.
  pose proof ex_distinct as (_ & _ & Hnd)%NoDup_app. split.
  - unfold MAX_THREAD_COUNT. lia.
  - lia.
  - done.
  - intros c c' _ _. cbn. lia.
  - intros c _. cbn. lia.
  - done.
  - apply ex_scan_setup.
  - split; intros k Hk; cbn in Hk; apply ex_life_lookup.
    + assert (k = 0 ∨ k = 1 ∨ k = 2) as [->|[->| ->]] by lia; apply (bool_decide_unpack _); done.
    + assert (k = 0) as -> by lia. by apply (bool_decide_unpack _).
  - intros w Hw Hb%ex_buffer. apply (ex_apart (address ex_life_vars ex_thread w) w); [|done|done].
    repeat (apply elem_of_cons in Hb as [->|Hb]; [by apply (bool_decide_unpack _)|]). by apply elem_of_nil in Hb.
  - intros c rsp k _ (_ & Hr & Hal). by apply ex_stack.
  - intros c k _. by vm_compute.
  - intros c sig _. unfold ex_life_kill. cbn [pr_self ex_thread]. by replace (Z.to_nat (100 + Z.of_nat c - 100)) with c by lia.
  - intros w Hw. exists (ex_value w). split.
    + apply elem_of_list_to_map_1; [rewrite fmap_app, <- list_fmap_compose; apply ex_distinct|]. apply elem_of_app. right.
      by apply (list_elem_of_fmap_2 (λ w, (address ex_life_vars ex_thread w, ex_value w))), elem_of_all_cells.
    + destruct w as [| | | | | | |[|c] []|[|c]|[|c]|c]; done.
  - intros [|[|[|i]]] Hi; cbn; [..|lia]; pose proof ex_work_quiet as Hq; repeat split; try done; try lia.
    intros [|[|[|c]]] Hc _; done || lia.
Qed.

(** A schedule that runs them to the end: the second is not joined, and the
    address on the stack is marked. *)
Lemma threads_interleaved_witness :
  let c := psched (concat (replicate 200 [0%nat; 1%nat; 2%nat; 3%nat; 4%nat; 5%nat]))
             (pool (H := debug_build) ex_life_vars 4 ex_life_kill example_data ex_thread 3, ex_life_mem) in
  c.2 !! 0x6018 = Some 0x300000 ∧ c.2 !! 0x10008 = Some 0x2001 ∧ Forall finished (take 3 c.1) ∧ at_end ex_life_vars ex_thread 3 ex_joined c.2.
Proof.
  intros c. assert (stuck c = true ∧ c.2 !! 0x6018 = Some 0x300000 ∧ c.2 !! 0x10008 = Some 0x2001) as (Hc & Hst & Hmark) by (vm_compute; done).
  split; [done|]. split; [done|].
  destruct (threads_interleaved (H := debug_build) ex_life_vars 4 ex_life_kill example_data example_addr ex_thread 3 (λ _, 0%nat) ex_joined ex_life_mem c.2 c.1 ex_setting)
    as (_ & _ & _ & _ & [Hstep|Hend]); [|destruct (stuck_no_step c Hc); by destruct c|done].
  rewrite <- surjective_pairing. apply psched_rtc.
Defined.

(** In the middle of it three threads are counted and the first is in its
    handler, its flag raised; in the end nobody is. *)
Lemma words_well_formed_witness :
  let run rounds c := psched (concat (replicate rounds [0%nat; 1%nat; 2%nat; 3%nat; 4%nat; 5%nat])) c in
  let c := run 55%nat (pool (H := debug_build) ex_life_vars 4 ex_life_kill example_data ex_thread 3, ex_life_mem) in
  let c' := run 145%nat c in
  (c.2 !! 0x6020 = Some 3 ∧ c.2 !! 0x8010 = Some 2 ∧ c'.2 !! 0x6020 = Some 1 ∧ c'.2 !! 0x8010 = Some 0) ∧
  ∃ stage stage', (∃ l l', words ex_life_vars ex_thread 3 stage l l' c.2) ∧ (∃ l l', words ex_life_vars ex_thread 3 stage' l l' c'.2) ∧
    ∀ i, (stage i <= stage' i)%nat.
Proof.
  intros run c c'. split; [vm_compute; repeat split|].
  apply (words_well_formed (H := debug_build) ex_life_vars 4 ex_life_kill example_data example_addr ex_thread 3 (λ _, 0%nat) ex_joined ex_life_mem c.2 c'.2 c.1 c'.1 ex_setting);
    rewrite <- !surjective_pairing; apply psched_rtc.
Defined.
