(* ===== verification/Startup.v ===== *)
(** * Start-up: the constructors of the library, and the way to main

    When the library is loaded the dynamic linker runs its four constructors:
    [env_init] (env.c), [register_signal_handlers] (threadscan.c), [proc_init]
    (proc.c) and [do_wrapper_replacement] (wrappers.c).  Then the program's
    entry point calls [__libc_start_main], which is the library's, and so the
    C library calls [main_replacement] instead of [main].

    Functions are addresses, as in C.  What is at an address outside of the
    library is a parameter: [dlsym] gives the addresses of the functions that
    are replaced, [libc_start_main] is the C library's [__libc_start_main],
    [application] is the code of the program. *)

From stdpp Require Import sorting strings.
From S2P Require Import Prelude Conc Ghost Mem Env ThreadList Thread Search Reclaim AllocIface Alloc AllocInv ThreadData Proc Wrappers.

(** The static variables that are not words the threads share. *)
Record variables_t := {
  g_threadscan_ptrs_per_thread : Z;
  g_tsdata : threadscan_data_t;
  SIGUSR1_handled : bool; (* the handler of SIGTHREADSCAN is [signal_handler] *)
  orig_pthread_create : Z;
  orig_pthread_exit : Z;
  orig_pthread_join : Z;
  orig_libc_start_main : Z;
  orig_main : Z;
}.

(** The process. *)
Record image (AS : Type) := { vars : variables_t; proc : process AS }.
Arguments vars {AS}.
Arguments proc {AS}.

Definition boot (AS A : Type) : Type := image AS → outcome (A * image AS).

#[export] Instance boot_ret AS : MRet (boot AS) := λ A a im, Ret (a, im).
#[export] Instance boot_bind AS : MBind (boot AS) := λ A B f p im, '(a, im') ← p im; f a im'.

Definition on_process {AS A} (p : step AS A) : boot AS A := λ im,
  '(a, st) ← p im.(proc); Ret (a, {| vars := im.(vars); proc := st |}).
Definition modify {AS} (f : variables_t → variables_t) : boot AS unit := λ im,
  Ret (tt, {| vars := f im.(vars); proc := im.(proc) |}).
Definition get_var {AS A} (f : variables_t → A) : boot AS A := λ im, Ret (f im.(vars), im).
Definition computed {AS A} (o : outcome A) : boot AS A := λ im, a ← o; Ret (a, im).

Definition set_ptrs_per_thread (n : Z) (x : variables_t) : variables_t :=
  {| g_threadscan_ptrs_per_thread := n; g_tsdata := x.(g_tsdata); SIGUSR1_handled := x.(SIGUSR1_handled);
     orig_pthread_create := x.(orig_pthread_create); orig_pthread_exit := x.(orig_pthread_exit);
     orig_pthread_join := x.(orig_pthread_join); orig_libc_start_main := x.(orig_libc_start_main); orig_main := x.(orig_main) |}.
Definition set_scanning (g : threadscan_data_t) (x : variables_t) : variables_t :=
  {| g_threadscan_ptrs_per_thread := x.(g_threadscan_ptrs_per_thread); g_tsdata := g; SIGUSR1_handled := true;
     orig_pthread_create := x.(orig_pthread_create); orig_pthread_exit := x.(orig_pthread_exit);
     orig_pthread_join := x.(orig_pthread_join); orig_libc_start_main := x.(orig_libc_start_main); orig_main := x.(orig_main) |}.
Definition set_originals (create exit join start : Z) (x : variables_t) : variables_t :=
  {| g_threadscan_ptrs_per_thread := x.(g_threadscan_ptrs_per_thread); g_tsdata := x.(g_tsdata); SIGUSR1_handled := x.(SIGUSR1_handled);
     orig_pthread_create := create; orig_pthread_exit := exit; orig_pthread_join := join; orig_libc_start_main := start;
     orig_main := x.(orig_main) |}.
Definition set_orig_main (main : Z) (x : variables_t) : variables_t :=
  {| g_threadscan_ptrs_per_thread := x.(g_threadscan_ptrs_per_thread); g_tsdata := x.(g_tsdata); SIGUSR1_handled := x.(SIGUSR1_handled);
     orig_pthread_create := x.(orig_pthread_create); orig_pthread_exit := x.(orig_pthread_exit);
     orig_pthread_join := x.(orig_pthread_join); orig_libc_start_main := x.(orig_libc_start_main); orig_main := main |}.

(** The constructors, with the priorities the code gives them; those without
    one come last, in no particular order. *)
Inductive constructor := Env_init | Register_signal_handlers | Proc_init | Do_wrapper_replacement.

#[export] Instance constructor_eq_dec : EqDecision constructor.
Proof. solve_decision. Defined.

Definition priority (c : constructor) : Z :=
  match c with Env_init => 101 | Register_signal_handlers => 201 | Proc_init | Do_wrapper_replacement => 65535 end.

Definition constructors : list constructor := [Env_init; Register_signal_handlers; Proc_init; Do_wrapper_replacement].

(** The order the linker gives them. *)
Definition load_order (l : list constructor) : Prop :=
  l ≡ₚ constructors ∧ StronglySorted (λ a b, priority a <= priority b) l.

Section code.
Context `{Build} {AS : Type} `{!Allocator AS} (v : statics_t).
Notation boot := (boot AS).

(** What the library finds outside: [env] is the value of the environment
    variable, [signal_failed] whether signal() failed, [dlsym] the function of
    that name in the libraries behind this one. *)
Context (env : option (list Z)) (signal_failed : bool) (dlsym : string → Z).

Definition do_wrapper_replacement : boot unit :=
  modify (set_originals (dlsym "pthread_create") (dlsym "pthread_exit") (dlsym "pthread_join") (dlsym "__libc_start_main")).

Definition run_constructor (c : constructor) : boot unit :=
  match c with
  | Env_init => '(n, _) ← computed (env_init env); modify (set_ptrs_per_thread n)
  | Register_signal_handlers =>
      n ← get_var g_threadscan_ptrs_per_thread;
      g ← get_var g_tsdata;
      g ← computed (register_signal_handlers signal_failed n g);
      modify (set_scanning g)
  | Proc_init => on_process (in_memory (proc_init v.(globals)))
  | Do_wrapper_replacement => do_wrapper_replacement
  end.

Fixpoint load (l : list constructor) : boot unit :=
  match l with
  | [] => mret tt
  | c :: l' => _ ← run_constructor c; load l'
  end.

(** The code of the program, by its address, with its argument(s); its memory
    map, and the stack of its main thread. *)
Context (application : Z → Z → Z → Z → boot Z).
Context (procmap : option (list Ascii.ascii)) (thunk args here sp self : Z).

(** The result is the status the process exits with. *)
Definition main_thunk (arg : Z) : boot Z :=
  argc ← on_process (in_memory (rd (main_args_argc arg)));
  argv ← on_process (in_memory (rd (main_args_argv arg)));
  env ← on_process (in_memory (rd (main_args_env arg)));
  main ← get_var orig_main;
  application main argc argv env.

(** [main_replacement], which calls what [threadscan_thread_base] calls. *)
Definition main_hook (argc argv env : Z) : boot Z :=
  n ← get_var g_threadscan_ptrs_per_thread;
  '(user_routine, user_arg) ← on_process (main_replacement v n procmap thunk args here sp self argc argv env);
  if user_routine =? thunk then main_thunk user_arg else computed UB.

(** The C library's function; [init] stands for the constructors of the
    program. *)
Context (libc_start_main : (Z → Z → Z → boot Z) → Z → Z → boot unit → boot Z).

Definition libc_start_main_wrapper (main argc ubp_av : Z) (init : boot unit) : boot Z :=
  _ ← modify (set_orig_main main);
  start ← get_var orig_libc_start_main;
  if start =? 0 then computed UB else libc_start_main main_hook argc ubp_av init.

Definition startup (l : list constructor) (main argc ubp_av : Z) (init : boot unit) : boot Z :=
  _ ← load l;
  libc_start_main_wrapper main argc ubp_av init.

(** ** The other wrappers, with the test of the pointer they start with *)
Context {attr_t : Type} `{!PthreadAttr attr_t}.
Context (lib_create : attr_t → Z → Z) (lib_join : Z → Z).

(** A release build does not test the pointer: it is called later. *)
Definition pthread_create_entry (attr : option attr_t) (start_routine arg : Z) : boot Z :=
  p ← get_var orig_pthread_create;
  _ ← computed (c_assert (negb (p =? 0)));
  n ← get_var g_threadscan_ptrs_per_thread;
  if p =? 0 then _ ← on_process (hook_thread v n attr start_routine arg); computed UB
  else on_process (pthread_create v n lib_create attr start_routine arg).

Definition pthread_exit_entry (td : Z) : boot unit :=
  p ← get_var orig_pthread_exit;
  _ ← computed (c_assert (negb (p =? 0)));
  _ ← on_process (pthread_exit v td);
  if p =? 0 then computed UB else mret tt.

Definition pthread_join_entry (tid : Z) : boot Z :=
  p ← get_var orig_pthread_join;
  _ ← computed (c_assert (negb (p =? 0)));
  if p =? 0 then computed UB else on_process (pthread_join v lib_join tid).
End code.

(** ** Rules *)
Lemma boot_bind_ret {AS A B} (p : boot AS A) (f : A → boot AS B) im a im' :
  p im = Ret (a, im') → (p ≫= f) im = f a im'.
Proof. intros E. unfold mbind, boot_bind. by rewrite E. Qed.

Lemma on_process_ret {AS A} (p : step AS A) im a st :
  p im.(proc) = Ret (a, st) → on_process p im = Ret (a, {| vars := im.(vars); proc := st |}).
Proof. intros E. unfold on_process. by rewrite E. Qed.

Lemma computed_ret {AS A} (o : outcome A) (im : image AS) a : o = Ret a → computed o im = Ret (a, im).
Proof. by intros ->. Qed.

Lemma boot_bind_fails {AS A B} (p : boot AS A) (f : A → boot AS B) im :
  (p im = Aborted → (p ≫= f) im = Aborted) ∧ (p im = UB → (p ≫= f) im = UB).
Proof. unfold mbind, boot_bind. split; by intros ->. Qed.

(** Reading a word. *)
Lemma peek_ret {AS} (a x : Z) (im : image AS) :
  im.(proc).(memory) !! a = Some x → on_process (in_memory (rd a)) im = Ret (x, im).
Proof.
  intros Hx. erewrite on_process_ret; [|erewrite in_memory_eq by (by apply run_rd); reflexivity]. by destruct im as [? []].
Qed.

(** ** The order of the constructors *)
Lemma load_orders l : load_order l →
  l = constructors ∨ l = [Env_init; Register_signal_handlers; Do_wrapper_replacement; Proc_init].
Proof.
  intros [Hp Hs]. symmetry in Hp. apply permutations_Permutation in Hp.
  assert (Forall (λ l, StronglySorted (λ a b, priority a <= priority b) l →
    l = constructors ∨ l = [Env_init; Register_signal_handlers; Do_wrapper_replacement; Proc_init]) (permutations constructors)) as Hall.
  { vm_compute permutations.
    repeat (apply List.Forall_cons; [intros H; first [by left|by right|exfalso;
      repeat match goal with H : StronglySorted _ (_ :: _) |- _ => apply StronglySorted_inv in H as [H ?Hf] end;
      repeat match goal with H : Forall _ (_ :: _) |- _ => apply Forall_cons in H as [?H H] end; cbn in *; lia]|]).
    constructor. }
  rewrite Forall_forall in Hall. by apply Hall.
Qed.

(** ** What start-up establishes *)
Section startup.
Context `{Build} {AS : Type} `{!Allocator AS} (v : statics_t) (Hv : statics_ok v).
Context (env : option (list Z)) (dlsym : string → Z).
Implicit Types im : image AS.
Notation tl := (v.(globals).(thread_list_)).

(** The static initialisers; nothing is allocated. *)
Record fresh_image im : Prop := {
  fi_heap : owns im.(proc).(heap) [];
  fi_head : im.(proc).(memory) !! tl_head tl = Some 1; (* the code has 0x1 here *)
  fi_lock : im.(proc).(memory) !! tl_lock tl = Some 0;
  fi_staged_lock : im.(proc).(memory) !! v.(g_staged_lock) = Some 0;
  fi_staged : im.(proc).(memory) !! v.(g_td_staged_to_free) = Some 0;
  fi_count : im.(proc).(memory) !! v.(g_thread_count) = Some 1;
  fi_timestamp : im.(proc).(memory) !! v.(globals).(global_timestamp) = Some 1;
}.

(** The variables after the constructors. *)
Record variables_ready (n : Z) (x : variables_t) : Prop := {
  vr_ptrs : x.(g_threadscan_ptrs_per_thread) = n;
  vr_sizes : sizes_ok x.(g_tsdata) ∧ x.(g_tsdata).(max_ptrs) = n * MAX_THREAD_COUNT ∧ x.(g_tsdata).(storage) = 0;
  vr_handler : x.(SIGUSR1_handled) = true;
  vr_create : x.(orig_pthread_create) = dlsym "pthread_create";
  vr_exit : x.(orig_pthread_exit) = dlsym "pthread_exit";
  vr_join : x.(orig_pthread_join) = dlsym "pthread_join";
  vr_start : x.(orig_libc_start_main) = dlsym "__libc_start_main";
}.

(** The words of the library that nobody else writes to. *)
Definition library_words : list Z := v.(globals).(global_timestamp) :: statics_list v.

Record loaded (n : Z) im im' : Prop := {
  ld_vars : variables_ready n im'.(vars);
  ld_threads : threads_repr v (n * sizeof_size_t) im'.(proc) [] [] [] 1;
  ld_heap : im'.(proc).(heap) = im.(proc).(heap);
  ld_memory : same_except [tl_head tl] im.(proc).(memory) im'.(proc).(memory);
}.

Lemma fresh_threads im n : fresh_image im →
  threads_repr v (n * sizeof_size_t)
    {| heap := im.(proc).(heap); memory := <[tl_head tl := 0]> im.(proc).(memory) |} [] [] [] 1.
Proof.
  intros [Hh H1 H2 H3 H4 H5 _]. pose proof (statics_distinct v Hv) as Hd.
  split; cbn [heap memory]; try done; try by intros t ?%elem_of_nil.
  - split; [by rewrite lookup_insert_ne by (intuition congruence)| |constructor|by intros td ?%elem_of_nil|unfold list_fuel; cbn; lia].
    exists 0. by rewrite lookup_insert_eq.
  - exists 0. by rewrite lookup_insert_ne by (intuition congruence).
  - by rewrite lookup_insert_ne by (intuition congruence).
  - by rewrite lookup_insert_ne by (intuition congruence).
  - by intros b x ?%elem_of_nil.
Qed.

(** The constructors, in the order the linker gives them. *)
Lemma load_ok l im n w :
  load_order l → env_init env = Ret (n, w) → fresh_image im →
  ∃ im', load v env false dlsym l im = Ret (tt, im') ∧ loaded n im im'.
Proof.
  intros Hl Henv Hf. destruct (env_init_range _ _ _ Henv) as (k & Hk & -> & Hn).
  destruct im as [x [h m]]. pose proof (fi_head _ Hf) as Hh. cbn [proc memory] in Hh.
  destruct (proj1 (wp_iff _ _) (register_sizes (2 ^ k) x.(g_tsdata) ltac:(unfold MIN_PTRS_PER_THREAD in *; lia)))
    as (g & Eg & Hg).
  assert (run (proc_init v.(globals)) m = Ret (tt, <[tl_head tl := 0]> m)) as Ep by (apply run_wr; by eexists).
  exists {| vars := set_originals (dlsym "pthread_create") (dlsym "pthread_exit") (dlsym "pthread_join") (dlsym "__libc_start_main")
              (set_scanning g (set_ptrs_per_thread (2 ^ k) x));
            proc := {| heap := h; memory := <[tl_head tl := 0]> m |} |}. split.
  - destruct (load_orders l Hl) as [->| ->]; cbn [load constructors];
      (erewrite boot_bind_ret by (cbn [run_constructor]; erewrite boot_bind_ret by (by apply computed_ret); reflexivity));
      (erewrite boot_bind_ret by (cbn [run_constructor]; do 2 (erewrite boot_bind_ret by reflexivity);
        erewrite boot_bind_ret by (by apply computed_ret); reflexivity));
      (do 2 erewrite boot_bind_ret by first [reflexivity|cbn [run_constructor]; apply on_process_ret;
        erewrite in_memory_eq by exact Ep; reflexivity]); reflexivity.
  - split; cbn [vars proc heap memory].
    + by split.
    + exact (fresh_threads _ (2 ^ k) Hf).
    + done.
    + apply same_except_insert; [by left|apply same_except_refl].
Qed.

(** The variables before the constructors: C sets them to zero. *)
Record static_vars (x : variables_t) : Prop := {
  sv_ptrs : x.(g_threadscan_ptrs_per_thread) = 0;
  sv_create : x.(orig_pthread_create) = 0;
  sv_exit : x.(orig_pthread_exit) = 0;
  sv_join : x.(orig_pthread_join) = 0;
}.

(** Without [env_init] the queue of a thread would have no bytes. *)
Lemma data_new_without_size (st : process AS) :
  owns st.(heap) [] → can_serve [] st.(heap) [PAGESIZE] → (∀ h, alloc_ok h → alloc_mmap 0 h = threadscan_fatal) →
  threadscan_util_thread_data_new 0 st = threadscan_fatal.
Proof.
  intros Ho Hserve Hzero.
  destruct (owns_mmap [] _ _ PAGESIZE [] Ho ltac:(done) ltac:(done) Hserve) as (p & h' & E & _ & Ho' & _).
  unfold threadscan_util_thread_data_new, threadscan_alloc_mmap, mbind, step_bind. change MEMBLOCK_SIZE with PAGESIZE.
  rewrite E. cbn [mbind outcome_bind heap]. change (0 * sizeof_size_t) with 0. rewrite Hzero by apply (ow_ok _ _ Ho').
  unfold threadscan_fatal. by destruct debug.
Qed.

Lemma hook_thread_without_size {attr_t : Type} `{!PthreadAttr attr_t} (st : process AS) attr start_routine arg :
  owns st.(heap) [] → can_serve [] st.(heap) [PAGESIZE] → (∀ h, alloc_ok h → alloc_mmap 0 h = threadscan_fatal) →
  st.(memory) !! v.(g_thread_count) = Some 1 →
  hook_thread v 0 attr start_routine arg st = threadscan_fatal.
Proof.
  intros Ho Hserve Hzero Hc. unfold hook_thread.
  assert (run (sync_fetch_and_add v.(g_thread_count) 1) st.(memory) = Ret (1, <[v.(g_thread_count) := 2]> st.(memory))) as E.
  { unfold sync_fetch_and_add. cbn. by rewrite Hc. }
  unfold mbind at 1, step_bind. rewrite (in_memory_eq _ _ _ E). cbn [mbind outcome_bind].
  change (MAX_THREAD_COUNT <? 1) with false. cbv iota. unfold mbind at 1, step_bind. rewrite data_new_without_size by done.
  unfold threadscan_fatal. by destruct debug.
Qed.

(** C40. The wrappers and the constructors.  As soon as the constructors have
    run, in whatever order, a call of a wrapper is what Wrappers.v models.  A
    call before that, from the constructor of another library, stops a debug
    build at an assertion.  In the release build [pthread_join] calls a null
    pointer, [pthread_exit] writes through the null pointer that stands for
    the metadata of a thread the library does not know, and [pthread_create]
    ends the process: without [env_init] the queue of the new thread has no
    entries, so the library asks mmap for no bytes, which fails. *)
Theorem wrappers_need_startup {attr_t : Type} `{!PthreadAttr attr_t} (lib_create : attr_t → Z → Z) (lib_join : Z → Z)
    l im n w attr start_routine arg td tid :
  load_order l → env_init env = Ret (n, w) → fresh_image im → static_vars im.(vars) →
  (∀ f, f ∈ ["pthread_create"; "pthread_exit"; "pthread_join"]%string → dlsym f ≠ 0) →
  (∀ h, alloc_ok h → alloc_mmap 0 h = threadscan_fatal) → can_serve [] im.(proc).(heap) [PAGESIZE] →
  im.(proc).(memory) !! td_is_active 0 = None →
  (if debug
   then pthread_create_entry v lib_create attr start_routine arg im = Aborted ∧
        pthread_exit_entry v 0 im = Aborted ∧ pthread_join_entry v lib_join tid im = Aborted
   else pthread_create_entry v lib_create attr start_routine arg im = Exited 1 ∧
        pthread_exit_entry v 0 im = UB ∧ pthread_join_entry v lib_join tid im = UB) ∧
  ∃ im', load v env false dlsym l im = Ret (tt, im') ∧
    pthread_create_entry v lib_create attr start_routine arg im' =
      on_process (pthread_create v n lib_create attr start_routine arg) im' ∧
    pthread_exit_entry v td im' = on_process (pthread_exit v td) im' ∧
    pthread_join_entry v lib_join tid im' = on_process (pthread_join v lib_join tid) im'.
Proof.
  intros Hl Henv Hf [Hp Hc He Hj] Hsym Hzero Hserve Hnull. split.
  - unfold pthread_create_entry, pthread_exit_entry, pthread_join_entry. destruct debug eqn:Hd.
    + split; [|split]; (erewrite boot_bind_ret by reflexivity); rewrite ?Hc, ?He, ?Hj; apply boot_bind_fails;
        unfold computed, c_assert; by rewrite Hd.
    + assert (∀ b, computed (AS := AS) (c_assert b) im = Ret (tt, im)) as Hassert.
      { intros b. apply computed_ret. unfold c_assert. by rewrite Hd. }
      split; [|split]; (erewrite boot_bind_ret by reflexivity); rewrite ?Hc, ?He, ?Hj;
        (erewrite boot_bind_ret by apply Hassert).
      * erewrite boot_bind_ret by reflexivity. cbn [Z.eqb]. rewrite Hp. unfold mbind, boot_bind, on_process.
        rewrite hook_thread_without_size; [|apply (fi_heap _ Hf)|done|done|apply (fi_count _ Hf)].
        unfold threadscan_fatal. by rewrite Hd.
      * apply boot_bind_fails. unfold on_process, pthread_exit, in_memory, threadscan_thread_cleanup, c_assert. rewrite Hd.
        cbn. by rewrite Hnull.
      * done.
  - destruct (load_ok l im n w Hl Henv Hf) as (im' & E & [[V1 V2 V3 V4 V5 V6 V7] _ _ _]). exists im'. split; [done|].
    assert (dlsym "pthread_create" ≠ 0 ∧ dlsym "pthread_exit" ≠ 0 ∧ dlsym "pthread_join" ≠ 0) as (N1 & N2 & N3).
    { repeat split; apply Hsym; rewrite !elem_of_cons; tauto. }
    unfold pthread_create_entry, pthread_exit_entry, pthread_join_entry. split; [|split].
    + erewrite boot_bind_ret by reflexivity. rewrite V4. erewrite boot_bind_ret by (apply computed_ret, c_assert_true; lia).
      erewrite boot_bind_ret by reflexivity. rewrite V1. by replace (dlsym "pthread_create" =? 0) with false by lia.
    + erewrite boot_bind_ret by reflexivity. rewrite V5. erewrite boot_bind_ret by (apply computed_ret, c_assert_true; lia).
      replace (dlsym "pthread_exit" =? 0) with false by lia. unfold mbind, boot_bind. by destruct (on_process _ im') as [[[] ?]| | | |].
    + erewrite boot_bind_ret by reflexivity. rewrite V6. erewrite boot_bind_ret by (apply computed_ret, c_assert_true; lia).
      by replace (dlsym "pthread_join" =? 0) with false by lia.
Qed.

(** *** The way to main *)
Context (application : Z → Z → Z → Z → boot AS Z) (procmap : option (list Ascii.ascii)) (thunk args here sp self : Z).
Context (libc_start_main : (Z → Z → Z → boot AS Z) → Z → Z → boot AS unit → boot AS Z).

(** The C library runs the constructors of the program and calls the function
    it is given with the arguments and the environment. *)
Definition libc_starts (envp : Z) : Prop := ∀ f argc ubp_av init im,
  libc_start_main f argc ubp_av init im = (_ ← init; f argc ubp_av envp) im.

(** The constructors of the program leave the library alone. *)
Definition init_quiet (init : boot AS unit) : Prop := ∀ im, ∃ m',
  init im = Ret (tt, {| vars := im.(vars); proc := {| heap := im.(proc).(heap); memory := m' |} |}) ∧
  (∀ a, a ∈ library_words → m' !! a = im.(proc).(memory) !! a) ∧
  ∀ a, is_Some (im.(proc).(memory) !! a) → is_Some (m' !! a).

(** What the application finds when it starts. *)
Record ready (n main : Z) (range : mem_range_t) im : Prop := {
  rdy_vars : variables_ready n im.(vars);
  rdy_main : im.(vars).(orig_main) = main;
  rdy_threads : ∃ t, threads_ok v n im.(proc) [t] [] [] ∧ t.(t_low) = range.(low) ∧ t.(t_own) = false ∧ t.(t_self) = self;
  rdy_free : im.(proc).(memory) !! v.(globals).(global_timestamp) = Some 1; (* nobody reclaims *)
}.

(** The main thread, once the library is loaded. *)
Lemma main_hook_ok n main argc argv envp im range :
  variables_ready n im.(vars) → im.(vars).(orig_main) = main →
  threads_repr v (n * sizeof_size_t) im.(proc) [] [] [] 1 → 0 < n * sizeof_size_t < 2 ^ 63 → (n * sizeof_size_t) `mod` PAGESIZE = 0 →
  im.(proc).(memory) !! v.(globals).(global_timestamp) = Some 1 →
  can_serve (args_cells args ++ library_words) im.(proc).(heap) [PAGESIZE; n * sizeof_size_t] →
  args_apart v im.(proc) args [v.(globals).(global_timestamp)] →
  threadscan_proc_stack_from_addr procmap here = Ret range → 0 <= sp < 2 ^ 64 →
  ∃ im', main_hook v application procmap thunk args here sp self argc argv envp im = application main argc argv envp im' ∧
    ready n main range im'.
Proof.
  intros Hvars Hmain Hr Hn Hpages Hts Hserve Hap Hrange Hsp. destruct im as [x st]. cbn [vars proc] in *.
  destruct (proj1 (wp_iff _ _) (main_ok v n Hv Hn Hpages st [] procmap thunk args here sp self argc argv envp range
    [v.(globals).(global_timestamp)] Hr Hserve Hap Hrange Hsp)) as ([r st'] & E & Er & (E1 & E2 & E3) & Hex & Ht).
  cbn [fst snd] in *. subst r. exists {| vars := x; proc := st' |}. split.
  - unfold main_hook. erewrite boot_bind_ret by reflexivity. cbn [vars]. rewrite (vr_ptrs _ _ Hvars).
    erewrite boot_bind_ret by (apply on_process_ret; exact E). cbn [vars]. rewrite Z.eqb_refl. unfold main_thunk.
    erewrite boot_bind_ret by (apply peek_ret; exact E1). erewrite boot_bind_ret by (apply peek_ret; exact E2).
    erewrite boot_bind_ret by (apply peek_ret; exact E3).
    erewrite boot_bind_ret by reflexivity. cbn [vars]. by rewrite Hmain.
  - destruct Ht as (t & Hlow & Hown & Hself & Ht). split; [done|done|by exists t|]. cbn [proc].
    rewrite Hex by (by left). exact Hts.
Qed.

(** C7. Start-up, from the load of the library to the program's main.
    Whatever the environment variable holds (as long as env.c can read it)
    and in whatever order the linker runs the constructors that have no
    priority: the constructors, [__libc_start_main], [main_replacement] and
    [main_thunk] run without fault and the program's main is called with its
    arguments.  The sizes fit then, the handler is registered, the four
    original functions are known, the list holds the main thread and nothing
    else, and nobody reclaims. *)
Theorem startup_reaches_main l main argc ubp_av envp init im n w range :
  load_order l → env_init env = Ret (n, w) → fresh_image im → dlsym "__libc_start_main" ≠ 0 →
  libc_starts envp → init_quiet init →
  args_apart v im.(proc) args [v.(globals).(global_timestamp)] → v.(globals).(global_timestamp) ∉ statics_list v →
  can_serve (args_cells args ++ library_words) im.(proc).(heap) [PAGESIZE; n * sizeof_size_t] →
  threadscan_proc_stack_from_addr procmap here = Ret range → 0 <= sp < 2 ^ 64 →
  ∃ im', startup v env false dlsym application procmap thunk args here sp self libc_start_main l main argc ubp_av init im =
      application main argc ubp_av envp im' ∧ ready n main range im'.
Proof.
  intros Hl Henv Hf Hstart Hlibc Hinit [Hap1 Hap2 Hap3] Hts Hserve Hrange Hsp.
  destruct (load_ok l im n w Hl Henv Hf) as (im1 & E1 & [Hvars Hthr Hheap Hmem]).
  destruct (env_init_range _ _ _ Henv) as (k & Hk & En & Hn).
  set (im2 := {| vars := set_orig_main main im1.(vars); proc := im1.(proc) |}).
  destruct (Hinit im2) as (m3 & E3 & Hlib & Hmapped). cbn [im2 vars proc] in E3, Hlib, Hmapped.
  set (im3 := {| vars := set_orig_main main im1.(vars); proc := {| heap := im1.(proc).(heap); memory := m3 |} |}) in E3.
  assert (same_except [tl_head tl] im.(proc).(memory) im1.(proc).(memory)) as Hhead by exact Hmem.
  assert (∀ a, a ∉ statics_list v → im1.(proc).(memory) !! a = im.(proc).(memory) !! a) as Hold.
  { intros a Ha. apply Hhead. intros ->%list_elem_of_singleton. apply Ha. unfold statics_list. by left. }
  assert (0 < n * sizeof_size_t < 2 ^ 63) as Hn8.
  { unfold MIN_PTRS_PER_THREAD, MAX_PTRS_PER_THREAD, sizeof_size_t in *. lia. }
  assert ((n * sizeof_size_t) `mod` PAGESIZE = 0) as Hpages.
  { subst n. unfold sizeof_size_t, PAGESIZE. replace (2 ^ k * 8) with (2 ^ (k - 10) * 2 * 0x1000); [apply Z.mod_mul; lia|].
    replace k with (k - 10 + 10) at 2 by lia. rewrite Z.pow_add_r by lia. change (2 ^ 10) with 1024. lia. }
  destruct (main_hook_ok n main argc ubp_av envp im3 range) as (im' & E & Hready); [|done| |exact Hn8|exact Hpages|..].
  - destruct Hvars as [V1 V2 V3 V4 V5 V6 V7]. by split.
  - apply (repr_no_threads v n Hn8 im1.(proc)); [done|]. intros x Hx. apply Hlib. unfold library_words. by right.
  - cbn [im3 proc memory]. rewrite Hlib by (unfold library_words; by left). rewrite Hold by done. apply (fi_timestamp _ Hf).
  - cbn [im3 proc heap]. by rewrite Hheap.
  - split; [|done|done]. intros a Ha. cbn [im3 proc memory]. apply Hmapped. rewrite Hold; [by apply Hap1|].
    apply Hap2, elem_of_app. by left.
  - exact Hrange.
  - exact Hsp.
  - exists im'. split; [|done]. unfold startup. rewrite (boot_bind_ret _ _ _ _ _ E1). unfold libc_start_main_wrapper.
    erewrite boot_bind_ret by reflexivity. fold im2. erewrite boot_bind_ret by reflexivity. cbn [im2 vars set_orig_main orig_libc_start_main].
    rewrite (vr_start _ _ Hvars). replace (dlsym "__libc_start_main" =? 0) with false by lia.
    rewrite Hlibc, (boot_bind_ret _ _ _ _ _ E3). exact E.
Qed.
End startup.

(** ** Examples *)
Definition ex_dlsym (name : string) : Z :=
  if decide (name = "pthread_create"%string) then 0x7f0010 else if decide (name = "pthread_exit"%string) then 0x7f0020
  else if decide (name = "pthread_join"%string) then 0x7f0030 else if decide (name = "__libc_start_main"%string) then 0x7f0040 else 0.

Definition ex_variables : variables_t := {|
  g_threadscan_ptrs_per_thread := 0;
  g_tsdata := {| max_ptrs := 0; n_addrs := 0; buf_addrs := 0; n_scan_map := 0; buf_scan_map := 0;
                 working_buffer_sz := 0; scan_map_offset := 0; storage := 0 |};
  SIGUSR1_handled := false; orig_pthread_create := 0; orig_pthread_exit := 0; orig_pthread_join := 0;
  orig_libc_start_main := 0; orig_main := 0 |}.

(** The static variables of the examples of Wrappers.v, before [proc_init]. *)
Definition ex_image : image bump_state := {|
  vars := ex_variables;
  proc := {| heap := ex_start.(heap); memory := <[0x1000 := 1]> ex_start.(memory) |} |}.

Definition ex_libc (f : Z → Z → Z → boot bump_state Z) (argc ubp_av : Z) (init : boot bump_state unit) : boot bump_state Z :=
  _ ← init; f argc ubp_av 0x7ffd6000.

(** The program's main returns the number of its arguments. *)
Definition ex_application (main argc argv env : Z) : boot bump_state Z := mret (if main =? 0x401000 then argc else 255).

Definition ex_order : list constructor := [Env_init; Register_signal_handlers; Do_wrapper_replacement; Proc_init].

Lemma ex_load_order : load_order ex_order.
Proof.
  split.
  - do 2 apply Permutation_skip. apply Permutation_swap.
  - repeat constructor; done.
Qed.

Lemma ex_fresh_image : fresh_image ex_statics ex_image.
Proof.
  split; try reflexivity. split; [|constructor|done].
  split; cbn; [lia|by intros a l ?%lookup_empty_Some|by intros a la b lb ?%lookup_empty_Some].
Qed.

Lemma startup_reaches_main_witness :
  ∃ im', startup (H := debug_build) ex_statics (Some (chars_of_digits [2])) false ex_dlsym ex_application (Some ex_map)
      0x400800 0x7ffd3000 0x7ffd2345 0x7ffd2300 7 ex_libc ex_order 0x401000 3 0x7ffd5000 (mret tt) ex_image = Ret (3, im') ∧
    im'.(vars).(g_threadscan_ptrs_per_thread) = 2048 ∧ ∃ t, threads_ok ex_statics 2048 im'.(proc) [t] [] [].
Proof.
  destruct (startup_reaches_main (H := debug_build) ex_statics ex_statics_ok (Some (chars_of_digits [2])) ex_dlsym
    ex_application (Some ex_map) 0x400800 0x7ffd3000 0x7ffd2345 0x7ffd2300 7 ex_libc
    ex_order 0x401000 3 0x7ffd5000 0x7ffd6000 (mret tt) ex_image 2048 None {| low := 0x7ffd1000; high := 0x7ffd4000 |})
    as (im' & E & [[V1 _ _ _ _ _ _] _ (t & Ht & _) _]).
  - exact ex_load_order.
  - reflexivity.
  - exact ex_fresh_image.
  - vm_compute. discriminate.
  - by intros f argc ubp_av init im.
  - intros im. exists im.(proc).(memory). split; [|by split]. by destruct im as [? []].
  - split.
    + intros a Ha. unfold args_cells in Ha. repeat (apply elem_of_cons in Ha as [->|Ha]; [by eexists|]). by apply elem_of_nil in Ha.
    + assert (Forall (λ a, a ∉ statics_list ex_statics) (args_cells 0x7ffd3000 ++ [0x1028])) as Hall by (apply (bool_decide_unpack _); reflexivity).
      by rewrite Forall_forall in Hall.
    + by intros a ->%list_elem_of_singleton ?%(bool_decide_pack _).
  - apply (bool_decide_unpack _). reflexivity.
  - apply ex_can_serve_below; [by apply (bool_decide_unpack _)|done|by repeat constructor|by vm_compute].
  - vm_compute. reflexivity.
  - lia.
  - exists im'. split; [exact E|]. split; [exact V1|]. by exists t.
Defined.

(** The same on the program's own allocator. *)
Definition ex_alloc_image : image (alloc_state bump_vm) := {|
  vars := ex_variables;
  proc := {| heap := alloc_start (ex_vm 0x900000); memory := ex_image.(proc).(memory) |} |}.

Lemma ex_alloc_fresh `{Build} : fresh_image ex_statics ex_alloc_image.
Proof.
  split; try reflexivity. split; [|constructor|done]. by apply ex_start_ok.
Qed.

Lemma ex_alloc_zero `{Build} (h : alloc_state bump_vm) : alloc_ok h → alloc_mmap 0 h = threadscan_fatal.
Proof. by apply alloc_mmap_zero. Qed.

Lemma ex_dlsym_known f : f ∈ ["pthread_create"; "pthread_exit"; "pthread_join"]%string → ex_dlsym f ≠ 0.
Proof.
  assert (Forall (λ f, ex_dlsym f ≠ 0) ["pthread_create"; "pthread_exit"; "pthread_join"]%string) as Hall
    by (apply (bool_decide_unpack _); reflexivity).
  rewrite Forall_forall in Hall. apply Hall.
Qed.

Lemma ex_alloc_serves `{Build} : can_serve [] ex_alloc_image.(proc).(heap) [PAGESIZE].
Proof. split; [split; vm_compute; discriminate|]. intros p h' _. split; [by intros x ?%elem_of_nil|exact I]. Qed.

Definition ex_early_create `{Build} : outcome (Z * image (alloc_state bump_vm)) :=
  pthread_create_entry ex_statics (ex_create 0) None 0x400000 1 ex_alloc_image.
Definition ex_early_join `{Build} : outcome (Z * image (alloc_state bump_vm)) :=
  pthread_join_entry ex_statics ex_join 7 ex_alloc_image.
Definition ex_late_create `{Build} : outcome (Z * image (alloc_state bump_vm)) :=
  '(_, im) ← load ex_statics (Some (chars_of_digits [2])) false ex_dlsym ex_order ex_alloc_image;
  pthread_create_entry ex_statics (ex_create 0) None 0x400000 1 im.

Lemma wrappers_need_startup_witness :
  ex_early_create (H := debug_build) = Aborted ∧ ex_early_create (H := release_build) = Exited 1 ∧
  ex_early_join (H := release_build) = UB ∧
  ∃ im, ex_late_create (H := release_build) =
    (let b := release_build in on_process (pthread_create ex_statics 2048 (ex_create 0) None 0x400000 1) im).
Proof.
  destruct (wrappers_need_startup (H := debug_build) ex_statics ex_statics_ok (Some (chars_of_digits [2])) ex_dlsym
    (ex_create 0) ex_join ex_order ex_alloc_image 2048 None None 0x400000 1 0 7 ex_load_order eq_refl ex_alloc_fresh
    (Build_static_vars ex_variables eq_refl eq_refl eq_refl eq_refl) ex_dlsym_known ex_alloc_zero ex_alloc_serves eq_refl) as [[H1 _] _].
  destruct (wrappers_need_startup (H := release_build) ex_statics ex_statics_ok (Some (chars_of_digits [2])) ex_dlsym
    (ex_create 0) ex_join ex_order ex_alloc_image 2048 None None 0x400000 1 0 7 ex_load_order eq_refl ex_alloc_fresh
    (Build_static_vars ex_variables eq_refl eq_refl eq_refl eq_refl) ex_dlsym_known ex_alloc_zero ex_alloc_serves eq_refl)
    as [(H2 & _ & H3) (im' & E & H4 & _)].
  split; [exact H1|]. split; [exact H2|]. split; [exact H3|]. exists im'.
  unfold ex_late_create. rewrite E. cbn [mbind outcome_bind]. exact H4.
Defined.
