(* ===== verification/History.v ===== *)
(** * The life of a collected pointer

    The other files treat one operation each.  Here the operations follow one
    another: threads run, retire blocks with [threadscan_collect], one of them
    reclaims, malloc hands out freed addresses again.  The discipline the
    application has to keep is part of the steps; what it gets for that are
    the theorems: what was freed is not referenced, and no block is freed
    twice. *)

From S2P Require Import Prelude Conc Mem Env Queue AllocIface ThreadList Thread Search Round Buffers Reclaim Collect.
From S2P Require Import Alloc AllocInv ThreadData.

(** ** Left-over pointers are determined by memory *)
Lemma holds_unique blk next next' addrs addrs' : holds blk next addrs → holds blk next' addrs' → next = next' ∧ addrs = addrs'.
Proof. intros [H1 H2 H3 _] [G1 G2 G3 _]. split; [congruence|]. rewrite <- H3, <- G3. congruence. Qed.

Lemma chain_unique bl p l l' : chain bl p l → chain bl p l' → l = l'.
Proof.
  revert p l'. induction l as [|[a addrs] l IH]; intros p [|[a' addrs'] l']; cbn [chain]; [done|..].
  - by intros -> (<- & ? & _).
  - by intros (-> & ? & _) ->.
  - intros (-> & _ & blk & next & Hb & Hh & Hc) (-> & _ & blk' & next' & Hb' & Hh' & Hc').
    rewrite Hb in Hb'. injection Hb' as <-. destruct (holds_unique _ _ _ _ _ Hh Hh') as [<- <-].
    by rewrite (IH next l' Hc Hc').
Qed.

Lemma queued_insert qs k q q1 a :
  qs !! k = Some q → contents q1 = contents q ++ [a] → queued (<[k := q1]> qs) ≡ₚ a :: queued qs.
Proof.
  intros Hk Hc. pose proof (lookup_lt_Some _ _ _ Hk). rewrite insert_take_drop by done.
  rewrite <- (take_drop_middle qs k q Hk) at 3. unfold queued.
  rewrite !fmap_app, !concat_app, !fmap_cons. cbn [concat]. rewrite Hc. solve_Permutation.
Qed.

Section own_push.
Context `{Build} {AS : Type} `{!Allocator AS}.

(** A pointer is put on the thread's queue. *)
Lemma own_push_ok k a (st : rstate AS) l q :
  reclaim_state st l → st.(queues) !! k = Some q → own_is_full k st = Ret 0 →
  idx_head q + 1 + capacity q < 2 ^ 64 → a ≠ 0 →
  ∃ q1, own_push k a st = Ret (set_queues (<[k := q1]> st.(queues)) st) ∧
    reclaim_state (set_queues (<[k := q1]> st.(queues)) st) l ∧
    queued (<[k := q1]> st.(queues)) ≡ₚ a :: queued st.(queues).
Proof.
  intros [H1 H2 H3 H4 Hqs] Hk Hfull Hidx Ha. destruct (Forall_lookup_1 _ _ _ _ Hqs Hk) as [Hwf H0].
  destruct (own_push_run k a st q Hk Hwf Hfull Hidx) as (q1 & Hrun & Hwf1 & Hcap1 & Hc1). exists q1.
  split; [done|]. split; [|by eapply queued_insert].
  split; try done. apply Forall_insert; [done|]. split; [done|].
  intros Hd. rewrite Hc1, elem_of_app, list_elem_of_singleton. intros [Hin|]; [by apply H0|congruence].
Qed.
End own_push.

(** ** The system *)

(** [retired]: the blocks passed to [threadscan_collect] that were not
    allocated again; [dead]: those of them that were freed. *)
Record system (AS : Type) := {
  sys_state : rstate AS;
  sys_mem : mem;
  sys_threads : list thread;
  retired : gset Z;
  dead : gset Z;
}.
Arguments sys_state {AS}.
Arguments sys_mem {AS}.
Arguments sys_threads {AS}.
Arguments retired {AS}.
Arguments dead {AS}.

(** Some thread has a reference to [a] on its stack or in its local block. *)
Definition held (ts : list thread) (m : mem) (a : Z) : Prop := holding m ts m a.

Section system.
Context `{Build} {AS : Type} `{!Allocator AS}.
Context (v : globals_t) (pthread_kill : Z → Z → prog Z Z) (sigpending : Z → Z).
Implicit Types (st : rstate AS) (s : system AS).

(** What a round needs besides what the discipline guarantees: the pointers
    fit, the working buffer can be allocated, and in a debug build no zeros
    are left over. *)
Record round_fits st (l : list (Z * list Z)) (m : mem) : Prop := {
  rf_left : zlen (chain_addrs l) <= limit_of st;
  rf_room : 0 < zlen (gathered st (limit_of st) l) <= limit_of st - 2;
  rf_debug : debug = true → 0 ∉ gathered st (limit_of st) l;
  rf_fresh : ∀ p a', alloc_mmap st.(g_tsdata).(working_buffer_sz) st.(allocator) = Ret (p, a') →
    ∀ i, 0 ≤ i < st.(g_tsdata).(working_buffer_sz) / sizeof_size_t → m !! elt p i = None;
  rf_avail : alloc_avail st.(allocator) st.(g_tsdata).(working_buffer_sz);
}.

Inductive sys_step : system AS → system AS → Prop :=
| sys_run st m ts R D m' ts' :
    (* the threads compute, start and end; nobody makes new references to
       what is retired *)
    (∀ a, a ∈ R → held ts' m' a → held ts m a) →
    sys_step (Build_system AS st m ts R D) (Build_system AS st m' ts' R D)
| sys_enter st m ts R D q :
    (* a thread is created, with an empty queue *)
    queue_wf q → contents q = [] →
    sys_step (Build_system AS st m ts R D) (Build_system AS (set_queues (q :: st.(queues)) st) m ts R D)
| sys_leave st m ts R D i :
    (* a thread ends; what is on its queue leaks *)
    sys_step (Build_system AS st m ts R D) (Build_system AS (set_queues (delete i st.(queues)) st) m ts R D)
| sys_collect st m ts R D k q a st' :
    (* a thread retires a block, once *)
    a ∉ R → 0 < a → a `mod` 4 = 0 →
    st.(queues) !! k = Some q → own_is_full k st = Ret 0 → idx_head q + 1 + capacity q < 2 ^ 64 →
    own_push k a st = Ret st' →
    sys_step (Build_system AS st m ts R D) (Build_system AS st' m ts ({[a]} ∪ R) D)
| sys_reclaim st m ts R D heap user me others l st' m' :
    (* a thread that has the lock reclaims, the others run user code that
       makes no new references to what is retired *)
    ts ≡ₚ threads me others → chain st.(blocks) st.(g_tsdata).(storage) l → round_fits st l m →
    round_env v sigpending heap me others m → pthread_kill_delivers pthread_kill sigpending others →
    users_ok heap (.∈ R) user others m →
    threadscan_reclaim v pthread_kill sigpending user me others st m st' m' →
    sys_step (Build_system AS st m ts R D)
      (Build_system AS st' m' ts R (list_to_set (filter (.≠ 0) (drop (length st.(freed)) st'.(freed))) ∪ D))
| sys_malloc st m ts R D a :
    (* malloc hands out a freed address again *)
    a ∈ D → sys_step (Build_system AS st m ts R D) (Build_system AS st m ts (R ∖ {[a]}) (D ∖ {[a]})).

(** ** The invariant *)

(** The pointers that wait to be freed. *)
Definition pending st (l : list (Z * list Z)) : list Z := queued st.(queues) ++ chain_addrs l.

Record sys_inv s (l : list (Z * list Z)) : Prop := {
  si_state : reclaim_state s.(sys_state) l;
  si_once a : a ≠ 0 → (occ (pending s.(sys_state) l) a ≤ 1)%nat;
  si_pending a : a ∈ pending s.(sys_state) l → a ≠ 0 →
    a ∈ s.(retired) ∧ a ∉ s.(dead) ∧ 0 < a ∧ a `mod` 4 = 0;
  si_dead a : a ∈ s.(dead) → a ∈ s.(retired) ∧ ¬ held s.(sys_threads) s.(sys_mem) a;
}.

(** Fewer pointers wait than before. *)
Definition shrinks (l l' : list Z) : Prop := ∀ a, a ≠ 0 → (occ l' a ≤ occ l a)%nat.

Lemma shrinks_elem l l' a : shrinks l l' → a ∈ l' → a ≠ 0 → a ∈ l.
Proof. intros Hs Hin Ha. apply occ_pos. apply occ_pos in Hin. specialize (Hs a Ha). lia. Qed.

Lemma sys_inv_shrinks st m ts R D l st' l' :
  sys_inv (Build_system AS st m ts R D) l → reclaim_state st' l' → shrinks (pending st l) (pending st' l') →
  sys_inv (Build_system AS st' m ts R D) l'.
Proof.
  intros [H1 H2 H3 H4] Hst Hs. split; cbn in *; try done.
  - intros a Ha. specialize (H2 a Ha). specialize (Hs a Ha). lia.
  - intros a Hin Ha. apply H3; [|done]. by apply (shrinks_elem _ _ _ Hs).
Qed.

Lemma reclaim_state_queues st l qs : reclaim_state st l → queues_ok qs → reclaim_state (set_queues qs st) l.
Proof. intros [H1 H2 H3 H4 H5] Hq. by split. Qed.

(** ** What a reclamation does to what is held *)
Lemma held_in_use ts me others m a : ts ≡ₚ threads me others → held ts m a ↔ in_use me others m m a.
Proof. intros Hp. unfold held, in_use. rewrite !holding_refers. apply exist_proper. intros t. by rewrite Hp. Qed.

(** The threads scan where they did before. *)
Lemma held_after ts me others R st st' l l' fl m m' a :
  ts ≡ₚ threads me others → reclaim_result R me others st st' l l' fl m m' →
  held ts m' a ↔ in_use me others m m' a.
Proof.
  intros Hp Hres. rewrite (held_in_use ts me others) by done. unfold in_use. rewrite !holding_refers.
  apply exist_proper. intros t. apply and_iff_under. intros Ht. by rewrite (rs_scanner _ _ _ _ _ _ _ _ _ _ Hres t Ht).
Qed.

(** What is gathered is part of what waits. *)
Lemma gathered_pending st l limit a :
  (occ (gathered st limit l) a + occ (drop (Z.to_nat (limit - zlen (chain_addrs l))) (queued st.(queues))) a)%nat =
    occ (pending st l) a.
Proof.
  unfold gathered, pending. rewrite !occ_app.
  rewrite (occ_take_drop (Z.to_nat (limit - zlen (chain_addrs l))) (queued st.(queues))). lia.
Qed.

Lemma gathered_elem st l limit a : a ∈ gathered st limit l → a ∈ pending st l.
Proof. intros Hin. apply occ_pos. apply occ_pos in Hin. rewrite <- (gathered_pending st l limit). lia. Qed.

(** The discipline makes the addresses of a round distinct. *)
Lemma round_fits_ok s l :
  sys_inv s l → round_fits s.(sys_state) l s.(sys_mem) → reclaim_round s.(sys_state) l s.(sys_mem).
Proof.
  intros [H1 H2 H3 _] [F1 F2 F3 F4 F5]. split; try done.
  - intros a Hin%gathered_elem. destruct (decide (a = 0)) as [->|Ha]; [done|].
    destruct (H3 a Hin Ha) as (_ & _ & ? & ?). lia.
  - intros Hd. split; [|by apply F3]. apply occ_NoDup. intros a. destruct (decide (a = 0)) as [->|Ha].
    + rewrite (proj2 (occ_0 _ _) (F3 Hd)). lia.
    + specialize (H2 a Ha). rewrite <- (gathered_pending _ l (limit_of (sys_state s)) a) in H2. lia.
Qed.

(** ** One reclamation in the system *)
Lemma sys_reclaim_ok st m ts R D l heap user me others st' m' :
  sys_inv (Build_system AS st m ts R D) l →
  ts ≡ₚ threads me others → round_fits st l m → round_env v sigpending heap me others m →
  pthread_kill_delivers pthread_kill sigpending others → users_ok heap (.∈ R) user others m →
  threadscan_reclaim v pthread_kill sigpending user me others st m st' m' →
  ∃ l' fl, st'.(freed) = st.(freed) ++ fl ∧
    (∀ a, a ∈ fl → a ≠ 0 → a ∈ R ∧ a ∉ D ∧ ¬ held ts m' a ∧ occ fl a = 1%nat) ∧
    sys_inv (Build_system AS st' m' ts R (list_to_set (filter (.≠ 0) fl) ∪ D)) l'.
Proof.
  intros Hinv Hts Hfits Henv Hkill Husers Hrec. pose proof Hinv as [H1 H2 H3 H4]. cbn in H1, H2, H3, H4.
  pose proof (round_fits_ok _ _ Hinv Hfits) as Hround. cbn in Hround.
  destruct (threadscan_reclaim_ok _ _ _ _ _ _ _ _ _ _ _ _ _ H1 Hround Henv Hkill Husers Hrec) as (l' & fl & Hres).
  pose proof (λ a, held_after ts me others _ _ _ _ _ _ _ _ a Hts Hres) as Hafter.
  destruct Hres as [Hst' Hfr [D1 D2 D3 D4 D5 D6 _] Hqd _ _ Huse].
  set (addrs := gathered st (limit_of st) l) in *.
  assert (∀ a, a ≠ 0 → (occ addrs a + occ (queued st'.(queues)) a)%nat = occ (pending st l) a) as Hsum.
  { intros a _. rewrite Hqd. apply gathered_pending. }
  assert (∀ a, a ∈ fl → a ≠ 0 → a ∈ R ∧ a ∉ D ∧ ¬ held ts m' a ∧ occ fl a = 1%nat) as Hfl.
  { intros a Hin Ha. apply occ_pos in Hin as Hp. specialize (Hsum a Ha). specialize (H2 a Ha). specialize (D3 a).
    destruct (H3 a) as (HR & HD & _); [apply occ_pos; lia|done|]. split; [done|]. split; [done|].
    split; [|lia]. intros Hh. apply (D2 a); [split; [done|by apply Hafter]|lia|done]. }
  assert (∀ a, a ∈ R → held ts m' a → held ts m a) as Hheld.
  { intros a HR Hh%Hafter. apply (held_in_use ts me others); [done|]. by apply Huse. }
  exists l', fl. split; [done|]. split; [done|]. split; cbn.
  - done.
  - intros a Ha. unfold pending. rewrite occ_app. specialize (Hsum a Ha). specialize (H2 a Ha). specialize (D4 a Ha). lia.
  - intros a Hin Ha. specialize (Hsum a Ha). specialize (D4 a Ha). specialize (H2 a Ha).
    apply occ_pos in Hin. unfold pending in Hin. rewrite occ_app in Hin.
    destruct (H3 a) as (HR & HD & Hal); [apply occ_pos; lia|done|]. split; [done|]. split; [|done].
    rewrite elem_of_union, elem_of_list_to_set, list_elem_of_filter. intros [[_ Hf%occ_pos]|?]; [lia|done].
  - intros a. rewrite elem_of_union, elem_of_list_to_set, list_elem_of_filter.
    intros [[Ha Hf]|HD]; [by destruct (Hfl a Hf Ha) as (? & _ & ? & _)|]. destruct (H4 a HD). auto.
Qed.

(** ** The other steps *)
Lemma queued_delete qs i a : (occ (queued (delete i qs)) a ≤ occ (queued qs) a)%nat.
Proof.
  rewrite delete_take_drop. destruct (qs !! i) as [q|] eqn:Hi.
  2: { apply lookup_ge_None in Hi. by rewrite take_ge, drop_ge, app_nil_r by lia. }
  rewrite <- (take_drop_middle qs i q Hi) at 3. unfold queued.
  rewrite !fmap_app, !concat_app, fmap_cons. cbn [concat]. rewrite !occ_app. lia.
Qed.

Lemma sys_inv_collect st m ts R D l k q a st' :
  sys_inv (Build_system AS st m ts R D) l → a ∉ R → 0 < a → a `mod` 4 = 0 →
  st.(queues) !! k = Some q → own_is_full k st = Ret 0 → idx_head q + 1 + capacity q < 2 ^ 64 →
  own_push k a st = Ret st' → sys_inv (Build_system AS st' m ts ({[a]} ∪ R) D) l.
Proof.
  intros [H1 H2 H3 H4] HR Hpos Hal Hk Hfull Hidx Hpush. cbn in H1, H2, H3, H4.
  destruct (own_push_ok k a st l q H1 Hk Hfull Hidx ltac:(lia)) as (q1 & Hrun & Hst' & Hq).
  rewrite Hrun in Hpush. injection Hpush as <-.
  assert (pending (set_queues (<[k := q1]> (queues st)) st) l ≡ₚ a :: pending st l) as Hp.
  { unfold pending. cbn. by rewrite Hq. }
  assert (a ∉ pending st l) as Hnew by (intros Hin; destruct (H3 a Hin); [lia|done]).
  split; cbn; try done.
  - intros b Hb. rewrite Hp, occ_cons. specialize (H2 b Hb). case_decide as E; [|lia].
    subst b. rewrite (proj2 (occ_0 _ _) Hnew). lia.
  - intros b. rewrite Hp, elem_of_cons, elem_of_union, elem_of_singleton. intros [->|Hin] Hb.
    + split; [by left|]. split; [|done]. intros HD. by destruct (H4 a HD).
    + destruct (H3 b Hin Hb) as (? & ?). split; [by right|done].
  - intros b HD. destruct (H4 b HD). split; [|done]. apply elem_of_union. by right.
Qed.

Lemma sys_inv_step s s' l : sys_inv s l → sys_step s s' → ∃ l', sys_inv s' l'.
Proof.
  intros Hinv Hs. destruct Hs as [st m ts R D m' ts' Hh|st m ts R D q Hq Hc|st m ts R D i|
    st m ts R D k q a st' HR Hpos Hal Hk Hfull Hidx Hpush|
    st m ts R D heap user me others l1 st' m' Hts Hc Hfits Henv Hkill Husers Hrec|st m ts R D a Ha].
  - destruct Hinv as [H1 H2 H3 H4]. exists l. split; cbn in *; try done.
    intros a HD. destruct (H4 a HD) as [HR Hn]. split; [done|]. intros Hh'. by apply Hn, Hh.
  - exists l. apply (sys_inv_shrinks st m ts R D l); [done|..].
    + destruct Hinv as [H1 _ _ _]. apply reclaim_state_queues; [done|]. constructor; [|apply (rc_queues _ _ H1)].
      rewrite Hc. split; [done|]. intros _. apply not_elem_of_nil.
    + intros a _. unfold pending, queued. cbn. by rewrite Hc.
  - exists l. apply (sys_inv_shrinks st m ts R D l); [done|..].
    + destruct Hinv as [H1 _ _ _]. apply reclaim_state_queues; [done|]. apply Forall_delete, (rc_queues _ _ H1).
    + intros a _. unfold pending. rewrite !occ_app. apply Nat.add_le_mono_r, queued_delete.
  - exists l. by apply (sys_inv_collect st m ts R D l k q a).
  - assert (l1 = l) as -> by (eapply chain_unique; [exact Hc|apply (rc_chain _ _ (si_state _ _ Hinv))]).
    destruct (sys_reclaim_ok _ _ _ _ _ _ _ _ _ _ _ _ Hinv Hts Hfits Henv Hkill Husers Hrec) as (l' & fl & Hfr & _ & Hinv').
    exists l'. by rewrite Hfr, drop_app_length.
  - destruct Hinv as [H1 H2 H3 H4]. exists l. split; cbn in *; try done.
    + intros b Hin Hb. destruct (H3 b Hin Hb) as (HR & HD & Hal). rewrite !elem_of_difference.
      split; [|split; [by intros [? _]|done]]. split; [done|]. by intros ->%elem_of_singleton.
    + intros b [HD Hne]%elem_of_difference. destruct (H4 b HD). split; [|done]. by apply elem_of_difference.
Qed.

(** ** All histories *)

(** The library was just set up: nothing is tracked. *)
Record sys_start s : Prop := {
  su_state : reclaim_state s.(sys_state) [];
  su_queues : queued s.(sys_state).(queues) = [];
  su_none : s.(retired) = ∅ ∧ s.(dead) = ∅;
}.

Lemma sys_start_inv s : sys_start s → sys_inv s [].
Proof.
  intros [H1 H2 [H3 H4]]. unfold pending. split; unfold pending; rewrite ?H2, ?H3, ?H4; try done.
  - intros a _. cbn. lia.
  - by intros a ?%elem_of_nil.
Qed.

Lemma sys_inv_reachable s0 s : sys_start s0 → rtc sys_step s0 s → ∃ l, sys_inv s l.
Proof.
  intros H0%sys_start_inv Hr. assert (∃ l, sys_inv s0 l) as Hinv by (by eexists). clear H0.
  induction Hr as [|s1 s2 s3 Hs _ IH]; [done|]. apply IH. destruct Hinv as [l Hl]. by eapply sys_inv_step.
Qed.

Lemma step_freed s s' l fl :
  sys_inv s l → sys_step s s' → s'.(sys_state).(freed) = s.(sys_state).(freed) ++ fl →
  ∀ a, a ∈ fl → a ≠ 0 → a ∈ s.(retired) ∧ a ∉ s.(dead) ∧ ¬ held s'.(sys_threads) s'.(sys_mem) a ∧ occ fl a = 1%nat.
Proof.
  intros Hinv Hs. assert (∀ l : list Z, l = l ++ fl → fl = []) as Hnil by (intros l0 E%(f_equal length); rewrite length_app in E; apply nil_length_inv; revert E; clear; lia).
  destruct Hs as [| | |st m ts R D k q a st' HR Hpos Hal Hk Hfull Hidx Hpush|
    st m ts R D heap user me others l1 st' m' Hts Hc Hfits Henv Hkill Husers Hrec|]; cbn;
    try (intros ->%Hnil; by intros ? ?%elem_of_nil).
  - destruct (own_push_ok k a st l q (si_state _ _ Hinv) Hk Hfull Hidx ltac:(lia)) as (q1 & Hrun & _).
    rewrite Hrun in Hpush. injection Hpush as <-. intros ->%Hnil. by intros ? ?%elem_of_nil.
  - assert (l1 = l) as -> by (eapply chain_unique; [exact Hc|apply (rc_chain _ _ (si_state _ _ Hinv))]).
    destruct (sys_reclaim_ok _ _ _ _ _ _ _ _ _ _ _ _ Hinv Hts Hfits Henv Hkill Husers Hrec) as (l' & fl' & Hfr & Hfl & _).
    rewrite Hfr. by intros ->%app_inv_head.
Qed.
End system.

(** C1. Reclamation is safe in every history of the system - threads that
    compute, also while another thread reclaims, start, end, retire blocks,
    reclaim, and allocate again - as long as the application retires a block
    once and makes no new references to what it retired: memory that was freed
    and not allocated again is not referenced by any thread; and whatever a
    step frees was retired, was not freed before, is freed once and is
    referenced by no thread afterwards. *)
Theorem history_safe `{Build} `{!Allocator AS} v pthread_kill sigpending (s0 s : system AS) :
  sys_start s0 → rtc (sys_step v pthread_kill sigpending) s0 s →
  (∀ a, a ∈ s.(dead) → ¬ held s.(sys_threads) s.(sys_mem) a) ∧
  (∀ s' fl, sys_step v pthread_kill sigpending s s' → s'.(sys_state).(freed) = s.(sys_state).(freed) ++ fl →
     ∀ a, a ∈ fl → a ≠ 0 →
       a ∈ s.(retired) ∧ a ∉ s.(dead) ∧ ¬ held s'.(sys_threads) s'.(sys_mem) a ∧ occ fl a = 1%nat).
Proof.
  intros H0 Hr. destruct (sys_inv_reachable _ _ _ _ _ H0 Hr) as [l Hinv]. split.
  - intros a HD. apply (si_dead _ _ Hinv a HD).
  - intros s' fl Hs Hfr. by eapply step_freed.
Qed.

(** ** What the scan does not look at

    A thread is in the list from its creation on; until it has started,
    nothing of it is scanned. *)

(** C35. The argument of a thread that has not started keeps nothing alive:
    when the block was retired and the only reference to it is the one
    [pthread_create] stored for the new thread, a reclamation frees it, and
    the thread still starts with the pointer. *)
Theorem pending_argument_freed `{Build} {AS} `{!Allocator AS} v pthread_kill sigpending heap retired user me ts
    (st st4 : rstate AS) l m m4 td a sp self :
  let addrs := gathered st (limit_of st) l in
  reclaim_state st l → reclaim_round st l m → NoDup addrs → 0 ∉ addrs → (∀ b, b ∈ addrs → retired b) →
  round_env v sigpending heap me ts m → pthread_kill_delivers pthread_kill sigpending ts →
  users_ok heap retired user ts m →
  (∀ b, b ∈ td_scalars td → is_Some (m !! b)) →
  m !! td_user_arg td = Some a → ¬ vol v sigpending heap ts m (td_user_arg td) → td_user_arg td ≠ v.(global_timestamp) →
  a ∈ addrs → ¬ in_use me ts m m a →
  threadscan_reclaim v pthread_kill sigpending user me ts st m st4 m4 →
  a ∈ st4.(freed) ∧ wp (run (threadscan_thread_base td sp self) m4) (λ r, r.1.2 = a).
Proof.
  intros addrs Hst Hround Hnd H0 Hret Henv Hkill Husers Htd Harg Hvol Hg Ha Hu Hrec. split.
  - destruct (threadscan_reclaim_ok _ _ _ _ _ _ _ _ _ _ _ _ _ Hst Hround Henv Hkill Husers Hrec) as (l' & fl & [_ -> Hd _ _ _ _]).
    destruct (disposed_exact _ _ _ _ _ Hd Hnd H0) as (_ & _ & H7 & _). apply elem_of_app. right.
    apply H7; [done|]. intros Hm. by apply Hu, Hm, Hret.
  - destruct (threadscan_reclaim_memory _ _ _ _ _ _ _ _ _ _ _ _ _ Hst Hround Henv Hkill Husers Hrec) as [Hfixed Hmapped].
    assert (∀ b, b ∈ td_scalars td → is_Some (m4 !! b)) as Hmap by auto.
    assert (m4 !! td_user_arg td = Some a) as Harg4 by (rewrite Hfixed; [done|apply Htd; scalar|done|done]).
    destruct (Hmap (td_user_routine td)) as [routine Hroutine]; [scalar|].
    unfold threadscan_thread_base. do 4 run_scalar Hmap.
    erewrite run_bind_rd by (lookup_simp addr; exact Hroutine). erewrite run_bind_rd by (lookup_simp addr; exact Harg4).
    by apply wp_ret.
Qed.

(** ** A history on the program's own allocator

    The threads of the example of Round.v retire three blocks, the first
    thread reclaims. *)
Section example.
#[local] Existing Instance debug_build.

Definition ex_rstate (qs : list queue_t) : rstate (alloc_state bump_vm) := {|
  g_tsdata := ex_state.(g_tsdata);
  blocks := ∅;
  allocator := alloc_start (ex_vm 0x900000);
  queues := qs;
  freed := [];
|}.

Definition ex_queue (l : list Z) : queue_t := mk_queue (l ++ replicate (4 - length l) 0) 4 (zlen l) 4.

(** After [l] has been collected. *)
Definition ex_system (l : list Z) : system (alloc_state bump_vm) := {|
  sys_state := ex_rstate [ex_queue l];
  sys_mem := ex_env_mem;
  sys_threads := [ex_me; ex_other];
  retired := list_to_set (reverse l);
  dead := ∅;
|}.

Lemma ex_rstate_ok q : queue_wf q → 0 ∉ contents q → reclaim_state (ex_rstate [q]) [].
Proof.
  intros Hq H0. destruct ex_reclaim_state as [H1 _ _ _ _]. split; try done; [|constructor|by apply Forall_singleton].
  split; [by apply ex_start_ok|]. intros a. cbn [blocks allocator ex_rstate].
  assert (live (alloc_start (ex_vm 0x900000)) = ∅) as -> by (vm_compute; reflexivity). by rewrite !lookup_empty.
Qed.

Lemma ex_sys_start : sys_start (ex_system []).
Proof.
  split; [|done|done]. apply ex_rstate_ok; [|by intros ?%elem_of_nil].
  change (ex_queue []) with (mk_queue [0; 0; 0; 0] 4 0 4). split; [by exists 2|]. split; [done|]. cbn. lia.
Qed.

Lemma ex_round_fits : round_fits (ex_rstate [ex_queue [0x3000; 0x1000; 0x2000]]) [] ex_env_mem.
Proof.
  assert (gathered (ex_rstate [ex_queue [0x3000; 0x1000; 0x2000]]) (limit_of (ex_rstate [ex_queue [0x3000; 0x1000; 0x2000]])) []
    = [0x3000; 0x1000; 0x2000]) as E by reflexivity.
  split; rewrite ?E.
  - done.
  - done.
  - intros _. rewrite !elem_of_cons, elem_of_nil. intuition discriminate.
  - intros p a' Ha i Hi. assert (0x900000 <= p) as Hp.
    { assert ((x ← alloc_mmap 8192 (alloc_start (ex_vm 0x900000)); Ret (0x900000 <=? x.1)) = Ret true) as Hc by (vm_compute; reflexivity).
      change (alloc_mmap 8192 (alloc_start (ex_vm 0x900000)) = Ret (p, a')) in Ha. rewrite Ha in Hc.
      injection Hc. cbn. lia. }
    destruct (ex_env_mem !! elt p i) as [x|] eqn:Hx; [|done]. apply ex_env_below in Hx. unfold elt, sizeof_size_t in Hx. lia.
  - split; vm_compute; discriminate.
Qed.

Lemma ex_collect_step l a :
  a ∉ (list_to_set (reverse l) : gset Z) → 0 < a → a `mod` 4 = 0 →
  own_is_full 0 (ex_rstate [ex_queue l]) = Ret 0 → zlen l < 5 →
  own_push 0 a (ex_rstate [ex_queue l]) = Ret (ex_rstate [ex_queue (l ++ [a])]) →
  sys_step ex_vars ex_kill ex_sigpending (ex_system l) (ex_system (l ++ [a])).
Proof.
  intros HR Hpos Hal Hfull Hlen Hpush. unfold ex_system at 2. rewrite reverse_snoc.
  apply (sys_collect _ _ _ _ _ _ _ _ 0 (ex_queue l)); try done. cbn. lia.
Qed.

Lemma ex_sys_users :
  users_ok ex_heap (.∈ (list_to_set (reverse [0x3000; 0x1000; 0x2000]) : gset Z)) ex_user [ex_other] ex_env_mem.
Proof.
  intros t Ht. apply (user_ok_retired _ ex_retired); [|by apply ex_users]. intros p. unfold ex_retired.
  rewrite elem_of_list_to_set, elem_of_reverse, !elem_of_cons, elem_of_nil. tauto.
Qed.

Lemma history_safe_witness :
  ∃ s, rtc (sys_step ex_vars ex_kill ex_sigpending) (ex_system []) s ∧ s.(dead) = {[0x1000]} ∧
    s.(sys_state).(freed) = [0x1000] ∧ ¬ held s.(sys_threads) s.(sys_mem) 0x1000.
Proof.
  set (st := ex_rstate [ex_queue [0x3000; 0x1000; 0x2000]]).
  set (o := reclaim_under ex_schedule ex_vars ex_kill ex_sigpending ex_user ex_me [ex_other] st ex_env_mem).
  assert ((λ x, freed x.1) <$> o = Some [0x1000]) as Hfr by (vm_compute; reflexivity).
  destruct o as [[st' m']|] eqn:E; [|done]. injection Hfr as Hfr. cbn in Hfr.
  apply reclaim_under_sound in E.
  assert (rtc (sys_step ex_vars ex_kill ex_sigpending) (ex_system [])
    (Build_system _ st' m' [ex_me; ex_other] (list_to_set (reverse [0x3000; 0x1000; 0x2000])) {[0x1000]})) as Hr.
  { eapply rtc_l; [apply (ex_collect_step [] 0x3000); [by vm_compute|done|done|by vm_compute|done|by vm_compute]|].
    eapply rtc_l; [apply (ex_collect_step [0x3000] 0x1000); [by vm_compute|done|done|by vm_compute|done|by vm_compute]|].
    eapply rtc_l; [apply (ex_collect_step [0x3000; 0x1000] 0x2000); [by vm_compute|done|done|by vm_compute|done|by vm_compute]|].
    apply rtc_once. pose proof (sys_reclaim ex_vars ex_kill ex_sigpending st ex_env_mem [ex_me; ex_other]
      (list_to_set (reverse [0x3000; 0x1000; 0x2000])) ∅ ex_heap ex_user ex_me [ex_other] [] st' m' (Permutation_refl _)
      eq_refl ex_round_fits ex_round_env ex_kill_delivers ex_sys_users E) as Hs.
    rewrite Hfr in Hs. exact Hs. }
  eexists. split; [exact Hr|]. split; [done|]. split; [exact Hfr|].
  destruct (history_safe ex_vars ex_kill ex_sigpending _ _ ex_sys_start Hr) as [Hd _].
  apply Hd. by apply elem_of_singleton.
Defined.

(** Only the third thread, which has not started, refers to 0x1000. *)
Lemma ex_only_argument : ¬ in_use ex_me [ex_other] ex_env_mem ex_env_mem 0x1000.
Proof.
  unfold in_use. rewrite holding_refers. intros (t & Ht & a & w & Ha & Hw & Hp).
  apply elem_of_scan_words in Ha. rewrite ex_env_words in Ha by done.
  assert (a ∈ [0x20000; 0x20008; 0x30000; 0x40000; 0x40008]) as Hin
    by (revert Ha; case_bool_decide; rewrite !elem_of_cons, elem_of_nil; tauto).
  clear Ha. repeat (apply elem_of_cons in Hin as [->|Hin]; [vm_compute in Hw; injection Hw as <-; discriminate Hp|]).
  by apply elem_of_nil in Hin.
Qed.

Lemma pending_argument_freed_witness :
  ∃ st4 m4, threadscan_reclaim ex_vars ex_kill ex_sigpending ex_user ex_me [ex_other] ex_state ex_env_mem st4 m4 ∧
    0x1000 ∈ st4.(freed) ∧ wp (run (threadscan_thread_base 0x300000 0x60000 3) m4) (λ r, r.1.2 = 0x1000).
Proof.
  destruct (reclaim_completes ex_vars ex_kill ex_sigpending ex_heap ex_retired ex_user ex_me [ex_other] ex_state [] ex_env_mem
    ex_reclaim_state ex_reclaim_round ex_round_env ex_kill_delivers ex_users) as (st4 & m4 & E).
  exists st4, m4. split; [exact E|].
  apply (pending_argument_freed ex_vars ex_kill ex_sigpending ex_heap ex_retired ex_user ex_me [ex_other] ex_state st4 [] ex_env_mem m4
    0x300000 0x1000 0x60000 3 ex_reclaim_state ex_reclaim_round (proj1 ex_gathered_distinct) (proj2 ex_gathered_distinct)
    ex_gathered_retired ex_round_env ex_kill_delivers ex_users).
  - assert (Forall (λ b, is_Some (ex_env_mem !! b)) (td_scalars 0x300000)) as Hall by (apply (bool_decide_unpack _); vm_compute; reflexivity).
    by rewrite Forall_forall in Hall.
  - reflexivity.
  - by apply ex_not_vol.
  - discriminate.
  - rewrite ex_gathered, !elem_of_cons. tauto.
  - exact ex_only_argument.
  - exact E.
Defined.
End example.
